(* ===== verification/_CoqProject ===== *)
-Q . S2P
Prelude.v
SortUtil.v
AddrBuffer.v
Search.v
Mark.v
Roots.v
Alloc.v
Ranges.v
Child.v
Siblings.v
Buffer.v
Gc.v
Free.v
FreeList.v
Queue.v
Spsc.v
Gather.v
Env.v
Sleep.v
Stats.v
Pool.v
PoolRace.v
Collect.v
Threads.v
Wrappers.v
Startup.v
Maps.v
Iteration.v
Cycle.v
Drain.v
Overlap.v
Handshake.v
Handoff.v
Reclaimer.v
Frontend.v
Api.v
