(* ===== verification/Prelude.v ===== *)
(** * Forkscan

    A shallow embedding of Forkscan, a C library for reclaiming memory that
    several threads share, with the theorems that make it correct.

    ** The program

    A thread that unlinks a node calls [forkscan_retire] (frontend.c).  The
    pointer goes into the thread's queue (queue.c); a thread with a full queue
    takes the reclaimer's lock (thread.c), gathers the queues of all threads
    into a buffer (buffer.c) and hands it to the collector's thread
    (forkscan.c).  The collector gathers the buffers into one aggregate, stops
    all threads with a signal (proc.c), forks, and lets the threads go on.
    The child sorts the addresses and scans its snapshot of the memory
    (child.c): it reads the process's memory map (proc.c), leaves out what
    Forkscan has mapped for itself (alloc.c), and marks every tracked node
    that a word of the rest refers to, with further processes to share the
    work.  The aggregate lies in shared memory, so the collector finds the
    marks: marked nodes are tried again in the next iteration, the others are
    freed by the threads, a few at a time (util.c).  Threads get their record,
    queue and stack from pools (metautil.h) in the wrappers of the functions
    of libpthread (wrappers.c).

    ** The files

    - [Prelude]: the outcomes of C code, integers, arrays, linked lists,
      loops; their lemmas and the tactics.
    - [SortUtil]: util.c, sorting and compaction of arrays.
    - [AddrBuffer]: buffer.h, the record [addr_buffer_t] and the pool the
      scanner searches, [pool_wf].
    - [Search], [Mark], [Roots], [Ranges], [Child], [Siblings]: child.c, from
      the search of one value to the scan of one table by several processes.
    - [Alloc]: alloc.c; it provides the interface [Subranges] to [Ranges].
    - [Buffer]: buffer.c, the buffers and the lists they wait in.
    - [Gc], [Collect]: forkscan.c, the parts of [reclaim_iteration] and their
      composition.  The scan is behind the interface [Scanner].
    - [Iteration]: child.c and forkscan.c, the whole of [forkscan_child], which
      implements [Scanner], and what an iteration with it promises.
    - [Cycle]: one iteration after another: the steps of the threads that
      hand in and free, on the operations of [Buffer] and [Free], and those of
      the collector, in any order.  [Drain]: that the threads get done.
    - [Overlap]: the same with the collector in the middle of an iteration,
      one step for each part of [reclaim_iteration] that others can see.
    - [Handshake]: forkscan.c and frontend.c, stopping the threads for the
      fork.
    - [Handoff]: forkscan.c, [forkscan_initiate_collection] and the loop of
      [forkscan_thread].
    - [Reclaimer]: thread.c and proc.c, the reclaimer's lock and the clock
      that helpers read.
    - [Free]: util.c, freeing what the collector found unreferenced.
    - [FreeList]: util.c, the stack of free lists under several threads.
    - [Queue]: queue.c, one call after the other; [Spsc]: the same code with
      its reader and its writer interleaved; [Gather]: frontend.c, the
      reclaimer's walk over the queues while the threads go on retiring.
    - [Env]: env.c.  [Sleep]: sleep.c.  [Pool]: metautil.h; [PoolRace]: the
      allocation of chunks by several threads at once.
    - [Threads]: util.c, proc.c, thread.c and buffer.c, the threads' records,
      the two lists they are in, signalling.
    - [Wrappers]: wrappers.c and thread.c, creation, start, exit and join of
      threads, and the main thread.
    - [Maps]: proc.c, reading the memory map, and its composition with
      [Ranges].
    - [Frontend]: frontend.c, retiring, becoming the reclaimer, forcing an
      iteration; it composes [Queue], [Threads], [Buffer], [Free] and
      [Handoff].
    - [Api]: frontend.c and forkscan.c, allocating through the library; the
      allocator is behind the interface [Allocator].
    - [Stats]: util.c and forkscan.c, messages, the clock, the statistics.
    - [Startup]: wrappers.c, frontend.c, proc.c and forkscan.c, constructors,
      start of the program, the fork for a scan, the end of the process.

    ** How the code is translated

    A C function is a Rocq function of the same name to [res]: [Ok] with what
    it returns and the state it leaves, or [Err] with the way it fails: a
    failed [assert], [forkscan_fatal], an access outside an array, a null
    pointer, the overflow of a signed integer.  Unsigned arithmetic is written
    with its wrap ([u64], [u32]).  An array is a [list Z] with checked
    accesses; structures that are linked through pointers live in a [gmap]
    from addresses to records, so aliasing is the code's.  The static
    variables of a file are the fields of a record that is passed along.

    Code that runs under one mutex is one operation.  Where threads meet
    without a mutex, or let one go in the middle of an operation ([Child],
    [Siblings], [Free], [Cycle], [Overlap], [FreeList], [Spsc], [Gather], [PoolRace],
    [Handshake], [Handoff], [Reclaimer]) the model is a step relation or a machine driven by a schedule, with one step
    for each access of a shared variable, each critical section, or each
    atomic instruction, and the theorems are about every interleaving.  Memory
    is sequentially consistent.  In [Siblings] the step is the scan of a
    range: the processes' writes to the table are idempotent marks.

    ** Loops and fuel

    Loops run on fuel, [OutOfFuel] being an error, and every theorem says
    that the outcome is [Ok] (or which error), so it includes termination.
    A walk of a linked list has the size of the store and two more, which a
    list without repetition cannot exceed; the outer loop of [find_roots] has
    the number of tracked and dead blocks and three, each round passing a
    block or reaching the end ([roots_fuel]); [recursive_mark] one more than the
    number of nodes, each call marking one; the reading of the map the length
    of the file and two more, each line taking a character.  The fuel of
    [collect_ranges] is an argument, enough when it exceeds the number of
    mapped blocks by two.  The loops of [forkscan_retire] and
    [forkscan_force_reclaim] are driven by the list of answers of
    [forkscan_thread_cleanup_try_acquire].  The loop that skips the rest of a
    line of the map does not end at the end of the file; there [OutOfFuel] is
    what the code does.

    ** What the theorems show

    The collection: [Iteration] (no node that scanned memory refers to is
    freed, and only nodes with such a reference, or one from such a node, are
    kept), [Collect] (an iteration divides the nodes into those to be freed
    and those kept), [Gc] (the aggregate becomes a well-formed pool, the
    marked nodes are kept), [Siblings], [Child] and [Roots] (every node
    referred to by a scanned word is marked when the parent is told, and every
    range is scanned once, whatever the order of the processes), [Mark] (the
    lookaside list is drained; [recursive_mark] reaches the direct referents
    only), [Search], [SortUtil].

    From one iteration to the next.  The threads take the turns of [Free], with
    its two reads of [free_idx], so one of them can get behind the entries of
    its buffer, and [Cycle.overrun_frees_kept] shows that this happens from
    the start of the program and that a node which the collector keeps is then
    freed.  So what [Cycle], [Drain] and [Overlap] promise has the hypothesis
    [within], that no thread is there; progress needs of the threads besides
    that none is about to get there ([late], [on_time]).  Under it: [Cycle]
    (every node that was retired is freed or waits, once, in a known place,
    whatever the order of the steps; the collector can go on), [Drain] (so can
    every thread that holds a retiree; what the collector found dead can all
    be freed, and everything once nothing is referred to), [Overlap] (the same
    account of the nodes at every point inside an iteration; what the scan
    found referenced is neither freed nor lost while the threads free the rest
    of the same buffer; the collector gets to the end of an iteration; the
    iterations of [Cycle] are runs of these steps).

    The snapshot: [Handshake] (at the fork all threads stand in the
    acknowledgement loop, and none is inside the allocator; the fork is reached unless a stopped thread holds the lock of
    alloc.c), [Maps] (reading undoes printing; the ranges made of a whole map),
    [Threads] (who is signalled).

    The hand-over: [Spsc] (a queue with one reader and one writer is
    linearizable, does not fail, and lets the reader finish alone), [Gather]
    (what the threads retire while the reclaimer walks is neither lost nor
    handed over twice; what was queued when the walk began is in the buffer;
    the assertions on the way hold for up to 257 threads), [Queue] (a queue
    is a first-in first-out list), [Frontend] (a call of [forkscan_retire] or
    [forkscan_force_reclaim] from beginning to end), [Handoff] (no buffer is
    lost or collected twice, sleepers wake; with the wakeups without a signal
    that POSIX allows), [Reclaimer] (mutual exclusion),
    [Buffer] (the retirees and the dead references), [Free] (no entry is freed
    twice, exactly the unmarked ones are freed).

    Memory: [Alloc] (what is tracked is what is mapped; subranges are free of
    it), [Pool] and [PoolRace] (chunks do not overlap, also when threads
    allocate at once), [FreeList] (pushes and pops, with the lists that
    the pops return, are those of a stack, and no freed node is read), [Wrappers] (threads share nothing, and give back what
    they take), [Env] (bounds of the settings), [Api] (retiring what was
    allocated; a signal during the allocator's work is answered after it).

    The process: [Startup] (what is in place before the user's [main] runs;
    the handlers that are replaced; a scanning process does not outlive its
    parent's end), [Stats] (what is printed, and when printing fails).

    Some theorems show failures: [Free.free_overruns_buffer],
    [Cycle.overrun_frees_kept],
    [Mark.marking_misses_child_of_root], [Buffer.pop_last_loses_push],
    [Handshake.first_round_deadlock], [Handoff.spurious_wakeup_fails],
    [Ranges.add_piece_overflows], [Maps.read_mapline_overflows],
    [Startup.handlers_first_has_no_room], [Stats.ave_after_step_back], the
    error cases of [Wrappers.pthread_create_correct],
    [FreeList.push_out_of_memory], [Drain.empty_iteration_fails] and
    [Drain.held_nodes_unfreed].

    ** What is assumed

    The kernel, libpthread and the C library are parameters: the answers of
    [mmap] (fresh, page-aligned blocks), of [pthread_create], [pthread_kill]
    and the attribute functions, the clock, the environment, the text of the
    memory map, the usable size of a block.  In [Handshake] the threads of a
    round are fixed, since the walk that signals them holds the lock of their
    list and threads that begin later are not awaited, and the counter of
    rounds does not wrap; in [Reclaimer] the clock's 63 bits do not run out.
    In [Spsc] and [Gather] each queue has one writer, its thread, and one
    reader, the holder of the reclaimer's lock, and the 64-bit indices do not
    pass 2^63; in [Gather] the list of threads is fixed while the walk holds
    its lock.  [Frontend] runs one thread's call from its beginning to its
    end, while [Spsc], [Gather], [Handoff], [Reclaimer] and [Free] have the
    interleavings of its parts.  In [Cycle] an iteration is one step, and
    [Overlap] takes it apart; there the snapshot, with all threads stopped, is
    one step with the scan, whose answer, marks in shared memory that nobody
    reads before the child has written to the pipe, waits in the collector's
    phase until then.  In both the user retires a node once, and again only after it was freed and
    allocated anew; nodes in waiting fit in one aggregate.  In [Api] an allocator returns blocks that
    are not in use; in [Startup] the answers of the dynamic linker, [signal],
    [fork] and the user's [main] are parameters.  The code asserts what it
    relies on; a build with [NDEBUG] drops these tests, and the theorems that
    a function ends with [Ok] say that it does not need them.

    ** What is not modelled

    The formatting that [printf] does, and the blocks under TIMING; the start
    routine and argument in a thread's record and the running of user code;
    the pipe between collector and child, but for who writes to it; what
    [exit] does in a child besides ending it; the public
    header, which only declares, and the tests. *)
From stdpp Require Export base numbers list gmap.
From Stdlib Require Export ZArith Lia.

#[global] Open Scope Z_scope.

(** * Outcomes of a C computation *)

(** What a run of the C code may end in besides a value.  [AssertFailed] is a
    failing [assert] of the debug build, [Fatal] a call of [forkscan_fatal],
    the other constructors are undefined behaviour the model makes visible
    ([OutOfFuel] is the model's own: a loop that used up its bound). *)
Inductive error : Type :=
  | OutOfBounds
  | NullDeref
  | IntOverflow
  | AssertFailed
  | Fatal
  | OutOfFuel.

Inductive res (A : Type) : Type :=
  | Ok (a : A)
  | Err (e : error).
Arguments Ok {A} a.
Arguments Err {A} e.

#[export] Instance error_eq_dec : EqDecision error.
Proof. intros [] []; (left; reflexivity) || (right; discriminate). Defined.

Definition bind {A B : Type} (m : res A) (k : A -> res B) : res B :=
  match m with
  | Ok a => k a
  | Err e => Err e
  end.

Declare Scope res_scope.
Delimit Scope res_scope with res.
Notation "'let!' x := m 'in' k" := (bind m (fun x => k))
  (at level 10, x name, m at level 100, k at level 200) : res_scope.
Notation "'let!' ' p := m 'in' k" := (bind m (fun p => k))
  (at level 10, p strict pattern, m at level 100, k at level 200) : res_scope.
Notation "m ;! k" := (bind m (fun _ => k))
  (at level 199, k at level 200, right associativity) : res_scope.
#[global] Open Scope res_scope.

(** [assert(b)]: the debug build stops, the release build ([-DNDEBUG]) does
    not evaluate it.  A run without [AssertFailed] is a run of both builds. *)
Definition assert (b : bool) : res unit := if b then Ok tt else Err AssertFailed.

(** Total correctness: the computation returns, and its value satisfies [Q]. *)
Definition wp {A : Type} (m : res A) (Q : A -> Prop) : Prop :=
  match m with
  | Ok a => Q a
  | Err _ => False
  end.

Lemma wp_iff {A} (m : res A) Q : wp m Q <-> exists a, m = Ok a /\ Q a.
Proof.
  destruct m as [a | e]; simpl; split.
  - intros HQ. by exists a.
  - intros (b & [= ->] & HQ). done.
  - done.
  - by intros (b & ? & _).
Qed.

Lemma wp_ok {A} (a : A) (Q : A -> Prop) : Q a -> wp (Ok a) Q.
Proof. done. Qed.

Lemma wp_bind {A B} (m : res A) (k : A -> res B) Q :
  wp m (fun a => wp (k a) Q) -> wp (bind m k) Q.
Proof. by destruct m. Qed.

Lemma bind_ok {A B} (a : A) (k : A -> res B) : bind (Ok a) k = k a.
Proof. done. Qed.

Lemma bind_err {A B} e (k : A -> res B) : bind (Err e) k = Err e.
Proof. done. Qed.

Lemma wp_mono {A} (m : res A) (P Q : A -> Prop) :
  wp m P -> (forall a, P a -> Q a) -> wp m Q.
Proof. destruct m; simpl; auto. Qed.

Lemma wp_assert b (Q : unit -> Prop) : b = true -> Q tt -> wp (assert b) Q.
Proof. by intros ->. Qed.

(** * Machine integers *)

(** [size_t] and [unsigned long long] are 64 bits wide, [unsigned int] and
    [int] 32 bits.  Unsigned arithmetic wraps; signed overflow is undefined
    and reported as [IntOverflow]. *)
Definition u64 (z : Z) : Z := z mod 2 ^ 64.
Definition u32 (z : Z) : Z := z mod 2 ^ 32.
Definition INT_MAX : Z := 2 ^ 31 - 1.
Definition INT_MIN : Z := - 2 ^ 31.

Definition int_chk (z : Z) : res Z :=
  if (INT_MIN <=? z) && (z <=? INT_MAX) then Ok z else Err IntOverflow.

(** Conversion of an unsigned value to [int] (gcc: modulo 2^32). *)
Definition to_int (z : Z) : Z := (z + 2 ^ 31) mod 2 ^ 32 - 2 ^ 31.

Definition size_ok (z : Z) : Prop := 0 <= z < 2 ^ 64.
Definition int_ok (z : Z) : Prop := INT_MIN <= z <= INT_MAX.

Lemma u64_small z : size_ok z -> u64 z = z.
Proof. intros H. apply Z.mod_small, H. Qed.

Lemma u64_range z : size_ok (u64 z).
Proof. unfold size_ok, u64. apply Z.mod_pos_bound. lia. Qed.

Lemma u32_small z : 0 <= z < 2 ^ 32 -> u32 z = z.
Proof. apply Z.mod_small. Qed.

Lemma to_int_small z : int_ok z -> to_int z = z.
Proof.
  unfold int_ok, INT_MIN, INT_MAX, to_int. intros H.
  rewrite Z.mod_small; lia.
Qed.

Lemma int_chk_ok z : int_ok z -> int_chk z = Ok z.
Proof.
  unfold int_ok, int_chk. intros [H1 H2].
  by rewrite (proj2 (Z.leb_le _ _) H1), (proj2 (Z.leb_le _ _) H2).
Qed.

Lemma wp_int_chk z (Q : Z -> Prop) : int_ok z -> Q z -> wp (int_chk z) Q.
Proof. intros H HQ. by rewrite int_chk_ok. Qed.

(** * The macros of util.h *)

Definition WORD : Z := 8.                     (* sizeof(size_t) *)
Definition PAGESIZE : Z := 0x1000.
Definition CACHELINESIZE : Z := 64.
Definition PTR_MASK (v : Z) : Z := Z.land v (2 ^ 64 - 1 - 3).
Definition MIN_OF (a b : Z) : Z := if a <? b then a else b.
Definition MAX_OF (a b : Z) : Z := if a <? b then b else a.

Lemma MIN_OF_min a b : MIN_OF a b = Z.min a b.
Proof. unfold MIN_OF. destruct (Z.ltb_spec a b); lia. Qed.

Lemma MAX_OF_max a b : MAX_OF a b = Z.max a b.
Proof. unfold MAX_OF. destruct (Z.ltb_spec a b); lia. Qed.

Lemma PTR_MASK_eq v : size_ok v -> PTR_MASK v = v - v mod 4.
Proof.
  intros Hv. unfold PTR_MASK.
  change (2 ^ 64 - 1 - 3) with (Z.land (Z.ones 64) (Z.lnot (Z.ones 2))).
  rewrite Z.land_assoc, Z.land_ones by lia.
  rewrite (Z.mod_small v) by apply Hv.
  rewrite <- Z.ldiff_land, Z.ldiff_ones_r by lia.
  rewrite Z.shiftr_div_pow2, Z.shiftl_mul_pow2 by lia.
  change (2 ^ 2) with 4. pose proof (Z.div_mod v 4). lia.
Qed.

Definition aligned4 (v : Z) : Prop := v mod 4 = 0.

Lemma PTR_MASK_aligned v : size_ok v -> aligned4 v -> PTR_MASK v = v.
Proof. intros Hv Ha. rewrite PTR_MASK_eq by done. unfold aligned4 in Ha. lia. Qed.

Lemma PTR_MASK_is_aligned v : size_ok v -> aligned4 (PTR_MASK v).
Proof.
  intros Hv. rewrite PTR_MASK_eq by done. unfold aligned4.
  Z.to_euclidean_division_equations. lia.
Qed.

Lemma PTR_MASK_range v : size_ok v -> size_ok (PTR_MASK v).
Proof.
  unfold size_ok. intros Hv. rewrite PTR_MASK_eq by done.
  Z.to_euclidean_division_equations. lia.
Qed.

(** * Arrays *)

(** A C array is the list of its elements; an access outside it is
    undefined behaviour and ends the run. *)
Definition zlen (a : list Z) : Z := Z.of_nat (length a).
Definition get (a : list Z) (i : Z) : Z := a !!! Z.to_nat i.
Definition upd (a : list Z) (i v : Z) : list Z := <[Z.to_nat i := v]> a.

Definition rd (a : list Z) (i : Z) : res Z :=
  if (0 <=? i) && (i <? zlen a) then Ok (get a i) else Err OutOfBounds.

Definition wr (a : list Z) (i v : Z) : res (list Z) :=
  if (0 <=? i) && (i <? zlen a) then Ok (upd a i v) else Err OutOfBounds.

(** [memcpy] of [n] words: read a block, write a block. *)
Definition slice (a : list Z) (off n : Z) : list Z := take (Z.to_nat n) (drop (Z.to_nat off) a).

Definition rd_block (a : list Z) (off n : Z) : res (list Z) :=
  if (0 <=? off) && (0 <=? n) && (off + n <=? zlen a) then Ok (slice a off n)
  else Err OutOfBounds.

Definition wr_block (a : list Z) (off : Z) (b : list Z) : res (list Z) :=
  if (0 <=? off) && (off + zlen b <=? zlen a)
  then Ok (take (Z.to_nat off) a ++ b ++ drop (Z.to_nat (off + zlen b)) a)
  else Err OutOfBounds.

Lemma rd_ok a i : 0 <= i < zlen a -> rd a i = Ok (get a i).
Proof.
  intros [H1 H2]. unfold rd.
  by rewrite (proj2 (Z.leb_le _ _) H1), (proj2 (Z.ltb_lt _ _) H2).
Qed.

Lemma wr_ok a i v : 0 <= i < zlen a -> wr a i v = Ok (upd a i v).
Proof.
  intros [H1 H2]. unfold wr.
  by rewrite (proj2 (Z.leb_le _ _) H1), (proj2 (Z.ltb_lt _ _) H2).
Qed.

Lemma wp_rd a i (Q : Z -> Prop) : 0 <= i < zlen a -> Q (get a i) -> wp (rd a i) Q.
Proof. intros H HQ. by rewrite rd_ok. Qed.

Lemma wp_wr a i v (Q : list Z -> Prop) :
  0 <= i < zlen a -> Q (upd a i v) -> wp (wr a i v) Q.
Proof. intros H HQ. by rewrite wr_ok. Qed.

Lemma rd_block_ok a off n :
  0 <= off -> 0 <= n -> off + n <= zlen a -> rd_block a off n = Ok (slice a off n).
Proof.
  intros H1 H2 H3. unfold rd_block.
  rewrite (proj2 (Z.leb_le _ _) H1), (proj2 (Z.leb_le _ _) H2).
  by rewrite (proj2 (Z.leb_le _ _) H3).
Qed.

Lemma wr_block_ok a off b :
  0 <= off -> off + zlen b <= zlen a ->
  wr_block a off b = Ok (take (Z.to_nat off) a ++ b ++ drop (Z.to_nat (off + zlen b)) a).
Proof.
  intros H1 H2. unfold wr_block.
  by rewrite (proj2 (Z.leb_le _ _) H1), (proj2 (Z.leb_le _ _) H2).
Qed.

Lemma zlen_nonneg a : 0 <= zlen a.
Proof. unfold zlen. lia. Qed.

Lemma zlen_upd a i v : zlen (upd a i v) = zlen a.
Proof. unfold zlen, upd. by rewrite length_insert. Qed.

Lemma get_upd_eq a i v : 0 <= i < zlen a -> get (upd a i v) i = v.
Proof. unfold zlen, get, upd. intros H. apply list_lookup_total_insert_eq. lia. Qed.

Lemma get_upd_ne a i j v : 0 <= i -> 0 <= j -> i <> j -> get (upd a i v) j = get a j.
Proof. unfold get, upd. intros H1 H2 H3. apply list_lookup_total_insert_ne. lia. Qed.

Lemma get_upd a i j v :
  0 <= i < zlen a -> 0 <= j -> get (upd a i v) j = if decide (i = j) then v else get a j.
Proof.
  intros Hi Hj. case_decide as E; subst; [by apply get_upd_eq |].
  apply get_upd_ne; lia.
Qed.

Lemma get_lookup a i : 0 <= i < zlen a -> a !! Z.to_nat i = Some (get a i).
Proof. unfold zlen, get. intros H. apply list_lookup_lookup_total_lt. lia. Qed.

Lemma lookup_get (a : list Z) n v : a !! n = Some v -> get a (Z.of_nat n) = v.
Proof. unfold get. rewrite Nat2Z.id. apply list_lookup_total_correct. Qed.

Lemma upd_id a i : upd a i (get a i) = a.
Proof.
  unfold upd, get. destruct (decide (Z.to_nat i < length a)%nat).
  - apply list_insert_id, list_lookup_lookup_total_lt. lia.
  - apply list_insert_ge. lia.
Qed.

Lemma list_eq_get (a b : list Z) :
  zlen a = zlen b -> (forall i, 0 <= i < zlen a -> get a i = get b i) -> a = b.
Proof.
  unfold zlen. intros Hl Hg. apply list_eq_same_length with (length a); [lia..|].
  intros i x y Hi Hx Hy. apply lookup_get in Hx, Hy.
  rewrite <- Hx, <- Hy. apply Hg. lia.
Qed.

Lemma get_seqZ (s n : nat) i :
  0 <= i < Z.of_nat n -> get (Z.of_nat <$> seq s n) i = Z.of_nat s + i.
Proof.
  intros Hi. unfold get. apply list_lookup_total_correct.
  rewrite list_lookup_fmap, lookup_seq_lt by lia. simpl. f_equal. lia.
Qed.

Lemma zlen_slice a off n :
  0 <= off -> 0 <= n -> off + n <= zlen a -> zlen (slice a off n) = n.
Proof. unfold zlen, slice. rewrite length_take, length_drop. lia. Qed.

Lemma get_slice a off n i :
  0 <= off -> 0 <= i < n -> off + n <= zlen a -> get (slice a off n) i = get a (off + i).
Proof.
  intros H1 H2 H3. unfold get, slice.
  rewrite !list_lookup_total_alt. f_equal.
  rewrite lookup_take_lt, lookup_drop by lia. f_equal. lia.
Qed.

Lemma zlen_app a b : zlen (a ++ b) = zlen a + zlen b.
Proof. unfold zlen. rewrite length_app. lia. Qed.

Lemma zlen_cons x a : zlen (x :: a) = zlen a + 1.
Proof. unfold zlen. simpl. lia. Qed.

Lemma get_app a b i :
  0 <= i -> get (a ++ b) i = if decide (i < zlen a) then get a i else get b (i - zlen a).
Proof.
  unfold get, zlen. intros Hi. case_decide.
  - by rewrite lookup_total_app_l by lia.
  - rewrite lookup_total_app_r by lia. f_equal. lia.
Qed.

Lemma wp_rd_block a off n (Q : list Z -> Prop) :
  0 <= off -> 0 <= n -> off + n <= zlen a ->
  (forall b, zlen b = n -> (forall i, 0 <= i < n -> get b i = get a (off + i)) -> Q b) ->
  wp (rd_block a off n) Q.
Proof.
  intros H1 H2 H3 HQ. rewrite rd_block_ok by done. apply HQ; [by apply zlen_slice |].
  intros i Hi. by apply get_slice.
Qed.

Lemma wp_wr_block a off b (Q : list Z -> Prop) :
  0 <= off -> off + zlen b <= zlen a ->
  (forall a', zlen a' = zlen a ->
     (forall j, 0 <= j -> get a' j = if decide (off <= j < off + zlen b) then get b (j - off) else get a j) ->
     Q a') ->
  wp (wr_block a off b) Q.
Proof.
  unfold zlen. intros H1 H2 HQ. rewrite wr_block_ok by (unfold zlen; lia). apply HQ.
  - unfold zlen. rewrite !length_app, length_take, length_drop. lia.
  - intros j Hj. unfold get. rewrite !list_lookup_total_alt. case_decide as Hd.
    + rewrite lookup_app_r by (rewrite length_take; lia).
      rewrite lookup_app_l by (rewrite length_take; lia).
      do 2 f_equal. rewrite length_take. lia.
    + destruct (decide (j < off)).
      * rewrite lookup_app_l by (rewrite length_take; lia). by rewrite lookup_take_lt by lia.
      * rewrite lookup_app_r by (rewrite length_take; lia).
        rewrite lookup_app_r by (rewrite length_take; lia).
        rewrite lookup_drop, length_take. do 2 f_equal. unfold zlen. lia.
Qed.

Lemma take_upd_snoc a acc v : zlen acc < zlen a -> take (length acc) a = acc ->
  take (length (acc ++ [v])) (upd a (zlen acc) v) = acc ++ [v].
Proof.
  unfold zlen, upd. intros Hlt Hacc. rewrite Nat2Z.id, length_app. cbn.
  rewrite Nat.add_1_r, (take_S_r _ _ v) by (apply list_lookup_insert_eq; lia).
  rewrite take_insert_ge by lia. by rewrite Hacc.
Qed.

Lemma elem_of_mid {A} (l1 : list A) c l2 : c ∈ l1 ++ c :: l2.
Proof. apply elem_of_app. right. left. Qed.

Lemma elem_of_insert {A} (l : list A) (i : nat) x q : q ∈ <[i := x]> l -> q = x \/ q ∈ l.
Proof.
  intros H. apply list_elem_of_lookup in H as [j Hj]. destruct (decide (i = j)) as [<- | Hne].
  - destruct (decide (i < length l)%nat).
    + rewrite list_lookup_insert_eq in Hj by done. injection Hj as <-. by left.
    + rewrite list_insert_ge in Hj by lia. right. by eapply list_elem_of_lookup_2.
  - rewrite list_lookup_insert_ne in Hj by done. right. by eapply list_elem_of_lookup_2.
Qed.

Lemma in_mid {A} (l1 l2 : list A) x y : x ∈ l1 ++ y :: l2 <-> x = y \/ x ∈ l1 ++ l2.
Proof. rewrite !elem_of_app, elem_of_cons. tauto. Qed.

(** One element of a list apart, for the lists made of what its elements
    have. *)
Lemma delete_of_insert {A} (l : list A) k x : delete k (<[k := x]> l) = delete k l.
Proof. revert k. induction l as [| y l IH]; intros [| k]; cbn; [done.. |]. f_equal. apply IH. Qed.

Lemma elem_of_delete {A} (l : list A) i j y : l !! j = Some y -> j <> i -> y ∈ delete i l.
Proof.
  revert i j. induction l as [| x l IH]; intros i j Hj Hne; [done |].
  destruct i as [| i], j as [| j]; cbn in *; [done | by eapply list_elem_of_lookup_2 | injection Hj as ->; left |].
  right. apply (IH i j Hj). lia.
Qed.

Lemma bind_lookup {A B} (f : A -> list B) l k x : l !! k = Some x -> l ≫= f ≡ₚ f x ++ (delete k l ≫= f).
Proof. intros H. transitivity ((x :: delete k l) ≫= f); [| done]. by apply bind_Permutation, delete_Permutation. Qed.

Lemma bind_insert {A B} (f : A -> list B) l k x y : l !! k = Some x ->
  <[k := y]> l ≫= f ≡ₚ f y ++ (delete k l ≫= f).
Proof.
  intros H. rewrite (bind_lookup f (<[k := y]> l) k y); [by rewrite delete_of_insert |].
  apply list_lookup_insert_eq. by apply lookup_lt_Some in H.
Qed.

Lemma count_occ_cons_if (a y : Z) l :
  count_occ Z.eq_dec (a :: l) y = ((if Z.eq_dec a y then 1 else 0) + count_occ Z.eq_dec l y)%nat.
Proof. cbn. by destruct (Z.eq_dec a y). Qed.

(** Bounded quantification as a test, for evaluating hypotheses on concrete
    data. *)
Definition all_below (n : Z) (f : Z -> bool) : bool :=
  forallb f (Z.of_nat <$> seq 0 (Z.to_nat n)).

Lemma all_below_spec n f : all_below n f = true -> forall i, 0 <= i < n -> f i = true.
Proof.
  unfold all_below. rewrite forallb_forall. intros H i Hi. apply H.
  apply list_elem_of_In, list_elem_of_fmap. exists (Z.to_nat i).
  split; [lia |]. apply elem_of_seq. lia.
Qed.

Lemma list_snoc_case (l : list Z) : l = [] \/ exists x l0, l = l0 ++ [x].
Proof. induction l as [|x l0 _] using rev_ind; [by left | right; eauto]. Qed.

(** Two splittings of a list at the first [ab]. *)
Lemma split_at_first (k1 k2 l1 l2 : list Z) ab :
  l1 ++ ab :: l2 = k1 ++ k2 -> (ab ∉ k1) -> (ab ∉ l1) -> (forall x k, k2 = x :: k -> x = ab) ->
  k1 = l1 /\ k2 = ab :: l2.
Proof.
  revert k1. induction l1 as [|x l1 IH]; intros [|y k1] E Hk Hl Hx; cbn in *.
  - done.
  - injection E as -> _. exfalso. apply Hk. left.
  - exfalso. apply Hl. rewrite (Hx x (l1 ++ ab :: l2)) by done. left.
  - injection E as -> E. apply not_elem_of_cons in Hk as [_ Hk], Hl as [_ Hl].
    destruct (IH k1 E Hk Hl Hx) as [-> ->]. done.
Qed.

(** * Linked lists *)

(** [NULL]-terminated lists in a store of records [A] with a link [nxt]:
    from [p] on, the records at the addresses [l]. *)
Section lists.
Context {A : Type} (nxt : A -> Z).

Fixpoint lchain (N : gmap Z A) (p : Z) (l : list Z) : Prop :=
  match l with
  | [] => p = 0
  | q :: l' => p = q /\ q <> 0 /\ exists d, N !! q = Some d /\ lchain N (nxt d) l'
  end.

Lemma lchain_frame N N' p l :
  lchain N p l -> (forall q, q ∈ l -> nxt <$> N' !! q = nxt <$> N !! q) -> lchain N' p l.
Proof.
  revert p. induction l as [|q l IH]; intros p Hc HN; [done |].
  destruct Hc as (-> & Hq & d & Hd & Hc). do 2 (split; [done |]).
  pose proof (HN q ltac:(left)) as E. rewrite Hd in E. apply fmap_Some in E as (d' & Hd' & En).
  exists d'. split; [done |]. rewrite <- En. apply IH; [done |]. intros r Hr. apply HN. by right.
Qed.

Lemma lchain_some N p l q : lchain N p l -> q ∈ l -> q <> 0 /\ exists d, N !! q = Some d.
Proof.
  revert p. induction l as [|r l IH]; intros p Hc Hq; [by apply not_elem_of_nil in Hq |].
  destruct Hc as (-> & Hr & d & Hd & Hc). apply elem_of_cons in Hq as [-> | Hq]; [eauto |].
  by apply (IH (nxt d)).
Qed.

Lemma lchain_head N p l : lchain N p l -> p = hd 0 l.
Proof. destruct l; [done |]. by intros (-> & _). Qed.

(** The list behind its [k] first records. *)
Lemma lchain_unique N p l l' : lchain N p l -> lchain N p l' -> l = l'.
Proof.
  revert p l'. induction l as [|x l IH]; intros p [|y l'] H1 H2; cbn in *; [done | | |].
  - destruct H2 as (-> & H & _). by subst.
  - destruct H1 as (-> & H & _). by subst.
  - destruct H1 as (-> & _ & d & Hd & H1), H2 as (-> & _ & d' & Hd' & H2). rewrite Hd in Hd'. injection Hd' as <-.
    f_equal. by eapply IH.
Qed.

Lemma lchain_app N p l1 q l2 : lchain N p (l1 ++ q :: l2) ->
  q <> 0 /\ exists d, N !! q = Some d /\ lchain N (nxt d) l2.
Proof.
  revert p. induction l1 as [|r l1 IH]; intros p; cbn; [by intros (-> & ? & ?) |].
  intros (-> & _ & d & _ & Hc). by apply (IH (nxt d)).
Qed.

Lemma lchain_size N p l : lchain N p l -> NoDup l -> (length l <= size N)%nat.
Proof.
  intros Hc Hnd. rewrite <- size_dom, <- (size_list_to_set (C := gset Z)) by done.
  apply subseteq_size. intros x Hx. apply elem_of_list_to_set in Hx. apply elem_of_dom.
  destruct (lchain_some _ _ _ _ Hc Hx) as (_ & d & ->). by exists d.
Qed.
Lemma lchain_snoc N N' p l x q dx' dq :
  lchain N p (l ++ [x]) -> NoDup (l ++ [x]) -> q ∉ l ++ [x] -> q <> 0 ->
  N' !! x = Some dx' -> nxt dx' = q -> N' !! q = Some dq -> nxt dq = 0 ->
  (forall y, y ∈ l -> N' !! y = N !! y) -> lchain N' p ((l ++ [x]) ++ [q]).
Proof.
  revert p. induction l as [|y l IH]; intros p Hc Hnd Hq Hq0 Hx Hnx Hdq Hnq HN; cbn in *.
  - destruct Hc as (-> & Hx0 & _). do 2 (split; [done |]). exists dx'. split; [done |].
    split; [done |]. split; [done |]. by exists dq.
  - destruct Hc as (-> & Hy0 & dy & Hdy & Hc). apply NoDup_cons in Hnd as [Hy Hnd].
    apply not_elem_of_cons in Hq as [Hqy Hq]. do 2 (split; [done |]). exists dy.
    split; [rewrite HN by left; done |]. apply IH; try done. intros z Hz. apply HN. by right.
Qed.

Lemma lchain_cut N N' p l1 y a l2 da dy' :
  lchain N p (l1 ++ y :: a :: l2) -> NoDup (l1 ++ y :: a :: l2) -> N !! a = Some da ->
  N' !! y = Some dy' -> nxt dy' = nxt da ->
  (forall z, z <> y -> N' !! z = N !! z) -> lchain N' p (l1 ++ y :: l2).
Proof.
  revert p. induction l1 as [|x l1 IH]; intros p Hc Hnd Hda Hy Hny HN; cbn in *.
  - destruct Hc as (-> & Hy0 & dy & Hdy & Eny & Ha0 & da' & Hda' & Hc).
    rewrite Hda in Hda'. injection Hda' as <-.
    do 2 (split; [done |]). exists dy'. split; [done |]. rewrite Hny.
    apply NoDup_cons in Hnd as [Hyn _]. eapply lchain_frame; [exact Hc |]. intros z Hz.
    rewrite HN; [done |]. intros ->. apply Hyn. by right.
  - destruct Hc as (-> & Hx0 & dx & Hdx & Hc). apply NoDup_cons in Hnd as [Hx Hnd].
    do 2 (split; [done |]). exists dx. split; [rewrite HN; [done |] | by apply IH].
    intros ->. apply Hx, elem_of_mid.
Qed.
End lists.

(** * Loops *)

(** [for (i = lo; i < hi; ++i) body] over a state [S]; [hi] is fixed. *)
Fixpoint for_upto {S : Type} (n : nat) (i : Z) (body : Z -> S -> res S) (s : S) : res S :=
  match n with
  | O => Ok s
  | Datatypes.S n' => let! s' := body i s in for_upto n' (i + 1) body s'
  end.

Definition for_range {S : Type} (lo hi : Z) (body : Z -> S -> res S) (s : S) : res S :=
  for_upto (Z.to_nat (hi - lo)) lo body s.

Lemma wp_for_upto {S} (Inv : Z -> S -> Prop) n i body (s : S) :
  Inv i s ->
  (forall j t, i <= j < i + Z.of_nat n -> Inv j t -> wp (body j t) (Inv (j + 1))) ->
  wp (for_upto n i body s) (Inv (i + Z.of_nat n)).
Proof.
  revert i s. induction n as [|n IH]; intros i s Hi Hstep; simpl.
  - by rewrite Z.add_0_r.
  - apply wp_bind. eapply wp_mono; [apply Hstep; [lia | done] |].
    intros t Ht. replace (i + Z.of_nat (Datatypes.S n)) with (i + 1 + Z.of_nat n) by lia.
    apply IH; [done |]. intros j u Hj. apply Hstep. lia.
Qed.

Lemma wp_for_range {S} (Inv : Z -> S -> Prop) lo hi body (s : S) (Q : S -> Prop) :
  lo <= hi ->
  Inv lo s ->
  (forall i t, lo <= i < hi -> Inv i t -> wp (body i t) (Inv (i + 1))) ->
  (forall t, Inv hi t -> Q t) ->
  wp (for_range lo hi body s) Q.
Proof.
  intros Hle H0 Hstep HQ. unfold for_range.
  eapply wp_mono; [| apply HQ].
  replace hi with (lo + Z.of_nat (Z.to_nat (hi - lo))) at 2 by lia.
  apply (wp_for_upto Inv); [done |]. intros j t Hj. apply Hstep. lia.
Qed.

Lemma for_range_empty {S} lo hi body (s : S) : hi <= lo -> for_range lo hi body s = Ok s.
Proof. intros H. unfold for_range. by replace (Z.to_nat (hi - lo)) with O by lia. Qed.

(** A loop with exits: the body answers [Next] to go round again and [Done]
    to leave (by the loop test, [break] or [return]). *)
Inductive flow (S R : Type) : Type :=
  | Next (s : S)
  | Done (r : R).
Arguments Next {S R} s.
Arguments Done {S R} r.

Fixpoint loop {S R : Type} (fuel : nat) (body : S -> res (flow S R)) (s : S) : res R :=
  match fuel with
  | O => Err OutOfFuel
  | Datatypes.S fuel' =>
      let! c := body s in
      match c with
      | Next s' => loop fuel' body s'
      | Done r => Ok r
      end
  end.

Lemma loop_S {S R} fuel (body : S -> res (flow S R)) s :
  loop (Datatypes.S fuel) body s =
    let! c := body s in match c with Next s' => loop fuel body s' | Done r => Ok r end.
Proof. done. Qed.

(** Every loop rule asks for a measure below the fuel, so it proves that the
    bound chosen is enough and the loop ends. *)
Lemma wp_loop {S R} (Inv : S -> Prop) (m : S -> nat) fuel (body : S -> res (flow S R)) s Q :
  Inv s ->
  (m s < fuel)%nat ->
  (forall t, Inv t -> wp (body t) (fun c =>
     match c with
     | Next t' => Inv t' /\ (m t' < m t)%nat
     | Done r => Q r
     end)) ->
  wp (loop fuel body s) Q.
Proof.
  revert s. induction fuel as [|fuel IH]; intros s Hs Hm Hstep; [lia |].
  simpl. apply wp_bind. eapply wp_mono; [apply Hstep, Hs |].
  intros [t | r]; simpl; [| done].
  intros [Ht Hlt]. apply IH; [done | lia | done].
Qed.

(** The same where the measure is only related to the state: what is left of
    a list the loop walks along, say. *)
Lemma wp_loop_rel {S R} (Inv : nat -> S -> Prop) n fuel (body : S -> res (flow S R)) s Q :
  Inv n s ->
  (n < fuel)%nat ->
  (forall k t, Inv k t -> wp (body t) (fun c =>
     match c with
     | Next t' => exists k', (k' < k)%nat /\ Inv k' t'
     | Done r => Q r
     end)) ->
  wp (loop fuel body s) Q.
Proof.
  revert s n. induction fuel as [|fuel IH]; intros s n Hs Hm Hstep; [lia |].
  simpl. apply wp_bind. eapply wp_mono; [apply Hstep, Hs |].
  intros [t | r]; simpl; [| done].
  intros (k & Hlt & Ht). apply (IH t k); [done | lia | done].
Qed.

(** * Automation *)

#[global] Arguments wp : simpl never.
#[global] Arguments bind : simpl never.
#[global] Arguments rd : simpl never.
#[global] Arguments wr : simpl never.
#[global] Arguments int_chk : simpl never.
#[global] Arguments for_range : simpl never.
#[global] Arguments loop : simpl never.

(** [wp_step] peels one instruction off a [wp] goal and leaves its side
    condition (an index in range, an [int] in range, an assertion). *)
Ltac wp_step :=
  cbn beta iota zeta;
  lazymatch goal with
  | |- wp (Ok _) _ => apply wp_ok; cbn beta iota
  | |- wp (bind _ _) _ => apply wp_bind
  | |- wp (rd _ _) _ => apply wp_rd
  | |- wp (wr _ _ _) _ => apply wp_wr
  | |- wp (int_chk _) _ => apply wp_int_chk
  | |- wp (assert _) _ => apply wp_assert
  | |- wp (let (_, _) := ?p in _) _ => destruct p eqn:?
  end.

(** Boolean tests of the code as propositions. *)
Ltac bsplit :=
  repeat match goal with
  | |- context [?a <? ?b] => destruct (Z.ltb_spec a b)
  | |- context [?a <=? ?b] => destruct (Z.leb_spec a b)
  | |- context [?a =? ?b] => destruct (Z.eqb_spec a b)
  end; simpl.

(** Permutations of lists put together in different ways, by counting. *)
Ltac perm :=
  apply (Permutation_count_occ Z.eq_dec); let y := fresh "y" in intros y;
  repeat rewrite ?count_occ_app, ?count_occ_cons_if, ?count_occ_rev; cbn [count_occ]; lia.

Ltac znorm := rewrite ?zlen_upd in *.

Create HintDb fs discriminated.
#[export] Hint Resolve zlen_nonneg u64_range PTR_MASK_range PTR_MASK_is_aligned : fs.
Create Rewrite HintDb fs.
#[export] Hint Rewrite @bind_ok @bind_err : fs.
