(* ===== verification/SortUtil.v ===== *)
(** The array utilities of util.c: [swap], [partition], [insertion_sort],
    [quicksort], [forkscan_util_sort], [forkscan_util_randomize] and
    [forkscan_util_compact].  An array is a [list Z]; every routine returns
    the array it leaves behind. *)
From S2P Require Import Prelude.

Definition SORT_THRESHOLD : Z := 16.

Definition swap (addrs : list Z) (n m : Z) : res (list Z) :=
  let! addr := rd addrs n in
  let! v := rd addrs m in
  let! addrs := wr addrs n v in
  wr addrs m addr.

Definition partition (addrs : list Z) (min max : Z) : res (list Z * Z) :=
  let! s := int_chk (max + min) in
  let pivot := Z.quot s 2 in
  let! pivot_val := rd addrs pivot in
  let! addrs := swap addrs pivot max in
  let! '(addrs, mid) :=
    for_range min max (fun i '(addrs, mid) =>
      let! x := rd addrs i in
      if x <=? pivot_val then
        let! addrs := swap addrs i mid in
        Ok (addrs, mid + 1)
      else Ok (addrs, mid)) (addrs, min) in
  let! addrs := swap addrs mid max in
  Ok (addrs, mid).

(** The inner loop's test is [j > 0], not [j > min]: it may look left of the
    range it was asked to sort. *)
Definition insertion_sort (addrs : list Z) (min max : Z) : res (list Z) :=
  for_range (min + 1) (max + 1) (fun i addrs =>
    loop (S (Z.to_nat i)) (fun '(j, addrs) =>
      if j >? 0 then
        let! x := rd addrs (j - 1) in
        let! y := rd addrs j in
        if x >? y then
          let! addrs := swap addrs j (j - 1) in
          Ok (Next (j - 1, addrs))
        else Ok (Done addrs)
      else Ok (Done addrs)) (i, addrs)) addrs.

Fixpoint quicksort (fuel : nat) (addrs : list Z) (min max : Z) : res (list Z) :=
  match fuel with
  | O => Err OutOfFuel
  | S fuel =>
      let! d := int_chk (max - min) in
      if d >? SORT_THRESHOLD then
        let! '(addrs, mid) := partition addrs min max in
        let! addrs := quicksort fuel addrs min (mid - 1) in
        quicksort fuel addrs (mid + 1) max
      else insertion_sort addrs min max
  end.

(** The recursion depth is at most the length of the range. *)
Definition forkscan_util_sort (a : list Z) (length : Z) : res (list Z) :=
  quicksort (S (Z.to_nat length)) a 0 (length - 1).

(** [i] and [tmp] are [unsigned int]; the product wraps at 2^32. *)
Definition forkscan_util_randomize (addrs : list Z) (n : Z) : res (list Z) :=
  for_range 0 (u32 n) (fun i addrs =>
    let tmp := u32 (i * 2147483647) mod u32 n in
    if i =? tmp then Ok addrs else swap addrs (to_int i) (to_int tmp)) addrs.

Definition forkscan_util_compact (a : list Z) (length : Z) : res (list Z * Z) :=
  if length <? 2 then Ok (a, 0) else
  let! '(a, write) :=
    for_range 1 length (fun search '(a, write) =>
      let! x := rd a search in
      let! y := rd a write in
      if x =? y then Ok (a, write) else
      let write := write + 1 in
      if write <? search then
        let! x := rd a search in
        let! a := wr a write x in
        Ok (a, write)
      else Ok (a, write)) (a, 0) in
  let write := write + 1 in
  Ok (a, length - write).

(** * Sequences of swaps *)

(** What the sorting routines do to an array: exchange elements of
    [lo..hi]. *)
Definition exchange (a : list Z) (n m : Z) : list Z := upd (upd a n (get a m)) m (get a n).

Inductive swaps (lo hi : Z) : list Z -> list Z -> Prop :=
  | swaps_refl a : swaps lo hi a a
  | swaps_step a b n m :
      lo <= n <= hi -> lo <= m <= hi -> swaps lo hi (exchange a n m) b -> swaps lo hi a b.
#[export] Hint Constructors swaps : fs.

Definition sorted_range (lo hi : Z) (a : list Z) : Prop :=
  forall i j, lo <= i -> i <= j -> j <= hi -> get a i <= get a j.

(** Everything left of [lo] is at most everything in [lo..hi]. *)
Definition left_below (lo hi : Z) (a : list Z) : Prop :=
  forall i j, 0 <= i < lo -> lo <= j <= hi -> get a i <= get a j.

Lemma zlen_exchange a n m : zlen (exchange a n m) = zlen a.
Proof. unfold exchange. by rewrite !zlen_upd. Qed.

Lemma get_exchange a n m i :
  0 <= n < zlen a -> 0 <= m < zlen a -> 0 <= i ->
  get (exchange a n m) i =
    if decide (i = m) then get a n else if decide (i = n) then get a m else get a i.
Proof.
  intros Hn Hm Hi. unfold exchange. rewrite !get_upd by (rewrite ?zlen_upd; lia).
  repeat case_decide; congruence.
Qed.

Lemma exchange_perm a n m : 0 <= n < zlen a -> 0 <= m < zlen a -> Permutation (exchange a n m) a.
Proof.
  intros Hn Hm. apply Permutation_insert_swap; by apply get_lookup.
Qed.

Lemma wp_swap a n m (Q : list Z -> Prop) :
  0 <= n < zlen a -> 0 <= m < zlen a -> Q (exchange a n m) -> wp (swap a n m) Q.
Proof.
  intros Hn Hm HQ. unfold swap. repeat (wp_step; rewrite ?zlen_upd; try done).
Qed.

Section swaps.
Context (lo hi : Z) (lo_nonneg : 0 <= lo).

Lemma swaps_one a n m : lo <= n <= hi -> lo <= m <= hi -> swaps lo hi a (exchange a n m).
Proof. eauto with fs. Qed.

Lemma swaps_trans a b c : swaps lo hi a b -> swaps lo hi b c -> swaps lo hi a c.
Proof. induction 1; eauto with fs. Qed.

Lemma swaps_snoc a b n m :
  swaps lo hi a b -> lo <= n <= hi -> lo <= m <= hi -> swaps lo hi a (exchange b n m).
Proof. intros. eapply swaps_trans; eauto using swaps_one. Qed.

Lemma swaps_mono lo' hi' a b : lo' <= lo -> hi <= hi' -> swaps lo hi a b -> swaps lo' hi' a b.
Proof. intros Hl Hh. induction 1; [constructor |]. econstructor; [| | done]; lia. Qed.

Lemma swaps_zlen a b : swaps lo hi a b -> zlen b = zlen a.
Proof. induction 1; [done |]. by rewrite IHswaps, zlen_exchange. Qed.

Lemma swaps_perm a b : swaps lo hi a b -> hi < zlen a -> Permutation b a.
Proof.
  induction 1 as [|a b n m Hn Hm _ IH]; intros Hlt; [done |].
  rewrite IH by (rewrite zlen_exchange; lia). apply exchange_perm; lia.
Qed.

Lemma swaps_outside a b :
  swaps lo hi a b -> hi < zlen a ->
  forall i, 0 <= i -> i < lo \/ hi < i -> get b i = get a i.
Proof.
  induction 1 as [|a b n m Hn Hm _ IH]; intros Hlt i Hi Hout; [done |].
  rewrite IH by (rewrite ?zlen_exchange; lia).
  rewrite get_exchange by lia. repeat case_decide; lia.
Qed.

Lemma swaps_forall (P : Z -> Prop) a b :
  swaps lo hi a b -> hi < zlen a ->
  (forall i, lo <= i <= hi -> P (get a i)) -> forall i, lo <= i <= hi -> P (get b i).
Proof.
  induction 1 as [|a b n m Hn Hm _ IH]; intros Hlt HP; [done |].
  apply IH; [rewrite zlen_exchange; lia |].
  intros i Hi. rewrite get_exchange by lia. repeat case_decide; apply HP; lia.
Qed.

Lemma swaps_forall_inv (P : Z -> Prop) a b :
  swaps lo hi a b -> hi < zlen a ->
  (forall i, lo <= i <= hi -> P (get b i)) -> forall i, lo <= i <= hi -> P (get a i).
Proof.
  induction 1 as [|a b n m Hn Hm _ IH]; intros Hlt HP; [done |].
  specialize (IH ltac:(rewrite zlen_exchange; lia) HP).
  intros i Hi. pose proof (IH n Hn) as Pn. pose proof (IH m Hm) as Pm. specialize (IH i Hi).
  rewrite get_exchange in Pn, Pm, IH by lia. repeat case_decide; subst; done.
Qed.

Lemma swaps_values a b v :
  swaps lo hi a b -> hi < zlen a ->
  (exists i, lo <= i <= hi /\ get b i = v) <-> (exists i, lo <= i <= hi /\ get a i = v).
Proof.
  intros Hs Hlt. split; intros (i & Hi & <-).
  - by apply (swaps_forall (fun x => exists k, lo <= k <= hi /\ get a k = x) a b); eauto.
  - by apply (swaps_forall_inv (fun x => exists k, lo <= k <= hi /\ get b k = x) a b); eauto.
Qed.

Lemma swaps_left_below a b :
  swaps lo hi a b -> hi < zlen a -> left_below lo hi a -> left_below lo hi b.
Proof.
  intros Hs Hlt HL i j Hi Hj. rewrite (swaps_outside a b) by (done || lia).
  apply (swaps_forall (fun x => get a i <= x) a b); [done.. | | done].
  intros k Hk. by apply HL.
Qed.
End swaps.

(** * Partition *)

Definition split_at (min mid max : Z) (a : list Z) : Prop :=
  (forall k, min <= k < mid -> get a k <= get a mid) /\
  (forall k, mid < k <= max -> get a mid < get a k).

Lemma partition_ok a min max :
  0 <= min <= max -> max < zlen a -> int_ok (max + min) ->
  wp (partition a min max) (fun '(b, mid) =>
    min <= mid <= max /\ swaps min max a b /\ split_at min mid max b).
Proof.
  intros Hmin Hlen Hint. unfold partition.
  assert (Hp : min <= Z.quot (max + min) 2 <= max) by
    (Z.to_euclidean_division_equations; lia).
  wp_step. wp_step; [done |]. wp_step.
  set (p := Z.quot (max + min) 2) in *. clearbody p.
  wp_step; [lia |]. wp_step.
  apply wp_swap; [lia.. |].
  set (a1 := exchange a p max). wp_step.
  eapply (wp_for_range (fun i '(b, mid) =>
    min <= mid <= i /\ swaps min max a b /\ get b max = get a p /\
    (forall k, min <= k < mid -> get b k <= get a p) /\
    (forall k, mid <= k < i -> get a p < get b k)) min max); [lia | | |].
  - split; [lia |]. split; [apply swaps_one; lia |]. split.
    + unfold a1. rewrite get_exchange by lia. by rewrite decide_True.
    + split; lia.
  - intros i [b mid] Hi (Hm & Hs & Hpv & Hle & Hgt).
    pose proof (swaps_zlen _ _ _ _ Hs) as Hlb.
    wp_step. wp_step; [lia |].
    destruct (Z.leb_spec (get b i) (get a p)).
    + wp_step. apply wp_swap; [lia.. |]. wp_step.
      split; [lia |]. split; [apply swaps_snoc; [done | lia..] |].
      split; [| split]; [ | intros k Hk ..]; rewrite get_exchange by lia;
        repeat case_decide; subst; first [lia | apply Hle; lia | apply Hgt; lia].
    + wp_step. split; [lia |]. repeat (split; [done |]).
      intros k Hk. destruct (decide (k = i)); [by subst | apply Hgt; lia].
  - intros [b mid] (Hm & Hs & Hpv & Hle & Hgt).
    pose proof (swaps_zlen _ _ _ _ Hs) as Hlb.
    wp_step. apply wp_swap; [lia.. |]. wp_step.
    split; [lia |]. split; [apply swaps_snoc; [done | lia..] |].
    assert (Hmid : get (exchange b mid max) mid = get a p).
    { rewrite get_exchange by lia. repeat case_decide; subst; congruence. }
    split; intros k Hk; rewrite Hmid, get_exchange by lia; repeat case_decide; subst;
      first [lia | apply Hle; lia | apply Hgt; lia].
Qed.

(** * Insertion sort *)

(** The elements of [min..i] are in order but for the one at [j], which is
    below everything to its right. *)
Definition sorted_but (min j i : Z) (a : list Z) : Prop :=
  (forall p q, min <= p -> p <= q -> q <= i -> p <> j -> q <> j -> get a p <= get a q) /\
  (forall q, j < q <= i -> get a j <= get a q).

Lemma sorted_but_exchange min j i a :
  0 <= min -> min < j <= i -> i < zlen a ->
  sorted_but min j i a -> get a j < get a (j - 1) ->
  sorted_but min (j - 1) i (exchange a j (j - 1)).
Proof.
  intros Hmin Hj Hi [Hs Hr] Hlt. split.
  - intros p q Hp Hpq Hq Hpj Hqj. rewrite !get_exchange by lia.
    repeat case_decide; try lia.
    + subst p. apply Hs; lia.
    + subst q. apply Hs; lia.
    + apply Hs; lia.
  - intros q Hq. rewrite !get_exchange by lia.
    repeat case_decide; try lia. apply Hr. lia.
Qed.

Lemma sorted_but_done min j i a :
  min <= j <= i -> sorted_but min j i a ->
  (j = min \/ get a (j - 1) <= get a j) -> sorted_range min i a.
Proof.
  intros Hj [Hs Hr] Hstop p q Hp Hpq Hq.
  destruct (decide (p = j)) as [-> | Hpj].
  { destruct (decide (q = j)) as [-> |]; [lia | apply Hr; lia]. }
  destruct (decide (q = j)) as [-> | Hqj]; [| apply Hs; lia].
  destruct Hstop as [-> | Hle]; [lia |].
  transitivity (get a (j - 1)); [| done].
  destruct (decide (p = j - 1)) as [-> |]; [done | apply Hs; lia].
Qed.

Lemma insertion_sort_ok a min max :
  0 <= min -> min <= max + 1 -> max < zlen a -> left_below min max a ->
  wp (insertion_sort a min max) (fun b => swaps min max a b /\ sorted_range min max b).
Proof.
  intros Hmin Hle Hlen HL. unfold insertion_sort.
  destruct (decide (max <= min)) as [Hsmall |].
  { rewrite for_range_empty by lia. split; [constructor |].
    intros i j Hi Hij Hj. by replace j with i by lia. }
  eapply (wp_for_range (fun i b => swaps min max a b /\ sorted_range min (i - 1) b));
    [lia | | |].
  - split; [constructor |]. intros i j Hi Hij Hj. by replace j with i by lia.
  - intros i b Hi [Hs Hsort].
    eapply (wp_loop (fun '(j, c) =>
      min <= j <= i /\ swaps min max a c /\ sorted_but min j i c)
      (fun '(j, _) => Z.to_nat j)); [| lia |].
    + split; [lia |]. split; [done |]. split; [| lia].
      intros p q Hp Hpq Hq Hpi Hqi. apply Hsort; lia.
    + intros [j c] (Hj & Hsc & Hb).
      pose proof (swaps_zlen _ _ _ _ Hsc) as Hlc.
      pose proof (swaps_left_below min max Hmin _ _ Hsc Hlen HL) as HLc.
      replace (i + 1 - 1) with i by lia.
      destruct (Z.gtb_spec j 0) as [Hj0 | Hj0].
      2: { wp_step. split; [done |]. apply (sorted_but_done _ j); [lia | done | lia]. }
      do 2 (wp_step; wp_step; [lia |]).
      destruct (Z.gtb_spec (get c (j - 1)) (get c j)) as [Hgt | Hgt].
      * assert (min < j).
        { destruct (decide (min = j)) as [<- |]; [| lia].
          specialize (HLc (min - 1) min). lia. }
        wp_step. apply wp_swap; [lia.. |]. wp_step. split; [| lia].
        split; [lia |]. split; [apply swaps_snoc; [done | lia..] |].
        apply sorted_but_exchange; [lia.. | done | lia].
      * wp_step. split; [done |]. apply (sorted_but_done _ j); [lia | done | lia].
  - intros b [Hs Hsort]. split; [done |]. by replace max with (max + 1 - 1) by lia.
Qed.

(** * Quicksort *)

Lemma sorted_join min mid max a :
  split_at min mid max a ->
  sorted_range min (mid - 1) a -> sorted_range (mid + 1) max a -> sorted_range min max a.
Proof.
  intros [Hl Hr] Sl Sr i j Hi Hij Hj.
  destruct (decide (j < mid)); [apply Sl; lia |].
  destruct (decide (mid < i)); [apply Sr; lia |].
  assert (get a i <= get a mid).
  { destruct (decide (i = mid)) as [-> |]; [done | apply Hl; lia]. }
  assert (get a mid <= get a j).
  { destruct (decide (j = mid)) as [-> |]; [done |]. specialize (Hr j). lia. }
  lia.
Qed.

Lemma split_at_swaps min mid max a b :
  0 <= min -> min <= mid -> mid <= max -> max < zlen a -> split_at min mid max a ->
  swaps min (mid - 1) a b \/ swaps (mid + 1) max a b -> split_at min mid max b.
Proof.
  intros H0 H1 H2 Hlen [Hl Hr] [Hs | Hs].
  - assert (Hmid : get b mid = get a mid) by (eapply swaps_outside; [| done | lia..]; lia).
    split; intros k Hk; rewrite Hmid.
    + apply (swaps_forall min (mid - 1) H0 (fun x => x <= get a mid) a b Hs); [lia | | lia].
      intros i Hi. apply Hl. lia.
    + rewrite (swaps_outside min (mid - 1) H0 a b Hs) by lia. apply Hr. lia.
  - assert (Hlo : 0 <= mid + 1) by lia.
    assert (Hmid : get b mid = get a mid) by (eapply swaps_outside; [| done | lia..]; lia).
    split; intros k Hk; rewrite Hmid.
    + rewrite (swaps_outside (mid + 1) max Hlo a b Hs) by lia. apply Hl. lia.
    + apply (swaps_forall (mid + 1) max Hlo (fun x => get a mid < x) a b Hs); [lia | | lia].
      intros i Hi. apply Hr. lia.
Qed.

Lemma left_below_right min mid max a :
  left_below min max a -> split_at min mid max a -> min <= mid <= max ->
  left_below (mid + 1) max a.
Proof.
  intros HL [Hl Hr] Hm i j Hi Hj. specialize (Hr j).
  destruct (decide (i < min)); [apply HL; lia |].
  destruct (decide (i = mid)) as [-> |]; [lia |]. specialize (Hl i). lia.
Qed.

Lemma quicksort_ok fuel a min max :
  0 <= min -> min <= max + 1 -> max < zlen a -> zlen a <= 2 ^ 30 ->
  left_below min max a -> max - min + 1 < Z.of_nat fuel ->
  wp (quicksort fuel a min max) (fun b => swaps min max a b /\ sorted_range min max b).
Proof.
  revert a min max. induction fuel as [|fuel IH]; intros a min max Hmin Hle Hlen Hbig HL Hf; [lia |].
  simpl. wp_step. wp_step; [unfold int_ok, INT_MIN, INT_MAX; lia |].
  unfold SORT_THRESHOLD. destruct (Z.gtb_spec (max - min) 16) as [Hd | Hd];
    [| by apply insertion_sort_ok].
  wp_step. eapply wp_mono; [apply partition_ok; unfold int_ok, INT_MIN, INT_MAX; lia |].
  intros [b mid] (Hm & Hsb & Hsplit).
  pose proof (swaps_zlen _ _ _ _ Hsb) as Hlb.
  pose proof (swaps_left_below min max Hmin a b Hsb Hlen HL) as HLb.
  wp_step. eapply wp_mono; [apply IH; [lia.. | | lia] |].
  { intros i j Hi Hj. apply HLb; lia. }
  intros c [Hsc Hsortc]. pose proof (swaps_zlen _ _ _ _ Hsc) as Hlc.
  assert (Hsplitc : split_at min mid max c) by (eapply (split_at_swaps _ _ _ b); eauto; lia).
  assert (Hac : swaps min max a c).
  { eapply swaps_trans; [done |]. eapply swaps_mono; [| | exact Hsc]; lia. }
  eapply wp_mono; [apply IH; [lia.. | | lia] |].
  { eapply left_below_right; [| done | lia]. by eapply swaps_left_below. }
  intros d [Hsd Hsortd].
  split; [eapply swaps_trans; [done |]; eapply swaps_mono; [| | exact Hsd]; lia |].
  apply (sorted_join min mid max); [eapply (split_at_swaps _ _ _ c); eauto; lia | | done].
  intros i j Hi Hij Hj. rewrite !(swaps_outside (mid + 1) max ltac:(lia) c d Hsd) by lia.
  apply Hsortc; lia.
Qed.

Lemma sort_swaps a length :
  0 <= length <= zlen a -> zlen a <= 2 ^ 30 ->
  wp (forkscan_util_sort a length) (fun b =>
    swaps 0 (length - 1) a b /\ sorted_range 0 (length - 1) b).
Proof.
  intros Hl Hb. apply quicksort_ok; try lia. intros i j Hi. lia.
Qed.

Lemma sorted_permutation a length :
  0 <= length <= zlen a -> zlen a <= 2 ^ 30 ->
  exists b, forkscan_util_sort a length = Ok b /\
    Permutation b a /\ zlen b = zlen a /\
    (forall i, length <= i -> get b i = get a i) /\
    (forall i j, 0 <= i -> i <= j -> j < length -> get b i <= get b j).
Proof.
  intros Hl Hb. apply wp_iff. eapply wp_mono; [by apply sort_swaps |].
  intros b [Hs Hsort]. split; [by apply (swaps_perm 0 (length - 1)) ; [| | lia] |].
  split; [by eapply swaps_zlen |]. split.
  - intros i Hi. eapply (swaps_outside 0 (length - 1)); [done | done | lia..].
  - intros i j Hi Hij Hj. apply Hsort; lia.
Qed.

(** C32: [forkscan_util_sort] returns, on every array and every prefix length,
    the prefix in increasing order: the result is a permutation of the array
    that leaves everything after the prefix where it was. *)
Theorem util_sort_correct a length :
  0 <= length <= zlen a -> zlen a <= 2 ^ 30 ->
  exists b, forkscan_util_sort a length = Ok b /\
    Permutation b a /\ zlen b = zlen a /\
    (forall i, length <= i -> get b i = get a i) /\
    (forall i j, 0 <= i -> i <= j -> j < length -> get b i <= get b j).
Proof. apply sorted_permutation. Qed.

Lemma util_sort_correct_witness :
  exists b, forkscan_util_sort [5; 3; 9; 1; 7] 4 = Ok b /\
    Permutation b [5; 3; 9; 1; 7] /\ zlen b = zlen [5; 3; 9; 1; 7] /\
    (forall i, 4 <= i -> get b i = get [5; 3; 9; 1; 7] i) /\
    (forall i j, 0 <= i -> i <= j -> j < 4 -> get b i <= get b j).
Proof. apply (util_sort_correct [5; 3; 9; 1; 7] 4); vm_compute; intuition congruence. Defined.

(** * Compaction *)

(** [b] holds, in its first [w] places, exactly the values [a] holds in its
    first [n], in strictly increasing order. *)
Definition compacted (a : list Z) (n : Z) (b : list Z) (w : Z) : Prop :=
  (forall i, 0 <= i < n -> exists k, 0 <= k < w /\ get b k = get a i) /\
  (forall k, 0 <= k < w -> exists i, 0 <= i < n /\ get b k = get a i) /\
  (forall i j, 0 <= i -> i < j -> j < w -> get b i < get b j).

Definition compact_inv (a : list Z) (n : Z) (b : list Z) (write : Z) : Prop :=
  0 <= write < n /\ zlen b = zlen a /\ compacted a n b (write + 1) /\
  (forall i, n <= i -> get b i = get a i) /\ get b write = get a (n - 1).

Lemma compacted_dup a n b w k :
  compacted a n b w -> 0 <= k < w -> get b k = get a n -> compacted a (n + 1) b w.
Proof.
  intros (H1 & H2 & H3) Hk E. split; [| split; [| done]].
  - intros i Hi. destruct (decide (i = n)) as [-> |]; [by exists k | apply H1; lia].
  - intros j Hj. destruct (H2 j Hj) as (i & Hi & Ei). exists i. split; [lia | done].
Qed.

Lemma compacted_snoc a n b w :
  0 <= w < zlen b -> 0 <= n -> compacted a n b w ->
  (forall k, 0 <= k < w -> get b k < get a n) ->
  compacted a (n + 1) (upd b w (get a n)) (w + 1).
Proof.
  intros Hw Hn (H1 & H2 & H3) Hlt. split; [| split].
  - intros i Hi. destruct (decide (i = n)) as [-> |].
    { exists w. rewrite get_upd_eq by lia. split; [lia | done]. }
    destruct (H1 i) as (k & Hk & E); [lia |]. exists k.
    rewrite get_upd_ne by lia. split; [lia | done].
  - intros k Hk. destruct (decide (k = w)) as [-> |].
    { exists n. rewrite get_upd_eq by lia. split; [lia | done]. }
    destruct (H2 k) as (i & Hi & E); [lia |]. exists i.
    rewrite get_upd_ne by lia. split; [lia | done].
  - intros i j Hi Hij Hj. rewrite (get_upd_ne b w i) by lia.
    destruct (decide (j = w)) as [-> |].
    + rewrite get_upd_eq by lia. apply Hlt. lia.
    + rewrite get_upd_ne by lia. apply H3; lia.
Qed.

(** The loop writes a value where it is already when nothing was dropped so
    far, and skips that write. *)
Lemma compact_step a n b write :
  1 <= n < zlen a -> get a (n - 1) <= get a n -> compact_inv a n b write ->
  get b n <> get b write ->
  compact_inv a (n + 1) (upd b (write + 1) (get b n)) (write + 1).
Proof.
  intros Hn Hs (Hw & Hlen & Hc & Hrest & Hlast) Hne.
  rewrite (Hrest n) in * by lia.
  split; [lia |]. split; [by rewrite zlen_upd |]. split; [| split].
  - apply compacted_snoc; [lia.. | done |].
    intros k Hk. destruct Hc as (_ & _ & H3).
    destruct (decide (k = write)) as [-> |]; [lia |].
    specialize (H3 k write). lia.
  - intros i Hi. destruct (decide (i = write + 1)) as [-> |]; [lia |].
    rewrite get_upd_ne by lia. apply Hrest. lia.
  - rewrite get_upd_eq by lia. f_equal. lia.
Qed.

Lemma compact_keep a n b write :
  1 <= n < zlen a -> compact_inv a n b write -> get b n = get b write ->
  compact_inv a (n + 1) b write.
Proof.
  intros Hn (Hw & Hlen & Hc & Hrest & Hlast) E.
  rewrite (Hrest n) in E by lia.
  split; [lia |]. split; [done |]. split; [| split].
  - apply (compacted_dup _ _ _ _ write); [done | lia | done].
  - intros i Hi. apply Hrest. lia.
  - rewrite <- E. f_equal. lia.
Qed.

Lemma compact_ok a length :
  0 <= length <= zlen a -> sorted_range 0 (length - 1) a ->
  wp (forkscan_util_compact a length) (fun '(b, s) =>
    0 <= s <= length /\ zlen b = zlen a /\ compacted a length b (length - s) /\
    (forall i, length <= i -> get b i = get a i)).
Proof.
  intros Hl Hsort.
  unfold forkscan_util_compact. destruct (Z.ltb_spec length 2) as [Hsmall |].
  { wp_step. split; [lia |]. split; [done |]. split; [| done].
    rewrite Z.sub_0_r. split; [by eauto | split; [by eauto | lia]]. }
  wp_step.
  apply (wp_for_range (fun n '(b, write) => compact_inv a n b write)); [lia | | |].
  - split; [lia |]. split; [done |]. split; [| done].
    split; [| split; [| lia]]; intros i Hi; exists 0; (split; [lia |]); f_equal; lia.
  - intros n [b write] Hn Hinv. pose proof Hinv as (Hw & Hlen & _).
    do 2 (wp_step; wp_step; [lia |]). cbn beta.
    destruct (Z.eqb_spec (get b n) (get b write)).
    { wp_step. apply compact_keep; [lia | done..]. }
    assert (Hstep : compact_inv a (n + 1) (upd b (write + 1) (get b n)) (write + 1)).
    { apply compact_step; [lia | apply Hsort; lia | done..]. }
    destruct (Z.ltb_spec (write + 1) n).
    + wp_step. wp_step; [lia |]. wp_step. wp_step; [lia |]. wp_step. done.
    + wp_step. replace n with (write + 1) in Hstep at 2 by lia.
      by rewrite upd_id in Hstep.
  - intros [b write] (Hw & Hlen & Hc & Hrest & _). wp_step.
    split; [lia |]. split; [done |]. split; [| done].
    by replace (length - (length - (write + 1))) with (write + 1) by lia.
Qed.

(** [forkscan_util_compact] on a sorted prefix returns the number [s] of
    dropped entries; the first [length - s] entries are then the distinct
    values of the prefix in strictly increasing order, and nothing behind the
    prefix moved. *)
Theorem util_compact_correct a length :
  0 <= length <= zlen a -> sorted_range 0 (length - 1) a ->
  exists b s, forkscan_util_compact a length = Ok (b, s) /\
    0 <= s <= length /\ zlen b = zlen a /\ compacted a length b (length - s) /\
    (forall i, length <= i -> get b i = get a i).
Proof.
  intros Hl Hsort. pose proof (compact_ok a length Hl Hsort) as Hwp.
  apply wp_iff in Hwp as ([b s] & ? & ?). by exists b, s.
Qed.

Lemma util_compact_correct_witness :
  exists b s, forkscan_util_compact [1; 1; 4; 4; 9; 2] 5 = Ok (b, s) /\
    0 <= s <= 5 /\ zlen b = zlen [1; 1; 4; 4; 9; 2] /\
    compacted [1; 1; 4; 4; 9; 2] 5 b (5 - s) /\
    (forall i, 5 <= i -> get b i = get [1; 1; 4; 4; 9; 2] i).
Proof.
  apply (util_compact_correct [1; 1; 4; 4; 9; 2] 5); [vm_compute; intuition congruence |].
  intros i j Hi Hij Hj.
  assert (i = 0 \/ i = 1 \/ i = 2 \/ i = 3 \/ i = 4) as [-> | [-> | [-> | [-> | ->]]]] by lia;
  assert (j = 0 \/ j = 1 \/ j = 2 \/ j = 3 \/ j = 4) as [-> | [-> | [-> | [-> | ->]]]] by lia;
  vm_compute; congruence || lia.
Defined.

(** * Randomization *)

(** [forkscan_util_randomize] only exchanges elements inside the first [n]:
    no index it computes is out of bounds, and it neither loses nor
    duplicates an address. *)
Theorem util_randomize_perm addrs n :
  0 <= n <= zlen addrs -> n <= INT_MAX ->
  exists b, forkscan_util_randomize addrs n = Ok b /\ Permutation b addrs /\
    (forall i, n <= i -> get b i = get addrs i).
Proof.
  intros Hn Hi.
  enough (wp (forkscan_util_randomize addrs n) (swaps 0 (n - 1) addrs)) as Hwp.
  { apply wp_iff in Hwp as (b & Hb & Hs). exists b. split; [done |].
    split; [apply (swaps_perm 0 (n - 1)); [done | done | lia] |].
    intros i Hge. apply (swaps_outside 0 (n - 1)); [done | done | lia..]. }
  unfold INT_MAX in Hi. unfold forkscan_util_randomize. rewrite !(u32_small n) by lia.
  apply (wp_for_range (fun _ b => swaps 0 (n - 1) addrs b)); [lia | constructor | | done].
  intros i b Hin Hs. cbn zeta.
  pose proof (Z.mod_pos_bound (u32 (i * 2147483647)) n ltac:(lia)) as Ht.
  destruct (_ =? _); [done |].
  rewrite !to_int_small by (unfold int_ok, INT_MIN, INT_MAX; lia).
  pose proof (swaps_zlen _ _ _ _ Hs) as Hl.
  apply wp_swap; [lia.. |]. apply swaps_snoc; [done | lia..].
Qed.

Lemma util_randomize_perm_witness :
  exists b, forkscan_util_randomize [10; 20; 30; 40; 50] 5 = Ok b /\
    Permutation b [10; 20; 30; 40; 50] /\
    (forall i, 5 <= i -> get b i = get [10; 20; 30; 40; 50] i).
Proof. apply (util_randomize_perm [10; 20; 30; 40; 50] 5); vm_compute; intuition congruence. Defined.
