(* ===== verification/AddrBuffer.v ===== *)
(** [addr_buffer_t] of buffer.h, the data the scanner works on, and the
    well-formedness of the pool it searches.

    [ab_addrs] and [ab_minimap] are the contents of the arrays the pointers
    [addrs] and [minimap] lead to, [ab_base] is the address of the first.
    An entry of [addrs] is a tracked node's address; its lowest bit is the
    mark "still referenced". *)
From S2P Require Import Prelude.

Inductive sibling_mode_t : Type := SIBLING_MODE_MARKING | SIBLING_MODE_DONE.

Record addr_buffer_t : Type := mk_addr_buffer {
  ab_next : Z;
  ab_addrs : list Z;
  ab_base : Z;
  ab_minimap : list Z;
  ab_is_aggregate : Z;
  ab_n_addrs : Z;
  ab_n_minimap : Z;
  ab_capacity : Z;
  ab_cutoff_reached : Z;
  ab_sibling_mode : sibling_mode_t;
  ab_completed_children : Z;
  ab_more_marking_tbd : Z;
  ab_round : Z;
  ab_root_counter : Z;
  ab_roots_completed : Z;
  ab_ref_count : Z;
  ab_free_idx : Z }.

Definition set_addrs (ab : addr_buffer_t) (l : list Z) : addr_buffer_t :=
  mk_addr_buffer (ab_next ab) l (ab_base ab) (ab_minimap ab) (ab_is_aggregate ab)
    (ab_n_addrs ab) (ab_n_minimap ab) (ab_capacity ab) (ab_cutoff_reached ab)
    (ab_sibling_mode ab) (ab_completed_children ab) (ab_more_marking_tbd ab) (ab_round ab)
    (ab_root_counter ab) (ab_roots_completed ab) (ab_ref_count ab) (ab_free_idx ab).

Definition set_minimap (ab : addr_buffer_t) (l : list Z) (n : Z) : addr_buffer_t :=
  mk_addr_buffer (ab_next ab) (ab_addrs ab) (ab_base ab) l (ab_is_aggregate ab)
    (ab_n_addrs ab) n (ab_capacity ab) (ab_cutoff_reached ab)
    (ab_sibling_mode ab) (ab_completed_children ab) (ab_more_marking_tbd ab) (ab_round ab)
    (ab_root_counter ab) (ab_roots_completed ab) (ab_ref_count ab) (ab_free_idx ab).

(** A buffer with given tables and every other field zero, for examples. *)
Definition plain_buffer (addrs minimap : list Z) (n_addrs n_minimap : Z) : addr_buffer_t :=
  mk_addr_buffer 0 addrs 0x10000 minimap 1 n_addrs n_minimap (zlen addrs) 0
    SIBLING_MODE_MARKING 0 0 0 0 0 0 0.

(** Addresses per page: [PAGESIZE / sizeof(size_t)]. *)
Definition PAGE_WORDS : Z := PAGESIZE / WORD.

Ltac page_lia := change PAGE_WORDS with 512 in *; lia.

(** An entry of [addrs]: a 4-aligned nonzero address, with or without the mark. *)
Definition entry_ok (e : Z) : Prop := size_ok e /\ 4 <= e /\ (e mod 4 = 0 \/ e mod 4 = 1).

(** The node entry [i] stands for, with the mark masked off. *)
Definition node (ab : addr_buffer_t) (i : Z) : Z := PTR_MASK (get (ab_addrs ab) i).

(** What the GC child establishes before it starts to scan: the entries are
    sorted (whatever their marks), and [minimap] holds the first node of each
    page, as it was before marking. *)
Record pool_wf (ab : addr_buffer_t) : Prop := {
  wf_n : 1 <= ab_n_addrs ab <= 2 ^ 30;
  wf_room : ab_n_addrs ab <= zlen (ab_addrs ab);
  wf_entries : forall i, 0 <= i < ab_n_addrs ab -> entry_ok (get (ab_addrs ab) i);
  wf_sorted : forall i j, 0 <= i -> i < j -> j < ab_n_addrs ab -> node ab i < node ab j;
  wf_n_minimap : ab_n_minimap ab = (ab_n_addrs ab + PAGE_WORDS - 1) / PAGE_WORDS;
  wf_map_room : ab_n_minimap ab <= zlen (ab_minimap ab);
  wf_minimap : forall p, 0 <= p < ab_n_minimap ab ->
    get (ab_minimap ab) p = node ab (p * PAGE_WORDS) }.

Lemma entry_ok_mask e : entry_ok e -> PTR_MASK e <= e <= PTR_MASK e + 1 /\ aligned4 (PTR_MASK e).
Proof.
  intros (Hs & Hlo & Hm). split; [| by apply PTR_MASK_is_aligned].
  rewrite PTR_MASK_eq by done. lia.
Qed.

Lemma aligned4_lt a b : aligned4 a -> aligned4 b -> a < b -> a + 4 <= b.
Proof. unfold aligned4. Z.to_euclidean_division_equations. lia. Qed.

Lemma entry_lt_iff e v : entry_ok e -> aligned4 v -> (e < v <-> PTR_MASK e < v).
Proof.
  intros He Hv. destruct (entry_ok_mask e He) as [H1 H2]. split; [lia |].
  intros H. pose proof (aligned4_lt _ _ H2 Hv H). lia.
Qed.

Lemma pool_increasing ab i j :
  pool_wf ab -> 0 <= i -> i < j -> j < ab_n_addrs ab -> get (ab_addrs ab) i < get (ab_addrs ab) j.
Proof.
  intros W Hi Hij Hj.
  pose proof (entry_ok_mask _ (wf_entries ab W i ltac:(lia))) as [H1 A1].
  pose proof (entry_ok_mask _ (wf_entries ab W j ltac:(lia))) as [H2 A2].
  pose proof (wf_sorted ab W i j Hi Hij Hj) as H3. unfold node in H3.
  pose proof (aligned4_lt _ _ A1 A2 H3). lia.
Qed.

Lemma node_inj ab i j :
  pool_wf ab -> 0 <= i < ab_n_addrs ab -> 0 <= j < ab_n_addrs ab -> node ab i = node ab j -> i = j.
Proof.
  intros W Hi Hj E. destruct (Z.lt_trichotomy i j) as [H | [H | H]]; [| done |].
  - pose proof (wf_sorted ab W i j). lia.
  - pose proof (wf_sorted ab W j i). lia.
Qed.

Lemma n_minimap_pages ab : pool_wf ab ->
  1 <= ab_n_minimap ab /\ (ab_n_minimap ab - 1) * PAGE_WORDS < ab_n_addrs ab <=
    ab_n_minimap ab * PAGE_WORDS.
Proof.
  intros W. rewrite (wf_n_minimap ab W). pose proof (wf_n ab W).
  change PAGE_WORDS with 512 in *. Z.to_euclidean_division_equations. lia.
Qed.

(** ** A checker for concrete pools *)

Definition entry_okb (e : Z) : bool :=
  (4 <=? e) && (e <? 2 ^ 64) && ((e mod 4 =? 0) || (e mod 4 =? 1)).

Definition pool_wfb (ab : addr_buffer_t) : bool :=
  (1 <=? ab_n_addrs ab) && (ab_n_addrs ab <=? 2 ^ 30) &&
  (ab_n_addrs ab <=? zlen (ab_addrs ab)) &&
  all_below (ab_n_addrs ab) (fun i => entry_okb (get (ab_addrs ab) i)) &&
  all_below (ab_n_addrs ab) (fun j => all_below j (fun i => node ab i <? node ab j)) &&
  (ab_n_minimap ab =? (ab_n_addrs ab + PAGE_WORDS - 1) / PAGE_WORDS) &&
  (ab_n_minimap ab <=? zlen (ab_minimap ab)) &&
  all_below (ab_n_minimap ab) (fun p => get (ab_minimap ab) p =? node ab (p * PAGE_WORDS)).

Lemma entry_okb_sound e : entry_okb e = true -> entry_ok e.
Proof.
  unfold entry_okb, entry_ok, size_ok. rewrite !andb_true_iff, orb_true_iff, !Z.eqb_eq. lia.
Qed.

Lemma pool_wfb_sound ab : pool_wfb ab = true -> pool_wf ab.
Proof.
  unfold pool_wfb. rewrite !andb_true_iff. intros (((((((H1 & H2) & H3) & H4) & H5) & H6) & H7) & H8).
  split; [lia | lia | | | lia | lia |].
  - intros i Hi. by apply entry_okb_sound, (all_below_spec _ _ H4).
  - intros i j Hi Hij Hj. pose proof (all_below_spec _ _ H5 j ltac:(lia)) as H.
    pose proof (all_below_spec _ _ H i ltac:(lia)) as H'. cbn beta in H'. lia.
  - intros p Hp. pose proof (all_below_spec _ _ H8 p Hp) as H. cbn beta in H. lia.
Qed.
