(* ===== verification/Search.v ===== *)
(** The search utilities of child.c: [is_ref], [iterative_search],
    [binary_search], [addr_find] and [addr_find_hint]. *)
From S2P Require Import Prelude AddrBuffer.

Definition BINARY_THRESHOLD : Z := 32.

Definition is_ref (ab : addr_buffer_t) (loc cmp : Z) : res bool :=
  assert (loc >=? 0) ;!
  let! x := rd (ab_addrs ab) loc in
  Ok (PTR_MASK x =? cmp).

Definition iterative_search (val : Z) (a : list Z) (min max : Z) : res Z :=
  let! first := rd a min in
  if (first >? val) || (min =? max) then Ok min else
  loop (S (Z.to_nat (max - min))) (fun min =>
    if min <? max then
      let! cmp := rd a min in
      if cmp =? val then Ok (Done min)
      else if cmp >? val then Ok (Done (min - 1))
      else Ok (Next (min + 1))
    else Ok (Done (min - 1))) min.

(** The halving loop leaves by [return mid] ([inl]) or by its test, with the
    bounds it has narrowed ([inr]). *)
Definition binary_search (val : Z) (a : list Z) (min max : Z) : res Z :=
  let! r :=
    loop (S (Z.to_nat (max - min))) (fun '(min, max) =>
      if max - min >=? BINARY_THRESHOLD then
        let! s := int_chk (max + min) in
        let mid := Z.quot s 2 in
        let! cmp := rd a mid in
        if cmp =? val then Ok (Done (inl mid))
        else if cmp >? val then Ok (Next (min, mid))
        else Ok (Next (mid, max))
      else Ok (Done (inr (min, max)))) (min, max) in
  match r with
  | inl mid => Ok mid
  | inr (min, max) => iterative_search val a min max
  end.

Definition addr_find (val : Z) (ab : addr_buffer_t) : res Z :=
  let! v := binary_search val (ab_minimap ab) 0 (ab_n_minimap ab) in
  binary_search val (ab_addrs ab)
    (to_int (u64 (v * PAGE_WORDS)))
    (if v =? ab_n_minimap ab - 1 then ab_n_addrs ab
     else to_int (u64 ((v + 1) * PAGE_WORDS))).

Definition addr_find_hint (val : Z) (ab : addr_buffer_t) (hint : Z) : res Z :=
  let! cmp := rd (ab_addrs ab) hint in
  if val <=? cmp then Ok hint else
  let here := u64 (ab_base ab + hint * WORD) in
  let cmp_addr := Z.land here (2 ^ 64 - CACHELINESIZE) in
  let cmp_addr := u64 (cmp_addr + (CACHELINESIZE - WORD)) in
  let remaining_line := to_int (u64 (cmp_addr - here) / WORD) in
  let remaining_line := to_int (u64 (remaining_line + WORD)) in
  let! r :=
    loop (S (Z.to_nat remaining_line)) (fun '(i, hint) =>
      if i <? remaining_line then
        let hint := MIN_OF (ab_n_addrs ab) (hint + 1) in
        let! cmp := rd (ab_addrs ab) hint in
        if val <=? cmp then Ok (Done (Some hint)) else Ok (Next (i + 1, hint))
      else Ok (Done None)) (0, hint) in
  match r with
  | Some hint => Ok hint
  | None => addr_find val ab
  end.

(** * Search in an increasing range *)

(** The index the searches promise: the last one whose element does not
    exceed [val], or the first of the range when all of them do. *)
Definition closest (val : Z) (a : list Z) (min max r : Z) : Prop :=
  min <= r < max /\ (r = min \/ get a r <= val) /\ (forall i, r < i < max -> val < get a i).

Definition increasing (a : list Z) (min max : Z) : Prop :=
  forall i j, min <= i -> i < j -> j < max -> get a i < get a j.

Lemma iterative_search_ok val a min max :
  0 <= min -> min < max -> max <= zlen a -> increasing a min max ->
  wp (iterative_search val a min max) (closest val a min max).
Proof.
  intros H0 H1 H2 Hinc. unfold iterative_search.
  wp_step. wp_step; [lia |]. cbn beta.
  destruct (Z.gtb_spec (get a min) val) as [Hgt | Hle]; simpl.
  { wp_step. split; [lia |]. split; [by left |].
    intros i Hi. specialize (Hinc min i). lia. }
  destruct (Z.eqb_spec min max); [lia |].
  apply (wp_loop (fun m => min <= m <= max /\ (forall i, min <= i < m -> get a i < val))
    (fun m => Z.to_nat (max - m))); [split; lia | lia |].
  intros m [Hm Hbelow].
  destruct (Z.ltb_spec m max).
  - wp_step. wp_step; [lia |]. cbn beta.
    destruct (Z.eqb_spec (get a m) val) as [Heq | Hne].
    { wp_step. split; [lia |]. split; [lia |].
      intros i Hi. specialize (Hinc m i). lia. }
    destruct (Z.gtb_spec (get a m) val) as [Hgt | Hlt]; wp_step.
    + assert (min <> m) by (intros ->; lia).
      split; [lia |]. split; [right; specialize (Hbelow (m - 1)); lia |].
      intros i Hi. destruct (decide (i = m)) as [-> |]; [lia |].
      specialize (Hinc m i). lia.
    + split; [split; [lia |] | lia].
      intros i Hi. destruct (decide (i = m)) as [-> |]; [lia | apply Hbelow; lia].
  - wp_step. split; [lia |]. split; [right; specialize (Hbelow (m - 1)); lia |]. lia.
Qed.

Lemma closest_widen val a min max lo hi r :
  increasing a min max -> min <= lo -> hi <= max ->
  (lo = min \/ get a lo <= val) -> (hi = max \/ val < get a hi) ->
  closest val a lo hi r -> closest val a min max r.
Proof.
  intros Hinc Hl Hh Hlo Hhi (Hr & Hle & Hgt). split; [lia |]. split.
  - destruct Hle as [-> | Hle]; [naive_solver | by right].
  - intros i Hi. destruct (decide (i < hi)); [apply Hgt; lia |].
    destruct Hhi as [-> | Hhi]; [lia |].
    destruct (decide (i = hi)) as [-> |]; [done |]. specialize (Hinc hi i). lia.
Qed.

Lemma binary_search_ok val a min max :
  0 <= min -> min < max -> max <= zlen a -> max <= 2 ^ 30 -> increasing a min max ->
  wp (binary_search val a min max) (closest val a min max).
Proof.
  intros H0 H1 H2 H3 Hinc. unfold binary_search. wp_step.
  apply (wp_loop (fun '(lo, hi) => min <= lo /\ lo < hi /\ hi <= max /\
      (lo = min \/ get a lo <= val) /\ (hi = max \/ val < get a hi))
    (fun '(lo, hi) => Z.to_nat (hi - lo))); [split; lia | lia |].
  intros [lo hi] (Hl & Hlh & Hh & Hlo & Hhi). unfold BINARY_THRESHOLD.
  destruct (Z.geb_spec (hi - lo) 32).
  - wp_step. wp_step; [unfold int_ok, INT_MIN, INT_MAX; lia |]. wp_step.
    assert (Hmid : lo < Z.quot (hi + lo) 2 < hi) by
      (Z.to_euclidean_division_equations; lia).
    set (mid := Z.quot (hi + lo) 2) in *. clearbody mid. wp_step; [lia |]. cbn beta.
    destruct (Z.eqb_spec (get a mid) val).
    { do 2 wp_step. split; [lia |]. split; [lia |].
      intros i Hi. specialize (Hinc mid i). lia. }
    destruct (Z.gtb_spec (get a mid) val); wp_step; lia.
  - wp_step. eapply wp_mono; [apply iterative_search_ok; [lia.. |] |].
    { intros i j Hi Hij Hj. apply Hinc; lia. }
    intros r Hr. by eapply closest_widen.
Qed.

(** [binary_search] on any increasing range [min..max) returns, without
    overflow and within the bounds of the array, the index of the last
    element that does not exceed [val] ([min] when every element does). *)
Theorem binary_search_correct val a min max :
  0 <= min -> min < max -> max <= zlen a -> max <= 2 ^ 30 -> increasing a min max ->
  exists r, binary_search val a min max = Ok r /\ min <= r < max /\
    (r = min \/ get a r <= val) /\ (forall i, r < i < max -> val < get a i).
Proof. intros. by apply wp_iff, binary_search_ok. Qed.

Lemma binary_search_correct_witness :
  exists r, binary_search 57 (Z.of_nat <$> seq 3 100) 10 90 = Ok r /\ 10 <= r < 90 /\
    (r = 10 \/ get (Z.of_nat <$> seq 3 100) r <= 57) /\
    (forall i, r < i < 90 -> 57 < get (Z.of_nat <$> seq 3 100) i).
Proof.
  apply (binary_search_correct 57 (Z.of_nat <$> seq 3 100) 10 90); [lia | lia | vm_compute; congruence | lia |].
  intros i j Hi Hij Hj. rewrite !get_seqZ by lia. lia.
Defined.

(** * The two-level search *)

(** [loc] is where [val] belongs among the nodes: no earlier node reaches
    it, and no later entry is at or below it. *)
Definition locates (ab : addr_buffer_t) (val loc : Z) : Prop :=
  0 <= loc < ab_n_addrs ab /\
  (loc = 0 \/ node ab loc <= val) /\
  (forall i, loc < i < ab_n_addrs ab -> val < get (ab_addrs ab) i).

Lemma page_index_small v : 0 <= v -> v * PAGE_WORDS <= 2 ^ 30 ->
  to_int (u64 (v * PAGE_WORDS)) = v * PAGE_WORDS.
Proof.
  change PAGE_WORDS with 512. intros H1 H2.
  rewrite u64_small by (unfold size_ok; lia).
  apply to_int_small. unfold int_ok, INT_MIN, INT_MAX. lia.
Qed.

Lemma minimap_increasing ab : pool_wf ab -> increasing (ab_minimap ab) 0 (ab_n_minimap ab).
Proof.
  intros W i j Hi Hij Hj. rewrite !(wf_minimap ab W) by lia.
  pose proof (n_minimap_pages ab W). change PAGE_WORDS with 512 in *.
  apply (wf_sorted ab W); lia.
Qed.

Lemma page_locates ab val p hi loc :
  pool_wf ab -> 0 <= p < ab_n_minimap ab ->
  (p = 0 \/ get (ab_minimap ab) p <= val) ->
  (forall q, p < q < ab_n_minimap ab -> val < get (ab_minimap ab) q) ->
  hi = (if p =? ab_n_minimap ab - 1 then ab_n_addrs ab else (p + 1) * PAGE_WORDS) ->
  closest val (ab_addrs ab) (p * PAGE_WORDS) hi loc -> locates ab val loc.
Proof.
  intros W Hp Hlo Hhi Ehi (Hr & Hle & Hgt).
  pose proof (n_minimap_pages ab W) as (Hn1 & Hn2 & Hn3).
  assert (Hhin : hi <= ab_n_addrs ab).
  { subst hi. change PAGE_WORDS with 512 in *. destruct (Z.eqb_spec p (ab_n_minimap ab - 1)); lia. }
  split; [page_lia |]. split.
  - destruct Hle as [-> | Hle].
    + destruct Hlo as [-> | Hlo]; [by left |]. right.
      by rewrite <- (wf_minimap ab W) by lia.
    + right. pose proof (entry_ok_mask _ (wf_entries ab W loc ltac:(page_lia))).
      unfold node. lia.
  - intros i Hi. destruct (decide (i < hi)); [apply Hgt; lia |].
    destruct (Z.eqb_spec p (ab_n_minimap ab - 1)) as [| Hne]; [lia |].
    assert (Hnext : val < node ab hi).
    { subst hi. rewrite <- (wf_minimap ab W) by lia. apply Hhi. lia. }
    assert (Hmask : node ab i <= get (ab_addrs ab) i).
    { apply entry_ok_mask, (wf_entries ab W). page_lia. }
    destruct (decide (i = hi)) as [-> |]; [lia |].
    pose proof (wf_sorted ab W hi i). page_lia.
Qed.

Lemma addr_find_ok val ab : pool_wf ab -> wp (addr_find val ab) (locates ab val).
Proof.
  intros W. pose proof (wf_n ab W) as Hn. pose proof (wf_room ab W).
  pose proof (wf_map_room ab W). pose proof (n_minimap_pages ab W) as (Hn1 & Hn2 & Hn3).
  unfold addr_find. wp_step.
  eapply wp_mono; [apply binary_search_ok; [| | | | by apply minimap_increasing];
    page_lia |].
  intros p (Hp & Hlo & Hhi). cbn beta.
  rewrite (page_index_small p) by page_lia.
  assert (Hrange : p * PAGE_WORDS < (if p =? ab_n_minimap ab - 1 then ab_n_addrs ab
    else to_int (u64 ((p + 1) * PAGE_WORDS))) <= ab_n_addrs ab).
  { destruct (Z.eqb_spec p (ab_n_minimap ab - 1)) as [-> |]; [lia |].
    rewrite page_index_small by page_lia.
    page_lia. }
  eapply wp_mono; [apply binary_search_ok; [page_lia | lia.. |] |].
  { intros i j Hi Hij Hj. apply pool_increasing; [done | page_lia | lia | lia]. }
  intros loc Hloc. eapply (page_locates ab val p); [done | lia | done | done | done |].
  revert Hloc. destruct (Z.eqb_spec p (ab_n_minimap ab - 1)); [done |].
  by rewrite page_index_small by page_lia.
Qed.

(** An unmarked entry is its own node; if it is in the pool, that is where
    the search ends. *)
Lemma locates_found ab val loc k :
  pool_wf ab -> locates ab val loc -> 0 <= k < ab_n_addrs ab -> get (ab_addrs ab) k = val -> loc = k.
Proof.
  intros W (Hloc & Hle & Hgt) Hk E.
  destruct (Z.lt_trichotomy loc k) as [H | [H | H]]; [| done |].
  - specialize (Hgt k). lia.
  - destruct Hle as [-> | Hle]; [lia |].
    pose proof (entry_ok_mask _ (wf_entries ab W k ltac:(lia))).
    pose proof (entry_ok_mask _ (wf_entries ab W loc ltac:(lia))).
    pose proof (pool_increasing ab k loc W). pose proof (wf_sorted ab W k loc).
    unfold node in *. subst val.
    assert (PTR_MASK (get (ab_addrs ab) k) + 4 <= PTR_MASK (get (ab_addrs ab) loc)); [| lia].
    apply aligned4_lt; [by apply entry_ok_mask, (wf_entries ab W)..|]. lia.
Qed.

(** C31: [addr_find] on any well-formed pool, whatever entries are marked
    already, returns an index inside the pool: the place of the last node
    that does not exceed [val] (0 when there is none), and the very index of
    [val] when [val] is in the pool and not marked yet. *)
Theorem addr_find_correct val ab :
  pool_wf ab ->
  exists loc, addr_find val ab = Ok loc /\ 0 <= loc < ab_n_addrs ab /\
    (loc = 0 \/ node ab loc <= val) /\
    (forall i, loc < i < ab_n_addrs ab -> val < get (ab_addrs ab) i) /\
    (forall k, 0 <= k < ab_n_addrs ab -> get (ab_addrs ab) k = val -> loc = k).
Proof.
  intros W. pose proof (addr_find_ok val ab W) as H.
  apply wp_iff in H as (loc & E & Hl). pose proof Hl as (H1 & H2 & H3).
  exists loc. repeat (split; [done |]). intros k. by apply locates_found.
Qed.

Lemma addr_find_correct_witness :
  let ab := plain_buffer [0x100; 0x201; 0x300; 0x400] [0x100] 4 1 in
  exists loc, addr_find 0x300 ab = Ok loc /\ 0 <= loc < ab_n_addrs ab /\
    (loc = 0 \/ node ab loc <= 0x300) /\
    (forall i, loc < i < ab_n_addrs ab -> 0x300 < get (ab_addrs ab) i) /\
    (forall k, 0 <= k < ab_n_addrs ab -> get (ab_addrs ab) k = 0x300 -> loc = k).
Proof. intros ab. apply (addr_find_correct 0x300 ab). by apply pool_wfb_sound. Defined.

(** * The search from a hint *)

(** [hint] is a usable starting point for [val]: nothing before it reaches
    [val]. *)
Definition hint_ok (ab : addr_buffer_t) (val hint : Z) : Prop :=
  0 <= hint < ab_n_addrs ab /\ (forall i, 0 <= i < hint -> node ab i < val).

Definition hint_found (ab : addr_buffer_t) (val loc : Z) : Prop :=
  hint_ok ab val loc /\
  (forall k, 0 <= k < ab_n_addrs ab -> get (ab_addrs ab) k = val -> loc = k).

Lemma locates_hint_found ab val loc : pool_wf ab -> locates ab val loc -> hint_found ab val loc.
Proof.
  intros W Hl. pose proof Hl as (H1 & H2 & H3). split.
  - split; [done |]. intros i Hi. pose proof (wf_sorted ab W i loc). lia.
  - intros k. by apply locates_found.
Qed.

Lemma first_hint_found ab val hint :
  pool_wf ab -> aligned4 val -> hint_ok ab val hint -> val <= get (ab_addrs ab) hint ->
  hint_found ab val hint.
Proof.
  intros W Hal [H1 H2] Hle. split; [done |]. intros k Hk E.
  destruct (Z.lt_trichotomy hint k) as [H | [H | H]]; [| done |].
  - pose proof (pool_increasing ab hint k W). lia.
  - specialize (H2 k ltac:(lia)). pose proof (wf_entries ab W k Hk) as He.
    apply (entry_lt_iff _ val) in H2; [lia | done | done].
Qed.

Lemma addr_find_hint_ok val ab hint :
  pool_wf ab -> aligned4 val -> hint_ok ab val hint ->
  val <= get (ab_addrs ab) (ab_n_addrs ab - 1) ->
  wp (addr_find_hint val ab hint) (hint_found ab val).
Proof.
  intros W Hal Hh Hmax. pose proof Hh as [Hh1 Hh2]. pose proof (wf_room ab W).
  unfold addr_find_hint. wp_step. wp_step; [lia |]. cbn beta zeta.
  destruct (Z.leb_spec val (get (ab_addrs ab) hint)) as [Hle | Hgt].
  { wp_step. by apply first_hint_found. }
  set (remaining := to_int _). clearbody remaining. wp_step.
  apply (wp_loop (fun '(_, h) => hint_ok ab val h /\ get (ab_addrs ab) h < val)
    (fun '(i, _) => Z.to_nat (remaining - i))); [done | lia |].
  intros [i h] [[Hr Hb] Hlt]. destruct (Z.ltb_spec i remaining).
  - cbn zeta. rewrite MIN_OF_min.
    assert (h <> ab_n_addrs ab - 1) by (intros ->; lia).
    replace (Z.min (ab_n_addrs ab) (h + 1)) with (h + 1) by lia.
    assert (Hok : hint_ok ab val (h + 1)).
    { split; [lia |]. intros j Hj. destruct (decide (j = h)) as [-> |]; [| apply Hb; lia].
      apply (entry_lt_iff (get (ab_addrs ab) h)); [apply (wf_entries ab W); lia | done..]. }
    wp_step. wp_step; [lia |]. cbn beta.
    destruct (Z.leb_spec val (get (ab_addrs ab) (h + 1))); repeat wp_step.
    + by apply first_hint_found.
    + split; [done | lia].
  - repeat wp_step. eapply wp_mono; [by apply addr_find_ok |].
    intros loc. by apply locates_hint_found.
Qed.

(** [addr_find_hint] from any hint that no earlier node of the pool reaches:
    it stays inside the pool although its linear scan may step to
    [addrs[n_addrs]], returns the index of [val] when [val] is in the pool and
    not marked, and its answer is again a valid hint for this and every
    larger value. *)
Theorem addr_find_hint_correct val ab hint :
  pool_wf ab -> aligned4 val -> 0 <= hint < ab_n_addrs ab ->
  (forall i, 0 <= i < hint -> node ab i < val) ->
  val <= get (ab_addrs ab) (ab_n_addrs ab - 1) ->
  exists loc, addr_find_hint val ab hint = Ok loc /\ 0 <= loc < ab_n_addrs ab /\
    (forall k, 0 <= k < ab_n_addrs ab -> get (ab_addrs ab) k = val -> loc = k) /\
    (forall i, 0 <= i < loc -> node ab i < val).
Proof.
  intros W Hal H1 H2 Hmax.
  pose proof (addr_find_hint_ok val ab hint W Hal (conj H1 H2) Hmax) as H.
  apply wp_iff in H as (loc & E & [Hr Hb] & Hf). by exists loc.
Qed.

Lemma addr_find_hint_correct_witness :
  let ab := plain_buffer [0x100; 0x201; 0x300; 0x400] [0x100] 4 1 in
  exists loc, addr_find_hint 0x400 ab 1 = Ok loc /\ 0 <= loc < ab_n_addrs ab /\
    (forall k, 0 <= k < ab_n_addrs ab -> get (ab_addrs ab) k = 0x400 -> loc = k) /\
    (forall i, 0 <= i < loc -> node ab i < 0x400).
Proof.
  intros ab. apply (addr_find_hint_correct 0x400 ab 1);
    [by apply pool_wfb_sound | done | done | | done].
  intros i Hi. replace i with 0 by lia. done.
Defined.
