(* ===== verification/Mark.v ===== *)
(** Marking, from child.c: [recursive_mark] and [lookup_lookaside_list].

    The child scans a snapshot: the words of memory ([mem], read through
    [load]) and the sizes the allocator reports ([usable_size], the function
    behind [MALLOC_USABLE_SIZE]) do not change; the address table does. *)
From S2P Require Import Prelude SortUtil AddrBuffer Search.

Definition LOOKASIDE_SZ : Z := 0x4000.

Record trace_stats_t : Type := { ts_min : Z; ts_max : Z }.

(** The scanner's own state: the shared table and the static lookaside list. *)
Record scan_t : Type := mk_scan {
  sc_ab : addr_buffer_t;
  g_lookaside_list : list Z;
  g_lookaside_count : Z }.

Section mark.
Context (mem usable_size : Z -> Z).

(** The [size_t] read at an address. *)
Definition load (a : Z) : Z := u64 (mem a).

(** [MALLOC_USABLE_SIZE(p) / sizeof(size_t)]: how many words a node has. *)
Definition node_words (p : Z) : Z := usable_size p / WORD.

Fixpoint recursive_mark (fuel : nat) (addr : Z) (ab : addr_buffer_t) (ts : trace_stats_t)
  : res addr_buffer_t :=
  match fuel with
  | O => Err OutOfFuel
  | S fuel =>
      let ptr := PTR_MASK addr in
      let n_vals := node_words ptr in
      for_range 0 n_vals (fun i ab =>
        let val := PTR_MASK (load (ptr + i * WORD)) in
        if (val <? ts_min ts) || (val >? ts_max ts) then Ok ab else
        let! loc := addr_find val ab in
        let! hit := is_ref ab loc val in
        if hit then
          let! target := rd (ab_addrs ab) loc in
          if negb (Z.land target 1 =? 0) then Ok ab else
          let! l := wr (ab_addrs ab) loc (Z.lor target 1) in
          recursive_mark fuel (PTR_MASK addr) (set_addrs ab l) ts
        else Ok ab) ab
  end.

(** Each nested call has marked one more entry. *)
Definition mark_fuel (ab : addr_buffer_t) : nat := S (Z.to_nat (ab_n_addrs ab)).

(** The body of the loop over the list: the table, [cmp] and [cached_loc]
    are its state.  The [else] is the debug build's double check. *)
Definition lookup_step (list : list Z) (ts : trace_stats_t) (i : Z)
    (s : addr_buffer_t * Z * Z) : res (addr_buffer_t * Z * Z) :=
  let '(ab, cmp, cached_loc) := s in
  let! x := rd list i in
  assert (negb (cmp =? x)) ;!
  let cmp := x in
  let! loc := addr_find_hint cmp ab cached_loc in
  let cached_loc := loc in
  let! hit := is_ref ab loc cmp in
  if hit then
    let! addr := rd (ab_addrs ab) loc in
    if Z.land addr 1 =? 0 then
      let! l := wr (ab_addrs ab) loc (Z.lor addr 1) in
      let! ab := recursive_mark (mark_fuel ab) addr (set_addrs ab l) ts in
      Ok (ab, cmp, cached_loc)
    else Ok (ab, cmp, cached_loc)
  else
    let! loc2 := binary_search cmp (ab_addrs ab) 0 (ab_n_addrs ab) in
    let! y := rd (ab_addrs ab) loc2 in
    assert (negb (y =? cmp)) ;!
    Ok (ab, cmp, cached_loc).

Definition lookup_lookaside_list (sc : scan_t) (ts : trace_stats_t) : res scan_t :=
  let! list := forkscan_util_sort (g_lookaside_list sc) (g_lookaside_count sc) in
  let! '(list, savings) := forkscan_util_compact list (g_lookaside_count sc) in
  let count := g_lookaside_count sc - savings in
  let! '(ab, _, _) :=
    for_range 0 count (lookup_step list ts) (sc_ab sc, 0, 0) in
  Ok (mk_scan ab list 0).

(** The words of the node at [p], low bits masked: what it refers to. *)
Definition refs (p : Z) : list Z :=
  (fun i => PTR_MASK (load (p + i * WORD))) <$>
  (Z.of_nat <$> seq 0 (Z.to_nat (node_words p))).
End mark.

Definition stats (ab : addr_buffer_t) : trace_stats_t :=
  {| ts_min := node ab 0; ts_max := node ab (ab_n_addrs ab - 1) |}.

(** * Marking as a function of the table *)

Definition mark1 (vs : list Z) (e : Z) : Z := if bool_decide (e ∈ vs) then Z.lor e 1 else e.

(** Set the mark of every entry whose (unmarked) address is in [vs]. *)
Definition mark_all (vs : list Z) (ab : addr_buffer_t) : addr_buffer_t :=
  let n := Z.to_nat (ab_n_addrs ab) in
  set_addrs ab ((mark1 vs <$> take n (ab_addrs ab)) ++ drop n (ab_addrs ab)).

(** The unmarked nodes of the pool. *)
Definition unmarked (ab : addr_buffer_t) (v : Z) : Prop :=
  exists k, 0 <= k < ab_n_addrs ab /\ get (ab_addrs ab) k = v /\ aligned4 v.

Definition all_aligned (vs : list Z) : Prop := forall v, v ∈ vs -> aligned4 v.

Lemma lor1 e : 0 <= e -> aligned4 e -> Z.lor e 1 = e + 1.
Proof.
  unfold aligned4. intros H0 H.
  destruct e as [| [p | p |] | p]; [done | | done | done | lia].
  exfalso. rewrite Pos2Z.inj_xI in H. revert H. Z.to_euclidean_division_equations. lia.
Qed.

Lemma land1 e : Z.land e 1 = e mod 2.
Proof. change 1 with (Z.ones 1) at 1. rewrite Z.land_ones by lia. done. Qed.

Lemma land1_aligned e : aligned4 e -> Z.land e 1 = 0.
Proof. unfold aligned4. rewrite land1. Z.to_euclidean_division_equations. lia. Qed.

Lemma entry_unmarked_aligned e : entry_ok e -> Z.land e 1 = 0 -> aligned4 e.
Proof.
  intros (_ & _ & H). rewrite land1. unfold aligned4.
  Z.to_euclidean_division_equations. lia.
Qed.

Lemma zlen_mark_all vs ab : zlen (ab_addrs (mark_all vs ab)) = zlen (ab_addrs ab).
Proof.
  unfold zlen, mark_all. simpl.
  rewrite length_app, length_fmap, length_take, length_drop. lia.
Qed.

Lemma get_mark_all_lt vs ab i :
  ab_n_addrs ab <= zlen (ab_addrs ab) -> 0 <= i < ab_n_addrs ab ->
  get (ab_addrs (mark_all vs ab)) i = mark1 vs (get (ab_addrs ab) i).
Proof.
  unfold zlen. intros Hr Hi. unfold get, mark_all. simpl.
  apply list_lookup_total_correct.
  rewrite lookup_app_l by (rewrite length_fmap, length_take; lia).
  rewrite list_lookup_fmap, lookup_take_lt by lia.
  rewrite list_lookup_lookup_total_lt by lia. done.
Qed.

Lemma get_mark_all_ge vs ab i :
  0 <= ab_n_addrs ab <= zlen (ab_addrs ab) -> ab_n_addrs ab <= i ->
  get (ab_addrs (mark_all vs ab)) i = get (ab_addrs ab) i.
Proof.
  unfold zlen. intros Hr Hi. unfold get, mark_all. simpl.
  rewrite !list_lookup_total_alt, lookup_app_r by (rewrite length_fmap, length_take; lia).
  rewrite lookup_drop, length_fmap, length_take. do 2 f_equal. lia.
Qed.

Lemma mark_all_eq vs ab l :
  0 <= ab_n_addrs ab <= zlen (ab_addrs ab) -> zlen l = zlen (ab_addrs ab) ->
  (forall i, 0 <= i < ab_n_addrs ab -> get l i = mark1 vs (get (ab_addrs ab) i)) ->
  (forall i, ab_n_addrs ab <= i -> get l i = get (ab_addrs ab) i) ->
  set_addrs ab l = mark_all vs ab.
Proof.
  intros Hr Hl Hlt Hge. unfold mark_all. f_equal.
  change (l = ab_addrs (mark_all vs ab)).
  apply list_eq_get; [by rewrite zlen_mark_all |]. intros i Hi.
  destruct (decide (i < ab_n_addrs ab)).
  - rewrite get_mark_all_lt by lia. apply Hlt. lia.
  - rewrite get_mark_all_ge by lia. apply Hge. lia.
Qed.

Lemma mark1_in vs e : e ∈ vs -> mark1 vs e = Z.lor e 1.
Proof. intros H. unfold mark1. by rewrite bool_decide_eq_true_2. Qed.

Lemma mark1_notin vs e : e ∉ vs -> mark1 vs e = e.
Proof. intros H. unfold mark1. by rewrite bool_decide_eq_false_2. Qed.

(** Marking moves an entry from [x] to [x + 1] and keeps its node. *)
Lemma mark1_entry vs e :
  entry_ok e -> all_aligned vs -> entry_ok (mark1 vs e) /\ PTR_MASK (mark1 vs e) = PTR_MASK e.
Proof.
  intros He Hvs. destruct (decide (e ∈ vs)) as [Hin | Hin];
    [rewrite mark1_in by done | by rewrite mark1_notin by done].
  pose proof He as (Hs & Hlo & _). pose proof (Hvs _ Hin) as Ha.
  rewrite lor1 by (done || lia). unfold aligned4, size_ok in *.
  assert (size_ok (e + 1)).
  { unfold size_ok. change (2 ^ 64) with (4 * 2 ^ 62) in *.
    Z.to_euclidean_division_equations. lia. }
  split.
  - split; [done |]. split; [lia |]. right. Z.to_euclidean_division_equations. lia.
  - rewrite !PTR_MASK_eq by done. Z.to_euclidean_division_equations. lia.
Qed.

Lemma mark1_mark1 us vs e :
  entry_ok e -> all_aligned us -> all_aligned vs ->
  mark1 vs (mark1 us e) = mark1 (us ++ vs) e.
Proof.
  intros He Hus Hvs. destruct (decide (e ∈ us)) as [Hin | Hin].
  - rewrite (mark1_in us), (mark1_in (us ++ vs)) by (done || (apply elem_of_app; auto)).
    apply mark1_notin. intros Hin'. apply Hvs in Hin'. pose proof (Hus _ Hin) as Ha.
    pose proof He as (_ & Hlo & _). rewrite lor1 in Hin' by (done || lia).
    unfold aligned4 in *. revert Ha Hin'. Z.to_euclidean_division_equations. lia.
  - rewrite (mark1_notin us) by done. unfold mark1.
    by rewrite (bool_decide_ext (e ∈ vs) (e ∈ us ++ vs)) by (rewrite elem_of_app; tauto).
Qed.

Section mark_all.
Context (ab : addr_buffer_t) (W : pool_wf ab).

Lemma pool_bounds : 0 <= ab_n_addrs ab <= zlen (ab_addrs ab).
Proof. pose proof (wf_n ab W). pose proof (wf_room ab W). lia. Qed.

Lemma node_mark_all vs i :
  all_aligned vs -> 0 <= i < ab_n_addrs ab -> node (mark_all vs ab) i = node ab i.
Proof.
  intros Hvs Hi. unfold node. rewrite get_mark_all_lt by (done || apply pool_bounds).
  by apply mark1_entry; [apply (wf_entries ab W) |].
Qed.

Lemma mark_all_wf vs : all_aligned vs -> pool_wf (mark_all vs ab).
Proof.
  intros Hvs. split; try (apply W).
  - rewrite zlen_mark_all. apply W.
  - intros i Hi. rewrite get_mark_all_lt by (done || apply pool_bounds).
    by apply mark1_entry; [apply (wf_entries ab W) |].
  - intros i j Hi Hij Hj. change (ab_n_addrs (mark_all vs ab)) with (ab_n_addrs ab) in Hj.
    rewrite !node_mark_all by (done || lia). apply (wf_sorted ab W); lia.
  - intros p Hp. pose proof (n_minimap_pages ab W).
    change (ab_n_minimap (mark_all vs ab)) with (ab_n_minimap ab) in Hp.
    rewrite node_mark_all by (done || page_lia). by apply (wf_minimap ab W).
Qed.

Lemma mark_all_nil : mark_all [] ab = ab.
Proof.
  rewrite <- (mark_all_eq [] ab (ab_addrs ab)); [by destruct ab | apply pool_bounds | done | | done].
  intros i Hi. by rewrite mark1_notin by set_solver.
Qed.

Lemma mark_all_mark_all us vs :
  all_aligned us -> all_aligned vs -> mark_all vs (mark_all us ab) = mark_all (us ++ vs) ab.
Proof.
  intros Hus Hvs. pose proof pool_bounds as Hb.
  change (mark_all vs (mark_all us ab)) with
    (set_addrs ab (ab_addrs (mark_all vs (mark_all us ab)))).
  apply mark_all_eq; [done | by rewrite !zlen_mark_all | |]; intros i Hi.
  - rewrite !get_mark_all_lt by (rewrite ?zlen_mark_all; simpl; lia).
    apply mark1_mark1; [by apply (wf_entries ab W) | done..].
  - by rewrite !get_mark_all_ge by (rewrite ?zlen_mark_all; simpl; lia).
Qed.

Lemma mark_all_ext us vs :
  (forall v, unmarked ab v -> v ∈ us <-> v ∈ vs) -> all_aligned us -> all_aligned vs ->
  mark_all us ab = mark_all vs ab.
Proof.
  intros Hext Hus Hvs. pose proof pool_bounds as Hb.
  change (mark_all us ab) with (set_addrs ab (ab_addrs (mark_all us ab))).
  apply mark_all_eq; [done | by rewrite zlen_mark_all | |]; intros i Hi.
  - rewrite get_mark_all_lt by (done || lia). unfold mark1.
    erewrite bool_decide_ext; [done |].
    assert (Hu : aligned4 (get (ab_addrs ab) i) -> unmarked ab (get (ab_addrs ab) i)) by (by exists i).
    split; intros Hin; apply Hext; eauto.
  - by rewrite get_mark_all_ge by lia.
Qed.

(** The write [addrs[loc] = v | 1] of an unmarked entry. *)
Lemma mark_one loc v :
  0 <= loc < ab_n_addrs ab -> get (ab_addrs ab) loc = v -> aligned4 v ->
  set_addrs ab (upd (ab_addrs ab) loc (Z.lor v 1)) = mark_all [v] ab.
Proof.
  intros Hloc E Ha. pose proof pool_bounds as Hb. apply mark_all_eq; [done | apply zlen_upd | |].
  - intros i Hi. rewrite get_upd by lia. case_decide as Ei; subst.
    + by rewrite mark1_in by (by apply list_elem_of_singleton).
    + rewrite mark1_notin; [done |]. rewrite list_elem_of_singleton. intros Ex.
      destruct (Z.lt_trichotomy loc i) as [H | [H | H]]; [| done |].
      * pose proof (pool_increasing ab loc i W). lia.
      * pose proof (pool_increasing ab i loc W). lia.
  - intros i Hi. apply get_upd_ne; lia.
Qed.

Lemma unmarked_mark_all vs v :
  all_aligned vs -> unmarked (mark_all vs ab) v <-> unmarked ab v /\ v ∉ vs.
Proof.
  intros Hvs. pose proof pool_bounds as Hb. split.
  - intros (k & Hk & E & Ha). change (ab_n_addrs (mark_all vs ab)) with (ab_n_addrs ab) in Hk.
    rewrite get_mark_all_lt in E by (done || lia).
    destruct (decide (get (ab_addrs ab) k ∈ vs)) as [Hin | Hin].
    + rewrite mark1_in in E by done. exfalso. pose proof (wf_entries ab W k Hk) as (_ & Hlo & _).
      pose proof (Hvs _ Hin). rewrite lor1 in E by (done || lia).
      subst v. unfold aligned4 in *. revert Ha H. Z.to_euclidean_division_equations. lia.
    + rewrite mark1_notin in E by done. subst v. split; [by exists k | done].
  - intros [(k & Hk & E & Ha) Hin]. exists k. split; [done |].
    rewrite get_mark_all_lt by (done || lia). by rewrite mark1_notin by (by subst v).
Qed.
End mark_all.

Lemma stats_mark_all vs ab : pool_wf ab -> all_aligned vs -> stats (mark_all vs ab) = stats ab.
Proof.
  intros W Hvs. pose proof (wf_n ab W). unfold stats.
  change (ab_n_addrs (mark_all vs ab)) with (ab_n_addrs ab).
  by rewrite !node_mark_all by (done || lia).
Qed.

(** * The recursion ends *)

(** How many of [vs] are in the pool and not marked. *)
Definition n_unmarked (vs : list Z) (ab : addr_buffer_t) : nat :=
  length (filter (fun e => e ∈ vs) (take (Z.to_nat (ab_n_addrs ab)) (ab_addrs ab))).

Lemma filter_fmap_le {A} (P : A -> Prop) `{!forall x, Decision (P x)} (f : A -> A) (l : list A) :
  (forall x, x ∈ l -> P (f x) -> P x) -> (length (filter P (f <$> l)) <= length (filter P l))%nat.
Proof.
  induction l as [|x l IH]; intros Hf; [done |]. rewrite fmap_cons, !filter_cons.
  assert (IHl := IH (fun y Hy => Hf y (list_elem_of_further _ _ _ Hy))).
  specialize (Hf x (list_elem_of_here _ _)).
  repeat case_decide; simpl; try lia. tauto.
Qed.

Lemma filter_fmap_lt {A} (P : A -> Prop) `{!forall x, Decision (P x)} (f : A -> A) (l : list A) y :
  (forall x, x ∈ l -> P (f x) -> P x) -> y ∈ l -> P y -> ~ P (f y) ->
  (length (filter P (f <$> l)) < length (filter P l))%nat.
Proof.
  intros Hf Hy HP HnP. induction Hy as [y l | y x l Hy IH]; rewrite fmap_cons, !filter_cons.
  - rewrite decide_False, decide_True by done. simpl.
    pose proof (filter_fmap_le P f l (fun z Hz => Hf z (list_elem_of_further _ _ _ Hz))). lia.
  - specialize (IH (fun z Hz => Hf z (list_elem_of_further _ _ _ Hz)) HP HnP).
    specialize (Hf x (list_elem_of_here _ _)). repeat case_decide; simpl; try lia. tauto.
Qed.

Lemma n_unmarked_bound vs ab : (n_unmarked vs ab <= Z.to_nat (ab_n_addrs ab))%nat.
Proof. unfold n_unmarked. rewrite length_filter, length_take. lia. Qed.

Lemma n_unmarked_mark_all ab us vs :
  pool_wf ab -> n_unmarked vs (mark_all us ab) =
    length (filter (fun e => e ∈ vs) (mark1 us <$> take (Z.to_nat (ab_n_addrs ab)) (ab_addrs ab))).
Proof.
  intros W. pose proof (pool_bounds ab W) as Hb. unfold zlen in Hb.
  unfold n_unmarked, mark_all. simpl.
  by rewrite take_app_length' by (rewrite length_fmap, length_take; lia).
Qed.

Lemma pool_entry ab x : pool_wf ab -> x ∈ take (Z.to_nat (ab_n_addrs ab)) (ab_addrs ab) -> entry_ok x.
Proof.
  intros W (i & Hi)%list_elem_of_lookup. apply lookup_take_Some in Hi as [Hi Hlt].
  apply lookup_get in Hi. rewrite <- Hi. apply (wf_entries ab W). lia.
Qed.

(** A marked entry is nobody's address. *)
Lemma mark1_in_inv us vs e :
  entry_ok e -> all_aligned us -> all_aligned vs -> mark1 us e ∈ vs -> e ∈ vs /\ e ∉ us.
Proof.
  intros He Hus Hvs. destruct (decide (e ∈ us)) as [Hin | Hin];
    [rewrite mark1_in by done | by rewrite mark1_notin by done].
  intros Hin'%Hvs. exfalso. pose proof (Hus _ Hin) as Ha. pose proof He as (_ & Hlo & _).
  rewrite lor1 in Hin' by (done || lia).
  unfold aligned4 in *. revert Ha Hin'. Z.to_euclidean_division_equations. lia.
Qed.

Lemma n_unmarked_mono ab us vs :
  pool_wf ab -> all_aligned us -> all_aligned vs ->
  (n_unmarked vs (mark_all us ab) <= n_unmarked vs ab)%nat.
Proof.
  intros W Hus Hvs. rewrite n_unmarked_mark_all by done. apply filter_fmap_le.
  intros x Hx%pool_entry; [| done]. by apply mark1_in_inv.
Qed.

Lemma n_unmarked_lt ab vs v :
  pool_wf ab -> all_aligned vs -> v ∈ vs -> unmarked ab v ->
  (n_unmarked vs (mark_all [v] ab) < n_unmarked vs ab)%nat.
Proof.
  intros W Hvs Hv (k & Hk & E & Ha). pose proof (pool_bounds ab W) as Hb.
  assert (Hav : all_aligned [v]) by (intros w ->%list_elem_of_singleton; done).
  assert (Hin : v ∈ take (Z.to_nat (ab_n_addrs ab)) (ab_addrs ab)).
  { apply list_elem_of_lookup. exists (Z.to_nat k). rewrite lookup_take_lt by lia.
    rewrite get_lookup by lia. by f_equal. }
  rewrite n_unmarked_mark_all by done.
  apply (filter_fmap_lt (fun e => e ∈ vs) (mark1 [v]) _ v); [| done | done |].
  - intros x Hx%pool_entry; [| done]. by apply mark1_in_inv.
  - intros [_ Hn]%mark1_in_inv; [| by eapply pool_entry | done..].
    by apply Hn, list_elem_of_singleton.
Qed.

Lemma unmarked_in_stats ab v : pool_wf ab -> unmarked ab v -> ts_min (stats ab) <= v <= ts_max (stats ab).
Proof.
  intros W (k & Hk & E & Ha). simpl.
  assert (Hnode : node ab k = v).
  { unfold node. rewrite E. apply PTR_MASK_aligned; [| done]. subst v. by apply (wf_entries ab W). }
  rewrite <- Hnode. split.
  - destruct (decide (k = 0)) as [-> |]; [done |]. pose proof (wf_sorted ab W 0 k). lia.
  - destruct (decide (k = ab_n_addrs ab - 1)) as [-> |]; [done |].
    pose proof (wf_sorted ab W k (ab_n_addrs ab - 1)). lia.
Qed.

Lemma wp_is_ref ab loc cmp (Q : bool -> Prop) :
  0 <= loc < zlen (ab_addrs ab) -> Q (node ab loc =? cmp) -> wp (is_ref ab loc cmp) Q.
Proof.
  intros H HQ. unfold is_ref. wp_step. wp_step; [destruct (Z.geb_spec loc 0); lia |].
  wp_step. wp_step; [done |]. by wp_step.
Qed.

Lemma unmarked_entry ab loc v :
  pool_wf ab -> 0 <= loc < ab_n_addrs ab -> node ab loc = v ->
  Z.land (get (ab_addrs ab) loc) 1 = 0 -> get (ab_addrs ab) loc = v /\ aligned4 v.
Proof.
  intros W Hloc Hn Hb. pose proof (wf_entries ab W loc Hloc) as He.
  pose proof (entry_unmarked_aligned _ He Hb). unfold node in Hn.
  rewrite PTR_MASK_aligned in Hn by (done || apply He). by subst v.
Qed.

(** A search that would have found [v] and shows no unmarked [v]: there is none. *)
Lemma probe_miss ab loc v :
  pool_wf ab -> (forall k, 0 <= k < ab_n_addrs ab -> get (ab_addrs ab) k = v -> loc = k) ->
  node ab loc <> v \/ Z.land (get (ab_addrs ab) loc) 1 <> 0 -> ~ unmarked ab v.
Proof.
  intros W Hfind Hmiss (k & Hk & E & Ha). pose proof (Hfind k Hk E) as ->.
  destruct Hmiss as [Hn | Hb].
  - apply Hn. unfold node. rewrite E. apply PTR_MASK_aligned; [| done].
    rewrite <- E. by apply (wf_entries ab W).
  - apply Hb. rewrite E. by apply land1_aligned.
Qed.

Section mark_proofs.
Context (mem usable_size : Z -> Z).
#[local] Abbreviation refs := (refs mem usable_size).
#[local] Abbreviation node_words := (node_words usable_size).
#[local] Abbreviation recursive_mark := (recursive_mark mem usable_size).

Lemma elem_of_refs p v :
  v ∈ refs p <-> exists i, 0 <= i < node_words p /\ v = PTR_MASK (load mem (p + i * WORD)).
Proof.
  unfold Mark.refs. rewrite <- list_fmap_compose, list_elem_of_fmap. split.
  - intros (n & -> & Hn%elem_of_seq). exists (Z.of_nat n). split; [lia | done].
  - intros (i & Hi & ->). exists (Z.to_nat i). rewrite elem_of_seq.
    split; [| lia]. unfold compose. by rewrite Z2Nat.id by lia.
Qed.

Lemma refs_aligned p : all_aligned (refs p).
Proof. intros v (i & _ & ->)%elem_of_refs. apply PTR_MASK_is_aligned, u64_range. Qed.

(** What holds of the table in the middle of the scan of node [p]: some of
    its referents are marked, and none of the first [i] is unmarked. *)
Definition scanning (p : Z) (ab : addr_buffer_t) (i : Z) (s : addr_buffer_t) : Prop :=
  (exists us, us ⊆ refs p /\ s = mark_all us ab) /\
  (forall k, 0 <= k < i -> ~ unmarked s (PTR_MASK (load mem (p + k * WORD)))).

Lemma scanning_done p ab s :
  pool_wf ab -> scanning p ab (Z.max 0 (node_words p)) s -> s = mark_all (refs p) ab.
Proof.
  intros W [(us & Hus & ->) Hno]. pose proof (refs_aligned p) as Har.
  assert (Hau : all_aligned us) by (intros v Hv; apply Har, Hus, Hv).
  apply mark_all_ext; [done | | done..]. intros v Hv. split; [apply Hus |].
  intros (i & Hi & ->)%elem_of_refs. specialize (Hno i ltac:(lia)).
  rewrite unmarked_mark_all in Hno by done.
  destruct (decide (PTR_MASK (load mem (p + i * WORD)) ∈ us)); [done |]. tauto.
Qed.

Lemma scanning_skip p ab i s :
  scanning p ab i s -> ~ unmarked s (PTR_MASK (load mem (p + i * WORD))) -> scanning p ab (i + 1) s.
Proof.
  intros [Hus Hno] Hi. split; [done |]. intros k Hk.
  destruct (decide (k = i)) as [-> |]; [done | apply Hno; lia].
Qed.

(** The nested call marks every referent, those already passed included. *)
Lemma scanning_nested p ab i s v :
  pool_wf ab -> 0 <= i < node_words p -> v = PTR_MASK (load mem (p + i * WORD)) -> aligned4 v ->
  scanning p ab i s -> scanning p ab (i + 1) (mark_all (refs p) (mark_all [v] s)).
Proof.
  intros W Hi Ev Ha [(us & Hus & ->) Hno]. pose proof (refs_aligned p) as Har.
  assert (Hau : all_aligned us) by (intros w Hw; apply Har, Hus, Hw).
  assert (Hav : all_aligned (us ++ [v])).
  { intros w [Hw | ->%list_elem_of_singleton]%elem_of_app; [by apply Hau | done]. }
  assert (Havr : all_aligned ((us ++ [v]) ++ refs p)).
  { intros w [Hw | Hw]%elem_of_app; [by apply Hav | by apply Har]. }
  rewrite (mark_all_mark_all ab W us [v]), (mark_all_mark_all ab W); [| done.. |].
  2: { intros w ->%list_elem_of_singleton. done. }
  split.
  - eexists; split; [| done]. intros w.
    rewrite !elem_of_app, list_elem_of_singleton. intros [[Hw | ->] | Hw]; [auto | | done].
    subst v. apply elem_of_refs. by exists i.
  - intros k Hk. rewrite unmarked_mark_all by done. intros [_ Hnin]. apply Hnin.
    apply elem_of_app. right. apply elem_of_refs. exists k. split; [lia | done].
Qed.

Lemma scanning_wf p ab i s :
  pool_wf ab -> scanning p ab i s ->
  pool_wf s /\ stats s = stats ab /\ (n_unmarked (refs p) s <= n_unmarked (refs p) ab)%nat.
Proof.
  intros W [(us & Hus & ->) _].
  assert (Hau : all_aligned us) by (intros v Hv; apply (refs_aligned p), Hus, Hv).
  split; [by apply mark_all_wf |]. split; [by apply stats_mark_all |].
  apply n_unmarked_mono; [done.. | apply refs_aligned].
Qed.

(** [recursive_mark] marks the referents of the node it is given, and
    nothing else: its nested call scans that same node again. *)
Lemma recursive_mark_eq fuel addr ab :
  pool_wf ab -> (n_unmarked (refs (PTR_MASK addr)) ab < fuel)%nat ->
  recursive_mark fuel addr ab (stats ab) = Ok (mark_all (refs (PTR_MASK addr)) ab).
Proof.
  revert addr ab. induction fuel as [|fuel IH]; intros addr ab W Hf; [lia |].
  set (p := PTR_MASK addr) in *.
  enough (wp (recursive_mark (S fuel) addr ab (stats ab))
    (fun s => s = mark_all (refs p) ab)) as (s & -> & ->)%wp_iff; [done |].
  simpl. fold p. unfold for_range. rewrite Z.sub_0_r.
  eapply wp_mono; [apply (wp_for_upto (scanning p ab)) |].
  { split; [| lia]. exists []. split; [apply list_subseteq_nil | by rewrite mark_all_nil]. }
  2: { intros s Hs. apply scanning_done; [done |].
       by replace (Z.max 0 (node_words p)) with (0 + Z.of_nat (Z.to_nat (node_words p))) by lia. }
  intros i s Hi Hs. pose proof (scanning_wf p ab i s W Hs) as (Ws & Est & Hcount).
  set (v := PTR_MASK (load mem (p + i * WORD))).
  assert (Hvr : v ∈ refs p) by (apply elem_of_refs; exists i; split; [lia | done]).
  cbn zeta. rewrite <- Est. fold v.
  destruct ((v <? _) || (v >? _)) eqn:Hrange.
  { wp_step. apply scanning_skip; [done |]. fold v. intros Hu%unmarked_in_stats; [| done].
    rewrite Z.gtb_ltb, orb_true_iff, !Z.ltb_lt in Hrange.
    rewrite Est in Hu. simpl in Hu. lia. }
  wp_step. eapply wp_mono; [by apply addr_find_ok |]. intros loc Hloc.
  pose proof (wf_room s Ws). pose proof Hloc as (Hlr & _).
  pose proof (fun k => locates_found s v loc k Ws Hloc) as Hfind.
  wp_step. apply wp_is_ref; [lia |]. cbn beta.
  destruct (Z.eqb_spec (node s loc) v) as [Hn | Hn].
  2: { wp_step. apply scanning_skip; [done |]. eapply probe_miss; eauto. }
  wp_step. wp_step; [lia |]. cbn beta.
  destruct (Z.eqb_spec (Z.land (get (ab_addrs s) loc) 1) 0) as [Hb | Hb]; simpl negb; cbn iota.
  2: { wp_step. apply scanning_skip; [done |]. eapply probe_miss; eauto. }
  destruct (unmarked_entry s loc v Ws Hlr Hn Hb) as [Eg Ha].
  assert (Hav : all_aligned [v]) by (intros w ->%list_elem_of_singleton; done).
  wp_step. wp_step; [lia |]. cbn beta. rewrite Eg, (mark_one s Ws loc v) by done.
  rewrite <- (stats_mark_all [v] s) by done. fold p.
  assert (Hpp : PTR_MASK p = p) by (unfold p, PTR_MASK; by rewrite <- Z.land_assoc, Z.land_diag).
  rewrite IH; rewrite ?Hpp; [| by apply mark_all_wf |].
  - wp_step. eapply scanning_nested; [done | lia | done..].
  - pose proof (n_unmarked_lt s (refs p) v Ws (refs_aligned p) Hvr ltac:(by exists loc)). lia.
Qed.
End mark_proofs.

(** * Draining the lookaside list *)

Section lookaside.
Context (mem usable_size : Z -> Z).
#[local] Abbreviation refs := (refs mem usable_size).
#[local] Abbreviation lookup_lookaside_list := (lookup_lookaside_list mem usable_size).

(** One value of the list: an unmarked node gets its mark, and so does
    every node it refers to. *)
Definition visit (ab : addr_buffer_t) (v : Z) : addr_buffer_t :=
  if bool_decide (v ∈ take (Z.to_nat (ab_n_addrs ab)) (ab_addrs ab))
  then mark_all (v :: refs v) ab else ab.

(** The values the scanner puts aside: aligned, and in the pool's range. *)
Definition aside_ok (ab : addr_buffer_t) (v : Z) : Prop :=
  aligned4 v /\ ts_min (stats ab) <= v <= ts_max (stats ab).

(** [us] are values of [vs] and referents of values of [vs], among them
    every unmarked value of [vs]. *)
Definition covers (vs us : list Z) (ab : addr_buffer_t) : Prop :=
  all_aligned us /\
  (forall v, v ∈ us -> exists w, w ∈ vs /\ (v = w \/ v ∈ refs w)) /\
  (forall v, v ∈ vs -> unmarked ab v -> v ∈ us).

Lemma unmarked_elem ab v :
  pool_wf ab -> aligned4 v -> v ∈ take (Z.to_nat (ab_n_addrs ab)) (ab_addrs ab) <-> unmarked ab v.
Proof.
  intros W Ha. pose proof (pool_bounds ab W) as Hb. split.
  - intros (i & Hi)%list_elem_of_lookup. apply lookup_take_Some in Hi as [Hi Hlt].
    exists (Z.of_nat i). split; [lia |]. split; [by apply lookup_get | done].
  - intros (k & Hk & E & _). apply list_elem_of_lookup. exists (Z.to_nat k).
    rewrite lookup_take_lt by lia. rewrite get_lookup by lia. by f_equal.
Qed.

Lemma cons_refs_aligned v : aligned4 v -> all_aligned (v :: refs v).
Proof. intros Ha w [-> | Hw]%elem_of_cons; [done | by eapply refs_aligned]. Qed.

Lemma visit_unmarked ab v :
  pool_wf ab -> aligned4 v -> unmarked ab v -> visit ab v = mark_all (v :: refs v) ab.
Proof. intros W Ha Hu. unfold visit. by rewrite bool_decide_eq_true_2 by (by apply unmarked_elem). Qed.

Lemma visit_other ab v : pool_wf ab -> aligned4 v -> ~ unmarked ab v -> visit ab v = ab.
Proof. intros W Ha Hu. unfold visit. by rewrite bool_decide_eq_false_2 by (by rewrite unmarked_elem). Qed.

(** Visiting a list of values is one marking. *)
Lemma visits_mark_all ab vs :
  pool_wf ab -> all_aligned vs -> exists us, foldl visit ab vs = mark_all us ab /\ covers vs us ab.
Proof.
  intros W. induction vs as [|v vs IH] using rev_ind; intros Hvs.
  - exists []. simpl. rewrite mark_all_nil by done. split; [done |].
    split; [intros w []%not_elem_of_nil | split; intros w []%not_elem_of_nil].
  - destruct IH as (us & E & Hus & H1 & H2); [intros w Hw; apply Hvs, elem_of_app; by left |].
    assert (Ha : aligned4 v) by (apply Hvs, elem_of_app; right; by apply list_elem_of_singleton).
    rewrite foldl_app. simpl. rewrite E.
    pose proof (mark_all_wf ab W us Hus) as Wu. pose proof (cons_refs_aligned v Ha) as Hc.
    destruct (decide (v ∈ take (Z.to_nat (ab_n_addrs ab)) (ab_addrs (mark_all us ab)))) as [Hin | Hin];
      apply (unmarked_elem (mark_all us ab)) in Hin || rewrite (unmarked_elem (mark_all us ab)) in Hin; try done.
    + rewrite visit_unmarked by done. exists (us ++ v :: refs v).
      rewrite mark_all_mark_all by done. split; [done |]. split; [| split].
      * intros w [Hw | Hw]%elem_of_app; [by apply Hus | by apply Hc].
      * intros w [Hw | [-> | Hw]%elem_of_cons]%elem_of_app.
        -- destruct (H1 w Hw) as (x & Hx & Hwx). exists x. rewrite elem_of_app. auto.
        -- exists v. rewrite elem_of_app, list_elem_of_singleton. auto.
        -- exists v. rewrite elem_of_app, list_elem_of_singleton. auto.
      * intros w [Hw | ->%list_elem_of_singleton]%elem_of_app Hu; apply elem_of_app; [auto |].
        right. by apply elem_of_cons; left.
    + rewrite visit_other by done. exists us. split; [done |]. split; [done |]. split.
      * intros w Hw. destruct (H1 w Hw) as (x & Hx & Hwx). exists x. rewrite elem_of_app. auto.
      * intros w [Hw | ->%list_elem_of_singleton]%elem_of_app Hu; [auto |].
        destruct (decide (v ∈ us)) as [| Hnin]; [done |]. exfalso. apply Hin.
        by apply unmarked_mark_all.
Qed.

(** What holds between two values of the (sorted, compacted) list [l]. *)
Definition draining (ab : addr_buffer_t) (l : list Z) (i : Z)
    (s : addr_buffer_t * Z * Z) : Prop :=
  let '(abi, cmp, cached) := s in
  abi = foldl visit ab (take (Z.to_nat i) l) /\
  (cmp = if i =? 0 then 0 else get l (i - 1)) /\
  0 <= cached < ab_n_addrs ab /\ (forall j, 0 <= j < cached -> node ab j < cmp).

Lemma draining_state ab l i s cmp cached :
  pool_wf ab -> (forall k, 0 <= k < zlen l -> aligned4 (get l k)) ->
  draining ab l i (s, cmp, cached) ->
  pool_wf s /\ stats s = stats ab /\ ab_n_addrs s = ab_n_addrs ab /\
  (forall j, 0 <= j < ab_n_addrs ab -> node s j = node ab j).
Proof.
  intros W Hl (-> & _).
  destruct (visits_mark_all ab (take (Z.to_nat i) l) W) as (us & -> & Hus & _).
  { intros v (k & Hk)%list_elem_of_lookup. apply lookup_take_Some in Hk as [Hk _].
    pose proof (lookup_lt_Some _ _ _ Hk). apply lookup_get in Hk. subst v.
    apply Hl. unfold zlen. lia. }
  split; [by apply mark_all_wf |]. split; [by apply stats_mark_all |].
  split; [done |]. intros j Hj. by apply node_mark_all.
Qed.

Lemma draining_next ab l i s cmp cached x loc :
  0 <= i < zlen l -> x = get l i -> draining ab l i (s, cmp, cached) ->
  0 <= loc < ab_n_addrs ab -> (forall j, 0 <= j < loc -> node ab j < x) ->
  draining ab l (i + 1) (visit s x, x, loc).
Proof.
  intros Hi -> (-> & _) Hloc Hhint. split; [| split; [| done]].
  - replace (Z.to_nat (i + 1)) with (S (Z.to_nat i)) by lia.
    rewrite (take_S_r _ _ (get l i)) by (by apply get_lookup).
    by rewrite foldl_app.
  - destruct (Z.eqb_spec (i + 1) 0); [lia |]. f_equal. lia.
Qed.

(** One turn of the loop, with the debug build's double check. *)
Lemma lookup_step_ok ab l n i s cmp cached list :
  pool_wf ab -> (forall k, 0 <= k < zlen l -> aside_ok ab (get l k)) ->
  n = zlen l -> (forall k, 0 <= k < n -> get list k = get l k) -> n <= zlen list ->
  (forall j k, 0 <= j -> j < k -> k < n -> get l j < get l k) ->
  0 <= i < n -> draining ab l i (s, cmp, cached) ->
  wp (lookup_step mem usable_size list (stats ab) i (s, cmp, cached)) (draining ab l (i + 1)).
Proof.
  intros W Hok -> Heq Hroom Hinc Hi Hd. pose proof Hd as (_ & Ecmp & Hcached & Hhint).
  destruct (draining_state ab l i s cmp cached W (fun k Hk => proj1 (Hok k Hk)) Hd)
    as (Ws & Est & En & Hnode).
  destruct (Hok i Hi) as [Ha Hr]. set (x := get l i) in *.
  assert (Hlt : cmp < x).
  { subst cmp. destruct (Z.eqb_spec i 0); [| apply Hinc; lia].
    pose proof (wf_entries ab W 0 ltac:(lia)) as He. pose proof (entry_ok_mask _ He) as [Hm Hma].
    destruct He as (_ & Hlo & _). simpl in Hr. unfold node, aligned4 in *.
    revert Hma. Z.to_euclidean_division_equations. lia. }
  unfold lookup_step. wp_step. wp_step; [lia |]. cbn beta zeta. rewrite Heq by done. fold x.
  wp_step. wp_step; [by rewrite (proj2 (Z.eqb_neq _ _)) by lia |]. wp_step.
  eapply wp_mono; [apply addr_find_hint_ok; [done | done | |] |].
  { split; [by rewrite En |]. intros j Hj. rewrite Hnode by lia. specialize (Hhint j Hj). lia. }
  { rewrite <- Est in Hr. pose proof (wf_n s Ws). simpl in Hr.
    pose proof (entry_ok_mask _ (wf_entries s Ws (ab_n_addrs s - 1) ltac:(lia))). unfold node in Hr. lia. }
  intros loc ((Hloc & Hbelow) & Hfind). pose proof (wf_room s Ws).
  assert (Hnext : draining ab l (i + 1) (visit s x, x, loc)).
  { eapply draining_next; [done | done | exact Hd | by rewrite <- En |].
    intros j Hj. rewrite <- Hnode by lia. by apply Hbelow. }
  wp_step. apply wp_is_ref; [lia |]. cbn beta.
  destruct (Z.eqb_spec (node s loc) x) as [Hn | Hn].
  - wp_step. wp_step; [lia |]. cbn beta.
    destruct (Z.eqb_spec (Z.land (get (ab_addrs s) loc) 1) 0) as [Hb | Hb].
    2: { wp_step. rewrite visit_other in Hnext; [done.. |]. eapply probe_miss; eauto. }
    destruct (unmarked_entry s loc x Ws Hloc Hn Hb) as [Eg _].
    assert (Hav : all_aligned [x]) by (intros w ->%list_elem_of_singleton; done).
    assert (size_ok x) by (rewrite <- Eg; by apply (wf_entries s Ws)).
    wp_step. wp_step; [lia |]. cbn beta. rewrite Eg, (mark_one s Ws loc x) by done.
    rewrite <- Est, <- (stats_mark_all [x] s) by done. wp_step.
    rewrite recursive_mark_eq; rewrite ?PTR_MASK_aligned by done; [| by apply mark_all_wf |].
    2: { pose proof (n_unmarked_bound (refs x) (mark_all [x] s)). unfold mark_fuel. simpl in *. lia. }
    wp_step. wp_step. rewrite mark_all_mark_all; [| done | done | apply refs_aligned].
    rewrite visit_unmarked in Hnext; [done.. |]. by exists loc.
  - assert (Hu : ~ unmarked s x) by (eapply probe_miss; eauto).
    pose proof (wf_n s Ws). wp_step.
    eapply wp_mono; [apply binary_search_ok; [lia.. |] |].
    { intros j k Hj Hjk Hk. by apply pool_increasing. }
    intros loc2 (Hl2 & _). wp_step. wp_step; [lia |]. wp_step. wp_step.
    { destruct (Z.eqb_spec (get (ab_addrs s) loc2) x); [| done]. exfalso. apply Hu. by exists loc2. }
    wp_step. by rewrite visit_other in Hnext.
Qed.

Lemma lookup_ok sc :
  pool_wf (sc_ab sc) ->
  0 <= g_lookaside_count sc <= zlen (g_lookaside_list sc) -> zlen (g_lookaside_list sc) <= 2 ^ 30 ->
  (forall i, 0 <= i < g_lookaside_count sc -> aside_ok (sc_ab sc) (get (g_lookaside_list sc) i)) ->
  wp (lookup_lookaside_list sc (stats (sc_ab sc))) (fun sc' =>
    g_lookaside_count sc' = 0 /\ zlen (g_lookaside_list sc') = zlen (g_lookaside_list sc) /\
    exists vs, sc_ab sc' = foldl visit (sc_ab sc) vs /\
      (forall i j, 0 <= i -> i < j -> j < zlen vs -> get vs i < get vs j) /\
      (forall v, v ∈ vs <-> exists i, 0 <= i < g_lookaside_count sc /\
                                   get (g_lookaside_list sc) i = v)).
Proof.
  intros W Hc Hl Hok. set (n := g_lookaside_count sc) in *. set (l0 := g_lookaside_list sc) in *.
  unfold Mark.lookup_lookaside_list. fold n l0. wp_step.
  eapply wp_mono; [by apply sort_swaps |]. intros l1 [Hs1 Hsort].
  pose proof (swaps_zlen _ _ _ _ Hs1) as Hl1.
  wp_step. eapply wp_mono; [apply compact_ok; [lia | done] |].
  intros [l2 sv] (Hsv & Hl2 & (Hc1 & Hc2 & Hc3) & _). wp_step.
  set (vs := take (Z.to_nat (n - sv)) l2).
  assert (Hlen : zlen vs = n - sv) by (unfold zlen, vs in *; rewrite length_take; lia).
  assert (Hget : forall k, 0 <= k < n - sv -> get l2 k = get vs k).
  { intros k Hk. unfold vs. change (take _ l2) with (slice l2 0 (n - sv)).
    by rewrite get_slice by lia. }
  assert (Hval : forall v, (exists k, 0 <= k < n - sv /\ get vs k = v) <->
                           (exists i, 0 <= i < n /\ get l0 i = v)).
  { intros v. pose proof (swaps_values 0 (n - 1) ltac:(lia) l0 l1 v Hs1 ltac:(lia)) as Hv.
    split.
    - intros (k & Hk & <-). rewrite <- Hget by done. destruct (Hc2 k Hk) as (i & Hi & ->).
      destruct (proj1 (swaps_values 0 (n - 1) ltac:(lia) l0 l1 (get l1 i) Hs1 ltac:(lia))) as (j & Hj & Ej);
        [exists i; split; [lia | done] |]. exists j. split; [lia | done].
    - intros (i & Hi & E). destruct (proj2 Hv) as (j & Hj & Ej); [exists i; split; [lia | done] |].
      destruct (Hc1 j ltac:(lia)) as (k & Hk & Ek). exists k. rewrite <- Hget by done.
      split; [done | congruence]. }
  assert (Haside : forall k, 0 <= k < zlen vs -> aside_ok (sc_ab sc) (get vs k)).
  { intros k Hk. destruct (proj1 (Hval (get vs k))) as (i & Hi & <-); [| by apply Hok].
    exists k. split; [lia | done]. }
  apply (wp_for_range (draining (sc_ab sc) vs)); [lia | | |].
  - split; [done |]. split; [done |]. pose proof (wf_n _ W). split; lia.
  - intros i [[s cmp] cached] Hi Hd. eapply (lookup_step_ok (sc_ab sc) vs (n - sv)); eauto; [lia |].
    intros j k Hj Hjk Hk. rewrite <- !Hget by lia. by apply Hc3.
  - intros [[s cmp] cached] (-> & _). repeat wp_step. split; [done |]. split; [simpl; lia |].
    exists vs. rewrite take_ge by (unfold zlen in Hlen; lia). split; [done |].
    split; [intros i j Hi Hij Hj; rewrite <- !Hget by lia; apply Hc3; lia |].
    intros v. rewrite <- Hval, list_elem_of_lookup. split.
    + intros (k & Hk). pose proof (lookup_lt_Some _ _ _ Hk).
      exists (Z.of_nat k). split; [unfold zlen in Hlen; lia | by apply lookup_get].
    + intros (k & Hk & <-). exists (Z.to_nat k). apply get_lookup. lia.
Qed.
End lookaside.

(** * What marking achieves *)

(** [recursive_mark] ends, with the fuel of its callers, and marks exactly
    the pool's unmarked nodes that the node at [addr] refers to directly. *)
Theorem recursive_mark_direct mem usable_size addr ab :
  pool_wf ab ->
  recursive_mark mem usable_size (mark_fuel ab) addr ab (stats ab) =
    Ok (mark_all (refs mem usable_size (PTR_MASK addr)) ab).
Proof.
  intros W. apply recursive_mark_eq; [done |].
  pose proof (n_unmarked_bound (refs mem usable_size (PTR_MASK addr)) ab). unfold mark_fuel. lia.
Qed.

(** [lookup_lookaside_list] empties the list and leaves the table that
    visiting its distinct values in increasing order gives; no assertion of
    the debug build fails on the way. *)
Theorem lookup_lookaside_visits mem usable_size sc :
  pool_wf (sc_ab sc) ->
  0 <= g_lookaside_count sc <= zlen (g_lookaside_list sc) -> zlen (g_lookaside_list sc) <= 2 ^ 30 ->
  (forall i, 0 <= i < g_lookaside_count sc -> aside_ok (sc_ab sc) (get (g_lookaside_list sc) i)) ->
  exists sc' vs, lookup_lookaside_list mem usable_size sc (stats (sc_ab sc)) = Ok sc' /\
    g_lookaside_count sc' = 0 /\ zlen (g_lookaside_list sc') = zlen (g_lookaside_list sc) /\
    sc_ab sc' = foldl (visit mem usable_size) (sc_ab sc) vs /\
    (forall i j, 0 <= i -> i < j -> j < zlen vs -> get vs i < get vs j) /\
    (forall v, v ∈ vs <-> exists i, 0 <= i < g_lookaside_count sc /\ get (g_lookaside_list sc) i = v).
Proof.
  intros W Hc Hl Hok. pose proof (lookup_ok mem usable_size sc W Hc Hl Hok) as H.
  apply wp_iff in H as (sc' & E & H1 & H2 & vs & H3 & H4 & H5). by exists sc', vs.
Qed.

(** What a marking round is for: afterwards no tracked node that a scanned
    word referred to is without mark; a node it marked is one of those or is
    referred to by one of those; every mark set before stays. *)
Lemma lookup_marks mem usable_size sc :
  pool_wf (sc_ab sc) ->
  0 <= g_lookaside_count sc <= zlen (g_lookaside_list sc) -> zlen (g_lookaside_list sc) <= 2 ^ 30 ->
  (forall i, 0 <= i < g_lookaside_count sc -> aside_ok (sc_ab sc) (get (g_lookaside_list sc) i)) ->
  wp (lookup_lookaside_list mem usable_size sc (stats (sc_ab sc))) (fun sc' =>
    g_lookaside_count sc' = 0 /\ zlen (g_lookaside_list sc') = zlen (g_lookaside_list sc) /\
    exists us, sc_ab sc' = mark_all us (sc_ab sc) /\ all_aligned us /\
      (forall v, v ∈ us -> exists i, 0 <= i < g_lookaside_count sc /\
         (v = get (g_lookaside_list sc) i \/ v ∈ refs mem usable_size (get (g_lookaside_list sc) i))) /\
      (forall i, 0 <= i < g_lookaside_count sc ->
         ~ unmarked (sc_ab sc') (get (g_lookaside_list sc) i))).
Proof.
  intros W Hc Hl Hok. eapply wp_mono; [by apply lookup_ok |].
  intros sc' (H1 & H2 & vs & -> & _ & Hvs). repeat (split; [done |]).
  destruct (visits_mark_all mem usable_size (sc_ab sc) vs W) as (us & -> & Hus & Hfrom & Hall).
  { intros v (i & Hi & <-)%Hvs. by apply Hok. }
  exists us. split; [done |]. split; [done |]. split.
  - intros v Hv. destruct (Hfrom v Hv) as (w & (i & Hi & <-)%Hvs & Hw). by exists i.
  - intros i Hi [Hu Hnin]%unmarked_mark_all; [| done..]. apply Hnin, Hall; [| done].
    apply Hvs. by exists i.
Qed.

(** C24: The same for the callers of the library: a table entry of a node a
    scanned word refers to carries the mark afterwards, and a node that gains
    the mark is referred to by a scanned word or by a node that is. *)
Theorem lookup_lookaside_sound mem usable_size sc :
  pool_wf (sc_ab sc) ->
  0 <= g_lookaside_count sc <= zlen (g_lookaside_list sc) -> zlen (g_lookaside_list sc) <= 2 ^ 30 ->
  (forall i, 0 <= i < g_lookaside_count sc -> aside_ok (sc_ab sc) (get (g_lookaside_list sc) i)) ->
  exists sc', lookup_lookaside_list mem usable_size sc (stats (sc_ab sc)) = Ok sc' /\
    pool_wf (sc_ab sc') /\ (forall v, unmarked (sc_ab sc') v -> unmarked (sc_ab sc) v) /\
    (forall i, 0 <= i < g_lookaside_count sc -> ~ unmarked (sc_ab sc') (get (g_lookaside_list sc) i)) /\
    (forall v, unmarked (sc_ab sc) v -> ~ unmarked (sc_ab sc') v ->
       exists i, 0 <= i < g_lookaside_count sc /\
         (v = get (g_lookaside_list sc) i \/ v ∈ refs mem usable_size (get (g_lookaside_list sc) i))).
Proof.
  intros W Hc Hl Hok. pose proof (lookup_marks mem usable_size sc W Hc Hl Hok) as H.
  apply wp_iff in H as (sc' & E & _ & _ & us & Eab & Hus & Hfrom & Hroots).
  exists sc'. split; [done |]. rewrite Eab in *. split; [by apply mark_all_wf |].
  split; [by intros v [Hv _]%unmarked_mark_all |]. split; [done |].
  intros v Hv Hm. apply Hfrom. destruct (decide (v ∈ us)); [done |].
  exfalso. apply Hm. by apply unmarked_mark_all.
Qed.

(** ** A concrete heap *)

(** Three nodes of two words; 0x100 points to 0x200, 0x200 to 0x300. *)
Definition demo_mem (a : Z) : Z := if a =? 0x100 then 0x200 else if a =? 0x200 then 0x300 else 0.
Definition demo_usable (_ : Z) : Z := 16.
Definition demo_scan (roots : list Z) : scan_t :=
  mk_scan (plain_buffer [0x100; 0x200; 0x300] [0x100] 3 1)
    (roots ++ replicate (Z.to_nat LOOKASIDE_SZ - length roots) 0) (zlen roots).

Lemma recursive_mark_direct_witness :
  let ab := sc_ab (demo_scan []) in
  recursive_mark demo_mem demo_usable (mark_fuel ab) 0x100 ab (stats ab) =
    Ok (mark_all (refs demo_mem demo_usable (PTR_MASK 0x100)) ab).
Proof. intros ab. apply (recursive_mark_direct demo_mem demo_usable 0x100 ab). by apply pool_wfb_sound. Defined.

Lemma demo_aside i :
  0 <= i < 2 -> aside_ok (sc_ab (demo_scan [0x200; 0x100])) (get (g_lookaside_list (demo_scan [0x200; 0x100])) i).
Proof.
  intros Hi. assert (i = 0 \/ i = 1) as [-> | ->] by lia;
  (split; [by vm_compute | vm_compute; split; congruence]).
Qed.

Lemma lookup_lookaside_visits_witness :
  let sc := demo_scan [0x200; 0x100] in
  exists sc' vs, lookup_lookaside_list demo_mem demo_usable sc (stats (sc_ab sc)) = Ok sc' /\
    g_lookaside_count sc' = 0 /\ zlen (g_lookaside_list sc') = zlen (g_lookaside_list sc) /\
    sc_ab sc' = foldl (visit demo_mem demo_usable) (sc_ab sc) vs /\
    (forall i j, 0 <= i -> i < j -> j < zlen vs -> get vs i < get vs j) /\
    (forall v, v ∈ vs <-> exists i, 0 <= i < g_lookaside_count sc /\ get (g_lookaside_list sc) i = v).
Proof.
  intros sc. apply (lookup_lookaside_visits demo_mem demo_usable sc);
    [by apply pool_wfb_sound | vm_compute; intuition congruence | by vm_compute | exact demo_aside].
Defined.

Lemma lookup_lookaside_sound_witness :
  let sc := demo_scan [0x200; 0x100] in
  exists sc', lookup_lookaside_list demo_mem demo_usable sc (stats (sc_ab sc)) = Ok sc' /\
    pool_wf (sc_ab sc') /\ (forall v, unmarked (sc_ab sc') v -> unmarked (sc_ab sc) v) /\
    (forall i, 0 <= i < g_lookaside_count sc -> ~ unmarked (sc_ab sc') (get (g_lookaside_list sc) i)) /\
    (forall v, unmarked (sc_ab sc) v -> ~ unmarked (sc_ab sc') v ->
       exists i, 0 <= i < g_lookaside_count sc /\
         (v = get (g_lookaside_list sc) i \/ v ∈ refs demo_mem demo_usable (get (g_lookaside_list sc) i))).
Proof.
  intros sc. apply (lookup_lookaside_sound demo_mem demo_usable sc);
    [by apply pool_wfb_sound | vm_compute; intuition congruence | by vm_compute | exact demo_aside].
Defined.

(** C40: The marks do not follow references to the end.  With both 0x100 and
    0x200 referred to from scanned memory, 0x100 gets its mark first and
    passes it to 0x200; 0x200 is then taken for searched, and 0x300, which
    0x200 refers to, stays unmarked and is handed to be freed. *)
Theorem marking_misses_child_of_root :
  exists sc', lookup_lookaside_list demo_mem demo_usable (demo_scan [0x100; 0x200])
      (stats (sc_ab (demo_scan [0x100; 0x200]))) = Ok sc' /\
    0x200 ∈ [0x100; 0x200] /\ 0x300 ∈ refs demo_mem demo_usable 0x200 /\
    unmarked (sc_ab sc') 0x300.
Proof.
  eexists. split; [vm_compute; reflexivity |]. split; [set_solver |]. split.
  - vm_compute. apply list_elem_of_here.
  - exists 2. by vm_compute.
Qed.
