(* ===== verification/Roots.v ===== *)
(** [find_roots] of child.c: the scan of one range of memory.

    Every word of the range is looked at but those inside the blocks of the
    tracked nodes and of the nodes already known to be dead, which the scan
    steps over.  [mem] and [usable_size] are as in [Mark].  The theorem is
    stated for a sequence of scans by one process: [scanned_to sc0 S sc] says
    what the words [S] looked at since [sc0] have led to. *)
From S2P Require Import Prelude AddrBuffer Search Mark.

Definition NO_ADDR : Z := 2 ^ 64 - 1.   (* (size_t)-1 *)

(** A position in a buffer: the index and the address there. *)
Definition update_addr_loc (idx : Z) (buf : addr_buffer_t) : res (Z * Z) :=
  let idx := idx + 1 in
  if ab_n_addrs buf >? idx then
    let! a := rd (ab_addrs buf) idx in Ok (idx, PTR_MASK a)
  else Ok (idx, NO_ADDR).

Section roots.
Context (mem usable_size : Z -> Z).

(** The body of the innermost loop: one word of memory. *)
Definition scan_word (ts : trace_stats_t) (low : Z) (sc : scan_t) : res scan_t :=
  let cmp := PTR_MASK (load mem low) in
  if (cmp <? ts_min ts) || (cmp >? ts_max ts) then Ok sc else
  let! l := wr (g_lookaside_list sc) (g_lookaside_count sc) cmp in
  let sc := mk_scan (sc_ab sc) l (g_lookaside_count sc + 1) in
  if g_lookaside_count sc <? LOOKASIDE_SZ then Ok sc
  else lookup_lookaside_list mem usable_size sc ts.

(** [for ( ; low < next_stopping_point; low += sizeof(size_t))] *)
Definition scan_words (ts : trace_stats_t) (stop : Z) (st : Z * scan_t)
    : res (flow (Z * scan_t) (Z * scan_t)) :=
  let '(low, sc) := st in
  if low <? stop then
    let! sc := scan_word ts low sc in Ok (Next (u64 (low + WORD), sc))
  else Ok (Done (low, sc)).

(** The variables of [find_roots]; [guarded_addr] is the smaller of
    [pool_addr] and [dead_addr] whenever the loop test is reached. *)
Record roots_t : Type := mk_roots {
  r_low : Z;
  r_pool_idx : Z;
  r_pool_addr : Z;
  r_dead_idx : Z;
  r_dead_addr : Z;
  r_scan : scan_t }.

Definition past (a : Z) (low : Z) : Z :=
  let sz := usable_size a in if u64 (a + sz) >? low then u64 (a + sz) else low.

(** Before the loop: skip the tracked node [low] lies in, if any ... *)
Definition skip_pool (low : Z) (ab : addr_buffer_t) : res (Z * Z * Z) :=
  let! pool_idx := addr_find low ab in
  let! a := rd (ab_addrs ab) pool_idx in
  let pool_addr := PTR_MASK a in
  if pool_addr <=? low then
    let low := past pool_addr low in
    let! ' (i, a) := update_addr_loc pool_idx ab in Ok (low, i, a)
  else Ok (low, pool_idx, pool_addr).

(** ... and the dead one. *)
Definition skip_dead (low : Z) (deadrefs : addr_buffer_t) (pool_addr : Z) : res (Z * Z * Z) :=
  if ab_n_addrs deadrefs >? 0 then
    let! dead_idx := binary_search low (ab_addrs deadrefs) 0 (ab_n_addrs deadrefs) in
    let! dead_addr := rd (ab_addrs deadrefs) dead_idx in
    assert (Z.land dead_addr 3 =? 0) ;!
    if dead_addr <=? low then
      let low := past dead_addr low in
      let! ' (i, a) := update_addr_loc dead_idx deadrefs in
      assert (low <=? pool_addr) ;!
      Ok (low, i, a)
    else Ok (low, dead_idx, dead_addr)
  else Ok (low, 0, NO_ADDR).

Definition find_roots_start (low : Z) (deadrefs : addr_buffer_t) (sc : scan_t) : res roots_t :=
  let! ' (low, pool_idx, pool_addr) := skip_pool low (sc_ab sc) in
  let! ' (low, dead_idx, dead_addr) := skip_dead low deadrefs pool_addr in
  assert (negb (pool_addr =? dead_addr) || (pool_addr =? NO_ADDR)) ;!
  Ok (mk_roots low pool_idx pool_addr dead_idx dead_addr sc).

(** One turn of [while (low < high)]. *)
Definition find_roots_step (high : Z) (deadrefs : addr_buffer_t) (ts : trace_stats_t) (r : roots_t)
    : res (flow roots_t scan_t) :=
  let guarded_addr := MIN_OF (r_pool_addr r) (r_dead_addr r) in
  if r_low r <? high then
    let stop := MIN_OF guarded_addr high in
    assert (Z.land stop 3 =? 0) ;!
    assert (r_low r <=? stop) ;!
    let! ' (low, sc) :=
      loop (Datatypes.S (Z.to_nat (stop - r_low r))) (scan_words ts stop) (r_low r, r_scan r) in
    assert (low =? stop) ;!
    if stop =? guarded_addr then
      let low := u64 (low + usable_size guarded_addr) in
      let! r :=
        if guarded_addr =? r_pool_addr r then
          let! ' (i, a) := update_addr_loc (r_pool_idx r) (sc_ab sc) in
          Ok (mk_roots low i a (r_dead_idx r) (r_dead_addr r) sc)
        else
          let! ' (i, a) := update_addr_loc (r_dead_idx r) deadrefs in
          Ok (mk_roots low (r_pool_idx r) (r_pool_addr r) i a sc) in
      assert (low <=? MIN_OF (r_pool_addr r) (r_dead_addr r)) ;!
      assert (negb (r_pool_addr r =? r_dead_addr r) || (r_pool_addr r =? NO_ADDR)) ;!
      Ok (Next r)
    else Ok (Next (mk_roots low (r_pool_idx r) (r_pool_addr r) (r_dead_idx r) (r_dead_addr r) sc))
  else Ok (Done (r_scan r)).

(** Every turn but the last moves past a node. *)
Definition roots_fuel (ab deadrefs : addr_buffer_t) : nat :=
  (Z.to_nat (ab_n_addrs ab) + Z.to_nat (ab_n_addrs deadrefs) + 3)%nat.

Definition find_roots (low high : Z) (deadrefs : addr_buffer_t) (sc : scan_t) : res scan_t :=
  let ab := sc_ab sc in
  let! first := rd (ab_addrs ab) 0 in
  let! last := rd (ab_addrs ab) (ab_n_addrs ab - 1) in
  let ts := {| ts_min := PTR_MASK first; ts_max := PTR_MASK last |} in
  assert (ts_min ts <=? ts_max ts) ;!
  let! r := find_roots_start low deadrefs sc in
  loop (roots_fuel ab deadrefs) (find_roots_step high deadrefs ts) r.

(** * What a scan achieves *)

(** The node a word refers to. *)
Definition ref_at (w : Z) : Z := PTR_MASK (load mem w).

Definition pending (sc : scan_t) (v : Z) : Prop :=
  exists i, 0 <= i < g_lookaside_count sc /\ get (g_lookaside_list sc) i = v.

Record scan_ok (sc : scan_t) : Prop := {
  so_pool : pool_wf (sc_ab sc);
  so_count : 0 <= g_lookaside_count sc <= LOOKASIDE_SZ;
  so_room : zlen (g_lookaside_list sc) = LOOKASIDE_SZ;
  so_aside : forall v, pending sc v -> aside_ok (sc_ab sc) v }.

(** A value put aside before [sc0], or read from a word of [S]. *)
Definition source (sc0 : scan_t) (S : Z -> Prop) (u : Z) : Prop :=
  pending sc0 u \/ exists w, S w /\ ref_at w = u.

(** Having looked at the words [S] since the state [sc0]: all marks set come
    from what was read, and every tracked node read is marked or waits in the
    lookaside list. *)
Record scanned_to (sc0 : scan_t) (S : Z -> Prop) (sc : scan_t) : Prop := {
  st_ok : scan_ok sc;
  st_marks : exists us, sc_ab sc = mark_all us (sc_ab sc0) /\ all_aligned us /\
    (forall v, v ∈ us -> exists u, source sc0 S u /\ (v = u \/ v ∈ refs mem usable_size u));
  st_pending : forall v, pending sc v -> source sc0 S v;
  st_found : forall u, source sc0 S u -> pending sc u \/ ~ unmarked (sc_ab sc) u }.

Lemma source_mono sc0 (S S' : Z -> Prop) u : (forall w, S w -> S' w) -> source sc0 S u -> source sc0 S' u.
Proof. intros H [? | (w & Hw & E)]; [by left | right; exists w; auto]. Qed.

Lemma scanned_start sc : scan_ok sc -> scanned_to sc (fun _ => False) sc.
Proof.
  intros H. split; [done | | by left |].
  - exists []. rewrite mark_all_nil by apply H. split; [done |].
    split; intros v Hv; by apply not_elem_of_nil in Hv.
  - intros u [Hu | (w & [] & _)]. by left.
Qed.

Lemma scanned_ext sc0 (S S' : Z -> Prop) sc :
  (forall w, S w <-> S' w) -> scanned_to sc0 S sc -> scanned_to sc0 S' sc.
Proof.
  intros HS [H1 (us & E & Ha & Hus) H3 H4]. split; [done | | |].
  - exists us. do 2 (split; [done |]). intros v Hv. destruct (Hus v Hv) as (u & Hu & H).
    exists u. split; [| done]. revert Hu. apply source_mono. intros w. by apply HS.
  - intros v Hv. apply (source_mono sc0 S); [intros w; by apply HS | by apply H3].
  - intros u Hu. apply H4. revert Hu. apply source_mono. intros w. by apply HS.
Qed.

Section scans.
Context (sc0 : scan_t) (W : pool_wf (sc_ab sc0)).

Lemma scanned_pool S sc : scanned_to sc0 S sc ->
  stats (sc_ab sc) = stats (sc_ab sc0) /\ ab_n_addrs (sc_ab sc) = ab_n_addrs (sc_ab sc0) /\
  (forall i, 0 <= i < ab_n_addrs (sc_ab sc0) -> node (sc_ab sc) i = node (sc_ab sc0) i).
Proof using W.
  intros [_ (us & -> & Ha & _) _ _]. split; [by apply stats_mark_all |]. split; [done |].
  intros i Hi. by apply node_mark_all.
Qed.

(** Emptying the list. *)
Lemma scanned_drain S sc : scanned_to sc0 S sc ->
  wp (lookup_lookaside_list mem usable_size sc (stats (sc_ab sc0))) (fun sc' =>
    scanned_to sc0 S sc' /\ g_lookaside_count sc' = 0).
Proof using W.
  intros H. pose proof (scanned_pool S sc H) as (Est & _ & _). rewrite <- Est.
  destruct H as [[Wp Hc Hr Ha] (us & Eab & Hus & Hfrom) Hpend Hfound].
  eapply wp_mono.
  { apply lookup_marks; [done | lia | rewrite Hr; done |]. intros i Hi. apply Ha. by exists i. }
  intros sc' (Hc' & Hr' & us' & E' & Hus' & Hfrom' & Hdone).
  assert (Hnone : forall v, ~ pending sc' v) by (intros v (i & Hi & _); lia).
  split; [| done]. split.
  - split; [rewrite E'; by apply mark_all_wf | unfold LOOKASIDE_SZ; lia | congruence |].
    intros v Hv. by apply Hnone in Hv.
  - exists (us ++ us'). rewrite E', Eab, mark_all_mark_all by done. split; [done |].
    split; [intros v [?|?]%elem_of_app; auto |]. intros v [Hv | Hv]%elem_of_app; [by apply Hfrom |].
    destruct (Hfrom' v Hv) as (i & Hi & Hvi). exists (get (g_lookaside_list sc) i).
    split; [apply Hpend; by exists i | done].
  - intros v Hv. by apply Hnone in Hv.
  - intros u Hu. right. destruct (Hfound u Hu) as [(i & Hi & <-) | Hm]; [by apply Hdone |].
    rewrite E'. intros [Hu' _]%unmarked_mark_all; done.
Qed.

(** One more word. *)
Lemma scan_word_ok S sc w : scanned_to sc0 S sc -> g_lookaside_count sc < LOOKASIDE_SZ ->
  wp (scan_word (stats (sc_ab sc0)) w sc) (fun sc' =>
    scanned_to sc0 (fun x => S x \/ x = w) sc' /\ g_lookaside_count sc' < LOOKASIDE_SZ).
Proof using W.
  intros H Hc. pose proof (scanned_pool S sc H) as (Est & _ & _).
  pose proof H as [[Wp Hcnt Hr Ha] (us & Eab & Hus & Hfrom) Hpend Hfound].
  unfold scan_word. fold (ref_at w).
  assert (Hmono : forall u, source sc0 S u -> source sc0 (fun x => S x \/ x = w) u)
    by (intros u; apply source_mono; auto).
  destruct ((ref_at w <? ts_min (stats (sc_ab sc0))) || (ref_at w >? ts_max (stats (sc_ab sc0)))) eqn:E.
  - wp_step. split; [| done]. split; [done | | auto |].
    + exists us. do 2 (split; [done |]). intros v Hv. destruct (Hfrom v Hv) as (u & Hu & Hvu).
      exists u. auto.
    + intros u [Hu | (x & [Hx | ->] & Ex)]; [apply Hfound; by left | apply Hfound; right; by exists x |].
      right. intros Hu. apply (unmarked_in_stats _ _ Wp) in Hu. rewrite Est in Hu. subst u.
      rewrite Z.gtb_ltb, orb_true_iff, !Z.ltb_lt in E. lia.
  - rewrite Z.gtb_ltb, orb_false_iff, !Z.ltb_ge in E.
    wp_step. wp_step; [lia |]. cbn beta zeta.
    set (sc' := mk_scan (sc_ab sc) (upd (g_lookaside_list sc) (g_lookaside_count sc) (ref_at w))
      (g_lookaside_count sc + 1)).
    assert (Hp : forall v, pending sc' v <-> pending sc v \/ v = ref_at w).
    { intros v. unfold pending, sc'. cbn. split.
      - intros (i & Hi & <-). rewrite get_upd by lia. case_decide; [by right | left].
        exists i. split; [lia | done].
      - intros [(i & Hi & <-) | ->].
        + exists i. split; [lia |]. rewrite get_upd_ne by lia. done.
        + exists (g_lookaside_count sc). split; [lia |]. apply get_upd_eq. lia. }
    assert (Hst : scanned_to sc0 (fun x => S x \/ x = w) sc').
    { split.
      - split; [done | cbn; lia | cbn; by rewrite zlen_upd |]. intros v [Hv | ->]%Hp; [by apply Ha |].
        split; [apply PTR_MASK_is_aligned, u64_range |]. cbn [sc_ab sc']. rewrite Est. lia.
      - exists us. do 2 (split; [done |]). intros v Hv. destruct (Hfrom v Hv) as (u & Hu & Hvu).
        exists u. auto.
      - intros v [Hv | ->]%Hp; [auto |]. right. exists w. auto.
      - intros u [Hu | (x & [Hx | ->] & Ex)].
        + destruct (Hfound u ltac:(by left)); [left; apply Hp; by left | by right].
        + destruct (Hfound u ltac:(right; by exists x)); [left; apply Hp; by left | by right].
        + left. apply Hp. by right. }
    change (g_lookaside_count sc') with (g_lookaside_count sc + 1).
    destruct (Z.ltb_spec (g_lookaside_count sc + 1) LOOKASIDE_SZ) as [Hlt | Hge].
    + wp_step. by split.
    + eapply wp_mono; [by apply scanned_drain |]. intros s (? & ->). by split.
Qed.
End scans.

(** ** The blocks a scan steps over *)

Definition is_block (ab dead : addr_buffer_t) (a : Z) : Prop :=
  (exists i, 0 <= i < ab_n_addrs ab /\ a = node ab i) \/
  (exists j, 0 <= j < ab_n_addrs dead /\ a = get (ab_addrs dead) j).

Definition in_block (ab dead : addr_buffer_t) (w : Z) : Prop :=
  exists a, is_block ab dead a /\ a <= w < a + usable_size a.

(** What the allocator and the pools guarantee: blocks are disjoint, made of
    aligned words, and the dead ones are sorted and not in the pool. *)
Record heap_layout (ab dead : addr_buffer_t) : Prop := {
  hl_pool : pool_wf ab;
  hl_dead : 0 <= ab_n_addrs dead <= 2 ^ 30 /\ ab_n_addrs dead <= zlen (ab_addrs dead);
  hl_dead_sorted : increasing (ab_addrs dead) 0 (ab_n_addrs dead);
  hl_block : forall a, is_block ab dead a ->
    0 < a /\ a mod 8 = 0 /\ 0 < usable_size a /\ usable_size a mod 8 = 0 /\ a + usable_size a < 2 ^ 64;
  hl_apart : forall a b, is_block ab dead a -> is_block ab dead b -> a <> b ->
    a + usable_size a <= b \/ b + usable_size b <= a;
  hl_disjoint : forall i j, 0 <= i < ab_n_addrs ab -> 0 <= j < ab_n_addrs dead ->
    node ab i <> get (ab_addrs dead) j }.

(** A cursor in a sorted table of blocks: the earlier blocks end at or below
    [low], [a] is the next one, at or above [low]. *)
Definition cursor_at (nodes : Z -> Z) (n idx a low : Z) : Prop :=
  0 <= idx <= n /\ a = (if idx <? n then nodes idx else NO_ADDR) /\ low <= a /\
  (forall i, 0 <= i < idx -> nodes i + usable_size (nodes i) <= low).

Lemma cursor_hold nodes n idx a low low' :
  cursor_at nodes n idx a low -> low <= low' <= a -> cursor_at nodes n idx a low'.
Proof.
  intros (H1 & H2 & H3 & H4) H. do 2 (split; [done |]). split; [lia |]. intros i Hi. specialize (H4 i Hi). lia.
Qed.

Section layout.
Context (ab dead : addr_buffer_t) (L : heap_layout ab dead).
#[local] Abbreviation dnode := (get (ab_addrs dead)).

Lemma pool_block i : 0 <= i < ab_n_addrs ab -> is_block ab dead (node ab i).
Proof. intros H. left. by exists i. Qed.

Lemma dead_block j : 0 <= j < ab_n_addrs dead -> is_block ab dead (dnode j).
Proof. intros H. right. by exists j. Qed.

Lemma blocks_sorted a b : is_block ab dead a -> is_block ab dead b -> a < b -> a + usable_size a <= b.
Proof using All.
  intros Ha Hb Hlt. destruct (hl_apart _ _ L a b Ha Hb ltac:(lia)) as [? | ?]; [done |].
  pose proof (hl_block _ _ L b Hb). lia.
Qed.

Lemma block_low_bits a : is_block ab dead a -> Z.land a 3 = 0 /\ PTR_MASK a = a /\ a <> NO_ADDR.
Proof using All.
  intros Ha. destruct (hl_block _ _ L a Ha) as (H1 & H2 & H3 & H4 & H5).
  change 3 with (Z.ones 2). rewrite Z.land_ones by lia. change (2 ^ 2) with 4.
  assert (a mod 4 = 0) by (Z.to_euclidean_division_equations; lia).
  split; [done |]. split; [apply PTR_MASK_aligned; [unfold size_ok; lia | done] |]. unfold NO_ADDR. lia.
Qed.

(** The table of the pool, as marking leaves it. *)
Lemma pool_loc us idx : all_aligned us -> -1 <= idx < ab_n_addrs ab ->
  wp (update_addr_loc idx (mark_all us ab)) (fun '(i, a) =>
    i = idx + 1 /\ a = if i <? ab_n_addrs ab then node ab i else NO_ADDR).
Proof using All.
  intros Hus Hidx. pose proof (hl_pool _ _ L) as W. unfold update_addr_loc.
  change (ab_n_addrs (mark_all us ab)) with (ab_n_addrs ab). rewrite Z.gtb_ltb.
  destruct (Z.ltb_spec (idx + 1) (ab_n_addrs ab)) as [Hlt | Hge].
  - wp_step. wp_step; [rewrite zlen_mark_all; pose proof (wf_room _ W); lia |]. wp_step.
    split; [done |]. rewrite (proj2 (Z.ltb_lt _ _)) by done.
    apply (node_mark_all ab W us (idx + 1) Hus). lia.
  - wp_step. split; [done |]. by rewrite (proj2 (Z.ltb_ge _ _)) by done.
Qed.

Lemma dead_loc idx : -1 <= idx < ab_n_addrs dead ->
  wp (update_addr_loc idx dead) (fun '(i, a) =>
    i = idx + 1 /\ a = if i <? ab_n_addrs dead then dnode i else NO_ADDR).
Proof using All.
  intros Hidx. unfold update_addr_loc. rewrite Z.gtb_ltb. destruct (hl_dead _ _ L) as [? ?].
  destruct (Z.ltb_spec (idx + 1) (ab_n_addrs dead)) as [Hlt | Hge].
  - wp_step. wp_step; [lia |]. wp_step. split; [done |]. rewrite (proj2 (Z.ltb_lt _ _)) by done.
    apply block_low_bits, dead_block. lia.
  - wp_step. split; [done |]. by rewrite (proj2 (Z.ltb_ge _ _)) by done.
Qed.

Definition pool_cursor := cursor_at (node ab) (ab_n_addrs ab).
Definition dead_cursor := cursor_at dnode (ab_n_addrs dead).

(** Stepping over the block at the cursor. *)
Lemma cursor_next nodes n idx a low :
  (forall i, 0 <= i < n -> is_block ab dead (nodes i)) ->
  (forall i j, 0 <= i -> i < j -> j < n -> nodes i < nodes j) ->
  cursor_at nodes n idx a low -> idx < n ->
  cursor_at nodes n (idx + 1) (if idx + 1 <? n then nodes (idx + 1) else NO_ADDR) (a + usable_size a).
Proof using All.
  intros Hb Hs (H1 & H2 & H3 & H4) Hlt. rewrite (proj2 (Z.ltb_lt _ _)) in H2 by done. subst a.
  pose proof (hl_block _ _ L _ (Hb idx ltac:(lia))) as (? & ? & ? & ? & ?).
  split; [lia |]. split; [done |]. split.
  - destruct (Z.ltb_spec (idx + 1) n); [| unfold NO_ADDR; lia].
    apply blocks_sorted; [apply Hb; lia | apply Hb; lia | apply Hs; lia].
  - intros i Hi. destruct (decide (i = idx)) as [-> |]; [lia |]. specialize (H4 i ltac:(lia)). lia.
Qed.

(** Two cursors that stand on blocks stand on different ones, and stepping
    over the lower one does not reach the other. *)
Lemma cursors_differ pidx paddr didx daddr low :
  pool_cursor pidx paddr low -> dead_cursor didx daddr low ->
  (paddr <> daddr \/ paddr = NO_ADDR) /\
  (paddr <= daddr -> pidx < ab_n_addrs ab -> paddr + usable_size paddr <= daddr) /\
  (daddr <= paddr -> didx < ab_n_addrs dead -> daddr + usable_size daddr <= paddr).
Proof using All.
  intros (Hp1 & Hp2 & _) (Hd1 & Hd2 & _).
  destruct (Z.ltb_spec pidx (ab_n_addrs ab)) as [Hp | Hp];
    destruct (Z.ltb_spec didx (ab_n_addrs dead)) as [Hd | Hd]; subst paddr daddr.
  - pose proof (pool_block pidx ltac:(lia)) as Hbp. pose proof (dead_block didx ltac:(lia)) as Hbd.
    pose proof (hl_disjoint _ _ L pidx didx ltac:(lia) ltac:(lia)).
    split; [by left |]. split; intros; apply blocks_sorted; try done; lia.
  - pose proof (pool_block pidx ltac:(lia)) as Hbp. pose proof (hl_block _ _ L _ Hbp).
    unfold NO_ADDR. split; [left; lia |]. split; intros; lia.
  - pose proof (dead_block didx ltac:(lia)) as Hbd. pose proof (hl_block _ _ L _ Hbd).
    unfold NO_ADDR. split; [right; lia |]. split; intros; lia.
  - split; [by right |]. split; intros; lia.
Qed.

(** Between [low] and the cursors there is no block. *)
Lemma clear_to_cursors pidx paddr didx daddr low w :
  pool_cursor pidx paddr low -> dead_cursor didx daddr low ->
  low <= w -> w < paddr -> w < daddr -> ~ in_block ab dead w.
Proof using All.
  intros (Hp1 & Hp2 & _ & Hp4) (Hd1 & Hd2 & _ & Hd4) Hw Hwp Hwd (a & Ha & Haw).
  destruct Ha as [(i & Hi & ->) | (j & Hj & ->)].
  - destruct (decide (i < pidx)); [specialize (Hp4 i ltac:(lia)); lia |].
    rewrite (proj2 (Z.ltb_lt pidx _)) in Hp2 by lia. destruct (decide (i = pidx)) as [-> |]; [lia |].
    pose proof (wf_sorted _ (hl_pool _ _ L) pidx i). lia.
  - destruct (decide (j < didx)); [specialize (Hd4 j ltac:(lia)); lia |].
    rewrite (proj2 (Z.ltb_lt didx _)) in Hd2 by lia. destruct (decide (j = didx)) as [-> |]; [lia |].
    pose proof (hl_dead_sorted _ _ L didx j). lia.
Qed.

(** The end of the block at [a], or [low] if that is further. *)
Lemma past_spec a low : is_block ab dead a -> a <= low -> 0 <= low < 2 ^ 64 -> low mod 8 = 0 ->
  past a low = Z.max low (a + usable_size a) /\ past a low mod 8 = 0 /\
  (forall w, low <= w < past a low -> in_block ab dead w) /\ low <= past a low < 2 ^ 64.
Proof using All.
  intros Ha Hle Hlow Hm. destruct (hl_block _ _ L a Ha) as (H1 & H2 & H3 & H4 & H5).
  unfold past. rewrite u64_small by (unfold size_ok; lia). rewrite Z.gtb_ltb.
  destruct (Z.ltb_spec low (a + usable_size a)) as [Hlt | Hge].
  - split; [lia |]. split; [Z.to_euclidean_division_equations; lia |].
    split; [intros w Hw; exists a; split; [done | lia] | lia].
  - split; [lia |]. split; [done |]. split; [intros; lia | lia].
Qed.

(** Where the scan of the range from [low0] has got to before it looks at the
    first word: at [low], everything below being in blocks. *)
Definition skipped_to (low0 low : Z) : Prop :=
  low0 <= low < 2 ^ 64 /\ low mod 8 = 0 /\ (forall w, low0 <= w < low -> in_block ab dead w).

Lemma start_pool us low : all_aligned us -> 0 <= low < 2 ^ 64 -> low mod 8 = 0 ->
  wp (skip_pool low (mark_all us ab))
    (fun '(low1, pidx, paddr) => pool_cursor pidx paddr low1 /\ skipped_to low low1).
Proof using All.
  intros Hus Hlow Hm. unfold skip_pool. pose proof (hl_pool _ _ L) as W. pose proof (mark_all_wf ab W us Hus) as Wu.
  wp_step. eapply wp_mono; [by apply addr_find_ok |]. intros loc (Hloc & Hle & Hgt).
  change (ab_n_addrs (mark_all us ab)) with (ab_n_addrs ab) in Hloc, Hgt.
  rewrite node_mark_all in Hle by done.
  wp_step. wp_step; [rewrite zlen_mark_all; pose proof (wf_room _ W); lia |].
  cbn beta zeta. fold (node (mark_all us ab) loc). rewrite node_mark_all by done.
  destruct (Z.leb_spec (node ab loc) low) as [Hin | Hout].
  - pose proof (past_spec _ low (pool_block loc Hloc) Hin Hlow Hm) as (Ep & Hpm & Hpb & Hpr).
    wp_step. eapply wp_mono; [apply pool_loc; [done | lia] |]. intros [i a] (-> & ->). wp_step.
    split; [| by split]. split; [lia |]. split; [done |].
    assert (Hbelow : forall i, 0 <= i < loc + 1 -> node ab i + usable_size (node ab i) <= past (node ab loc) low).
    { intros i Hi. destruct (decide (i = loc)) as [-> |]; [lia |].
      pose proof (blocks_sorted _ _ (pool_block i ltac:(lia)) (pool_block loc Hloc)
        (wf_sorted _ W i loc ltac:(lia) ltac:(lia) ltac:(lia))). lia. }
    split; [| done]. destruct (Z.ltb_spec (loc + 1) (ab_n_addrs ab)); [| unfold NO_ADDR; lia].
    specialize (Hgt (loc + 1) ltac:(lia)). rewrite Ep. apply Z.max_lub.
    + pose proof (wf_entries _ Wu (loc + 1)
        ltac:(change (ab_n_addrs (mark_all us ab)) with (ab_n_addrs ab); lia)) as He.
      apply entry_ok_mask in He as [He _]. fold (node (mark_all us ab) (loc + 1)) in He.
      rewrite node_mark_all in He by (done || lia). lia.
    + apply blocks_sorted; [by apply pool_block | apply pool_block; lia |].
      apply (wf_sorted _ W); lia.
  - wp_step. assert (loc = 0) as -> by (destruct Hle; lia). split.
    + split; [lia |]. rewrite (proj2 (Z.ltb_lt 0 _)) by lia. split; [done |]. split; [lia |]. lia.
    + split; [lia |]. split; [done |]. lia.
Qed.

Lemma start_dead low0 low pidx paddr : 0 <= low0 ->
  pool_cursor pidx paddr low -> skipped_to low0 low ->
  wp (skip_dead low dead paddr)
    (fun '(low1, didx, daddr) => pool_cursor pidx paddr low1 /\ dead_cursor didx daddr low1 /\
       skipped_to low0 low1).
Proof using All.
  intros H0 Hpc Hsk. unfold skip_dead. pose proof Hsk as (Hlow & Hm & Hbelow). destruct (hl_dead _ _ L) as [Hnd Hroom].
  rewrite Z.gtb_ltb. destruct (Z.ltb_spec 0 (ab_n_addrs dead)) as [Hpos | Hnone].
  2: { wp_step. split; [done |]. split; [| done]. split; [lia |].
       rewrite (proj2 (Z.ltb_ge 0 _)) by done. split; [done |]. unfold NO_ADDR.
       split; [| lia]. lia. }
  wp_step. eapply wp_mono; [apply binary_search_ok; [lia | lia | lia | lia | apply L] |].
  intros j (Hj & Hle & Hgt). wp_step. wp_step; [lia |].
  pose proof (dead_block j Hj) as Hbj. destruct (block_low_bits _ Hbj) as (Hbits & _ & _).
  wp_step. wp_step; [by rewrite Hbits |]. destruct (Z.leb_spec (dnode j) low) as [Hin | Hout].
  - pose proof (past_spec _ low Hbj Hin ltac:(lia) Hm) as (Ep & Hpm & Hpb & Hpr).
    wp_step. eapply wp_mono; [apply dead_loc; lia |]. intros [i a] (-> & ->).
    assert (Hpp : past (dnode j) low <= paddr).
    { rewrite Ep. pose proof Hpc as (Hp1 & Hp2 & Hp3 & _). apply Z.max_lub; [done |].
      destruct (Z.ltb_spec pidx (ab_n_addrs ab)).
      - subst paddr. apply blocks_sorted; [done | apply pool_block; lia |].
        pose proof (hl_disjoint _ _ L pidx j ltac:(lia) Hj). lia.
      - pose proof (hl_block _ _ L _ Hbj). subst paddr. unfold NO_ADDR. lia. }
    wp_step. wp_step; [by apply Z.leb_le |]. wp_step.
    split; [by eapply cursor_hold; [done | lia] |]. split; [| split; [lia | split; [done |]]].
    + split; [lia |]. split; [done |]. split.
      * destruct (Z.ltb_spec (j + 1) (ab_n_addrs dead)); [| unfold NO_ADDR; lia].
        specialize (Hgt (j + 1) ltac:(lia)). rewrite Ep. apply Z.max_lub; [lia |].
        apply blocks_sorted; [done | apply dead_block; lia | apply (hl_dead_sorted _ _ L); lia].
      * intros i Hi. destruct (decide (i = j)) as [-> |]; [lia |].
        pose proof (blocks_sorted _ _ (dead_block i ltac:(lia)) Hbj
          (hl_dead_sorted _ _ L i j ltac:(lia) ltac:(lia) ltac:(lia))). lia.
    + intros w Hw. destruct (decide (w < low)); [apply Hbelow; lia | apply Hpb; lia].
  - wp_step. assert (j = 0) as -> by (destruct Hle; lia). split; [done |]. split; [| done].
    split; [lia |]. rewrite (proj2 (Z.ltb_lt 0 _)) by lia. split; [done |]. split; lia.
Qed.
End layout.

(** ** The scan of a range *)

Section range.
Context (sc0 : scan_t) (dead : addr_buffer_t) (L : heap_layout (sc_ab sc0) dead) (S0 : Z -> Prop).
#[local] Abbreviation ab := (sc_ab sc0).
#[local] Abbreviation ts := (stats (sc_ab sc0)).

(** The words a scan of [lo..hi) looks at. *)
Definition range_words (lo hi w : Z) : Prop :=
  w mod 8 = 0 /\ lo <= w < hi /\ ~ in_block ab dead w.

Definition scanned_from (low0 low : Z) (sc : scan_t) : Prop :=
  scanned_to sc0 (fun w => S0 w \/ range_words low0 low w) sc /\
  g_lookaside_count sc < LOOKASIDE_SZ.

(** The invariant of the loop of [find_roots]. *)
Record roots_inv (low0 high : Z) (r : roots_t) : Prop := {
  ri_low : low0 <= r_low r < 2 ^ 64;
  ri_align : r_low r mod 8 = 0;
  ri_pool : pool_cursor ab (r_pool_idx r) (r_pool_addr r) (r_low r);
  ri_dead : dead_cursor dead (r_dead_idx r) (r_dead_addr r) (r_low r);
  ri_scan : scanned_from low0 (Z.min (r_low r) high) (r_scan r) }.

Lemma scanned_from_blocks low0 a b sc :
  scanned_from low0 a sc -> low0 <= a <= b -> (forall w, a <= w < b -> in_block ab dead w) ->
  scanned_from low0 b sc.
Proof using All.
  intros [H Hc] Hab Hb. split; [| done]. revert H. apply scanned_ext. intros w. unfold range_words.
  split; intros [? | (H1 & H2 & H3)]; [by left | right; split_and!; try done; lia | by left |].
  right. split_and!; try done; try lia. destruct (decide (w < a)); [done |].
  exfalso. apply H3, Hb. lia.
Qed.

(** The inner loop, over words outside every block. *)
Lemma scan_words_ok low0 low stop sc :
  0 <= low0 <= low -> low <= stop < 2 ^ 64 -> low mod 8 = 0 -> stop mod 8 = 0 -> low0 mod 8 = 0 ->
  (forall w, low <= w < stop -> ~ in_block ab dead w) -> scanned_from low0 low sc ->
  wp (loop (Datatypes.S (Z.to_nat (stop - low))) (scan_words ts stop) (low, sc)) (fun '(low', sc') =>
    low' = stop /\ scanned_from low0 stop sc').
Proof using All.
  intros H0 Hls Hlm Hsm H0m Hclear Hsc.
  apply (wp_loop (fun '(l, sc) => low <= l <= stop /\ l mod 8 = 0 /\ scanned_from low0 l sc)
    (fun '(l, _) => Z.to_nat (stop - l))); [split; [lia | done] | lia |].
  intros [l s] (Hl & Hm & [Hs Hc]). unfold scan_words.
  destruct (Z.ltb_spec l stop) as [Hlt | Hge].
  - wp_step. eapply wp_mono; [by apply scan_word_ok; [apply L | |] |].
    intros s' [Hs' Hc']. wp_step.
    assert (l + 8 <= stop) by (Z.to_euclidean_division_equations; lia).
    rewrite u64_small by (unfold size_ok, WORD; lia). unfold WORD.
    split; [| lia]. split; [lia |]. split; [Z.to_euclidean_division_equations; lia |].
    split; [| done]. revert Hs'. apply scanned_ext. intros w. unfold range_words. split.
    + intros [[? | (H1 & H2 & H3)] | ->]; [by left | right; split_and!; try done; lia |].
      right. split_and!; [done | lia | lia |]. apply Hclear. lia.
    + intros [? | (H1 & H2 & H3)]; [by left; left |].
      destruct (decide (w < l)); [left; right; split_and!; try done; lia | right].
      Z.to_euclidean_division_equations. lia.
  - wp_step. assert (l = stop) as -> by lia. by split.
Qed.

Lemma start_ok low high sc :
  0 <= low < 2 ^ 64 -> low mod 8 = 0 -> scanned_to sc0 S0 sc -> g_lookaside_count sc < LOOKASIDE_SZ ->
  wp (find_roots_start low dead sc) (roots_inv low high).
Proof using All.
  intros Hlow Hm Hsc Hc. pose proof Hsc as [_ (us & Eab & Hus & _) _ _].
  unfold find_roots_start. rewrite Eab. wp_step.
  eapply wp_mono; [by apply (start_pool ab dead L) |]. intros [[low1 pidx] paddr] [Hpc Hsk].
  wp_step. eapply wp_mono; [apply (start_dead ab dead L low); [lia | exact Hpc | exact Hsk] |].
  intros [[low2 didx] daddr] (Hpc2 & Hdc & Hlow2 & Hm2 & Hblocks).
  destruct (cursors_differ ab dead L _ _ _ _ _ Hpc2 Hdc) as (Hne & _).
  wp_step. wp_step.
  { destruct Hne as [Hne | ->]; [by rewrite (proj2 (Z.eqb_neq _ _)) | by rewrite Z.eqb_refl, orb_true_r]. }
  wp_step. split; cbn; [lia | done | done | done |].
  split; [| done]. revert Hsc. apply scanned_ext. intros w. unfold range_words. split; [by left |].
  intros [? | (? & ? & Hw)]; [done |]. exfalso. apply Hw, Hblocks. lia.
Qed.

(** How many turns are left at most. *)
Definition turns (high : Z) (r : roots_t) : nat :=
  (Z.to_nat (ab_n_addrs ab - r_pool_idx r) + Z.to_nat (ab_n_addrs dead - r_dead_idx r) +
   (if (r_low r <? high)%Z then 1 else 0))%nat.

(** Where the next stop is: at the end of the range, below both cursors, or
    on the block at the lower cursor. *)
Lemma guard_cases pidx paddr didx daddr low high :
  pool_cursor ab pidx paddr low -> dead_cursor dead didx daddr low ->
  high mod 8 = 0 -> high < 2 ^ 64 ->
  (high < Z.min paddr daddr) \/
  (Z.min paddr daddr <= high /\ is_block ab dead (Z.min paddr daddr) /\
   ((Z.min paddr daddr = paddr /\ pidx < ab_n_addrs ab) \/
    (Z.min paddr daddr = daddr /\ daddr <> paddr /\ didx < ab_n_addrs dead))).
Proof using All.
  intros Hpc Hdc Hhm Hh. destruct (cursors_differ ab dead L _ _ _ _ _ Hpc Hdc) as (Hne & _).
  destruct (decide (high < Z.min paddr daddr)) as [? | Hge]; [by left | right]. split; [lia |].
  assert (Hhn : high < NO_ADDR) by (unfold NO_ADDR; Z.to_euclidean_division_equations; lia).
  destruct Hpc as (Hp1 & Hp2 & _), Hdc as (Hd1 & Hd2 & _).
  destruct (decide (paddr <= daddr)) as [Hle | Hgt].
  - rewrite Z.min_l in * by done. destruct (Z.ltb_spec pidx (ab_n_addrs ab)); [| lia].
    split; [subst paddr; apply pool_block; lia | by left].
  - rewrite Z.min_r in * by lia. destruct (Z.ltb_spec didx (ab_n_addrs dead)); [| lia].
    split; [subst daddr; apply dead_block; lia | right]. split; [done |]. split; [lia | done].
Qed.

(** Past the block at the lower cursor. *)
Lemma pass_block low0 high r sc' :
  0 <= low0 <= r_low r -> r_low r < high -> high mod 8 = 0 -> high < 2 ^ 64 -> roots_inv low0 high r ->
  let g := Z.min (r_pool_addr r) (r_dead_addr r) in
  g <= high -> is_block ab dead g -> scanned_from low0 g sc' ->
  ((g = r_pool_addr r /\ r_pool_idx r < ab_n_addrs ab) \/
   (g = r_dead_addr r /\ r_dead_addr r <> r_pool_addr r /\ r_dead_idx r < ab_n_addrs dead)) ->
  wp (let low := u64 (g + usable_size g) in
      let! r :=
        if g =? r_pool_addr r then
          let! ' (i, a) := update_addr_loc (r_pool_idx r) (sc_ab sc') in
          Ok (mk_roots low i a (r_dead_idx r) (r_dead_addr r) sc')
        else
          let! ' (i, a) := update_addr_loc (r_dead_idx r) dead in
          Ok (mk_roots low (r_pool_idx r) (r_pool_addr r) i a sc') in
      assert (low <=? MIN_OF (r_pool_addr r) (r_dead_addr r)) ;!
      assert (negb (r_pool_addr r =? r_dead_addr r) || (r_pool_addr r =? NO_ADDR)) ;!
      Ok (Next r : flow roots_t scan_t))
    (fun c => match c with
              | Next r' => roots_inv low0 high r' /\ (turns high r' < turns high r)%nat
              | Done _ => False
              end).
Proof using All.
  intros H0 Hlt Hhm Hh [Hlow Hm Hpc Hdc _] g Hg Hbg Hsc Hcase.
  pose proof (hl_block _ _ L g Hbg) as (? & ? & ? & ? & ?).
  destruct (cursors_differ ab dead L _ _ _ _ _ Hpc Hdc) as (_ & Hpd & Hdp).
  pose proof Hpc as (Hp1 & _ & Hp3 & _). pose proof Hdc as (Hd1 & _ & Hd3 & _).
  assert (Eg0 : g = Z.min (r_pool_addr r) (r_dead_addr r)) by done. clearbody g.
  rewrite u64_small by (unfold size_ok; lia). cbn zeta. wp_step.
  apply (wp_mono _ (fun r' => r_low r' = g + usable_size g /\ roots_inv low0 high r' /\
    (turns high r' < turns high r)%nat)).
  - assert (Hsc' : scanned_from low0 (Z.min (g + usable_size g) high) sc').
    { apply (scanned_from_blocks low0 g); [done | lia |]. intros w Hw. exists g. split; [done | lia]. }
    assert (Hm' : (g + usable_size g) mod 8 = 0) by (Z.to_euclidean_division_equations; lia).
    unfold turns. rewrite (proj2 (Z.ltb_lt (r_low r) high)) by done.
    destruct Hcase as [[Eg Hidx] | (Eg & Hne & Hidx)].
    + rewrite (proj2 (Z.eqb_eq _ _) Eg). pose proof Hsc as [[_ (us & Eab & Hus & _) _ _] _]. rewrite Eab.
      wp_step. eapply wp_mono; [apply (pool_loc ab dead L); [done | lia] |]. intros [i a] (-> & ->).
      wp_step. split; [done |]. split; [split; cbn; [lia | done | | | done] |].
      * rewrite Eg. apply (cursor_next ab dead L _ _ _ _ (r_low r)); [by apply pool_block | | done | done].
        intros; by apply (wf_sorted _ (hl_pool _ _ L)).
      * eapply cursor_hold; [done |]. specialize (Hpd ltac:(lia) Hidx). rewrite <- Eg in Hpd. lia.
      * cbn. destruct (g + usable_size g <? high); lia.
    + rewrite (proj2 (Z.eqb_neq _ _)) by congruence.
      wp_step. eapply wp_mono; [apply (dead_loc ab dead L); lia |]. intros [i a] (-> & ->).
      wp_step. split; [done |]. split; [split; cbn; [lia | done | | | done] |].
      * eapply cursor_hold; [done |]. specialize (Hdp ltac:(lia) Hidx). rewrite <- Eg in Hdp. lia.
      * rewrite Eg. apply (cursor_next ab dead L _ _ _ _ (r_low r)); [by apply dead_block | | done | done].
        intros; by apply (hl_dead_sorted _ _ L).
      * cbn. destruct (g + usable_size g <? high); lia.
  - intros r' (Elow & Hri & Hturn). pose proof Hri as [_ _ Hpc' Hdc' _].
    destruct (cursors_differ ab dead L _ _ _ _ _ Hpc' Hdc') as (Hne & _).
    pose proof Hpc' as (_ & _ & Hp3' & _). pose proof Hdc' as (_ & _ & Hd3' & _).
    wp_step. wp_step; [rewrite MIN_OF_min; apply Z.leb_le; lia |].
    wp_step. wp_step; [| by wp_step].
    destruct Hne as [Hne | ->]; [by rewrite (proj2 (Z.eqb_neq _ _)) | by rewrite Z.eqb_refl, orb_true_r].
Qed.

Lemma step_ok low0 high r :
  0 <= low0 -> low0 mod 8 = 0 -> high mod 8 = 0 -> high < 2 ^ 64 -> roots_inv low0 high r ->
  wp (find_roots_step high dead ts r) (fun c =>
    match c with
    | Next r' => roots_inv low0 high r' /\ (turns high r' < turns high r)%nat
    | Done sc' => scanned_from low0 high sc'
    end).
Proof using All.
  intros H0 H0m Hhm Hh Hinv. pose proof Hinv as [Hlow Hm Hpc Hdc Hsc].
  unfold find_roots_step. cbn beta zeta.
  destruct (Z.ltb_spec (r_low r) high) as [Hlt | Hge].
  2: { wp_step. by rewrite Z.min_r in Hsc by lia. }
  rewrite Z.min_l in Hsc by lia. rewrite !MIN_OF_min.
  pose proof (guard_cases _ _ _ _ _ _ Hpc Hdc Hhm Hh) as Hg.
  pose proof Hpc as (_ & _ & Hp3 & _). pose proof Hdc as (_ & _ & Hd3 & _).
  set (g := Z.min (r_pool_addr r) (r_dead_addr r)) in *.
  assert (Eg : g = Z.min (r_pool_addr r) (r_dead_addr r)) by done.
  set (stop := Z.min g high).
  assert (Hstop : r_low r <= stop < 2 ^ 64 /\ stop mod 8 = 0 /\ Z.land stop 3 = 0).
  { assert (Hs8 : stop mod 8 = 0).
    { destruct Hg as [Hg | (Hg & Hb & _)]; unfold stop; [by rewrite Z.min_r by lia |].
      rewrite Z.min_l by lia. by apply (hl_block _ _ L). }
    split; [lia |]. split; [done |]. change 3 with (Z.ones 2). rewrite Z.land_ones by lia.
    change (2 ^ 2) with 4. clearbody stop. Z.to_euclidean_division_equations. lia. }
  destruct Hstop as (Hs1 & Hs2 & Hs3).
  wp_step. wp_step; [by rewrite Hs3 |]. wp_step. wp_step; [apply Z.leb_le; lia |].
  wp_step. eapply wp_mono; [apply (scan_words_ok low0); try done; try lia |].
  { intros w Hw. apply (clear_to_cursors ab dead L _ _ _ _ _ w Hpc Hdc); lia. }
  intros [low' sc'] [-> Hsc']. wp_step. wp_step; [apply Z.eqb_refl |].
  destruct Hg as [Hg | (Hg & Hb & Hcase)].
  - rewrite (proj2 (Z.eqb_neq stop g)) by lia. wp_step.
    assert (Es : stop = high) by lia. rewrite Es in *.
    split; [split; cbn; [lia | done | | |] |].
    + eapply cursor_hold; [done | lia].
    + eapply cursor_hold; [done | lia].
    + by rewrite Z.min_id.
    + unfold turns. cbn. rewrite Z.ltb_irrefl, (proj2 (Z.ltb_lt (r_low r) high)) by done. lia.
  - assert (Es : stop = g) by lia. rewrite Es in *. rewrite Z.eqb_refl.
    eapply wp_mono; [by apply (pass_block low0 high r sc'); [lia | ..] |].
    intros [r' |]; [| done]. done.
Qed.

(** [find_roots] on [low..high) takes a scan on by the words of the range that
    lie outside every block. *)
Lemma find_roots_ok low high sc :
  0 <= low -> low <= high < 2 ^ 64 -> low mod 8 = 0 -> high mod 8 = 0 ->
  scanned_to sc0 S0 sc -> g_lookaside_count sc < LOOKASIDE_SZ ->
  wp (find_roots low high dead sc) (scanned_from low high).
Proof using All.
  intros H0 Hlh Hlm Hhm Hsc Hc. pose proof (hl_pool _ _ L) as W.
  pose proof (scanned_pool sc0 W S0 sc Hsc) as (Est & En & _).
  pose proof Hsc as [[Wsc _ _ _] _ _ _]. pose proof (wf_n _ W). pose proof (wf_room _ Wsc).
  unfold find_roots. wp_step. wp_step; [lia |]. wp_step. wp_step; [lia |]. cbn beta zeta.
  change {| ts_min := _; ts_max := _ |} with (stats (sc_ab sc)). rewrite Est.
  wp_step. wp_step.
  { apply Z.leb_le. cbn. destruct (decide (ab_n_addrs ab = 1)) as [-> |]; [done |].
    pose proof (wf_sorted _ W 0 (ab_n_addrs ab - 1)). lia. }
  wp_step. eapply wp_mono; [by apply (start_ok low high); [lia | ..] |]. intros r Hr.
  apply (wp_loop (roots_inv low high) (turns high)); [done | |].
  - pose proof (ri_pool _ _ _ Hr) as (Hp & _). pose proof (ri_dead _ _ _ Hr) as (Hd & _).
    unfold turns, roots_fuel. rewrite En. destruct (r_low r <? high); lia.
  - intros t Ht. apply (step_ok low high t); done || lia.
Qed.
End range.
End roots.

(** C13: [find_roots] on an aligned range ends without failing an assertion or
    leaving an array; it loses no root: a tracked node some word of the range
    refers to (a word outside the tracked and the dead blocks) is marked
    afterwards or waits in the lookaside list, as does what waited before.
    Nodes gain the mark only through such words or their referents. *)
Theorem find_roots_correct mem usable_size low high dead sc :
  scan_ok sc -> g_lookaside_count sc < LOOKASIDE_SZ -> heap_layout usable_size (sc_ab sc) dead ->
  0 <= low -> low <= high < 2 ^ 64 -> low mod 8 = 0 -> high mod 8 = 0 ->
  let scanned := range_words usable_size sc dead low high in
  exists sc', find_roots mem usable_size low high dead sc = Ok sc' /\
    scan_ok sc' /\ g_lookaside_count sc' < LOOKASIDE_SZ /\
    (forall w, scanned w -> pending sc' (ref_at mem w) \/ ~ unmarked (sc_ab sc') (ref_at mem w)) /\
    (forall v, pending sc v -> pending sc' v \/ ~ unmarked (sc_ab sc') v) /\
    (forall v, pending sc' v -> source mem sc scanned v) /\
    (forall v, unmarked (sc_ab sc) v -> ~ unmarked (sc_ab sc') v ->
       exists u, source mem sc scanned u /\ (v = u \/ v ∈ refs mem usable_size u)).
Proof.
  intros Hok Hc L H0 Hlh Hlm Hhm scanned.
  pose proof (find_roots_ok mem usable_size sc dead L (fun _ => False) low high sc H0 Hlh Hlm Hhm
    (scanned_start mem usable_size sc Hok) Hc) as Hw.
  apply wp_iff in Hw as (sc' & E & Hs & Hc').
  apply (scanned_ext mem usable_size sc _ scanned) in Hs; [| unfold scanned; tauto].
  destruct Hs as [Hok' (us & Eab & Hus & Hfrom) Hpend Hfound].
  exists sc'. split; [done |]. split; [done |]. split; [done |]. split; [| split; [| split; [done |]]].
  - intros w Hw. apply Hfound. right. by exists w.
  - intros v Hv. apply Hfound. by left.
  - intros v Hv Hm. apply Hfrom. destruct (decide (v ∈ us)); [done |]. exfalso. apply Hm.
    rewrite Eab. apply unmarked_mark_all; [apply Hok | done | done].
Qed.

(** The heap of [Mark]'s example with a dead block at 0x280. *)
Definition demo_dead : addr_buffer_t := plain_buffer [0x280] [] 1 0.

Lemma demo_blocks a : is_block (sc_ab (demo_scan [])) demo_dead a ->
  a = 0x100 \/ a = 0x200 \/ a = 0x300 \/ a = 0x280.
Proof.
  intros [(i & Hi & ->) | (j & Hj & ->)].
  - cbn in Hi. assert (i = 0 \/ i = 1 \/ i = 2) as [-> | [-> | ->]] by lia; vm_compute; tauto.
  - cbn in Hj. assert (j = 0) as -> by lia. vm_compute. tauto.
Qed.

Lemma demo_layout : heap_layout demo_usable (sc_ab (demo_scan [])) demo_dead.
Proof.
  split.
  - by apply pool_wfb_sound.
  - by vm_compute.
  - intros i j Hi Hij Hj. cbn in Hj. lia.
  - intros a [-> | [-> | [-> | ->]]]%demo_blocks; by vm_compute.
  - unfold demo_usable.
    intros a b [-> | [-> | [-> | ->]]]%demo_blocks [-> | [-> | [-> | ->]]]%demo_blocks Hab; lia.
  - intros i j Hi Hj. cbn in Hi, Hj. assert (j = 0) as -> by lia.
    assert (i = 0 \/ i = 1 \/ i = 2) as [-> | [-> | ->]] by lia; by vm_compute.
Qed.

Lemma demo_scan_ok : scan_ok (demo_scan []).
Proof.
  split; [by apply pool_wfb_sound | by vm_compute | by vm_compute |].
  intros v (i & Hi & _). change (g_lookaside_count (demo_scan [])) with 0 in Hi. lia.
Qed.

Lemma find_roots_correct_witness :
  let scanned := range_words demo_usable (demo_scan []) demo_dead 0xf8 0x318 in
  exists sc', find_roots demo_mem demo_usable 0xf8 0x318 demo_dead (demo_scan []) = Ok sc' /\
    scan_ok sc' /\ g_lookaside_count sc' < LOOKASIDE_SZ /\
    (forall w, scanned w -> pending sc' (ref_at demo_mem w) \/ ~ unmarked (sc_ab sc') (ref_at demo_mem w)) /\
    (forall v, pending (demo_scan []) v -> pending sc' v \/ ~ unmarked (sc_ab sc') v) /\
    (forall v, pending sc' v -> source demo_mem (demo_scan []) scanned v) /\
    (forall v, unmarked (sc_ab (demo_scan [])) v -> ~ unmarked (sc_ab sc') v ->
       exists u, source demo_mem (demo_scan []) scanned u /\ (v = u \/ v ∈ refs demo_mem demo_usable u)).
Proof.
  apply (find_roots_correct demo_mem demo_usable 0xf8 0x318 demo_dead (demo_scan []));
    [apply demo_scan_ok | by vm_compute | apply demo_layout | done | lia | done | done].
Defined.
