(* ===== verification/Alloc.v ===== *)
(** alloc.c: the bookkeeping of the memory Forkscan maps for itself.

    The nodes live in a store from addresses to [memory_metadata_t]; the
    pointers in it ([next], [prev], the two list heads) are addresses, so the
    circular list and the free list are what the code makes of them.  [os]
    holds the results of the process's coming calls of [mmap] (a parameter:
    any list); a failed one, or none left, is the fatal error.  The mutex
    [list_lock] makes each operation one step; it has no counterpart here. *)
From stdpp Require Import sorting.
From S2P Require Import Prelude.

Definition ALLOC_BLOCKSIZE : Z := PAGESIZE.
Definition MAP_FAILED : Z := 2 ^ 64 - 1.
Definition sizeof_metadata : Z := 40.   (* five words *)

Record memory_metadata_t : Type := mk_metadata {
  addr : Z;
  length_ : Z;
  reason : Z;
  next : Z;
  prev : Z }.

Record alloc_t : Type := mk_alloc {
  nodes : gmap Z memory_metadata_t;
  free_list : Z;
  alloc_list : Z;
  os : list Z }.

Record mem_range_t : Type := mk_range {
  low : Z;
  high : Z }.

Definition set_nodes (s : alloc_t) n := mk_alloc n (free_list s) (alloc_list s) (os s).
Definition set_free_list (s : alloc_t) p := mk_alloc (nodes s) p (alloc_list s) (os s).
Definition set_alloc_list (s : alloc_t) p := mk_alloc (nodes s) (free_list s) p (os s).

(** A field access through a pointer. *)
Definition load (s : alloc_t) (p : Z) : res memory_metadata_t :=
  if p =? 0 then Err NullDeref
  else match nodes s !! p with
       | Some m => Ok m
       | None => Err OutOfBounds
       end.

Definition modify (s : alloc_t) (p : Z) (f : memory_metadata_t -> memory_metadata_t) : res alloc_t :=
  let! m := load s p in Ok (set_nodes s (<[p := f m]> (nodes s))).

Definition with_addr v m := mk_metadata v (length_ m) (reason m) (next m) (prev m).
Definition with_length v m := mk_metadata (addr m) v (reason m) (next m) (prev m).
Definition with_reason v m := mk_metadata (addr m) (length_ m) v (next m) (prev m).
Definition with_next v m := mk_metadata (addr m) (length_ m) (reason m) v (prev m).
Definition with_prev v m := mk_metadata (addr m) (length_ m) (reason m) (next m) v.

Definition LOW_ADDR (s : alloc_t) (p : Z) : res Z :=
  let! m := load s p in Ok (addr m).

Definition HIGH_ADDR (s : alloc_t) (p : Z) : res Z :=
  let! l := LOW_ADDR s p in
  let! m := load s p in
  Ok (u64 (l + length_ m)).

(** A walk around the list meets each node once: one round more than there
    are nodes is fuel enough. *)
Definition walk_fuel (s : alloc_t) : nat := Datatypes.S (Datatypes.S (size (nodes s))).

(** ** The operating system *)

Definition mmap_wrap (s : alloc_t) (size : Z) (shared : bool) : res (Z * alloc_t) :=
  match os s with
  | [] => Err Fatal
  | ptr :: rest =>
      if ptr =? MAP_FAILED then Err Fatal
      else assert (negb (ptr =? 0)) ;!
           Ok (ptr, mk_alloc (nodes s) (free_list s) (alloc_list s) rest)
  end.

(** A page that is to hold nodes: its words read as zeros. *)
Definition zero_node : memory_metadata_t := mk_metadata 0 0 0 0 0.

Definition page_slots (p : Z) : list Z :=
  (fun k => p + sizeof_metadata * Z.of_nat k) <$> seq 0 (Z.to_nat (ALLOC_BLOCKSIZE / sizeof_metadata)).

Definition fresh_nodes (p : Z) : gmap Z memory_metadata_t :=
  list_to_map ((fun q => (q, zero_node)) <$> page_slots p).

(** ** The lists *)

Definition insert_scan (s : alloc_t) (high_meta : Z) (curr : Z) : res (flow Z Z) :=
  let! lo := LOW_ADDR s curr in
  if lo <? high_meta then let! m := load s curr in Ok (Next (next m)) else Ok (Done curr).

Definition metadata_do_insert (s : alloc_t) (meta : Z) : res alloc_t :=
  if alloc_list s =? 0 then
    let s := set_alloc_list s meta in
    let! s := modify s meta (with_prev meta) in
    modify s meta (with_next meta)
  else
    let! head := load s (alloc_list s) in
    let! hi_last := HIGH_ADDR s (prev head) in
    let! lo_meta := LOW_ADDR s meta in
    if hi_last <=? lo_meta then
      let! head := load s (alloc_list s) in
      let! s := modify s meta (with_prev (prev head)) in
      let! s := modify s meta (with_next (alloc_list s)) in
      let! head := load s (alloc_list s) in
      let! s := modify s (prev head) (with_next meta) in
      modify s (alloc_list s) (with_prev meta)
    else
      let! hi_meta := HIGH_ADDR s meta in
      let! curr := loop (walk_fuel s) (insert_scan s hi_meta) (alloc_list s) in
      let! s := modify s meta (with_next curr) in
      let! c := load s curr in
      let! s := modify s meta (with_prev (prev c)) in
      let! c := load s curr in
      let! s := modify s (prev c) (with_next meta) in
      let! s := modify s curr (with_prev meta) in
      Ok (if curr =? alloc_list s then set_alloc_list s meta else s).

Definition metadata_insert (s : alloc_t) (meta : Z) : res alloc_t := metadata_do_insert s meta.

Definition remove_scan (s : alloc_t) (a : Z) (curr : Z) : res (flow Z Z) :=
  let! m := load s curr in
  if negb (addr m =? a) then Ok (Next (next m)) else Ok (Done curr).

Definition metadata_remove (s : alloc_t) (a : Z) : res (Z * alloc_t) :=
  assert (negb (alloc_list s =? 0)) ;!
  let! curr := loop (walk_fuel s) (remove_scan s a) (alloc_list s) in
  if curr =? 0 then Err Fatal else
  let! c := load s curr in
  let! s := modify s (next c) (with_prev (prev c)) in
  let! c := load s curr in
  let! s := modify s (prev c) (with_next (next c)) in
  let! c := load s curr in
  let s := if curr =? alloc_list s then set_alloc_list s (next c) else s in
  let! s := modify s curr (with_prev 0) in
  let! s := modify s curr (with_next 0) in
  Ok (curr, s).

(** The body of the loop that threads the slots of a fresh page onto
    [free_list]; [offset] runs from the second slot in steps of a slot. *)
Definition free_slot (p : Z) (k : Z) (s : alloc_t) : res alloc_t :=
  let node := p + sizeof_metadata * k in
  let! s := modify s node (with_next (free_list s)) in
  Ok (set_free_list s node).

(** [offset < ALLOC_BLOCKSIZE - sizeof(memory_metadata_t)] *)
Definition last_slot : Z := (ALLOC_BLOCKSIZE - sizeof_metadata - 1) / sizeof_metadata.

Definition metadata_refill (s : alloc_t) : res alloc_t :=
  let! ' (p, s) := mmap_wrap s ALLOC_BLOCKSIZE false in
  let s := set_nodes s (fresh_nodes p ∪ nodes s) in
  let! s := modify s p (with_addr p) in
  let! s := modify s p (with_length ALLOC_BLOCKSIZE) in
  let! s := metadata_do_insert s p in
  for_range 1 (last_slot + 1) (free_slot p) s.

Definition metadata_new (s : alloc_t) : res (Z * alloc_t) :=
  let! s := if free_list s =? 0 then metadata_refill s else Ok s in
  let ret := free_list s in
  assert (negb (ret =? 0)) ;!
  let! m := load s ret in
  Ok (ret, set_free_list s (next m)).

Definition metadata_free (s : alloc_t) (meta : Z) : res alloc_t :=
  let! s := modify s meta (with_next (free_list s)) in
  Ok (set_free_list s meta).

(** ** Sub-ranges *)

Definition skip_below (s : alloc_t) (lo : Z) (curr : Z) : res (flow Z Z) :=
  let! hi := HIGH_ADDR s curr in
  if hi <=? lo then
    let! m := load s curr in
    Ok (if next m =? alloc_list s then Done (next m) else Next (next m))
  else Ok (Done curr).

Definition skip_owned (s : alloc_t) (hi_range : Z) (st : Z * Z) : res (flow (Z * Z) (Z * Z)) :=
  let '(curr, lo) := st in
  let! lo_curr := LOW_ADDR s curr in
  if lo_curr <=? lo then
    let! hi_curr := HIGH_ADDR s curr in
    let lo := if lo <=? hi_curr then MIN_OF hi_curr hi_range else lo in
    let! m := load s curr in
    Ok (if next m =? alloc_list s then Done (next m, lo) else Next (next m, lo))
  else Ok (Done (curr, lo)).

(** The pair is the range returned and [*big_range] afterwards. *)
Definition metadata_break_range (s : alloc_t) (big_range : mem_range_t)
    : res (mem_range_t * mem_range_t) :=
  assert (negb (alloc_list s =? 0)) ;!
  let! curr := loop (walk_fuel s) (skip_below s (low big_range)) (alloc_list s) in
  let! hi := HIGH_ADDR s curr in
  let! lo := LOW_ADDR s curr in
  let! ret :=
    if (low big_range <? hi) && (lo <? high big_range) then
      let! ' (curr, rlow) :=
        loop (walk_fuel s) (skip_owned s (high big_range)) (curr, low big_range) in
      let! lo := LOW_ADDR s curr in
      Ok (mk_range rlow (if rlow <? lo then MIN_OF lo (high big_range) else high big_range))
    else Ok big_range in
  Ok (ret, mk_range (high ret) (high big_range)).

(** ** Interface *)

Definition alloc_mmap (s : alloc_t) (size reason : Z) (shared : bool) : res (Z * alloc_t) :=
  let! ' (meta, s) := metadata_new s in
  assert (size mod PAGESIZE =? 0) ;!
  assert (negb (meta =? 0)) ;!
  let! s := modify s meta (with_length size) in
  let! ' (p, s) := mmap_wrap s size shared in
  let! s := modify s meta (with_addr p) in
  let! s := modify s meta (with_reason reason) in
  assert (negb (p =? 0) && negb (p =? MAP_FAILED)) ;!
  let! s := metadata_insert s meta in
  let! m := load s meta in
  Ok (addr m, s).

Definition forkscan_alloc_mmap (s : alloc_t) (size reason : Z) : res (Z * alloc_t) :=
  alloc_mmap s size reason false.

Definition forkscan_alloc_mmap_shared (s : alloc_t) (size reason : Z) : res (Z * alloc_t) :=
  alloc_mmap s size reason true.

(** [munmap] is the system call's result for an address and a length. *)
Definition forkscan_alloc_munmap (munmap : Z -> Z -> Z) (s : alloc_t) (ptr : Z) : res alloc_t :=
  assert (negb (ptr =? 0)) ;!
  let! ' (meta, s) := metadata_remove s ptr in
  if meta =? 0 then Err Fatal else
  let! m := load s meta in
  if negb (munmap (addr m) (length_ m) =? 0) then Err Fatal
  else metadata_free s meta.

Definition forkscan_alloc_next_subrange (s : alloc_t) (big_range : mem_range_t)
    : res (mem_range_t * mem_range_t) :=
  metadata_break_range s big_range.

(** * Circular lists *)

(** The links a circular list has: from each element to the following one,
    from the last to the first. *)
Fixpoint path (x : Z) (l : list Z) : list (Z * Z) :=
  match l with
  | [] => []
  | y :: l' => (x, y) :: path y l'
  end.

Definition edges (l : list Z) : list (Z * Z) :=
  match l with
  | [] => []
  | x :: l' => path x (l' ++ [x])
  end.

Definition last_of (x : Z) (l : list Z) : Z := default x (last l).

Lemma last_of_cons x y l : last_of x (y :: l) = last_of y l.
Proof. unfold last_of. rewrite last_cons. by destruct (last l). Qed.

Lemma path_app x l1 y l2 : path x (l1 ++ y :: l2) = path x l1 ++ (last_of x l1, y) :: path y l2.
Proof.
  revert x. induction l1 as [|z l1 IH]; intros x; [done |]. cbn. f_equal. rewrite IH.
  by rewrite last_of_cons.
Qed.

Lemma path_fst x l y : (path x (l ++ [y])).*1 = x :: l.
Proof. revert x. induction l as [|z l IH]; intros x; [done |]. cbn. by rewrite IH. Qed.

Lemma path_snd x l : (path x l).*2 = l.
Proof. revert x. induction l as [|z l IH]; intros x; [done |]. cbn. by rewrite IH. Qed.

Lemma edges_fst l : (edges l).*1 = l.
Proof. destruct l; [done |]. apply path_fst. Qed.

Lemma edges_snd l : (edges l).*2 ≡ₚ l.
Proof. destruct l as [|x l]; [done |]. cbn. rewrite path_snd. symmetry. apply Permutation_cons_append. Qed.

(** [l'] is the circular list [l] with [m] spliced in between [p] and [c]. *)
Definition spliced (l : list Z) (p c m : Z) (l' : list Z) : Prop :=
  exists E, edges l ≡ₚ (p, c) :: E /\ edges l' ≡ₚ (p, m) :: (m, c) :: E.

Lemma spliced_elem l p c m l' : spliced l p c m l' -> p ∈ l /\ c ∈ l.
Proof.
  intros (E & HE & _). split.
  - rewrite <- (edges_fst l), HE. left.
  - rewrite <- (edges_snd l), HE. left.
Qed.

Lemma spliced_inside x l1 c l2 m :
  spliced (x :: l1 ++ c :: l2) (last_of x l1) c m (x :: l1 ++ m :: c :: l2).
Proof.
  exists (path x l1 ++ path c (l2 ++ [x])). cbn. rewrite <- !app_assoc. cbn.
  repeat (rewrite !path_app; cbn). split; solve_Permutation.
Qed.

Lemma spliced_front c l2 m :
  spliced (c :: l2) (last_of c l2) c m (m :: c :: l2).
Proof.
  exists (path c l2). cbn. repeat (rewrite !path_app; cbn).
  split; solve_Permutation.
Qed.

Lemma spliced_back c l2 m :
  spliced (c :: l2) (last_of c l2) c m (c :: l2 ++ [m]).
Proof.
  exists (path c l2). cbn. rewrite <- app_assoc. repeat (rewrite !path_app; cbn).
  split; solve_Permutation.
Qed.

(** Taking [m] out, wherever it is in a list with other elements. *)
Lemma spliced_out l1 m l2 :
  l1 ++ l2 <> [] -> exists p c, spliced (l1 ++ l2) p c m (l1 ++ m :: l2).
Proof.
  intros Hne. destruct l1 as [|x l1]; cbn in *.
  - destruct l2 as [|c l2]; [done |]. eexists _, _. apply spliced_front.
  - destruct l2 as [|c l2].
    + rewrite app_nil_r. eexists _, _. apply spliced_back.
    + eexists _, _. apply spliced_inside.
Qed.

Definition linked (N : gmap Z memory_metadata_t) (e : Z * Z) : Prop :=
  exists a b, N !! e.1 = Some a /\ N !! e.2 = Some b /\ next a = e.2 /\ prev b = e.1.

Definition ring (N : gmap Z memory_metadata_t) (l : list Z) : Prop := Forall (linked N) (edges l).

(** What the writes of an insertion of [m] between [p] and [c] leave at [x]. *)
Definition relink (p c m x : Z) (d : memory_metadata_t) : memory_metadata_t :=
  mk_metadata (addr d) (length_ d) (reason d)
    (if decide (x = m) then c else if decide (x = p) then m else next d)
    (if decide (x = m) then p else if decide (x = c) then m else prev d).

(** What the writes of a removal of a node between [p] and [c] leave. *)
Definition unlink (p c x : Z) (d : memory_metadata_t) : memory_metadata_t :=
  mk_metadata (addr d) (length_ d) (reason d)
    (if decide (x = p) then c else next d) (if decide (x = c) then p else prev d).

Lemma ring_splice N N' l p c m l' :
  ring N l -> spliced l p c m l' -> NoDup l -> m ∉ l -> is_Some (N !! m) ->
  (forall x, N' !! x = relink p c m x <$> N !! x) ->
  ring N' l'.
Proof.
  unfold ring. intros Hr (E & HE & HE') Hnd Hm [dm Hdm] HN.
  assert (Hf : NoDup (p :: E.*1)) by (by rewrite <- (edges_fst l), HE in Hnd).
  assert (Hs : NoDup (c :: E.*2)) by (by rewrite <- (edges_snd l), HE in Hnd).
  assert (Hmf : m ∉ p :: E.*1) by (by rewrite <- (edges_fst l), HE in Hm).
  assert (Hms : m ∉ c :: E.*2) by (by rewrite <- (edges_snd l), HE in Hm).
  apply NoDup_cons in Hf as [Hpf _], Hs as [Hcs _].
  rewrite HE in Hr. rewrite HE'. inversion Hr as [| ? ? Hpc HrE]; subst.
  destruct Hpc as (dp & dc & Hp & Hc & Hnp & Hpc). cbn in *.
  apply not_elem_of_cons in Hmf as [? Hmf], Hms as [? Hms].
  repeat constructor.
  - exists (relink p c m p dp), (relink p c m m dm). cbn. rewrite !HN, Hp, Hdm. cbn.
    split_and!; repeat case_decide; congruence.
  - exists (relink p c m m dm), (relink p c m c dc). cbn. rewrite !HN, Hc, Hdm. cbn.
    split_and!; repeat case_decide; congruence.
  - rewrite Forall_forall in HrE |- *. intros [a b] Hab.
    assert (Ha : a ∈ E.*1) by (apply list_elem_of_fmap; by exists (a, b)).
    assert (Hb : b ∈ E.*2) by (apply list_elem_of_fmap; by exists (a, b)).
    destruct (HrE _ Hab) as (da & db & HA & HB & Hna & Hpb). cbn in *.
    assert (a <> p /\ a <> m /\ b <> c /\ b <> m) as (? & ? & ? & ?)
      by (split_and!; intros ->; contradiction).
    exists (relink p c m a da), (relink p c m b db). cbn. rewrite !HN, HA, HB. cbn.
    split_and!; repeat case_decide; congruence.
Qed.

Lemma ring_unsplice N N' l p c m l' :
  ring N l' -> spliced l p c m l' -> NoDup l' ->
  (forall x, x <> m -> N' !! x = unlink p c x <$> N !! x) ->
  ring N' l /\ (exists dm, N !! m = Some dm /\ prev dm = p /\ next dm = c).
Proof.
  unfold ring. intros Hr (E & HE & HE') Hnd HN.
  assert (Hf : NoDup (p :: m :: E.*1)) by (by rewrite <- (edges_fst l'), HE' in Hnd).
  assert (Hs : NoDup (m :: c :: E.*2)) by (by rewrite <- (edges_snd l'), HE' in Hnd).
  rewrite !NoDup_cons in Hf, Hs. destruct Hf as (Hpf & Hmf & _), Hs as (Hms & Hcs & _).
  rewrite HE' in Hr. rewrite HE. inversion Hr as [| ? ? Hpm Hr']; subst.
  inversion Hr' as [| ? ? Hmc HrE]; subst.
  destruct Hpm as (dp & dm & Hp & Hdm & Hnp & Hpm), Hmc as (dm' & dc & Hdm' & Hc & Hnm & Hpc).
  cbn in *. rewrite Hdm in Hdm'. injection Hdm' as <-.
  apply not_elem_of_cons in Hpf as [? Hpf], Hms as [? Hms].
  split; [| by exists dm]. constructor.
  - exists (unlink p c p dp), (unlink p c c dc). cbn. rewrite !HN, Hc, Hp by done. cbn.
    split_and!; repeat case_decide; congruence.
  - rewrite Forall_forall in HrE |- *. intros [a b] Hab.
    assert (Ha : a ∈ E.*1) by (apply list_elem_of_fmap; by exists (a, b)).
    assert (Hb : b ∈ E.*2) by (apply list_elem_of_fmap; by exists (a, b)).
    destruct (HrE _ Hab) as (da & db & HA & HB & Hna & Hpb). cbn in *.
    assert (a <> p /\ a <> m /\ b <> c /\ b <> m) as (? & ? & ? & ?)
      by (split_and!; intros ->; contradiction).
    exists (unlink p c a da), (unlink p c b db). cbn.
    rewrite !HN, HA, HB by congruence. cbn.
    split_and!; repeat case_decide; congruence.
Qed.

Lemma spliced_at l1 c l2 m : exists p, spliced (l1 ++ c :: l2) p c m (l1 ++ m :: c :: l2).
Proof.
  destruct l1 as [|x l1]; eexists; [apply spliced_front | apply spliced_inside].
Qed.

Lemma spliced_linked N l p c m l' : ring N l -> spliced l p c m l' -> linked N (p, c).
Proof. intros Hr (E & HE & _). unfold ring in Hr. rewrite HE in Hr. by inversion Hr. Qed.

(** Following the links of a ring. *)
Lemma ring_next N x l1 l2 c : ring N (l1 ++ c :: l2) -> x = hd 0 (l1 ++ c :: l2) ->
  exists d, N !! c = Some d /\ next d = hd x l2.
Proof.
  unfold ring. rewrite Forall_forall. intros Hr ->.
  assert (Hin : (c, hd (hd 0 (l1 ++ c :: l2)) l2) ∈ edges (l1 ++ c :: l2)).
  { destruct l1 as [|y l1]; cbn.
    - destruct l2; cbn; left.
    - rewrite <- app_assoc. cbn. rewrite path_app. apply elem_of_app. right. right.
      destruct l2; cbn; left. }
  destruct (Hr _ Hin) as (d & _ & Hd & _ & Hn & _). by exists d.
Qed.

Lemma ring_prev_head N c l : ring N (c :: l) ->
  exists d, N !! c = Some d /\ prev d = last_of c l.
Proof.
  unfold ring. rewrite Forall_forall. intros Hr.
  assert (Hin : (last_of c l, c) ∈ edges (c :: l)) by (cbn; rewrite path_app; apply elem_of_app; right; left).
  destruct (Hr _ Hin) as (_ & d & _ & Hd & _ & Hp). by exists d.
Qed.

Lemma last_of_elem x l : last_of x l ∈ x :: l.
Proof.
  unfold last_of. destruct (last l) eqn:E; cbn; [| left]. right.
  by apply last_Some_elem_of.
Qed.

(** * The list of allocations *)

Definition range_of (N : gmap Z memory_metadata_t) (p : Z) : Z * Z :=
  match N !! p with
  | Some d => (addr d, addr d + length_ d)
  | None => (0, 0)
  end.

Definition tracked (N : gmap Z memory_metadata_t) (l : list Z) : list (Z * Z) := range_of N <$> l.

Definition range_ok (r : Z * Z) : Prop := 0 < r.1 < r.2 /\ r.2 < 2 ^ 64.
Definition before (r q : Z * Z) : Prop := r.2 <= q.1.
Definition apart (r q : Z * Z) : Prop := before r q \/ before q r.

(** The allocated list holds the nodes [l], in this order: a ring, headed by
    [alloc_list], of proper ranges at increasing addresses. *)
Record list_ok (s : alloc_t) (l : list Z) : Prop := {
  lo_ring : ring (nodes s) l;
  lo_head : alloc_list s = hd 0 l;
  lo_nodup : NoDup l;
  lo_in : Forall (fun p => p <> 0 /\ is_Some (nodes s !! p)) l;
  lo_ranges : Forall range_ok (tracked (nodes s) l);
  lo_sorted : StronglySorted before (tracked (nodes s) l) }.

(** The nodes of [N] and [N'] describe the same memory. *)
Definition same_ranges (N N' : gmap Z memory_metadata_t) : Prop :=
  forall x, (fun d => (addr d, length_ d)) <$> N' !! x = (fun d => (addr d, length_ d)) <$> N !! x.

Lemma range_of_same N N' x : same_ranges N N' -> range_of N' x = range_of N x.
Proof.
  intros H. specialize (H x). unfold range_of.
  destruct (N !! x), (N' !! x); cbn in H; congruence.
Qed.

Lemma tracked_same N N' l : same_ranges N N' -> tracked N' l = tracked N l.
Proof.
  intros H. unfold tracked. apply list_fmap_ext. intros i x _. by apply range_of_same.
Qed.

Lemma same_ranges_some N N' x : same_ranges N N' -> is_Some (N' !! x) <-> is_Some (N !! x).
Proof.
  intros H. specialize (H x).
  destruct (N !! x), (N' !! x); cbn in H; split; intros [? ?]; try done; eauto.
Qed.

Lemma relink_same N N' p c m :
  (forall x, N' !! x = relink p c m x <$> N !! x) -> same_ranges N N'.
Proof. intros H x. rewrite H. by destruct (N !! x). Qed.

Lemma list_ok_elem s l p : list_ok s l -> p ∈ l ->
  exists d, p <> 0 /\ nodes s !! p = Some d /\ range_of (nodes s) p = (addr d, addr d + length_ d) /\
            range_ok (addr d, addr d + length_ d).
Proof.
  intros H Hp. pose proof (proj1 (Forall_forall _ _) (lo_in _ _ H) p Hp) as [Hz [d Hd]].
  assert (Hr : range_of (nodes s) p = (addr d, addr d + length_ d))
    by (unfold range_of; by rewrite Hd).
  exists d. do 3 (split; [done |]). rewrite <- Hr.
  apply (proj1 (Forall_forall _ _) (lo_ranges _ _ H)). unfold tracked.
  apply list_elem_of_fmap. by exists p.
Qed.

Lemma wp_load s p d (Q : memory_metadata_t -> Prop) :
  p <> 0 -> nodes s !! p = Some d -> Q d -> wp (load s p) Q.
Proof. intros Hp Hd HQ. unfold load. apply Z.eqb_neq in Hp as ->. by rewrite Hd. Qed.

Lemma wp_modify s p f d (Q : alloc_t -> Prop) :
  p <> 0 -> nodes s !! p = Some d ->
  (forall s', (forall x, nodes s' !! x = if decide (x = p) then Some (f d) else nodes s !! x) ->
     free_list s' = free_list s -> alloc_list s' = alloc_list s -> os s' = os s -> Q s') ->
  wp (modify s p f) Q.
Proof.
  intros Hp Hd HQ. unfold modify. wp_step. eapply wp_load; [done.. |]. wp_step.
  apply HQ; [| done..]. intros x. cbn.
  case_decide; [subst; by rewrite lookup_insert_eq | by rewrite lookup_insert_ne].
Qed.

Lemma wp_low s p d (Q : Z -> Prop) :
  p <> 0 -> nodes s !! p = Some d -> Q (addr d) -> wp (LOW_ADDR s p) Q.
Proof. intros. unfold LOW_ADDR. wp_step. by eapply wp_load. Qed.

Lemma wp_high s p d (Q : Z -> Prop) :
  p <> 0 -> nodes s !! p = Some d -> range_ok (addr d, addr d + length_ d) ->
  Q (addr d + length_ d) -> wp (HIGH_ADDR s p) Q.
Proof.
  intros Hp Hd [H1 H2] HQ. cbn in *. unfold HIGH_ADDR. wp_step. eapply wp_low; [done.. |].
  wp_step. eapply wp_load; [done.. |]. wp_step. rewrite u64_small by (unfold size_ok; lia). done.
Qed.

(** The four writes, in either order of the code, splice [m] in. *)
Ltac node_lookup :=
  repeat match goal with H : forall x, nodes ?s !! x = _ |- context [nodes ?s !! _] => rewrite H end;
  repeat case_decide; simplify_eq; eauto; try congruence.

Section Splice.
Variables (s : alloc_t) (p c m : Z) (dp dc dm : memory_metadata_t).
Hypotheses (Hp0 : p <> 0) (Hc0 : c <> 0) (Hm0 : m <> 0) (Hmp : m <> p) (Hmc : m <> c)
  (Hp : nodes s !! p = Some dp) (Hc : nodes s !! c = Some dc) (Hm : nodes s !! m = Some dm)
  (Hprev : prev dc = p).

Definition splice_post (s' : alloc_t) : Prop :=
  (forall x, nodes s' !! x = relink p c m x <$> nodes s !! x) /\
  free_list s' = free_list s /\ alloc_list s' = alloc_list s /\ os s' = os s.

Lemma splice_before_wp (k : alloc_t -> res alloc_t) (Q : alloc_t -> Prop) :
  (forall s', splice_post s' -> wp (k s') Q) ->
  wp (let! s := modify s m (with_next c) in
      let! d := load s c in
      let! s := modify s m (with_prev (prev d)) in
      let! d := load s c in
      let! s := modify s (prev d) (with_next m) in
      let! s := modify s c (with_prev m) in k s) Q.
Proof using All.
  intros HQ.
  wp_step. eapply wp_modify; [done.. |]. intros s1 HN1 ? ? ?.
  wp_step. eapply (wp_load _ _ dc); [done | node_lookup |].
  wp_step. eapply (wp_modify _ _ _ (with_next c dm)); [done | node_lookup |]. intros s2 HN2 ? ? ?.
  wp_step. eapply (wp_load _ _ dc); [done | node_lookup |]. rewrite Hprev.
  wp_step. eapply (wp_modify _ _ _ dp); [done | node_lookup |]. intros s3 HN3 ? ? ?.
  wp_step. eapply (wp_modify _ _ _ (if decide (c = p) then with_next m dc else dc)); [done | node_lookup |].
  intros s4 HN4 ? ? ?. apply HQ. split; [| split_and!; congruence].
  intros x. unfold relink. rewrite HN4, HN3, HN2, HN1.
  repeat case_decide; simplify_eq; rewrite ?Hp, ?Hc, ?Hm, ?Hprev; try done.
  all: by destruct (nodes s !! x) as [[]|].
Qed.

Lemma splice_after_wp (Q : alloc_t -> Prop) :
  c = alloc_list s ->
  (forall s', splice_post s' -> Q s') ->
  wp (let! d := load s (alloc_list s) in
      let! s := modify s m (with_prev (prev d)) in
      let! s := modify s m (with_next (alloc_list s)) in
      let! d := load s (alloc_list s) in
      let! s := modify s (prev d) (with_next m) in
      modify s (alloc_list s) (with_prev m)) Q.
Proof using All.
  intros Ec HQ. rewrite <- Ec.
  wp_step. eapply (wp_load _ _ dc); [done | node_lookup |]. rewrite Hprev.
  wp_step. eapply wp_modify; [done.. |]. intros s1 HN1 ? E1 ?. rewrite E1, <- Ec.
  wp_step. eapply (wp_modify _ _ _ (with_prev p dm)); [done | node_lookup |]. intros s2 HN2 ? E2 ?.
  rewrite E2, E1, <- Ec.
  wp_step. eapply (wp_load _ _ dc); [done | node_lookup |]. rewrite Hprev.
  wp_step. eapply (wp_modify _ _ _ dp); [done | node_lookup |]. intros s3 HN3 ? E3 ?.
  rewrite E3, E2, E1, <- Ec.
  eapply (wp_modify _ _ _ (if decide (c = p) then with_next m dc else dc)); [done | node_lookup |].
  intros s4 HN4 ? ? ?. apply HQ. split; [| split_and!; congruence].
  intros x. unfold relink. rewrite HN4, HN3, HN2, HN1.
  repeat case_decide; simplify_eq; rewrite ?Hp, ?Hc, ?Hm, ?Hprev; try done.
  all: by destruct (nodes s !! x) as [[]|].
Qed.
End Splice.

Lemma length_nodes s l : list_ok s l -> (length l <= size (nodes s))%nat.
Proof.
  intros H. rewrite <- size_dom, <- (size_list_to_set (C := gset Z)) by apply (lo_nodup _ _ H).
  apply subseteq_size. intros x Hx. apply elem_of_list_to_set in Hx. apply elem_of_dom.
  by apply (proj1 (Forall_forall _ _) (lo_in _ _ H) x Hx).
Qed.

Lemma tracked_app N l1 l2 : tracked N (l1 ++ l2) = tracked N l1 ++ tracked N l2.
Proof. apply fmap_app. Qed.

Lemma tracked_cons N x l : tracked N (x :: l) = range_of N x :: tracked N l.
Proof. done. Qed.

Lemma sorted_around s l1 c l2 : list_ok s (l1 ++ c :: l2) ->
  Forall (fun r => before r (range_of (nodes s) c)) (tracked (nodes s) l1) /\
  Forall (before (range_of (nodes s) c)) (tracked (nodes s) l2).
Proof.
  intros H. pose proof (lo_sorted _ _ H) as Hs. rewrite tracked_app in Hs.
  apply StronglySorted_app in Hs as (Hs1 & _ & Hs2). cbn in Hs2.
  apply StronglySorted_inv in Hs2 as [_ Hs2]. split; [| done].
  apply Forall_forall. intros r Hr. apply Hs1; [done | left].
Qed.

Section Insert.
Variables (s : alloc_t) (l : list Z) (m : Z).
Hypotheses (Hok : list_ok s l) (Hml : m ∉ l) (Hm0 : m <> 0)
  (Hm : is_Some (nodes s !! m)) (Hrm : range_ok (range_of (nodes s) m))
  (Hap : Forall (apart (range_of (nodes s) m)) (tracked (nodes s) l)).

(** What inserting the node [m] makes of a list [l]. *)
Definition inserted (s' : alloc_t) : Prop :=
  (exists l1 l2, l = l1 ++ l2 /\ list_ok s' (l1 ++ m :: l2)) /\
  same_ranges (nodes s) (nodes s') /\
  (forall x, x ∉ m :: l -> nodes s' !! x = nodes s !! x) /\
  free_list s' = free_list s /\ os s' = os s.

Lemma inserted_intro s' p c l1 l2 :
  l = l1 ++ l2 -> spliced l p c m (l1 ++ m :: l2) ->
  (forall x, nodes s' !! x = relink p c m x <$> nodes s !! x) ->
  alloc_list s' = hd 0 (l1 ++ m :: l2) -> free_list s' = free_list s -> os s' = os s ->
  Forall (fun r => before r (range_of (nodes s) m)) (tracked (nodes s) l1) ->
  Forall (before (range_of (nodes s) m)) (tracked (nodes s) l2) ->
  inserted s'.
Proof using All.
  intros -> Hsp HN Ha Hf Ho Hb1 Hb2. pose proof (relink_same _ _ _ _ _ HN) as Hsame.
  pose proof (spliced_elem _ _ _ _ _ Hsp) as Hpc.
  split; [exists l1, l2; split; [done |] | split; [done | split; [| done]]].
  - split.
    + apply (ring_splice (nodes s) _ (l1 ++ l2) p c m); auto; apply Hok.
    + done.
    + apply NoDup_app. pose proof (lo_nodup _ _ Hok) as Hnd. apply NoDup_app in Hnd as (? & Hd & ?).
      apply not_elem_of_app in Hml as [? ?]. split; [done |]. split; [| by constructor].
      intros x Hx [-> | Hx2]%elem_of_cons; [done | by apply (Hd x)].
    + pose proof (lo_in _ _ Hok) as Hin. rewrite Forall_app, Forall_cons. rewrite Forall_app in Hin.
      destruct Hin as [Hin1 Hin2].
      split_and!; [| done | by apply (same_ranges_some (nodes s)) |];
        (eapply Forall_impl; [done |]; intros x [? ?]; split; [done |];
         by apply (same_ranges_some (nodes s))).
    + rewrite (tracked_same (nodes s)) by done. pose proof (lo_ranges _ _ Hok) as Hr.
      rewrite tracked_app in Hr |- *. cbn. rewrite Forall_app, Forall_cons. rewrite Forall_app in Hr.
      tauto.
    + rewrite (tracked_same (nodes s)) by done. pose proof (lo_sorted _ _ Hok) as Hr.
      rewrite tracked_app in Hr |- *. cbn. apply StronglySorted_app in Hr as (Hr & ? & ?).
      apply StronglySorted_app. split_and!; [| done | by constructor].
      rewrite Forall_forall in Hb1. intros x y Hx [-> | Hy]%elem_of_cons; auto.
  - intros x Hx. apply not_elem_of_cons in Hx as [? ?]. rewrite HN. unfold relink.
    repeat case_decide; subst; try (by destruct Hpc); try done.
    by destruct (nodes s !! x) as [[]|].
Qed.

(** The first node at or above [hi]: there is one if the last node is. *)
Lemma insert_scan_ok hi :
  (exists r, r ∈ tracked (nodes s) l /\ hi <= r.1) ->
  wp (loop (walk_fuel s) (insert_scan s hi) (alloc_list s)) (fun c =>
    exists l1 l2, l = l1 ++ c :: l2 /\ Forall (fun r => r.1 < hi) (tracked (nodes s) l1) /\
      hi <= (range_of (nodes s) c).1).
Proof using All.
  intros (r & Hr & Hhi). pose proof (length_nodes s l Hok) as Hlen.
  apply list_elem_of_fmap in Hr as (q & -> & Hq).
  apply (wp_loop_rel (fun n c => exists l1 l2, l = l1 ++ c :: l2 /\ length l2 = n /\
      Forall (fun r => r.1 < hi) (tracked (nodes s) l1)) (length l - 1)%nat).
  - destruct l as [|x l']; [by apply not_elem_of_nil in Hq |]. rewrite (lo_head _ _ Hok).
    exists [], l'. cbn. split_and!; [done | lia | constructor].
  - unfold walk_fuel. lia.
  - intros n c (l1 & l2 & El & Hn & Hl1). unfold insert_scan.
    destruct (list_ok_elem s l c Hok) as (d & Hc0 & Hd & Er & _); [rewrite El; apply elem_of_mid |].
    wp_step. eapply wp_low; [done.. |].
    destruct (Z.ltb_spec (addr d) hi) as [Hlt | Hge].
    + wp_step. eapply wp_load; [done.. |]. wp_step.
      assert (Hs : list_ok s (l1 ++ c :: l2)) by (by rewrite <- El).
      destruct (ring_next _ (alloc_list s) l1 l2 c (lo_ring _ _ Hs)) as (d' & Hd' & Hn');
        [by rewrite (lo_head _ _ Hs) |].
      rewrite Hd in Hd'. injection Hd' as <-. destruct l2 as [|c' l2]; cbn in Hn'.
      * exfalso. apply sorted_around in Hs as [Hs _]. rewrite El in Hq.
        apply elem_of_app in Hq as [Hq | Hq].
        -- rewrite Forall_forall in Hl1.
           specialize (Hl1 (range_of (nodes s) q) ltac:(apply list_elem_of_fmap; by exists q)). lia.
        -- apply list_elem_of_singleton in Hq as ->. rewrite Er in Hhi. cbn in Hhi. lia.
      * exists (length l2). split; [cbn in Hn; lia |].
        exists (l1 ++ [c]), l2. rewrite <- app_assoc, Hn'. split_and!; [done | done |].
        rewrite tracked_app. apply Forall_app. split; [done |]. repeat constructor.
        rewrite Er. done.
    + wp_step. exists l1, l2. rewrite Er. done.
Qed.

Lemma apart_before r q : range_ok r -> apart r q -> q.1 < r.2 -> before q r.
Proof. unfold apart, before, range_ok. lia. Qed.

End Insert.

Lemma all_end_before_last s x l : list_ok s (x :: l) ->
  Forall (fun r => r.2 <= (range_of (nodes s) (last_of x l)).2) (tracked (nodes s) (x :: l)).
Proof.
  intros H. assert (Hl : last (x :: l) = Some (last_of x l))
    by (rewrite last_cons; unfold last_of; by destruct (last l)).
  destruct (list_ok_elem _ _ _ H (last_of_elem x l)) as (d & _ & _ & Er & Hr).
  apply last_Some in Hl as [l0 E]. rewrite E in *.
  destruct (sorted_around s l0 _ [] H) as [Hb _]. rewrite tracked_app. apply Forall_app.
  split; [| by apply Forall_singleton]. eapply Forall_impl; [done |].
  rewrite Er. unfold before. intros r. cbn. destruct Hr as [[? ?] ?]. cbn in *. lia.
Qed.

Lemma insert_empty_ok s m dm :
  list_ok s [] -> m <> 0 -> nodes s !! m = Some dm -> range_ok (range_of (nodes s) m) ->
  wp (metadata_do_insert s m) (inserted s [] m).
Proof.
  intros Hok Hm0 Hdm Hrm. unfold metadata_do_insert.
  rewrite (proj2 (Z.eqb_eq (alloc_list s) 0) (lo_head _ _ Hok)).
  wp_step. eapply wp_modify; [done.. |]. intros s1 HN1 F1 A1 O1.
  cbn in HN1, F1, A1, O1.
  eapply (wp_modify _ _ _ (with_prev m dm)); [done | node_lookup |]. intros s2 HN2 F2 A2 O2.
  assert (Hn2 : forall y, nodes s2 !! y = relink m m m y <$> nodes s !! y).
  { intros y. unfold relink. rewrite HN2, HN1.
    repeat case_decide; subst; rewrite ?Hdm; try done.
    all: by destruct (nodes s !! y) as [[]|]. }
  pose proof (relink_same _ _ _ _ _ Hn2) as Hsame.
  split; [exists [], []; split; [done |] | split; [done |]].
  + split; cbn; [| congruence | apply NoDup_singleton | | |].
    * repeat constructor. exists (relink m m m m dm), (relink m m m m dm). cbn.
      rewrite Hn2, Hdm. cbn. split_and!; repeat case_decide; congruence.
    * repeat constructor; [done |]. rewrite (same_ranges_some (nodes s)) by done. by exists dm.
    * apply Forall_singleton. by rewrite (range_of_same (nodes s)) by done.
    * repeat constructor.
  + split; [| split; congruence]. intros y Hy. rewrite HN2, HN1.
    apply not_elem_of_cons in Hy as [? _]. by rewrite !decide_False by done.
Qed.

Lemma insert_before_ok s l1 c l2 m dm :
  list_ok s (l1 ++ c :: l2) -> m ∉ l1 ++ c :: l2 -> m <> 0 -> nodes s !! m = Some dm ->
  range_ok (range_of (nodes s) m) ->
  Forall (apart (range_of (nodes s) m)) (tracked (nodes s) (l1 ++ c :: l2)) ->
  Forall (fun r => r.1 < addr dm + length_ dm) (tracked (nodes s) l1) ->
  addr dm + length_ dm <= (range_of (nodes s) c).1 ->
  wp (let! s := modify s m (with_next c) in
      let! d := load s c in
      let! s := modify s m (with_prev (prev d)) in
      let! d := load s c in
      let! s := modify s (prev d) (with_next m) in
      let! s := modify s c (with_prev m) in
      Ok (if c =? alloc_list s then set_alloc_list s m else s))
    (inserted s (l1 ++ c :: l2) m).
Proof.
  intros Hok Hml Hm0 Hdm Hrm Hap Hl1 Hc. assert (Hm : is_Some (nodes s !! m)) by (by exists dm).
  assert (Erm : range_of (nodes s) m = (addr dm, addr dm + length_ dm))
    by (unfold range_of; by rewrite Hdm).
  pose proof (lo_head _ _ Hok) as Hx.
  destruct (spliced_at l1 c l2 m) as [q Hsp].
  destruct (spliced_elem _ _ _ _ _ Hsp) as [Hqin Hcin].
  destruct (spliced_linked _ _ _ _ _ _ (lo_ring _ _ Hok) Hsp) as (dq & dc & Hdq & Hdc & _ & Hq).
  cbn in Hdq, Hdc, Hq.
  destruct (list_ok_elem s _ q Hok Hqin) as (dq' & Hq0 & _ & _ & _).
  destruct (list_ok_elem s _ c Hok Hcin) as (dc' & Hc0 & Hdc' & Erc & Hrc).
  rewrite Hdc in Hdc'. injection Hdc' as <-.
  assert (Hsafe : m <> q /\ m <> c) by (split; intros ->; contradiction).
  apply (splice_before_wp s q c m dq dc dm); try done; try apply Hsafe.
  intros s' (HN & F' & A' & O'). wp_step.
  assert (Hb1 : Forall (fun r => before r (range_of (nodes s) m)) (tracked (nodes s) l1)).
  { pose proof (lo_ranges _ _ Hok) as Hr. rewrite tracked_app in Hr, Hap.
    apply Forall_app in Hr as [Hr _], Hap as [Hap1 _]. rewrite Forall_forall in *.
    intros r Hin. rewrite Erm in *. apply apart_before; [done | by apply Hap1 |].
    cbn. by apply Hl1. }
  assert (Hb2 : Forall (before (range_of (nodes s) m)) (tracked (nodes s) (c :: l2))).
  { pose proof (sorted_around s l1 c l2 Hok) as [_ Hb]. constructor.
    - rewrite Erm. unfold before. cbn. lia.
    - eapply Forall_impl; [done |]. rewrite Erm, Erc in *. unfold before.
      intros r. cbn. destruct Hrc as [[? ?] _]. cbn in *. lia. }
  destruct (Z.eqb_spec c (alloc_list s')) as [Eh | Eh].
  * eapply (inserted_intro s _ m Hok Hml Hm0 Hm Hrm Hap _ q c l1 (c :: l2)); try done.
    cbn. destruct l1 as [|y l1]; [done |]. cbn in Hx.
    exfalso. pose proof (lo_nodup _ _ Hok) as Hnd. apply NoDup_cons in Hnd as [Hnd _].
    apply Hnd. rewrite Eh, A', Hx in *. apply elem_of_mid.
  * eapply (inserted_intro s _ m Hok Hml Hm0 Hm Hrm Hap _ q c l1 (c :: l2)); try done.
    rewrite A', Hx in *. destruct l1 as [|y l1]; cbn in *; congruence.
Qed.

Lemma do_insert_ok s l m :
  list_ok s l -> m ∉ l -> m <> 0 -> is_Some (nodes s !! m) -> range_ok (range_of (nodes s) m) ->
  Forall (apart (range_of (nodes s) m)) (tracked (nodes s) l) ->
  wp (metadata_do_insert s m) (inserted s l m).
Proof.
  intros Hok Hml Hm0 Hm Hrm Hap. pose proof Hm as [dm Hdm]. unfold metadata_do_insert.
  assert (Erm : range_of (nodes s) m = (addr dm, addr dm + length_ dm))
    by (unfold range_of; by rewrite Hdm).
  destruct l as [|x l'] eqn:El.
  - (* the list is empty *)
    by apply (insert_empty_ok s m dm).
  - destruct (list_ok_elem s (x :: l') x Hok) as (dx & Hx0 & Hdx & Erx & Hrx); [left |].
    destruct (ring_prev_head _ _ _ (lo_ring _ _ Hok)) as (dx' & Hdx' & Hpx).
    rewrite Hdx in Hdx'. injection Hdx' as <-.
    set (p := last_of x l') in *. pose proof (last_of_elem x l' : p ∈ x :: l') as Hpin.
    destruct (list_ok_elem s (x :: l') p Hok Hpin) as (dp & Hp0 & Hdp & Erp & Hrp).
    pose proof (lo_head _ _ Hok : alloc_list s = x) as Hx.
    rewrite (proj2 (Z.eqb_neq (alloc_list s) 0)) by congruence.
    assert (Hmx : m <> x) by (intros ->; apply Hml; left).
    assert (Hmp : m <> p) by (intros E; apply Hml; by rewrite E).
    wp_step. eapply (wp_load _ _ dx); [congruence | congruence |]. rewrite Hpx.
    wp_step. eapply (wp_high _ _ dp); [done.. |].
    wp_step. eapply wp_low; [done.. |].
    destruct (Z.leb_spec (addr dp + length_ dp) (addr dm)) as [Hend | Hmid].
    + apply (splice_after_wp s p x m dp dx dm); try done. intros s' (HN & F' & A' & O').
      apply (inserted_intro s (x :: l') m Hok Hml Hm0 Hm Hrm Hap s' p x (x :: l') []); [by rewrite app_nil_r | apply spliced_back | done | | done | done | | constructor].
      * by rewrite A'.
      * rewrite Erm. eapply Forall_impl; [apply all_end_before_last, Hok |]. fold p.
        rewrite Erp. unfold before. cbn. lia.
    + wp_step. eapply (wp_high _ _ dm); [done | done | by rewrite <- Erm |]. wp_step.
      eapply wp_mono.
      { apply (insert_scan_ok s (x :: l') m Hok Hml Hm0 Hm Hrm Hap).
        exists (range_of (nodes s) p). split; [apply list_elem_of_fmap; by exists p |].
        rewrite Forall_forall in Hap. specialize (Hap (range_of (nodes s) p)
          ltac:(apply list_elem_of_fmap; by exists p)).
        rewrite Erm, Erp in *. unfold apart, before in Hap. cbn in *. lia. }
      intros c (l1 & l2 & Ec & Hl1 & Hc). clear El. rewrite Ec in *.
      by apply (insert_before_ok s l1 c l2 m dm).
Qed.

(** ** Removal *)

Lemma spliced_links N l p c m l' :
  ring N l' -> spliced l p c m l' -> linked N (p, m) /\ linked N (m, c).
Proof.
  intros Hr (E & _ & HE). unfold ring in Hr. rewrite HE in Hr.
  apply Forall_cons in Hr as [? Hr]. by apply Forall_cons in Hr as [? _].
Qed.

Section Unlink.
Variables (s : alloc_t) (p n c : Z) (dp dn dc : memory_metadata_t).
Hypotheses (Hp0 : p <> 0) (Hn0 : n <> 0) (Hc0 : c <> 0) (Hcp : c <> p) (Hcn : c <> n)
  (Hp : nodes s !! p = Some dp) (Hn : nodes s !! n = Some dn) (Hc : nodes s !! c = Some dc)
  (Hprev : prev dc = p) (Hnext : next dc = n).

Definition unlinked (s' : alloc_t) : Prop :=
  (forall x, x <> c -> nodes s' !! x = unlink p n x <$> nodes s !! x) /\
  same_ranges (nodes s) (nodes s') /\
  alloc_list s' = (if c =? alloc_list s then n else alloc_list s) /\
  free_list s' = free_list s /\ os s' = os s.

Lemma unlink_wp (Q : Z * alloc_t -> Prop) :
  (forall s', unlinked s' -> Q (c, s')) ->
  wp (let! d := load s c in
      let! s := modify s (next d) (with_prev (prev d)) in
      let! d := load s c in
      let! s := modify s (prev d) (with_next (next d)) in
      let! d := load s c in
      let s := if c =? alloc_list s then set_alloc_list s (next d) else s in
      let! s := modify s c (with_prev 0) in
      let! s := modify s c (with_next 0) in
      Ok (c, s)) Q.
Proof using All.
  intros HQ. assert (Hdd : p = n -> dp = dn) by (intros E; rewrite E, Hn in Hp; congruence).
  wp_step. eapply wp_load; [done.. |]. rewrite Hprev, Hnext.
  wp_step. eapply wp_modify; [done.. |]. intros s1 HN1 F1 A1 O1.
  wp_step. eapply (wp_load _ _ dc); [done | node_lookup |]. rewrite Hprev, Hnext.
  wp_step. eapply (wp_modify _ _ _ (if decide (p = n) then with_prev p dn else dp));
    [done | node_lookup |]. intros s2 HN2 F2 A2 O2.
  wp_step. eapply (wp_load _ _ dc); [done | node_lookup |]. rewrite Hnext.
  set (s3 := if c =? alloc_list s2 then set_alloc_list s2 n else s2).
  assert (HN3 : nodes s3 = nodes s2 /\ free_list s3 = free_list s2 /\ os s3 = os s2)
    by (unfold s3; by destruct (c =? alloc_list s2)).
  destruct HN3 as (N3 & F3 & O3).
  wp_step. eapply (wp_modify _ _ _ dc); [done | rewrite N3; node_lookup |]. intros s4 HN4 F4 A4 O4.
  wp_step. eapply (wp_modify _ _ _ (with_prev 0 dc)); [done | node_lookup |]. intros s5 HN5 F5 A5 O5.
  wp_step. apply HQ. split; [| split; [| split; [| split; congruence]]].
  - intros x Hx. rewrite HN5, HN4, N3, HN2, HN1. unfold unlink.
    repeat case_decide; subst; simplify_eq; rewrite ?Hp, ?Hn; try done.
    all: try by destruct (nodes s !! x) as [[]|].
    by rewrite Hdd by congruence.
  - intros x. rewrite HN5, HN4, N3, HN2, HN1.
    repeat case_decide; subst; simplify_eq; rewrite ?Hp, ?Hn, ?Hc; try done.
    by rewrite Hdd by congruence.
  - rewrite A5, A4. unfold s3. replace (alloc_list s2) with (alloc_list s) by congruence.
    destruct (c =? alloc_list s); [done | congruence].
Qed.
End Unlink.

Section Remove.
Variables (s : alloc_t) (l : list Z).
Hypothesis (Hok : list_ok s l).

Lemma remove_scan_ok c dc :
  c ∈ l -> nodes s !! c = Some dc ->
  wp (loop (walk_fuel s) (remove_scan s (addr dc)) (alloc_list s)) (fun c' => c' = c).
Proof using Hok.
  intros Hc Hdc. pose proof (length_nodes s l Hok) as Hlen.
  apply (wp_loop_rel (fun n x => exists l1 l2, l = l1 ++ x :: l2 /\ length l2 = n /\ c ∈ x :: l2)
    (length l - 1)%nat).
  - rewrite (lo_head _ _ Hok). destruct l as [|x l']; [by apply not_elem_of_nil in Hc |].
    exists [], l'. cbn. split_and!; [done | lia | done].
  - unfold walk_fuel. lia.
  - intros n x (l1 & l2 & El & Hn & Hin). unfold remove_scan.
    assert (Hs : list_ok s (l1 ++ x :: l2)) by (by rewrite <- El).
    destruct (list_ok_elem s _ x Hs (elem_of_mid l1 x l2)) as (d & Hx0 & Hd & Er & Hr).
    wp_step. eapply wp_load; [done.. |].
    destruct (Z.eqb_spec (addr d) (addr dc)) as [Ea | Na]; cbn [negb].
    + wp_step. apply elem_of_cons in Hin as [-> | Hin]; [done |].
      pose proof (sorted_around s l1 x l2 Hs) as [_ Hb]. rewrite Forall_forall in Hb.
      specialize (Hb (range_of (nodes s) c) ltac:(apply list_elem_of_fmap; by exists c)).
      rewrite Er in Hb. unfold range_of in Hb. rewrite Hdc in Hb. unfold before in Hb. cbn in *.
      destruct Hr as [[? ?] _]. cbn in *. lia.
    + wp_step. apply elem_of_cons in Hin as [-> | Hin]; [congruence |].
      destruct (ring_next _ (alloc_list s) l1 l2 x (lo_ring _ _ Hs)) as (d' & Hd' & Hn');
        [by rewrite (lo_head _ _ Hs) |].
      rewrite Hd in Hd'. injection Hd' as <-. destruct l2 as [|y l2]; [by apply not_elem_of_nil in Hin |].
      cbn in Hn'. exists (length l2). split; [cbn in Hn; lia |].
      exists (l1 ++ [x]), l2. by rewrite <- app_assoc, Hn'.
Qed.

Lemma removed_list_ok s' p n l1 c l2 dc :
  l = l1 ++ c :: l2 -> l1 ++ l2 <> [] -> spliced (l1 ++ l2) p n c (l1 ++ c :: l2) ->
  nodes s !! c = Some dc -> next dc = n ->
  (forall x, x <> c -> nodes s' !! x = unlink p n x <$> nodes s !! x) ->
  same_ranges (nodes s) (nodes s') ->
  alloc_list s' = (if c =? alloc_list s then n else alloc_list s) ->
  list_ok s' (l1 ++ l2).
Proof using Hok.
  intros El Hne Hsp Hdc Hcn HN Hsame A'.
  pose proof Hok as [Hring Hhead Hnd Hin Hr Hs]. subst l. split.
  - by eapply (ring_unsplice (nodes s)).
  - rewrite A', Hhead. destruct (ring_next _ _ l1 l2 c Hring eq_refl) as (d & Hd & Hn).
    rewrite Hdc in Hd. injection Hd as <-. destruct l1 as [|x l1]; cbn in *.
    + rewrite Z.eqb_refl. destruct l2; [done |]. cbn in *. congruence.
    + apply NoDup_cons in Hnd as [Hx _]. destruct (Z.eqb_spec c x) as [-> |]; [| done].
      exfalso. apply Hx, elem_of_mid.
  - rewrite <- Permutation_middle in Hnd. by apply NoDup_cons in Hnd as [_ ?].
  - rewrite Forall_app, Forall_cons in Hin. destruct Hin as (H1 & _ & H2). apply Forall_app.
    split; (eapply Forall_impl; [done |]); intros x [? ?]; split; try done;
      by apply (same_ranges_some (nodes s)).
  - rewrite (tracked_same (nodes s)) by done. rewrite tracked_app in Hr |- *.
    apply Forall_app in Hr as [? Hr]. apply Forall_cons in Hr as [_ Hr]. by apply Forall_app.
  - rewrite (tracked_same (nodes s)) by done. rewrite tracked_app in Hs |- *.
    apply StronglySorted_app in Hs as (H & ? & Hs). apply StronglySorted_inv in Hs as [? _].
    apply StronglySorted_app. split_and!; [| done..]. intros x y Hx Hy. apply H; [done | by right].
Qed.

End Remove.

Lemma remove_ok s l l1 c l2 dc :
  list_ok s l -> l = l1 ++ c :: l2 -> l1 ++ l2 <> [] -> nodes s !! c = Some dc ->
  wp (metadata_remove s (addr dc)) (fun '(c', s') =>
    c' = c /\ list_ok s' (l1 ++ l2) /\ same_ranges (nodes s) (nodes s') /\
    (forall x, x ∉ l -> nodes s' !! x = nodes s !! x) /\
    free_list s' = free_list s /\ os s' = os s).
Proof.
  intros Hok El Hne Hdc. assert (Hc : c ∈ l) by (rewrite El; apply elem_of_mid).
  unfold metadata_remove. wp_step.
  assert (Ha0 : alloc_list s <> 0).
  { rewrite (lo_head _ _ Hok). destruct (list_ok_elem s l (hd 0 l) Hok) as (? & ? & _); [| done].
    destruct l; [by apply not_elem_of_nil in Hc | left]. }
  wp_step; [by apply Z.eqb_neq in Ha0 as -> |].
  wp_step. eapply wp_mono; [by apply (remove_scan_ok s l) |]. intros ? ->.
  destruct (list_ok_elem s l c Hok Hc) as (dc' & Hc0 & Hdc' & _). rewrite Hdc in Hdc'.
  injection Hdc' as <-. apply Z.eqb_neq in Hc0 as Hc0'. rewrite Hc0'. subst l.
  destruct (spliced_out l1 c l2 Hne) as (p & n & Hsp).
  destruct (spliced_elem _ _ _ _ _ Hsp) as [Hpin Hnin].
  destruct (spliced_links _ _ _ _ _ _ (lo_ring _ _ Hok) Hsp)
    as [(dp & dc' & Hdp & Hdc' & _ & Hpc) (dc'' & dn & Hdc'' & Hdn & Hcn & _)].
  cbn in *. rewrite Hdc in Hdc', Hdc''. injection Hdc' as <-. injection Hdc'' as <-.
  pose proof (lo_nodup _ _ Hok) as Hnd. rewrite <- Permutation_middle in Hnd.
  apply NoDup_cons in Hnd as [Hcl Hnd].
  assert (Hsub : forall x, x ∈ l1 ++ l2 -> x ∈ l1 ++ c :: l2)
    by (intros x; rewrite !elem_of_app, elem_of_cons; tauto).
  destruct (list_ok_elem s _ p Hok (Hsub _ Hpin)) as (? & Hp0 & _).
  destruct (list_ok_elem s _ n Hok (Hsub _ Hnin)) as (? & Hn0 & _).
  apply (unlink_wp s p n c dp dn dc); try done; try (intros ->; contradiction).
  intros s' (HN & Hsame & A' & F' & O'). split; [done |].
  split; [| split; [done | split; [| done]]].
  - by apply (removed_list_ok s (l1 ++ c :: l2) Hok s' p n l1 c l2 dc).
  - intros y Hy. assert (y <> c) by (intros ->; contradiction). rewrite HN by done.
    assert (y <> p /\ y <> n) as [? ?] by (split; intros ->; apply Hy; auto).
    destruct (nodes s !! y) as [[]|]; [| done]. cbn. unfold unlink.
    by rewrite !decide_False by done.
Qed.

(** * The allocator's state *)

(** [p] leads through the [next] fields to the nodes of [fl] and then to
    [NULL]. *)
Fixpoint free_chain (N : gmap Z memory_metadata_t) (p : Z) (fl : list Z) : Prop :=
  match fl with
  | [] => p = 0
  | q :: fl' => p = q /\ q <> 0 /\ exists d, N !! q = Some d /\ free_chain N (next d) fl'
  end.

(** The node [q] lies at the start of the page it describes. *)
Definition owns_page (N : gmap Z memory_metadata_t) (q : Z) : Prop :=
  (fun d => (addr d, length_ d)) <$> N !! q = Some (q, ALLOC_BLOCKSIZE).

(** The allocated list is [l], the free list [fl]; they share no node, and
    every node lies in a page that is itself on the allocated list. *)
Record alloc_inv (s : alloc_t) (l fl : list Z) : Prop := {
  ai_list : list_ok s l;
  ai_nodup : NoDup (l ++ fl);
  ai_free : free_chain (nodes s) (free_list s) fl;
  ai_home : forall p, is_Some (nodes s !! p) ->
    exists q, q ∈ l /\ owns_page (nodes s) q /\ q <= p /\ p + sizeof_metadata <= q + ALLOC_BLOCKSIZE }.

(** What [mmap] promises: a block of the size asked for, in memory that is
    not in use. *)
Definition fresh_block (T : list (Z * Z)) (size p : Z) : Prop :=
  0 < p /\ p + size < 2 ^ 64 /\ Forall (apart (p, p + size)) T.

Lemma edges_elem l e : e ∈ edges l -> e.1 ∈ l /\ e.2 ∈ l.
Proof.
  intros H. split.
  - rewrite <- (edges_fst l). apply list_elem_of_fmap. by exists e.
  - rewrite <- (edges_snd l). apply list_elem_of_fmap. by exists e.
Qed.

Lemma list_ok_frame s s' l :
  list_ok s l -> alloc_list s' = alloc_list s -> (forall x, x ∈ l -> nodes s' !! x = nodes s !! x) ->
  list_ok s' l.
Proof.
  intros [Hring Hhead Hnd Hin Hr Hs] HA HN.
  assert (HT : tracked (nodes s') l = tracked (nodes s) l).
  { apply list_fmap_ext. intros i x Hx. unfold range_of. rewrite HN; [done |].
    by eapply list_elem_of_lookup_2. }
  split; rewrite ?HA, ?HT; try done.
  - unfold ring, linked in *. rewrite Forall_forall in *. intros e He.
    destruct (edges_elem _ _ He). rewrite !HN by done. by apply Hring.
  - rewrite Forall_forall in *. intros x Hx. rewrite HN by done. by apply Hin.
Qed.

Lemma tracked_frame N N' l :
  (forall x, x ∈ l -> N' !! x = N !! x) -> tracked N' l = tracked N l.
Proof.
  intros H. apply list_fmap_ext. intros i x Hx. unfold range_of. rewrite H; [done |].
  by eapply list_elem_of_lookup_2.
Qed.

Lemma free_chain_frame N N' p fl :
  free_chain N p fl -> (forall x, x ∈ fl -> N' !! x = N !! x) -> free_chain N' p fl.
Proof.
  revert p. induction fl as [|q fl IH]; intros p Hc HN; [done |].
  destruct Hc as (-> & Hq & d & Hd & Hc). do 2 (split; [done |]). exists d.
  rewrite HN by left. split; [done |]. apply IH; [done |]. intros x Hx. apply HN. by right.
Qed.

Lemma free_chain_some N p fl q : free_chain N p fl -> q ∈ fl -> q <> 0 /\ is_Some (N !! q).
Proof.
  revert p. induction fl as [|r fl IH]; intros p Hc Hq; [by apply not_elem_of_nil in Hq |].
  destruct Hc as (-> & Hr & d & Hd & Hc). apply elem_of_cons in Hq as [-> | Hq]; [by split |].
  by apply (IH (next d)).
Qed.

Lemma page_slots_spec p q :
  q ∈ page_slots p <-> exists k, 0 <= k < 102 /\ q = p + sizeof_metadata * k.
Proof.
  unfold page_slots. rewrite list_elem_of_fmap. split.
  - intros (n & -> & Hn). apply elem_of_seq in Hn. exists (Z.of_nat n).
    change (Z.to_nat (ALLOC_BLOCKSIZE / sizeof_metadata)) with 102%nat in Hn. split; [lia | done].
  - intros (k & Hk & ->). exists (Z.to_nat k). rewrite Z2Nat.id by lia. split; [done |].
    apply elem_of_seq. change (Z.to_nat (ALLOC_BLOCKSIZE / sizeof_metadata)) with 102%nat. lia.
Qed.

Lemma fresh_nodes_lookup p q :
  fresh_nodes p !! q = if decide (q ∈ page_slots p) then Some zero_node else None.
Proof.
  unfold fresh_nodes. case_decide as H.
  - apply elem_of_list_to_map_1'.
    + intros y Hy. apply list_elem_of_fmap in Hy as (r & [= _ ->] & _). done.
    + apply list_elem_of_fmap. by exists q.
  - apply not_elem_of_list_to_map_1. intros Hin. apply H.
    rewrite <- list_fmap_compose in Hin. apply list_elem_of_fmap in Hin as (r & -> & Hr). done.
Qed.

(** No node lies in, or reaches into, a block [mmap] has just handed out. *)
Lemma fresh_empty s l fl size p q :
  alloc_inv s l fl -> fresh_block (tracked (nodes s) l) size p ->
  p - sizeof_metadata < q < p + size -> nodes s !! q = None.
Proof.
  intros Hinv Hfresh Hq. destruct (nodes s !! q) eqn:E; [| done]. exfalso.
  destruct (ai_home _ _ _ Hinv q ltac:(by eexists)) as (r & Hr & Hown & H1 & H2).
  apply fmap_Some in Hown as (d & Hd & [= Ha Hl]).
  destruct Hfresh as (_ & _ & Hap). rewrite Forall_forall in Hap.
  specialize (Hap (range_of (nodes s) r) ltac:(apply list_elem_of_fmap; by exists r)).
  unfold range_of in Hap. rewrite Hd, <- Ha, <- Hl in Hap. unfold apart, before in Hap. cbn in Hap.
  unfold sizeof_metadata in *. lia.
Qed.

Section Refill.
Variables (s : alloc_t) (l : list Z) (p : Z).
Hypotheses (Hinv : alloc_inv s l []) (Hfresh : fresh_block (tracked (nodes s) l) ALLOC_BLOCKSIZE p).

Lemma fresh_page_empty q : p - sizeof_metadata < q < p + ALLOC_BLOCKSIZE -> nodes s !! q = None.
Proof using All. by apply (fresh_empty s l [] ALLOC_BLOCKSIZE p). Qed.

Lemma fresh_not_in q : p - sizeof_metadata < q < p + ALLOC_BLOCKSIZE -> q ∉ l.
Proof using All.
  intros Hq Hin. apply fresh_page_empty in Hq.
  destruct (list_ok_elem _ _ _ (ai_list _ _ _ Hinv) Hin) as (d & _ & Hd & _). congruence.
Qed.

(** Linking the slots of the page into the free list, with the allocated
    list [l'] in place. *)
Definition slots_linked (s2 : alloc_t) (l' : list Z) (k : Z) (t : alloc_t) : Prop :=
  (forall x, x ∈ l' -> nodes t !! x = nodes s2 !! x) /\
  (forall x, is_Some (nodes t !! x) <-> is_Some (nodes s2 !! x)) /\
  alloc_list t = alloc_list s2 /\ os t = os s2 /\
  exists fl, free_chain (nodes t) (free_list t) fl /\ NoDup fl /\ zlen fl = k - 1 /\
    forall x, x ∈ fl -> exists j, 1 <= j < k /\ x = p + sizeof_metadata * j.

Lemma free_slots_ok s2 l' :
  (forall j, 1 <= j <= last_slot -> (p + sizeof_metadata * j ∉ l') /\
     is_Some (nodes s2 !! (p + sizeof_metadata * j))) ->
  free_list s2 = 0 ->
  wp (for_range 1 (last_slot + 1) (free_slot p) s2) (slots_linked s2 l' (last_slot + 1)).
Proof using All.
  intros Hslots Hf. destruct Hfresh as (Hp0 & _ & _).
  apply (wp_for_range (slots_linked s2 l')); [done | | | done].
  - split_and!; [done..|]. exists []. cbn. rewrite Hf. split_and!; [done | constructor | done |].
    intros x Hx. by apply not_elem_of_nil in Hx.
  - intros k t Hk (H1 & H2 & H3 & H4 & fl & Hfl & Hnd & Hz & Hin). unfold free_slot.
    destruct (Hslots k ltac:(lia)) as [Hnl Hs2]. apply H2 in Hs2 as Hs. destruct Hs as [d Hd].
    assert (Hk0 : p + sizeof_metadata * k <> 0) by (unfold sizeof_metadata; lia).
    assert (Hkfl : p + sizeof_metadata * k ∉ fl)
      by (intros (j & Hj & E)%Hin; unfold sizeof_metadata in E; lia).
    wp_step. eapply wp_modify; [done.. |]. intros t' HN F A O. wp_step.
    split_and!; cbn; [| | congruence | congruence |].
    + intros x Hx. rewrite HN, decide_False by (by intros ->). by apply H1.
    + intros x. rewrite HN, <- H2. case_decide as E; [subst x; rewrite Hd; split; eauto | done].
    + exists (p + sizeof_metadata * k :: fl). cbn. split; [| split; [| split]].
      * split; [done |]. split; [done |]. exists (with_next (free_list t) d).
        rewrite HN, decide_True by done. split; [done |]. cbn.
        eapply free_chain_frame; [done |]. intros x Hx. rewrite HN.
        by rewrite decide_False by (by intros ->).
      * by constructor.
      * rewrite zlen_cons. lia.
      * intros x [-> | Hx]%elem_of_cons; [exists k; split; [lia | done] |].
        destruct (Hin x Hx) as (j & ? & ?). exists j. split; [lia | done].
Qed.
End Refill.

(** The page's own node, before it is inserted. *)
Lemma page_node_ok s l p :
  alloc_inv s l [] -> fresh_block (tracked (nodes s) l) ALLOC_BLOCKSIZE p ->
  forall (k : alloc_t -> res alloc_t) (Q : alloc_t -> Prop),
  (forall s', list_ok s' l -> tracked (nodes s') l = tracked (nodes s) l ->
     owns_page (nodes s') p ->
     (forall x, is_Some (nodes s' !! x) <-> is_Some (nodes s !! x) \/ x ∈ page_slots p) ->
     (forall x, x ∈ l -> nodes s' !! x = nodes s !! x) ->
     free_list s' = free_list s -> os s' = os s -> wp (k s') Q) ->
  wp (let s := set_nodes s (fresh_nodes p ∪ nodes s) in
      let! s := modify s p (with_addr p) in
      let! s := modify s p (with_length ALLOC_BLOCKSIZE) in k s) Q.
Proof.
  intros Hinv Hfresh k Q HQ. pose proof Hfresh as (Hp0 & _ & _).
  assert (Hpslot : p ∈ page_slots p)
    by (apply page_slots_spec; exists 0; unfold sizeof_metadata; lia).
  assert (Hlk : forall x, (fresh_nodes p ∪ nodes s) !! x =
      if decide (x ∈ page_slots p) then Some zero_node else nodes s !! x).
  { intros x. rewrite lookup_union, fresh_nodes_lookup.
    case_decide; [by destruct (nodes s !! x) | by destruct (nodes s !! x)]. }
  assert (Hout : forall x, x ∈ l -> x ∉ page_slots p).
  { intros x Hx (j & Hj & ->)%page_slots_spec. revert Hx.
    apply (fresh_not_in s l p Hinv Hfresh). unfold sizeof_metadata, ALLOC_BLOCKSIZE, PAGESIZE. lia. }
  wp_step. eapply (wp_modify _ _ _ zero_node); [lia | cbn; by rewrite Hlk, decide_True |].
  intros s1 HN1 F1 A1 O1. cbn in HN1, F1, A1, O1.
  wp_step. eapply (wp_modify _ _ _ (with_addr p zero_node)); [lia | by rewrite HN1, decide_True |].
  intros s2 HN2 F2 A2 O2.
  assert (Hl : forall x, x ∈ l -> nodes s2 !! x = nodes s !! x).
  { intros x Hx. assert (x <> p) by (intros ->; by apply (Hout p)).
    rewrite HN2, decide_False, HN1, decide_False, Hlk, decide_False by auto. done. }
  apply HQ; [| by apply tracked_frame | | | done | congruence | congruence].
  - apply (list_ok_frame s); [apply Hinv | congruence | done].
  - unfold owns_page. by rewrite HN2, decide_True by done.
  - intros x. rewrite HN2, HN1, Hlk. destruct (decide (x ∈ page_slots p)) as [Hx | Hx].
    + split; [by right |]. intros _. repeat case_decide; by eexists.
    + rewrite !decide_False by (intros ->; contradiction). tauto.
Qed.

Lemma fresh_block_os s s' l size p :
  nodes s' = nodes s -> fresh_block (tracked (nodes s) l) size p ->
  fresh_block (tracked (nodes s') l) size p.
Proof. by intros ->. Qed.

Lemma alloc_inv_os s l fl rest :
  alloc_inv s l fl -> alloc_inv (mk_alloc (nodes s) (free_list s) (alloc_list s) rest) l fl.
Proof. intros [[] ? ? ?]. by repeat split. Qed.

(** The state after the page's own node is inserted ([s2]) and its slots are
    linked ([t]). *)
Lemma refilled_inv s l p s1 s2 l1 l2 t :
  alloc_inv s l [] -> fresh_block (tracked (nodes s) l) ALLOC_BLOCKSIZE p ->
  owns_page (nodes s1) p ->
  (forall x, is_Some (nodes s1 !! x) <-> is_Some (nodes s !! x) \/ x ∈ page_slots p) ->
  (forall x, x ∈ l -> nodes s1 !! x = nodes s !! x) ->
  l = l1 ++ l2 -> list_ok s2 (l1 ++ p :: l2) -> same_ranges (nodes s1) (nodes s2) ->
  slots_linked p s2 (l1 ++ p :: l2) (last_slot + 1) t ->
  exists fl, alloc_inv t (l1 ++ p :: l2) fl /\ fl <> [] /\
    tracked (nodes t) (l1 ++ p :: l2) ≡ₚ (p, p + ALLOC_BLOCKSIZE) :: tracked (nodes s) l.
Proof.
  intros Hinv Hfresh Hown Hdom Hl El Hok2 Hsame (H1 & H2 & H3 & H4 & fl & Hfl & Hnd & Hz & Hin).
  assert (Hs : forall x, x ∈ l1 ++ p :: l2 ->
      (fun d => (addr d, length_ d)) <$> nodes t !! x = (fun d => (addr d, length_ d)) <$> nodes s1 !! x)
    by (intros x Hx; by rewrite H1, Hsame).
  assert (Hsub : forall x, x ∈ l -> x ∈ l1 ++ p :: l2)
    by (subst l; intros x; rewrite !elem_of_app, elem_of_cons; tauto).
  exists fl. split; [split | split].
  - by apply (list_ok_frame s2).
  - apply NoDup_app. split; [apply Hok2 | split; [| done]]. intros x Hx (j & Hj & ->)%Hin.
    change last_slot with 101 in Hj. unfold sizeof_metadata in Hx. rewrite elem_of_app, elem_of_cons in Hx.
    apply (fresh_not_in s l p Hinv Hfresh (p + 40 * j));
      [unfold sizeof_metadata, ALLOC_BLOCKSIZE, PAGESIZE; lia |].
    subst l. apply elem_of_app. destruct Hx as [? | [? | ?]]; [tauto | lia | tauto].
  - done.
  - intros x Hx. apply H2, (same_ranges_some (nodes s1)), Hdom in Hx; [| done].
    destruct Hx as [Hx | (k & Hk & ->)%page_slots_spec].
    + destruct (ai_home _ _ _ Hinv x Hx) as (q & Hq & Hoq & Hb). exists q.
      split; [by apply Hsub |]. split; [| done]. unfold owns_page. by rewrite Hs, Hl by auto.
    + exists p. split; [apply elem_of_mid |]. split; [unfold owns_page; by rewrite Hs by apply elem_of_mid |].
      unfold sizeof_metadata, ALLOC_BLOCKSIZE, PAGESIZE. lia.
  - intros ->. done.
  - rewrite (tracked_frame (nodes s2)) by done. rewrite (tracked_same (nodes s1)) by done.
    rewrite tracked_app, tracked_cons, <- Permutation_middle, <- tracked_app.
    apply fmap_Some in Hown as (d & Hd & [= Ha Hlen]).
    assert (Er : range_of (nodes s1) p = (p, p + ALLOC_BLOCKSIZE))
      by (unfold range_of; rewrite Hd; congruence).
    rewrite Er, <- El. by rewrite (tracked_frame (nodes s)) by done.
Qed.

Lemma refill_ok s l p rest :
  alloc_inv s l [] -> os s = p :: rest ->
  fresh_block (tracked (nodes s) l) ALLOC_BLOCKSIZE p ->
  wp (metadata_refill s) (fun s' => exists l' fl, alloc_inv s' l' fl /\ fl <> [] /\ os s' = rest /\
    tracked (nodes s') l' ≡ₚ (p, p + ALLOC_BLOCKSIZE) :: tracked (nodes s) l).
Proof.
  intros Hinv Hos Hfresh. pose proof Hfresh as (Hp0 & Hp1 & Hap). unfold metadata_refill.
  unfold mmap_wrap. rewrite Hos. unfold MAP_FAILED, ALLOC_BLOCKSIZE, PAGESIZE in Hp1.
  rewrite (proj2 (Z.eqb_neq p _)) by (unfold MAP_FAILED; lia). wp_step. wp_step.
  wp_step; [by rewrite (proj2 (Z.eqb_neq p 0)) by lia |]. wp_step.
  set (s0 := mk_alloc (nodes s) (free_list s) (alloc_list s) rest).
  pose proof (alloc_inv_os _ _ _ rest Hinv : alloc_inv s0 l []) as Hinv0.
  apply (page_node_ok s0 l p); [done | by apply (fresh_block_os s) |].
  intros s1 Hok1 HT1 Hown Hdom Hl HF1 HO1.
  assert (Hpl : p ∉ l) by (apply (fresh_not_in s l p Hinv Hfresh);
    unfold sizeof_metadata, ALLOC_BLOCKSIZE, PAGESIZE; lia).
  pose proof Hown as Hown'. apply fmap_Some in Hown' as (d & Hd & [= Ha Hlen]).
  assert (Er : range_of (nodes s1) p = (p, p + ALLOC_BLOCKSIZE))
    by (unfold range_of; rewrite Hd; congruence).
  wp_step. eapply wp_mono.
  { apply (do_insert_ok s1 l p Hok1 Hpl); [lia | by exists d | |]; rewrite Er.
    - unfold range_ok, ALLOC_BLOCKSIZE, PAGESIZE. cbn. lia.
    - by rewrite HT1. }
  intros s2 ((l1 & l2 & El & Hok2) & Hsame & Hout & HF2 & HO2).
  eapply wp_mono; [apply (free_slots_ok s l p Hinv Hfresh s2 (l1 ++ p :: l2)) |].
  - intros j Hj. change last_slot with 101 in Hj. split.
    + rewrite elem_of_app, elem_of_cons. intros Hx.
      apply (fresh_not_in s l p Hinv Hfresh (p + sizeof_metadata * j));
        [unfold sizeof_metadata, ALLOC_BLOCKSIZE, PAGESIZE; lia |].
      rewrite El. apply elem_of_app.
      destruct Hx as [? | [? | ?]]; [tauto | unfold sizeof_metadata in *; lia | tauto].
    + apply (same_ranges_some (nodes s1)); [done |]. apply Hdom. right.
      apply page_slots_spec. exists j. split; [lia | done].
  - rewrite HF2, HF1. apply (ai_free _ _ _ Hinv).
  - intros t Ht. pose proof Ht as (_ & _ & _ & HO & _).
    destruct (refilled_inv s l p s1 s2 l1 l2 t) as (fl & ? & ? & ?); try done.
    exists (l1 ++ p :: l2), fl. split_and!; try done. rewrite HO, HO2. done.
Qed.

(** ** The interface *)

(** The results [mmap] is to return for an allocation of [size] bytes: first
    a page for nodes if none is free, then the block itself, each in unused
    memory. *)
Definition mmap_grants (T : list (Z * Z)) (fl : list Z) (size : Z) (os_ : list Z)
    (pages : list (Z * Z)) (ptr : Z) (rest : list Z) : Prop :=
  match fl with
  | [] => exists p, os_ = p :: ptr :: rest /\ pages = [(p, p + ALLOC_BLOCKSIZE)] /\
            fresh_block T ALLOC_BLOCKSIZE p
  | _ => os_ = ptr :: rest /\ pages = []
  end /\ fresh_block (pages ++ T) size ptr.

Lemma metadata_new_ok s l fl pages os' :
  alloc_inv s l fl ->
  match fl with
  | [] => exists p, os s = p :: os' /\ pages = [(p, p + ALLOC_BLOCKSIZE)] /\
            fresh_block (tracked (nodes s) l) ALLOC_BLOCKSIZE p
  | _ => os s = os' /\ pages = []
  end ->
  wp (metadata_new s) (fun '(m, s') => exists l' fl', alloc_inv s' l' fl' /\
    m <> 0 /\ is_Some (nodes s' !! m) /\ (m ∉ l' ++ fl') /\ os s' = os' /\
    tracked (nodes s') l' ≡ₚ pages ++ tracked (nodes s) l).
Proof.
  intros Hinv Hos. unfold metadata_new.
  apply wp_bind. apply (wp_mono _ (fun s1 => exists l1 fl1, alloc_inv s1 l1 fl1 /\ fl1 <> [] /\
    os s1 = os' /\ tracked (nodes s1) l1 ≡ₚ pages ++ tracked (nodes s) l)).
  - pose proof (ai_free _ _ _ Hinv) as Hf. destruct fl as [|q fl].
    + cbn in Hf. rewrite Hf. destruct Hos as (p & Hos & -> & Hfresh). by eapply refill_ok.
    + destruct Hf as (-> & Hq0 & _). apply Z.eqb_neq in Hq0 as ->. destruct Hos as [? ->].
      wp_step. exists l, (q :: fl). by split_and!.
  - intros s1 (l1 & fl1 & Hinv1 & Hne & HO & HT). pose proof Hinv1 as [Hok Hnd Hf Hh].
    destruct fl1 as [|q fl1]; [done |]. destruct Hf as (Eq & Hq0 & d & Hd & Hf). rewrite Eq.
    wp_step. wp_step; [by apply Z.eqb_neq in Hq0 as -> |].
    wp_step. eapply wp_load; [done.. |]. wp_step.
    rewrite <- Permutation_middle in Hnd. apply NoDup_cons in Hnd as [Hq Hnd].
    exists l1, fl1. split_and!; try done.
    split; [by apply (list_ok_frame s1) | done..].
Qed.

Lemma wp_modify_free s l fl m f (Q : alloc_t -> Prop) :
  alloc_inv s l fl -> m <> 0 -> is_Some (nodes s !! m) -> (m ∉ l ++ fl) ->
  (forall s' d, nodes s !! m = Some d -> nodes s' !! m = Some (f d) -> alloc_inv s' l fl ->
     tracked (nodes s') l = tracked (nodes s) l -> free_list s' = free_list s -> os s' = os s ->
     Q s') ->
  wp (modify s m f) Q.
Proof.
  intros [Hok Hnd Hf Hh] Hm0 [d Hd] [Hml Hmf]%not_elem_of_app HQ.
  eapply wp_modify; [done.. |]. intros s' HN F A O.
  assert (Hl : forall x, x ∈ l -> nodes s' !! x = nodes s !! x)
    by (intros x Hx; rewrite HN, decide_False; [done | by intros ->]).
  apply (HQ s' d); [done | by rewrite HN, decide_True | | by apply tracked_frame | done | done].
  split.
  - by apply (list_ok_frame s).
  - done.
  - rewrite F. eapply free_chain_frame; [done |]. intros x Hx. rewrite HN, decide_False; [done |].
    by intros ->.
  - intros x Hx. assert (Hx' : is_Some (nodes s !! x)).
    { rewrite HN in Hx. destruct (decide (x = m)) as [-> |]; [by exists d | done]. }
    destruct (Hh x Hx') as (q & Hq & Ho & Hb). exists q. split; [done |]. split; [| done].
    unfold owns_page. by rewrite Hl.
Qed.

Lemma wp_set_os s l fl rest (Q : alloc_t -> Prop) :
  alloc_inv s l fl -> (alloc_inv (mk_alloc (nodes s) (free_list s) (alloc_list s) rest) l fl ->
     Q (mk_alloc (nodes s) (free_list s) (alloc_list s) rest)) ->
  Q (mk_alloc (nodes s) (free_list s) (alloc_list s) rest).
Proof. intros H HQ. by apply HQ, alloc_inv_os. Qed.

(** Inserting a node that is in use by the caller. *)
Lemma insert_inv s l fl m :
  alloc_inv s l fl -> m <> 0 -> is_Some (nodes s !! m) -> (m ∉ l ++ fl) ->
  range_ok (range_of (nodes s) m) -> Forall (apart (range_of (nodes s) m)) (tracked (nodes s) l) ->
  wp (metadata_do_insert s m) (fun s' => exists l', alloc_inv s' l' fl /\
    tracked (nodes s') l' ≡ₚ range_of (nodes s) m :: tracked (nodes s) l /\
    same_ranges (nodes s) (nodes s') /\ os s' = os s).
Proof.
  intros [Hok Hnd Hf Hh] Hm0 Hm [Hml Hmf]%not_elem_of_app Hr Hap.
  eapply wp_mono; [by apply (do_insert_ok s l m) |].
  intros s' ((l1 & l2 & El & Hok') & Hsame & Hout & F' & O').
  assert (Hd : forall x, x ∈ l -> x ∉ fl) by (apply NoDup_app in Hnd; apply Hnd).
  assert (Hsub : forall x, x ∈ l1 ++ m :: l2 <-> x = m \/ x ∈ l)
    by (subst l; intros x; rewrite !elem_of_app, elem_of_cons; tauto).
  exists (l1 ++ m :: l2). split; [split | split; [| done]].
  - done.
  - apply NoDup_app. split; [apply Hok' | split; [| apply NoDup_app in Hnd; apply Hnd]].
    intros x [-> | Hx]%Hsub; [done | by apply Hd].
  - rewrite F'. eapply free_chain_frame; [done |]. intros x Hx. apply Hout.
    apply not_elem_of_cons. split; [by intros -> | intros Hxl; by apply (Hd x)].
  - intros x Hx. apply (same_ranges_some (nodes s)) in Hx; [| done].
    destruct (Hh x Hx) as (q & Hq & Ho & Hb). exists q.
    split; [apply Hsub; by right |]. split; [| done]. unfold owns_page. by rewrite Hsame.
  - rewrite (tracked_same (nodes s)) by done.
    rewrite tracked_app, tracked_cons, <- Permutation_middle, <- tracked_app. by subst l.
Qed.

Lemma alloc_mmap_wp s l fl size reason shared pages ptr rest :
  alloc_inv s l fl -> 0 < size -> size mod PAGESIZE = 0 ->
  mmap_grants (tracked (nodes s) l) fl size (os s) pages ptr rest ->
  wp (alloc_mmap s size reason shared) (fun '(p, s') => p = ptr /\ os s' = rest /\
    nodes s' !! ptr = None /\
    exists l' fl', alloc_inv s' l' fl' /\
      tracked (nodes s') l' ≡ₚ (ptr, ptr + size) :: pages ++ tracked (nodes s) l).
Proof.
  intros Hinv Hsz Hmod [Hgr Hfresh]. unfold alloc_mmap. wp_step.
  eapply wp_mono.
  { apply (metadata_new_ok s l fl pages (ptr :: rest) Hinv).
    destruct fl; [destruct Hgr as (p & ? & ? & ?); by exists p | done]. }
  intros [m s1] (l1 & fl1 & Hinv1 & Hm0 & Hm & Hml & HO1 & HT1).
  wp_step. wp_step; [by apply Z.eqb_eq |].
  wp_step. wp_step; [by apply Z.eqb_neq in Hm0 as -> |].
  wp_step. eapply wp_modify_free; [done.. |]. intros s2 d2 Hd2 Hd2' Hinv2 HT2 _ HO2.
  pose proof Hfresh as (Hp0 & Hp1 & Hap).
  unfold mmap_wrap. rewrite HO2, HO1. rewrite (proj2 (Z.eqb_neq ptr _)) by (unfold MAP_FAILED; lia).
  rewrite (proj2 (Z.eqb_neq ptr 0)) by lia. wp_step. wp_step. wp_step; [done |]. wp_step.
  set (s3 := mk_alloc _ _ _ rest).
  pose proof (alloc_inv_os _ _ _ rest Hinv2 : alloc_inv s3 l1 fl1) as Hinv3.
  wp_step. eapply wp_modify_free; [done | done | by eexists | done |].
  intros s4 d4 Hd4 Hd4' Hinv4 HT4 _ HO4. cbn in Hd4. rewrite Hd2' in Hd4. injection Hd4 as <-.
  wp_step. eapply wp_modify_free; [done | done | by eexists | done |].
  intros s5 d5 Hd5 Hd5' Hinv5 HT5 _ HO5. rewrite Hd4' in Hd5. injection Hd5 as <-.
  wp_step.
  wp_step; [by rewrite (proj2 (Z.eqb_neq ptr 0)), (proj2 (Z.eqb_neq ptr _)) by (unfold MAP_FAILED; lia) |].
  assert (Er : range_of (nodes s5) m = (ptr, ptr + size)) by (unfold range_of; by rewrite Hd5').
  assert (HT : tracked (nodes s5) l1 = tracked (nodes s1) l1) by (rewrite HT5, HT4; exact HT2).
  unfold metadata_insert. wp_step. eapply wp_mono.
  { apply (insert_inv s5 l1 fl1 m Hinv5 Hm0); [by eexists | done | |]; rewrite Er.
    - unfold range_ok. cbn. lia.
    - by rewrite HT, HT1. }
  intros s6 (l6 & Hinv6 & HT6 & Hsame & HO6).
  specialize (Hsame m) as Hm6. rewrite Hd5' in Hm6. apply fmap_Some in Hm6 as (d6 & Hd6 & [= Ha _]).
  wp_step. eapply wp_load; [done.. |]. wp_step. split; [done |].
  split; [rewrite HO6, HO5, HO4; done |]. rewrite Er, HT, HT1 in HT6. split; [| by exists l6, fl1].
  unfold fresh_block in Hfresh. rewrite <- HT1, <- HT in Hfresh.
  assert (He : nodes s5 !! ptr = None)
    by (apply (fresh_empty s5 l1 fl1 size ptr); [done | done | unfold sizeof_metadata; lia]).
  specialize (Hsame ptr). rewrite He in Hsame. by destruct (nodes s6 !! ptr).
Qed.

Lemma page_stays N l1 c l2 d q :
  N !! c = Some d -> N !! addr d = None -> owns_page N q -> q ∈ l1 ++ c :: l2 -> q ∈ l1 ++ l2.
Proof.
  intros Hd Hnone Ho. rewrite !elem_of_app, elem_of_cons. intros [? | [-> | ?]]; [tauto | | tauto].
  apply fmap_Some in Ho as (d' & Hd' & [= Ha _]). rewrite Hd in Hd'. injection Hd' as <-. congruence.
Qed.

(** The state after the removal of a caller's node ([s1]), and after it is
    put on the free list. *)
Lemma freed_inv s l1 c l2 fl d s1 :
  alloc_inv s (l1 ++ c :: l2) fl -> c <> 0 -> nodes s !! c = Some d -> nodes s !! addr d = None ->
  list_ok s1 (l1 ++ l2) -> same_ranges (nodes s) (nodes s1) ->
  (forall x, x ∉ l1 ++ c :: l2 -> nodes s1 !! x = nodes s !! x) -> free_list s1 = free_list s ->
  wp (metadata_free s1 c) (fun s2 => alloc_inv s2 (l1 ++ l2) (c :: fl) /\ os s2 = os s1 /\
    tracked (nodes s2) (l1 ++ l2) = tracked (nodes s) (l1 ++ l2)).
Proof.
  intros [Hok Hnd Hf Hh] Hc0 Hd Hnone Hok1 Hsame Hout F1.
  assert (Hnd2 : NoDup (c :: (l1 ++ l2) ++ fl)).
  { rewrite <- app_assoc in Hnd. cbn in Hnd. by rewrite <- Permutation_middle, app_assoc in Hnd. }
  pose proof Hnd2 as [Hc _]%NoDup_cons. apply not_elem_of_app in Hc as [Hcl Hcf].
  destruct (proj2 (same_ranges_some _ _ c Hsame) ltac:(by eexists)) as [d1 Hd1].
  unfold metadata_free. wp_step. eapply wp_modify; [done.. |]. intros s2 HN2 F2 A2 O2. wp_step.
  assert (Hl2 : forall x, x ∈ l1 ++ l2 -> nodes s2 !! x = nodes s1 !! x)
    by (intros x Hx; rewrite HN2, decide_False; [done | by intros ->]).
  split; [split | split; [done |]].
  - by apply (list_ok_frame s1).
  - by rewrite <- Permutation_middle.
  - cbn. do 2 (split; [done |]). eexists. rewrite HN2, decide_True by done. split; [done |].
    cbn. rewrite F1. eapply free_chain_frame; [done |]. intros x Hx.
    rewrite HN2, decide_False by (by intros ->).
    apply Hout. intros Hxl. apply NoDup_app in Hnd as (_ & Hdis & _). by apply (Hdis x).
  - intros x Hx. cbn in Hx. assert (Hx' : is_Some (nodes s !! x)).
    { rewrite HN2 in Hx. destruct (decide (x = c)) as [-> |]; [by eexists |].
      by apply (same_ranges_some (nodes s) (nodes s1)). }
    destruct (Hh x Hx') as (r & Hrl & Hor & Hbr).
    pose proof (page_stays _ _ _ _ _ _ Hd Hnone Hor Hrl) as Hr.
    exists r. split; [done |]. split; [| done]. unfold owns_page in *.
    change (nodes (set_free_list s2 c)) with (nodes s2). by rewrite Hl2, Hsame.
  - change (nodes (set_free_list s2 c)) with (nodes s2).
    rewrite (tracked_frame (nodes s1)) by done. by apply tracked_same.
Qed.

Lemma alloc_munmap_wp munmap s l fl ptr hi :
  alloc_inv s l fl -> (ptr, hi) ∈ tracked (nodes s) l -> nodes s !! ptr = None ->
  munmap ptr (hi - ptr) = 0 ->
  wp (forkscan_alloc_munmap munmap s ptr) (fun s' => os s' = os s /\
    exists l' fl', alloc_inv s' l' fl' /\ tracked (nodes s) l ≡ₚ (ptr, hi) :: tracked (nodes s') l').
Proof.
  intros Hinv Hin Hnone Hmun. pose proof Hinv as [Hok Hnd Hf Hh].
  apply list_elem_of_fmap in Hin as (c & Er & Hc).
  destruct (list_ok_elem s l c Hok Hc) as (d & Hc0 & Hd & Er' & Hr).
  rewrite Er' in Er. injection Er as -> Eh. destruct Hr as [[Hr1 Hr2] Hr3]. cbn in *.
  apply list_elem_of_split in Hc as (l1 & l2 & El).
  destruct (Hh c ltac:(by eexists)) as (q & Hq & Ho & Hb). subst l.
  pose proof (page_stays _ _ _ _ _ _ Hd Hnone Ho Hq) as Hq'.
  unfold forkscan_alloc_munmap. wp_step.
  wp_step; [by rewrite (proj2 (Z.eqb_neq (addr d) 0)) by lia |].
  wp_step. eapply wp_mono.
  { apply (remove_ok s _ l1 c l2 d Hok eq_refl); [| done]. intros E. rewrite E in Hq'.
    by apply not_elem_of_nil in Hq'. }
  intros [c' s1] (-> & Hok1 & Hsame & Hout & F1 & O1). apply Z.eqb_neq in Hc0 as Hc0'.
  rewrite Hc0'. specialize (Hsame c) as Hdc. rewrite Hd in Hdc.
  apply fmap_Some in Hdc as (d1 & Hd1 & [= Ha1 Hl1]).
  wp_step. eapply wp_load; [done.. |]. rewrite <- Ha1, <- Hl1.
  replace (length_ d) with (hi - addr d) by lia. rewrite Hmun. cbn [Z.eqb negb].
  eapply wp_mono; [by apply (freed_inv s l1 c l2 fl d s1) |].
  intros s2 (Hinv2 & O2 & HT). split; [congruence |]. exists (l1 ++ l2), (c :: fl).
  split; [done |]. rewrite HT, tracked_app, tracked_cons, <- Permutation_middle, <- tracked_app.
  rewrite Er'. by replace hi with (addr d + length_ d) by lia.
Qed.

(** ** Sub-ranges *)

Definition within (r : Z * Z) (x : Z) : Prop := r.1 <= x < r.2.
Definition covered (T : list (Z * Z)) (x : Z) : Prop := exists r, r ∈ T /\ within r x.

(** What [forkscan_alloc_next_subrange] promises about a non-empty range [b],
    with [T] Forkscan's own memory: the range [r] it returns holds none of it,
    all that was skipped before [r] belongs to it, and what is left of [b]
    begins where [r] ends and is shorter than [b].  The ends of [r] are those
    of [b] or of owned memory. *)
Record subrange (T : list (Z * Z)) (b r b' : mem_range_t) : Prop := {
  sr_order : low b <= low r <= high r /\ high r <= high b;
  sr_rest : low b' = high r /\ high b' = high b;
  sr_progress : low b < high r;
  sr_low : low r = low b \/ low r = high b \/ (exists q, q ∈ T /\ low r = q.2);
  sr_high : high r = high b \/ (exists q, q ∈ T /\ high r = q.1);
  sr_skipped : forall x, low b <= x < low r -> covered T x;
  sr_clean : forall x, low r <= x < high r -> ~ covered T x }.

(** The interface to the components that scan memory. *)
Class Subranges (T : list (Z * Z)) (next_subrange : mem_range_t -> res (mem_range_t * mem_range_t)) : Prop :=
  next_subrange_ok b : low b < high b -> wp (next_subrange b) (fun '(r, b') => subrange T b r b').

Section Break.
Variables (s : alloc_t) (x0 : Z) (l' : list Z).
Let l := x0 :: l'.
Let N := nodes s.
Hypothesis (Hok : list_ok s l).

Lemma cursor l1 c l2 : l = l1 ++ c :: l2 ->
  exists d, c <> 0 /\ N !! c = Some d /\ range_of N c = (addr d, addr d + length_ d) /\
    range_ok (addr d, addr d + length_ d) /\ next d = hd (alloc_list s) l2.
Proof using Hok.
  intros El. destruct (list_ok_elem s l c Hok) as (d & H1 & H2 & H3 & H4); [rewrite El; apply elem_of_mid |].
  exists d. split_and!; try done.
  destruct (ring_next N (alloc_list s) l1 l2 c) as (d' & Hd' & Hn).
  - rewrite <- El. apply Hok.
  - rewrite <- El. apply Hok.
  - unfold N in Hd'. congruence.
Qed.

Lemma not_head l1 y c l2 : l = (y :: l1) ++ c :: l2 -> c <> alloc_list s.
Proof using Hok.
  intros E Hc. pose proof (lo_head _ _ Hok) as Hh. pose proof (lo_nodup _ _ Hok) as Hnd.
  unfold l in *. cbn in *. injection E as -> E. rewrite E in Hnd. apply NoDup_cons in Hnd as [H _].
  apply H. rewrite <- Hh, <- Hc. apply elem_of_mid.
Qed.

Lemma head_cursor : alloc_list s = x0.
Proof using Hok. apply (lo_head _ _ Hok). Qed.

(** The first node that ends above [lo], or the first of all when none does. *)
Lemma skip_below_ok lo :
  wp (loop (walk_fuel s) (skip_below s lo) (alloc_list s)) (fun c =>
    (exists l1 l2, l = l1 ++ c :: l2 /\ Forall (fun r => r.2 <= lo) (tracked N l1) /\
       lo < (range_of N c).2) \/
    (c = x0 /\ Forall (fun r => r.2 <= lo) (tracked N l))).
Proof using Hok.
  pose proof (length_nodes s l Hok) as Hlen. rewrite head_cursor at 1.
  apply (wp_loop_rel (fun n c => exists l1 l2, l = l1 ++ c :: l2 /\ length l2 = n /\
      Forall (fun r => r.2 <= lo) (tracked N l1)) (length l')).
  - exists [], l'. split_and!; [done | done | constructor].
  - unfold walk_fuel, l in *. cbn in Hlen. lia.
  - intros n c (l1 & l2 & El & Hn & Hl1). unfold skip_below.
    destruct (cursor l1 c l2 El) as (d & Hc0 & Hd & Er & Hr & Hnx).
    wp_step. eapply wp_high; [done.. |]. destruct (Z.leb_spec (addr d + length_ d) lo) as [Hle | Hgt].
    + wp_step. eapply wp_load; [done.. |]. wp_step. rewrite Hnx.
      assert (Hl1' : Forall (fun r => r.2 <= lo) (tracked N (l1 ++ [c]))).
      { rewrite tracked_app. apply Forall_app. split; [done |]. apply Forall_singleton. by rewrite Er. }
      destruct l2 as [|c' l2]; cbn [hd].
      * rewrite Z.eqb_refl. right. split; [apply head_cursor | by rewrite El].
      * assert (c' <> alloc_list s).
        { rewrite cons_middle, app_assoc in El. destruct l1 as [|y l1]; by eapply not_head. }
        rewrite (proj2 (Z.eqb_neq _ _)) by done. exists (length l2). split; [cbn in Hn; lia |].
        exists (l1 ++ [c]), l2. by rewrite <- app_assoc.
    + wp_step. left. exists l1, l2. by rewrite Er.
Qed.

(** Where the second walk stands: [rlow] is the end of the owned memory at
    the start of the range, up to the range's end [hi]. *)
Definition skipping (lo hi : Z) (l1 : list Z) (rlow : Z) : Prop :=
  lo <= rlow <= hi /\ (rlow = lo \/ rlow = hi \/ (exists q, q ∈ tracked N l /\ rlow = q.2)) /\
  (forall x, lo <= x < rlow -> covered (tracked N l) x) /\
  Forall (fun r => r.1 <= rlow /\ (r.2 <= rlow \/ rlow = hi)) (tracked N l1).

Lemma skip_owned_ok lo hi l1 c l2 :
  l = l1 ++ c :: l2 -> lo < hi -> Forall (fun r => r.2 <= lo) (tracked N l1) ->
  lo < (range_of N c).2 ->
  wp (loop (walk_fuel s) (skip_owned s hi) (c, lo)) (fun '(c', rlow) =>
    (exists l1' l2', l = l1' ++ c' :: l2' /\ skipping lo hi l1' rlow /\ rlow < (range_of N c').1 /\
       (rlow = lo \/ lo < rlow)) \/
    (c' = x0 /\ skipping lo hi l rlow /\ lo < rlow)).
Proof using Hok.
  intros El0 Hlh Hl10 Hc0. pose proof (length_nodes s l Hok) as Hlen.
  apply (wp_loop_rel (fun n '(c, rlow) => exists l1 l2, l = l1 ++ c :: l2 /\ length l2 = n /\
      skipping lo hi l1 rlow /\ (rlow < (range_of N c).2) /\ (rlow = lo \/ lo < rlow)) (length l2)).
  - exists l1, l2. split_and!; try done; [| by left].
    split; [lia |]. split; [by left |]. split; [lia |].
    pose proof (lo_ranges _ _ Hok) as Hr. rewrite El0, tracked_app in Hr.
    apply Forall_app in Hr as [Hr _]. rewrite Forall_forall in Hl10, Hr |- *. intros r Hin.
    specialize (Hl10 r Hin). destruct (Hr r Hin) as [? ?]. lia.
  - unfold walk_fuel. rewrite El0, length_app in Hlen. cbn in Hlen. lia.
  - clear c l1 l2 El0 Hl10 Hc0.
    intros n [c rlow] (l1 & l2 & El & Hn & (Hb & Horg & Hcov & Hl1) & Hc & Hpr). unfold skip_owned.
    destruct (cursor l1 c l2 El) as (d & Hc0 & Hd & Er & Hr & Hnx). rewrite Er in Hc. cbn in Hc.
    wp_step. eapply wp_low; [done.. |]. destruct (Z.leb_spec (addr d) rlow) as [Hle | Hgt].
    + wp_step. eapply wp_high; [done.. |]. rewrite (proj2 (Z.leb_le rlow _)) by lia.
      rewrite MIN_OF_min. wp_step. eapply wp_load; [done.. |]. wp_step. rewrite Hnx.
      assert (Hsk : skipping lo hi (l1 ++ [c]) (Z.min (addr d + length_ d) hi)).
      { assert (Hcin : range_of N c ∈ tracked N l).
        { apply list_elem_of_fmap. exists c. split; [done |]. rewrite El. apply elem_of_mid. }
        split; [lia |]. split; [| split].
        - destruct (decide (hi <= addr d + length_ d)); [right; left; lia | right; right].
          exists (range_of N c). split; [done |]. rewrite Er. cbn. lia.
        - intros x Hx. destruct (decide (x < rlow)); [apply Hcov; lia |].
          exists (range_of N c). split; [done |]. rewrite Er. unfold within. cbn. lia.
        - rewrite tracked_app. apply Forall_app. split.
          + eapply Forall_impl; [done |]. intros r. cbn. lia.
          + apply Forall_singleton. rewrite Er. cbn. lia. }
      destruct l2 as [|c' l2]; cbn [hd].
      * rewrite Z.eqb_refl. right. split; [apply head_cursor |]. rewrite El. split; [done | lia].
      * assert (c' <> alloc_list s).
        { rewrite cons_middle, app_assoc in El. destruct l1 as [|y l1]; by eapply not_head. }
        rewrite (proj2 (Z.eqb_neq _ _)) by done. exists (length l2). split; [cbn in Hn; lia |].
        exists (l1 ++ [c]), l2. rewrite <- app_assoc. split_and!; [done | done | done | | lia].
        assert (Hs : list_ok s (l1 ++ c :: c' :: l2)) by (by rewrite <- El).
        pose proof (sorted_around s l1 c (c' :: l2) Hs) as [_ Hbf].
        apply Forall_cons in Hbf as [Hbf _]. fold N in Hbf. rewrite Er in Hbf.
        assert (El' : l = (l1 ++ [c]) ++ c' :: l2) by (by rewrite <- app_assoc).
        destruct (cursor _ _ _ El') as (d' & _ & _ & Er' & [[? ?] _] & _).
        rewrite Er' in *. unfold before in Hbf. cbn in *. lia.
    + wp_step. left. exists l1, l2. rewrite Er. cbn. split_and!; try done.
Qed.

(** Beyond the cursor every range begins at or above its own. *)
Lemma above_cursor l1 c l2 r :
  l = l1 ++ c :: l2 -> r ∈ tracked N (c :: l2) -> (range_of N c).1 <= r.1.
Proof using Hok.
  intros El Hin. rewrite tracked_cons in Hin. apply elem_of_cons in Hin as [-> | Hin]; [lia |].
  assert (Hs : list_ok s (l1 ++ c :: l2)) by (by rewrite <- El).
  pose proof (sorted_around s l1 c l2 Hs) as [_ Hb]. rewrite Forall_forall in Hb.
  specialize (Hb r Hin). destruct (cursor l1 c l2 El) as (d & _ & _ & Er & [[? ?] _] & _).
  fold N in Hb. rewrite Er in *. unfold before in Hb. cbn in *. lia.
Qed.

(** No owned memory between the ranges below the cursor and the cursor. *)
Lemma clean_between l1 c l2 lo hi :
  l = l1 ++ c :: l2 -> Forall (fun r => r.2 <= lo \/ hi <= lo) (tracked N l1) ->
  hi <= (range_of N c).1 \/ hi <= lo ->
  forall x, lo <= x < hi -> ~ covered (tracked N l) x.
Proof using Hok.
  intros El Hl1 Hc x Hx (r & Hin & Hr). unfold within in Hr. rewrite Forall_forall in Hl1.
  rewrite El, tracked_app in Hin. apply elem_of_app in Hin as [Hin | Hin].
  - specialize (Hl1 r Hin). lia.
  - pose proof (above_cursor l1 c l2 r El Hin). lia.
Qed.

(** The outcome when the first range that ends above the start of [b] reaches
    into [b]. *)
Lemma break_inside b l1 c l2 :
  low b < high b -> l = l1 ++ c :: l2 -> Forall (fun r => r.2 <= low b) (tracked N l1) ->
  low b < (range_of N c).2 ->
  wp (let! ' (curr, rlow) := loop (walk_fuel s) (skip_owned s (high b)) (c, low b) in
      let! lo := LOW_ADDR s curr in
      Ok (mk_range rlow (if rlow <? lo then MIN_OF lo (high b) else high b)))
    (fun r => subrange (tracked N l) b r (mk_range (high r) (high b))).
Proof using Hok.
  intros Hb El Hl1 Hc. wp_step. eapply wp_mono; [by apply (skip_owned_ok _ _ l1 c l2) |].
  intros [c' rlow] [(k1 & k2 & Ek & (Hrl & Horg & Hcov & Hk1) & Hlt & Hpr)
    | (-> & (Hrl & Horg & Hcov & Hk1) & Hpr)].
  - destruct (cursor k1 c' k2 Ek) as (d & Hc0 & Hd & Er & Hr & _). rewrite Er in Hlt. cbn in Hlt.
    wp_step. eapply wp_low; [done.. |]. rewrite (proj2 (Z.ltb_lt _ _)) by lia. rewrite MIN_OF_min.
    wp_step. split; cbn; [lia | done | lia | done | | done |].
    { destruct (decide (high b <= addr d)); [left; lia | right]. exists (range_of N c').
      split; [change (range_of N c' ∈ tracked N l) | rewrite Er; cbn; lia].
      apply list_elem_of_fmap. exists c'. split; [done |].
      rewrite Ek. apply elem_of_mid. }
    apply (clean_between k1 c' k2); [done | | rewrite Er; cbn; lia].
    eapply Forall_impl; [done |]. intros r. cbn. lia.
  - destruct (cursor [] x0 l' eq_refl) as (d & Hc0 & Hd & Er & Hr & _).
    wp_step. eapply wp_low; [done.. |].
    pose proof Hk1 as Hk2. unfold l in Hk2. rewrite tracked_cons in Hk2.
    apply Forall_cons in Hk2 as [[Hx _] _]. rewrite Er in Hx. cbn in Hx.
    rewrite (proj2 (Z.ltb_ge _ _)) by lia.
    wp_step. split; cbn; [lia | done | lia | done | by left | done |].
    intros x Hx' (r & Hin & Hwr). unfold within in Hwr. rewrite Forall_forall in Hk1.
    specialize (Hk1 r Hin). lia.
Qed.

Lemma break_range_ok b : low b < high b ->
  wp (metadata_break_range s b) (fun '(r, b') => subrange (tracked N l) b r b').
Proof using Hok.
  intros Hb. unfold metadata_break_range.
  destruct (cursor [] x0 l' eq_refl) as (dx & Hx0 & Hdx & Erx & Hrx & _).
  wp_step. wp_step; [by rewrite head_cursor, (proj2 (Z.eqb_neq x0 0)) by done |].
  wp_step. eapply wp_mono; [apply skip_below_ok |]. intros c Hc.
  assert (Hcl : exists l1 l2, l = l1 ++ c :: l2).
  { destruct Hc as [(l1 & l2 & ? & _) | (-> & _)]; [by exists l1, l2 | by exists [], l']. }
  destruct Hcl as (k1 & k2 & Ek). destruct (cursor k1 c k2 Ek) as (d & Hc0 & Hd & Er & Hr & _).
  wp_step. eapply wp_high; [done.. |]. wp_step. eapply wp_low; [done.. |].
  wp_step. apply (wp_mono _ (fun r => subrange (tracked N l) b r (mk_range (high r) (high b))));
    [| intros r Hsr; by wp_step].
  destruct Hc as [(l1 & l2 & El & Hl1 & Hlt) | (-> & Hall)].
  - rewrite Er in Hlt. cbn in Hlt. rewrite (proj2 (Z.ltb_lt _ _)) by lia.
    destruct (Z.ltb_spec (addr d) (high b)) as [Hin | Hout]; cbn [andb].
    + apply (break_inside b l1 c l2); [done | done | done | by rewrite Er].
    + wp_step. split; cbn; [lia | done | lia | by left | by left | lia |].
      apply (clean_between l1 c l2); [done | | left; by rewrite Er].
      eapply Forall_impl; [done |]. intros r. cbn. lia.
  - assert (Hle : addr d + length_ d <= low b).
    { unfold l in Hall. rewrite tracked_cons in Hall. apply Forall_cons in Hall as [Hall _].
      by rewrite Er in Hall. }
    rewrite (proj2 (Z.ltb_ge _ _)) by lia. cbn [andb].
    wp_step. split; cbn; [lia | done | lia | by left | by left | lia |].
    intros x Hx (r & Hin & Hwr). unfold within in Hwr. rewrite Forall_forall in Hall.
    specialize (Hall r Hin). cbn in Hall. lia.
Qed.
End Break.

#[export] Instance alloc_subranges s x l fl :
  alloc_inv s (x :: l) fl -> Subranges (tracked (nodes s) (x :: l)) (forkscan_alloc_next_subrange s).
Proof. intros Hinv b Hb. apply (break_range_ok s x l); [apply Hinv | done]. Qed.

(** * The contract of the interface *)

(** The allocator as it starts: no memory of its own, and [os] to come. *)
Definition alloc_start (os : list Z) : alloc_t := mk_alloc ∅ 0 0 os.

Lemma alloc_start_inv os : alloc_inv (alloc_start os) [] [].
Proof.
  split; [split; cbn; try constructor; done | constructor | done |].
  intros p [? Hp]. cbn in Hp; by rewrite lookup_empty in Hp.
Qed.

Lemma alloc_mmap_ok s l fl size reason shared pages ptr rest :
  alloc_inv s l fl -> 0 < size -> size mod PAGESIZE = 0 ->
  mmap_grants (tracked (nodes s) l) fl size (os s) pages ptr rest ->
  exists s' l' fl', alloc_mmap s size reason shared = Ok (ptr, s') /\
    alloc_inv s' l' fl' /\ os s' = rest /\ nodes s' !! ptr = None /\
    tracked (nodes s') l' ≡ₚ (ptr, ptr + size) :: pages ++ tracked (nodes s) l.
Proof.
  intros Hinv Hsz Hmod Hgr.
  pose proof (alloc_mmap_wp s l fl size reason shared pages ptr rest Hinv Hsz Hmod Hgr) as Hw.
  apply wp_iff in Hw as ([p s'] & E & -> & HO & Hn & l' & fl' & Hinv' & HT).
  by exists s', l', fl'.
Qed.

(** [forkscan_alloc_mmap] and its shared variant return the block the system
    maps and add it, and the page they may need for nodes, to the memory the
    list tracks; the list stays circular, sorted and disjoint, and the
    address returned is not that of a node. *)
Theorem alloc_mmap_tracks s l fl size reason (shared : bool) pages ptr rest :
  alloc_inv s l fl -> 0 < size -> size mod PAGESIZE = 0 ->
  mmap_grants (tracked (nodes s) l) fl size (os s) pages ptr rest ->
  exists s' l' fl',
    (if shared then forkscan_alloc_mmap_shared s size reason else forkscan_alloc_mmap s size reason)
      = Ok (ptr, s') /\
    alloc_inv s' l' fl' /\ os s' = rest /\ nodes s' !! ptr = None /\
    tracked (nodes s') l' ≡ₚ (ptr, ptr + size) :: pages ++ tracked (nodes s) l.
Proof.
  intros Hinv Hsz Hmod Hgr.
  destruct (alloc_mmap_ok s l fl size reason shared pages ptr rest Hinv Hsz Hmod Hgr)
    as (s' & l' & fl' & E & H).
  exists s', l', fl'. split; [by destruct shared | done].
Qed.

Lemma alloc_mmap_tracks_witness :
  let s := alloc_start [0x7000000; 0x8000000] in
  exists s' l' fl', forkscan_alloc_mmap_shared s 0x2000 1 = Ok (0x8000000, s') /\
    alloc_inv s' l' fl' /\ os s' = [] /\ nodes s' !! 0x8000000 = None /\
    tracked (nodes s') l' ≡ₚ (0x8000000, 0x8002000) :: [(0x7000000, 0x7001000)] ++ [].
Proof.
  intros s. apply (alloc_mmap_tracks s [] [] 0x2000 1 true [(0x7000000, 0x7001000)] 0x8000000 []);
    [apply alloc_start_inv | done | done |].
  split; [exists 0x7000000; split_and!; [done..|]; split_and!; [done | done | constructor] |].
  split_and!; [done | done |]. apply Forall_singleton. by right.
Defined.

(** A state with one block of the client's: a page of nodes at [0x7000000],
    the block at [0x8000000]. *)
Definition one_block : alloc_t :=
  match forkscan_alloc_mmap (alloc_start [0x7000000; 0x8000000]) 0x2000 1 with
  | Ok (_, s) => s
  | Err _ => alloc_start []
  end.

Lemma one_block_ok : exists l fl, alloc_inv one_block l fl /\
  tracked (nodes one_block) l ≡ₚ [(0x8000000, 0x8002000); (0x7000000, 0x7001000)].
Proof.
  destruct (alloc_mmap_ok (alloc_start [0x7000000; 0x8000000]) [] [] 0x2000 1 false
    [(0x7000000, 0x7001000)] 0x8000000 []) as (s' & l' & fl' & E & Hinv & _ & _ & HT).
  - apply alloc_start_inv.
  - done.
  - done.
  - split; [exists 0x7000000; split_and!; [done..|]; split_and!; [done | done | constructor] |].
    split_and!; [done | done |]. apply Forall_singleton. by right.
  - exists l', fl'. unfold one_block, forkscan_alloc_mmap. rewrite E. by split.
Qed.

(** [forkscan_alloc_munmap] takes the block that begins at the address it is
    given, and nothing else, out of the memory the list tracks and puts its
    node on the free list; the pages that hold nodes stay. *)
Theorem alloc_munmap_untracks munmap s l fl ptr hi :
  alloc_inv s l fl -> (ptr, hi) ∈ tracked (nodes s) l -> nodes s !! ptr = None ->
  munmap ptr (hi - ptr) = 0 ->
  exists s' l' fl', forkscan_alloc_munmap munmap s ptr = Ok s' /\
    alloc_inv s' l' fl' /\ os s' = os s /\
    tracked (nodes s) l ≡ₚ (ptr, hi) :: tracked (nodes s') l'.
Proof.
  intros Hinv Hin Hn Hm.
  pose proof (alloc_munmap_wp munmap s l fl ptr hi Hinv Hin Hn Hm) as Hw.
  apply wp_iff in Hw as (s' & E & HO & l' & fl' & Hinv' & HT). by exists s', l', fl'.
Qed.

Lemma alloc_munmap_untracks_witness :
  exists l fl, alloc_inv one_block l fl /\
  exists s' l' fl', forkscan_alloc_munmap (fun _ _ => 0) one_block 0x8000000 = Ok s' /\
    alloc_inv s' l' fl' /\ os s' = os one_block /\
    tracked (nodes one_block) l ≡ₚ (0x8000000, 0x8002000) :: tracked (nodes s') l'.
Proof.
  destruct one_block_ok as (l & fl & Hinv & HT). exists l, fl. split; [done |].
  apply (alloc_munmap_untracks (fun _ _ => 0) one_block l fl); [done | | by vm_compute | done].
  rewrite HT. left.
Defined.

(** C33: [forkscan_alloc_next_subrange] on a non-empty range returns its first
    piece without memory of Forkscan's own: nothing owned lies in the piece,
    all that was skipped before it is owned, and the rest that is left in
    [*big_range] starts where the piece ends and is shorter, so that asking
    again comes to an end. *)
Theorem next_subrange_correct s l fl b :
  alloc_inv s l fl -> l <> [] -> low b < high b ->
  exists r b', forkscan_alloc_next_subrange s b = Ok (r, b') /\
    subrange (tracked (nodes s) l) b r b'.
Proof.
  intros Hinv Hne Hb. destruct l as [|x l]; [done |].
  pose proof (alloc_subranges s x l fl Hinv b Hb) as Hw.
  apply wp_iff in Hw as ([r b'] & E & H). by exists r, b'.
Qed.

Lemma next_subrange_correct_witness :
  exists l fl, alloc_inv one_block l fl /\
  exists r b', forkscan_alloc_next_subrange one_block (mk_range 0x7000000 0x9000000) = Ok (r, b') /\
    subrange (tracked (nodes one_block) l) (mk_range 0x7000000 0x9000000) r b'.
Proof.
  destruct one_block_ok as (l & fl & Hinv & HT). exists l, fl. split; [done |].
  apply (next_subrange_correct one_block l fl); [done | | done].
  intros ->. by apply Permutation_nil in HT.
Defined.
