(* ===== verification/Ranges.v ===== *)
(** The choice of the memory to scan, from child.c: [is_lib],
    [collect_ranges] and [add_stack_ranges].

    [forkscan_alloc_next_subrange] is used through the interface [Subranges]
    of [Alloc]; [stderr_lock] is the address [stderr->_lock] of the C
    library.  Strings are lists of characters without the final NUL. *)
From Stdlib Require Import Ascii String.
From stdpp Require Import strings sorting.
From S2P Require Import Prelude Alloc.

Definition MAX_MARK_AND_SWEEP_RANGES : Z := 0x10000.
Definition MAX_RANGE_SIZE : Z := 8 * 1024 * 1024.

Definition NUL : ascii := zero.
Definition chars (s : string) : list ascii := list_ascii_of_string s.
Definition char_at (s : list ascii) (i : nat) : ascii := nth i s NUL.

(** * Library names *)

(** [while ('\0' != path[0] && '/' != path[0]) ++path;] *)
Fixpoint skip_component (path : list ascii) : list ascii :=
  match path with
  | [] => []
  | c :: path' => if ascii_dec c "/"%char then path else skip_component path'
  end.

(** [0 == strncmp(library, path, len) && ('.' == path[len] || '-' == path[len])] *)
Definition names_lib (library path : list ascii) : bool :=
  bool_decide (library `prefix_of` path) &&
  (bool_decide (char_at path (length library) = "."%char) ||
   bool_decide (char_at path (length library) = "-"%char)).

Definition is_lib_step (library path : list ascii) : flow (list ascii) bool :=
  match path with
  | [] => Done false
  | _ :: path => if names_lib library path then Done true else Next (skip_component path)
  end.

Definition is_lib (library path : list ascii) : res bool :=
  match path with
  | c :: path' =>
      if ascii_dec c "/"%char
      then loop (Datatypes.S (length path)) (fun p => Ok (is_lib_step library p)) path'
      else Ok false
  | [] => Ok false
  end.

(** * Collecting ranges *)

Record ranges_t : Type := mk_ranges {
  g_ranges : list mem_range_t;      (* the whole array *)
  g_n_ranges : Z;
  g_bytes_to_scan : Z }.

Definition wr_range (a : list mem_range_t) (i : Z) (v : mem_range_t) : res (list mem_range_t) :=
  if (0 <=? i) && (i <? Z.of_nat (length a)) then Ok (<[Z.to_nat i := v]> a) else Err OutOfBounds.

(** [g_ranges[g_n_ranges++] = v] *)
Definition push_range (v : mem_range_t) (st : ranges_t) : res ranges_t :=
  let! a := wr_range (g_ranges st) (g_n_ranges st) v in
  let! n := int_chk (g_n_ranges st + 1) in
  Ok (mk_ranges a n (g_bytes_to_scan st)).

(** [while (next.low + MAX_RANGE_SIZE < next.high)]: cut off a full-sized piece. *)
Definition cut_step (s : mem_range_t * ranges_t)
    : res (flow (mem_range_t * ranges_t) (mem_range_t * ranges_t)) :=
  let '(next, st) := s in
  if u64 (low next + MAX_RANGE_SIZE) <? high next then
    let! st := push_range (mk_range (low next) (u64 (low next + MAX_RANGE_SIZE))) st in
    Ok (Next (mk_range (u64 (low next + MAX_RANGE_SIZE)) (high next), st))
  else Ok (Done (next, st)).

Definition cut_fuel (r : mem_range_t) : nat :=
  Datatypes.S (Z.to_nat ((high r - low r) / MAX_RANGE_SIZE)).

(** What is done with one piece without memory of Forkscan's. *)
Definition add_piece (next : mem_range_t) (st : ranges_t) : res ranges_t :=
  let st := mk_ranges (g_ranges st) (g_n_ranges st) (u64 (g_bytes_to_scan st + (high next - low next))) in
  let! ' (next, st) := loop (cut_fuel next) cut_step (next, st) in
  let! st := push_range next st in
  if g_n_ranges st >=? MAX_MARK_AND_SWEEP_RANGES then Err Fatal else Ok st.

Section collect.
Context (next_subrange : mem_range_t -> res (mem_range_t * mem_range_t)) (stderr_lock : Z).

Definition collect_step (s : mem_range_t * ranges_t) : res (flow (mem_range_t * ranges_t) ranges_t) :=
  let '(big_range, st) := s in
  if negb (low big_range =? high big_range) then
    let! ' (next, big_range) := next_subrange big_range in
    let! st := if negb (low next =? high next) then add_piece next st else Ok st in
    Ok (Next (big_range, st))
  else Ok (Done st).

(** The regions that are not scanned at all. *)
Definition skip_region (low high : Z) (bits path : list ascii) : res bool :=
  if bool_decide (char_at bits 1 = "-"%char) then Ok true
  else if bool_decide (char_at bits 2 = "x"%char) then Ok true
  else if low =? high then Ok true
  else if (low <=? stderr_lock) && (stderr_lock <=? high) then Ok true
  else
    let! b := is_lib (chars "libc") path in if b : bool then Ok true else
    let! b := is_lib (chars "libdl") path in if b : bool then Ok true else
    let! b := is_lib (chars "libforkscan") path in if b : bool then Ok true else
    if bool_decide (char_at bits 3 = "s"%char) then Ok true
    else Ok (bool_decide (take 7 path = chars "[stack:")).

(** [fuel] bounds the number of pieces; it has to exceed the number of
    Forkscan's own blocks by two. *)
Definition collect_ranges (fuel : nat) (low high : Z) (bits path : list ascii) (st : ranges_t)
    : res (Z * ranges_t) :=
  let! skip := skip_region low high bits path in
  if skip : bool then Ok (1, st) else
  let! st := loop fuel collect_step (mk_range low high, st) in
  Ok (1, st).
End collect.

(** * The stacks *)

(** The fields of a [thread_data_t] that matter here. *)
Record stack_t : Type := mk_stack {
  user_stack_low : Z;
  user_stack_high : Z;
  stack_is_ours : bool }.

(** [tl] is the thread list, in order. *)
Fixpoint add_stack_ranges (tl : list stack_t) (st : ranges_t) : res ranges_t :=
  match tl with
  | [] => Ok st
  | td :: tl =>
      if stack_is_ours td then
        let st := mk_ranges (g_ranges st) (g_n_ranges st)
          (u64 (g_bytes_to_scan st + (user_stack_high td - user_stack_low td))) in
        let! st := push_range (mk_range (user_stack_low td) (user_stack_high td)) st in
        add_stack_ranges tl st
      else add_stack_ranges tl st
  end.

(** * Library names: what is recognised *)

(** The name [lib], followed by a dot or a hyphen. *)
Definition starts_lib (lib p : list ascii) : Prop :=
  exists c rest, p = lib ++ c :: rest /\ (c = "."%char \/ c = "-"%char).

Lemma names_lib_iff lib p : names_lib lib p = true <-> starts_lib lib p.
Proof.
  unfold names_lib, starts_lib, char_at.
  rewrite andb_true_iff, orb_true_iff, !bool_decide_eq_true. split.
  - intros [[k ->] H]. rewrite app_nth2 in H by lia. rewrite Nat.sub_diag in H.
    destruct k as [|c k]; [cbn in H; destruct H; discriminate |]. by exists c, k.
  - intros (c & rest & -> & H). split; [by apply prefix_app_r |].
    rewrite app_nth2 by lia. by rewrite Nat.sub_diag.
Qed.

(** Where in a path the name may begin: after the first character, or after
    a slash that is not the first character. *)
Definition name_at (lib q : list ascii) : Prop :=
  exists pre p, q = pre ++ p /\ starts_lib lib p /\
    (length pre = 1%nat \/ exists pre', pre = pre' ++ ["/"%char] /\ pre' <> []).

Lemma skip_component_spec q :
  (skip_component q = [] /\ "/"%char ∉ q) \/
  (exists u t, q = u ++ "/"%char :: t /\ skip_component q = "/"%char :: t /\ "/"%char ∉ u).
Proof.
  induction q as [|c q IH]; cbn; [left; split; [done | apply not_elem_of_nil] |].
  destruct (ascii_dec c "/") as [-> | Hc]; [right; exists [], q; split_and!; [done.. | apply not_elem_of_nil] |].
  destruct IH as [[E H] | (u & t & -> & E & H)].
  - left. split; [done |]. by apply not_elem_of_cons.
  - right. exists (c :: u), t. split_and!; [done.. |]. by apply not_elem_of_cons.
Qed.

Lemma name_at_step lib x q :
  ~ starts_lib lib q -> name_at lib (x :: q) <-> name_at lib (skip_component q).
Proof.
  intros Hn. split.
  - intros (pre & p & E & Hp & [Hpre | (pre' & -> & Hne)]).
    + destruct pre as [|y [|]]; try done. injection E as _ ->. done.
    + destruct pre' as [|y pre']; [done |]. injection E as -> ->.
      rewrite <- app_assoc. cbn.
      destruct (skip_component_spec (pre' ++ "/"%char :: p)) as [[_ H] | (u & t & E & -> & Hu)].
      { exfalso. apply H, elem_of_mid. }
      assert (Hut : exists v, pre' = u ++ v /\ ("/"%char :: t = v ++ "/"%char :: p)).
      { apply app_eq_inv in E as [(k & -> & E) | (k & -> & E)]; [by exists k |].
        destruct k as [|z k]; [exists []; rewrite app_nil_r; cbn in *; split; [by rewrite app_nil_r | done] |].
        injection E as <- _. exfalso. apply Hu, elem_of_mid. }
      destruct Hut as (v & -> & Ev). destruct v as [|z v].
      * injection Ev as ->. exists ["/"%char], p. split_and!; [done.. | by left].
      * injection Ev as <- ->. exists ("/"%char :: v ++ ["/"%char]), p. cbn. rewrite <- app_assoc.
        split_and!; [done.. | right]. by exists ("/"%char :: v).
  - destruct (skip_component_spec q) as [[-> _] | (u & t & -> & -> & _)].
    + intros (pre & p & E & (c & rest & -> & _) & _). destruct pre, lib; done.
    + intros (pre & p & E & Hp & Hpre). destruct Hpre as [Hl | (pre' & -> & Hne)].
      * destruct pre as [|y [|]]; try done. injection E as <- ->.
        exists (x :: u ++ ["/"%char]), p. cbn. rewrite <- app_assoc. split_and!; [done.. | right].
        by exists (x :: u).
      * destruct pre' as [|y pre']; [done |]. injection E as <- ->.
        exists (x :: u ++ ("/"%char :: pre') ++ ["/"%char]), p. cbn. rewrite <- !app_assoc. cbn.
        rewrite <- !app_assoc. split_and!; [done.. | right].
        exists (x :: u ++ "/"%char :: pre'). cbn. by rewrite <- app_assoc.
Qed.

Lemma skip_component_length q : (length (skip_component q) <= length q)%nat.
Proof. induction q as [|c q IH]; cbn; [lia |]. destruct (ascii_dec c "/"); cbn; lia. Qed.

Lemma is_lib_wp lib path : wp (is_lib lib path) (fun b =>
  b = true <-> exists q, path = "/"%char :: q /\ name_at lib q).
Proof.
  destruct path as [|c path]; cbn [is_lib].
  - wp_step. split; [done |]. by intros (? & ? & _).
  - destruct (ascii_dec c "/") as [-> | Hc].
    2: { wp_step. split; [done |]. by intros (q & [= E _] & _). }
    apply (wp_loop (fun q => name_at lib q <-> name_at lib path) length); [done | cbn; lia |].
    intros q Hq. wp_step. unfold is_lib_step. destruct q as [|x q].
    + split; [done |]. intros (q & [= <-] & H). apply Hq in H as (pre & p & E & (c & r & -> & _) & _).
      by destruct pre, lib.
    + destruct (names_lib lib q) eqn:E.
      * apply names_lib_iff in E. split; [intros _ | done]. exists path. split; [done |].
        apply Hq. exists [x], q. split_and!; [done.. | by left].
      * assert (Hn : ~ starts_lib lib q) by (rewrite <- names_lib_iff; congruence).
        split; [by rewrite <- (name_at_step lib x q Hn) |].
        pose proof (skip_component_length q). cbn. lia.
Qed.

(** [is_lib] recognises a name after any slash of an absolute path but the
    first: there it begins to compare one character late. *)
Theorem is_lib_recognises library path :
  exists b, is_lib library path = Ok b /\
    (b = true <-> exists q, path = "/"%char :: q /\ name_at library q).
Proof. apply wp_iff, is_lib_wp. Qed.

(** So a library in the root directory is not recognised, and a file there
    whose name has one more character in front is. *)
Theorem is_lib_first_component :
  is_lib (chars "libc") (chars "/lib/libc.so.6") = Ok true /\
  is_lib (chars "libc") (chars "/libc.so.6") = Ok false /\
  is_lib (chars "libc") (chars "/xlibc.so.6") = Ok true.
Proof. by vm_compute. Qed.

(** * Ranges: what is collected *)

Definition in_range (r : mem_range_t) (x : Z) : Prop := low r <= x < high r.
Definition range_size (r : mem_range_t) : Z := high r - low r.
Definition total_size (rs : list mem_range_t) : Z := foldr (fun r n => range_size r + n) 0 rs.
Definition below (r q : mem_range_t) : Prop := high r <= low q.

(** The entries in use. *)
Definition used (st : ranges_t) : list mem_range_t := take (Z.to_nat (g_n_ranges st)) (g_ranges st).

Definition ranges_ok (st : ranges_t) : Prop :=
  Z.of_nat (length (g_ranges st)) = MAX_MARK_AND_SWEEP_RANGES /\
  0 <= g_n_ranges st <= MAX_MARK_AND_SWEEP_RANGES /\ size_ok (g_bytes_to_scan st).

(** [st'] is [st] with the ranges [rs] appended. *)
Definition appended (st : ranges_t) (rs : list mem_range_t) (st' : ranges_t) : Prop :=
  ranges_ok st' /\ used st' = used st ++ rs /\
  g_n_ranges st' = g_n_ranges st + Z.of_nat (length rs).

Lemma appended_nil st : ranges_ok st -> appended st [] st.
Proof. intros H. split; [done |]. rewrite app_nil_r. split; [done |]. cbn. lia. Qed.

Lemma appended_trans st1 rs st2 qs st3 :
  appended st1 rs st2 -> appended st2 qs st3 -> appended st1 (rs ++ qs) st3.
Proof.
  intros (_ & H1 & H2) (H3 & H4 & H5). split; [done |]. rewrite H4, H1, app_assoc.
  split; [done |]. rewrite length_app. lia.
Qed.

Lemma total_size_app rs qs : total_size (rs ++ qs) = total_size rs + total_size qs.
Proof. unfold total_size. induction rs as [|r rs IH]; cbn; [done |]. rewrite IH. lia. Qed.

Lemma push_range_ok v st (Q : ranges_t -> Prop) :
  ranges_ok st -> g_n_ranges st < MAX_MARK_AND_SWEEP_RANGES ->
  (forall st', appended st [v] st' -> g_bytes_to_scan st' = g_bytes_to_scan st -> Q st') ->
  wp (push_range v st) Q.
Proof.
  intros (Hl & Hn & Hb) Hlt HQ. unfold push_range, wr_range, MAX_MARK_AND_SWEEP_RANGES in *.
  rewrite (proj2 (Z.leb_le _ _)), (proj2 (Z.ltb_lt _ _)) by lia. cbn [andb].
  wp_step. wp_step. wp_step. wp_step; [unfold int_ok, INT_MIN, INT_MAX; lia |]. wp_step.
  apply HQ; [| done]. split.
  { split; cbn; [by rewrite length_insert |]. unfold MAX_MARK_AND_SWEEP_RANGES. split; [lia | done]. }
  split; [| done]. unfold used. cbn.
  replace (Z.to_nat (g_n_ranges st + 1)) with (Datatypes.S (Z.to_nat (g_n_ranges st))) by lia.
  rewrite (take_S_r _ _ v) by (apply list_lookup_insert_eq; lia).
  by rewrite take_insert_ge by lia.
Qed.

(** [rs] cuts [a..b) into pieces that follow one another. *)
Fixpoint cuts (a b : Z) (rs : list mem_range_t) : Prop :=
  match rs with
  | [] => a = b
  | r :: rs => low r = a /\ a < high r /\ range_size r <= MAX_RANGE_SIZE /\ cuts (high r) b rs
  end.

Lemma cuts_snoc a m rs r :
  cuts a m rs -> low r = m -> m < high r -> range_size r <= MAX_RANGE_SIZE -> cuts a (high r) (rs ++ [r]).
Proof.
  revert a. induction rs as [|q rs IH]; intros a Hc Hl Hlt Hs; cbn in *; [subst; done |].
  destruct Hc as (H1 & H2 & H3 & H4). split_and!; try done. by apply IH.
Qed.

Lemma cuts_le a b rs : cuts a b rs -> a <= b.
Proof. revert a. induction rs as [|r rs IH]; cbn; [lia |]. intros a (H1 & H2 & _ & H3%IH). lia. Qed.

Lemma cuts_size a b rs : cuts a b rs -> total_size rs = b - a.
Proof.
  unfold total_size. revert a. induction rs as [|r rs IH]; intros a; cbn; [lia |].
  intros (H1 & H2 & _ & H3%IH). unfold range_size in *. lia.
Qed.

Lemma cuts_bounds a b rs r : cuts a b rs -> r ∈ rs ->
  a <= low r /\ low r < high r /\ high r <= b /\ range_size r <= MAX_RANGE_SIZE.
Proof.
  revert a. induction rs as [|q rs IH]; intros a Hc Hr; [by apply not_elem_of_nil in Hr |].
  destruct Hc as (H1 & H2 & H3 & H4). pose proof (cuts_le _ _ _ H4).
  apply elem_of_cons in Hr as [-> | Hr]; [lia |]. destruct (IH _ H4 Hr) as (? & ? & ? & ?). lia.
Qed.

Lemma cuts_sorted a b rs : cuts a b rs -> StronglySorted below rs.
Proof.
  revert a. induction rs as [|r rs IH]; intros a Hc; [constructor |].
  destruct Hc as (_ & _ & _ & Hc). constructor; [by eapply IH |].
  apply Forall_forall. intros q Hq. by apply (cuts_bounds _ _ _ _ Hc) in Hq as [? _].
Qed.

Lemma cuts_full a b rs x : cuts a b rs -> a <= x < b -> exists r, r ∈ rs /\ in_range r x.
Proof.
  revert a. induction rs as [|r rs IH]; intros a Hc Hx; cbn in Hc; [lia |].
  destruct Hc as (H1 & H2 & _ & Hc). destruct (decide (x < high r)).
  - exists r. split; [left | unfold in_range; lia].
  - destruct (IH _ Hc) as (q & Hq & Hin); [lia |]. exists q. split; [by right | done].
Qed.

Lemma cuts_aligned a b rs : cuts a b rs -> a mod 8 = 0 -> b mod 8 = 0 ->
  (forall r, r ∈ rs -> range_size r = MAX_RANGE_SIZE \/ high r = b) ->
  forall r, r ∈ rs -> low r mod 8 = 0 /\ high r mod 8 = 0.
Proof.
  revert a. induction rs as [|q rs IH]; intros a Hc Ha Hb Hs r Hr; [by apply not_elem_of_nil in Hr |].
  destruct Hc as (H1 & H2 & H3 & H4).
  assert (Hq : high q mod 8 = 0).
  { destruct (Hs q ltac:(left)) as [Hq | ->]; [| done]. unfold range_size, MAX_RANGE_SIZE in Hq.
    Z.to_euclidean_division_equations. lia. }
  apply elem_of_cons in Hr as [-> | Hr]; [by rewrite H1 |].
  apply (IH (high q)); try done. intros p Hp. apply Hs. by right.
Qed.

(** One piece, cut. *)
Lemma add_piece_ok next st :
  ranges_ok st -> 0 <= low next < high next -> high next < 2 ^ 63 ->
  g_n_ranges st + 1 + (high next - low next) / MAX_RANGE_SIZE < MAX_MARK_AND_SWEEP_RANGES ->
  wp (add_piece next st) (fun st' => exists rs, appended st rs st' /\ cuts (low next) (high next) rs /\
    Z.of_nat (length rs) <= 1 + (high next - low next) / MAX_RANGE_SIZE /\
    (forall r, r ∈ rs -> range_size r = MAX_RANGE_SIZE \/ high r = high next) /\
    g_bytes_to_scan st' = u64 (g_bytes_to_scan st + (high next - low next))).
Proof.
  intros Hok Hlo Hhi Hroom. unfold add_piece. cbn zeta.
  set (st1 := mk_ranges _ _ _). assert (Hok1 : ranges_ok st1).
  { destruct Hok as (H1 & H2 & _). split; [done | split; [done | apply u64_range]]. }
  set (hi := high next) in *. set (lo := low next) in *.
  wp_step. apply (wp_loop (fun '(nx, s) => exists rs, high nx = hi /\ lo <= low nx < hi /\
      appended st1 rs s /\ cuts lo (low nx) rs /\ Z.of_nat (length rs) * MAX_RANGE_SIZE = low nx - lo /\
      (forall r, r ∈ rs -> range_size r = MAX_RANGE_SIZE) /\
      g_bytes_to_scan s = g_bytes_to_scan st1)
    (fun '(nx, _) => Z.to_nat ((high nx - low nx) / MAX_RANGE_SIZE))).
  - exists []. split; [done |]. split; [lia |]. split; [by apply appended_nil |]. split; [done |].
    split; [cbn; lia |]. split; [| done]. intros r Hr. by apply not_elem_of_nil in Hr.
  - unfold cut_fuel. fold hi lo. lia.
  - intros [nx s] (rs & Eh & Hl & Happ & Hcut & Hlen & Hfull & Hb). unfold cut_step. rewrite Eh.
    assert (Hdiv : Z.of_nat (length rs) + (hi - low nx) / MAX_RANGE_SIZE = (hi - lo) / MAX_RANGE_SIZE).
    { replace (hi - lo) with ((hi - low nx) + Z.of_nat (length rs) * MAX_RANGE_SIZE) by lia.
      rewrite Z.div_add by (unfold MAX_RANGE_SIZE; lia). lia. }
    assert (H0 : 0 <= (hi - low nx) / MAX_RANGE_SIZE)
      by (apply Z.div_pos; unfold MAX_RANGE_SIZE; lia).
    pose proof Happ as (Hoks & _ & Hns). cbn in Hns.
    rewrite u64_small by (unfold size_ok, MAX_RANGE_SIZE; lia).
    destruct (Z.ltb_spec (low nx + MAX_RANGE_SIZE) hi) as [Hlt | Hge].
    + wp_step. apply push_range_ok; [done | lia |]. intros s' Happ' Hb'. wp_step.
      assert (Hq : (hi - (low nx + MAX_RANGE_SIZE)) / MAX_RANGE_SIZE = (hi - low nx) / MAX_RANGE_SIZE - 1).
      { replace (hi - (low nx + MAX_RANGE_SIZE)) with (hi - low nx + (-1) * MAX_RANGE_SIZE) by lia.
        rewrite Z.div_add by (unfold MAX_RANGE_SIZE; lia). lia. }
      assert (1 <= (hi - low nx) / MAX_RANGE_SIZE)
        by (apply Z.div_le_lower_bound; unfold MAX_RANGE_SIZE in *; lia).
      split; [| cbn; rewrite Hq; lia].
      exists (rs ++ [mk_range (low nx) (low nx + MAX_RANGE_SIZE)]). split; [done |]. cbn.
      split; [unfold MAX_RANGE_SIZE in *; lia |]. split; [by eapply appended_trans |].
      split.
      { apply (cuts_snoc lo (low nx) rs (mk_range (low nx) (low nx + MAX_RANGE_SIZE))); try done.
        - unfold MAX_RANGE_SIZE. cbn. lia.
        - unfold range_size. cbn. lia. }
      split; [rewrite length_app; cbn; lia |]. split; [| by rewrite Hb', Hb].
      intros r [Hr | ->%list_elem_of_singleton]%elem_of_app; [by apply Hfull |].
      unfold range_size. cbn. lia.
    + wp_step. wp_step. apply push_range_ok; [done | lia |]. intros s' Happ' Hb'.
      pose proof (appended_trans _ _ _ _ _ Happ Happ') as Ha.
      pose proof Ha as (_ & _ & Hn'). rewrite length_app in Hn'. cbn in Hn'.
      rewrite Z.geb_leb, (proj2 (Z.leb_gt _ _)) by lia. wp_step.
      exists (rs ++ [nx]). split; [done |]. split.
      { rewrite <- Eh. apply (cuts_snoc lo (low nx)); [done | done | lia | unfold range_size; lia]. }
      split; [rewrite length_app; cbn; lia |]. split; [| by rewrite Hb', Hb].
      intros r [Hr | ->%list_elem_of_singleton]%elem_of_app; [left; by apply Hfull | by right].
Qed.

(** The ranges [rs] hold the part of [a..b) that is not in [T], and nothing
    else, in ascending order and in pieces of bounded size. *)
Record cover (T : list (Z * Z)) (a b : Z) (rs : list mem_range_t) : Prop := {
  cv_each : forall r, r ∈ rs -> a <= low r /\ low r < high r /\ high r <= b /\
    range_size r <= MAX_RANGE_SIZE;
  cv_sorted : StronglySorted below rs;
  cv_clean : forall r x, r ∈ rs -> in_range r x -> ~ covered T x;
  cv_full : forall x, a <= x < b -> ~ covered T x -> exists r, r ∈ rs /\ in_range r x;
  cv_aligned : forall r, r ∈ rs -> low r mod 8 = 0 /\ high r mod 8 = 0 }.

Lemma cover_nil T a b : a <= b -> (forall x, a <= x < b -> covered T x) -> cover T a b [].
Proof.
  intros Hab H. split.
  - intros r Hr. by apply not_elem_of_nil in Hr.
  - constructor.
  - intros r x Hr. by apply not_elem_of_nil in Hr.
  - intros x Hx Hn. by apply H in Hx.
  - intros r Hr. by apply not_elem_of_nil in Hr.
Qed.

Lemma cover_cuts T a b rs :
  cuts a b rs -> (forall x, a <= x < b -> ~ covered T x) ->
  (forall r, r ∈ rs -> range_size r = MAX_RANGE_SIZE \/ high r = b) ->
  a mod 8 = 0 -> b mod 8 = 0 -> cover T a b rs.
Proof.
  intros Hc Hn Hs Ha Hb. split.
  - intros r Hr. by apply (cuts_bounds _ _ _ _ Hc).
  - by eapply cuts_sorted.
  - intros r x Hr Hx. apply Hn. pose proof (cuts_bounds _ _ _ _ Hc Hr). unfold in_range in Hx. lia.
  - intros x Hx _. by eapply cuts_full.
  - by apply (cuts_aligned a b rs).
Qed.

Lemma cover_app T a m b rs qs :
  a <= m <= b -> cover T a m rs -> cover T m b qs -> cover T a b (rs ++ qs).
Proof.
  intros Hab H1 H2. split.
  - intros r [Hr | Hr]%elem_of_app.
    + pose proof (cv_each _ _ _ _ H1 r Hr). lia.
    + pose proof (cv_each _ _ _ _ H2 r Hr). lia.
  - apply StronglySorted_app. split_and!; [| apply H1 | apply H2]. intros r q Hr Hq.
    pose proof (cv_each _ _ _ _ H1 r Hr). pose proof (cv_each _ _ _ _ H2 q Hq). unfold below. lia.
  - intros r x [Hr | Hr]%elem_of_app; [by apply (cv_clean _ _ _ _ H1) | by apply (cv_clean _ _ _ _ H2)].
  - intros x Hx Hn. destruct (decide (x < m)).
    + destruct (cv_full _ _ _ _ H1 x) as (r & ? & ?); [lia | done |]. exists r. rewrite elem_of_app. auto.
    + destruct (cv_full _ _ _ _ H2 x) as (r & ? & ?); [lia | done |]. exists r. rewrite elem_of_app. auto.
  - intros r [Hr | Hr]%elem_of_app; [by apply (cv_aligned _ _ _ _ H1) | by apply (cv_aligned _ _ _ _ H2)].
Qed.

(** ** The whole region *)

Section collect_proofs.
Context (T : list (Z * Z)) (next_subrange : mem_range_t -> res (mem_range_t * mem_range_t)).
Context `{HT : !Subranges T next_subrange}.
Hypothesis (Haligned : forall q, q ∈ T -> q.1 mod 8 = 0 /\ q.2 mod 8 = 0).

(** How many owned blocks begin inside [a..b): each ends one piece. *)
Definition starts_in (a b : Z) : nat :=
  length (filter (fun q => a < q.1 /\ q.1 < b) T).

Lemma starts_in_le a b : (starts_in a b <= length T)%nat.
Proof. apply length_filter. Qed.

Lemma filter_length_lt (P Q : Z * Z -> Prop) `{!forall q, Decision (P q), !forall q, Decision (Q q)}
    (l : list (Z * Z)) q :
  (forall q, P q -> Q q) -> q ∈ l -> Q q -> ~ P q ->
  (length (filter P l) < length (filter Q l))%nat.
Proof.
  intros HPQ. induction l as [|x l IH]; intros Hin HQ HP; [by apply not_elem_of_nil in Hin |].
  assert (Hle : (length (filter P l) <= length (filter Q l))%nat).
  { clear IH Hin. induction l as [|y l IH]; [done |]. rewrite !filter_cons.
    repeat case_decide; cbn; try lia. exfalso. eauto. }
  rewrite !filter_cons. apply elem_of_cons in Hin as [<- | Hin].
  - rewrite decide_False, decide_True by done. cbn. lia.
  - specialize (IH Hin HQ HP). repeat case_decide; cbn; try lia. exfalso. eauto.
Qed.

Lemma starts_in_lt a m b q : q ∈ T -> q.1 = m -> a < m -> m < b -> (starts_in m b < starts_in a b)%nat.
Proof.
  intros Hq Em Ham Hmb. apply (filter_length_lt _ _ T q); [| done | lia | lia].
  intros p [? ?]. lia.
Qed.

Lemma starts_in_none a b : b <= a -> starts_in a b = 0%nat.
Proof.
  intros H. unfold starts_in. clear HT Haligned. induction T as [|q l IH]; [done |].
  rewrite filter_cons, decide_False by lia. done.
Qed.

(** The number of pieces, and of ranges, that may still be needed for
    [a..b). *)
Definition pieces (a b : Z) : nat := (starts_in a b + (if (a <? b)%Z then 1 else 0))%nat.
Definition need (a b : Z) : Z := Z.of_nat (pieces a b) + (b - a) / MAX_RANGE_SIZE.

(** The state of the loop: [rs] has been collected from [lo..low big). *)
Definition collecting (lo hi : Z) (st0 : ranges_t) (s : mem_range_t * ranges_t) : Prop :=
  let '(big, st) := s in
  high big = hi /\ lo <= low big <= hi /\ low big mod 8 = 0 /\
  exists rs, appended st0 rs st /\ cover T lo (low big) rs /\
    Z.of_nat (length rs) + need (low big) hi <= need lo hi /\
    g_bytes_to_scan st = u64 (g_bytes_to_scan st0 + total_size rs).

(** A piece [m..e) found in [a..hi) uses up what [need] set aside for it. *)
Lemma need_piece a m e hi n :
  a <= m -> m <= e -> a < e -> e <= hi -> (e = hi \/ exists q, q ∈ T /\ e = q.1) ->
  n <= 1 + (e - m) / MAX_RANGE_SIZE -> (m = e -> n = 0) ->
  n + need e hi <= need a hi /\ (pieces e hi < pieces a hi)%nat.
Proof using All.
  intros Ham Hme Hae Hehi He Hn Hn0. unfold need, pieces.
  rewrite (proj2 (Z.ltb_lt a hi)) by lia.
  assert (Hmono : (e - m) / MAX_RANGE_SIZE + (hi - e) / MAX_RANGE_SIZE <= (hi - a) / MAX_RANGE_SIZE).
  { etransitivity; [| apply (Z.div_le_mono (hi - m)); unfold MAX_RANGE_SIZE; lia].
    replace (hi - m) with ((e - m) + (hi - e)) by lia.
    unfold MAX_RANGE_SIZE. clear. Z.to_euclidean_division_equations. lia. }
  assert (H0 : 0 <= (e - m) / MAX_RANGE_SIZE) by (apply Z.div_pos; unfold MAX_RANGE_SIZE; lia).
  destruct (Z.ltb_spec e hi) as [Hlt | Hge].
  - destruct He as [-> | (q & Hq & Eq)]; [lia |].
    pose proof (starts_in_lt a e hi q Hq ltac:(done) Hae Hlt). split; lia.
  - rewrite (starts_in_none e hi) by lia. split; lia.
Qed.

Lemma collect_step_ok lo hi st0 s :
  0 <= lo -> hi < 2 ^ 63 -> hi mod 8 = 0 -> ranges_ok st0 ->
  g_n_ranges st0 + need lo hi < MAX_MARK_AND_SWEEP_RANGES ->
  collecting lo hi st0 s ->
  wp (collect_step next_subrange s) (fun c =>
    match c with
    | Next s' => collecting lo hi st0 s' /\ (pieces (low s'.1) hi < pieces (low s.1) hi)%nat
    | Done st' => exists rs, appended st0 rs st' /\ cover T lo hi rs /\ Z.of_nat (length rs) <= need lo hi /\
        g_bytes_to_scan st' = u64 (g_bytes_to_scan st0 + total_size rs)
    end).
Proof using All.
  intros Hlo0 Hhi Hh8 Hok0 Hroom. destruct s as [big st].
  intros (Eh & Hlow & Hl8 & rs & Happ & Hcov & Hneed & Hb). unfold collect_step. rewrite Eh.
  destruct (Z.eqb_spec (low big) hi) as [E | Hne]; cbn [negb].
  { wp_step. exists rs. assert (Hz : need (low big) hi = 0).
    { unfold need, pieces. rewrite E, starts_in_none, Z.ltb_irrefl, Z.sub_diag by lia. done. }
    rewrite Hz in Hneed. rewrite <- E at 1. split_and!; try done. lia. }
  wp_step. eapply wp_mono; [apply next_subrange_ok; lia |].
  intros [nx big'] [Hord [Erest Eh'] Hprog Hsl Hsh Hskip Hclean]. rewrite Eh in *.
  assert (Hn8 : low nx mod 8 = 0 /\ high nx mod 8 = 0).
  { split.
    - destruct Hsl as [-> | [-> | (q & Hq & ->)]]; [done | done | by apply Haligned].
    - destruct Hsh as [-> | (q & Hq & ->)]; [done | by apply Haligned]. }
  assert (Hskipc : cover T (low big) (low nx) []) by (apply cover_nil; [lia | done]).
  destruct (Z.eqb_spec (low nx) (high nx)) as [Ee | Hnx]; cbn [negb].
  - wp_step. wp_step. wp_step.
    destruct (need_piece (low big) (low nx) (high nx) hi 0) as [Hn Hm]; try lia;
      [done | rewrite Ee, Z.sub_diag; done |].
    split; [| cbn; by rewrite Erest].
    split; [done |]. rewrite Erest. split; [lia |]. split; [by destruct Hn8 |].
    exists rs. split; [done |]. rewrite <- Ee in *. split; [| split; [lia | done]].
    rewrite <- (app_nil_r rs). by apply (cover_app T lo (low big)); [lia | ..].
  - destruct (need_piece (low big) (low nx) (high nx) hi (1 + (high nx - low nx) / MAX_RANGE_SIZE))
      as [Hn Hm]; try lia; [done |].
    pose proof Happ as (Hok & _ & Hng).
    assert (0 <= need (high nx) hi).
    { unfold need. pose proof (Z.div_pos (hi - high nx) MAX_RANGE_SIZE ltac:(lia) ltac:(unfold MAX_RANGE_SIZE; lia)). lia. }
    wp_step. eapply wp_mono; [apply add_piece_ok; try done; try lia |].
    intros st' (qs & Happ' & Hcut & Hlen & Hsz & Hb').
    wp_step. split; [| cbn; by rewrite Erest].
    split; [done |]. rewrite Erest. split; [lia |]. split; [by destruct Hn8 |].
    exists (rs ++ qs). split; [by eapply appended_trans |]. split; [| split].
    + apply (cover_app T lo (low nx)); [lia | |].
      * rewrite <- (app_nil_r rs). by apply (cover_app T lo (low big)); [lia | ..].
      * destruct Hn8. by apply cover_cuts.
    + rewrite length_app. lia.
    + rewrite Hb', Hb, total_size_app, (cuts_size _ _ _ Hcut). unfold u64.
      rewrite Z.add_mod_idemp_l by lia. f_equal. lia.
Qed.

Lemma collect_loop_ok fuel lo hi st0 :
  0 <= lo <= hi -> hi < 2 ^ 63 -> lo mod 8 = 0 -> hi mod 8 = 0 -> ranges_ok st0 ->
  g_n_ranges st0 + need lo hi < MAX_MARK_AND_SWEEP_RANGES -> (length T + 1 < fuel)%nat ->
  wp (loop fuel (collect_step next_subrange) (mk_range lo hi, st0)) (fun st' =>
    exists rs, appended st0 rs st' /\ cover T lo hi rs /\ Z.of_nat (length rs) <= need lo hi /\
      g_bytes_to_scan st' = u64 (g_bytes_to_scan st0 + total_size rs)).
Proof using All.
  intros Hlo Hhi Hl8 Hh8 Hok Hroom Hfuel.
  apply (wp_loop (collecting lo hi st0) (fun s => pieces (low s.1) hi)).
  - split; [done |]. split; [cbn; lia |]. split; [done |]. exists []. split; [by apply appended_nil |].
    split; [apply cover_nil; cbn; lia |]. cbn. split; [lia |]. rewrite Z.add_0_r.
    rewrite u64_small; [done | apply Hok].
  - unfold pieces. cbn. pose proof (starts_in_le lo hi). destruct (lo <? hi); lia.
  - intros s Hs. by apply (collect_step_ok lo); [lia | ..].
Qed.

Lemma skip_region_ok lock lo hi bits path : exists b, skip_region lock lo hi bits path = Ok b.
Proof.
  unfold skip_region.
  destruct (proj1 (wp_iff _ _) (is_lib_wp (chars "libc") path)) as (b1 & -> & _).
  destruct (proj1 (wp_iff _ _) (is_lib_wp (chars "libdl") path)) as (b2 & -> & _).
  destruct (proj1 (wp_iff _ _) (is_lib_wp (chars "libforkscan") path)) as (b3 & -> & _).
  rewrite !bind_ok. repeat case_match; by eexists.
Qed.

Lemma collect_ranges_wp lock fuel lo hi bits path st :
  0 <= lo <= hi -> hi < 2 ^ 63 -> lo mod 8 = 0 -> hi mod 8 = 0 -> ranges_ok st ->
  g_n_ranges st + need lo hi < MAX_MARK_AND_SWEEP_RANGES -> (length T + 1 < fuel)%nat ->
  wp (collect_ranges next_subrange lock fuel lo hi bits path st) (fun '(ret, st') =>
    ret = 1 /\
    ((skip_region lock lo hi bits path = Ok true /\ st' = st) \/
     (skip_region lock lo hi bits path = Ok false /\
      exists rs, appended st rs st' /\ cover T lo hi rs /\ Z.of_nat (length rs) <= need lo hi /\
        g_bytes_to_scan st' = u64 (g_bytes_to_scan st + total_size rs)))).
Proof using All.
  intros. unfold collect_ranges. destruct (skip_region_ok lock lo hi bits path) as [b E].
  rewrite E, bind_ok. destruct b.
  - wp_step. split; [done |]. by left.
  - wp_step. eapply wp_mono; [by apply collect_loop_ok |]. intros st' Hst. wp_step.
    split; [done |]. by right.
Qed.
End collect_proofs.

(** [collect_ranges] either leaves a region out, by its permissions, its name
    or the lock of [stderr] in it, or appends to [g_ranges] ranges that hold
    exactly the region's memory outside Forkscan's own blocks: ascending,
    disjoint, word-aligned and at most 8 MB each; [g_bytes_to_scan] grows by
    their size.  It ends, and stays in the array, when there is room for one
    range per owned block and per 8 MB. *)
Theorem collect_ranges_correct T next_subrange lock fuel lo hi bits path st :
  Subranges T next_subrange -> (forall q, q ∈ T -> q.1 mod 8 = 0 /\ q.2 mod 8 = 0) ->
  0 <= lo <= hi -> hi < 2 ^ 63 -> lo mod 8 = 0 -> hi mod 8 = 0 -> ranges_ok st ->
  g_n_ranges st + need T lo hi < MAX_MARK_AND_SWEEP_RANGES -> (length T + 1 < fuel)%nat ->
  exists st', collect_ranges next_subrange lock fuel lo hi bits path st = Ok (1, st') /\
    ((skip_region lock lo hi bits path = Ok true /\ st' = st) \/
     (skip_region lock lo hi bits path = Ok false /\
      exists rs, appended st rs st' /\ cover T lo hi rs /\ Z.of_nat (length rs) <= need T lo hi /\
        g_bytes_to_scan st' = u64 (g_bytes_to_scan st + total_size rs))).
Proof.
  intros HT Ha Hlo Hhi Hl8 Hh8 Hok Hroom Hfuel.
  pose proof (collect_ranges_wp T next_subrange Ha lock fuel lo hi bits path st
    Hlo Hhi Hl8 Hh8 Hok Hroom Hfuel) as Hw.
  apply wp_iff in Hw as ([ret st'] & E & -> & H). by exists st'.
Qed.

(** No ranges yet. *)
Definition no_ranges : ranges_t :=
  mk_ranges (replicate (Z.to_nat MAX_MARK_AND_SWEEP_RANGES) (mk_range 0 0)) 0 0.

Lemma no_ranges_ok : ranges_ok no_ranges.
Proof.
  split; [unfold no_ranges; cbn [g_ranges]; by rewrite length_replicate |].
  split; [by vm_compute | by vm_compute].
Qed.

Lemma collect_ranges_correct_witness :
  exists l fl, alloc_inv one_block l fl /\
  exists st', collect_ranges (forkscan_alloc_next_subrange one_block) 0x5000 5 0x7000000 0x9000000
      (chars "rw-p") (chars "[heap]") no_ranges = Ok (1, st') /\
    ((skip_region 0x5000 0x7000000 0x9000000 (chars "rw-p") (chars "[heap]") = Ok true /\ st' = no_ranges) \/
     (skip_region 0x5000 0x7000000 0x9000000 (chars "rw-p") (chars "[heap]") = Ok false /\
      exists rs, appended no_ranges rs st' /\ cover (tracked (nodes one_block) l) 0x7000000 0x9000000 rs /\
        Z.of_nat (length rs) <= need (tracked (nodes one_block) l) 0x7000000 0x9000000 /\
        g_bytes_to_scan st' = u64 (g_bytes_to_scan no_ranges + total_size rs))).
Proof.
  destruct one_block_ok as (l & fl & Hinv & HT). exists l, fl. split; [done |].
  destruct l as [|x l]; [by apply Permutation_nil in HT |].
  pose proof (Permutation_length HT) as Hlen. cbn [length] in Hlen.
  apply (collect_ranges_correct (tracked (nodes one_block) (x :: l))).
  - by apply (alloc_subranges one_block x l fl).
  - intros q Hq. rewrite HT in Hq.
    apply elem_of_cons in Hq as [-> | ->%list_elem_of_singleton]; by vm_compute.
  - lia.
  - lia.
  - done.
  - done.
  - apply no_ranges_ok.
  - unfold need, pieces. pose proof (starts_in_le (tracked (nodes one_block) (x :: l)) 0x7000000 0x9000000).
    change (g_n_ranges no_ranges) with 0. change ((0x9000000 - 0x7000000) / MAX_RANGE_SIZE) with 4.
    change (0x7000000 <? 0x9000000) with true. unfold MAX_MARK_AND_SWEEP_RANGES. lia.
  - rewrite Hlen. lia.
Defined.

(** ** Past the end of the array *)

Lemma push_range_full v st : ranges_ok st -> g_n_ranges st = MAX_MARK_AND_SWEEP_RANGES ->
  push_range v st = Err OutOfBounds.
Proof.
  intros (Hl & _) E. unfold push_range, wr_range.
  by rewrite E, Hl, Z.ltb_irrefl, andb_false_r.
Qed.

Lemma cut_overflow k fuel nx st :
  ranges_ok st -> g_n_ranges st + Z.of_nat k = MAX_MARK_AND_SWEEP_RANGES -> (k < fuel)%nat ->
  0 <= low nx -> high nx < 2 ^ 63 -> low nx + (Z.of_nat k + 1) * MAX_RANGE_SIZE < high nx ->
  loop fuel cut_step (nx, st) = Err OutOfBounds.
Proof.
  revert fuel nx st. induction k as [|k IH]; intros fuel nx st Hok Hn Hf Hl Hh Hlt;
    (destruct fuel as [|fuel]; [lia |]); rewrite loop_S;
    change (cut_step (nx, st)) with
      (if u64 (low nx + MAX_RANGE_SIZE) <? high nx then
         let! st := push_range (mk_range (low nx) (u64 (low nx + MAX_RANGE_SIZE))) st in
         Ok (Next (mk_range (u64 (low nx + MAX_RANGE_SIZE)) (high nx), st))
       else Ok (@Done (mem_range_t * ranges_t) _ (nx, st)));
    rewrite u64_small by (unfold size_ok, MAX_RANGE_SIZE in *; lia);
    rewrite (proj2 (Z.ltb_lt _ _)) by (unfold MAX_RANGE_SIZE in *; lia).
  - rewrite push_range_full by (done || lia). done.
  - assert (Hpush : exists st', push_range (mk_range (low nx) (low nx + MAX_RANGE_SIZE)) st = Ok st' /\
      appended st [mk_range (low nx) (low nx + MAX_RANGE_SIZE)] st').
    { apply wp_iff. apply push_range_ok; [done | lia | done]. }
    destruct Hpush as (st' & -> & (Hok' & _ & Hn')). rewrite !bind_ok. cbn in Hn'.
    apply IH; [done | lia | lia | cbn; unfold MAX_RANGE_SIZE; lia | done |].
    cbn. unfold MAX_RANGE_SIZE in *. lia.
Qed.

(** The bound on the number of ranges is only checked after the last range
    of a piece: a piece larger than 8 MB times the free entries makes the
    loop that cuts it store beyond [g_ranges] before. *)
Theorem add_piece_overflows next st :
  ranges_ok st -> 0 <= low next -> high next < 2 ^ 63 ->
  low next + (MAX_MARK_AND_SWEEP_RANGES - g_n_ranges st + 1) * MAX_RANGE_SIZE < high next ->
  add_piece next st = Err OutOfBounds.
Proof.
  intros (Hl & Hn & Hb) Hlo Hhi Hbig. unfold add_piece.
  rewrite (cut_overflow (Z.to_nat (MAX_MARK_AND_SWEEP_RANGES - g_n_ranges st))); [done | | cbn; lia | | done | done | rewrite Z2Nat.id by lia; done].
  - split; [done | split; [done | apply u64_range]].
  - unfold cut_fuel.
    pose proof (Z.div_le_lower_bound (high next - low next) MAX_RANGE_SIZE
      (MAX_MARK_AND_SWEEP_RANGES - g_n_ranges st + 1) ltac:(done) ltac:(lia)). lia.
Qed.

Lemma add_piece_overflows_witness :
  add_piece (mk_range 0x7f0000000000 0x7fa000000000) no_ranges = Err OutOfBounds.
Proof.
  apply (add_piece_overflows (mk_range 0x7f0000000000 0x7fa000000000) no_ranges);
    [apply no_ranges_ok | by vm_compute..].
Defined.

(** * The stacks *)

Definition stack_ranges (tl : list stack_t) : list mem_range_t :=
  (fun td => mk_range (user_stack_low td) (user_stack_high td)) <$>
  filter (fun td => stack_is_ours td = true) tl.

Lemma stack_ranges_cons td tl :
  stack_ranges (td :: tl) =
    if stack_is_ours td then mk_range (user_stack_low td) (user_stack_high td) :: stack_ranges tl
    else stack_ranges tl.
Proof. unfold stack_ranges. rewrite filter_cons. by destruct (stack_is_ours td). Qed.

Lemma set_bytes_ok st b : ranges_ok st -> ranges_ok (mk_ranges (g_ranges st) (g_n_ranges st) (u64 b)).
Proof. intros (H1 & H2 & _). split; [done | split; [done | apply u64_range]]. Qed.

(** [add_stack_ranges] appends the stack of every thread whose stack is the
    library's to scan, in list order, whole; there is no check of the array's
    size, and one stack too many is stored outside. *)
Theorem add_stack_ranges_appends tl st :
  ranges_ok st ->
  (g_n_ranges st + Z.of_nat (length (stack_ranges tl)) <= MAX_MARK_AND_SWEEP_RANGES ->
   exists st', add_stack_ranges tl st = Ok st' /\ appended st (stack_ranges tl) st' /\
     g_bytes_to_scan st' = u64 (g_bytes_to_scan st + total_size (stack_ranges tl))) /\
  (MAX_MARK_AND_SWEEP_RANGES < g_n_ranges st + Z.of_nat (length (stack_ranges tl)) ->
   add_stack_ranges tl st = Err OutOfBounds).
Proof.
  revert st. induction tl as [|td tl IH]; intros st Hok.
  - split; [intros _ | intros H; destruct Hok as (_ & ? & _); cbn in H; lia].
    exists st. split; [done |]. split; [by apply appended_nil |]. cbn. rewrite Z.add_0_r.
    symmetry. apply u64_small, Hok.
  - rewrite stack_ranges_cons. cbn [add_stack_ranges]. destruct (stack_is_ours td); [| by apply IH].
    set (r := mk_range _ _). set (st1 := mk_ranges _ _ _).
    pose proof (set_bytes_ok st (g_bytes_to_scan st + (user_stack_high td - user_stack_low td)) Hok) as Hok1.
    fold st1 in Hok1. cbn [length]. destruct (decide (g_n_ranges st = MAX_MARK_AND_SWEEP_RANGES)) as [E | Hne].
    { rewrite push_range_full by done. split; [lia | done]. }
    assert (Hlt : g_n_ranges st1 < MAX_MARK_AND_SWEEP_RANGES) by (destruct Hok as (_ & ? & _); cbn; lia).
    assert (Hpush : exists st', push_range r st1 = Ok st' /\ appended st1 [r] st' /\
        g_bytes_to_scan st' = g_bytes_to_scan st1) by (apply wp_iff, push_range_ok; auto).
    destruct Hpush as (st2 & -> & Happ & Hb2). rewrite bind_ok.
    pose proof Happ as (Hok2 & _ & Hn2). cbn in Hn2. destruct (IH st2 Hok2) as [IH1 IH2].
    split; intros H; [| apply IH2; lia].
    destruct IH1 as (st3 & E3 & Happ3 & Hb3); [lia |]. exists st3. split; [done |].
    split; [exact (appended_trans st1 [r] st2 (stack_ranges tl) st3 Happ Happ3) |].
    rewrite Hb3, Hb2. cbn. unfold u64, range_size. rewrite Z.add_mod_idemp_l by lia. cbn. f_equal.
    unfold total_size, range_size. lia.
Qed.

Lemma add_stack_ranges_appends_witness :
  let tl := [mk_stack 0x1000 0x3000 true; mk_stack 0x5000 0x6000 false; mk_stack 0x8000 0x9000 true] in
  (g_n_ranges no_ranges + Z.of_nat (length (stack_ranges tl)) <= MAX_MARK_AND_SWEEP_RANGES ->
   exists st', add_stack_ranges tl no_ranges = Ok st' /\ appended no_ranges (stack_ranges tl) st' /\
     g_bytes_to_scan st' = u64 (g_bytes_to_scan no_ranges + total_size (stack_ranges tl))) /\
  (MAX_MARK_AND_SWEEP_RANGES < g_n_ranges no_ranges + Z.of_nat (length (stack_ranges tl)) ->
   add_stack_ranges tl no_ranges = Err OutOfBounds).
Proof. intros tl. apply (add_stack_ranges_appends tl no_ranges). apply no_ranges_ok. Defined.
