(* ===== verification/Child.v ===== *)
(** [forkscan_child] of child.c: the scan as a whole.

    First one sibling by itself: it takes the ranges one after the other and
    empties its lookaside list at the end.  Then all siblings: they share the
    counters [root_counter] and [roots_completed] and take ranges with
    [__sync_fetch_and_add]; a run is a schedule, the list of the siblings
    whose turn it is, and a turn is what happens up to the next access of a
    shared counter.  The write to the parent's pipe is the flag [notified]. *)
From S2P Require Import Prelude AddrBuffer Search Mark Roots Alloc Ranges.

Definition MEMORY_THRESHOLD : Z := 1024 * 1024 * 16.

(** How many processes scan; [max_children] is [g_forkscan_max_children].
    The division and the first minimum are in [size_t]. *)
Definition n_siblings (max_children bytes_to_scan n_ranges : Z) : Z :=
  let n := to_int (MIN_OF (u64 max_children) (bytes_to_scan / MEMORY_THRESHOLD)) in
  let n := MIN_OF n n_ranges in
  MAX_OF n 1.

Section child.
Context (mem usable_size : Z -> Z).

(** The body of the loop over ranges. *)
Definition scan_range (st : ranges_t) (deadrefs : addr_buffer_t) (rid : Z) (sc : scan_t) : res scan_t :=
  match g_ranges st !! Z.to_nat rid with
  | Some r => find_roots mem usable_size (low r) (high r) deadrefs sc
  | None => Err OutOfBounds
  end.

(** "Catch any remainders." *)
Definition catch_remainders (ts : trace_stats_t) (sc : scan_t) : res scan_t :=
  if g_lookaside_count sc >? 0 then lookup_lookaside_list mem usable_size sc ts else Ok sc.

(** A sibling that gets all the ranges. *)
Definition scan_alone (st : ranges_t) (deadrefs : addr_buffer_t) (sc : scan_t) : res scan_t :=
  let ab := sc_ab sc in
  let! first := rd (ab_addrs ab) 0 in
  let! last := rd (ab_addrs ab) (ab_n_addrs ab - 1) in
  let ts := {| ts_min := PTR_MASK first; ts_max := PTR_MASK last |} in
  let! sc := for_range 0 (g_n_ranges st) (scan_range st deadrefs) sc in
  catch_remainders ts sc.
End child.

(** * The number of siblings *)

(** Between one and [max_children] processes scan, never more than there are
    ranges (if there are any) or full 16 MB blocks to scan. *)
Theorem n_siblings_bounds max_children bytes n_ranges :
  1 <= max_children <= 16 -> size_ok bytes -> 0 <= n_ranges <= MAX_MARK_AND_SWEEP_RANGES ->
  let n := n_siblings max_children bytes n_ranges in
  1 <= n <= max_children /\ (1 < n -> n <= n_ranges /\ n * MEMORY_THRESHOLD <= bytes).
Proof.
  intros Hm Hb Hn n. unfold n, n_siblings. clear n. rewrite !MIN_OF_min, MAX_OF_max.
  rewrite (u64_small max_children) by (unfold size_ok; lia).
  assert (0 <= bytes / MEMORY_THRESHOLD) by (apply Z.div_pos; unfold MEMORY_THRESHOLD, size_ok in *; lia).
  rewrite to_int_small by (unfold int_ok, INT_MIN, INT_MAX; lia).
  pose proof (Z.mul_div_le bytes MEMORY_THRESHOLD ltac:(done)).
  unfold MEMORY_THRESHOLD in *. lia.
Qed.

Lemma n_siblings_bounds_witness :
  let n := n_siblings 16 100000000 40 in
  1 <= n <= 16 /\ (1 < n -> n <= 40 /\ n * MEMORY_THRESHOLD <= 100000000).
Proof. apply (n_siblings_bounds 16 100000000 40); [lia | done | done]. Defined.

(** * One sibling *)

Section alone.
Context (mem usable_size : Z -> Z) (sc0 : scan_t) (dead : addr_buffer_t) (st : ranges_t).
Hypotheses (L : heap_layout usable_size (sc_ab sc0) dead) (Hsc0 : scan_ok sc0)
  (Hcount : g_lookaside_count sc0 < LOOKASIDE_SZ) (Hst : ranges_ok st)
  (Hranges : forall r, r ∈ used st -> 0 <= low r <= high r /\ high r < 2 ^ 64 /\
     low r mod 8 = 0 /\ high r mod 8 = 0).

(** The words of the first [n] ranges. *)
Definition words_of (rs : list mem_range_t) (w : Z) : Prop :=
  exists r, r ∈ rs /\ range_words usable_size sc0 dead (low r) (high r) w.

Lemma scan_range_ok n sc :
  0 <= n < g_n_ranges st ->
  scanned_to mem usable_size sc0 (words_of (take (Z.to_nat n) (g_ranges st))) sc ->
  g_lookaside_count sc < LOOKASIDE_SZ ->
  wp (scan_range mem usable_size st dead n sc) (fun sc' =>
    scanned_to mem usable_size sc0 (words_of (take (Z.to_nat (n + 1)) (g_ranges st))) sc' /\
    g_lookaside_count sc' < LOOKASIDE_SZ).
Proof using All.
  intros Hn Hsc Hc. destruct Hst as (Hlen & Hnr & _). unfold MAX_MARK_AND_SWEEP_RANGES in *.
  unfold scan_range. destruct (g_ranges st !! Z.to_nat n) as [r|] eqn:E.
  2: { apply lookup_ge_None in E. lia. }
  destruct (Hranges r) as (H1 & H2 & H3 & H4).
  { unfold used. apply list_elem_of_lookup. exists (Z.to_nat n). by rewrite lookup_take_lt by lia. }
  eapply wp_mono; [apply (find_roots_ok mem usable_size sc0 dead L (words_of (take (Z.to_nat n) (g_ranges st)))
    (low r) (high r) sc); done || lia |].
  intros sc' [Hs Hc']. split; [| done]. revert Hs. apply scanned_ext. intros w.
  replace (Z.to_nat (n + 1)) with (Datatypes.S (Z.to_nat n)) by lia. rewrite (take_S_r _ _ r) by done.
  unfold words_of. split.
  - intros [(q & Hq & Hw) | Hw]; [exists q | exists r]; rewrite elem_of_app, list_elem_of_singleton; auto.
  - intros (q & [Hq | ->%list_elem_of_singleton]%elem_of_app & Hw); [left; by exists q | by right].
Qed.

Lemma scan_alone_wp :
  wp (scan_alone mem usable_size st dead sc0) (fun sc' =>
    scanned_to mem usable_size sc0 (words_of (used st)) sc' /\ g_lookaside_count sc' = 0).
Proof using All.
  pose proof (hl_pool _ _ _ L) as W. pose proof (wf_n _ W). pose proof (wf_room _ W).
  unfold scan_alone. wp_step. wp_step; [lia |]. wp_step. wp_step; [lia |]. cbn beta zeta.
  change {| ts_min := _; ts_max := _ |} with (stats (sc_ab sc0)).
  wp_step. apply (wp_for_range (fun n sc =>
    scanned_to mem usable_size sc0 (words_of (take (Z.to_nat n) (g_ranges st))) sc /\
    g_lookaside_count sc < LOOKASIDE_SZ)).
  - destruct Hst as (_ & ? & _). lia.
  - split; [| done]. generalize (scanned_start mem usable_size sc0 Hsc0). apply scanned_ext.
    intros w. split; [done |]. intros (r & Hr & _). by apply not_elem_of_nil in Hr.
  - intros n sc Hn [Hs Hc]. by apply scan_range_ok.
  - intros sc [Hs Hc]. unfold catch_remainders. rewrite Z.gtb_ltb.
    destruct (Z.ltb_spec 0 (g_lookaside_count sc)) as [Hpos | Hz].
    + by apply scanned_drain.
    + wp_step. split; [done |]. pose proof (so_count _ (st_ok _ _ _ _ _ Hs)). lia.
Qed.
End alone.

(** A scan of all ranges ends, and leaves no tracked node unmarked that a word
    in one of them refers to, outside the tracked and the dead blocks; nothing
    is marked without such a word referring to it or to a node that refers to
    it, and the lookaside list is empty. *)
Theorem scan_alone_marks_roots mem usable_size sc dead st :
  heap_layout usable_size (sc_ab sc) dead -> scan_ok sc -> g_lookaside_count sc = 0 -> ranges_ok st ->
  (forall r, r ∈ used st -> 0 <= low r <= high r /\ high r < 2 ^ 64 /\
     low r mod 8 = 0 /\ high r mod 8 = 0) ->
  exists sc', scan_alone mem usable_size st dead sc = Ok sc' /\
    pool_wf (sc_ab sc') /\ g_lookaside_count sc' = 0 /\
    (forall w, words_of usable_size sc dead (used st) w -> ~ unmarked (sc_ab sc') (ref_at mem w)) /\
    (forall v, unmarked (sc_ab sc) v -> ~ unmarked (sc_ab sc') v ->
       exists w, words_of usable_size sc dead (used st) w /\
         (v = ref_at mem w \/ v ∈ refs mem usable_size (ref_at mem w))).
Proof.
  intros L Hok Hc Hst Hr.
  pose proof (scan_alone_wp mem usable_size sc dead st L Hok ltac:(by rewrite Hc) Hst Hr) as Hw.
  apply wp_iff in Hw as (sc' & E & Hs & Hc'). exists sc'. split; [done |].
  assert (Hnone : forall s v, g_lookaside_count s = 0 -> ~ pending s v)
    by (intros s v Hs0 (i & Hi & _); lia).
  pose proof Hs as [[W' _ _ _] (us & Eab & Hus & Hfrom) _ Hfound].
  split; [done |]. split; [done |]. split.
  - intros w Hw. destruct (Hfound (ref_at mem w)) as [Hp | Hm]; [right; by exists w | | done].
    by apply Hnone in Hp.
  - intros v Hv Hm. destruct (Hfrom v) as (u & [Hu | (w & Hw & <-)] & Hvu).
    + destruct (decide (v ∈ us)); [done |]. exfalso. apply Hm. rewrite Eab.
      apply unmarked_mark_all; [apply Hok | done | done].
    + by apply Hnone in Hu.
    + by exists w.
Qed.

(** One range, stored by [collect_ranges]. *)
Definition one_range (lo hi : Z) : ranges_t :=
  mk_ranges (<[0%nat := mk_range lo hi]> (g_ranges no_ranges)) 1 (hi - lo).

Lemma one_range_ok lo hi : size_ok (hi - lo) ->
  ranges_ok (one_range lo hi) /\ used (one_range lo hi) = [mk_range lo hi].
Proof.
  intros H. destruct no_ranges_ok as (Hl & _). split.
  - split; [cbn [one_range g_ranges]; by rewrite length_insert |].
    cbn [one_range g_n_ranges g_bytes_to_scan]. unfold MAX_MARK_AND_SWEEP_RANGES. split; [lia | exact H].
  - unfold used. cbn [one_range g_ranges g_n_ranges].
    assert (Hlt : (0 < length (g_ranges no_ranges))%nat) by (unfold MAX_MARK_AND_SWEEP_RANGES in *; lia).
    generalize dependent (g_ranges no_ranges). intros [|r rs] _ Hlt; [cbn in Hlt; lia |]. done.
Qed.

Lemma scan_alone_marks_roots_witness :
  let sc := demo_scan [] in let st := one_range 0xf8 0x318 in
  exists sc', scan_alone demo_mem demo_usable st demo_dead sc = Ok sc' /\
    pool_wf (sc_ab sc') /\ g_lookaside_count sc' = 0 /\
    (forall w, words_of demo_usable sc demo_dead (used st) w -> ~ unmarked (sc_ab sc') (ref_at demo_mem w)) /\
    (forall v, unmarked (sc_ab sc) v -> ~ unmarked (sc_ab sc') v ->
       exists w, words_of demo_usable sc demo_dead (used st) w /\
         (v = ref_at demo_mem w \/ v ∈ refs demo_mem demo_usable (ref_at demo_mem w))).
Proof.
  intros sc st. apply (scan_alone_marks_roots demo_mem demo_usable sc demo_dead st);
    [apply demo_layout | apply demo_scan_ok | done | by apply one_range_ok |].
  intros r Hr. destruct (one_range_ok 0xf8 0x318 ltac:(done)) as [_ E].
  unfold st in Hr. rewrite E in Hr. apply list_elem_of_singleton in Hr as ->. by vm_compute.
Defined.

(** Together with [collect_ranges]: when the ranges are what it makes of a
    region [lo..hi), no root of the whole region is missed: a tracked node
    referred to by any aligned word of it that is neither Forkscan's own
    memory ([T]) nor in a tracked or dead block is marked. *)
Theorem region_roots_marked mem usable_size sc dead st T lo hi :
  heap_layout usable_size (sc_ab sc) dead -> scan_ok sc -> g_lookaside_count sc = 0 -> ranges_ok st ->
  0 <= lo -> hi < 2 ^ 63 -> cover T lo hi (used st) ->
  exists sc', scan_alone mem usable_size st dead sc = Ok sc' /\
    (forall w, w mod 8 = 0 -> lo <= w < hi -> ~ covered T w -> ~ in_block usable_size (sc_ab sc) dead w ->
       ~ unmarked (sc_ab sc') (ref_at mem w)).
Proof.
  intros L Hok Hc Hst Hlo Hhi Hcov.
  pose proof (scan_alone_wp mem usable_size sc dead st L Hok ltac:(by rewrite Hc) Hst) as Hw.
  apply wp_iff in Hw as (sc' & E & Hs & Hc').
  - exists sc'. split; [done |]. intros w Hw8 Hw Hnt Hnb.
    destruct (cv_full _ _ _ _ Hcov w Hw Hnt) as (r & Hr & Hin).
    destruct (st_found _ _ _ _ _ Hs (ref_at mem w)) as [(i & Hi & _) | Hm]; [| lia | done].
    right. exists w. split; [| done]. exists r. split; [done |]. by split.
  - intros r Hr. pose proof (cv_each _ _ _ _ Hcov r Hr). pose proof (cv_aligned _ _ _ _ Hcov r Hr). lia.
Qed.

Lemma region_roots_marked_witness :
  exists sc', scan_alone demo_mem demo_usable (one_range 0xf8 0x318) demo_dead (demo_scan []) = Ok sc' /\
    (forall w, w mod 8 = 0 -> 0xf8 <= w < 0x318 -> ~ covered [] w ->
       ~ in_block demo_usable (sc_ab (demo_scan [])) demo_dead w ->
       ~ unmarked (sc_ab sc') (ref_at demo_mem w)).
Proof.
  destruct (one_range_ok 0xf8 0x318 ltac:(done)) as [Hok E].
  apply (region_roots_marked demo_mem demo_usable (demo_scan []) demo_dead (one_range 0xf8 0x318) []);
    [apply demo_layout | apply demo_scan_ok | done | done | lia | lia |].
  rewrite E. apply cover_cuts; [by vm_compute | | | done | done].
  - intros x _ (r & Hr & _). by apply not_elem_of_nil in Hr.
  - intros r ->%list_elem_of_singleton. by right.
Defined.

(** * The siblings *)

(** Where a sibling is: before the next [__sync_fetch_and_add] on
    [root_counter], at work on range [rid], done with its ranges and its
    lookaside list, or past the end of [forkscan_child].  [k] is its local
    [roots_completed]. *)
Inductive sibling_t : Type :=
  | Fetching (k : Z)
  | Scanning (rid k : Z)
  | Finished (k : Z)
  | Exited (k : Z) (notified : bool).

Record siblings_t : Type := mk_siblings {
  root_counter : Z;
  roots_completed : Z;
  sibs : list sibling_t;
  scanned : list Z }.       (* the ranges scanned so far, for the statements *)

(** One turn of a sibling. *)
Definition sibling_turn (n_ranges : Z) (s : siblings_t) (p : sibling_t) : siblings_t * sibling_t :=
  match p with
  | Fetching k =>
      let rid := root_counter s in
      let s := mk_siblings (root_counter s + 1) (roots_completed s) (sibs s) (scanned s) in
      (s, if rid <? n_ranges then Scanning rid k else Finished k)
  | Scanning rid k =>
      (mk_siblings (root_counter s) (roots_completed s) (sibs s) (rid :: scanned s), Fetching (k + 1))
  | Finished k =>
      let total_roots := roots_completed s + k in
      (mk_siblings (root_counter s) total_roots (sibs s) (scanned s),
       Exited k (total_roots =? n_ranges))
  | Exited k b => (s, Exited k b)
  end.

Definition turn (n_ranges : Z) (s : siblings_t) (i : nat) : siblings_t :=
  match sibs s !! i with
  | Some p =>
      let '(s, p) := sibling_turn n_ranges s p in
      mk_siblings (root_counter s) (roots_completed s) (<[i := p]> (sibs s)) (scanned s)
  | None => s
  end.

Definition run_siblings (n_ranges : Z) (s : siblings_t) (schedule : list nat) : siblings_t :=
  foldl (turn n_ranges) s schedule.

(** After the forks. *)
Definition siblings_start (n : nat) : siblings_t := mk_siblings 0 0 (replicate n (Fetching 0)) [].

Definition finished (p : sibling_t) : bool :=
  match p with Exited _ _ => true | _ => false end.
Definition notifies (p : sibling_t) : bool :=
  match p with Exited _ b => b | _ => false end.

(** ** The invariant *)

Definition at_work (p : sibling_t) : list Z :=
  match p with Scanning rid _ => [rid] | _ => [] end.
Definition completed (p : sibling_t) : Z :=
  match p with Fetching k => k | Scanning _ k => k | Finished k => k | Exited k _ => k end.
Definition reported (p : sibling_t) : Z :=
  match p with Exited k _ => k | _ => 0 end.
Definition out_of_ranges (p : sibling_t) : bool :=
  match p with Finished _ | Exited _ _ => true | _ => false end.

Definition sum_of (f : sibling_t -> Z) (ps : list sibling_t) : Z := foldr (fun p n => f p + n) 0 ps.
Definition working (ps : list sibling_t) : list Z := concat (at_work <$> ps).

(** [taken] is the number of ranges handed out. *)
Definition taken (n_ranges : Z) (s : siblings_t) : Z := Z.min (root_counter s) n_ranges.

Record siblings_inv (n_ranges : Z) (s : siblings_t) : Prop := {
  sv_counter : 0 <= root_counter s;
  sv_split : working (sibs s) ++ scanned s ≡ₚ (Z.of_nat <$> seq 0 (Z.to_nat (taken n_ranges s)));
  sv_completed : sum_of completed (sibs s) = Z.of_nat (length (scanned s));
  sv_reported : roots_completed s = sum_of reported (sibs s);
  sv_pos : forall p, p ∈ sibs s -> 0 <= completed p;
  sv_out : forall p, p ∈ sibs s -> out_of_ranges p = true -> n_ranges <= root_counter s;
  sv_notify : forall p, p ∈ sibs s -> notifies p = true -> Z.of_nat (length (scanned s)) = n_ranges;
  sv_last : roots_completed s = n_ranges -> (exists p, p ∈ sibs s /\ finished p = true) ->
    exists p, p ∈ sibs s /\ notifies p = true }.

Lemma sum_of_app f ps qs : sum_of f (ps ++ qs) = sum_of f ps + sum_of f qs.
Proof. unfold sum_of. induction ps as [|p ps IH]; cbn; [done |]. rewrite IH. lia. Qed.

Lemma sum_of_cons f p ps : sum_of f (p :: ps) = f p + sum_of f ps.
Proof. done. Qed.

Lemma sum_of_le f g ps : (forall p, p ∈ ps -> f p <= g p) -> sum_of f ps <= sum_of g ps.
Proof.
  intros H. induction ps as [|p ps IH]; [done |]. rewrite !sum_of_cons.
  pose proof (H p ltac:(left)). assert (sum_of f ps <= sum_of g ps) by (apply IH; intros q Hq; apply H; by right).
  lia.
Qed.

Lemma working_app ps qs : working (ps ++ qs) = working ps ++ working qs.
Proof. unfold working. by rewrite fmap_app, concat_app. Qed.

Lemma working_cons p ps : working (p :: ps) = at_work p ++ working ps.
Proof. done. Qed.

Section invariant.
Context (n_ranges : Z) (Hn : 0 <= n_ranges).

Lemma taken_spec s : 0 <= root_counter s -> 0 <= taken n_ranges s <= n_ranges.
Proof using Hn. unfold taken. lia. Qed.

(** No more ranges are scanned than there are, and fewer while one is being
    scanned. *)
Lemma scanned_length s : siblings_inv n_ranges s ->
  Z.of_nat (length (working (sibs s))) + Z.of_nat (length (scanned s)) = taken n_ranges s.
Proof using Hn.
  intros H. pose proof (taken_spec s (sv_counter _ _ H)).
  pose proof (Permutation_length (sv_split _ _ H)) as E.
  rewrite length_app, length_fmap, length_seq in E. lia.
Qed.

Lemma reported_le s : siblings_inv n_ranges s -> sum_of reported (sibs s) <= Z.of_nat (length (scanned s)).
Proof using Hn.
  intros H. rewrite <- (sv_completed _ _ H). apply sum_of_le. intros p Hp.
  pose proof (sv_pos _ _ H p Hp). by destruct p; cbn in *.
Qed.

Section one_turn.
Context (s : siblings_t) (ps1 ps2 : list sibling_t) (p : sibling_t).
Hypotheses (Hinv : siblings_inv n_ranges s) (Hps : sibs s = ps1 ++ p :: ps2).

Lemma turn_fetch k : p = Fetching k ->
  let rid := root_counter s in
  siblings_inv n_ranges (mk_siblings (rid + 1) (roots_completed s)
    (ps1 ++ (if rid <? n_ranges then Scanning rid k else Finished k) :: ps2) (scanned s)).
Proof using All.
  intros -> rid. pose proof Hinv as [H1 H2 H3 H4 H5 H6 H7 H8]. rewrite Hps in *.
  assert (Hq : forall q, q ∈ ps1 ++ ps2 -> q ∈ ps1 ++ Fetching k :: ps2)
    by (intros q Hq; apply in_mid; by right).
  set (p' := if rid <? n_ranges then Scanning rid k else Finished k).
  assert (Hp' : completed p' = k /\ reported p' = 0 /\ finished p' = false /\ notifies p' = false)
    by (unfold p'; by destruct (rid <? n_ranges)).
  destruct Hp' as (C' & R' & F' & N').
  split; cbn [root_counter roots_completed sibs scanned].
  - lia.
  - rewrite working_app, working_cons in H2 |- *. cbn [at_work app] in H2.
    unfold taken in *. cbn [root_counter]. fold rid in H2. unfold p'.
    destruct (Z.ltb_spec rid n_ranges) as [Hlt | Hge]; cbn [at_work app].
    + rewrite Z.min_l in * by lia.
      replace (Z.to_nat (rid + 1)) with (Z.to_nat rid + 1)%nat by lia.
      rewrite seq_app, fmap_app. cbn. rewrite <- H2, Z2Nat.id by lia. solve_Permutation.
    + rewrite Z.min_r in * by lia. done.
  - rewrite sum_of_app, sum_of_cons in H3 |- *. rewrite C'. done.
  - rewrite H4. rewrite !sum_of_app, !sum_of_cons, R'. done.
  - intros q [-> | Hq']%in_mid; [rewrite C' | by apply H5, Hq].
    apply (H5 (Fetching k)). apply in_mid. by left.
  - intros q [-> | Hq']%in_mid Ho; [| specialize (H6 q (Hq q Hq') Ho); lia].
    unfold p' in Ho. destruct (Z.ltb_spec rid n_ranges); [done | lia].
  - intros q [-> | Hq']%in_mid Ho; [congruence | by apply (H7 q); [apply Hq |]].
  - intros E (q & [-> | Hq']%in_mid & Hf); [congruence |].
    destruct (H8 E) as (r & [-> | Hr]%in_mid & Hr'); [by exists q; split; [apply Hq |] | done |].
    exists r. split; [apply in_mid; by right | done].
Qed.

Lemma turn_scan rid k : p = Scanning rid k ->
  siblings_inv n_ranges (mk_siblings (root_counter s) (roots_completed s)
    (ps1 ++ Fetching (k + 1) :: ps2) (rid :: scanned s)).
Proof using All.
  intros ->. pose proof (scanned_length s Hinv) as Hlen. pose proof Hinv as [H1 H2 H3 H4 H5 H6 H7 H8].
  pose proof (taken_spec s H1). rewrite Hps in *.
  rewrite working_app, working_cons, !length_app in Hlen. cbn [at_work length] in Hlen.
  assert (Hq : forall q, q ∈ ps1 ++ ps2 -> q ∈ ps1 ++ Scanning rid k :: ps2)
    by (intros q Hq; apply in_mid; by right).
  split; cbn [root_counter roots_completed sibs scanned length].
  - done.
  - change (taken n_ranges (mk_siblings _ _ _ _)) with (taken n_ranges s). rewrite <- H2.
    rewrite !working_app, !working_cons. cbn [at_work app]. solve_Permutation.
  - rewrite sum_of_app, sum_of_cons in H3 |- *. cbn [completed] in *. lia.
  - rewrite H4. rewrite !sum_of_app, !sum_of_cons. done.
  - intros q [-> | Hq']%in_mid; [| by apply H5, Hq].
    pose proof (H5 (Scanning rid k) ltac:(apply in_mid; by left)). cbn in *. lia.
  - intros q [-> | Hq']%in_mid Ho; [done | by apply (H6 q); [apply Hq |]].
  - intros q [-> | Hq']%in_mid Ho; [done |]. specialize (H7 q (Hq q Hq') Ho). lia.
  - intros E (q & [-> | Hq']%in_mid & Hf); [done |].
    destruct (H8 E) as (r & [-> | Hr]%in_mid & Hr'); [by exists q; split; [apply Hq |] | done |].
    exists r. split; [apply in_mid; by right | done].
Qed.

Lemma turn_finish k : p = Finished k ->
  let total_roots := roots_completed s + k in
  siblings_inv n_ranges (mk_siblings (root_counter s) total_roots
    (ps1 ++ Exited k (total_roots =? n_ranges) :: ps2) (scanned s)).
Proof using All.
  intros -> total. pose proof (scanned_length s Hinv) as Hlen.
  pose proof (reported_le s Hinv) as Hle. pose proof Hinv as [H1 H2 H3 H4 H5 H6 H7 H8].
  pose proof (taken_spec s H1). rewrite Hps in *.
  assert (Hq : forall q, q ∈ ps1 ++ ps2 -> q ∈ ps1 ++ Finished k :: ps2)
    by (intros q Hq; apply in_mid; by right).
  assert (Htot : total <= Z.of_nat (length (scanned s))).
  { unfold total. rewrite H4, <- H3. rewrite !sum_of_app, !sum_of_cons. cbn [completed reported].
    assert (sum_of reported ps1 <= sum_of completed ps1 /\ sum_of reported ps2 <= sum_of completed ps2); [| lia].
    split; apply sum_of_le; intros q Hqq.
    - pose proof (H5 q ltac:(apply elem_of_app; by left)). by destruct q; cbn in *.
    - pose proof (H5 q ltac:(apply elem_of_app; right; by right)). by destruct q; cbn in *. }
  split; cbn [root_counter roots_completed sibs scanned].
  - done.
  - change (taken n_ranges (mk_siblings _ _ _ _)) with (taken n_ranges s). rewrite <- H2.
    rewrite !working_app, !working_cons. done.
  - rewrite <- H3. rewrite !sum_of_app, !sum_of_cons. done.
  - unfold total. rewrite H4. rewrite !sum_of_app, !sum_of_cons. cbn [reported]. lia.
  - intros q [-> | Hq']%in_mid; [| by apply H5, Hq]. apply (H5 (Finished k)). apply in_mid. by left.
  - intros q [-> | Hq']%in_mid Ho; [| by apply (H6 q); [apply Hq |]].
    apply (H6 (Finished k)); [apply in_mid; by left | done].
  - intros q [-> | Hq']%in_mid Ho; [| by apply (H7 q); [apply Hq |]].
    cbn in Ho. apply Z.eqb_eq in Ho. lia.
  - intros E _. exists (Exited k (total =? n_ranges)). split; [apply in_mid; by left |].
    cbn. by apply Z.eqb_eq.
Qed.
End one_turn.

Lemma turn_inv s i : siblings_inv n_ranges s -> siblings_inv n_ranges (turn n_ranges s i).
Proof using Hn.
  intros H. unfold turn. destruct (sibs s !! i) as [p|] eqn:E; [| done].
  assert (Hps : sibs s = take i (sibs s) ++ p :: drop (Datatypes.S i) (sibs s))
    by (by rewrite take_drop_middle).
  assert (Hins : forall q, <[i := q]> (sibs s) = take i (sibs s) ++ q :: drop (Datatypes.S i) (sibs s)).
  { intros q. apply insert_take_drop. by eapply lookup_lt_Some. }
  destruct p as [k | rid k | k | k b]; cbn; rewrite Hins.
  - by apply (turn_fetch s _ _ _ H Hps k).
  - by apply (turn_scan s _ _ _ H Hps rid k).
  - by apply (turn_finish s _ _ _ H Hps k).
  - rewrite <- Hps. by destruct s.
Qed.

Lemma start_inv m : siblings_inv n_ranges (siblings_start m).
Proof using Hn.
  assert (Hrep : forall f, f (Fetching 0) = 0 -> sum_of f (replicate m (Fetching 0)) = 0).
  { intros f Hf. induction m as [|m' IH]; [done |]. cbn [replicate]. by rewrite sum_of_cons, Hf, IH. }
  assert (Hw : working (replicate m (Fetching 0)) = [])
    by (clear; induction m as [|m' IH]; [done | exact IH]).
  assert (Hall : forall p, p ∈ replicate m (Fetching 0) -> p = Fetching 0)
    by (intros p Hp; by apply elem_of_replicate in Hp as [-> _]).
  split; cbn [siblings_start root_counter roots_completed sibs scanned].
  - done.
  - rewrite Hw. unfold taken, siblings_start. cbn [root_counter]. by rewrite Z.min_l by lia.
  - by rewrite Hrep.
  - by rewrite Hrep.
  - by intros p ->%Hall.
  - by intros p ->%Hall.
  - by intros p ->%Hall.
  - by intros _ (p & ->%Hall & ?).
Qed.

Lemma run_inv m schedule : siblings_inv n_ranges (run_siblings n_ranges (siblings_start m) schedule).
Proof using Hn.
  unfold run_siblings. induction schedule as [|i l IH] using rev_ind; [apply start_inv |].
  rewrite foldl_app. cbn. by apply turn_inv.
Qed.

Lemma run_length m schedule : length (sibs (run_siblings n_ranges (siblings_start m) schedule)) = m.
Proof using Hn.
  unfold run_siblings. induction schedule as [|i l IH] using rev_ind; [apply length_replicate |].
  rewrite foldl_app. cbn. unfold turn at 1.
  destruct (_ !! i) as [p|]; [| done]. destruct p; cbn; by rewrite length_insert.
Qed.

(** All ranges, each once. *)
Definition all_ranges : list Z := Z.of_nat <$> seq 0 (Z.to_nat n_ranges).

Lemma all_scanned s : siblings_inv n_ranges s -> Z.of_nat (length (scanned s)) = n_ranges ->
  scanned s ≡ₚ all_ranges /\ working (sibs s) = [].
Proof using Hn.
  intros H E. pose proof (scanned_length s H) as Hl. pose proof (taken_spec s (sv_counter _ _ H)).
  assert (Hw : working (sibs s) = []) by (apply nil_length_inv; lia). split; [| done].
  pose proof (sv_split _ _ H) as Hp. rewrite Hw in Hp. cbn in Hp.
  by replace (taken n_ranges s) with n_ranges in Hp by lia.
Qed.

Lemma exited_done s : siblings_inv n_ranges s -> sibs s <> [] ->
  (forall p, p ∈ sibs s -> finished p = true) ->
  Z.of_nat (length (scanned s)) = n_ranges /\ roots_completed s = n_ranges.
Proof using Hn.
  intros H Hne Hall. pose proof (scanned_length s H) as Hl.
  assert (Hw : working (sibs s) = []).
  { clear H Hl Hne. induction (sibs s) as [|p ps IH]; [done |]. rewrite working_cons, IH by (intros q Hq; apply Hall; by right).
    specialize (Hall p ltac:(left)). by destruct p. }
  assert (Hr : sum_of reported (sibs s) = sum_of completed (sibs s)).
  { clear H Hl Hne Hw. induction (sibs s) as [|p ps IH]; [done |]. rewrite !sum_of_cons, IH by (intros q Hq; apply Hall; by right).
    specialize (Hall p ltac:(left)). by destruct p. }
  destruct (sibs s) as [|p ps] eqn:E; [done |].
  assert (Hout : n_ranges <= root_counter s).
  { apply (sv_out _ _ H p); [rewrite E; left |]. specialize (Hall p ltac:(left)). by destruct p. }
  unfold taken in Hl. rewrite Hw in Hl. cbn [length] in Hl.
  rewrite (sv_reported _ _ H), E, Hr, <- E, (sv_completed _ _ H). lia.
Qed.
End invariant.

(** C27: However the siblings interleave, no range is scanned twice; when all of
    them have returned, every range has been scanned and at least one sibling
    has written to the parent. *)
Theorem siblings_scan_all n_ranges m schedule :
  0 <= n_ranges -> (0 < m)%nat ->
  let s := run_siblings n_ranges (siblings_start m) schedule in
  NoDup (scanned s) /\ (forall r, r ∈ scanned s -> 0 <= r < n_ranges) /\
  ((forall p, p ∈ sibs s -> finished p = true) ->
   scanned s ≡ₚ all_ranges n_ranges /\ exists p, p ∈ sibs s /\ notifies p = true).
Proof.
  intros Hn Hm s. pose proof (run_inv n_ranges Hn m schedule : siblings_inv n_ranges s) as H.
  pose proof (sv_split _ _ H) as Hp. pose proof (taken_spec n_ranges Hn s (sv_counter _ _ H)).
  assert (Hnd : NoDup (working (sibs s) ++ scanned s)).
  { rewrite Hp. apply NoDup_fmap_2; [apply _ | apply NoDup_seq]. }
  split; [by apply NoDup_app in Hnd as (_ & _ & ?) | split].
  - intros r Hr. assert (Hin : r ∈ working (sibs s) ++ scanned s) by (apply elem_of_app; by right).
    rewrite Hp in Hin. apply list_elem_of_fmap in Hin as (k & -> & Hk). apply elem_of_seq in Hk. lia.
  - intros Hall. assert (Hlen : length (sibs s) = m) by (by apply run_length).
    assert (Hne : sibs s <> []) by (intros E; rewrite E in Hlen; cbn in Hlen; lia).
    destruct (exited_done n_ranges Hn s H Hne Hall) as [E1 E2].
    split; [by apply all_scanned |]. apply (sv_last _ _ H E2).
    destruct (sibs s) as [|p ps]; [done |]. exists p. split; [left | apply Hall; left].
Qed.

Lemma siblings_scan_all_witness :
  let s := run_siblings 3 (siblings_start 2) [0; 1; 0; 0; 1; 1; 0; 0; 0; 1]%nat in
  NoDup (scanned s) /\ (forall r, r ∈ scanned s -> 0 <= r < 3) /\
  ((forall p, p ∈ sibs s -> finished p = true) ->
   scanned s ≡ₚ all_ranges 3 /\ exists p, p ∈ sibs s /\ notifies p = true).
Proof. apply (siblings_scan_all 3 2 [0; 1; 0; 0; 1; 1; 0; 0; 0; 1]%nat); lia. Defined.

(** The parent is not told too early: once a sibling has written to it, every
    range has been scanned and no sibling is at work on one.  (A sibling
    empties its lookaside list on the way to [Finished], before it reports.) *)
Theorem notified_after_all_scanned n_ranges m schedule p :
  0 <= n_ranges ->
  let s := run_siblings n_ranges (siblings_start m) schedule in
  p ∈ sibs s -> notifies p = true ->
  scanned s ≡ₚ all_ranges n_ranges /\ (forall q rid k, q ∈ sibs s -> q <> Scanning rid k).
Proof.
  intros Hn s Hp Hnot. pose proof (run_inv n_ranges Hn m schedule : siblings_inv n_ranges s) as H.
  destruct (all_scanned n_ranges Hn s H (sv_notify _ _ H p Hp Hnot)) as [Hperm Hw].
  split; [done |]. intros q rid k Hq ->. apply list_elem_of_split in Hq as (l1 & l2 & E).
  rewrite E, working_app, working_cons in Hw. by destruct (working l1).
Qed.

Lemma notified_after_all_scanned_witness :
  let s := run_siblings 2 (siblings_start 2) [0; 1; 0; 1; 0; 1; 0; 1]%nat in
  scanned s ≡ₚ all_ranges 2 /\ (forall q rid k, q ∈ sibs s -> q <> Scanning rid k).
Proof.
  apply (notified_after_all_scanned 2 2 [0; 1; 0; 1; 0; 1; 0; 1]%nat (Exited 1 true)); [lia | | done].
  vm_compute. right. left.
Defined.

(** More than one sibling may take itself for the last: one that completed no
    range reads the full count as well, if it reports after the others. *)
Theorem two_siblings_notify :
  sibs (run_siblings 1 (siblings_start 2) [0; 0; 0; 0; 1; 1]%nat) = [Exited 1 true; Exited 0 true].
Proof. by vm_compute. Qed.
