(* ===== verification/Siblings.v ===== *)
(** [forkscan_child] of child.c: several processes scan and mark one table.

    [Child] has how the processes share out the ranges; here each of them also
    does its work.  The table is in shared memory, the lookaside list is each
    process's own.  As there, a turn goes up to the next access of a shared
    counter, so the scan of a range and the last emptying of a lookaside list
    are not interrupted; marking is idempotent and the search is indifferent
    to marks ([Search], [Mark]). *)
From S2P Require Import Prelude AddrBuffer Search Mark Roots Alloc Ranges Child.

Record scanners_t : Type := mk_scanners {
  ctl : siblings_t;
  table : addr_buffer_t;
  asides : list (list Z * Z) }.   (* g_lookaside_list, g_lookaside_count *)

Section scanners.
Context (mem usable_size : Z -> Z) (st : ranges_t) (dead : addr_buffer_t).

(** What a sibling does before it reaches the counter. *)
Definition sibling_work (ts : trace_stats_t) (p : sibling_t) (sc : scan_t) : res scan_t :=
  match p with
  | Scanning rid _ => scan_range mem usable_size st dead rid sc
  | Finished _ => catch_remainders mem usable_size ts sc
  | _ => Ok sc
  end.

Definition scan_turn (ts : trace_stats_t) (i : nat) (s : scanners_t) : res scanners_t :=
  match sibs (ctl s) !! i, asides s !! i with
  | Some p, Some (l, c) =>
      let! sc := sibling_work ts p (mk_scan (table s) l c) in
      Ok (mk_scanners (turn (g_n_ranges st) (ctl s) i) (sc_ab sc)
        (<[i := (g_lookaside_list sc, g_lookaside_count sc)]> (asides s)))
  | _, _ => Ok s
  end.

Fixpoint run_scanners (ts : trace_stats_t) (schedule : list nat) (s : scanners_t) : res scanners_t :=
  match schedule with
  | [] => Ok s
  | i :: schedule => let! s := scan_turn ts i s in run_scanners ts schedule s
  end.

(** Somebody has written to the parent. *)
Definition notified (s : siblings_t) : bool := existsb notifies (sibs s).

(** The scan by [m] processes up to what the parent then reads; as long as
    nobody has written to it, the parent waits. *)
Definition siblings_scan (m : nat) (schedule : list nat) (ab : addr_buffer_t) : res addr_buffer_t :=
  let! first := rd (ab_addrs ab) 0 in
  let! last := rd (ab_addrs ab) (ab_n_addrs ab - 1) in
  let ts := {| ts_min := PTR_MASK first; ts_max := PTR_MASK last |} in
  let! s := run_scanners ts schedule
    (mk_scanners (siblings_start m) ab (replicate m (replicate (Z.to_nat LOOKASIDE_SZ) 0, 0))) in
  if notified (ctl s) then Ok (table s) else Err OutOfFuel.

End scanners.

(** * Counting *)

Lemma sum_of_eq f g ps : (forall p, p ∈ ps -> f p <= g p) -> sum_of f ps = sum_of g ps ->
  forall p, p ∈ ps -> f p = g p.
Proof.
  intros Hle. induction ps as [|q ps IH]; intros E p Hp; [by apply not_elem_of_nil in Hp |].
  rewrite !sum_of_cons in E. pose proof (Hle q ltac:(left)).
  assert (Hle' : forall r, r ∈ ps -> f r <= g r) by (intros r Hr; apply Hle; by right).
  pose proof (sum_of_le f g ps Hle').
  apply elem_of_cons in Hp as [-> | Hp]; [lia |]. apply IH; [done | lia | done].
Qed.

Lemma notified_spec s : notified s = true <-> exists p, p ∈ sibs s /\ notifies p = true.
Proof.
  unfold notified. rewrite existsb_exists. split; intros (p & Hp & H); exists p; (split; [by apply list_elem_of_In | done]).
Qed.

Section counting.
Context (n : Z) (Hn : 0 <= n).

Lemma turn_sibs s i p : sibs s !! i = Some p ->
  sibs (turn n s i) = <[i := (sibling_turn n s p).2]> (sibs s).
Proof using Type. intros E. unfold turn. rewrite E. by destruct p. Qed.

Lemma turn_scanned s i p : sibs s !! i = Some p ->
  scanned (turn n s i) = match p with Scanning rid _ => rid :: scanned s | _ => scanned s end.
Proof using Type. intros E. unfold turn. rewrite E. by destruct p. Qed.

Lemma reported_completed s p : siblings_inv n s -> p ∈ sibs s -> reported p <= completed p.
Proof using Type. intros H Hp. pose proof (sv_pos _ _ H p Hp). by destruct p; cbn in *. Qed.

(** Once the parent has been told, the count of completed ranges is full. *)
Lemma notified_count s i : siblings_inv n s -> siblings_inv n (turn n s i) ->
  (notified s = true -> roots_completed s = n) -> notified (turn n s i) = true -> roots_completed (turn n s i) = n.
Proof using Hn.
  intros H H' Hc Hnt. pose proof (scanned_length n Hn _ H') as Hl. pose proof (taken_spec n Hn _ (sv_counter _ _ H')).
  pose proof (reported_le n Hn _ H') as Hr. rewrite <- (sv_reported _ _ H') in Hr.
  destruct (sibs s !! i) as [p|] eqn:E; [| unfold turn in *; rewrite E in *; by apply Hc].
  assert (Hp : p ∈ sibs s) by (by eapply list_elem_of_lookup_2). pose proof (sv_pos _ _ H p Hp).
  apply notified_spec in Hnt as (q & Hq & Hnt). rewrite (turn_sibs s i p E) in Hq.
  assert (Hmono : roots_completed s <= roots_completed (turn n s i)).
  { unfold turn. rewrite E. destruct p; cbn in *; lia. }
  apply elem_of_insert in Hq as [-> | Hq].
  - unfold turn. rewrite E. destruct p as [k | rid k | k | k b]; cbn in *; try done.
    + by destruct (_ <? _).
    + by apply Z.eqb_eq in Hnt.
    + apply Hc, notified_spec. by exists (Exited k b).
  - assert (roots_completed s = n) by (apply Hc, notified_spec; by exists q). lia.
Qed.
End counting.

(** * The scans together *)

Section shared.
Context (mem usable_size : Z -> Z) (st : ranges_t) (w dead : addr_buffer_t).
Hypotheses (L : heap_layout usable_size w dead) (Hst : ranges_ok st)
  (Hranges : forall r, r ∈ used st -> 0 <= low r <= high r /\ high r < 2 ^ 64 /\
     low r mod 8 = 0 /\ high r mod 8 = 0).
#[local] Abbreviation n := (g_n_ranges st).

(** Range [rid] has the word [x], outside the blocks. *)
Definition range_word (rid x : Z) : Prop := exists r, g_ranges st !! Z.to_nat rid = Some r /\
  x mod 8 = 0 /\ low r <= x < high r /\ ~ in_block usable_size w dead x.

Definition range_ref (u : Z) : Prop := exists rid x, 0 <= rid < n /\ range_word rid x /\ ref_at mem x = u.

(** A mark that the scan may set. *)
Definition may_mark (v : Z) : Prop := exists u, range_ref u /\ (v = u \/ v ∈ refs mem usable_size u).

Definition waits (asides : list (list Z * Z)) (v : Z) : Prop :=
  exists i l c, asides !! i = Some (l, c) /\ pending (mk_scan w l c) v.

(** One sibling: what it has put aside are references, none if it has not
    completed a range or has returned. *)
Record sibling_ok (ab : addr_buffer_t) (p : sibling_t) (l : list Z) (c : Z) : Prop := {
  so_scan : scan_ok (mk_scan ab l c);
  so_less : c < LOOKASIDE_SZ;
  so_refs : forall v, pending (mk_scan ab l c) v -> range_ref v;
  so_none : completed p = 0 \/ finished p = true -> c = 0 }.

Record scanners_inv (s : scanners_t) : Prop := {
  sn_ctl : siblings_inv n (ctl s);
  sn_length : length (asides s) = length (sibs (ctl s));
  sn_table : exists us, table s = mark_all us w /\ all_aligned us /\ forall v, v ∈ us -> may_mark v;
  sn_each : forall i p l c, sibs (ctl s) !! i = Some p -> asides s !! i = Some (l, c) -> sibling_ok (table s) p l c;
  sn_done : forall rid x, rid ∈ scanned (ctl s) -> range_word rid x ->
    waits (asides s) (ref_at mem x) \/ ~ unmarked (table s) (ref_at mem x);
  sn_told : notified (ctl s) = true -> roots_completed (ctl s) = n }.

(** ** Marks of others *)

Lemma layout_marked us : all_aligned us -> heap_layout usable_size (mark_all us w) dead.
Proof using L.
  intros Hus. pose proof (hl_pool _ _ _ L) as W.
  assert (Hb : forall a, is_block (mark_all us w) dead a <-> is_block w dead a).
  { intros a. unfold is_block. change (ab_n_addrs (mark_all us w)) with (ab_n_addrs w).
    split; (intros [(i & Hi & ->) | H]; [left; exists i | by right]); by rewrite node_mark_all. }
  split.
  - by apply mark_all_wf.
  - apply L.
  - apply L.
  - intros a Ha%Hb. by apply (hl_block _ _ _ L).
  - intros a b Ha%Hb Hc%Hb. by apply (hl_apart _ _ _ L).
  - intros i j Hi Hj. rewrite node_mark_all by done. by apply (hl_disjoint _ _ _ L).
Qed.

Lemma in_block_marked us x : all_aligned us ->
  in_block usable_size (mark_all us w) dead x <-> in_block usable_size w dead x.
Proof using L.
  intros Hus. pose proof (hl_pool _ _ _ L) as W. unfold in_block, is_block.
  change (ab_n_addrs (mark_all us w)) with (ab_n_addrs w).
  split; intros (a & [(i & Hi & ->) | H] & Hx); (exists (node w i) || exists a);
    rewrite ?(node_mark_all w W us i Hus Hi) in *; (split; [| done]); try (by right); left; exists i; by rewrite ?node_mark_all.
Qed.

Lemma scan_ok_marked ab us l c : pool_wf ab -> all_aligned us ->
  scan_ok (mk_scan ab l c) -> scan_ok (mk_scan (mark_all us ab) l c).
Proof using Type.
  intros W Hus [_ H2 H3 H4]. split; [by apply mark_all_wf | done | done |].
  intros v Hv. destruct (H4 v Hv) as [Ha Hs]. split; [done |]. cbn [sc_ab] in *. by rewrite stats_mark_all.
Qed.

(** ** One sibling's work *)

(** The words that the sibling looks at in this turn. *)
Definition turn_words (p : sibling_t) (x : Z) : Prop :=
  match p with Scanning rid _ => range_word rid x | _ => False end.

Lemma work_ok ab us p l c : ab = mark_all us w -> all_aligned us -> sibling_ok ab p l c ->
  (forall rid k, p = Scanning rid k -> 0 <= rid < n) ->
  wp (sibling_work mem usable_size st dead (stats w) p (mk_scan ab l c)) (fun sc' =>
    scanned_to mem usable_size (mk_scan ab l c) (turn_words p) sc' /\ g_lookaside_count sc' < LOOKASIDE_SZ /\
    match p with
    | Scanning _ _ => True
    | Finished _ => g_lookaside_count sc' = 0
    | _ => sc' = mk_scan ab l c
    end).
Proof using All.
  intros -> Hus [Hok Hc Hr Hnone] Hrid. pose proof (scanned_start mem usable_size _ Hok) as Hs.
  pose proof (hl_pool _ _ _ L) as W.
  destruct p as [k | rid k | k | k b]; cbn [sibling_work turn_words].
  - by wp_step.
  - specialize (Hrid rid k eq_refl). unfold scan_range. destruct Hst as (Hlen & Hnr & _).
    destruct (g_ranges st !! Z.to_nat rid) as [r|] eqn:E; [| apply lookup_ge_None in E; lia].
    destruct (Hranges r) as (H1 & H2 & H3 & H4).
    { unfold used. apply list_elem_of_lookup. exists (Z.to_nat rid). by rewrite lookup_take_lt by lia. }
    eapply wp_mono; [apply (find_roots_ok mem usable_size (mk_scan (mark_all us w) l c) dead
      ltac:(by apply layout_marked) (fun _ => False) (low r) (high r)); done || lia |].
    intros sc' [Hs' Hc']. split; [| done]. revert Hs'. apply scanned_ext. intros x. unfold range_words, range_word.
    cbn [sc_ab]. rewrite in_block_marked by done. split.
    + intros [[] | H]. by exists r.
    + intros (r' & E' & H). rewrite E in E'. injection E' as <-. by right.
  - unfold catch_remainders. cbn [g_lookaside_count]. rewrite Z.gtb_ltb. destruct (Z.ltb_spec 0 c) as [Hp | Hz].
    + rewrite <- (stats_mark_all us w W Hus). eapply wp_mono; [apply (scanned_drain mem usable_size (mk_scan (mark_all us w) l c)); [apply Hok | exact Hs] |].
      intros sc' [Hs' Hc']. split; [done |]. rewrite Hc'. done.
    + wp_step. pose proof (so_count _ Hok). cbn in *. split; [done |]. split; [done |]. lia.
  - by wp_step.
Qed.

(** What a sibling reads is a reference of some range. *)
Lemma turn_source ab p l c u : sibling_ok ab p l c -> (forall rid k, p = Scanning rid k -> 0 <= rid < n) ->
  source mem (mk_scan ab l c) (turn_words p) u -> range_ref u.
Proof using Type.
  intros Hok Hrid [Hp | (x & Hx & E)]; [by apply (so_refs _ _ _ _ Hok) |].
  destruct p as [k | rid k | k | k b]; cbn in Hx; try done. exists rid, x. split; [by eapply Hrid | done].
Qed.

Lemma at_work_range s rid k : siblings_inv n s -> Scanning rid k ∈ sibs s -> 0 <= rid < n.
Proof using Hst.
  intros H Hin. assert (Hn : 0 <= n) by apply Hst. pose proof (taken_spec n Hn s (sv_counter _ _ H)).
  assert (Hr : rid ∈ working (sibs s) ++ scanned s).
  { apply elem_of_app. left. apply list_elem_of_split in Hin as (l1 & l2 & ->).
    rewrite working_app, working_cons. apply elem_of_app. right. left. }
  rewrite (sv_split _ _ H) in Hr. apply list_elem_of_fmap in Hr as (j & -> & Hj). apply elem_of_seq in Hj. lia.
Qed.

(** The sibling whose turn it was. *)
Lemma sibling_moved s ab p l c sc' : siblings_inv n s -> p ∈ sibs s ->
  (forall rid k, p = Scanning rid k -> 0 <= rid < n) -> sibling_ok ab p l c ->
  scanned_to mem usable_size (mk_scan ab l c) (turn_words p) sc' -> g_lookaside_count sc' < LOOKASIDE_SZ ->
  match p with
  | Scanning _ _ => True
  | Finished _ => g_lookaside_count sc' = 0
  | _ => sc' = mk_scan ab l c
  end -> sibling_ok (sc_ab sc') (sibling_turn n s p).2 (g_lookaside_list sc') (g_lookaside_count sc').
Proof using Type.
  intros H Hp Hrid Hok Hs Hc Hcase. pose proof (sv_pos _ _ H p Hp) as Hpos. split.
  - destruct sc'. apply (st_ok _ _ _ _ _ Hs).
  - done.
  - intros v Hv. eapply turn_source; [exact Hok | done |]. apply (st_pending _ _ _ _ _ Hs). by destruct sc'.
  - pose proof (so_none _ _ _ _ Hok) as Hno. destruct p as [k | rid k | k | k b]; cbn in *.
    + subst sc'. intros H0. apply Hno. left. destruct H0 as [H0 | H0]; by destruct (_ <? _).
    + intros [H0 | H0]; [lia | done].
    + done.
    + subst sc'. done.
Qed.

(** The marks that are set, and what still waits. *)
Lemma words_found s i p l c sc' : scanners_inv s -> asides s !! i = Some (l, c) ->
  sibs (ctl s) !! i = Some p ->
  scanned_to mem usable_size (mk_scan (table s) l c) (turn_words p) sc' ->
  forall rid x, rid ∈ scanned (turn n (ctl s) i) -> range_word rid x ->
    waits (<[i := (g_lookaside_list sc', g_lookaside_count sc')]> (asides s)) (ref_at mem x) \/
    ~ unmarked (sc_ab sc') (ref_at mem x).
Proof using L.
  intros I Ha Hp Hs rid x Hrid Hx. set (u := ref_at mem x). pose proof (hl_pool _ _ _ L) as W.
  assert (Hi : (i < length (asides s))%nat) by (by eapply lookup_lt_Some).
  assert (Hfound : source mem (mk_scan (table s) l c) (turn_words p) u ->
    waits (<[i := (g_lookaside_list sc', g_lookaside_count sc')]> (asides s)) u \/ ~ unmarked (sc_ab sc') u).
  { intros Hu. destruct (st_found _ _ _ _ _ Hs u Hu) as [Hw | Hm]; [left | by right].
    exists i, (g_lookaside_list sc'), (g_lookaside_count sc'). by rewrite list_lookup_insert_eq by done. }
  rewrite (turn_scanned n _ i p Hp) in Hrid.
  assert (Hcase : (exists k, p = Scanning rid k) \/ rid ∈ scanned (ctl s)).
  { destruct p; try (by right). apply elem_of_cons in Hrid as [-> | ?]; [left; by eexists | by right]. }
  destruct Hcase as [(k & ->) | Hold].
  - apply Hfound. right. by exists x.
  - destruct (sn_done _ I rid x Hold Hx) as [(j & l' & c' & Hj & Hpend) | Hm].
    + destruct (decide (i = j)) as [<- | Hne].
      * rewrite Ha in Hj. injection Hj as <- <-. apply Hfound. by left.
      * left. exists j, l', c'. by rewrite list_lookup_insert_ne.
    + right. destruct (st_marks _ _ _ _ _ Hs) as (us & E & Hus & _). destruct (sn_table _ I) as (us0 & E0 & Hus0 & _).
      cbn [sc_ab] in E. rewrite E. intros Hu. apply unmarked_mark_all in Hu as [Hu _]; [done | | done].
      rewrite E0. by apply mark_all_wf.
Qed.

Lemma scan_turn_ok i s : scanners_inv s ->
  wp (scan_turn mem usable_size st dead (stats w) i s) (fun s' => scanners_inv s' /\ ctl s' = turn n (ctl s) i).
Proof using All.
  intros I. assert (Hn : 0 <= n) by apply Hst. pose proof (hl_pool _ _ _ L) as W. unfold scan_turn.
  destruct (sibs (ctl s) !! i) as [p|] eqn:Hp.
  2: { wp_step. split; [done |]. unfold turn. by rewrite Hp. }
  assert (Hi : (i < length (asides s))%nat) by (rewrite (sn_length _ I); by eapply lookup_lt_Some).
  destruct (lookup_lt_is_Some_2 _ _ Hi) as [[l c] Ha]. rewrite Ha.
  assert (Hin : p ∈ sibs (ctl s)) by (by eapply list_elem_of_lookup_2).
  assert (Hrid : forall rid k, p = Scanning rid k -> 0 <= rid < n).
  { intros rid k ->. eapply at_work_range; [apply I | done]. }
  destruct (sn_table _ I) as (us & Et & Hus & Hmay). pose proof (sn_each _ I i p l c Hp Ha) as Hok.
  wp_step. eapply wp_mono; [by apply (work_ok _ us p l c) |].
  intros sc' (Hs & Hc & Hcase). wp_step. split; [| done].
  destruct (st_marks _ _ _ _ _ Hs) as (us' & E' & Hus' & Hfrom). cbn [sc_ab] in E'.
  pose proof (turn_inv n Hn _ i (sn_ctl _ I)) as Hctl. split; cbn [ctl table asides].
  - done.
  - rewrite length_insert, (turn_sibs n _ i p Hp), length_insert. apply I.
  - exists (us ++ us'). rewrite E', Et, mark_all_mark_all by done. split; [done |].
    split; intros v [Hv | Hv]%elem_of_app; auto. destruct (Hfrom v Hv) as (u & Hu & Hvu).
    exists u. split; [by eapply turn_source | done].
  - rewrite (turn_sibs n _ i p Hp). intros j q l' c' Hj Hj'. destruct (decide (i = j)) as [<- | Hne].
    + rewrite list_lookup_insert_eq in Hj by (by eapply lookup_lt_Some). injection Hj as <-.
      rewrite list_lookup_insert_eq in Hj' by done. injection Hj' as <- <-.
      by apply (sibling_moved (ctl s) (table s) p l c sc'); [apply I | ..].
    + rewrite list_lookup_insert_ne in Hj by done. rewrite list_lookup_insert_ne in Hj' by done. destruct (sn_each _ I j q l' c' Hj Hj') as [K1 K2 K3 K4].
      split; [| done..]. rewrite E'. apply scan_ok_marked; [apply K1 | done | done].
  - by eapply words_found.
  - apply notified_count; [done | apply I | done | apply I].
Qed.

Lemma run_scanners_ok schedule s : scanners_inv s ->
  wp (run_scanners mem usable_size st dead (stats w) schedule s) (fun s' =>
    scanners_inv s' /\ ctl s' = run_siblings n (ctl s) schedule).
Proof using All.
  revert s. induction schedule as [|i schedule IH]; intros s I; cbn [run_scanners]; wp_step; [done |].
  eapply wp_mono; [by apply scan_turn_ok |]. intros s1 [I1 E1].
  eapply wp_mono; [by apply IH |]. intros s2 [I2 E2]. split; [done |]. by rewrite E2, E1.
Qed.

Lemma scanners_start_inv m :
  scanners_inv (mk_scanners (siblings_start m) w (replicate m (replicate (Z.to_nat LOOKASIDE_SZ) 0, 0))).
Proof using L Hst.
  assert (Hn : 0 <= n) by apply Hst. pose proof (hl_pool _ _ _ L) as W. split; cbn [ctl table asides].
  - by apply start_inv.
  - unfold siblings_start. cbn [sibs]. by rewrite !length_replicate.
  - exists []. rewrite mark_all_nil by done. split; [done |]. split; intros v Hv; by apply not_elem_of_nil in Hv.
  - intros i p l c Hp Ha. apply lookup_replicate in Hp as [-> _], Ha as [E _].
    pose proof (f_equal fst E : l = _) as ->. pose proof (f_equal snd E : c = 0) as ->.
    assert (Hno : forall v, ~ pending (mk_scan w (replicate (Z.to_nat LOOKASIDE_SZ) 0) 0) v) by (intros v (j & Hj & _); cbn in Hj; lia).
    split; [split | done | |].
    + done.
    + done.
    + unfold zlen. cbn [g_lookaside_list fst]. by rewrite length_replicate.
    + intros v Hv. by apply Hno in Hv.
    + intros v Hv. by apply Hno in Hv.
    + done.
  - intros rid x Hr. by apply not_elem_of_nil in Hr.
  - intros H. apply notified_spec in H as (p & Hp & Hnt). by apply elem_of_replicate in Hp as [-> _].
Qed.

(** When the parent has been told, nothing waits and everything found is
    marked. *)
Lemma told_marked s : scanners_inv s -> notified (ctl s) = true ->
  forall u, range_ref u -> ~ unmarked (table s) u.
Proof using Hst.
  intros I Ht u (rid & x & Hrid & Hx & <-). assert (Hn : 0 <= n) by apply Hst. pose proof (sn_ctl _ I) as H.
  apply notified_spec in Ht as Hp. destruct Hp as (p & Hp & Hnt).
  pose proof (sv_notify _ _ H p Hp Hnt) as Hlen. destruct (all_scanned n Hn _ H Hlen) as [Hall _].
  assert (Hr : rid ∈ scanned (ctl s)).
  { rewrite Hall. apply list_elem_of_fmap. exists (Z.to_nat rid). split; [lia |]. apply elem_of_seq. lia. }
  destruct (sn_done _ I rid x Hr Hx) as [(i & l & c & Ha & (j & Hj & _)) | Hm]; [exfalso | done].
  assert (Hi : (i < length (sibs (ctl s)))%nat) by (rewrite <- (sn_length _ I); by eapply lookup_lt_Some).
  destruct (lookup_lt_is_Some_2 _ _ Hi) as [q Hq]. assert (Hqin : q ∈ sibs (ctl s)) by (by eapply list_elem_of_lookup_2).
  assert (Hz : c = 0); [| cbn in Hj; lia]. apply (so_none _ _ _ _ (sn_each _ I i q l c Hq Ha)).
  assert (E : reported q = completed q).
  { apply (sum_of_eq reported completed (sibs (ctl s))); [| | done].
    - intros r Hr'. by eapply reported_completed.
    - rewrite <- (sv_reported _ _ H), (sv_completed _ _ H), Hlen. by apply (sn_told _ I). }
  destruct q; cbn in *; (by left) || (by right).
Qed.
End shared.

Lemma siblings_scan_ok mem usable_size st w dead m schedule :
  heap_layout usable_size w dead -> ranges_ok st ->
  (forall r, r ∈ used st -> 0 <= low r <= high r /\ high r < 2 ^ 64 /\ low r mod 8 = 0 /\ high r mod 8 = 0) ->
  exists ab us, ab = mark_all us w /\ all_aligned us /\ (forall v, v ∈ us -> may_mark mem usable_size st w dead v) /\
    (notified (run_siblings (g_n_ranges st) (siblings_start m) schedule) = true ->
     forall u, range_ref mem usable_size st w dead u -> ~ unmarked ab u) /\
    siblings_scan mem usable_size st dead m schedule w =
      if notified (run_siblings (g_n_ranges st) (siblings_start m) schedule) then Ok ab else Err OutOfFuel.
Proof.
  intros L Hst Hr. pose proof (hl_pool _ _ _ L) as W. pose proof (wf_n _ W). pose proof (wf_room _ W).
  pose proof (scanners_start_inv mem usable_size st w dead L Hst m) as I0.
  pose proof (run_scanners_ok mem usable_size st w dead L Hst Hr schedule _ I0) as Hw.
  apply wp_iff in Hw as (s & E & I & Ec). cbn [ctl] in Ec. destruct (sn_table _ _ _ _ _ _ I) as (us & Et & Hus & Hmay).
  exists (table s), us. do 3 (split; [done |]). rewrite <- Ec. split; [by apply told_marked |].
  unfold siblings_scan. rewrite !rd_ok by lia. rewrite !bind_ok.
  change {| ts_min := _; ts_max := _ |} with (stats w). by rewrite E, bind_ok.
Qed.

(** One process that is never interrupted does all the work and tells the
    parent. *)
Lemma one_goes_on n m j : 0 <= n -> Z.of_nat j <= n ->
  exists l, run_siblings n (siblings_start (Datatypes.S m)) (replicate (2 * j) 0%nat) =
    mk_siblings (Z.of_nat j) 0 (Fetching (Z.of_nat j) :: replicate m (Fetching 0)) l.
Proof.
  intros Hn. induction j as [|j IH]; intros Hj; [by exists [] |]. destruct IH as [l IH]; [lia |].
  exists (Z.of_nat j :: l). replace (2 * Datatypes.S j)%nat with (2 * j + 2)%nat by lia.
  unfold run_siblings in *. rewrite replicate_add, foldl_app, IH. cbn [replicate foldl]. unfold turn at 2. cbn.
  rewrite (proj2 (Z.ltb_lt _ _)) by lia. unfold turn. cbn. f_equal; [lia |]. f_equal. f_equal. lia.
Qed.

Lemma one_tells n m : 0 <= n ->
  notified (run_siblings n (siblings_start (Datatypes.S m)) (replicate (2 * Z.to_nat n + 2) 0%nat)) = true.
Proof.
  intros Hn. destruct (one_goes_on n m (Z.to_nat n) Hn ltac:(lia)) as [l E]. rewrite Z2Nat.id in E by done.
  unfold run_siblings in *. rewrite replicate_add, foldl_app, E. cbn [replicate foldl]. unfold turn at 2. cbn.
  rewrite Z.ltb_irrefl. unfold turn. cbn. rewrite Z.eqb_refl. done.
Qed.

(** * Properties *)

(** C11: However the processes interleave, no scan fails, and when one of them has
    written to the parent every tracked node that a word of a range refers to,
    outside the blocks, is marked; none is marked that is neither referred to
    by such a word nor by a node that is; until then the parent waits.  Some
    interleaving gets there. *)
Theorem siblings_mark_roots mem usable_size st w dead m schedule :
  heap_layout usable_size w dead -> ranges_ok st ->
  (forall r, r ∈ used st -> 0 <= low r <= high r /\ high r < 2 ^ 64 /\ low r mod 8 = 0 /\ high r mod 8 = 0) ->
  (if notified (run_siblings (g_n_ranges st) (siblings_start (Datatypes.S m)) schedule) then
     exists ab, siblings_scan mem usable_size st dead (Datatypes.S m) schedule w = Ok ab /\ pool_wf ab /\
       (forall u, range_ref mem usable_size st w dead u -> ~ unmarked ab u) /\
       (forall v, unmarked w v -> ~ unmarked ab v -> may_mark mem usable_size st w dead v)
   else siblings_scan mem usable_size st dead (Datatypes.S m) schedule w = Err OutOfFuel) /\
  exists schedule', notified (run_siblings (g_n_ranges st) (siblings_start (Datatypes.S m)) schedule') = true.
Proof.
  intros L Hst Hr. split; [| eexists; apply one_tells, Hst]. pose proof (hl_pool _ _ _ L) as W.
  destruct (siblings_scan_ok mem usable_size st w dead (Datatypes.S m) schedule L Hst Hr) as (ab & us & Eab & Hus & Hmay & Htold & E).
  destruct (notified _); [| done]. exists ab. split; [done |]. split; [subst ab; by apply mark_all_wf |].
  split; [by apply Htold |]. intros v Hv Hm. apply Hmay. destruct (decide (v ∈ us)); [done |].
  destruct Hm. subst ab. by apply unmarked_mark_all.
Qed.

(** Two processes and one range. *)
Lemma siblings_mark_roots_witness :
  let st := one_range 0xf8 0x318 in let w := sc_ab (demo_scan []) in
  (if notified (run_siblings 1 (siblings_start 2) [0; 1; 0; 1; 0; 0]%nat) then
     exists ab, siblings_scan demo_mem demo_usable st demo_dead 2 [0; 1; 0; 1; 0; 0]%nat w = Ok ab /\ pool_wf ab /\
       (forall u, range_ref demo_mem demo_usable st w demo_dead u -> ~ unmarked ab u) /\
       (forall v, unmarked w v -> ~ unmarked ab v -> may_mark demo_mem demo_usable st w demo_dead v)
   else siblings_scan demo_mem demo_usable st demo_dead 2 [0; 1; 0; 1; 0; 0]%nat w = Err OutOfFuel) /\
  exists schedule', notified (run_siblings 1 (siblings_start 2) schedule') = true.
Proof.
  intros st w. apply (siblings_mark_roots demo_mem demo_usable st w demo_dead 1);
    [apply demo_layout | by apply one_range_ok |].
  intros r Hr. destruct (one_range_ok 0xf8 0x318 ltac:(done)) as [_ E].
  unfold st in Hr. rewrite E in Hr. apply list_elem_of_singleton in Hr as ->. by vm_compute.
Defined.
