(* ===== verification/Buffer.v ===== *)
(** buffer.c: the address buffers and the lists they wait in.

    Buffers live in a store from addresses to [addr_buffer_t]; the list heads
    are static variables of the file.  [blocks] holds the addresses that the
    coming calls of [forkscan_alloc_mmap] return ([Alloc] says which they may
    be), [unmapped] the buffers handed to [forkscan_alloc_munmap].  Each
    operation is one critical section of the code. *)
From S2P Require Import Prelude AddrBuffer.

Definition STACKSIZE : Z := 2 * 1024 * 1024.
Definition NSTACKS : Z := 16.
Definition MAX_THREAD_COUNT : Z := 256.

Record buffers_t : Type := mk_buffers {
  store : gmap Z addr_buffer_t;
  g_default_capacity : Z;
  g_reclaimer_list : Z;
  g_first_retiree_buffer : Z;
  g_last_retiree_buffer : Z;
  g_available_aggregates : Z;
  g_dead_references : Z;        (* the static [ret] of get_dead_references *)
  blocks : list Z;
  unmapped : list Z }.

(** ** Field updates *)

Definition set_store (s : buffers_t) m :=
  mk_buffers m (g_default_capacity s) (g_reclaimer_list s) (g_first_retiree_buffer s)
    (g_last_retiree_buffer s) (g_available_aggregates s) (g_dead_references s) (blocks s) (unmapped s).
Definition set_default_capacity (s : buffers_t) v :=
  mk_buffers (store s) v (g_reclaimer_list s) (g_first_retiree_buffer s)
    (g_last_retiree_buffer s) (g_available_aggregates s) (g_dead_references s) (blocks s) (unmapped s).
Definition set_reclaimer_list (s : buffers_t) v :=
  mk_buffers (store s) (g_default_capacity s) v (g_first_retiree_buffer s)
    (g_last_retiree_buffer s) (g_available_aggregates s) (g_dead_references s) (blocks s) (unmapped s).
Definition set_retirees (s : buffers_t) first last :=
  mk_buffers (store s) (g_default_capacity s) (g_reclaimer_list s) first last
    (g_available_aggregates s) (g_dead_references s) (blocks s) (unmapped s).
Definition set_available (s : buffers_t) v :=
  mk_buffers (store s) (g_default_capacity s) (g_reclaimer_list s) (g_first_retiree_buffer s)
    (g_last_retiree_buffer s) v (g_dead_references s) (blocks s) (unmapped s).
Definition set_dead_references (s : buffers_t) v :=
  mk_buffers (store s) (g_default_capacity s) (g_reclaimer_list s) (g_first_retiree_buffer s)
    (g_last_retiree_buffer s) (g_available_aggregates s) v (blocks s) (unmapped s).
Definition set_memory (s : buffers_t) b u :=
  mk_buffers (store s) (g_default_capacity s) (g_reclaimer_list s) (g_first_retiree_buffer s)
    (g_last_retiree_buffer s) (g_available_aggregates s) (g_dead_references s) b u.

(** A buffer with new values of the fields this file writes. *)
Definition with_fields (ab : addr_buffer_t) (next n_addrs ref_count free_idx : Z) : addr_buffer_t :=
  mk_addr_buffer next (ab_addrs ab) (ab_base ab) (ab_minimap ab) (ab_is_aggregate ab)
    n_addrs (ab_n_minimap ab) (ab_capacity ab) (ab_cutoff_reached ab) (ab_sibling_mode ab)
    (ab_completed_children ab) (ab_more_marking_tbd ab) (ab_round ab) (ab_root_counter ab)
    (ab_roots_completed ab) ref_count free_idx.

Definition with_next v ab := with_fields ab v (ab_n_addrs ab) (ab_ref_count ab) (ab_free_idx ab).
Definition with_n_addrs v ab := with_fields ab (ab_next ab) v (ab_ref_count ab) (ab_free_idx ab).
Definition with_ref_count v ab := with_fields ab (ab_next ab) (ab_n_addrs ab) v (ab_free_idx ab).

Definition buf_load (s : buffers_t) (p : Z) : res addr_buffer_t :=
  if p =? 0 then Err NullDeref
  else match store s !! p with
       | Some ab => Ok ab
       | None => Err OutOfBounds
       end.

Definition buf_modify (s : buffers_t) (p : Z) (f : addr_buffer_t -> addr_buffer_t) : res buffers_t :=
  let! ab := buf_load s p in Ok (set_store s (<[p := f ab]> (store s))).

(** [forkscan_alloc_mmap], shared or not: the memory reads as zeros. *)
Definition map_buffer (s : buffers_t) (ab : Z -> addr_buffer_t) : res (Z * buffers_t) :=
  match blocks s with
  | [] => Err Fatal
  | p :: rest => Ok (p, set_store (set_memory s rest (unmapped s)) (<[p := ab p]> (store s)))
  end.

Definition unmap_buffer (s : buffers_t) (p : Z) : buffers_t :=
  set_store (set_memory s (blocks s) (p :: unmapped s)) (base.delete p (store s)).

Definition zeros (n : Z) : list Z := replicate (Z.to_nat n) 0.

(** The fields of a fresh block that are not assigned read as zero. *)
Definition fresh_buffer (p : Z) (addrs minimap : list Z) (is_aggregate capacity : Z) : addr_buffer_t :=
  mk_addr_buffer 0 addrs (p + PAGESIZE) minimap is_aggregate 0 0 capacity 0
    SIBLING_MODE_MARKING 0 0 0 0 0 0 0.

(** ** Reclaimer buffers *)

Definition forkscan_make_reclaimer_buffer (ptrs_per_thread : Z) (s : buffers_t) : res (Z * buffers_t) :=
  if negb (g_reclaimer_list s =? 0) then
    let ab := g_reclaimer_list s in
    let! d := buf_load s ab in
    let s := set_reclaimer_list s (ab_next d) in
    let! s := buf_modify s ab (with_n_addrs 0) in
    let! d := buf_load s ab in
    assert (ab_ref_count d =? 0) ;!
    Ok (ab, s)
  else
    let! s :=
      if g_default_capacity s =? 0 then
        let! c := int_chk (ptrs_per_thread * MAX_THREAD_COUNT) in Ok (set_default_capacity s c)
      else Ok s in
    let c := g_default_capacity s in
    map_buffer s (fun p => fresh_buffer p (zeros c) [] 0 c).

(** ** Aggregate buffers *)

(** "Round capacity up to the nearest page size." *)
Definition round_capacity (capacity : Z) : res Z :=
  if negb (Z.land capacity (PAGE_WORDS - 1) =? 0) then
    let! c := int_chk (capacity - Z.land capacity (PAGE_WORDS - 1)) in
    int_chk (c + PAGE_WORDS)
  else Ok capacity.

(** Waiting aggregates that are too small are unmapped. *)
Definition drop_small (capacity : Z) (st : Z * buffers_t) : res (flow (Z * buffers_t) (Z * buffers_t)) :=
  let '(ab, s) := st in
  if ab =? 0 then Ok (Done (ab, s)) else
  let! d := buf_load s ab in
  if ab_capacity d <? capacity then Ok (Next (ab_next d, unmap_buffer s ab))
  else Ok (Done (ab, s)).

Definition pages_of (n : Z) : Z := u64 (u64 (u64 (n * WORD) + PAGESIZE) - WORD) / PAGESIZE.

Definition new_aggregate (capacity : Z) (s : buffers_t) : res (Z * buffers_t) :=
  let pages_of_addrs := pages_of capacity in
  let pages_of_minimap := pages_of pages_of_addrs in
  map_buffer s (fun p => fresh_buffer p (zeros (pages_of_addrs * PAGE_WORDS))
    (zeros (pages_of_minimap * PAGE_WORDS)) 1 capacity).

Definition forkscan_make_aggregate_buffer (capacity : Z) (s : buffers_t) : res (Z * buffers_t) :=
  let! capacity := round_capacity capacity in
  if negb (g_available_aggregates s =? 0) then
    let! ' (ab, s) :=
      loop (Datatypes.S (Datatypes.S (size (store s)))) (drop_small capacity) (g_available_aggregates s, s) in
    if negb (ab =? 0) then
      let! d := buf_load s ab in
      let s := set_available s (ab_next d) in
      let! s := buf_modify s ab (with_next 0) in
      let! s := buf_modify s ab (with_n_addrs 0) in
      let! d := buf_load s ab in
      assert (ab_ref_count d =? 0) ;!
      Ok (ab, s)
    else new_aggregate capacity (set_available s 0)
  else new_aggregate capacity s.

(** ** Back to the pools *)

Definition forkscan_release_buffer (ab : Z) (s : buffers_t) : res buffers_t :=
  assert (negb (ab =? g_first_retiree_buffer s)) ;!
  assert (negb (ab =? g_last_retiree_buffer s)) ;!
  let! d := buf_load s ab in
  if ab_is_aggregate d =? 0 then
    assert (ab_capacity d =? g_default_capacity s) ;!
    let! s := buf_modify s ab (with_next (g_reclaimer_list s)) in
    Ok (set_reclaimer_list s ab)
  else
    let! s := buf_modify s ab (with_next (g_available_aggregates s)) in
    Ok (set_available s ab).

(** ** The retirees *)

Definition forkscan_buffer_push_back (ab : Z) (s : buffers_t) : res buffers_t :=
  let! s := buf_modify s ab (fun d => with_fields d 0 (ab_n_addrs d) 1 0) in
  if g_last_retiree_buffer s =? 0 then Ok (set_retirees s ab ab)
  else
    let! s := buf_modify s (g_last_retiree_buffer s) (with_next ab) in
    Ok (set_retirees s (g_first_retiree_buffer s) ab).

Definition pop_scan (s : buffers_t) (ab : Z) (st : Z * Z) : res (flow (Z * Z) (Z * Z)) :=
  let '(curr, prev) := st in
  if negb (curr =? 0) && negb (ab =? curr) then
    let! d := buf_load s curr in Ok (Next (ab_next d, curr))
  else Ok (Done (curr, prev)).

Definition forkscan_buffer_pop_retiree_buffer (ab : Z) (s : buffers_t) : res buffers_t :=
  let! ' (curr, prev) :=
    loop (Datatypes.S (Datatypes.S (size (store s)))) (pop_scan s ab) (g_first_retiree_buffer s, 0) in
  if curr =? ab then
    let! d := buf_load s curr in
    let! s :=
      if negb (prev =? 0) then buf_modify s prev (with_next (ab_next d))
      else Ok (set_retirees s (ab_next d) (g_last_retiree_buffer s)) in
    Ok (if g_first_retiree_buffer s =? 0 then set_retirees s 0 0 else s)
  else Ok s.

Definition forkscan_buffer_get_retiree_buffer (s : buffers_t) : res (Z * buffers_t) :=
  if g_first_retiree_buffer s =? 0 then Ok (0, s)
  else
    let ret := g_first_retiree_buffer s in
    let! d := buf_load s ret in
    let! r := int_chk (ab_ref_count d + 1) in
    let! s := buf_modify s ret (with_ref_count r) in
    Ok (ret, s).

Definition forkscan_buffer_unref_buffer (ab : Z) (s : buffers_t) : res buffers_t :=
  let! d := buf_load s ab in
  let! r := int_chk (ab_ref_count d - 1) in
  let! s := buf_modify s ab (with_ref_count r) in
  let! d := buf_load s ab in
  if ab_ref_count d =? 0 then
    if ab_free_idx d >=? ab_n_addrs d then forkscan_release_buffer ab s else Ok s
  else Ok s.

(** ** Dead references *)

(** The loop over one retiree's addresses; the flag says that the table is
    full. *)
Definition dead_step (src : addr_buffer_t) (st : Z * addr_buffer_t)
    : res (flow (Z * addr_buffer_t) (addr_buffer_t * bool)) :=
  let '(i, ret) := st in
  if i <? ab_n_addrs src then
    let! addr := rd (ab_addrs src) i in
    if negb (Z.land addr 3 =? 0) then Ok (Next (i + 1, ret)) else
    let! l := wr (ab_addrs ret) (ab_n_addrs ret) addr in
    let ret := with_n_addrs (ab_n_addrs ret + 1) (set_addrs ret l) in
    if ab_n_addrs ret >=? ab_capacity ret then Ok (Done (ret, true)) else Ok (Next (i + 1, ret))
  else Ok (Done (ret, false)).

Definition dead_walk (s : buffers_t) (st : Z * addr_buffer_t)
    : res (flow (Z * addr_buffer_t) addr_buffer_t) :=
  let '(ab, ret) := st in
  if ab =? 0 then Ok (Done ret) else
  let! d := buf_load s ab in
  let! ' (ret, full) := loop (Datatypes.S (Z.to_nat (ab_n_addrs d))) (dead_step d) (0, ret) in
  if full : bool then Ok (Done ret) else Ok (Next (ab_next d, ret)).

Definition forkscan_buffer_get_dead_references (s : buffers_t) : res (Z * buffers_t) :=
  let! s :=
    if g_dead_references s =? 0 then
      assert (0 <? g_default_capacity s) ;!
      let c := g_default_capacity s in
      let! ' (p, s) := map_buffer s (fun p => fresh_buffer p (zeros c) [] 0 c) in
      Ok (set_dead_references s p)
    else Ok s in
  let ret := g_dead_references s in
  let! s := buf_modify s ret (with_n_addrs 0) in
  let! d := buf_load s ret in
  let! d := loop (Datatypes.S (Datatypes.S (size (store s)))) (dead_walk s) (g_first_retiree_buffer s, d) in
  let! s := buf_modify s ret (fun _ => d) in
  Ok (ret, s).

(** * Stepping through the store *)

Lemma wp_buf_load s p ab (Q : addr_buffer_t -> Prop) :
  p <> 0 -> store s !! p = Some ab -> Q ab -> wp (buf_load s p) Q.
Proof. intros Hp Hd HQ. unfold buf_load. apply Z.eqb_neq in Hp as ->. by rewrite Hd. Qed.

Lemma wp_buf_modify s p f ab (Q : buffers_t -> Prop) :
  p <> 0 -> store s !! p = Some ab -> Q (set_store s (<[p := f ab]> (store s))) ->
  wp (buf_modify s p f) Q.
Proof. intros Hp Hd HQ. unfold buf_modify. wp_step. eapply wp_buf_load; [done.. |]. by wp_step. Qed.

Lemma store_lookup (m : gmap Z addr_buffer_t) p q d :
  <[p := d]> m !! q = if decide (q = p) then Some d else m !! q.
Proof. case_decide; [subst; by rewrite lookup_insert_eq | by rewrite lookup_insert_ne]. Qed.

Definition bchain := lchain ab_next.

(** * Aggregates: room for the addresses and for the minimap *)

(** An aggregate as [new_aggregate] lays it out. *)
Record aggregate_ok (d : addr_buffer_t) : Prop := {
  ag_flag : ab_is_aggregate d = 1;
  ag_capacity : 0 < ab_capacity d <= INT_MAX /\ ab_capacity d mod PAGE_WORDS = 0;
  ag_addrs : zlen (ab_addrs d) = ab_capacity d;
  ag_minimap : ab_capacity d <= zlen (ab_minimap d) * PAGE_WORDS;
  ag_ref : ab_ref_count d = 0 }.

Lemma land_page c : 0 <= c -> Z.land c (PAGE_WORDS - 1) = c mod PAGE_WORDS.
Proof. intros H. change (PAGE_WORDS - 1) with (Z.ones 9). by rewrite Z.land_ones by lia. Qed.

Lemma round_capacity_ok c : 1 <= c <= INT_MAX - 511 ->
  wp (round_capacity c) (fun r => c <= r < c + 512 /\ r mod PAGE_WORDS = 0 /\ 0 < r <= INT_MAX).
Proof.
  unfold INT_MAX. intros Hc. unfold round_capacity. rewrite land_page by lia.
  change PAGE_WORDS with 512. assert (Hm : 0 <= c mod 512 < 512) by (apply Z.mod_pos_bound; done).
  assert (Hr : (c - c mod 512 + 512) mod 512 = 0) by (Z.to_euclidean_division_equations; lia).
  destruct (Z.eqb_spec (c mod 512) 0) as [E | E]; cbn [negb].
  - wp_step. lia.
  - wp_step. wp_step; [unfold int_ok, INT_MIN, INT_MAX; lia |].
    wp_step; [unfold int_ok, INT_MIN, INT_MAX; lia |].
    split; [lia |]. split; [done |].
    Z.to_euclidean_division_equations. lia.
Qed.

Lemma pages_of_spec n : 0 <= n < 2 ^ 40 -> pages_of n = (n + 511) / 512.
Proof.
  intros Hn. unfold pages_of, WORD, PAGESIZE.
  rewrite (u64_small (n * 8)) by (unfold size_ok; lia).
  rewrite (u64_small (n * 8 + 0x1000)) by (unfold size_ok; lia).
  rewrite u64_small by (unfold size_ok; lia). Z.to_euclidean_division_equations. lia.
Qed.

Lemma zlen_zeros n : 0 <= n -> zlen (zeros n) = n.
Proof. intros H. unfold zlen, zeros. rewrite length_replicate. lia. Qed.

Lemma new_aggregate_ok c s p rest (Q : Z * buffers_t -> Prop) :
  0 < c <= INT_MAX -> c mod PAGE_WORDS = 0 -> blocks s = p :: rest ->
  (forall d, aggregate_ok d -> ab_capacity d = c -> ab_n_addrs d = 0 -> ab_next d = 0 ->
     Q (p, set_store (set_memory s rest (unmapped s)) (<[p := d]> (store s)))) ->
  wp (new_aggregate c s) Q.
Proof.
  unfold INT_MAX. intros Hc Hm Hb HQ. unfold new_aggregate, map_buffer. rewrite Hb. wp_step.
  assert (Hp : pages_of c * 512 = c).
  { rewrite pages_of_spec by lia. change PAGE_WORDS with 512 in Hm.
    Z.to_euclidean_division_equations. lia. }
  assert (Hpp : pages_of c <= pages_of (pages_of c) * 512).
  { rewrite (pages_of_spec (pages_of c)) by lia. Z.to_euclidean_division_equations. lia. }
  apply HQ; [| done..]. change PAGE_WORDS with 512 in *.
  generalize dependent (pages_of (pages_of c)). generalize dependent (pages_of c). intros a Ha b Hb'.
  split; cbn [fresh_buffer ab_is_aggregate ab_capacity ab_addrs ab_minimap ab_ref_count];
    change PAGE_WORDS with 512; [done | unfold INT_MAX; lia | rewrite zlen_zeros; lia | rewrite zlen_zeros; lia | done].
Qed.

(** The aggregates [l] wait to be used again. *)
Record waiting (s : buffers_t) (l : list Z) : Prop := {
  wt_chain : bchain (store s) (g_available_aggregates s) l;
  wt_nodup : NoDup l;
  wt_ok : forall q d, q ∈ l -> store s !! q = Some d -> aggregate_ok d }.

Lemma waiting_none s : g_available_aggregates s = 0 -> waiting s [].
Proof. intros E. split; [done | constructor |]. intros q d Hq. by apply not_elem_of_nil in Hq. Qed.

(** The list heads other than that of the waiting aggregates. *)
Definition same_heads (s s' : buffers_t) : Prop :=
  g_first_retiree_buffer s' = g_first_retiree_buffer s /\
  g_last_retiree_buffer s' = g_last_retiree_buffer s /\
  g_default_capacity s' = g_default_capacity s /\ g_reclaimer_list s' = g_reclaimer_list s /\
  g_dead_references s' = g_dead_references s.

(** What becomes of the waiting aggregates: the first that is large enough is
    taken, those before it are unmapped; [None] if there is none. *)
Definition drop_spec (s : buffers_t) (l : list Z) (c : Z) (ab : Z) (s' : buffers_t) : Prop :=
  exists l1 l2, l = l1 ++ l2 /\ ab = hd 0 l2 /\
    (forall q d, q ∈ l1 -> store s !! q = Some d -> ab_capacity d < c) /\
    (forall d, l2 <> [] -> store s !! ab = Some d -> c <= ab_capacity d) /\
    unmapped s' = rev l1 ++ unmapped s /\ blocks s' = blocks s /\
    (forall q, store s' !! q = if decide (q ∈ l1) then None else store s !! q) /\ same_heads s s'.

Lemma drop_small_ok s l c :
  bchain (store s) (g_available_aggregates s) l -> NoDup l ->
  wp (loop (Datatypes.S (Datatypes.S (size (store s)))) (drop_small c) (g_available_aggregates s, s))
    (fun '(ab, s') => drop_spec s l c ab s').
Proof.
  intros Hch Hnd. pose proof (lchain_size _ _ _ _ Hch Hnd) as Hsz.
  apply (wp_loop_rel (fun n '(ab, s') => exists l1 l2, l = l1 ++ l2 /\ length l2 = n /\
      bchain (store s) ab l2 /\
      (forall q d, q ∈ l1 -> store s !! q = Some d -> ab_capacity d < c) /\
      unmapped s' = rev l1 ++ unmapped s /\ blocks s' = blocks s /\
      (forall q, store s' !! q = if decide (q ∈ l1) then None else store s !! q) /\ same_heads s s') (length l)).
  - exists [], l. split_and!; try done. intros q d Hq. by apply not_elem_of_nil in Hq.
  - lia.
  - intros n [ab s'] (l1 & l2 & El & Hn & Hc2 & Hsmall & Hu & Hb & Hst & Hh). unfold drop_small.
    destruct l2 as [|q l2].
    + cbn in Hc2. subst ab. rewrite Z.eqb_refl. wp_step. exists l1, [].
      split_and!; try done.
    + destruct Hc2 as (-> & Hq0 & d & Hd & Hc2). apply Z.eqb_neq in Hq0 as Hq0'. rewrite Hq0'.
      assert (Hq1 : q ∉ l1).
      { subst l. apply NoDup_app in Hnd as (_ & Hdis & _). intros Hq. apply (Hdis q Hq). left. }
      wp_step. eapply (wp_buf_load _ _ d); [done | by rewrite Hst, decide_False |].
      destruct (Z.ltb_spec (ab_capacity d) c) as [Hlt | Hge]; wp_step.
      * exists (length l2). split; [cbn in Hn; lia |]. exists (l1 ++ [q]), l2.
        split; [by rewrite <- app_assoc |]. split; [done |]. split; [done |]. split; [| split; [| split; [| split; [| exact Hh]]]].
        -- intros r e [Hr | ->%list_elem_of_singleton]%elem_of_app He; [by apply (Hsmall r) | congruence].
        -- cbn. by rewrite Hu, rev_app_distr.
        -- done.
        -- intros r. cbn. rewrite lookup_delete, Hst.
           repeat case_decide; try done; rewrite elem_of_app, list_elem_of_singleton in *;
             exfalso; intuition congruence.
      * exists l1, (q :: l2). split_and!; try done. intros e _ He. cbn in *. congruence.
Qed.

(** What [forkscan_make_aggregate_buffer] hands out, given the list [l] of
    waiting aggregates and the next block [p] of memory. *)
Definition made_aggregate (c : Z) (s : buffers_t) (l : list Z) (p : Z) (rest : list Z)
    (ab : Z) (s' : buffers_t) : Prop :=
  exists d, store s' !! ab = Some d /\
    aggregate_ok d /\ c <= ab_capacity d /\ ab_n_addrs d = 0 /\ ab_next d = 0 /\ same_heads s s' /\
    (forall q, (q ∉ ab :: l) -> store s' !! q = store s !! q) /\
    (forall q, q <> ab -> store s' !! q = None \/ store s' !! q = store s !! q) /\
    ((exists l1 l2, l = l1 ++ ab :: l2 /\ waiting s' l2 /\
        (forall e, store s !! ab = Some e -> ab_capacity d = ab_capacity e) /\
        (forall q e, q ∈ l1 -> store s !! q = Some e -> ab_capacity e < c + 512) /\
        unmapped s' = rev l1 ++ unmapped s /\ blocks s' = blocks s) \/
     (ab = p /\ waiting s' [] /\ ab_capacity d < c + 512 /\ blocks s' = rest /\
        unmapped s' = rev l ++ unmapped s)).

Lemma made_fresh c r s s1 l p rest :
  c <= r < c + 512 -> 0 < r <= INT_MAX -> r mod PAGE_WORDS = 0 -> blocks s1 = p :: rest ->
  g_available_aggregates s1 = 0 -> unmapped s1 = rev l ++ unmapped s -> same_heads s s1 ->
  (forall q, (q ∉ l) -> store s1 !! q = store s !! q) ->
  (forall q, store s1 !! q = None \/ store s1 !! q = store s !! q) ->
  wp (new_aggregate r s1) (fun '(ab, s') => made_aggregate c s l p rest ab s').
Proof.
  intros Hr Hr0 Hrm Hb1 Ha1 Hu1 Hh Hst Hor. eapply new_aggregate_ok; [lia | done | done |].
  intros d Hd Ed En Ex. exists d. split; [apply lookup_insert_eq |].
  split; [done |]. split; [lia |]. split; [done |]. split; [done |]. split; [exact Hh |]. split.
  { intros q [Hq1 Hq2]%not_elem_of_cons. cbn. rewrite lookup_insert_ne by done. by apply Hst. }
  split; [intros q Hq; cbn; by rewrite lookup_insert_ne |]. right.
  split; [done |]. split; [by apply waiting_none |]. split; [lia |]. by split.
Qed.

Lemma make_aggregate_wp c s l p rest :
  1 <= c <= INT_MAX - 511 -> waiting s l -> blocks s = p :: rest ->
  wp (forkscan_make_aggregate_buffer c s) (fun '(ab, s') => made_aggregate c s l p rest ab s').
Proof.
  intros Hc [Hch Hnd Hok] Hb. unfold forkscan_make_aggregate_buffer. wp_step.
  eapply wp_mono; [by apply round_capacity_ok |]. intros r (Hr & Hrm & Hr0).
  pose proof (lchain_head _ _ _ _ Hch) as Hhd.
  destruct (Z.eqb_spec (g_available_aggregates s) 0) as [E0 | E0]; cbn [negb].
  - destruct l as [|x l']; [apply (made_fresh c r s s [] p rest); try done; by right |].
    exfalso. destruct Hch as (Ex & Hx & _). congruence.
  - wp_step. eapply wp_mono; [by apply drop_small_ok |].
    intros [ab s1] (l1 & l2 & El & Eab & Hsmall & Hbig & Hu & Hb1 & Hst & Hh).
    destruct l2 as [|x l2]; cbn [hd] in Eab.
    { subst ab. cbn [Z.eqb negb]. rewrite app_nil_r in El. subst l1. apply made_fresh; try done.
      - by cbn; rewrite Hb1.
      - intros q Hq. cbn. by rewrite Hst, decide_False.
      - intros q. cbn. rewrite Hst. case_decide; [by left | by right]. }
    subst x l. destruct (lchain_app _ _ _ _ _ _ Hch) as (Hab0 & d & Hd & Hc2).
    apply Z.eqb_neq in Hab0 as Hab'. rewrite Hab'. cbn [negb].
    assert (Hnin : ab ∉ l1).
    { apply NoDup_app in Hnd as (_ & Hdis & _). intros Hq. apply (Hdis ab Hq). left. }
    assert (Hd1 : store s1 !! ab = Some d) by (by rewrite Hst, decide_False).
    wp_step. eapply wp_buf_load; [done.. |]. wp_step. eapply wp_buf_modify; [done.. |].
    wp_step. eapply wp_buf_modify; [done | apply lookup_insert_eq |].
    wp_step. eapply wp_buf_load; [done | apply lookup_insert_eq |].
    pose proof (Hok ab d (elem_of_mid l1 ab l2) Hd) as [G1 G2 G3 G4 G5].
    wp_step. wp_step; [by apply Z.eqb_eq |]. wp_step.
    eexists. split; [apply lookup_insert_eq |]. split; [by split |].
    specialize (Hbig d ltac:(done) Hd). split; [cbn; lia |]. split; [done |]. split; [done |]. split; [exact Hh |]. split.
    { intros q [Hq1 Hq2]%not_elem_of_cons. rewrite in_mid in Hq2. cbn.
      rewrite !lookup_insert_ne by done. rewrite Hst, decide_False; [done |].
      intros Hq. apply Hq2. right. apply elem_of_app. by left. }
    split.
    { intros q Hq. cbn. rewrite !lookup_insert_ne, Hst by done. case_decide; [by left | by right]. }
    assert (Hl2 : forall q, q ∈ l2 -> ab <> q /\ store s1 !! q = store s !! q).
    { intros q Hq. apply NoDup_app in Hnd as (_ & Hdis & Hnd2). apply NoDup_cons in Hnd2 as [Hn2 _].
      split; [by intros -> |]. rewrite Hst, decide_False; [done |]. intros Hq1. apply (Hdis q Hq1). by right. }
    left. exists l1, l2. split; [done |]. split; [split; cbn | split; [| split; [| by split]]].
    + eapply lchain_frame; [exact Hc2 |]. intros q [Hq1 Hq2]%Hl2.
      by rewrite !lookup_insert_ne, Hq2.
    + apply NoDup_app in Hnd as (_ & _ & Hnd2). by apply NoDup_cons in Hnd2 as [_ ?].
    + intros q e Hq He. pose proof (Hl2 q Hq) as [Hq1 Hq2]. rewrite !lookup_insert_ne in He by done.
      apply (Hok q); [apply elem_of_app; right; by right | congruence].
    + intros e He. cbn. congruence.
    + intros q e Hq He. specialize (Hsmall q e Hq He). lia.
Qed.

(** [forkscan_make_aggregate_buffer] returns an empty buffer with room for
    the capacity asked for and, in its minimap, for one word per page of
    addresses.  It is the first of the waiting aggregates that is large
    enough; those before it are unmapped.  Only when none is, memory is
    mapped, for the capacity rounded up to a page. *)
Theorem make_aggregate_fits c s l p rest :
  1 <= c <= INT_MAX - 511 -> waiting s l -> blocks s = p :: rest ->
  exists ab s', forkscan_make_aggregate_buffer c s = Ok (ab, s') /\ made_aggregate c s l p rest ab s'.
Proof.
  intros Hc Hl Hb. pose proof (make_aggregate_wp c s l p rest Hc Hl Hb) as Hw.
  apply wp_iff in Hw as ([ab s'] & E & H). by exists ab, s'.
Qed.

(** No buffers yet, and some blocks of memory to come. *)
Definition buffers_start (blocks : list Z) : buffers_t := mk_buffers ∅ 0 0 0 0 0 0 blocks [].

Lemma make_aggregate_fits_witness :
  exists ab s', forkscan_make_aggregate_buffer 1000 (buffers_start [0x10000]) = Ok (ab, s') /\
    made_aggregate 1000 (buffers_start [0x10000]) [] 0x10000 [] ab s'.
Proof.
  apply (make_aggregate_fits 1000 (buffers_start [0x10000]) [] 0x10000 []);
    [by vm_compute | by apply waiting_none | done].
Defined.

(** * The retirees *)

Definition end_of (l : list Z) : Z := default 0 (last l).

(** The retirees are the buffers [l], oldest first. *)
Record retirees (s : buffers_t) (l : list Z) : Prop := {
  rt_chain : bchain (store s) (g_first_retiree_buffer s) l;
  rt_nodup : NoDup l;
  rt_last : g_last_retiree_buffer s = end_of l }.

Lemma end_of_snoc l x : end_of (l ++ [x]) = x.
Proof. unfold end_of. by rewrite last_snoc. Qed.

Lemma end_of_mid l x l' : end_of (l ++ x :: l') = end_of (x :: l').
Proof. unfold end_of. by rewrite last_app_cons. Qed.

Lemma retirees_frame s s' l : retirees s l -> same_heads s s' ->
  (forall q, q ∈ l -> ab_next <$> store s' !! q = ab_next <$> store s !! q) -> retirees s' l.
Proof.
  intros [Hch Hnd Hl] (H1 & H2 & _) Hst. split; [| done | congruence]. rewrite H1.
  by eapply lchain_frame.
Qed.

Lemma retirees_modify s l p d d' : retirees s l -> store s !! p = Some d -> ab_next d' = ab_next d ->
  retirees (set_store s (<[p := d']> (store s))) l.
Proof.
  intros Hr Hd Hf. apply (retirees_frame s); [done | done |]. intros q _. cbn.
  destruct (decide (q = p)) as [-> | Hne]; [rewrite lookup_insert_eq, Hd; cbn; by rewrite Hf | by rewrite lookup_insert_ne].
Qed.

(** The list heads other than those of the retirees, and the memory. *)
Definition other_heads (s s' : buffers_t) : Prop :=
  g_available_aggregates s' = g_available_aggregates s /\ g_default_capacity s' = g_default_capacity s /\
  g_reclaimer_list s' = g_reclaimer_list s /\ g_dead_references s' = g_dead_references s /\ blocks s' = blocks s.

Lemma with_next_id e : with_next (ab_next e) e = e.
Proof. by destruct e. Qed.

Lemma push_back_wp s l ab d :
  retirees s l -> ab ∉ l -> ab <> 0 -> store s !! ab = Some d ->
  wp (forkscan_buffer_push_back ab s) (fun s' => retirees s' (l ++ [ab]) /\
    store s' !! ab = Some (with_fields d 0 (ab_n_addrs d) 1 0) /\
    (forall q, (q ∉ ab :: l) -> store s' !! q = store s !! q) /\
    other_heads s s' /\
    (forall q e, q <> ab -> store s !! q = Some e -> exists v, store s' !! q = Some (with_next v e))).
Proof.
  intros [Hch Hnd Hlast] Hab Hab0 Hd. unfold forkscan_buffer_push_back. wp_step.
  eapply wp_buf_modify; [done.. |]. set (d1 := with_fields d _ _ _ _).
  destruct (list_snoc_case l) as [-> | (x & l0 & ->)]; last rename l0 into l.
  - cbn in Hlast. cbn [set_store g_last_retiree_buffer]. rewrite Hlast. cbn [Z.eqb]. wp_step.
    split; [split; cbn; [| apply NoDup_singleton | done] | split; [| split; [| split; [by split_and! |]]]].
    + do 2 (split; [done |]). exists d1. split; [apply lookup_insert_eq | done].
    + apply lookup_insert_eq.
    + intros q [Hq _]%not_elem_of_cons. cbn. by rewrite lookup_insert_ne.
    + intros q e Hq He. exists (ab_next e). cbn. by rewrite lookup_insert_ne, with_next_id.
  - rewrite end_of_snoc in Hlast. cbn [set_store g_last_retiree_buffer]. rewrite Hlast.
    destruct (lchain_some _ _ _ _ x Hch ltac:(apply elem_of_app; right; left)) as (Hx0 & dx & Hdx).
    apply Z.eqb_neq in Hx0 as Hx0'. rewrite Hx0'.
    assert (Hxab : x <> ab) by (intros ->; apply Hab, elem_of_app; right; left).
    wp_step. eapply (wp_buf_modify _ _ _ dx); [done | cbn; by rewrite lookup_insert_ne |]. wp_step.
    split; [split | split; [| split; [| split; [by split_and! |]]]].
    + cbn. eapply (lchain_snoc _ (store s) _ _ l x ab (with_next ab dx) d1); try done.
      * by rewrite lookup_insert_eq.
      * by rewrite lookup_insert_ne, lookup_insert_eq.
      * intros y Hy. apply NoDup_app in Hnd as (_ & Hdis & _).
        assert (y <> x) by (intros ->; apply (Hdis x Hy); left).
        assert (y <> ab) by (intros ->; apply Hab, elem_of_app; by left).
        by rewrite !lookup_insert_ne.
    + apply NoDup_app. split; [done |]. split; [| apply NoDup_singleton].
      intros y Hy ->%list_elem_of_singleton. done.
    + cbn. by rewrite end_of_snoc.
    + cbn. by rewrite lookup_insert_ne, lookup_insert_eq.
    + intros q [Hq1 Hq2]%not_elem_of_cons. cbn.
      assert (q <> x) by (intros ->; apply Hq2, elem_of_app; right; left). by rewrite !lookup_insert_ne.
    + intros q e Hq He. cbn. destruct (decide (q = x)) as [-> |].
      * rewrite lookup_insert_eq. exists ab. rewrite Hdx in He. by injection He as ->.
      * rewrite !lookup_insert_ne by done. exists (ab_next e). by rewrite with_next_id.
Qed.

Lemma pop_scan_ok s l ab :
  bchain (store s) (g_first_retiree_buffer s) l -> NoDup l -> ab <> 0 ->
  wp (loop (Datatypes.S (Datatypes.S (size (store s)))) (pop_scan s ab) (g_first_retiree_buffer s, 0))
    (fun '(curr, prev) => exists l1 l2, l = l1 ++ l2 /\ bchain (store s) curr l2 /\ prev = end_of l1 /\
       (ab ∉ l1) /\ (curr = ab \/ l2 = [])).
Proof.
  intros Hch Hnd Hab0. pose proof (lchain_size _ _ _ _ Hch Hnd) as Hsz.
  apply (wp_loop_rel (fun n '(curr, prev) => exists l1 l2, l = l1 ++ l2 /\ length l2 = n /\
      bchain (store s) curr l2 /\ prev = end_of l1 /\ (ab ∉ l1)) (length l)).
  - exists [], l. split_and!; try done. apply not_elem_of_nil.
  - lia.
  - intros n [curr prev] (l1 & l2 & El & Hn & Hc2 & Hp & Hnin). unfold pop_scan.
    destruct l2 as [|q l2].
    + cbn in Hc2. subst curr. cbn [Z.eqb negb andb]. wp_step. exists l1, []. split_and!; try done. by right.
    + destruct Hc2 as (-> & Hq0 & d & Hd & Hc2). apply Z.eqb_neq in Hq0 as Hq0'. rewrite Hq0'. cbn [negb andb].
      destruct (Z.eqb_spec ab q) as [-> | Hne]; cbn [negb].
      * wp_step. exists l1, (q :: l2). split_and!; try done; [by do 2 (split; [done |]); exists d | by left].
      * wp_step. eapply wp_buf_load; [done.. |]. wp_step. exists (length l2).
        split; [cbn in Hn; lia |]. exists (l1 ++ [q]), l2. split; [by rewrite <- app_assoc |].
        split; [done |]. split; [done |]. split; [by rewrite end_of_snoc |].
        intros [? | ->%list_elem_of_singleton]%elem_of_app; done.
Qed.

Lemma pop_wp s l1 ab l2 :
  retirees s (l1 ++ ab :: l2) -> (l1 = []) \/ (l2 <> []) ->
  wp (forkscan_buffer_pop_retiree_buffer ab s) (fun s' => retirees s' (l1 ++ l2) /\ other_heads s s' /\
    (l1 = [] -> store s' = store s)).
Proof.
  intros [Hch Hnd Hlast] Hwhere.
  destruct (lchain_app _ _ _ _ _ _ Hch) as (Hab0 & d & Hd & Hc2).
  assert (Hnin : (ab ∉ l1) /\ (ab ∉ l2)).
  { rewrite <- Permutation_middle in Hnd. apply NoDup_cons in Hnd as [H _].
    by apply not_elem_of_app in H. }
  assert (Hnd' : NoDup (l1 ++ l2)) by (rewrite <- Permutation_middle in Hnd; by apply NoDup_cons in Hnd as [_ ?]).
  unfold forkscan_buffer_pop_retiree_buffer. wp_step.
  eapply wp_mono; [by apply (pop_scan_ok s (l1 ++ ab :: l2) ab) |].
  intros [curr prev] (k1 & k2 & Ek & Hck & -> & Hnk & Hcase).
  destruct (split_at_first k1 k2 l1 l2 ab) as [-> ->]; [done | done | apply Hnin | |].
  { intros x k ->. destruct Hcase as [-> | [=]]. by destruct Hck as (-> & _). }
  destruct Hck as (-> & _). rewrite Z.eqb_refl. wp_step. eapply wp_buf_load; [done.. |].
  destruct (list_snoc_case l1) as [-> | (y & l0 & ->)]; clear Hcase Hnk Ek.
  - cbn [end_of last default Z.eqb negb]. wp_step. wp_step. cbn [set_retirees g_first_retiree_buffer].
    apply lchain_head in Hc2 as Eh. destruct l2 as [|z l2]; cbn [hd] in Eh; rewrite Eh.
    + cbn [Z.eqb]. wp_step. split; [split; cbn; done | by split_and!].
    + destruct Hc2 as (_ & Hz & dz & Hdz & Hc2). apply Z.eqb_neq in Hz as Hz'. rewrite Hz'. wp_step.
      split; [| by split_and!]. split; cbn; [| done | by rewrite Hlast].
      split; [done |]. split; [done |]. by exists dz.
  - rewrite end_of_snoc.
    destruct (lchain_some _ _ _ _ y Hch ltac:(rewrite <- app_assoc; apply elem_of_mid)) as (Hy0 & dy & Hdy).
    apply Z.eqb_neq in Hy0 as Hy0'. rewrite Hy0'. cbn [negb]. wp_step.
    eapply wp_buf_modify; [done.. |]. cbn [set_store g_first_retiree_buffer].
    assert (Hne : g_first_retiree_buffer s <> 0).
    { intros E. rewrite E in Hch. by destruct l0; destruct Hch as (? & ? & _). }
    apply Z.eqb_neq in Hne as ->. wp_step. rewrite <- app_assoc in Hch, Hnd.
    split; [| split; [by split_and! | by destruct l0]]. split; cbn.
    + rewrite <- app_assoc. cbn. eapply lchain_cut; [exact Hch | exact Hnd | exact Hd | apply lookup_insert_eq | done |].
      intros z Hz. by rewrite lookup_insert_ne.
    + done.
    + rewrite Hlast. destruct Hwhere as [E | Hl2]; [by destruct l0 |].
      destruct l2 as [|z l2]; [done |]. by rewrite !end_of_mid.
Qed.

(** A buffer that is not in the list stays where it is. *)
Lemma pop_absent s l ab : retirees s l -> (ab ∉ l) -> ab <> 0 -> forkscan_buffer_pop_retiree_buffer ab s = Ok s.
Proof.
  intros [Hch Hnd _] Hn H0. pose proof (pop_scan_ok s l ab Hch Hnd H0) as Hw.
  apply wp_iff in Hw as ([curr prev] & E & k1 & k2 & -> & Hck & _ & _ & Hcase).
  unfold forkscan_buffer_pop_retiree_buffer. rewrite E, bind_ok. destruct (Z.eqb_spec curr ab) as [-> |]; [| done].
  destruct k2 as [|z k2]; [by cbn in Hck |]. destruct Hck as (-> & _). destruct Hn. apply elem_of_app. right. left.
Qed.

(** [forkscan_buffer_push_back] appends a buffer to the retirees, with one
    reference on it and its whole contents to be freed; of the other retirees
    it changes a link at most, and nothing of other buffers. *)
Theorem push_back_appends s l ab d :
  retirees s l -> (ab ∉ l) -> ab <> 0 -> store s !! ab = Some d ->
  exists s', forkscan_buffer_push_back ab s = Ok s' /\ retirees s' (l ++ [ab]) /\
    store s' !! ab = Some (with_fields d 0 (ab_n_addrs d) 1 0) /\
    (forall q, (q ∉ ab :: l) -> store s' !! q = store s !! q) /\
    other_heads s s' /\
    (forall q e, q <> ab -> store s !! q = Some e -> exists v, store s' !! q = Some (with_next v e)).
Proof. intros. apply wp_iff. by eapply push_back_wp. Qed.

(** [forkscan_buffer_pop_retiree_buffer] splices a buffer out of the retirees,
    wherever it is except at the end of a longer list. *)
Theorem pop_retiree_splices s l1 ab l2 :
  retirees s (l1 ++ ab :: l2) -> (l1 = []) \/ (l2 <> []) ->
  exists s', forkscan_buffer_pop_retiree_buffer ab s = Ok s' /\ retirees s' (l1 ++ l2).
Proof.
  intros Hr Hw. pose proof (pop_wp s l1 ab l2 Hr Hw) as H. apply wp_iff in H as (s' & E & H & _). by exists s'.
Qed.

(** The case left out: the last of several retirees.  The list loses the
    buffer, the tail pointer keeps it. *)
Lemma pop_last_wp s l1 ab :
  retirees s (l1 ++ [ab]) -> (l1 <> []) ->
  wp (forkscan_buffer_pop_retiree_buffer ab s) (fun s' =>
    bchain (store s') (g_first_retiree_buffer s') l1 /\ g_last_retiree_buffer s' = ab /\
    (forall q, is_Some (store s !! q) -> is_Some (store s' !! q))).
Proof.
  intros [Hch Hnd Hlast] Hl1. rewrite end_of_snoc in Hlast.
  destruct (lchain_app _ _ _ _ _ _ Hch) as (Hab0 & d & Hd & Hc2).
  assert (Hnin : ab ∉ l1).
  { apply NoDup_app in Hnd as (_ & Hdis & _). intros H. apply (Hdis ab H). left. }
  unfold forkscan_buffer_pop_retiree_buffer. wp_step.
  eapply wp_mono; [by apply (pop_scan_ok s (l1 ++ [ab]) ab) |].
  intros [curr prev] (k1 & k2 & Ek & Hck & -> & Hnk & Hcase).
  destruct (split_at_first k1 k2 l1 [] ab) as [-> ->]; [done | done | done | |].
  { intros x k ->. destruct Hcase as [-> | [=]]. by destruct Hck as (-> & _). }
  destruct Hck as (-> & _). rewrite Z.eqb_refl. wp_step. eapply wp_buf_load; [done.. |].
  destruct (list_snoc_case l1) as [-> | (y & l0 & ->)]; [done |]. rewrite end_of_snoc.
  destruct (lchain_some _ _ _ _ y Hch ltac:(rewrite <- app_assoc; apply elem_of_mid)) as (Hy0 & dy & Hdy).
  apply Z.eqb_neq in Hy0 as Hy0'. rewrite Hy0'. cbn [negb]. wp_step.
  eapply wp_buf_modify; [done.. |]. cbn [set_store g_first_retiree_buffer].
  assert (Hne : g_first_retiree_buffer s <> 0).
  { intros E. rewrite E in Hch. by destruct l0; destruct Hch as (? & ? & _). }
  apply Z.eqb_neq in Hne as ->. wp_step. rewrite <- app_assoc in Hch, Hnd. cbn.
  split; [| split; [done |]].
  - eapply lchain_cut; [exact Hch | exact Hnd | exact Hd | apply lookup_insert_eq | done |].
    intros z Hz. by rewrite lookup_insert_ne.
  - intros q Hq. rewrite store_lookup. by case_decide.
Qed.

Lemma push_stale_wp s l c ab :
  bchain (store s) (g_first_retiree_buffer s) l -> g_last_retiree_buffer s = ab -> ab <> 0 -> c <> 0 ->
  (ab ∉ l) -> (c ∉ l) -> is_Some (store s !! ab) -> is_Some (store s !! c) ->
  wp (forkscan_buffer_push_back c s) (fun s' => bchain (store s') (g_first_retiree_buffer s') l).
Proof.
  intros Hch Hlast Hab0 Hc0 Hab Hc [da Hda] [dc Hdc]. unfold forkscan_buffer_push_back. wp_step.
  eapply wp_buf_modify; [done.. |]. set (c' := with_fields dc _ _ _ _).
  cbn [set_store g_last_retiree_buffer]. rewrite Hlast. apply Z.eqb_neq in Hab0 as Hab'. rewrite Hab'.
  assert (exists e, <[c := c']> (store s) !! ab = Some e) as [e He].
  { rewrite store_lookup. case_decide; eauto. }
  wp_step. eapply wp_buf_modify; [done | exact He |]. wp_step. cbn.
  eapply lchain_frame; [exact Hch |]. intros q Hq.
  by rewrite !lookup_insert_ne by (intros ->; contradiction).
Qed.

(** "What if when the buff was removed from the list, it wasn't at the
    front?"  After the last of several retirees is popped, the next buffer
    pushed is not in the list. *)
Theorem pop_last_loses_push s l1 ab c :
  retirees s (l1 ++ [ab]) -> (l1 <> []) -> (c ∉ l1) -> c <> 0 -> is_Some (store s !! c) ->
  exists s1 s2, forkscan_buffer_pop_retiree_buffer ab s = Ok s1 /\
    forkscan_buffer_push_back c s1 = Ok s2 /\ bchain (store s2) (g_first_retiree_buffer s2) l1.
Proof.
  intros Hr Hl1 Hc Hc0 Hsc. pose proof (pop_last_wp _ _ _ Hr Hl1) as Hp.
  apply wp_iff in Hp as (s1 & E1 & Hch & Hlast & Hst). destruct Hr as [Hch0 Hnd _].
  destruct (lchain_app _ _ _ _ _ _ Hch0) as (Hab0 & d & Hd & _).
  assert (Hp : wp (forkscan_buffer_push_back c s1) (fun s' => bchain (store s') (g_first_retiree_buffer s') l1)).
  { apply (push_stale_wp s1 l1 c ab); try done; [| by apply Hst; eexists | by apply Hst].
    apply NoDup_app in Hnd as (_ & Hdis & _). intros H. apply (Hdis ab H). left. }
  apply wp_iff in Hp as (s2 & E2 & H2). by exists s1, s2.
Qed.

(** Three buffers [0x10], [0x20], [0x30] of which the first two are retired. *)
Definition demo_buffer (next : Z) (l : list Z) : addr_buffer_t :=
  with_fields (fresh_buffer 0x1000 l [] 0 4) next (zlen l) 1 0.
Definition demo_retirees : buffers_t :=
  mk_buffers {[ 0x10 := demo_buffer 0x20 [8; 9; 16]; 0x20 := demo_buffer 0 [24; 32; 35; 40];
                0x30 := demo_buffer 0 [48] ]} 4 0 0x10 0x20 0 0 [0x40] [].

Lemma demo_retired : retirees demo_retirees [0x10; 0x20].
Proof.
  split; [| by apply (bool_decide_unpack _); vm_compute | done].
  do 2 (split; [done |]). eexists. split; [by vm_compute |].
  do 2 (split; [done |]). eexists. by split; [vm_compute |].
Qed.

Lemma push_back_appends_witness :
  exists s', forkscan_buffer_push_back 0x30 demo_retirees = Ok s' /\ retirees s' [0x10; 0x20; 0x30].
Proof.
  destruct (push_back_appends demo_retirees [0x10; 0x20] 0x30 (demo_buffer 0 [48])) as (s' & E & H & _);
    [apply demo_retired | by apply (bool_decide_unpack _); vm_compute | done | by vm_compute | by exists s'].
Defined.

Lemma pop_retiree_splices_witness :
  exists s', forkscan_buffer_pop_retiree_buffer 0x10 demo_retirees = Ok s' /\ retirees s' [0x20].
Proof. apply (pop_retiree_splices demo_retirees [] 0x10 [0x20]); [apply demo_retired | by left]. Defined.

Lemma pop_last_loses_push_witness :
  exists s1 s2, forkscan_buffer_pop_retiree_buffer 0x20 demo_retirees = Ok s1 /\
    forkscan_buffer_push_back 0x30 s1 = Ok s2 /\ bchain (store s2) (g_first_retiree_buffer s2) [0x10].
Proof.
  apply (pop_last_loses_push demo_retirees [0x10] 0x20 0x30);
    [apply demo_retired | done | by apply (bool_decide_unpack _); vm_compute | done | by eexists; vm_compute].
Defined.

(** * Dead references *)

Definition unmarked (v : Z) : bool := Z.land v 3 =? 0.

(** The addresses of the buffer [d] whose low bits are clear, and those of
    the buffers [l]. *)
Definition dead_in (d : addr_buffer_t) : list Z :=
  filter (fun v => unmarked v = true) (take (Z.to_nat (ab_n_addrs d)) (ab_addrs d)).
Definition dead_of (m : gmap Z addr_buffer_t) (l : list Z) : list Z :=
  flat_map (fun q => match m !! q with Some d => dead_in d | None => [] end) l.

(** The table [d] of capacity [c] has the entries [acc]. *)
Record table (c : Z) (acc : list Z) (d : addr_buffer_t) : Prop := {
  tb_n : ab_n_addrs d = zlen acc;
  tb_prefix : take (length acc) (ab_addrs d) = acc;
  tb_room : zlen (ab_addrs d) = c;
  tb_capacity : ab_capacity d = c }.

Lemma table_add c acc d v : table c acc d -> zlen acc < c ->
  table c (acc ++ [v]) (with_n_addrs (ab_n_addrs d + 1) (set_addrs d (upd (ab_addrs d) (ab_n_addrs d) v))).
Proof.
  intros [Hn Hp Hr Hc] Hlt. split; cbn; [| | by rewrite zlen_upd | done].
  - rewrite zlen_app, Hn. done.
  - rewrite Hn. apply take_upd_snoc; [lia | done].
Qed.

Lemma take_unmarked l (n : nat) v : l !! n = Some v ->
  filter (fun v => unmarked v = true) (take (Datatypes.S n) l) =
  filter (fun v => unmarked v = true) (take n l) ++ (if unmarked v then [v] else []).
Proof.
  intros H. rewrite (take_S_r _ _ _ H), filter_app. f_equal. unfold filter, list_filter.
  destruct (unmarked v) eqn:E; by case_decide.
Qed.

(** What a walk that has to add [todo] to the table leaves: everything, or
    the table full. *)
Definition dead_out (c : Z) (todo : list Z) (d : addr_buffer_t) (full : bool) : Prop :=
  table c (take (Z.to_nat c) todo) d /\ (if full then c <= zlen todo else zlen todo < c).

Lemma dead_step_ok c acc src ret :
  0 <= ab_n_addrs src <= zlen (ab_addrs src) -> table c acc ret -> zlen acc < c ->
  wp (loop (Datatypes.S (Z.to_nat (ab_n_addrs src))) (dead_step src) (0, ret))
    (fun '(d, full) => dead_out c (acc ++ dead_in src) d full).
Proof.
  intros Hn Ht Hlt.
  set (seen := fun i => acc ++ filter (fun v => unmarked v = true) (take (Z.to_nat i) (ab_addrs src))).
  apply (wp_loop (fun '(i, d) => 0 <= i <= ab_n_addrs src /\ table c (seen i) d /\ zlen (seen i) < c)
           (fun '(i, _) => Z.to_nat (ab_n_addrs src - i))).
  - unfold seen. cbn. rewrite app_nil_r. split; [lia |]. by split.
  - lia.
  - intros [i d] (Hi & Htd & Hlen). unfold dead_step. destruct (Z.ltb_spec i (ab_n_addrs src)) as [Hi' | Hi'].
    + wp_step. wp_step; [lia |].
      assert (Eseen : seen (i + 1) = seen i ++ (if unmarked (get (ab_addrs src) i) then [get (ab_addrs src) i] else [])).
      { unfold seen. rewrite <- app_assoc. f_equal. replace (Z.to_nat (i + 1)) with (Datatypes.S (Z.to_nat i)) by lia.
        apply take_unmarked, get_lookup. lia. }
      change (Z.land (get (ab_addrs src) i) 3 =? 0) with (unmarked (get (ab_addrs src) i)).
      destruct (unmarked (get (ab_addrs src) i)); cbn [negb].
      2: { rewrite app_nil_r in Eseen. wp_step. rewrite Eseen. split; [| lia]. split; [lia | done]. }
      wp_step. apply wp_wr; [rewrite (tb_room _ _ _ Htd), (tb_n _ _ _ Htd); pose proof (zlen_nonneg (seen i)); lia |].
      pose proof (table_add c _ d (get (ab_addrs src) i) Htd Hlen) as Ht1. rewrite <- Eseen in Ht1.
      assert (Hlen1 : zlen (seen (i + 1)) <= c) by (rewrite Eseen, zlen_app; change (zlen [get (ab_addrs src) i]) with 1; lia).
      cbn beta iota zeta. set (d1 := with_n_addrs _ _) in *.
      change (with_n_addrs _ _) with d1. rewrite (tb_n _ _ _ Ht1), (tb_capacity _ _ _ Ht1), Z.geb_leb.
      destruct (Z.leb_spec c (zlen (seen (i + 1)))) as [Hf | Hf]; wp_step.
      * assert (Ek : seen (i + 1) ++ filter (fun v => unmarked v = true)
            (drop (Z.to_nat (i + 1)) (take (Z.to_nat (ab_n_addrs src)) (ab_addrs src))) = acc ++ dead_in src).
        { unfold seen, dead_in. rewrite <- app_assoc. f_equal. rewrite <- filter_app. f_equal.
          trans (take (Z.to_nat (i + 1)) (take (Z.to_nat (ab_n_addrs src)) (ab_addrs src)) ++
            drop (Z.to_nat (i + 1)) (take (Z.to_nat (ab_n_addrs src)) (ab_addrs src))).
          { rewrite take_take. do 2 f_equal. lia. }
          apply take_drop. }
        unfold dead_out. rewrite <- Ek. split; [rewrite take_app_length' by (unfold zlen in *; lia); done |].
        rewrite zlen_app. pose proof (zlen_nonneg (filter (fun v => unmarked v = true)
            (drop (Z.to_nat (i + 1)) (take (Z.to_nat (ab_n_addrs src)) (ab_addrs src))))). lia.
      * split; [| lia]. split; [lia | by split].
    + wp_step. replace i with (ab_n_addrs src) in * by lia. split; [| done].
      change (acc ++ dead_in src) with (seen (ab_n_addrs src)). rewrite take_ge by (unfold zlen in *; lia). done.
Qed.

Lemma dead_of_snoc m l q d : m !! q = Some d -> dead_of m (l ++ [q]) = dead_of m l ++ dead_in d.
Proof. intros H. unfold dead_of. rewrite flat_map_app. cbn. by rewrite H, app_nil_r. Qed.

Lemma dead_of_app m l k : dead_of m (l ++ k) = dead_of m l ++ dead_of m k.
Proof. apply flat_map_app. Qed.

Lemma dead_of_frame m m' l : (forall q, q ∈ l -> m' !! q = m !! q) -> dead_of m' l = dead_of m l.
Proof.
  induction l as [|q l IH]; intros H; [done |]. unfold dead_of in *. cbn. rewrite H by left. f_equal.
  apply IH. intros r Hr. apply H. by right.
Qed.

Lemma dead_walk_ok s c l ret :
  bchain (store s) (g_first_retiree_buffer s) l -> NoDup l -> 0 < c -> table c [] ret ->
  (forall q d, q ∈ l -> store s !! q = Some d -> 0 <= ab_n_addrs d <= zlen (ab_addrs d)) ->
  wp (loop (Datatypes.S (Datatypes.S (size (store s)))) (dead_walk s) (g_first_retiree_buffer s, ret))
    (table c (take (Z.to_nat c) (dead_of (store s) l))).
Proof.
  intros Hch Hnd Hc Ht Hok. pose proof (lchain_size _ _ _ _ Hch Hnd) as Hsz.
  apply (wp_loop_rel (fun n '(ab, d) => exists l1 l2, l = l1 ++ l2 /\ length l2 = n /\
      bchain (store s) ab l2 /\ table c (dead_of (store s) l1) d /\ zlen (dead_of (store s) l1) < c) (length l)).
  - exists [], l. by split_and!.
  - lia.
  - intros n [ab d] (l1 & l2 & -> & Hn & Hc2 & Htd & Hlt). unfold dead_walk. destruct l2 as [|q l2].
    + cbn in Hc2. subst ab. cbn [Z.eqb]. wp_step. rewrite app_nil_r, take_ge by (unfold zlen in *; lia). done.
    + destruct Hc2 as (-> & Hq0 & e & He & Hc2). apply Z.eqb_neq in Hq0 as Hq0'. rewrite Hq0'.
      wp_step. eapply wp_buf_load; [done.. |]. wp_step. eapply wp_mono.
      { apply (dead_step_ok c (dead_of (store s) l1) e d); [apply (Hok q); [apply elem_of_mid | done] | done | done]. }
      intros [d' full] [Ht' Hfull]. rewrite <- (dead_of_snoc _ _ q) in Ht', Hfull by done.
      replace (l1 ++ q :: l2) with ((l1 ++ [q]) ++ l2) by (by rewrite <- app_assoc).
      destruct full; wp_step.
      * rewrite dead_of_app, take_app_le by (unfold zlen in *; lia). done.
      * exists (length l2). split; [cbn in Hn; lia |]. exists (l1 ++ [q]), l2.
        rewrite take_ge in Ht' by (unfold zlen in *; lia). by split_and!.
Qed.

(** The table of dead references: not made yet, or of room for its capacity. *)
Definition dead_ready (s : buffers_t) (l : list Z) (p c : Z) : Prop :=
  0 < c /\ p <> 0 /\ (p ∉ l) /\
  ((g_dead_references s = 0 /\ g_default_capacity s = c /\ exists rest, blocks s = p :: rest) \/
   (g_dead_references s = p /\ exists d, store s !! p = Some d /\ zlen (ab_addrs d) = c /\ ab_capacity d = c)).

(** The part of the routine behind the lazy allocation. *)
Lemma dead_fill_wp s0 s l p c d :
  retirees s l -> 0 < c -> p <> 0 -> (p ∉ l) ->
  (forall q, q ∈ l -> store s !! q = store s0 !! q) ->
  (forall q e, q ∈ l -> store s0 !! q = Some e -> 0 <= ab_n_addrs e <= zlen (ab_addrs e)) ->
  g_dead_references s = p -> store s !! p = Some d -> zlen (ab_addrs d) = c -> ab_capacity d = c ->
  wp (let ret := g_dead_references s in
      let! s := buf_modify s ret (with_n_addrs 0) in
      let! d := buf_load s ret in
      let! d := loop (Datatypes.S (Datatypes.S (size (store s)))) (dead_walk s) (g_first_retiree_buffer s, d) in
      let! s := buf_modify s ret (fun _ => d) in
      Ok (ret, s))
    (fun '(ret, s') => ret = p /\ exists d', s' = set_store s (<[p := d']> (store s)) /\
       table c (take (Z.to_nat c) (dead_of (store s0) l)) d').
Proof.
  intros [Hch Hnd Hlast] Hc Hp Hpl Hst Hok Eg Hd Hz Hcap. cbn beta zeta. rewrite Eg.
  assert (Hne : forall q, q ∈ l -> q <> p) by (intros q Hq ->; contradiction).
  wp_step. eapply wp_buf_modify; [done.. |]. wp_step.
  eapply wp_buf_load; [done | apply lookup_insert_eq |]. wp_step.
  set (s1 := set_store s _).
  assert (Hst1 : forall q, q ∈ l -> store s1 !! q = store s0 !! q).
  { intros q Hq. unfold s1. cbn. rewrite lookup_insert_ne by (symmetry; by apply Hne). by apply Hst. }
  eapply wp_mono.
  { apply (dead_walk_ok s1 c l); [| done | done | by split |].
    - eapply lchain_frame; [exact Hch |]. intros q Hq. by rewrite Hst1, Hst.
    - intros q e Hq He. rewrite Hst1 in He by done. by apply (Hok q). }
  intros d' Ht. wp_step. eapply wp_buf_modify; [done | apply lookup_insert_eq |]. wp_step.
  split; [done |]. rewrite (dead_of_frame _ _ _ Hst1) in Ht. exists d'. split; [| done].
  cbn. by rewrite insert_insert_eq.
Qed.

(** What else becomes of the buffers: only the table at [p] is written, and
    the block it is made of is taken if it was not there. *)
Definition dead_frame (s : buffers_t) (p : Z) (s' : buffers_t) : Prop :=
  (forall q, q <> p -> store s' !! q = store s !! q) /\
  g_first_retiree_buffer s' = g_first_retiree_buffer s /\
  g_last_retiree_buffer s' = g_last_retiree_buffer s /\
  g_default_capacity s' = g_default_capacity s /\
  g_available_aggregates s' = g_available_aggregates s /\
  g_reclaimer_list s' = g_reclaimer_list s /\ g_dead_references s' = p /\
  ((g_dead_references s <> 0 /\ blocks s' = blocks s) \/
   (g_dead_references s = 0 /\ blocks s = p :: blocks s')).

Lemma dead_references_wp s l p c :
  retirees s l -> dead_ready s l p c ->
  (forall q e, q ∈ l -> store s !! q = Some e -> 0 <= ab_n_addrs e <= zlen (ab_addrs e)) ->
  wp (forkscan_buffer_get_dead_references s) (fun '(ret, s') => ret = p /\ dead_frame s p s' /\
    exists d, store s' !! p = Some d /\ table c (take (Z.to_nat c) (dead_of (store s) l)) d).
Proof.
  intros Hr (Hc & Hp & Hpl & Hcase) Hok. unfold forkscan_buffer_get_dead_references. wp_step.
  destruct Hcase as [(Eg & Edc & rest & Eb) | (Eg & d & Hd & Hz & Hcap)]; rewrite Eg.
  - cbn [Z.eqb]. wp_step. wp_step; [lia |]. wp_step. unfold map_buffer. rewrite Eb. wp_step. wp_step.
    assert (Hne : forall q, q ∈ l -> p <> q) by (intros q Hq ->; contradiction).
    eapply wp_mono.
    { eapply (dead_fill_wp s).
      - destruct Hr as [Hch Hnd Hlast]. split; cbn; [| done..]. eapply lchain_frame; [exact Hch |].
        intros q Hq. by rewrite lookup_insert_ne by (by apply Hne).
      - exact Hc.
      - exact Hp.
      - done.
      - intros q Hq. cbn. by rewrite lookup_insert_ne by (by apply Hne).
      - done.
      - done.
      - apply lookup_insert_eq.
      - cbn. rewrite zlen_zeros; lia.
      - exact Edc. }
    intros [ret s'] (-> & d' & -> & Ht). split; [done |].
    split; [| exists d'; split; [apply lookup_insert_eq | done]].
    split_and!; try done; [| right; by rewrite Eb]. intros q Hq. cbn. by rewrite !lookup_insert_ne.
  - apply Z.eqb_neq in Hp as Hp'. rewrite Hp'. wp_step. eapply wp_mono; [by eapply (dead_fill_wp s) |].
    intros [ret s'] (-> & d' & -> & Ht). split; [done |].
    split; [| exists d'; split; [apply lookup_insert_eq | done]].
    split_and!; try done; [| left; by rewrite Eg]. intros q Hq. cbn. by rewrite !lookup_insert_ne.
Qed.

Lemma retirees_dead s l p s' : retirees s l -> (p ∉ l) -> dead_frame s p s' -> retirees s' l.
Proof.
  intros [Hch Hnd Hlast] Hp (Hst & H1 & H2 & _). split; [| done | congruence]. rewrite H1.
  eapply lchain_frame; [exact Hch |]. intros q Hq. rewrite Hst; [done |]. by intros ->.
Qed.

(** [forkscan_buffer_get_dead_references] returns a table of the retirees'
    addresses whose low bits are clear, in the order of the retirees, cut off
    at the capacity of the table; the retirees are left as they were. *)
Theorem dead_references_correct s l p c :
  retirees s l -> dead_ready s l p c ->
  (forall q e, q ∈ l -> store s !! q = Some e -> 0 <= ab_n_addrs e <= zlen (ab_addrs e)) ->
  exists s' d, forkscan_buffer_get_dead_references s = Ok (p, s') /\ retirees s' l /\
    store s' !! p = Some d /\ table c (take (Z.to_nat c) (dead_of (store s) l)) d.
Proof.
  intros Hr Hd Hok. pose proof (dead_references_wp s l p c Hr Hd Hok) as Hw.
  apply wp_iff in Hw as ([ret s'] & E & -> & Hf & d & Hd' & Ht). exists s', d.
  split; [done |]. split; [| done]. eapply retirees_dead; [done | | done]. by destruct Hd as (_ & _ & ? & _).
Qed.

Lemma dead_references_correct_witness :
  exists s' d, forkscan_buffer_get_dead_references demo_retirees = Ok (0x40, s') /\
    retirees s' [0x10; 0x20] /\ store s' !! 0x40 = Some d /\ table 4 [8; 16; 24; 32] d.
Proof.
  apply (dead_references_correct demo_retirees [0x10; 0x20] 0x40 4); [apply demo_retired | |].
  - split; [done |]. split; [done |]. split; [by apply (bool_decide_unpack _); vm_compute |].
    left. split; [done |]. split; [done |]. by exists [].
  - intros q e Hq He. apply elem_of_cons in Hq as [-> | ->%list_elem_of_singleton];
      vm_compute in He; injection He as <-; vm_compute; split; discriminate.
Defined.

(** * Back to the pool *)

Lemma release_aggregate_wp s ab d l (Q : buffers_t -> Prop) :
  ab <> 0 -> store s !! ab = Some d -> aggregate_ok d -> waiting s l -> (ab ∉ l) ->
  ab <> g_first_retiree_buffer s -> ab <> g_last_retiree_buffer s ->
  (forall s', waiting s' (ab :: l) ->
     s' = set_available (set_store s (<[ab := with_next (g_available_aggregates s) d]> (store s))) ab -> Q s') ->
  wp (forkscan_release_buffer ab s) Q.
Proof.
  intros Hab Hd Hok [Hch Hnd Hall] Hnin Hf Hl HQ. unfold forkscan_release_buffer.
  wp_step. wp_step; [by apply negb_true_iff, Z.eqb_neq |].
  wp_step. wp_step; [by apply negb_true_iff, Z.eqb_neq |].
  wp_step. eapply wp_buf_load; [done.. |]. destruct Hok as [G1 G2 G3 G4 G5]. rewrite G1. cbn [Z.eqb].
  wp_step. eapply wp_buf_modify; [done.. |]. wp_step. apply HQ; [| done].
  assert (Hne : forall q, q ∈ l -> ab <> q) by (intros q Hq ->; contradiction).
  split; cbn.
  - split; [done |]. split; [done |]. eexists. split; [apply lookup_insert_eq |]. cbn.
    eapply lchain_frame; [exact Hch |]. intros q Hq. by rewrite lookup_insert_ne by (by apply Hne).
  - by apply NoDup_cons.
  - intros q e [-> | Hq]%elem_of_cons He.
    + rewrite lookup_insert_eq in He. injection He as <-. by split.
    + rewrite lookup_insert_ne in He by (by apply Hne). by apply (Hall q).
Qed.

(** The last reference to an aggregate that is off the list of retirees goes:
    the aggregate is released. *)
Lemma unref_last_wp s l ab d (Q : buffers_t -> Prop) :
  retirees s l -> (ab ∉ l) -> ab <> 0 -> store s !! ab = Some d -> ab_ref_count d = 1 ->
  ab_is_aggregate d = 1 -> ab_n_addrs d <= ab_free_idx d ->
  (forall s', retirees s' l -> Q s') -> wp (forkscan_buffer_unref_buffer ab s) Q.
Proof.
  intros Hr Hab Hab0 Hd Hrc Hag Hf HQ. pose proof Hr as [Hch Hnd Hlast].
  assert (Hne : forall q, q ∈ l -> ab <> q) by (intros q Hq ->; contradiction).
  assert (Hfirst : ab <> g_first_retiree_buffer s).
  { intros ->. destruct l as [|x l]; [done |]. destruct Hch as (E & _). apply (Hne x); [left | done]. }
  assert (Hlst : ab <> g_last_retiree_buffer s).
  { rewrite Hlast. destruct (list_snoc_case l) as [-> | (x & l0 & ->)]; [done |]. rewrite end_of_snoc.
    apply Hne, elem_of_app. right. left. }
  unfold forkscan_buffer_unref_buffer. wp_step. eapply wp_buf_load; [done.. |]. rewrite Hrc. wp_step.
  wp_step; [done |]. wp_step. eapply wp_buf_modify; [done.. |]. wp_step.
  eapply wp_buf_load; [done | apply lookup_insert_eq |]. cbn [with_ref_count with_fields ab_ref_count ab_free_idx ab_n_addrs].
  change (1 - 1 =? 0) with true. rewrite Z.geb_leb. apply Z.leb_le in Hf as ->. cbn beta iota.
  unfold forkscan_release_buffer. wp_step. wp_step; [by apply negb_true_iff, Z.eqb_neq |].
  wp_step. wp_step; [by apply negb_true_iff, Z.eqb_neq |].
  wp_step. eapply wp_buf_load; [done | apply lookup_insert_eq |]. cbn. rewrite Hag. cbn [Z.eqb].
  wp_step. eapply wp_buf_modify; [done | apply lookup_insert_eq |]. wp_step. apply HQ.
  apply (retirees_frame s); [done | done |]. intros q Hq. cbn. by rewrite !lookup_insert_ne by (by apply Hne).
Qed.
