(* ===== verification/Gc.v ===== *)
(** forkscan.c: one iteration of the collector.

    The iteration gathers the buffers the threads retired into one aggregate,
    lets the child sort it, index it and mark the nodes it reaches, and
    divides the outcome: marked nodes go into the next iteration, the others
    to the threads that free them.  [Handshake] models the signals that stop
    the threads; the child's scan is an argument ([Child], [Roots] and [Mark]
    model it). *)
From S2P Require Import Prelude SortUtil AddrBuffer Buffer.

(** ** What the child does before it scans *)

Definition monotonicity_step (a : list Z) (i last : Z) : res Z :=
  let! x := rd a i in
  if x <=? last then Err Fatal else Ok x.

Definition assert_monotonicity (a : list Z) (n : Z) : res unit :=
  let! _ := for_range 0 n (monotonicity_step a) 0 in Ok tt.

Definition minimap_step (st : Z * addr_buffer_t) : res (flow (Z * addr_buffer_t) addr_buffer_t) :=
  let '(i, ab) := st in
  if i <? u64 (ab_n_addrs ab) then
    let! v := rd (ab_addrs ab) i in
    let! m := wr (ab_minimap ab) (ab_n_minimap ab) v in
    let! n := int_chk (ab_n_minimap ab + 1) in
    Ok (Next (u64 (i + PAGE_WORDS), set_minimap ab m n))
  else Ok (Done ab).

Definition generate_minimap (ab : addr_buffer_t) : res addr_buffer_t :=
  loop (Datatypes.S (Z.to_nat (ab_n_addrs ab))) minimap_step (0, set_minimap ab (ab_minimap ab) 0).

(** The child's part of [reclaim_iteration] up to [forkscan_child]. *)
Definition prepare (working_data deadrefs : addr_buffer_t) : res (addr_buffer_t * addr_buffer_t) :=
  let! a := forkscan_util_sort (ab_addrs working_data) (ab_n_addrs working_data) in
  assert_monotonicity a (ab_n_addrs working_data) ;!
  let! working_data := generate_minimap (set_addrs working_data a) in
  if ab_n_addrs deadrefs >? 1 then
    let! a := forkscan_util_sort (ab_addrs deadrefs) (ab_n_addrs deadrefs) in
    assert_monotonicity a (ab_n_addrs deadrefs) ;!
    Ok (working_data, set_addrs deadrefs a)
  else Ok (working_data, deadrefs).

(** ** Gathering *)

Definition count_step (s : buffers_t) (st : Z * Z * Z) : res (flow (Z * Z * Z) (Z * Z)) :=
  let '(tmp, n_addrs, list_count) := st in
  let! d := buf_load s tmp in
  let n_addrs := u64 (n_addrs + u64 (ab_n_addrs d)) in
  let! list_count := int_chk (list_count + 1) in
  if ab_next d =? 0 then Ok (Done (n_addrs, list_count)) else Ok (Next (ab_next d, n_addrs, list_count)).

(** [memcpy(&dst->addrs[off], src->addrs, n * sizeof(size_t))]. *)
Definition copy_addrs (s : buffers_t) (dst src off n : Z) : res buffers_t :=
  let! d := buf_load s src in
  let! b := rd_block (ab_addrs d) 0 n in
  let! r := buf_load s dst in
  let! l := wr_block (ab_addrs r) off b in
  buf_modify s dst (fun r => set_addrs r l).

Definition copy_step (ret : Z) (st : Z * buffers_t) : res (flow (Z * buffers_t) buffers_t) :=
  let '(data_list, s) := st in
  if data_list =? 0 then Ok (Done s) else
  let! d := buf_load s data_list in
  let! r := buf_load s ret in
  let! s := copy_addrs s ret data_list (ab_n_addrs r) (ab_n_addrs d) in
  let! n := int_chk (ab_n_addrs r + ab_n_addrs d) in
  let! s := buf_modify s ret (with_n_addrs n) in
  Ok (Next (ab_next d, s)).

(** The old aggregate if it is large enough, or else a new one with what it
    holds. *)
Definition choose_aggregate (old data_list n_addrs : Z) (s : buffers_t) : res (Z * buffers_t) :=
  let! big := (if negb (old =? 0) then let! o := buf_load s old in Ok (u64 (ab_capacity o) >? n_addrs)
               else Ok false) in
  if big : bool then Ok (old, s) else
  let! d := buf_load s data_list in
  let! ' (ret, s) := forkscan_make_aggregate_buffer
    (to_int (if n_addrs >? u64 (ab_capacity d) then n_addrs else u64 (ab_capacity d))) s in
  let! s := buf_modify s ret (with_next 0) in
  if negb (old =? 0) then
    let! o := buf_load s old in
    let! s := copy_addrs s ret old 0 (ab_n_addrs o) in
    let! s := buf_modify s ret (with_n_addrs (ab_n_addrs o)) in
    let! s := forkscan_release_buffer old s in
    Ok (ret, s)
  else Ok (ret, s).

(** The result, [g_frees_required] and the buffers. *)
Definition aggregate_addrs (old data_list : Z) (s : buffers_t) : res (Z * Z * buffers_t) :=
  let! n0 := (if negb (old =? 0) then let! o := buf_load s old in Ok (u64 (ab_n_addrs o)) else Ok 0) in
  let! ' (n_addrs, list_count) :=
    loop (Datatypes.S (Datatypes.S (size (store s)))) (count_step s) (data_list, n0, 0) in
  let! f := int_chk (list_count * 8) in
  let g_frees_required := MAX_OF f 8 in
  assert (negb (n_addrs =? 0)) ;!
  let! ' (ret, s) := choose_aggregate old data_list n_addrs s in
  let! s := loop (Datatypes.S (Datatypes.S (size (store s)))) (copy_step ret) (data_list, s) in
  let! r := buf_load s ret in
  assert (u64 (ab_n_addrs r) =? n_addrs) ;!
  Ok (ret, g_frees_required, s).

(** ** Dividing *)

(** Back to the pool with the buffers the addresses came from. *)
Definition release_step (st : Z * buffers_t) : res (flow (Z * buffers_t) buffers_t) :=
  let '(ab, s) := st in
  if ab =? 0 then Ok (Done s) else
  let! d := buf_load s ab in
  let! s := forkscan_release_buffer ab s in
  Ok (Next (ab_next d, s)).

Definition release_all (ab : Z) (s : buffers_t) : res buffers_t :=
  loop (Datatypes.S (Datatypes.S (size (store s)))) release_step (ab, s).

Definition uncollected_step (working_data : addr_buffer_t) (i : Z) (u : addr_buffer_t) : res addr_buffer_t :=
  let! a := rd (ab_addrs working_data) i in
  if Z.land a 1 =? 0 then Ok u else
  let! l := wr (ab_addrs u) (ab_n_addrs u) (PTR_MASK a) in
  Ok (with_n_addrs (ab_n_addrs u + 1) (set_addrs u l)).

(** From the child's answer on: the marked nodes become the uncollected data. *)
Definition divide (working_data : Z) (s : buffers_t) : res (Z * buffers_t) :=
  let! s := forkscan_buffer_push_back working_data s in
  let! w := buf_load s working_data in
  let! ' (g_uncollected_data, s) := forkscan_make_aggregate_buffer (ab_capacity w) s in
  let! u := buf_load s g_uncollected_data in
  let! w := buf_load s working_data in
  let! u := for_range 0 (ab_n_addrs w) (uncollected_step w) u in
  let! s := buf_modify s g_uncollected_data (fun _ => u) in
  let! s := forkscan_buffer_unref_buffer working_data s in
  Ok (g_uncollected_data, s).

(** The iteration; [scan] is what [forkscan_child] does to the shared
    aggregate, given the dead references. *)
Definition reclaim_iteration
    (scan : addr_buffer_t -> addr_buffer_t -> res addr_buffer_t)
    (g_uncollected_data ab : Z) (s : buffers_t) : res (Z * buffers_t) :=
  let! ' (working_data, _, s) := aggregate_addrs g_uncollected_data ab s in
  let! ' (deadrefs, s) := forkscan_buffer_get_dead_references s in
  let! w := buf_load s working_data in
  let! d := buf_load s deadrefs in
  let! ' (w, d) := prepare w d in
  let! w := scan w d in
  let! s := buf_modify s working_data (fun _ => w) in
  let! s := buf_modify s deadrefs (fun _ => d) in
  let! s := release_all ab s in
  divide working_data s.

(** * Sorting and indexing *)

Definition increasing (a : list Z) (n : Z) : Prop :=
  forall i j, 0 <= i -> i < j -> j < n -> get a i < get a j.

Lemma monotonicity_ok a n : 0 <= n <= zlen a ->
  (forall i, 0 <= i < n -> 0 < get a i) -> increasing a n -> assert_monotonicity a n = Ok tt.
Proof.
  intros Hn Hpos Hinc. assert (Hw : wp (assert_monotonicity a n) (fun _ => True)).
  { unfold assert_monotonicity. wp_step.
    apply (wp_for_range (fun i last => last = if decide (i = 0) then 0 else get a (i - 1))); [lia | done | | done].
    intros i last Hi ->. unfold monotonicity_step. wp_step. wp_step; [lia |].
    destruct (Z.leb_spec (get a i) (if decide (i = 0) then 0 else get a (i - 1))) as [Hle | _].
    - exfalso. case_decide; [specialize (Hpos i ltac:(lia)); lia |].
      specialize (Hinc (i - 1) i ltac:(lia) ltac:(lia) ltac:(lia)). lia.
    - wp_step. rewrite decide_False by lia. f_equal. lia. }
  destruct (assert_monotonicity a n) as [[] | e]; done.
Qed.

Lemma for_upto_stuck {S} (Inv : Z -> S -> Prop) n i k body (s : S) e :
  (forall j t, i <= j < k -> Inv j t -> exists t', body j t = Ok t' /\ Inv (j + 1) t') ->
  (forall t, Inv k t -> body k t = Err e) ->
  i <= k < i + Z.of_nat n -> Inv i s -> for_upto n i body s = Err e.
Proof.
  revert i s. induction n as [|n IH]; intros i s Hok Hbad Hk Hi; [lia |]. cbn.
  destruct (decide (i = k)) as [-> | Hne]; [by rewrite (Hbad s) by done |].
  destruct (Hok i s ltac:(lia) Hi) as (t & -> & Ht). rewrite bind_ok.
  apply IH; [| done | lia | done]. intros j u Hj. apply Hok. lia.
Qed.

(** The first place where the list does not increase ends the run. *)
Lemma monotonicity_fatal a n k : 0 <= k < n -> n <= zlen a ->
  (forall i, 0 <= i < n -> 0 < get a i) -> increasing a k -> 0 < k -> get a k <= get a (k - 1) ->
  assert_monotonicity a n = Err Fatal.
Proof.
  intros Hk Hn Hpos Hinc Hk0 Hbad. unfold assert_monotonicity, for_range.
  rewrite (for_upto_stuck (fun i last => last = if decide (i = 0) then 0 else get a (i - 1)) _ _ k _ _ Fatal);
    [done | | | lia | done].
  - intros i last Hi ->. unfold monotonicity_step. rewrite rd_ok by lia. rewrite bind_ok.
    exists (get a i). split; [| rewrite decide_False by lia; f_equal; lia].
    destruct (Z.leb_spec (get a i) (if decide (i = 0) then 0 else get a (i - 1))) as [Hle | _]; [| done].
    exfalso. case_decide; [specialize (Hpos i ltac:(lia)); lia |].
    specialize (Hinc (i - 1) i ltac:(lia) ltac:(lia) ltac:(lia)). lia.
  - intros last ->. unfold monotonicity_step. rewrite rd_ok by lia. rewrite bind_ok, decide_False by lia.
    by apply Z.leb_le in Hbad as ->.
Qed.

(** An aggregate as it is gathered: its entries are addresses of nodes,
    unmarked, in any order, and there is room for the minimap. *)
Record gathered (ab : addr_buffer_t) : Prop := {
  ga_n : 1 <= ab_n_addrs ab <= 2 ^ 30 - PAGE_WORDS;
  ga_room : ab_n_addrs ab <= zlen (ab_addrs ab) <= 2 ^ 30;
  ga_map : (ab_n_addrs ab + PAGE_WORDS - 1) / PAGE_WORDS <= zlen (ab_minimap ab);
  ga_entries : forall i, 0 <= i < ab_n_addrs ab ->
    size_ok (get (ab_addrs ab) i) /\ 4 <= get (ab_addrs ab) i /\ aligned4 (get (ab_addrs ab) i) }.

Lemma generate_minimap_ok ab : gathered ab -> increasing (ab_addrs ab) (ab_n_addrs ab) ->
  wp (generate_minimap ab) (fun ab' => exists m n, ab' = set_minimap ab m n /\
    zlen m = zlen (ab_minimap ab) /\ pool_wf ab').
Proof.
  intros [Hn Hroom Hmap Hent] Hinc. unfold generate_minimap. change PAGE_WORDS with 512 in *.
  replace (ab_n_addrs ab + 512 - 1) with (ab_n_addrs ab + 511) in Hmap by lia.
  apply (wp_loop (fun '(i, t) => exists m p, t = set_minimap ab m p /\ i = p * 512 /\ 0 <= p /\
      p <= (ab_n_addrs ab + 511) / 512 /\ zlen m = zlen (ab_minimap ab) /\
      (forall q, 0 <= q < p -> get m q = get (ab_addrs ab) (q * 512)))
    (fun '(i, _) => Z.to_nat (ab_n_addrs ab - i))).
  - exists (ab_minimap ab), 0. split_and!; try done; [| intros; lia].
    Z.to_euclidean_division_equations. lia.
  - lia.
  - intros [i t] (m & p & -> & -> & Hp & Hpn & Hm & Hq). unfold minimap_step.
    cbn [set_minimap ab_n_addrs ab_addrs ab_minimap ab_n_minimap].
    rewrite u64_small by (unfold size_ok; lia).
    destruct (Z.ltb_spec (p * 512) (ab_n_addrs ab)) as [Hlt | Hge].
    + assert (p + 1 <= (ab_n_addrs ab + 511) / 512) by (Z.to_euclidean_division_equations; lia).
      wp_step. wp_step; [lia |]. wp_step. wp_step; [lia |]. wp_step.
      wp_step; [unfold int_ok, INT_MIN, INT_MAX; lia |]. wp_step.
      change PAGE_WORDS with 512. rewrite u64_small by (unfold size_ok; lia).
      split; [| lia]. exists (upd m p (get (ab_addrs ab) (p * 512))), (p + 1).
      split; [done |]. split; [lia |]. split; [lia |]. split; [lia |]. split; [by rewrite zlen_upd |].
      intros q Hq'. rewrite get_upd by lia. case_decide; [by subst | apply Hq; lia].
    + wp_step. exists m, p. split; [done |]. split; [done |].
      assert (Ep : p = (ab_n_addrs ab + 512 - 1) / 512).
      { Z.to_euclidean_division_equations. lia. }
      assert (Hp' : (p - 1) * 512 < ab_n_addrs ab) by (Z.to_euclidean_division_equations; lia).
      assert (Hnode : forall k, 0 <= k < ab_n_addrs ab ->
        node (set_minimap ab m p) k = get (ab_addrs ab) k).
      { intros k Hk. unfold node. cbn [set_minimap ab_addrs]. apply PTR_MASK_aligned; apply Hent; lia. }
      split; cbn [set_minimap ab_n_addrs ab_addrs ab_minimap ab_n_minimap]; change PAGE_WORDS with 512;
        [lia | lia | | | done | lia |].
      * intros k Hk. destruct (Hent k Hk) as (H1 & H2 & H3). split; [done |]. split; [done |]. by left.
      * intros k j Hk Hkj Hj. rewrite !Hnode by lia. by apply Hinc.
      * intros k Hk. rewrite Hnode by lia. apply Hq. lia.
Qed.

(** The first [n] elements. *)
Definition first_n (n : Z) (a : list Z) : list Z := take (Z.to_nat n) a.

Lemma first_n_elem n a x : 0 <= n <= zlen a -> x ∈ first_n n a <-> exists i, 0 <= i < n /\ get a i = x.
Proof.
  unfold zlen. intros Hn. unfold first_n. rewrite list_elem_of_lookup. split.
  - intros (k & Hk). apply lookup_take_Some in Hk as [Hk Hlt]. exists (Z.of_nat k). split; [lia |].
    by apply lookup_get.
  - intros (i & Hi & <-). exists (Z.to_nat i). rewrite lookup_take_lt by lia.
    apply get_lookup. unfold zlen. lia.
Qed.

Lemma first_n_perm a b n : 0 <= n <= zlen a -> zlen b = zlen a -> Permutation b a ->
  (forall i, n <= i -> get b i = get a i) -> Permutation (first_n n b) (first_n n a).
Proof.
  unfold zlen. intros Hn Hz Hp Hout. apply (Permutation_app_inv_r (drop (Z.to_nat n) a)).
  unfold first_n. rewrite take_drop.
  replace (drop (Z.to_nat n) a) with (drop (Z.to_nat n) b); [by rewrite take_drop |].
  apply list_eq_get; unfold zlen; rewrite !length_drop; [lia |]. intros i Hi. unfold get.
  rewrite !lookup_total_drop. specialize (Hout (n + i) ltac:(lia)). unfold get in Hout.
  by replace (Z.to_nat (n + i)) with (Z.to_nat n + Z.to_nat i)%nat in Hout by lia.
Qed.

Lemma increasing_of_sorted a n : 0 <= n <= zlen a -> NoDup (first_n n a) ->
  (forall i j, 0 <= i -> i <= j -> j < n -> get a i <= get a j) -> increasing a n.
Proof.
  unfold zlen. intros Hn Hnd Hs i j Hi Hij Hj. specialize (Hs i j Hi ltac:(lia) Hj).
  assert (get a i <> get a j); [| lia]. intros E.
  assert (Hl : forall k, 0 <= k < n -> first_n n a !! Z.to_nat k = Some (get a k)).
  { intros k Hk. unfold first_n. rewrite lookup_take_lt by lia. apply get_lookup. unfold zlen. lia. }
  pose proof (Hl i ltac:(lia)) as Li. pose proof (Hl j ltac:(lia)) as Lj. rewrite E in Li.
  pose proof (NoDup_lookup _ _ _ _ Hnd Li Lj). lia.
Qed.

Lemma sort_increasing a n : 0 <= n <= zlen a -> zlen a <= 2 ^ 30 -> NoDup (first_n n a) ->
  (forall x, x ∈ first_n n a -> 0 < x) ->
  wp (forkscan_util_sort a n) (fun b => zlen b = zlen a /\ increasing b n /\
    Permutation (first_n n b) (first_n n a) /\ (forall i, n <= i -> get b i = get a i) /\
    assert_monotonicity b n = Ok tt).
Proof.
  intros Hn Hz Hnd Hpos. destruct (sorted_permutation a n Hn Hz) as (b & E & Hp & Hzb & Hout & Hs).
  rewrite E. wp_step. pose proof (first_n_perm a b n Hn Hzb Hp Hout) as Hpn.
  assert (Hinc : increasing b n).
  { apply increasing_of_sorted; [lia | by rewrite Hpn | done]. }
  split_and!; try done. apply monotonicity_ok; [lia | | done].
  intros i Hi. apply Hpos. rewrite <- Hpn. apply first_n_elem; [lia |]. by exists i.
Qed.

Lemma increasing_snoc a n : 0 <= n -> increasing a n -> (0 < n -> get a (n - 1) < get a n) -> increasing a (n + 1).
Proof.
  intros Hn Hinc Hlast i j Hi Hij Hj. destruct (decide (j = n)) as [-> | Hne]; [| apply Hinc; lia].
  specialize (Hlast ltac:(lia)). destruct (decide (i = n - 1)) as [-> | Hne]; [done |].
  specialize (Hinc i (n - 1) Hi ltac:(lia) ltac:(lia)). lia.
Qed.

Lemma increasing_or_not a (n : nat) :
  increasing a (Z.of_nat n) \/
  exists k, 0 < k < Z.of_nat n /\ increasing a k /\ get a k <= get a (k - 1).
Proof.
  induction n as [|n [IH | (k & Hk & H)]]; [left; intros i j; lia | | right; exists k; split; [lia | done]].
  destruct (decide (0 < Z.of_nat n /\ get a (Z.of_nat n) <= get a (Z.of_nat n - 1))) as [[H1 H2] | H].
  - right. exists (Z.of_nat n). split; [lia | done].
  - left. replace (Z.of_nat (Datatypes.S n)) with (Z.of_nat n + 1) by lia.
    apply increasing_snoc; [lia | done | lia].
Qed.

Lemma increasing_nodup a n : 0 <= n <= zlen a -> increasing a n -> NoDup (first_n n a).
Proof.
  unfold zlen. intros Hn Hinc. apply NoDup_alt. intros i j x Hi Hj. unfold first_n in *.
  apply lookup_take_Some in Hi as [Hi Hin], Hj as [Hj Hjn]. apply lookup_get in Hi, Hj.
  destruct (Nat.lt_trichotomy i j) as [H | [H | H]]; [| done |].
  - specialize (Hinc (Z.of_nat i) (Z.of_nat j)). lia.
  - specialize (Hinc (Z.of_nat j) (Z.of_nat i)). lia.
Qed.

(** The dead references as [forkscan_buffer_get_dead_references] leaves them,
    when none is there twice. *)
Record dead_table (d : addr_buffer_t) : Prop := {
  dt_n : 0 <= ab_n_addrs d <= zlen (ab_addrs d) /\ zlen (ab_addrs d) <= 2 ^ 30;
  dt_nodup : NoDup (first_n (ab_n_addrs d) (ab_addrs d));
  dt_pos : forall x, x ∈ first_n (ab_n_addrs d) (ab_addrs d) -> 0 < x }.

Definition same_entries (a b : addr_buffer_t) : Prop :=
  ab_n_addrs b = ab_n_addrs a /\
  Permutation (first_n (ab_n_addrs a) (ab_addrs b)) (first_n (ab_n_addrs a) (ab_addrs a)).

(** All but the entries of a buffer, and what the scanning processes write. *)
Record same_shape (a b : addr_buffer_t) : Prop := {
  sh_flag : ab_is_aggregate b = ab_is_aggregate a;
  sh_capacity : ab_capacity b = ab_capacity a;
  sh_addrs : zlen (ab_addrs b) = zlen (ab_addrs a);
  sh_minimap : zlen (ab_minimap b) = zlen (ab_minimap a);
  sh_ref : ab_ref_count b = ab_ref_count a }.

Lemma gathered_pos w x : gathered w -> x ∈ first_n (ab_n_addrs w) (ab_addrs w) ->
  size_ok x /\ 4 <= x /\ aligned4 x.
Proof.
  intros [Hn Hroom _ Hent] Hx. apply first_n_elem in Hx as (i & Hi & <-); [by apply Hent | lia].
Qed.

Lemma gathered_perm w b :
  gathered w -> zlen b = zlen (ab_addrs w) ->
  Permutation (first_n (ab_n_addrs w) b) (first_n (ab_n_addrs w) (ab_addrs w)) -> gathered (set_addrs w b).
Proof.
  intros Hw Hz Hp. pose proof (gathered_pos w) as Hx. destruct Hw as [Hn Hroom Hmap Hent].
  split; cbn; [lia | lia | done |]. intros i Hi. apply Hx; [by split |]. rewrite <- Hp.
  apply first_n_elem; [lia |]. by exists i.
Qed.

Lemma prepare_wp w d :
  gathered w -> NoDup (first_n (ab_n_addrs w) (ab_addrs w)) -> dead_table d ->
  wp (prepare w d) (fun '(w', d') => pool_wf w' /\ same_entries w w' /\ dead_table d' /\
    same_entries d d' /\ increasing (ab_addrs d') (ab_n_addrs d') /\ same_shape w w' /\ same_shape d d').
Proof.
  intros Hw Hnd [[Hdn Hdz] Hdnd Hdpos]. unfold prepare. wp_step.
  eapply wp_mono.
  { apply sort_increasing; [destruct Hw; lia | destruct Hw; lia | done |].
    intros x Hx. pose proof (gathered_pos w x Hw Hx). lia. }
  intros a (Hza & Hinca & Hpa & Houta & Ha). cbn beta. rewrite Ha, bind_ok. wp_step.
  eapply wp_mono; [by apply (generate_minimap_ok (set_addrs w a)); [apply gathered_perm |] |].
  intros w' (m & n & -> & Hzm & Hwf). rewrite Z.gtb_ltb.
  destruct (Z.ltb_spec 1 (ab_n_addrs d)) as [H1 | H1]; wp_step.
  - eapply wp_mono; [by apply sort_increasing |]. intros b (Hzb & Hincb & Hpb & Houtb & Hb). cbn beta.
    rewrite Hb, bind_ok. wp_step. split_and!; try done; cbn [set_addrs ab_addrs ab_n_addrs].
    + split; cbn [set_addrs ab_addrs ab_n_addrs]; [lia | by rewrite Hpb |].
      intros x Hx. apply Hdpos. by rewrite <- Hpb.
  - split_and!; try done. intros i j. lia.
Qed.

(** C22: The child sorts the gathered nodes and the dead references and generates
    a minimap; the aggregate is then the well-formed pool that the search,
    the marking and the scan of the roots rely on, of the same nodes. *)
Theorem prepare_establishes_pool w d :
  gathered w -> NoDup (first_n (ab_n_addrs w) (ab_addrs w)) -> dead_table d ->
  exists w' d', prepare w d = Ok (w', d') /\ pool_wf w' /\ same_entries w w' /\ dead_table d' /\
    same_entries d d' /\ increasing (ab_addrs d') (ab_n_addrs d').
Proof.
  intros Hw Hnd Hd. pose proof (prepare_wp w d Hw Hnd Hd) as Hp.
  apply wp_iff in Hp as ([w' d'] & E & H). exists w', d'. tauto.
Qed.

(** A node that was retired twice ends the collection. *)
Theorem prepare_double_retire w d :
  gathered w -> ~ NoDup (first_n (ab_n_addrs w) (ab_addrs w)) -> prepare w d = Err Fatal.
Proof.
  intros Hw Hnd. destruct (sorted_permutation (ab_addrs w) (ab_n_addrs w)) as (b & E & Hp & Hz & Hout & Hs);
    [destruct Hw; lia | destruct Hw; lia |].
  unfold prepare. rewrite E, bind_ok.
  assert (Hn : 0 <= ab_n_addrs w <= zlen (ab_addrs w)) by (destruct Hw; lia).
  pose proof (first_n_perm _ b _ Hn Hz Hp Hout) as Hpn.
  destruct (increasing_or_not b (Z.to_nat (ab_n_addrs w))) as [Hinc | (k & Hk & Hinc & Hbad)];
    rewrite Z2Nat.id in * by lia.
  - exfalso. apply Hnd. rewrite <- Hpn. apply increasing_nodup; [lia | done].
  - rewrite (monotonicity_fatal b _ k); [done | lia | lia | | done | lia | done].
    intros i Hi. assert (Hx : get b i ∈ first_n (ab_n_addrs w) (ab_addrs w)).
    { rewrite <- Hpn. apply first_n_elem; [lia |]. by exists i. }
    pose proof (gathered_pos _ _ Hw Hx). lia.
Qed.

Definition demo_gathered (l : list Z) : addr_buffer_t := plain_buffer l [0] (zlen l) 0.

Definition gatheredb (ab : addr_buffer_t) : bool :=
  (1 <=? ab_n_addrs ab) && (ab_n_addrs ab <=? 2 ^ 30 - PAGE_WORDS) &&
  (ab_n_addrs ab <=? zlen (ab_addrs ab)) && (zlen (ab_addrs ab) <=? 2 ^ 30) &&
  ((ab_n_addrs ab + PAGE_WORDS - 1) / PAGE_WORDS <=? zlen (ab_minimap ab)) &&
  all_below (ab_n_addrs ab) (fun i => entry_okb (get (ab_addrs ab) i) && (get (ab_addrs ab) i mod 4 =? 0)).

Lemma gatheredb_sound ab : gatheredb ab = true -> gathered ab.
Proof.
  unfold gatheredb. rewrite !andb_true_iff. intros (((((H1 & H2) & H3) & H4) & H5) & H6).
  split; [lia | lia | lia |]. intros i Hi. pose proof (all_below_spec _ _ H6 i Hi) as H. cbn beta in H.
  apply andb_true_iff in H as [He%entry_okb_sound Ha]. destruct He as (? & ? & _).
  unfold aligned4. split_and!; [done | done | lia].
Qed.

Lemma prepare_establishes_pool_witness :
  exists w' d', prepare (demo_gathered [48; 16; 32]) (demo_gathered [8; 4]) = Ok (w', d') /\ pool_wf w' /\
    same_entries (demo_gathered [48; 16; 32]) w' /\ dead_table d' /\
    same_entries (demo_gathered [8; 4]) d' /\ increasing (ab_addrs d') (ab_n_addrs d').
Proof.
  apply prepare_establishes_pool; [by apply gatheredb_sound | by apply (bool_decide_unpack _); vm_compute |].
  split; [by vm_compute | by apply (bool_decide_unpack _); vm_compute |].
  intros x [-> | ->%list_elem_of_singleton]%elem_of_cons; done.
Defined.

Lemma prepare_double_retire_witness :
  prepare (demo_gathered [48; 16; 48]) (demo_gathered [8; 4]) = Err Fatal.
Proof.
  apply prepare_double_retire; [by apply gatheredb_sound |].
  apply (bool_decide_unpack _). by vm_compute.
Defined.

(** * Gathering *)

(** The addresses in a buffer, and in several. *)
Definition content (d : addr_buffer_t) : list Z := first_n (ab_n_addrs d) (ab_addrs d).
Definition content_at (m : gmap Z addr_buffer_t) (q : Z) : list Z :=
  if q =? 0 then [] else match m !! q with Some d => content d | None => [] end.
Definition contents (m : gmap Z addr_buffer_t) (l : list Z) : list Z := flat_map (content_at m) l.

Definition filled (d : addr_buffer_t) : Prop :=
  0 <= ab_n_addrs d <= zlen (ab_addrs d) /\ 0 <= ab_capacity d <= INT_MAX - 511.

Lemma zlen_first_n n a : 0 <= n <= zlen a -> zlen (first_n n a) = n.
Proof. unfold zlen, first_n. rewrite length_take. lia. Qed.

Lemma content_at_some m q d : q <> 0 -> m !! q = Some d -> content_at m q = content d.
Proof. intros Hq Hd. unfold content_at. apply Z.eqb_neq in Hq as ->. by rewrite Hd. Qed.

Lemma contents_frame m m' l : (forall q, q ∈ l -> m' !! q = m !! q) -> contents m' l = contents m l.
Proof.
  intros H. unfold contents, content_at. induction l as [|q l IH]; [done |]. cbn.
  rewrite H by left. f_equal. apply IH. intros r Hr. apply H. by right.
Qed.

Lemma contents_snoc m l q : contents m (l ++ [q]) = contents m l ++ content_at m q.
Proof. unfold contents. rewrite flat_map_app. cbn. by rewrite app_nil_r. Qed.

Lemma contents_app m l k : contents m (l ++ k) = contents m l ++ contents m k.
Proof. apply flat_map_app. Qed.

Lemma count_ok s p dl n0 :
  bchain (store s) p dl -> NoDup dl -> (dl <> []) ->
  (forall q d, q ∈ dl -> store s !! q = Some d -> filled d) ->
  0 <= n0 -> n0 + zlen (contents (store s) dl) <= INT_MAX -> zlen dl <= 2 ^ 20 ->
  wp (loop (Datatypes.S (Datatypes.S (size (store s)))) (count_step s) (p, n0, 0))
    (fun r => r = (n0 + zlen (contents (store s) dl), zlen dl)).
Proof.
  intros Hch Hnd Hne Hok Hn0 Hmax Hlen. pose proof (lchain_size _ _ _ _ Hch Hnd) as Hsz.
  apply (wp_loop_rel (fun k '(tmp, n, c) => exists l1 l2, dl = l1 ++ l2 /\ length l2 = k /\ (l2 <> []) /\
      bchain (store s) tmp l2 /\ n = n0 + zlen (contents (store s) l1) /\ c = zlen l1) (length dl)).
  - exists [], dl. split_and!; try done. change (zlen (contents (store s) [])) with 0. lia.
  - lia.
  - intros k [[tmp n] c] (l1 & l2 & E & Hk & Hne2 & Hc2 & -> & ->). unfold count_step.
    destruct l2 as [|q l2]; [done |]. destruct Hc2 as (-> & Hq & d & Hd & Hc2).
    destruct (Hok q d) as [[Hn1 Hn2] _]; [subst dl; apply elem_of_mid | done |].
    assert (Ec : contents (store s) (l1 ++ [q]) = contents (store s) l1 ++ content d)
      by (by rewrite contents_snoc, (content_at_some _ _ d)).
    assert (Ez : zlen (content d) = ab_n_addrs d) by (by apply zlen_first_n).
    assert (Hle : n0 + zlen (contents (store s) (l1 ++ [q])) <= INT_MAX).
    { subst dl. replace (l1 ++ q :: l2) with ((l1 ++ [q]) ++ l2) in Hmax by (by rewrite <- app_assoc).
      rewrite contents_app, zlen_app in Hmax. pose proof (zlen_nonneg (contents (store s) l2)). lia. }
    assert (Hln : zlen l1 + 1 <= 2 ^ 20).
    { subst dl. rewrite zlen_app, zlen_cons in Hlen. pose proof (zlen_nonneg l2). lia. }
    rewrite Ec, zlen_app, Ez in Hle. pose proof (zlen_nonneg (contents (store s) l1)) as Hz1.
    pose proof (zlen_nonneg l1) as Hz2. unfold INT_MAX in *.
    wp_step. eapply wp_buf_load; [done.. |]. wp_step. wp_step; [unfold int_ok, INT_MIN, INT_MAX; lia |].
    rewrite (u64_small (ab_n_addrs d)) by (unfold size_ok; lia). rewrite u64_small by (unfold size_ok; lia).
    assert (El : zlen (l1 ++ [q]) = zlen l1 + 1) by (by rewrite zlen_app).
    destruct (Z.eqb_spec (ab_next d) 0) as [E0 | E0]; wp_step.
    + destruct l2 as [|r l2]; [| destruct Hc2 as (? & ? & _); congruence].
      subst dl. rewrite Ec, zlen_app, Ez, El. f_equal. lia.
    + exists (length l2). split; [cbn in Hk; lia |]. exists (l1 ++ [q]), l2.
      split; [by rewrite <- app_assoc |]. split; [done |].
      split; [intros ->; cbn in Hc2; congruence |]. split; [done |]. rewrite Ec, zlen_app, Ez, El. lia.
Qed.

(** With nothing to gather, the assertion fails. *)
Lemma aggregate_addrs_empty s old p dl :
  (old <> 0 -> exists o, store s !! old = Some o /\ ab_n_addrs o = 0) ->
  bchain (store s) p dl -> NoDup dl -> (dl <> []) ->
  (forall q d, q ∈ dl -> store s !! q = Some d -> filled d) ->
  zlen dl <= 2 ^ 20 -> contents (store s) dl = [] -> aggregate_addrs old p s = Err AssertFailed.
Proof.
  intros Hold Hch Hnd Hne Hok Hlen Hc. unfold aggregate_addrs.
  assert (E0 : (if negb (old =? 0) then let! o := buf_load s old in Ok (u64 (ab_n_addrs o)) else Ok 0) = Ok 0).
  { destruct (Z.eqb_spec old 0) as [| H0]; [done |]. destruct (Hold H0) as (o & Ho & En). unfold buf_load.
    apply Z.eqb_neq in H0 as ->. by rewrite Ho, bind_ok, En. }
  rewrite E0, bind_ok.
  pose proof (count_ok s p dl 0 Hch Hnd Hne Hok ltac:(done)) as Hw. rewrite Hc in Hw.
  apply wp_iff in Hw as ([n k] & -> & [= -> ->]); [| by vm_compute | done].
  pose proof (zlen_nonneg dl). rewrite bind_ok. rewrite int_chk_ok by (unfold int_ok, INT_MIN, INT_MAX; lia). done.
Qed.

(** The buffer [r] carries the addresses [acc]. *)
Definition carries (r : addr_buffer_t) (acc : list Z) : Prop :=
  ab_n_addrs r = zlen acc /\ first_n (zlen acc) (ab_addrs r) = acc.

Definition pasted (a : list Z) (off : Z) (b : list Z) : list Z :=
  first_n off a ++ b ++ drop (Z.to_nat (off + zlen b)) a.

Lemma wp_copy_addrs s dst src off n d r (Q : buffers_t -> Prop) :
  dst <> 0 -> src <> 0 -> store s !! src = Some d -> store s !! dst = Some r ->
  0 <= n <= zlen (ab_addrs d) -> 0 <= off -> off + n <= zlen (ab_addrs r) ->
  Q (set_store s (<[dst := set_addrs r (pasted (ab_addrs r) off (first_n n (ab_addrs d)))]> (store s))) ->
  wp (copy_addrs s dst src off n) Q.
Proof.
  intros Hdst Hsrc Hd Hr Hn Hoff Hroom HQ. unfold copy_addrs. wp_step. eapply wp_buf_load; [done.. |].
  wp_step. rewrite rd_block_ok by lia. wp_step. wp_step. eapply wp_buf_load; [done.. |]. wp_step.
  change (slice (ab_addrs d) 0 n) with (first_n n (ab_addrs d)).
  rewrite wr_block_ok by (rewrite ?zlen_first_n by done; lia). wp_step.
  by eapply wp_buf_modify.
Qed.

Lemma zlen_pasted a off b : 0 <= off -> off + zlen b <= zlen a -> zlen (pasted a off b) = zlen a.
Proof. unfold zlen, pasted, first_n. intros H1 H2. rewrite !length_app, length_take, length_drop. unfold zlen. lia. Qed.

Lemma pasted_prefix a acc b : zlen acc + zlen b <= zlen a -> first_n (zlen acc) a = acc ->
  first_n (zlen (acc ++ b)) (pasted a (zlen acc) b) = acc ++ b.
Proof.
  intros Hroom Hacc. unfold pasted. rewrite Hacc, app_assoc. unfold first_n, zlen.
  rewrite Nat2Z.id. apply take_app_length.
Qed.

(** The aggregate [r], of capacity [c], carries [acc] and has not been handed
    to the threads. *)
Record collecting (c : Z) (r : addr_buffer_t) (acc : list Z) : Prop := {
  co_agg : aggregate_ok r;
  co_capacity : ab_capacity r = c;
  co_carries : carries r acc }.

Lemma collecting_add c r acc b : collecting c r acc -> zlen acc + zlen b <= c ->
  collecting c (with_n_addrs (ab_n_addrs r + zlen b)
    (set_addrs r (pasted (ab_addrs r) (ab_n_addrs r) b))) (acc ++ b).
Proof.
  intros [[G1 G2 G3 G4 G5] Hc [Hn Hf]] Hroom. pose proof (zlen_nonneg acc). subst c.
  split; [split | done | split]; cbn; try done.
  - rewrite zlen_pasted; lia.
  - rewrite zlen_app. lia.
  - rewrite Hn. apply pasted_prefix; [lia | done].
Qed.

Lemma copy_ok s p dl ret c r init :
  bchain (store s) p dl -> NoDup dl -> (ret ∉ dl) -> ret <> 0 ->
  (forall q d, q ∈ dl -> store s !! q = Some d -> filled d) ->
  store s !! ret = Some r -> collecting c r init -> c <= INT_MAX ->
  zlen init + zlen (contents (store s) dl) <= c ->
  wp (loop (Datatypes.S (Datatypes.S (size (store s)))) (copy_step ret) (p, s)) (fun s' =>
    exists r', s' = set_store s (<[ret := r']> (store s)) /\ collecting c r' (init ++ contents (store s) dl)).
Proof.
  intros Hch Hnd Hret Hret0 Hok Hr Hinit Hc Hroom. pose proof (lchain_size _ _ _ _ Hch Hnd) as Hsz.
  apply (wp_loop_rel (fun k '(q, t) => exists l1 l2 r', dl = l1 ++ l2 /\ length l2 = k /\
      bchain (store s) q l2 /\ t = set_store s (<[ret := r']> (store s)) /\
      collecting c r' (init ++ contents (store s) l1)) (length dl)).
  - exists [], dl, r. split_and!; try done; [| by rewrite app_nil_r].
    rewrite insert_id by done. by destruct s.
  - lia.
  - intros k [q t] (l1 & l2 & r' & E & Hk & Hc2 & -> & Hr'). unfold copy_step.
    destruct l2 as [|x l2].
    { cbn in Hc2. subst q. cbn [Z.eqb]. wp_step. exists r'. rewrite app_nil_r in E. by subst l1. }
    destruct Hc2 as (-> & Hx & d & Hd & Hc2). apply Z.eqb_neq in Hx as Hx'. rewrite Hx'.
    assert (Hxin : x ∈ dl) by (subst dl; apply elem_of_mid).
    destruct (Hok x d Hxin Hd) as [Hn _].
    assert (Hxr : ret <> x) by (intros ->; contradiction).
    assert (Ez : zlen (content d) = ab_n_addrs d) by (by apply zlen_first_n).
    assert (Hlen : zlen (init ++ contents (store s) l1) + ab_n_addrs d <= c).
    { subst dl. replace (l1 ++ x :: l2) with ((l1 ++ [x]) ++ l2) in Hroom by (by rewrite <- app_assoc).
      rewrite contents_app, contents_snoc, (content_at_some _ _ d), !zlen_app, Ez in Hroom by done.
      rewrite zlen_app. pose proof (zlen_nonneg (contents (store s) l2)). lia. }
    pose proof (collecting_add _ _ _ (content d) Hr' ltac:(lia)) as Hr2. rewrite Ez in Hr2.
    destruct Hr' as [Ha' Hc' [Hn' Hf']]. pose proof (zlen_nonneg (init ++ contents (store s) l1)).
    wp_step. eapply wp_buf_load; [done | cbn; by rewrite lookup_insert_ne |].
    wp_step. eapply wp_buf_load; [done | apply lookup_insert_eq |]. wp_step.
    eapply wp_copy_addrs; [done | done | cbn; by rewrite lookup_insert_ne | apply lookup_insert_eq | done | lia | |].
    { rewrite (ag_addrs _ Ha'). lia. }
    cbn beta. wp_step. wp_step; [unfold int_ok, INT_MIN; lia |]. wp_step.
    eapply wp_buf_modify; [done | apply lookup_insert_eq |]. wp_step.
    exists (length l2). split; [cbn in Hk; lia |]. eexists (l1 ++ [x]), l2, _.
    split; [by rewrite <- app_assoc |]. split; [done |]. split; [done |]. split.
    + cbn [set_store store]. by rewrite !insert_insert_eq.
    + rewrite contents_snoc, (content_at_some _ _ d), app_assoc by done. exact Hr2.
Qed.

(** Where an iteration starts: the list [dl] of buffers the threads handed
    in, from the address [p] on, and the aggregate of uncollected nodes of
    the iteration before, if there was one; the aggregates [l] wait, and
    [b] is the next block of memory. *)
Record gather_ready (s : buffers_t) (old p : Z) (dl l : list Z) (b : Z) : Prop := {
  gr_chain : bchain (store s) p dl;
  gr_nodup : NoDup dl;
  gr_some : (dl <> []) /\ zlen dl <= 2 ^ 20;
  gr_filled : forall q d, q ∈ dl -> store s !! q = Some d -> filled d;
  gr_waiting : waiting s l;
  gr_block : b <> 0 /\ (b ∉ l) /\ exists rest, blocks s = b :: rest;
  gr_apart : forall q, q ∈ dl -> q <> b /\ (q ∉ l) /\ q <> old;
  gr_old : old = 0 \/ (exists o, store s !! old = Some o /\ aggregate_ok o /\
             0 <= ab_n_addrs o <= ab_capacity o) /\ old <> b /\ (old ∉ l) /\
             old <> g_first_retiree_buffer s /\ old <> g_last_retiree_buffer s;
  gr_total : 0 < zlen (content_at (store s) old ++ contents (store s) dl) <= INT_MAX - 511 }.

(** The block [b] was used, for [ret], or it was not. *)
Definition block_taken (s : buffers_t) (b ret : Z) (s' : buffers_t) : Prop :=
  (blocks s' = blocks s /\ ret <> b) \/ (blocks s = b :: blocks s' /\ ret = b).

(** [M], a number of whole pages, bounds the capacities of all buffers. *)
Definition roomy (s : buffers_t) (n M : Z) : Prop :=
  M mod PAGE_WORDS = 0 /\ n <= M /\ forall q d, store s !! q = Some d -> ab_capacity d <= M.

(** It does so as long as no larger buffer is made. *)
Lemma roomy_next s s' n M : roomy s n M ->
  (forall q d', store s' !! q = Some d' ->
     ab_capacity d' <= M \/ exists d, store s !! q = Some d /\ ab_capacity d' = ab_capacity d) ->
  roomy s' n M.
Proof.
  intros (Hp & Hn & Hc) Hst. split; [done |]. split; [done |]. intros q d' Hd.
  destruct (Hst q d' Hd) as [? | (d & Hs & ->)]; [done | by apply (Hc q)].
Qed.

Lemma roomy_insert s s' n M q d d' : store s' = <[q := d']> (store s) -> store s !! q = Some d ->
  ab_capacity d' = ab_capacity d -> roomy s n M -> roomy s' n M.
Proof.
  intros Es Hd Hc HM. apply (roomy_next s); [done |]. intros x e. rewrite Es, store_lookup. right.
  case_decide as E; [subst; exists d; split; [done | congruence] | by exists e].
Qed.

(** [ret] collects the addresses [acc]; nothing else changes but the
    aggregates that wait. *)
Definition collected (s : buffers_t) (old : Z) (l : list Z) (b ret : Z) (acc : list Z) (n : Z)
    (s' : buffers_t) : Prop :=
  exists r c l', store s' !! ret = Some r /\ collecting c r acc /\ n <= c <= INT_MAX /\
    ret <> 0 /\ (ret = old \/ ret = b \/ (ret ∈ l)) /\ same_heads s s' /\
    (forall q, (q ∉ ret :: old :: l) -> store s' !! q = store s !! q) /\
    waiting s' l' /\ (ret ∉ l') /\ (forall q, q ∈ l' -> q = old \/ (q ∈ l)) /\ block_taken s b ret s' /\
    (forall M, roomy s n M -> roomy s' n M).

Lemma old_content s old p dl l b : gather_ready s old p dl l b -> old <> 0 ->
  exists o, store s !! old = Some o /\ aggregate_ok o /\ 0 <= ab_n_addrs o <= ab_capacity o /\
    content_at (store s) old = content o /\ zlen (content o) = ab_n_addrs o /\ old <> b /\ (old ∉ l).
Proof.
  intros G H0. destruct (gr_old _ _ _ _ _ _ G) as [-> | [(o & Ho & Ha & Hn) (H1 & H2 & _)]]; [done |].
  exists o. split_and!; try done; try lia; [by apply content_at_some |].
  apply zlen_first_n. rewrite (ag_addrs _ Ha). lia.
Qed.

Lemma made_facts c s l p rest ab s' : waiting s l -> p <> 0 -> (p ∉ l) -> blocks s = p :: rest ->
  made_aggregate c s l p rest ab s' ->
  exists d l2, store s' !! ab = Some d /\ aggregate_ok d /\ c <= ab_capacity d /\ ab_n_addrs d = 0 /\
    ab <> 0 /\ (ab = p \/ (ab ∈ l)) /\ same_heads s s' /\
    (forall q, (q ∉ ab :: l) -> store s' !! q = store s !! q) /\
    waiting s' l2 /\ (ab ∉ l2) /\ (forall q, q ∈ l2 -> q ∈ l) /\ block_taken s p ab s' /\
    (forall M, roomy s c M -> roomy s' c M).
Proof.
  intros [Hch Hnd _] Hp Hpl Hb (d & Hd & Ha & Hc & Hn & _ & Hh & Hfr & Hor & Hcase). exists d.
  assert (Hroomy : forall M, roomy s c M -> ab_capacity d <= M -> roomy s' c M).
  { intros M HM Hle. apply (roomy_next s); [done |]. intros q e He. destruct (decide (q = ab)) as [-> | Hne].
    - left. congruence.
    - right. exists e. destruct (Hor q Hne); [congruence | split; congruence]. }
  destruct Hcase as [(l1 & l2 & -> & Hw & Hcap & _ & _ & Hb') | (-> & Hw & Hcap & Hb' & _)].
  - exists l2. split_and!; try done.
    + by apply (lchain_some _ _ _ _ ab Hch (elem_of_mid l1 ab l2)).
    + right. apply elem_of_mid.
    + apply NoDup_app in Hnd as (_ & _ & Hnd). by apply NoDup_cons in Hnd as [? _].
    + intros q Hq. apply elem_of_app. right. by right.
    + left. split; [done |]. intros ->. apply Hpl, elem_of_mid.
    + intros M HM. apply Hroomy; [done |]. destruct (lchain_some _ _ _ _ ab Hch (elem_of_mid l1 ab l2)) as (_ & e & He).
      rewrite (Hcap e He). destruct HM as (_ & _ & HM). by apply (HM ab).
  - exists []. split_and!; try done; [by left | apply not_elem_of_nil | | |].
    + intros q Hq. by apply not_elem_of_nil in Hq.
    + right. split; [congruence | done].
    + intros M HM. apply Hroomy; [done |]. destruct HM as (Hpm & HM & _). pose proof (proj2 (ag_capacity _ Ha)).
      change PAGE_WORDS with 512 in *. Z.to_euclidean_division_equations. lia.
Qed.

Lemma waiting_insert s l q d : waiting s l -> (q ∉ l) -> waiting (set_store s (<[q := d]> (store s))) l.
Proof.
  intros [Hch Hnd Hok] Hq. assert (Hne : forall r, r ∈ l -> q <> r) by (intros r Hr ->; contradiction).
  split; cbn; [| done |].
  - eapply lchain_frame; [exact Hch |]. intros r Hr. by rewrite lookup_insert_ne by (by apply Hne).
  - intros r e Hr He. rewrite lookup_insert_ne in He by (by apply Hne). by apply (Hok r).
Qed.

Lemma collecting_empty d : aggregate_ok d -> ab_n_addrs d = 0 -> collecting (ab_capacity d) (with_next 0 d) [].
Proof. intros [G1 G2 G3 G4 G5] Hn. split; [by split | done | by split]. Qed.

Lemma collecting_fresh c r o : collecting c r [] -> 0 <= ab_n_addrs o <= zlen (ab_addrs o) ->
  ab_n_addrs o <= c ->
  collecting c (with_n_addrs (ab_n_addrs o) (set_addrs r (pasted (ab_addrs r) 0 (content o)))) (content o).
Proof.
  intros Hr Ho Hc. pose proof (collecting_add c r [] (content o) Hr) as H.
  unfold content in *. rewrite zlen_first_n in H by done. destruct Hr as [_ _ [Hn _]].
  rewrite Hn in H. apply H. done.
Qed.

(** What [forkscan_make_aggregate_buffer] gives for [n] addresses. *)
Record fresh_aggregate (s : buffers_t) (l : list Z) (b n ret : Z) (e : addr_buffer_t) (l2 : list Z) (s1 : buffers_t) : Prop := {
  fa_store : store s1 !! ret = Some e;
  fa_ok : aggregate_ok e;
  fa_n : n <= ab_capacity e /\ ab_n_addrs e = 0;
  fa_where : ret <> 0 /\ (ret = b \/ (ret ∈ l));
  fa_heads : same_heads s s1;
  fa_frame : forall q, (q ∉ ret :: l) -> store s1 !! q = store s !! q;
  fa_waiting : waiting s1 l2 /\ (ret ∉ l2) /\ (forall q, q ∈ l2 -> q ∈ l);
  fa_taken : block_taken s b ret s1;
  fa_roomy : forall M, roomy s n M -> roomy s1 n M }.

Lemma fresh_aggregate_wp s old p x dl l b n d : gather_ready s old p (x :: dl) l b ->
  store s !! x = Some d -> 1 <= n <= 2 ^ 31 - 1 - 511 ->
  wp (forkscan_make_aggregate_buffer (if n >? ab_capacity d then n else ab_capacity d) s)
    (fun '(ret, s1) => exists e l2, fresh_aggregate s l b n ret e l2 s1).
Proof.
  intros G Hd Hn. destruct (gr_block _ _ _ _ _ _ G) as (Hb & Hbl & rest & Eb). pose proof (gr_waiting _ _ _ _ _ _ G) as Hw.
  destruct (gr_filled _ _ _ _ _ _ G x d ltac:(left) Hd) as [_ Hcap]. unfold INT_MAX in Hcap.
  set (want := if n >? ab_capacity d then n else ab_capacity d).
  assert (Hwant : 1 <= want <= 2 ^ 31 - 1 - 511 /\ n <= want)
    by (unfold want; rewrite Z.gtb_ltb; destruct (Z.ltb_spec (ab_capacity d) n); lia).
  eapply wp_mono; [apply (make_aggregate_wp want s l b rest); [unfold INT_MAX; lia | done | done] |].
  intros [ret s1] (e & l2 & He & Ha & Hce & Hne0 & Hret0 & Hret & Hh & Hfr & Hw1 & Hnin & Hsub & Htk & Hmax)%made_facts; [| done..].
  exists e, l2. split; try done; [split; [lia | done] |].
  intros M (HM0 & HM1 & HM2). destruct (Hmax M) as (_ & _ & HM); [| by split_and!].
  split_and!; [done | | done]. specialize (HM2 x d Hd). unfold want. destruct (n >? ab_capacity d); lia.
Qed.

(** The new aggregate when there is no old one. *)
Lemma collected_new s l b n ret e l2 s1 : fresh_aggregate s l b n ret e l2 s1 ->
  collected s 0 l b ret [] n (set_store s1 (<[ret := with_next 0 e]> (store s1))).
Proof.
  intros [He Ha [Hce Hne0] [Hret0 Hret] Hh Hfr (Hw1 & Hnin & Hsub) Htk Hmax].
  destruct (ag_capacity _ Ha) as [Hc1 _]. pose proof (collecting_empty e Ha Hne0) as Hcol.
  exists (with_next 0 e), (ab_capacity e), l2. split; [apply lookup_insert_eq |]. split_and!; try done; try lia.
  - tauto.
  - intros q [Hq1 [Hq2 Hq3]%not_elem_of_cons]%not_elem_of_cons. cbn. rewrite lookup_insert_ne by done.
    apply Hfr. by apply not_elem_of_cons.
  - by apply waiting_insert.
  - intros q Hq. right. by apply Hsub.
  - intros M HM. eapply roomy_insert; [done.. | by apply Hmax].
Qed.

(** With an old one, which is copied and released. *)
Lemma collected_larger s old p dl l b n ret e l2 s1 : gather_ready s old p dl l b -> old <> 0 ->
  fresh_aggregate s l b n ret e l2 s1 -> zlen (content_at (store s) old ++ contents (store s) dl) = n ->
  wp (let s := set_store s1 (<[ret := with_next 0 e]> (store s1)) in
      let! o := buf_load s old in
      let! s := copy_addrs s ret old 0 (ab_n_addrs o) in
      let! s := buf_modify s ret (with_n_addrs (ab_n_addrs o)) in
      let! s := forkscan_release_buffer old s in Ok (ret, s))
    (fun '(ret, s') => collected s old l b ret (content_at (store s) old) n s').
Proof.
  intros G E0 [He Ha [Hce Hne0] [Hret0 Hret] Hh Hfr (Hw1 & Hnin & Hsub) Htk Hmax] En. cbv zeta.
  destruct (ag_capacity _ Ha) as [Hc1 _]. pose proof (collecting_empty e Ha Hne0) as Hcol.
  destruct (old_content _ _ _ _ _ _ G E0) as (o & Ho & Hao & Hno & Ec & Ez & Hob & Hol).
  assert (Hor : ret <> old) by (intros ->; tauto).
  assert (Ho1 : store s1 !! old = Some o).
  { rewrite Hfr; [done |]. intros [? | ?]%elem_of_cons; [congruence | done]. }
  assert (Hoz : 0 <= ab_n_addrs o <= zlen (ab_addrs o)) by (rewrite (ag_addrs _ Hao); lia).
  assert (Hol2 : old ∉ l2) by (intros ?%Hsub; done).
  assert (Hon : ab_n_addrs o <= n).
  { rewrite <- En, zlen_app, Ec, Ez. pose proof (zlen_nonneg (contents (store s) dl)). lia. }
  wp_step. eapply wp_buf_load; [done | cbn; by rewrite lookup_insert_ne |]. wp_step.
  eapply (wp_copy_addrs _ _ _ _ _ o (with_next 0 e));
    [done | done | cbn; by rewrite lookup_insert_ne | apply lookup_insert_eq | done | lia | cbn; rewrite (ag_addrs _ Ha); lia |].
  wp_step. eapply wp_buf_modify; [done | apply lookup_insert_eq |]. wp_step.
  pose proof (collecting_fresh _ _ o Hcol Hoz ltac:(lia)) as Hcol2. fold (content o).
  set (r := with_n_addrs _ _) in *. cbn [set_store store]. rewrite !insert_insert_eq.
  destruct (gr_old _ _ _ _ _ _ G) as [? | (_ & _ & _ & Hof & Hole)]; [done |].
  destruct Hh as (H1 & H2 & H3 & H4 & H5).
  eapply (release_aggregate_wp (set_store s1 (<[ret := r]> (store s1))) old o l2);
    [done | cbn; by rewrite lookup_insert_ne | done | by apply waiting_insert | done | cbn; congruence.. |].
  intros s' Hw' ->. wp_step. exists r, (ab_capacity e), (old :: l2).
  split; [cbn; by rewrite lookup_insert_ne, lookup_insert_eq |]. rewrite Ec.
  split_and!; try done; try lia.
  - tauto.
  - intros q [Hq1 [Hq2 Hq3]%not_elem_of_cons]%not_elem_of_cons. cbn. rewrite !lookup_insert_ne by done.
    apply Hfr. by apply not_elem_of_cons.
  - by apply not_elem_of_cons.
  - intros q [-> | Hq]%elem_of_cons; [by left | right; by apply Hsub].
  - intros M HM. eapply (roomy_insert (set_store s1 (<[ret := r]> (store s1))) _ _ _ old o);
      [done | cbn; by rewrite lookup_insert_ne | done |]. eapply (roomy_insert s1 _ _ _ ret e); [done.. | by apply Hmax].
Qed.

(** The old aggregate is large enough. *)
Lemma collected_old s old p dl l b n o : gather_ready s old p dl l b -> old <> 0 ->
  store s !! old = Some o -> n < ab_capacity o -> collected s old l b old (content_at (store s) old) n s.
Proof.
  intros G E0 Ho Hlt. destruct (old_content _ _ _ _ _ _ G E0) as (o' & Ho' & Ha & Hno & Ec & Ez & Hob & Hol).
  rewrite Ho in Ho'. injection Ho' as <-. exists o, (ab_capacity o), l.
  destruct (ag_capacity _ Ha) as [Hc _]. pose proof (gr_waiting _ _ _ _ _ _ G). split_and!; try done; try lia.
  - split; [done | done |]. rewrite Ec. split; [lia |]. rewrite Ez. done.
  - intros q Hq. by right.
  - left. split; done.
Qed.

Lemma choose_wp s old p dl l b :
  gather_ready s old p dl l b ->
  let n := zlen (content_at (store s) old ++ contents (store s) dl) in
  wp (choose_aggregate old p n s)
    (fun '(ret, s') => collected s old l b ret (content_at (store s) old) n s').
Proof.
  intros G n. pose proof (gr_total _ _ _ _ _ _ G) as Hn. fold n in Hn.
  assert (En : zlen (content_at (store s) old ++ contents (store s) dl) = n) by done.
  clearbody n. unfold INT_MAX in Hn. unfold choose_aggregate. wp_step.
  apply (wp_mono _ (fun big => big = true -> old <> 0 /\ exists o, store s !! old = Some o /\ n < ab_capacity o)).
  { destruct (Z.eqb_spec old 0) as [E0 | E0]; cbn [negb]; [by wp_step |].
    destruct (old_content _ _ _ _ _ _ G E0) as (o & Ho & Ha & Hno & _ & _).
    destruct (ag_capacity _ Ha) as [Hc _]. unfold INT_MAX in Hc.
    wp_step. eapply wp_buf_load; [done.. |]. wp_step. rewrite u64_small by (unfold size_ok; lia).
    rewrite Z.gtb_ltb. intros H%Z.ltb_lt. split; [done |]. by exists o. }
  intros [] Hbig; cbn beta iota.
  { destruct (Hbig eq_refl) as (E0 & o & Ho & Hlt). wp_step. by apply (collected_old s old p dl l b n o). }
  clear Hbig. pose proof (gr_chain _ _ _ _ _ _ G) as Hch. destruct (gr_some _ _ _ _ _ _ G) as [Hne _].
  destruct dl as [|x dl]; [done |]. destruct Hch as (-> & Hx & d & Hd & _).
  destruct (gr_filled _ _ _ _ _ _ G x d ltac:(left) Hd) as [_ Hcap]. unfold INT_MAX in Hcap.
  wp_step. eapply wp_buf_load; [done.. |]. rewrite (u64_small (ab_capacity d)) by (unfold size_ok; lia). wp_step.
  rewrite to_int_small by (unfold int_ok, INT_MIN, INT_MAX; destruct (n >? ab_capacity d); lia).
  eapply wp_mono; [apply (fresh_aggregate_wp s old x x dl l b n d); [done | done | lia] |].
  intros [ret s1] (e & l2 & F). wp_step. eapply wp_buf_modify; [apply F | apply F |].
  destruct (Z.eqb_spec old 0) as [-> | E0]; cbn [negb]; [wp_step; by apply (collected_new s l b n ret e l2) |].
  by apply (collected_larger s old x (x :: dl) l b n ret e l2 s1).
Qed.

Lemma gather_apart s old p dl l b ret : gather_ready s old p dl l b ->
  ret = old \/ ret = b \/ (ret ∈ l) -> forall q, q ∈ dl -> (q ∉ ret :: old :: l).
Proof.
  intros G Hret q Hq. destruct (gr_apart _ _ _ _ _ _ G q Hq) as (H1 & H2 & H3).
  apply not_elem_of_cons. split; [intros ->; tauto |]. by apply not_elem_of_cons.
Qed.

Lemma collected_add s old p dl l b ret n s1 :
  gather_ready s old p dl l b -> collected s old l b ret (content_at (store s) old) n s1 ->
  n = zlen (content_at (store s) old ++ contents (store s) dl) ->
  wp (loop (Datatypes.S (Datatypes.S (size (store s1)))) (copy_step ret) (p, s1))
    (collected s old l b ret (content_at (store s) old ++ contents (store s) dl) n).
Proof.
  intros G (r & c & l' & Hr & Hcol & Hc & Hret0 & Hret & Hh & Hfr & Hw & Hnin & Hsub & Htk & Hmax) En.
  pose proof (gather_apart _ _ _ _ _ _ ret G Hret) as Hap.
  assert (Hdl : forall q, q ∈ dl -> store s1 !! q = store s !! q) by (intros q Hq; by apply Hfr, Hap).
  assert (Hct : contents (store s1) dl = contents (store s) dl) by (by apply contents_frame).
  eapply wp_mono.
  { apply (copy_ok s1 p dl ret c r (content_at (store s) old)); try done; try lia.
    - eapply lchain_frame; [apply (gr_chain _ _ _ _ _ _ G) |]. intros q Hq. by rewrite Hdl.
    - apply (gr_nodup _ _ _ _ _ _ G).
    - intros Hq. apply (Hap ret Hq). left.
    - intros q d Hq Hd. rewrite Hdl in Hd by done. by apply (gr_filled _ _ _ _ _ _ G q).
    - rewrite Hct, <- zlen_app, <- En. lia. }
  intros s2 (r' & -> & Hr'). rewrite Hct in Hr'. exists r', c, l'.
  split; [apply lookup_insert_eq |]. split_and!; try done; try lia.
  - intros q Hq. apply not_elem_of_cons in Hq as Hq'. destruct Hq' as [Hq' _]. cbn.
    rewrite lookup_insert_ne by done. by apply Hfr.
  - by apply waiting_insert.
  - intros M HM. eapply (roomy_insert s1); [done | done | | by apply Hmax].
    pose proof (co_capacity _ _ _ Hcol). pose proof (co_capacity _ _ _ Hr'). congruence.
Qed.

Lemma old_count s old p dl l b : gather_ready s old p dl l b ->
  (if negb (old =? 0) then let! o := buf_load s old in Ok (u64 (ab_n_addrs o)) else Ok 0) =
  Ok (zlen (content_at (store s) old)).
Proof.
  intros G. pose proof (gr_total _ _ _ _ _ _ G) as Hn. unfold INT_MAX in Hn.
  destruct (Z.eqb_spec old 0) as [-> | E0]; [done |]. cbn [negb].
  destruct (old_content _ _ _ _ _ _ G E0) as (o & Ho & Ha & Hno & Ec & Ez & _).
  rewrite zlen_app, Ec, Ez in Hn. pose proof (zlen_nonneg (contents (store s) dl)).
  unfold buf_load. apply Z.eqb_neq in E0 as ->. rewrite Ho, bind_ok, Ec, Ez.
  by rewrite u64_small by (unfold size_ok; lia).
Qed.

Lemma aggregate_wp s old p dl l b : gather_ready s old p dl l b ->
  wp (aggregate_addrs old p s) (fun '(ret, f, s') => f = Z.max (zlen dl * 8) 8 /\
    collected s old l b ret (content_at (store s) old ++ contents (store s) dl)
      (zlen (content_at (store s) old ++ contents (store s) dl)) s').
Proof.
  intros G. pose proof (gr_total _ _ _ _ _ _ G) as Hn. unfold aggregate_addrs.
  rewrite (old_count _ _ _ _ _ _ G), bind_ok. destruct (gr_some _ _ _ _ _ _ G) as [Hne Hlen].
  assert (Hnz : (zlen (content_at (store s) old) + zlen (contents (store s) dl)) =
    zlen (content_at (store s) old ++ contents (store s) dl)) by (by rewrite zlen_app).
  pose proof (zlen_nonneg (content_at (store s) old)). pose proof (zlen_nonneg dl). unfold INT_MAX in Hn.
  wp_step. eapply wp_mono.
  { apply (count_ok s p dl); [apply G | apply G | done | apply G | done | unfold INT_MAX; lia | done]. }
  intros [n k] [= -> ->]. rewrite Hnz. wp_step. wp_step; [unfold int_ok, INT_MIN, INT_MAX; lia |].
  wp_step. wp_step; [apply negb_true_iff, Z.eqb_neq; lia |]. wp_step.
  eapply wp_mono; [by apply choose_wp |]. intros [ret s1] Hcol. wp_step.
  eapply wp_mono; [by eapply collected_add |].
  intros s2 Hs2. pose proof Hs2 as (r & c & l' & Hr & [Ha Hc [Hcn _]] & Hnc & Hret0 & _).
  wp_step. eapply wp_buf_load; [done.. |]. wp_step.
  wp_step; [apply Z.eqb_eq; rewrite u64_small by (unfold size_ok; lia); lia |]. wp_step.
  split; [| done]. by rewrite MAX_OF_max.
Qed.

(** [aggregate_addrs] gathers, in one aggregate, the uncollected addresses of
    the last iteration and those of every buffer handed in, in this order and
    with nothing lost; it is the old aggregate if that is large enough, and
    otherwise a new one, with the old one back among those that wait. *)
Theorem aggregate_addrs_gathers s old p dl l b :
  gather_ready s old p dl l b ->
  exists ret s', aggregate_addrs old p s = Ok (ret, Z.max (zlen dl * 8) 8, s') /\
    collected s old l b ret (content_at (store s) old ++ contents (store s) dl)
      (zlen (content_at (store s) old ++ contents (store s) dl)) s'.
Proof.
  intros G. pose proof (aggregate_wp s old p dl l b G) as Hw.
  apply wp_iff in Hw as ([[ret f] s'] & E & -> & H). by exists ret, s'.
Qed.

(** Two buffers handed in, at [0x10] and [0x20]. *)
Definition demo_handed_in : buffers_t :=
  mk_buffers {[ 0x10 := demo_buffer 0x20 [16; 32]; 0x20 := demo_buffer 0 [48] ]} 4 0 0 0 0 0
    [0x4000; 0x8000; 0xc000] [].

Lemma demo_ready : gather_ready demo_handed_in 0 0x10 [0x10; 0x20] [] 0x4000.
Proof.
  split.
  - do 2 (split; [done |]). eexists. split; [by vm_compute |].
    do 2 (split; [done |]). eexists. by split; [vm_compute |].
  - by apply (bool_decide_unpack _); vm_compute.
  - done.
  - intros q d Hq Hd. apply elem_of_cons in Hq as [-> | ->%list_elem_of_singleton];
      vm_compute in Hd; injection Hd as <-; vm_compute; intuition congruence.
  - by apply waiting_none.
  - split; [done |]. split; [apply not_elem_of_nil |]. by eexists.
  - intros q Hq. split_and!; [| by apply not_elem_of_nil |];
      apply elem_of_cons in Hq as [-> | ->%list_elem_of_singleton]; done.
  - by left.
  - by vm_compute.
Qed.

Lemma aggregate_addrs_gathers_witness :
  exists ret s', aggregate_addrs 0 0x10 demo_handed_in = Ok (ret, 16, s') /\
    collected demo_handed_in 0 [] 0x4000 ret [16; 32; 48] 3 s'.
Proof. apply (aggregate_addrs_gathers demo_handed_in 0 0x10 [0x10; 0x20] [] 0x4000), demo_ready. Defined.

(** * Dividing *)

Definition marked (v : Z) : Prop := Z.land v 1 <> 0.

(** The nodes that were reached, without their marks. *)
Definition survivors (l : list Z) : list Z := PTR_MASK <$> filter marked l.

Lemma collecting_push c r acc v : collecting c r acc -> zlen acc < c ->
  collecting c (with_n_addrs (ab_n_addrs r + 1) (set_addrs r (upd (ab_addrs r) (ab_n_addrs r) v))) (acc ++ [v]).
Proof.
  intros [[G1 G2 G3 G4 G5] Hc [Hn Hf]] Hlt. subst c.
  split; [split | done | split]; cbn; try done.
  - by rewrite zlen_upd.
  - rewrite zlen_app, Hn. done.
  - rewrite Hn. unfold first_n in *. replace (Z.to_nat (zlen (acc ++ [v]))) with (length (acc ++ [v])) by (unfold zlen; lia).
    apply take_upd_snoc; [lia |]. by replace (Z.to_nat (zlen acc)) with (length acc) in Hf by (unfold zlen; lia).
Qed.

Lemma survivors_snoc l (i : Z) : 0 <= i < zlen l ->
  survivors (first_n (i + 1) l) =
  survivors (first_n i l) ++ (if decide (marked (get l i)) then [PTR_MASK (get l i)] else []).
Proof.
  intros Hi. unfold survivors, first_n. replace (Z.to_nat (i + 1)) with (Datatypes.S (Z.to_nat i)) by lia.
  rewrite (take_S_r _ _ _ (get_lookup l i Hi)), filter_app, fmap_app. f_equal.
  unfold filter, list_filter. by case_decide.
Qed.

Lemma survivors_length l i : 0 <= i <= zlen l -> zlen (survivors (first_n i l)) <= i.
Proof.
  intros Hi. unfold survivors, zlen. rewrite length_fmap. pose proof (length_filter marked (first_n i l)) as H.
  pose proof (zlen_first_n i l Hi) as Hz. unfold zlen in Hz. lia.
Qed.

Lemma uncollected_ok w u c : 0 <= ab_n_addrs w <= zlen (ab_addrs w) -> ab_n_addrs w <= c ->
  collecting c u [] ->
  wp (for_range 0 (ab_n_addrs w) (uncollected_step w) u) (fun u' => collecting c u' (survivors (content w))).
Proof.
  intros Hn Hc Hu.
  apply (wp_for_range (fun i u' => collecting c u' (survivors (first_n i (ab_addrs w))))); [lia | done | | done].
  intros i t Hi Ht. unfold uncollected_step. wp_step. wp_step; [lia |].
  rewrite survivors_snoc by lia. pose proof (survivors_length (ab_addrs w) i ltac:(lia)) as Hl.
  destruct (Z.eqb_spec (Z.land (get (ab_addrs w) i) 1) 0) as [E | E].
  - rewrite decide_False by (by intros H). rewrite app_nil_r. by wp_step.
  - rewrite decide_True by done. destruct Ht as [Ha Hcap [Htn Htf]] eqn:Et. wp_step.
    apply wp_wr; [rewrite (ag_addrs _ Ha), Htn, Hcap; pose proof (zlen_nonneg (survivors (first_n i (ab_addrs w)))); lia |].
    wp_step. apply collecting_push; [by split | lia].
Qed.

(** Where the child has answered: the working data [w] at [wd] have been
    marked, the buffers [k] were retired before. *)
Record divide_ready (s : buffers_t) (wd : Z) (w : addr_buffer_t) (k l : list Z) (b : Z) : Prop := {
  dr_retirees : retirees s k;
  dr_waiting : waiting s l;
  dr_block : b <> 0 /\ (b ∉ l) /\ exists rest, blocks s = b :: rest;
  dr_apart : forall q, q ∈ wd :: k -> q <> b /\ (q ∉ l);
  dr_new : (wd ∉ k) /\ wd <> 0;
  dr_data : store s !! wd = Some w;
  dr_capacity : 1 <= ab_capacity w <= INT_MAX - 511;
  dr_count : 1 <= ab_n_addrs w <= ab_capacity w /\ zlen (ab_addrs w) = ab_capacity w }.

(** What else becomes of the buffers: a link of the other retirees may change,
    and [u] is one that waited or a new block. *)
Record divide_frame (s : buffers_t) (wd : Z) (w : addr_buffer_t) (k l : list Z) (b u : Z) (s' : buffers_t) : Prop := {
  df_heads : g_default_capacity s' = g_default_capacity s /\ g_reclaimer_list s' = g_reclaimer_list s /\
    g_dead_references s' = g_dead_references s;
  df_kept : forall q e, q ∈ k -> store s !! q = Some e -> exists v, store s' !! q = Some (with_next v e);
  df_frame : forall q, (q ∉ wd :: u :: k ++ l) -> store s' !! q = store s !! q;
  df_block : u <> 0 /\ (u = b \/ (u ∈ l)) /\ block_taken s b u s';
  df_roomy : forall M, roomy s (ab_capacity w) M -> roomy s' (ab_capacity w) M }.

Definition divided (s : buffers_t) (wd : Z) (w : addr_buffer_t) (k l : list Z) (b u : Z) (s' : buffers_t) : Prop :=
  retirees s' (k ++ [wd]) /\ store s' !! wd = Some (with_fields w 0 (ab_n_addrs w) 0 0) /\
  (exists d c l', store s' !! u = Some d /\ collecting c d (survivors (content w)) /\ u <> wd /\
     waiting s' l' /\ (u ∉ l') /\ (wd ∉ l') /\ (forall q, q ∈ l' -> q ∈ l)) /\
  divide_frame s wd w k l b u s'.

Lemma waiting_frame s s' l : waiting s l -> g_available_aggregates s' = g_available_aggregates s ->
  (forall q, q ∈ l -> store s' !! q = store s !! q) -> waiting s' l.
Proof.
  intros [Hch Hnd Hok] Ha Hst. split; [| done |].
  - rewrite Ha. eapply lchain_frame; [exact Hch |]. intros q Hq. by rewrite Hst.
  - intros q d Hq. rewrite Hst by done. by apply Hok.
Qed.

Lemma unref_wp s ab d : ab <> 0 -> store s !! ab = Some d -> ab_ref_count d = 1 -> ab_free_idx d < ab_n_addrs d ->
  wp (forkscan_buffer_unref_buffer ab s) (fun s' => s' = set_store s (<[ab := with_ref_count 0 d]> (store s))).
Proof.
  intros Hab Hd Hr Hf. unfold forkscan_buffer_unref_buffer. wp_step. eapply wp_buf_load; [done.. |]. rewrite Hr.
  wp_step. wp_step; [done |]. wp_step. eapply wp_buf_modify; [done.. |]. wp_step.
  eapply wp_buf_load; [done | apply lookup_insert_eq |]. cbn. rewrite Z.geb_leb.
  apply Z.leb_gt in Hf as ->. change (1 - 1) with 0. cbn [Z.eqb]. by wp_step.
Qed.

Lemma pushed_roomy s s1 k wd w w1 n M : retirees s k -> store s !! wd = Some w -> store s1 !! wd = Some w1 ->
  ab_capacity w1 = ab_capacity w -> (forall q, (q ∉ wd :: k) -> store s1 !! q = store s !! q) ->
  (forall q e, q <> wd -> store s !! q = Some e -> exists v, store s1 !! q = Some (with_next v e)) ->
  roomy s n M -> roomy s1 n M.
Proof.
  intros Hret Hd Hd1 Hc Hfr Hk HM. apply (roomy_next s); [done |]. intros q f Hf. right.
  destruct (decide (q = wd)) as [-> | Hq]; [exists w; split; congruence |].
  destruct (decide (q ∈ k)) as [Hin | Hnin].
  - destruct (lchain_some _ _ _ _ q (rt_chain _ _ Hret) Hin) as (_ & g & Hg). exists g. split; [done |].
    destruct (Hk q g Hq Hg) as [v Hv]. rewrite Hv in Hf. by injection Hf as <-.
  - exists f. split; [| done]. rewrite <- Hfr; [done |]. by apply not_elem_of_cons.
Qed.

Lemma divide_wp s wd w k l b : divide_ready s wd w k l b ->
  wp (divide wd s) (fun '(u, s') => divided s wd w k l b u s').
Proof.
  intros [Hret Hw (Hb & Hbl & rest & Eb) Hap [Hnew Hwd0] Hd Hcap [Hn Hz]]. unfold divide. wp_step.
  eapply wp_mono; [by eapply push_back_wp |].
  intros s1 (Hret1 & Hd1 & Hfr1 & (Ha1 & Hc1 & Hl1 & Hr1 & Hb1) & Hk1).
  set (w1 := with_fields w 0 (ab_n_addrs w) 1 0) in *.
  assert (Hw1 : waiting s1 l).
  { apply (waiting_frame s); [done | done |]. intros q Hq. apply Hfr1. intros Hin. by apply (Hap q Hin). }
  wp_step. eapply wp_buf_load; [done.. |]. wp_step.
  eapply wp_mono; [apply (make_aggregate_wp _ s1 l b rest); [exact Hcap | done | congruence] |].
  intros [u s2] (e & l2 & He & Hae & Hce & Hne & Hu0 & Hu & Hh & Hfr2 & Hw2 & Hnin & Hsub & Htk & Hroomy)%made_facts;
    [| done | done | done | congruence].
  assert (Hukw : forall q, q ∈ wd :: k -> u <> q /\ (q ∉ u :: l)).
  { intros q Hq. destruct (Hap q Hq) as [H1 H2]. assert (u <> q) by (intros ->; tauto).
    split; [done |]. by apply not_elem_of_cons. }
  destruct (Hukw wd ltac:(left)) as [Huw Hwdl].
  assert (Hd2 : store s2 !! wd = Some w1) by (by rewrite Hfr2).
  assert (Hret2 : retirees s2 (k ++ [wd])).
  { apply (retirees_frame s1); [done | done |]. intros q Hq. rewrite Hfr2; [done |]. apply Hukw.
    apply elem_of_app in Hq as [Hq | ->%list_elem_of_singleton]; [by right | left]. }
  wp_step. eapply wp_buf_load; [done.. |]. wp_step. eapply wp_buf_load; [done.. |]. wp_step.
  assert (Hcol : collecting (ab_capacity e) e []) by (split; [done | done | by split]).
  eapply wp_mono; [apply (uncollected_ok w1 e (ab_capacity e)); [| | done] |].
  { cbn. lia. } { cbn. cbn in Hce. lia. }
  intros u' Hu'. change (content w1) with (content w) in Hu'. wp_step. eapply wp_buf_modify; [done.. |].
  wp_step. eapply wp_mono; [apply (unref_wp _ wd w1); [done | cbn; by rewrite lookup_insert_ne | done | cbn; lia] |].
  intros s3 ->. wp_step.
  assert (Hfr3 : forall q, q <> wd -> q <> u ->
    (<[wd := with_ref_count 0 w1]> (<[u := u']> (store s2))) !! q = store s2 !! q)
    by (intros q Hq1 Hq2; by rewrite !lookup_insert_ne).
  assert (Hk2 : forall q, q ∈ k -> q <> wd /\ q <> u /\ store s2 !! q = store s1 !! q).
  { intros q Hq. destruct (Hukw q ltac:(by right)) as [H1 H2]. split; [by intros -> |].
    split; [by intros -> | by apply Hfr2]. }
  split; [| split; [apply lookup_insert_eq | split]].
  - apply (retirees_frame s2); [done | done |]. intros q Hq. cbn.
    destruct (decide (q = wd)) as [-> | Hne']; [by rewrite lookup_insert_eq, Hd2 |].
    apply elem_of_app in Hq as [Hq | ->%list_elem_of_singleton]; [| done]. by rewrite Hfr3 by (by apply Hk2).
  - exists u', (ab_capacity e), l2. split; [cbn; by rewrite lookup_insert_ne, lookup_insert_eq by done |].
    assert (wd ∉ l2) by (intros Hq%Hsub; by apply (Hap wd ltac:(left))).
    split_and!; try done. apply waiting_insert; [by apply waiting_insert | done].
  - destruct Hh as (H1 & H2 & H3 & H4 & H5). split.
    + cbn. split_and!; congruence.
    + intros q f Hq Hf. destruct (Hk1 q f) as [v Hv]; [by intros -> | done |]. exists v. cbn.
      destruct (Hk2 q Hq) as (? & ? & E). by rewrite Hfr3, E.
    + intros q [Hq1 [Hq2 Hq3]%not_elem_of_cons]%not_elem_of_cons. cbn. rewrite Hfr3 by done. apply not_elem_of_app in Hq3 as [Hq3 Hq4].
      rewrite Hfr2 by (by apply not_elem_of_cons). apply Hfr1. by apply not_elem_of_cons.
    + split; [done |]. split; [done |]. destruct Htk as [[E ?] | [E ?]]; [left | right]; cbn; by rewrite <- Hb1.
    + intros M HM. eapply (roomy_insert (set_store s2 (<[u := u']> (store s2))) _ _ _ wd w1);
        [done | cbn; by rewrite lookup_insert_ne | done |].
      eapply (roomy_insert s2 _ _ _ u e); [done | done | apply (co_capacity _ _ _ Hu') |]. apply Hroomy.
      by apply (pushed_roomy s s1 k wd w w1).
Qed.

(** After the scan, the working data are the last of the retirees, complete
    and without a reference, and the uncollected data of the next iteration
    are exactly its marked entries, without their marks. *)
Theorem divide_keeps_marked s wd w k l b : divide_ready s wd w k l b ->
  exists u s', divide wd s = Ok (u, s') /\ divided s wd w k l b u s'.
Proof.
  intros H. pose proof (divide_wp s wd w k l b H) as Hw.
  apply wp_iff in Hw as ([u s'] & E & Hd). by exists u, s'.
Qed.

Definition demo_marked : addr_buffer_t :=
  with_fields (fresh_buffer 0x1000 ([17; 32; 49] ++ zeros 509) [0] 1 512) 0 3 0 0.

Definition demo_answered : buffers_t :=
  mk_buffers {[ 0x10 := demo_marked ]} 4 0 0 0 0 0 [0x4000] [].

Lemma divide_keeps_marked_witness :
  exists u s', divide 0x10 demo_answered = Ok (u, s') /\
    divided demo_answered 0x10 demo_marked [] [] 0x4000 u s'.
Proof.
  apply divide_keeps_marked. split.
  - split; [done | constructor | done].
  - by apply waiting_none.
  - split; [done |]. split; [apply not_elem_of_nil |]. by eexists.
  - intros q ->%list_elem_of_singleton. split; [done | apply not_elem_of_nil].
  - split; [apply not_elem_of_nil | done].
  - by vm_compute.
  - by vm_compute.
  - by vm_compute.
Defined.
