(* ===== verification/Free.v ===== *)
(** util.c: freeing the nodes the collector found unreferenced.

    Every thread frees a few nodes whenever it retires one
    ([forkscan_util_free_ptrs]).  The threads share the retired buffers and
    claim ranges of their entries by compare-and-swap on [free_idx].  The
    routine is modelled twice: as the sequence of its atomic actions, for any
    interleaving of threads, and as the loop one thread runs alone.  What is
    handed to [free] is recorded with the buffer and the index it was read
    from. *)
From S2P Require Import Prelude AddrBuffer Buffer.

Definition FREE_RANGE_SZ : Z := 1024.

(** The fields of [thread_data_t] the routine keeps its place in. *)
Record place_t : Type := mk_place {
  retiree_buffer : Z;
  begin_retiree_idx : Z;
  end_retiree_idx : Z }.

Definition freed_t : Type := Z * Z * Z.        (* buffer, index, pointer *)

Record shared_t : Type := mk_shared {
  bufs : buffers_t;
  freed : list freed_t }.                      (* the latest first *)

Definition set_bufs (g : shared_t) s := mk_shared s (freed g).

Definition with_free_idx (v : Z) (d : addr_buffer_t) : addr_buffer_t :=
  with_fields d (ab_next d) (ab_n_addrs d) (ab_ref_count d) v.

(** ** The parts of the loop body *)

(** "Nothing to free": the buffer stays [NULL]. *)
Definition take_retiree (g : shared_t) : res (place_t * shared_t) :=
  let! ' (ab, s) := forkscan_buffer_get_retiree_buffer (bufs g) in
  Ok (mk_place ab 0 0, set_bufs g s).

Definition range_end (n_addrs begin_idx : Z) : res Z :=
  let! e := int_chk (begin_idx + FREE_RANGE_SZ) in Ok (MIN_OF n_addrs e).

(** [BCAS(&ab->free_idx, begin_idx, end_idx)]. *)
Definition claim (ab begin_idx end_idx : Z) (g : shared_t) : res (bool * shared_t) :=
  let! d := buf_load (bufs g) ab in
  if ab_free_idx d =? begin_idx then
    let! s := buf_modify (bufs g) ab (with_free_idx end_idx) in Ok (true, set_bufs g s)
  else Ok (false, g).

(** One entry of the claimed range: a marked one is left alone, the others
    are freed and their place is overwritten. *)
Definition free_entry (t : place_t) (g : shared_t) : res (place_t * shared_t) :=
  let ab := retiree_buffer t in
  let i := begin_retiree_idx t in
  let! d := buf_load (bufs g) ab in
  let! s := rd (ab_addrs d) i in
  let! i' := int_chk (i + 1) in
  let t := mk_place ab i' (end_retiree_idx t) in
  if negb (Z.land s 1 =? 0) then Ok (t, g) else
  assert (Z.land s 3 =? 0) ;!
  let! l := wr (ab_addrs d) i 2 in
  let! b := buf_modify (bufs g) ab (fun d => set_addrs d l) in
  Ok (t, mk_shared b ((ab, i, s) :: freed g)).

(** ** One thread alone *)

(** The loop body; the flag says that the routine returns. *)
Definition free_iteration (t : place_t) (g : shared_t) : res (place_t * shared_t * bool) :=
  let! ' (t, g) := (if retiree_buffer t =? 0 then take_retiree g else Ok (t, g)) in
  if retiree_buffer t =? 0 then Ok (t, g, true) else
  let ab := retiree_buffer t in
  if begin_retiree_idx t =? end_retiree_idx t then
    let! d := buf_load (bufs g) ab in
    if ab_free_idx d >=? ab_n_addrs d then
      let! s := forkscan_buffer_pop_retiree_buffer ab (bufs g) in
      let! s := forkscan_buffer_unref_buffer ab s in
      Ok (mk_place 0 (begin_retiree_idx t) (end_retiree_idx t), set_bufs g s, false)
    else
      let begin_idx := ab_free_idx d in
      let! end_idx := range_end (ab_n_addrs d) begin_idx in
      let! ' (ok, g) := claim ab begin_idx end_idx g in
      if ok : bool then
        let! ' (t, g) := free_entry (mk_place ab begin_idx end_idx) g in Ok (t, g, false)
      else Ok (t, g, false)
  else
    let! ' (t, g) := free_entry t g in Ok (t, g, false).

Definition free_step (g_frees_required : Z) (st : Z * place_t * shared_t)
    : res (flow (Z * place_t * shared_t) (place_t * shared_t)) :=
  let '(i, t, g) := st in
  if i <? g_frees_required then
    let! ' (t, g, ret) := free_iteration t g in
    if ret : bool then Ok (Done (t, g)) else Ok (Next (i + 1, t, g))
  else Ok (Done (t, g)).

Definition forkscan_util_free_ptrs (g_frees_required : Z) (t : place_t) (g : shared_t) : res (place_t * shared_t) :=
  loop (Datatypes.S (Z.to_nat g_frees_required)) (free_step g_frees_required) (0, t, g).

(** ** Many threads *)

(** Where a thread is in the loop body, between two accesses to shared data.
    [free_idx] is [volatile]: it is read once for the test and once more for
    the range. *)
Inductive free_pc : Type :=
  | At_top
  | At_test
  | At_read
  | At_claim (begin_idx : Z)
  | At_entry
  | At_pop
  | At_unref.

Definition thread_t : Type := free_pc * place_t.

(** Behind [if (NULL == ab) return]. *)
Definition go_on (t : place_t) : free_pc :=
  if retiree_buffer t =? 0 then At_top
  else if begin_retiree_idx t =? end_retiree_idx t then At_test else At_entry.

Definition free_turn (th : thread_t) (g : shared_t) : res (thread_t * shared_t) :=
  let '(pc, t) := th in
  let ab := retiree_buffer t in
  match pc with
  | At_top =>
      if ab =? 0 then let! ' (t, g) := take_retiree g in Ok ((go_on t, t), g)
      else Ok ((go_on t, t), g)
  | At_test =>
      let! d := buf_load (bufs g) ab in
      Ok ((if ab_free_idx d >=? ab_n_addrs d then At_pop else At_read, t), g)
  | At_read =>
      let! d := buf_load (bufs g) ab in
      Ok ((At_claim (ab_free_idx d), t), g)
  | At_claim begin_idx =>
      let! d := buf_load (bufs g) ab in
      let! end_idx := range_end (ab_n_addrs d) begin_idx in
      let! ' (ok, g) := claim ab begin_idx end_idx g in
      Ok ((if ok : bool then (At_entry, mk_place ab begin_idx end_idx) else (At_top, t)), g)
  | At_entry =>
      let! ' (t, g) := free_entry t g in Ok ((At_top, t), g)
  | At_pop =>
      let! s := forkscan_buffer_pop_retiree_buffer ab (bufs g) in Ok ((At_unref, t), set_bufs g s)
  | At_unref =>
      let! s := forkscan_buffer_unref_buffer ab (bufs g) in
      Ok ((At_top, mk_place 0 (begin_retiree_idx t) (end_retiree_idx t)), set_bufs g s)
  end.

(** The threads by number. *)
Record frees_t : Type := mk_frees {
  threads : gmap nat thread_t;
  shared : shared_t }.

Inductive frees_step : frees_t -> frees_t -> Prop :=
  | free_by k th th' ts g g' :
      ts !! k = Some th -> free_turn th g = Ok (th', g') ->
      frees_step (mk_frees ts g) (mk_frees (<[k := th']> ts) g').

Definition free_sched (ks : list nat) (st : frees_t) : res frees_t :=
  foldl (fun r k => let! st := r in
    match threads st !! k with
    | Some th => let! ' (th, g) := free_turn th (shared st) in Ok (mk_frees (<[k := th]> (threads st)) g)
    | None => Ok st
    end) (Ok st) ks.

(** * What the other operations leave alone *)

(** What the threads go by in a buffer: the number of entries, [free_idx] and
    the entries. *)
Record core_t : Type := mk_core { c_n : Z; c_idx : Z; c_addrs : list Z }.

Definition core (d : addr_buffer_t) : core_t := mk_core (ab_n_addrs d) (ab_free_idx d) (ab_addrs d).
Definition cores (s : buffers_t) : gmap Z core_t := core <$> store s.

Lemma cores_lookup s q d : store s !! q = Some d -> cores s !! q = Some (core d).
Proof. intros H. unfold cores. by rewrite lookup_fmap, H. Qed.

Lemma bind_inv {A B} (m : res A) (k : A -> res B) b : bind m k = Ok b -> exists a, m = Ok a /\ k a = Ok b.
Proof. destruct m as [a | e]; [by exists a | done]. Qed.

Lemma buf_load_inv s p d : buf_load s p = Ok d -> p <> 0 /\ store s !! p = Some d.
Proof.
  unfold buf_load. destruct (Z.eqb_spec p 0); [done |]. destruct (store s !! p); [| done]. by intros [= ->].
Qed.

Lemma buf_modify_inv s p f s' : buf_modify s p f = Ok s' ->
  exists d, p <> 0 /\ store s !! p = Some d /\ s' = set_store s (<[p := f d]> (store s)).
Proof.
  unfold buf_modify. intros (d & [Hp Hd]%buf_load_inv & [= <-])%bind_inv. by exists d.
Qed.

(** Takes a successful run apart. *)
Ltac run_inv := repeat match goal with
  | H : Err _ = Ok _ |- _ => discriminate H
  | H : Ok _ = Ok _ |- _ => injection H as H; try subst
  | H : bind _ _ = Ok _ |- _ => apply bind_inv in H as (? & ? & H)
  | H : (let '(_, _) := ?p in _) = Ok _ |- _ => destruct p
  | H : (if ?b then _ else _) = Ok _ |- _ => let E := fresh "E" in destruct b eqn:E
  end.

Lemma buf_modify_cores s p f s' : buf_modify s p f = Ok s' -> (forall d, core (f d) = core d) -> cores s' = cores s.
Proof.
  intros (d & Hp & Hd & ->)%buf_modify_inv Hf. unfold cores. cbn. rewrite fmap_insert, Hf.
  apply insert_id. by rewrite lookup_fmap, Hd.
Qed.

Lemma get_retiree_cores s ab s' : forkscan_buffer_get_retiree_buffer s = Ok (ab, s') -> cores s' = cores s.
Proof.
  unfold forkscan_buffer_get_retiree_buffer. destruct (g_first_retiree_buffer s =? 0); [by intros [= _ ->] |].
  intros (d & _ & (r & _ & (s1 & H & E)%bind_inv)%bind_inv)%bind_inv. injection E as _ <-.
  by eapply buf_modify_cores.
Qed.

Lemma pop_retiree_cores s ab s' : forkscan_buffer_pop_retiree_buffer ab s = Ok s' -> cores s' = cores s.
Proof.
  unfold forkscan_buffer_pop_retiree_buffer. intros ([curr prev] & _ & H)%bind_inv.
  destruct (curr =? ab); [| by injection H as ->].
  apply bind_inv in H as (d & _ & (s1 & H & E)%bind_inv).
  assert (cores s1 = cores s) as <-.
  { destruct (negb (prev =? 0)); [by eapply buf_modify_cores | by injection H as <-]. }
  destruct (g_first_retiree_buffer s1 =? 0); by injection E as <-.
Qed.

Lemma release_cores s ab s' : forkscan_release_buffer ab s = Ok s' -> cores s' = cores s.
Proof.
  unfold forkscan_release_buffer.
  intros (? & _ & (? & _ & (d & _ & H)%bind_inv)%bind_inv)%bind_inv.
  destruct (ab_is_aggregate d =? 0).
  - apply bind_inv in H as (? & _ & (s1 & H & E)%bind_inv). injection E as <-. change (cores s1 = cores s). by eapply buf_modify_cores.
  - apply bind_inv in H as (s1 & H & E). injection E as <-. change (cores s1 = cores s). by eapply buf_modify_cores.
Qed.

Lemma unref_cores s ab s' : forkscan_buffer_unref_buffer ab s = Ok s' -> cores s' = cores s.
Proof.
  unfold forkscan_buffer_unref_buffer.
  intros (d & _ & (r & _ & (s1 & H1 & (d1 & _ & H)%bind_inv)%bind_inv)%bind_inv)%bind_inv.
  assert (cores s1 = cores s) as <- by by eapply buf_modify_cores.
  destruct (ab_ref_count d1 =? 0); [| by injection H as ->].
  destruct (ab_free_idx d1 >=? ab_n_addrs d1); [by eapply release_cores | by injection H as ->].
Qed.

(** * No entry is freed twice *)

(** The thread has claimed entry [i] of the buffer [q] and not come to it. *)
Definition owns (t : place_t) (q i : Z) : Prop :=
  retiree_buffer t = q /\ q <> 0 /\ begin_retiree_idx t <= i < end_retiree_idx t.

(** The thread is behind the entries of its buffer. *)
Definition beyond (pc : free_pc) (t : place_t) : Prop :=
  retiree_buffer t <> 0 /\ (end_retiree_idx t < begin_retiree_idx t \/
    (pc = At_entry /\ end_retiree_idx t <= begin_retiree_idx t)).

Definition entry_of (e : freed_t) : Z * Z := (e.1.1, e.1.2).

(** The entries freed that are among the [n_addrs] of their buffer. *)
Definition proper (C : gmap Z core_t) (e : freed_t) : Prop :=
  exists c, C !! e.1.1 = Some c /\ e.1.2 < c_n c.

#[export] Instance proper_dec C e : Decision (proper C e).
Proof.
  unfold proper. destruct (C !! e.1.1) as [c |]; [| right; by intros (? & ? & _)].
  destruct (decide (e.1.2 < c_n c)) as [H | H]; [left; eauto | right; by intros (? & [= <-] & ?)].
Defined.

(** [C0] are the buffers as the threads found them, [C] as they are now. *)
Record free_inv (C0 : gmap Z core_t) (ts : gmap nat thread_t) (C : gmap Z core_t) (log : list freed_t) : Prop := {
  fi_same : forall q, c_n <$> C !! q = c_n <$> C0 !! q;
  fi_claimed : forall k pc t q i, ts !! k = Some (pc, t) -> owns t q i ->
    exists c, C !! q = Some c /\ i < c_idx c /\ i < c_n c;
  fi_beyond : forall k pc t, ts !! k = Some (pc, t) -> beyond pc t ->
    exists c, C !! retiree_buffer t = Some c /\ c_n c <= begin_retiree_idx t;
  fi_disjoint : forall k k' pc pc' t t' q i, ts !! k = Some (pc, t) -> ts !! k' = Some (pc', t') ->
    owns t q i -> owns t' q i -> k = k';
  fi_freed : forall q i v c, (q, i, v) ∈ log -> C !! q = Some c -> i < c_n c ->
    i < c_idx c /\ (forall k pc t, ts !! k = Some (pc, t) -> ~ owns t q i) /\
    exists c0, C0 !! q = Some c0 /\ get (c_addrs c0) i = v /\ Z.land v 3 = 0;
  fi_once : NoDup (entry_of <$> filter (proper C0) log);
  fi_entries : forall q i c c0, C !! q = Some c -> C0 !! q = Some c0 -> 0 <= i ->
    ((q, i) ∉ entry_of <$> log) -> get (c_addrs c) i = get (c_addrs c0) i }.

Lemma upd_thread (ts : gmap nat thread_t) k pc t j p u : <[k := (pc, t)]> ts !! j = Some (p, u) ->
  (j = k /\ p = pc /\ u = t) \/ (j <> k /\ ts !! j = Some (p, u)).
Proof.
  destruct (decide (j = k)) as [-> | Hne];
    [rewrite lookup_insert_eq; intros [= <- <-]; by left | rewrite lookup_insert_ne by done; by right].
Qed.

(** A thread that gives up entries, or only moves on. *)
Lemma inv_thread C0 ts C log k th pc' t' :
  free_inv C0 ts C log -> ts !! k = Some th ->
  (forall q i, owns t' q i -> owns th.2 q i) ->
  (beyond pc' t' -> exists c, C !! retiree_buffer t' = Some c /\ c_n c <= begin_retiree_idx t') ->
  free_inv C0 (<[k := (pc', t')]> ts) C log.
Proof.
  intros [Hs Hc Hb Hd Hf Ho He] Hk Hown Hbey. destruct th as [pc t]. cbn in Hown.
  pose proof (upd_thread ts k pc' t') as Hts.
  assert (Hsame : forall j p u, <[k := (pc', t')]> ts !! j = Some (p, u) ->
    exists p0 u0, ts !! j = Some (p0, u0) /\ forall q i, owns u q i -> owns u0 q i).
  { intros j p u [(-> & -> & ->) | [_ H]]%Hts; eauto. }
  split; [done | | | | | done | done].
  - intros j p u q i (p0 & u0 & H & Hu)%Hsame Hq. apply (Hc j p0 u0); auto.
  - intros j p u [(-> & -> & ->) | [_ H]]%Hts; [done | by apply (Hb j)].
  - intros j j' p p' u u' q i (p0 & u0 & H & Hu)%Hsame (p0' & u0' & H' & Hu')%Hsame Hq Hq'.
    apply (Hd j j' p0 p0' u0 u0' q i); auto.
  - intros q i v c Hin HC Hi. destruct (Hf q i v c Hin HC Hi) as (H1 & H2 & H3).
    split; [done |]. split; [| done]. intros j p u (p0 & u0 & H & Hu)%Hsame Hq. apply (H2 j p0 u0); auto.
Qed.

Lemma int_chk_inv z r : int_chk z = Ok r -> r = z.
Proof. unfold int_chk. destruct (_ && _); [by intros [= ->] | done]. Qed.

Lemma claim_end n b e : range_end n b = Ok e -> e = Z.min n (b + FREE_RANGE_SZ).
Proof.
  unfold range_end. intros (x & ->%int_chk_inv & E)%bind_inv. injection E as <-. apply MIN_OF_min.
Qed.

(** Winning the compare-and-swap hands over entries nobody has owned. *)
Lemma inv_claim C0 ts C log k th ab c e :
  free_inv C0 ts C log -> ts !! k = Some th -> ab <> 0 -> C !! ab = Some c ->
  e = Z.min (c_n c) (c_idx c + FREE_RANGE_SZ) ->
  free_inv C0 (<[k := (At_entry, mk_place ab (c_idx c) e)]> ts) (<[ab := mk_core (c_n c) e (c_addrs c)]> C) log.
Proof.
  intros [Hs Hc Hb Hd Hf Ho He] Hk Hab HC ->. set (e := Z.min _ _). unfold FREE_RANGE_SZ in e.
  set (t' := mk_place ab (c_idx c) e). set (c' := mk_core _ _ _).
  assert (HC' : forall q d, <[ab := c']> C !! q = Some d ->
    exists d0, C !! q = Some d0 /\ c_n d0 = c_n d /\ c_addrs d0 = c_addrs d /\
      forall i, i < c_idx d0 -> i < c_n d0 -> i < c_idx d).
  { intros q d. destruct (decide (q = ab)) as [-> | Hne].
    - rewrite lookup_insert_eq. intros [= <-]. exists c. cbn. split_and!; try done. unfold e. lia.
    - rewrite lookup_insert_ne by done. intros H. by exists d. }
  assert (HCf : forall q d, C !! q = Some d -> exists d', <[ab := c']> C !! q = Some d' /\ c_n d' = c_n d /\
      forall i, i < c_idx d -> i < c_n d -> i < c_idx d').
  { intros q d Hq. destruct (decide (q = ab)) as [-> | Hne].
    - rewrite HC in Hq. injection Hq as <-. exists c'. rewrite lookup_insert_eq. cbn. split_and!; try done. unfold e. lia.
    - exists d. by rewrite lookup_insert_ne. }
  pose proof (upd_thread ts k At_entry t') as Hts.
  assert (Hnew : forall j p u i, ts !! j = Some (p, u) -> owns u ab i -> i < c_idx c).
  { intros j p u i H Hq. destruct (Hc j p u ab i H Hq) as (d & Hd' & Hi & _). congruence. }
  split.
  - intros q. rewrite <- Hs. destruct (decide (q = ab)) as [-> | Hne]; [| by rewrite lookup_insert_ne].
    by rewrite lookup_insert_eq, HC.
  - intros j p u q i [(-> & -> & ->) | [_ H]]%Hts Hq.
    + destruct Hq as (<- & _ & Hi). cbn in Hi. exists c'. cbn [retiree_buffer t']. rewrite lookup_insert_eq.
      cbn. unfold e in *. split; [done | lia].
    + destruct (Hc j p u q i H Hq) as (d & HCq & Hi & Hn). destruct (HCf q d HCq) as (d' & Hd' & En & Hlt).
      exists d'. split; [done |]. split; [by apply Hlt | by rewrite En].
  - intros j p u [(-> & -> & ->) | [_ H]]%Hts Hbey.
    + destruct Hbey as [_ Hbey]. exists c'. cbn [retiree_buffer begin_retiree_idx end_retiree_idx t'] in *.
      rewrite lookup_insert_eq. split; [done |]. cbn. unfold e in Hbey. lia.
    + destruct (Hb j p u H Hbey) as (d & HCq & Hn). destruct (HCf _ d HCq) as (d' & Hd' & En & _).
      exists d'. split; [done | by rewrite En].
  - intros j j' p p' u u' q i [(-> & -> & ->) | [Hj H]]%Hts [(-> & -> & ->) | [Hj' H']]%Hts Hq Hq'; [done | | |].
    + destruct Hq as (<- & _ & Hi). pose proof (Hnew _ _ _ _ H' Hq'). cbn in *. lia.
    + destruct Hq' as (<- & _ & Hi). pose proof (Hnew _ _ _ _ H Hq). cbn in *. lia.
    + by apply (Hd j j' p p' u u' q i).
  - intros q i v d Hin (d0 & Hq & En & _ & Hlt)%HC' Hi.
    destruct (Hf q i v d0 Hin Hq ltac:(lia)) as (H1 & H2 & H3). split; [apply Hlt; lia |]. split; [| done].
    intros j p u [(-> & -> & ->) | [_ H]]%Hts Hown; [| by apply (H2 j p u)].
    destruct Hown as (<- & _ & Hown). cbn in *. assert (d0 = c) as -> by congruence. lia.
  - done.
  - intros q i d x (d0 & Hq & _ & <- & _)%HC'. by apply He.
Qed.

(** The entry a thread is at is its own, or none of the buffer's. *)
Lemma at_entry C0 ts C log k t c : free_inv C0 ts C log -> ts !! k = Some (At_entry, t) ->
  C !! retiree_buffer t = Some c -> retiree_buffer t <> 0 -> begin_retiree_idx t < c_n c ->
  owns t (retiree_buffer t) (begin_retiree_idx t).
Proof.
  intros I Hk HC H0 Hn. split; [done |]. split; [done |].
  destruct (decide (begin_retiree_idx t < end_retiree_idx t)); [lia |].
  destruct (fi_beyond _ _ _ _ I k At_entry t Hk) as (d & Hd & Hle); [split; [done | right; split; [done | lia]] |].
  rewrite HC in Hd. injection Hd as <-. lia.
Qed.

Lemma inv_entry C0 ts C log k t c v :
  free_inv C0 ts C log -> ts !! k = Some (At_entry, t) -> retiree_buffer t <> 0 ->
  C !! retiree_buffer t = Some c -> 0 <= begin_retiree_idx t < zlen (c_addrs c) ->
  v = get (c_addrs c) (begin_retiree_idx t) -> Z.land v 3 = 0 ->
  let t' := mk_place (retiree_buffer t) (begin_retiree_idx t + 1) (end_retiree_idx t) in
  free_inv C0 (<[k := (At_top, t')]> ts)
    (<[retiree_buffer t := mk_core (c_n c) (c_idx c) (upd (c_addrs c) (begin_retiree_idx t) 2)]> C)
    ((retiree_buffer t, begin_retiree_idx t, v) :: log).
Proof.
  intros I Hk H0 HC Hb Hv Hland t'. pose proof (at_entry _ _ _ _ _ _ _ I Hk HC H0) as Hmine.
  assert (Hlt : forall i, owns t' (retiree_buffer t) i -> owns t (retiree_buffer t) i /\ i <> begin_retiree_idx t).
  { intros i (_ & _ & Hi). cbn in Hi. split; [split; [done | split; [done | lia]] | lia]. }
  assert (I' : free_inv C0 (<[k := (At_top, t')]> ts) C log).
  { apply (inv_thread _ _ _ _ _ (At_entry, t)); [done | done | |].
    - intros q i Hq. destruct Hq as (<- & Hq). apply Hlt. split; [done | exact Hq].
    - intros [_ [Hbey | [? _]]]; [| done]. cbn in *.
      destruct (fi_beyond _ _ _ _ I k At_entry t Hk) as (d & Hd & Hle); [split; [done | right; split; [done | lia]] |].
      exists d. split; [done | lia]. }
  set (q0 := retiree_buffer t) in *. set (i0 := begin_retiree_idx t) in *. set (c' := mk_core _ _ _).
  assert (HC' : forall q d, <[q0 := c']> C !! q = Some d ->
    exists d0, C !! q = Some d0 /\ c_n d0 = c_n d /\ c_idx d0 = c_idx d /\
      (forall i, 0 <= i -> (q, i) <> (q0, i0) -> get (c_addrs d) i = get (c_addrs d0) i)).
  { intros q d [(<- & <-) | (Hne & Hq)]%lookup_insert_Some.
    - exists c. split_and!; try done. intros i Hi Hne. cbn. apply get_upd_ne; [lia | done |]. congruence.
    - by exists d. }
  pose proof (fi_same _ _ _ _ I q0) as Es. rewrite HC in Es. symmetry in Es.
  apply fmap_Some in Es as (c0 & HC0 & En0).
  assert (Hfresh : i0 < c_n c -> ((q0, i0) ∉ entry_of <$> log)).
  { intros Hn ([[q i] w] & [= <- <-] & Hin)%list_elem_of_fmap.
    destruct (fi_freed _ _ _ _ I q0 i0 w c Hin HC Hn) as (_ & Hno & _). by apply (Hno k At_entry t), Hmine. }
  split.
  - intros q. rewrite <- (fi_same _ _ _ _ I). destruct (decide (q = q0)) as [-> | Hne]; [| by rewrite lookup_insert_ne].
    by rewrite lookup_insert_eq, HC.
  - intros j p u q i Hj Hq. destruct (fi_claimed _ _ _ _ I' j p u q i Hj Hq) as (d & Hd & Hi & Hn).
    destruct (decide (q = q0)) as [-> | Hne]; [| exists d; by rewrite lookup_insert_ne].
    rewrite HC in Hd. injection Hd as <-. exists c'. by rewrite lookup_insert_eq.
  - intros j p u Hj Hbey. destruct (fi_beyond _ _ _ _ I' j p u Hj Hbey) as (d & Hd & Hn).
    destruct (decide (retiree_buffer u = q0)) as [Eq | Hne]; [| exists d; by rewrite lookup_insert_ne].
    rewrite Eq, HC in Hd. injection Hd as <-. exists c'. by rewrite Eq, lookup_insert_eq.
  - apply (fi_disjoint _ _ _ _ I').
  - intros q i w d [[= -> -> ->] | Hin]%elem_of_cons (d0 & Hq & En & Ei & _)%HC' Hi.
    + assert (d0 = c) as -> by congruence. specialize (Hmine ltac:(lia)).
      destruct (fi_claimed _ _ _ _ I k At_entry t q0 i0 Hk Hmine) as (x & Hx & Hxi & _).
      assert (x = c) as -> by congruence. split; [lia |]. split.
      * intros j p u [(-> & -> & ->) | [Hne H]]%upd_thread Hown; [by apply Hlt in Hown as [_ []] |].
        apply Hne, (fi_disjoint _ _ _ _ I j k p At_entry u t q0 i0); done.
      * exists c0. split; [done |]. split; [| done]. rewrite Hv. symmetry.
        apply (fi_entries _ _ _ _ I q0); [done | done | lia | apply Hfresh; lia].
    + destruct (fi_freed _ _ _ _ I' q i w d0 Hin Hq ltac:(lia)) as (H1 & H2 & H3). split; [lia | done].
  - rewrite filter_cons. case_decide as Hp; [| apply (fi_once _ _ _ _ I)]. cbn. apply NoDup_cons.
    split; [| apply (fi_once _ _ _ _ I)]. destruct Hp as (x & Hx & Hxi). cbn in Hx, Hxi.
    intros (e & Ee & [_ He]%list_elem_of_filter)%list_elem_of_fmap.
    apply Hfresh; [| apply list_elem_of_fmap; by exists e]. assert (x = c0) as -> by congruence. lia.
  - intros q i d x (d0 & Hq & _ & _ & Hg)%HC' Hx Hi [Hne Hin]%not_elem_of_cons.
    rewrite Hg by done. by apply (fi_entries _ _ _ _ I q).
Qed.

(** A step that changes neither the thread's range nor the shared entries. *)
Lemma inv_move C0 ts s s' log k pc t pc' :
  free_inv C0 ts (cores s) log -> ts !! k = Some (pc, t) -> cores s' = cores s ->
  (pc' = At_entry -> begin_retiree_idx t <> end_retiree_idx t) ->
  free_inv C0 (<[k := (pc', t)]> ts) (cores s') log.
Proof.
  intros I Hk -> Hpc. apply (inv_thread _ _ _ _ _ (pc, t)); [done | done | done |].
  intros [H0 Hb]. apply (fi_beyond _ _ _ _ I k pc t Hk). split; [done |]. left.
  destruct Hb as [? | [E ?]]; [done |]. specialize (Hpc E). lia.
Qed.

(** A step that leaves the thread without entries. *)
Lemma inv_drop C0 ts s s' log k th pc' t' :
  free_inv C0 ts (cores s) log -> ts !! k = Some th -> cores s' = cores s ->
  retiree_buffer t' = 0 \/ (pc' <> At_entry /\ begin_retiree_idx t' = end_retiree_idx t') ->
  free_inv C0 (<[k := (pc', t')]> ts) (cores s') log.
Proof.
  intros I Hk -> Hd. apply (inv_thread _ _ _ _ _ th); [done | done | |].
  - intros q i (E1 & E2 & E3). destruct Hd as [E | [_ E]]; [congruence | lia].
  - intros [H0 Hb]. destruct Hd as [E | [E1 E2]]; [done |]. destruct Hb as [? | [? _]]; [lia | done].
Qed.

Lemma take_retiree_inv g t g' : take_retiree g = Ok (t, g') ->
  cores (bufs g') = cores (bufs g) /\ freed g' = freed g /\ begin_retiree_idx t = 0 /\ end_retiree_idx t = 0.
Proof.
  unfold take_retiree. intros ([ab s] & H & E)%bind_inv. injection E as <- <-.
  split; [by eapply get_retiree_cores | done].
Qed.

Lemma claim_inv ab b e g ok g' : claim ab b e g = Ok (ok, g') -> freed g' = freed g /\
  if ok then exists d, ab <> 0 /\ store (bufs g) !! ab = Some d /\ ab_free_idx d = b /\
    cores (bufs g') = <[ab := mk_core (ab_n_addrs d) e (ab_addrs d)]> (cores (bufs g))
  else cores (bufs g') = cores (bufs g).
Proof.
  unfold claim. intros (d & [H0 Hd]%buf_load_inv & H)%bind_inv. destruct (Z.eqb_spec (ab_free_idx d) b) as [E | E].
  - apply bind_inv in H as (s & (d' & _ & Hd' & ->)%buf_modify_inv & E'). injection E' as <- <-.
    split; [done |]. exists d. rewrite Hd in Hd'. injection Hd' as <-. split_and!; try done.
    unfold cores. cbn. by rewrite fmap_insert.
  - by injection H as <- <-.
Qed.

(** What [free_entry] does, for a marked and for an unmarked entry. *)
Lemma free_entry_inv t g t' g' : free_entry t g = Ok (t', g') ->
  exists d, retiree_buffer t <> 0 /\ store (bufs g) !! retiree_buffer t = Some d /\
    0 <= begin_retiree_idx t < zlen (ab_addrs d) /\
    t' = mk_place (retiree_buffer t) (begin_retiree_idx t + 1) (end_retiree_idx t) /\
    let v := get (ab_addrs d) (begin_retiree_idx t) in
    (Z.land v 1 <> 0 /\ g' = g \/
     Z.land v 1 = 0 /\ Z.land v 3 = 0 /\ freed g' = (retiree_buffer t, begin_retiree_idx t, v) :: freed g /\
       cores (bufs g') = <[retiree_buffer t := mk_core (ab_n_addrs d) (ab_free_idx d)
         (upd (ab_addrs d) (begin_retiree_idx t) 2)]> (cores (bufs g))).
Proof.
  unfold free_entry. intros (d & [H0 Hd]%buf_load_inv & (v & Hv & (i & ->%int_chk_inv & H)%bind_inv)%bind_inv)%bind_inv.
  exists d. do 2 (split; [done |]).
  assert (Hb : 0 <= begin_retiree_idx t < zlen (ab_addrs d) /\ v = get (ab_addrs d) (begin_retiree_idx t)).
  { unfold rd in Hv. destruct (Z.leb_spec 0 (begin_retiree_idx t)); [| done].
    destruct (Z.ltb_spec (begin_retiree_idx t) (zlen (ab_addrs d))); [| done]. by injection Hv as <-. }
  destruct Hb as [Hb ->]. split; [done |].
  destruct (Z.eqb_spec (Z.land (get (ab_addrs d) (begin_retiree_idx t)) 1) 0) as [E1 | E1]; cbn [negb] in H.
  - apply bind_inv in H as ([] & Ha & (l & Hl & (s & (d' & _ & Hd' & ->)%buf_modify_inv & H)%bind_inv)%bind_inv).
    injection H as <- <-. split; [done |]. right. split; [done |].
    rewrite wr_ok in Hl by done. injection Hl as <-. rewrite Hd in Hd'. injection Hd' as <-.
    split; [| split; [done |]].
    + unfold assert in Ha. case_match eqn:E; [by apply Z.eqb_eq | done].
    + unfold cores. cbn. by rewrite fmap_insert.
  - injection H as <- <-. split; [done | by left].
Qed.

Lemma inv_turn C0 ts g k th th' g' :
  free_inv C0 ts (cores (bufs g)) (freed g) -> ts !! k = Some th -> free_turn th g = Ok (th', g') ->
  free_inv C0 (<[k := th']> ts) (cores (bufs g')) (freed g').
Proof.
  intros I Hk H. destruct th as [[| | | b | | |] t]; cbn [free_turn] in H.
  - assert (Hgo : forall u, go_on u = At_entry -> begin_retiree_idx u <> end_retiree_idx u).
    { intros u. unfold go_on. destruct (retiree_buffer u =? 0); [done |]. by destruct (Z.eqb_spec (begin_retiree_idx u) (end_retiree_idx u)). }
    destruct (retiree_buffer t =? 0).
    + apply bind_inv in H as ([u h] & (E1 & E2 & Eb & Ee)%take_retiree_inv & H). injection H as <- <-.
      rewrite E2. eapply inv_drop; [done.. |]. right. split; [| congruence]. intros E. apply (Hgo u E). congruence.
    + injection H as <- <-. eapply inv_move; [done | done | done | apply Hgo].
  - apply bind_inv in H as (d & _ & H). injection H as <- <-.
    eapply inv_move; [done | done | done |]. by case_match.
  - apply bind_inv in H as (d & _ & H). injection H as <- <-. by eapply inv_move.
  - apply bind_inv in H as (d & [H0 Hd]%buf_load_inv & (e & ->%claim_end & ([ok h] & [Ef Hc]%claim_inv & H)%bind_inv)%bind_inv).
    injection H as <- <-. rewrite Ef. destruct ok.
    + destruct Hc as (d' & _ & Hd' & <- & ->). rewrite Hd in Hd'. injection Hd' as <-.
      by apply (inv_claim _ _ _ _ _ (At_claim (ab_free_idx d), t) _ (core d)); [| | | apply cores_lookup |].
    + by eapply inv_move.
  - apply bind_inv in H as ([u h] & (d & H0 & Hd & Hb & -> & Hcase)%free_entry_inv & H). injection H as <- <-.
    destruct Hcase as [[_ ->] | (_ & H3 & -> & ->)].
    + apply (inv_thread _ _ _ _ _ (At_entry, t)); [done | done | |].
      * intros q i (<- & Hq & Hi). cbn in *. split; [done |]. split; [done | lia].
      * intros [_ [Hbey | [? _]]]; [| done]. cbn in *.
        destruct (fi_beyond _ _ _ _ I k At_entry t Hk) as (c & Hc & Hle); [split; [done | right; split; [done | lia]] |].
        exists c. split; [done | lia].
    + by apply (inv_entry _ _ _ _ _ _ (core d)); [| | | apply cores_lookup | | |].
  - apply bind_inv in H as (s & E%pop_retiree_cores & H). injection H as <- <-. by eapply inv_move.
  - apply bind_inv in H as (s & E%unref_cores & H). injection H as <- <-.
    eapply inv_drop; [done.. | by left].
Qed.

(** Threads that have no buffer yet. *)
Definition frees_start (st : frees_t) : Prop :=
  freed (shared st) = [] /\ forall k th, threads st !! k = Some th -> th.1 = At_top /\ retiree_buffer th.2 = 0.

Lemma inv_start st : frees_start st ->
  free_inv (cores (bufs (shared st))) (threads st) (cores (bufs (shared st))) (freed (shared st)).
Proof.
  intros [-> Hts]. split.
  - done.
  - intros k pc t q i [_ E]%Hts (<- & Hq & _). done.
  - intros k pc t [_ E]%Hts [H0 _]. done.
  - intros k k' pc pc' t t' q i [_ E]%Hts _ (<- & Hq & _). done.
  - intros q i v c Hin. by apply not_elem_of_nil in Hin.
  - constructor.
  - intros q i c c0 Hc Hc0 _ _. congruence.
Qed.

Lemma inv_reachable st st' : frees_start st -> rtc frees_step st st' ->
  free_inv (cores (bufs (shared st))) (threads st') (cores (bufs (shared st'))) (freed (shared st')).
Proof.
  intros H0. apply (rtc_ind_r (fun x => free_inv (cores (bufs (shared st))) (threads x) (cores (bufs (shared x))) (freed (shared x)))).
  - by apply inv_start.
  - intros x y _ Hstep I. destruct Hstep as [k th th' ts g g' Hk Ht]. by eapply inv_turn.
Qed.

(** C6: Whatever the interleaving, no entry of a retired buffer is handed to
    [free] twice, and what is handed over for an entry is the node that was
    in it, unmarked, when the threads set out. *)
Theorem freed_at_most_once st st' : frees_start st -> rtc frees_step st st' ->
  let C := cores (bufs (shared st)) in
  NoDup (entry_of <$> filter (proper C) (freed (shared st'))) /\
  (forall q i v, (q, i, v) ∈ freed (shared st') -> proper C (q, i, v) ->
     exists d, store (bufs (shared st)) !! q = Some d /\ get (ab_addrs d) i = v /\ Z.land v 3 = 0).
Proof.
  intros H0 Hr C. pose proof (inv_reachable st st' H0 Hr) as I.
  split; [apply (fi_once _ _ _ _ I) |]. intros q i v Hin (c0 & Hc0 & Hi). cbn in Hc0, Hi.
  pose proof (fi_same _ _ _ _ I q) as Es. fold C in Es. rewrite Hc0 in Es. apply fmap_Some in Es as (c & Hc & En).
  destruct (fi_freed _ _ _ _ I q i v c Hin Hc ltac:(lia)) as (_ & _ & c1 & Hc1 & Hv).
  unfold cores in Hc1. rewrite lookup_fmap in Hc1. apply fmap_Some in Hc1 as (d & Hd & ->). by exists d.
Qed.

(** ** Schedules *)

Lemma free_sched_cons k ks st st' : free_sched (k :: ks) st = Ok st' ->
  exists st1, rtc frees_step st st1 /\ free_sched ks st1 = Ok st'.
Proof.
  assert (Herr : forall e js, foldl (fun r k => let! st := r in match threads st !! k with
    | Some th => let! ' (th, g) := free_turn th (shared st) in Ok (mk_frees (<[k := th]> (threads st)) g)
    | None => Ok st end) (Err e) js = Err e) by (intros e js; by induction js).
  unfold free_sched. cbn [foldl]. rewrite bind_ok. destruct st as [ts g]. cbn [threads shared].
  destruct (ts !! k) as [th |] eqn:Hk; [| by exists (mk_frees ts g)].
  destruct (free_turn th g) as [[th' g'] | e] eqn:Ht; [rewrite bind_ok | by rewrite bind_err, Herr].
  intros H. exists (mk_frees (<[k := th']> ts) g'). split; [| done]. apply rtc_once. by eapply free_by.
Qed.

Lemma free_sched_rtc ks st st' : free_sched ks st = Ok st' -> rtc frees_step st st'.
Proof.
  revert st. induction ks as [|k ks IH]; intros st; [intros [= ->]; apply rtc_refl |].
  intros (st1 & H1 & H2)%free_sched_cons. etrans; [exact H1 | by apply IH].
Qed.

(** One retired aggregate of one entry, [16]; behind it an address that an
    earlier iteration left there.  Two threads are to free. *)
Definition stale_retiree : buffers_t :=
  mk_buffers {[ 0x10 := with_fields (fresh_buffer 0x1000 (16 :: 32 :: zeros 510) [0] 1 512) 0 1 0 0 ]}
    4 0 0x10 0x10 0 0 [] [].

Definition two_threads : frees_t :=
  mk_frees {[ 0%nat := (At_top, mk_place 0 0 0); 1%nat := (At_top, mk_place 0 0 0) ]}
    (mk_shared stale_retiree []).

(** Between the test of [free_idx] and the second reading, thread 0 claims
    the last range; thread 1 then claims an empty one behind it. *)
Definition overrun_schedule : list nat := [0; 0; 1; 1; 0; 0; 1; 1; 1; 0]%nat.

(** C39: [forkscan_util_free_ptrs] reads [free_idx] once for the test and once
    for the range: of two threads at the end of a buffer, one can claim the
    empty range behind the last entry and frees what happens to be there.
    Here that is the address [32], which nobody retired. *)
Theorem free_overruns_buffer :
  exists st, rtc frees_step two_threads st /\ freed (shared st) = [(0x10, 0, 16); (0x10, 1, 32)] /\
    ab_n_addrs <$> store stale_retiree !! 0x10 = Some 1.
Proof.
  destruct (free_sched overrun_schedule two_threads) as [st | e] eqn:E; [| by vm_compute in E].
  exists st. split; [by eapply free_sched_rtc |]. split; [| by vm_compute].
  vm_compute in E. by injection E as <-.
Qed.

Lemma freed_at_most_once_witness :
  exists st, rtc frees_step two_threads st /\ length (freed (shared st)) = 2%nat /\
    NoDup (entry_of <$> filter (proper (cores stale_retiree)) (freed (shared st))).
Proof.
  destruct (free_sched overrun_schedule two_threads) as [st | e] eqn:E; [| by vm_compute in E].
  exists st. split; [by eapply free_sched_rtc |]. split; [vm_compute in E; by injection E as <- |].
  apply (freed_at_most_once two_threads st); [| by eapply free_sched_rtc].
  split; [done |]. intros k th Hk. cbn [two_threads threads] in Hk.
  apply lookup_insert_Some in Hk as [[_ <-] | [_ [_ <-]%lookup_singleton_Some]]; done.
Defined.

(** * One thread *)

(** What freeing the first [i] of the entries [a] of the buffer [ab] leaves
    in the record, the latest first. *)
Fixpoint freed_upto (ab : Z) (a : list Z) (i : nat) : list freed_t :=
  match i with
  | O => []
  | Datatypes.S j =>
      let v := get a (Z.of_nat j) in
      (if Z.land v 1 =? 0 then [(ab, Z.of_nat j, v)] else []) ++ freed_upto ab a j
  end.

(** A retired aggregate of which nothing has been freed: its entries are
    marked or 4-aligned. *)
Record retired (d : addr_buffer_t) : Prop := {
  re_flag : ab_is_aggregate d = 1;
  re_idx : ab_free_idx d = 0;
  re_ref : ab_ref_count d = 0;
  re_room : 0 <= ab_n_addrs d <= zlen (ab_addrs d);
  re_n : ab_n_addrs d <= INT_MAX - FREE_RANGE_SZ;
  re_entries : forall i, 0 <= i < ab_n_addrs d ->
    Z.land (get (ab_addrs d) i) 1 <> 0 \/ Z.land (get (ab_addrs d) i) 3 = 0 }.

Section one_thread.
Context (ab : Z) (d0 : addr_buffer_t) (l : list Z) (log : list freed_t).
Context (Hd0 : retired d0).

(** The thread has dealt with the first [i] entries and claimed those below
    [end_retiree_idx]. *)
Record draining (i : nat) (t : place_t) (g : shared_t) : Prop := {
  dn_place : retiree_buffer t = ab /\ begin_retiree_idx t = Z.of_nat i;
  dn_end : Z.of_nat i <= end_retiree_idx t <= ab_n_addrs d0;
  dn_retirees : retirees (bufs g) (ab :: l);
  dn_data : exists d, store (bufs g) !! ab = Some d /\ ab_n_addrs d = ab_n_addrs d0 /\
    ab_free_idx d = end_retiree_idx t /\ ab_ref_count d = 1 /\ ab_is_aggregate d = 1 /\
    zlen (ab_addrs d) = zlen (ab_addrs d0) /\
    (forall j, Z.of_nat i <= j -> get (ab_addrs d) j = get (ab_addrs d0) j);
  dn_freed : freed g = freed_upto ab (ab_addrs d0) i ++ log }.

Lemma take_wp g : retirees (bufs g) (ab :: l) -> store (bufs g) !! ab = Some d0 -> freed g = log ->
  wp (take_retiree g) (fun '(t, g') => draining 0 t g').
Proof using Hd0.
  intros Hr Hd Hlog. destruct Hd0 as [G1 G2 G3 G4 G5 G6]. destruct g as [s lg]. cbn in *. subst lg.
  pose proof (rt_chain _ _ Hr) as (Ef & Hab & _).
  unfold take_retiree, forkscan_buffer_get_retiree_buffer. cbn [bufs]. rewrite Ef.
  apply Z.eqb_neq in Hab as Hab'. rewrite Hab'. do 2 wp_step.
  eapply wp_buf_load; [done.. |]. rewrite G3. wp_step. wp_step; [done |]. wp_step.
  eapply wp_buf_modify; [done.. |]. do 2 wp_step. split; cbn; [done | lia | by eapply retirees_modify | | done].
  eexists. split; [apply lookup_insert_eq |]. done.
Qed.

Lemma entry_wp i t g : draining i t g -> Z.of_nat i < end_retiree_idx t ->
  wp (free_entry t g) (fun '(t', g') => draining (Datatypes.S i) t' g').
Proof using Hd0.
  intros [[Et Ei] He Hr (d & Hd & En & Ef & Erf & Eag & Ez & Hg) Hlog] Hlt.
  destruct Hd0 as [G1 G2 G3 G4 G5 G6]. pose proof (rt_chain _ _ Hr) as (_ & Hab & _).
  unfold INT_MAX, FREE_RANGE_SZ in G5. unfold free_entry. rewrite Et, Ei. wp_step. eapply wp_buf_load; [done.. |].
  wp_step. wp_step; [lia |]. wp_step. wp_step; [unfold int_ok, INT_MIN, INT_MAX; lia |].
  rewrite (Hg (Z.of_nat i)) by lia. specialize (G6 (Z.of_nat i) ltac:(lia)).
  destruct (Z.eqb_spec (Z.land (get (ab_addrs d0) (Z.of_nat i)) 1) 0) as [E1 | E1]; cbn [negb].
  - wp_step. wp_step; [apply Z.eqb_eq; by destruct G6 |]. wp_step. wp_step; [lia |].
    wp_step. eapply wp_buf_modify; [done.. |]. wp_step.
    split; cbn [retiree_buffer begin_retiree_idx end_retiree_idx bufs freed].
    + split; [done | lia].
    + lia.
    + by eapply retirees_modify.
    + eexists. split; [apply lookup_insert_eq |]. cbn. rewrite zlen_upd. split_and!; try done.
      intros j Hj. rewrite get_upd_ne by lia. apply Hg. lia.
    + cbn. rewrite E1. cbn. by rewrite Hlog.
  - wp_step. split; cbn [retiree_buffer begin_retiree_idx end_retiree_idx].
    + split; [done | lia].
    + lia.
    + done.
    + exists d. split_and!; try done. intros j Hj. apply Hg. lia.
    + cbn. apply Z.eqb_neq in E1 as ->. exact Hlog.
Qed.

Lemma claim_wp i t g d : draining i t g -> Z.of_nat i = end_retiree_idx t -> Z.of_nat i < ab_n_addrs d0 ->
  store (bufs g) !! ab = Some d ->
  let e := Z.min (ab_n_addrs d0) (Z.of_nat i + FREE_RANGE_SZ) in
  wp (claim ab (Z.of_nat i) e g) (fun '(ok, g') => ok = true /\ draining i (mk_place ab (Z.of_nat i) e) g').
Proof using Hd0.
  intros [[Et Ei] He Hr (d' & Hd & En & Ef & Erf & Eag & Ez & Hg) Hlog] Heq Hlt Hd' e.
  rewrite Hd in Hd'. injection Hd' as ->. pose proof (rt_chain _ _ Hr) as (_ & Hab & _).
  unfold FREE_RANGE_SZ in e. unfold claim. wp_step. eapply wp_buf_load; [done.. |].
  rewrite Ef, <- Heq, Z.eqb_refl. wp_step. eapply wp_buf_modify; [done.. |]. wp_step. split; [done |].
  split; cbn [retiree_buffer begin_retiree_idx end_retiree_idx bufs freed set_bufs].
  - done.
  - unfold e. lia.
  - by eapply retirees_modify.
  - eexists. split; [apply lookup_insert_eq |]. by split_and!.
  - done.
Qed.

Lemma iteration_wp i t g : draining i t g -> Z.of_nat i < ab_n_addrs d0 ->
  wp (free_iteration t g) (fun '(t', g', ret) => ret = false /\ draining (Datatypes.S i) t' g').
Proof using Hd0.
  intros D Hlt. pose proof D as [[Et Ei] He Hr (d & Hd & En & Ef & _) _].
  pose proof (rt_chain _ _ Hr) as (_ & Hab & _). apply Z.eqb_neq in Hab as Hab'.
  pose proof (re_n _ Hd0) as Hn. unfold INT_MAX, FREE_RANGE_SZ in Hn.
  unfold free_iteration. rewrite Et, Hab'. wp_step. wp_step. rewrite Et, Hab', Ei.
  destruct (Z.eqb_spec (Z.of_nat i) (end_retiree_idx t)) as [E | E].
  - wp_step. eapply wp_buf_load; [done.. |]. rewrite Ef, En, <- E, Z.geb_leb.
    destruct (Z.leb_spec (ab_n_addrs d0) (Z.of_nat i)) as [? | _]; [lia |]. wp_step.
    unfold range_end. wp_step. wp_step; [unfold int_ok, INT_MIN, INT_MAX, FREE_RANGE_SZ; lia |]. wp_step.
    rewrite MIN_OF_min. wp_step.
    eapply wp_mono; [by eapply claim_wp |]. intros [ok g'] [-> D']. wp_step.
    eapply wp_mono; [apply (entry_wp i); [exact D' | cbn; unfold FREE_RANGE_SZ; lia] |].
    intros [t' g''] D''. by wp_step.
  - wp_step. eapply wp_mono; [apply (entry_wp i); [exact D | lia] |].
    intros [t' g''] D''. by wp_step.
Qed.

(** The iteration after the last entry gives the buffer back. *)
Lemma last_iteration_wp t g : draining (Z.to_nat (ab_n_addrs d0)) t g ->
  wp (free_iteration t g) (fun '(t', g', ret) => ret = false /\ retiree_buffer t' = 0 /\
    retirees (bufs g') l /\ freed g' = freed_upto ab (ab_addrs d0) (Z.to_nat (ab_n_addrs d0)) ++ log).
Proof using Hd0.
  intros [[Et Ei] He Hr (d & Hd & En & Ef & Erf & Eag & _) Hlog]. pose proof (re_room _ Hd0) as Hn.
  pose proof (rt_chain _ _ Hr) as (_ & Hab & _). apply Z.eqb_neq in Hab as Hab'.
  assert (Ee : end_retiree_idx t = ab_n_addrs d0) by lia.
  unfold free_iteration. rewrite Et, Hab'. do 2 wp_step. rewrite Et, Hab', Ei, Ee, Z2Nat.id, Z.eqb_refl by lia.
  wp_step. eapply wp_buf_load; [done.. |]. rewrite Ef, En, Ee, Z.geb_leb, Z.leb_refl. wp_step.
  eapply wp_mono; [apply (pop_wp _ [] ab l Hr); by left |]. intros s1 (Hr1 & _ & Hst). cbn in Hr1. wp_step.
  eapply (unref_last_wp s1 l ab d); [done | | | by rewrite Hst | done | done | lia |].
  - pose proof (rt_nodup _ _ Hr) as Hnd. by apply NoDup_cons in Hnd as [? _].
  - done.
  - intros s2 Hr2. by wp_step.
Qed.

Lemma from_draining (Q : place_t * shared_t * bool -> Prop) g :
  retirees (bufs g) (ab :: l) -> store (bufs g) !! ab = Some d0 -> freed g = log ->
  (forall t g', draining 0 t g' -> wp (free_iteration t g') Q) ->
  wp (free_iteration (mk_place 0 0 0) g) Q.
Proof using Hd0.
  intros Hr Hd Hlog HQ. unfold free_iteration at 1. cbn [retiree_buffer Z.eqb]. wp_step.
  eapply wp_mono; [by apply take_wp |]. intros [t g'] D. specialize (HQ t g' D).
  pose proof (rt_chain _ _ Hr) as (_ & Hab & _). apply Z.eqb_neq in Hab as Hab'.
  unfold free_iteration in HQ. rewrite (proj1 (dn_place _ _ _ D)), Hab' in *. rewrite bind_ok in HQ.
  rewrite (proj1 (dn_place _ _ _ D)), Hab' in HQ. exact HQ.
Qed.

Lemma free_loop_wp k i t g n :
  draining i t g -> (i + k = Z.to_nat (ab_n_addrs d0))%nat -> n = ab_n_addrs d0 + 1 ->
  wp (loop (Datatypes.S (Datatypes.S k)) (free_step n) (Z.of_nat i, t, g))
    (fun '(t', g') => retiree_buffer t' = 0 /\
      retirees (bufs g') l /\ freed g' = freed_upto ab (ab_addrs d0) (Z.to_nat (ab_n_addrs d0)) ++ log).
Proof using Hd0.
  pose proof (re_room _ Hd0) as Hn.
  revert i t g. induction k as [|k IH]; intros i t g D Hik ->; rewrite loop_S; unfold free_step at 1;
    rewrite (proj2 (Z.ltb_lt _ _)) by lia; do 2 wp_step.
  - eapply wp_mono; [apply last_iteration_wp; by replace (Z.to_nat (ab_n_addrs d0)) with i by lia |].
    intros [[t' g'] ret] (-> & H). wp_step. rewrite loop_S. unfold free_step. rewrite (proj2 (Z.ltb_ge _ _)) by lia.
    by repeat wp_step.
  - eapply wp_mono; [apply (iteration_wp i); [done | lia] |].
    intros [[t' g'] ret] (-> & D'). wp_step. replace (Z.of_nat i + 1) with (Z.of_nat (Datatypes.S i)) by lia.
    apply IH; [done | lia | done].
Qed.
End one_thread.

Lemma free_alone_wp ab d l g :
  retired d -> retirees (bufs g) (ab :: l) -> store (bufs g) !! ab = Some d ->
  wp (forkscan_util_free_ptrs (ab_n_addrs d + 1) (mk_place 0 0 0) g) (fun '(t', g') => retiree_buffer t' = 0 /\
    retirees (bufs g') l /\ freed g' = freed_upto ab (ab_addrs d) (Z.to_nat (ab_n_addrs d)) ++ freed g).
Proof.
  intros Hd Hr Hs. pose proof (re_room _ Hd) as Hn. unfold forkscan_util_free_ptrs.
  replace (Z.to_nat (ab_n_addrs d + 1)) with (Datatypes.S (Z.to_nat (ab_n_addrs d))) by lia.
  rewrite loop_S. unfold free_step at 1. rewrite (proj2 (Z.ltb_lt _ _)) by lia. do 2 wp_step.
  eapply (from_draining ab d l (freed g)); [done.. |]. intros t g' D.
  destruct (Z.to_nat (ab_n_addrs d)) as [|k] eqn:Ek.
  - eapply wp_mono; [apply (last_iteration_wp ab d l (freed g)); [done | by rewrite Ek] |].
    intros [[t' g''] ret] (-> & H). rewrite Ek in H. wp_step. rewrite loop_S. unfold free_step.
    rewrite (proj2 (Z.ltb_ge _ _)) by lia. by repeat wp_step.
  - eapply wp_mono; [apply (iteration_wp ab d l (freed g) Hd 0); [done | lia] |].
    intros [[t' g''] ret] (-> & D'). wp_step. rewrite <- Ek.
    replace (Z.to_nat (ab_n_addrs d)) with (Datatypes.S k) at 1.
    apply (free_loop_wp ab d l (freed g) Hd k 1); [done | lia | done].
Qed.

(** One thread alone, with as many turns as a retired aggregate has entries
    and one more, frees exactly its unmarked entries, each once and in order,
    touches nothing behind them, and hands the aggregate back. *)
Theorem free_ptrs_alone ab d l g :
  retired d -> retirees (bufs g) (ab :: l) -> store (bufs g) !! ab = Some d ->
  exists t' g', forkscan_util_free_ptrs (ab_n_addrs d + 1) (mk_place 0 0 0) g = Ok (t', g') /\
    retiree_buffer t' = 0 /\ retirees (bufs g') l /\
    freed g' = freed_upto ab (ab_addrs d) (Z.to_nat (ab_n_addrs d)) ++ freed g.
Proof.
  intros Hd Hr Hs. pose proof (free_alone_wp ab d l g Hd Hr Hs) as H.
  apply wp_iff in H as ([t' g'] & E & H). by exists t', g'.
Qed.

Definition mixed_retiree : buffers_t :=
  mk_buffers {[ 0x10 := with_fields (fresh_buffer 0x1000 ([16; 33; 48] ++ zeros 509) [0] 1 512) 0 3 0 0 ]}
    4 0 0x10 0x10 0 0 [] [].

Lemma free_ptrs_alone_witness :
  exists t' g', forkscan_util_free_ptrs 4 (mk_place 0 0 0) (mk_shared mixed_retiree []) = Ok (t', g') /\
    retiree_buffer t' = 0 /\ retirees (bufs g') [] /\ freed g' = [(0x10, 2, 48); (0x10, 0, 16)].
Proof.
  apply (free_ptrs_alone 0x10 (with_fields (fresh_buffer 0x1000 ([16; 33; 48] ++ zeros 509) [0] 1 512) 0 3 0 0)
    [] (mk_shared mixed_retiree [])).
  - split; try (by vm_compute). intros i Hi.
    assert (i = 0 \/ i = 1 \/ i = 2) as [-> | [-> | ->]] by (cbn in Hi; lia); vm_compute; [right | left | right]; done.
  - split; [| apply NoDup_singleton | done]. do 2 (split; [done |]). eexists. by split; [vm_compute |].
  - by vm_compute.
Defined.
