(* ===== verification/FreeList.v ===== *)
(** util.c: the stack of free lists.

    Threads push lists of free memory and pop them again.  The stack is under
    [free_list_list_lock], but [forkscan_util_pop_free_list] first looks
    whether it is empty without the lock, and it reads and frees the node it
    took after it has let the lock go.  Each of these is a step of its own
    here, the critical sections are one step each, and the nodes live in a
    store, so that a read of a freed node would show.  [MALLOC] is a
    parameter: it answers with an address that is not in use, or with null. *)
From S2P Require Import Prelude.

(** [free_list_node_t] *)
Record node_t : Type := mk_node {
  next : Z;
  free_list : Z }.

#[local] Abbreviation store_t := (gmap Z node_t).

(** A thread in none of the two functions; in
    [forkscan_util_push_free_list], with its node; in
    [forkscan_util_pop_free_list] before the lock is taken; with the node it
    took (or null); about to return. *)
Inductive pc_t : Type :=
  | Idle
  | Pushing (node free_list : Z)
  | Popping
  | Taken (node : Z)
  | Returns (free_list : Z).

(** What is seen of the threads: a list is pushed; a thread calls
    [forkscan_util_pop_free_list], looks at the top of the stack for the last
    time, and returns with a list. *)
Inductive event_t : Type :=
  | PushedList (free_list : Z)
  | Called (thread : nat)
  | Looked (thread : nat)
  | Returned (thread : nat) (free_list : Z).

Record lists_t : Type := mk_lists {
  nodes : store_t;
  free_list_list : Z;
  pcs : list pc_t }.

(** The two critical sections. *)
Definition push_locked (node free_list : Z) (N : store_t) (head : Z) : res (store_t * Z) :=
  if node =? 0 then Err NullDeref else Ok (<[node := mk_node head free_list]> N, node).

Definition pop_locked (N : store_t) (head : Z) : res (Z * Z) :=
  let node := head in
  if negb (node =? 0) then
    match N !! node with
    | None => Err NullDeref
    | Some d => Ok (node, next d)
    end
  else Ok (node, head).

(** The read of the list and [FREE] of the node, outside the lock. *)
Definition finish_pop (node : Z) (N : store_t) : res (Z * store_t) :=
  if negb (node =? 0) then
    match N !! node with
    | None => Err NullDeref
    | Some d => Ok (free_list d, delete node N)
    end
  else Ok (0, N).

(** What thread [i], in one of the functions, does next. *)
Definition list_step (i : nat) (p : pc_t) (N : store_t) (head : Z) : res (pc_t * store_t * Z * list event_t) :=
  match p with
  | Idle => Ok (Idle, N, head, [])
  | Pushing node v =>
      let! ' (N, head) := push_locked node v N head in
      Ok (Idle, N, head, [PushedList v])
  | Popping =>
      let! ' (node, head) := pop_locked N head in
      Ok (Taken node, N, head, [Looked i])
  | Taken node =>
      let! ' (v, N) := finish_pop node N in
      Ok (Returns v, N, head, [])
  | Returns v => Ok (Idle, N, head, [Returned i v])
  end.

(** The first look, without the lock. *)
Definition pop_test (i : nat) (head : Z) : pc_t * list event_t :=
  if head =? 0 then (Returns 0, [Called i; Looked i]) else (Popping, [Called i]).

(** A successful [MALLOC]; the node's memory is not yet written. *)
Definition malloced (node : Z) (d : node_t) (N : store_t) : Prop := node <> 0 /\ N !! node = None.

Inductive lists_step (s : lists_t) : list event_t -> lists_t -> Prop :=
  | pushes i v node d : pcs s !! i = Some Idle -> malloced node d (nodes s) ->
      lists_step s [] (mk_lists (<[node := d]> (nodes s)) (free_list_list s) (<[i := Pushing node v]> (pcs s)))
  | pops i p ev : pcs s !! i = Some Idle -> pop_test i (free_list_list s) = (p, ev) ->
      lists_step s ev (mk_lists (nodes s) (free_list_list s) (<[i := p]> (pcs s)))
  | goes_on i p p' N head ev : pcs s !! i = Some p -> list_step i p (nodes s) (free_list_list s) = Ok (p', N, head, ev) ->
      lists_step s ev (mk_lists N head (<[i := p']> (pcs s))).

Inductive lists_run (s : lists_t) : list event_t -> lists_t -> Prop :=
  | lists_stay : lists_run s [] s
  | lists_go tr s1 ev s2 : lists_run s tr s1 -> lists_step s1 ev s2 -> lists_run s (tr ++ ev) s2.

Definition lists_start (n : nat) : lists_t := mk_lists ∅ 0 (replicate n Idle).

(** ** The specification *)

(** A stack of lists, and what is known of each thread: it is not in a pop, it
    has not looked yet, or it has been given a list, null if there was none. *)
Inductive owing_t : Type :=
  | NoPop
  | ToLook
  | Given (free_list : Z).

Record stack_t : Type := mk_stack {
  lists : list Z;
  owing : list owing_t }.

(** A push, and a pop at the last look, take effect at once; a pop returns what
    the stack gave. *)
Inductive stack_step (k : stack_t) : event_t -> stack_t -> Prop :=
  | stack_push v : stack_step k (PushedList v) (mk_stack (v :: lists k) (owing k))
  | stack_call i : owing k !! i = Some NoPop -> stack_step k (Called i) (mk_stack (lists k) (<[i := ToLook]> (owing k)))
  | stack_look i : owing k !! i = Some ToLook ->
      stack_step k (Looked i) (mk_stack (tail (lists k)) (<[i := Given (hd 0 (lists k))]> (owing k)))
  | stack_return i v : owing k !! i = Some (Given v) ->
      stack_step k (Returned i v) (mk_stack (lists k) (<[i := NoPop]> (owing k))).

Inductive stack_run (k : stack_t) : list event_t -> stack_t -> Prop :=
  | stack_stays : stack_run k [] k
  | stack_goes tr k1 x k2 : stack_run k tr k1 -> stack_step k1 x k2 -> stack_run k (tr ++ [x]) k2.

Lemma stack_run_app k tr k1 tr' k2 : stack_run k tr k1 -> stack_run k1 tr' k2 -> stack_run k (tr ++ tr') k2.
Proof.
  intros H1 H2. induction H2 as [| tr2 k3 x k4 _ IH S]; [by rewrite app_nil_r |]. rewrite app_assoc. by eapply stack_goes.
Qed.

Lemma stack_run_one k x k' : stack_step k x k' -> stack_run k [x] k'.
Proof. intros S. exact (stack_goes k [] k x k' (stack_stays k) S). Qed.

Definition stack_start (n : nat) : stack_t := mk_stack [] (replicate n NoPop).

(** * The invariant *)

(** The node a thread has to itself. *)
Definition owned (p : pc_t) : list Z :=
  match p with
  | Pushing node _ => [node]
  | Taken node => if node =? 0 then [] else [node]
  | _ => []
  end.

(** Where the thread is in a pop: once it has taken a node, it has what is in the
    node. *)
Definition owing_of (N : store_t) (p : pc_t) : owing_t :=
  match p with
  | Idle | Pushing _ _ => NoPop
  | Popping => ToLook
  | Taken node => Given (if node =? 0 then 0 else default 0 (free_list <$> N !! node))
  | Returns v => Given v
  end.

(** The nodes on the stack, and their lists, from the top. *)
Record lists_inv (l : list Z) (s : lists_t) : Prop := {
  li_chain : lchain next (nodes s) (free_list_list s) l;
  li_nodup : NoDup (l ++ (pcs s ≫= owned));
  li_owned : forall q, q ∈ pcs s ≫= owned -> q <> 0 /\ is_Some (nodes s !! q) }.

Definition lists_on (N : store_t) (l : list Z) : list Z := omap (fun q => free_list <$> N !! q) l.

(** The stack that the code's state stands for. *)
Definition seen (l : list Z) (s : lists_t) : stack_t := mk_stack (lists_on (nodes s) l) (owing_of (nodes s) <$> pcs s).

Section step.
Context (l : list Z) (s : lists_t) (i : nat) (p : pc_t).
Context (I : lists_inv l s) (Hi : pcs s !! i = Some p).

Definition others : list Z := delete i (pcs s) ≫= owned.

Lemma nodup_others : NoDup (l ++ owned p ++ others).
Proof using I Hi. unfold others. rewrite <- (bind_lookup owned (pcs s) i p Hi). apply I. Qed.

Lemma owned_some q : q ∈ owned p \/ q ∈ others -> q <> 0 /\ is_Some (nodes s !! q).
Proof using I Hi. intros H. apply I. rewrite (bind_lookup owned (pcs s) i p Hi). by apply elem_of_app. Qed.

(** What is to be shown of a step of thread [i] from [p] to [p']. *)
Lemma inv_update l' N' head' p' :
  lchain next N' head' l' -> NoDup (l' ++ owned p' ++ others) ->
  (forall q, q ∈ owned p' -> q <> 0 /\ is_Some (N' !! q)) ->
  (forall q, q ∈ others -> N' !! q = nodes s !! q) ->
  lists_inv l' (mk_lists N' head' (<[i := p']> (pcs s))).
Proof using I Hi.
  intros Hc Hnd Ho Hr. split; cbn; [done | by rewrite (bind_insert owned (pcs s) i p p' Hi) |].
  intros q. rewrite (bind_insert owned (pcs s) i p p' Hi), elem_of_app. intros [Hq | Hq]; [by apply Ho |].
  fold others in Hq. rewrite Hr by done. apply owned_some. by right.
Qed.

(** The other threads are where they were. *)
Lemma seen_update l' N' head' p' : (forall q, q ∈ others -> N' !! q = nodes s !! q) ->
  seen l' (mk_lists N' head' (<[i := p']> (pcs s))) =
  mk_stack (lists_on N' l') (<[i := owing_of N' p']> (owing (seen l s))).
Proof using Hi.
  intros Hr. unfold seen. cbn. f_equal. apply list_eq. intros j. rewrite list_lookup_fmap.
  destruct (decide (i = j)) as [<- | Hne].
  - pose proof (lookup_lt_Some _ _ _ Hi). by rewrite !list_lookup_insert_eq by (rewrite ?length_fmap; done).
  - rewrite !list_lookup_insert_ne, ?list_lookup_fmap by done. destruct (pcs s !! j) as [r |] eqn:Hj; [| done]. cbn. f_equal.
    destruct r as [| | | node |]; try done. cbn. destruct (Z.eqb_spec node 0) as [| Hn]; [done |]. rewrite Hr; [done |].
    apply list_elem_of_bind. exists (Taken node). split; [| eapply elem_of_delete; [exact Hj | by apply not_eq_sym]].
    cbn. apply Z.eqb_neq in Hn. rewrite Hn. left.
Qed.

Lemma seen_here : owing (seen l s) !! i = Some (owing_of (nodes s) p).
Proof using Hi. unfold seen. cbn. by rewrite list_lookup_fmap, Hi. Qed.

Lemma seen_same l' N' head' p' : (forall q, q ∈ others -> N' !! q = nodes s !! q) -> owing_of N' p' = owing_of (nodes s) p ->
  lists_on N' l' = lists_on (nodes s) l -> seen l' (mk_lists N' head' (<[i := p']> (pcs s))) = seen l s.
Proof using Hi.
  intros Hr Ho El. rewrite seen_update by done. rewrite Ho, El, list_insert_id by apply seen_here. by unfold seen.
Qed.
End step.

(** The stack's elements do not depend on other nodes. *)
Lemma lists_on_same N N' l : (forall q, q ∈ l -> N' !! q = N !! q) -> lists_on N' l = lists_on N l.
Proof.
  unfold lists_on. induction l as [| x l IH]; intros H; [done |]. cbn. rewrite H by left.
  rewrite IH; [done |]. intros q Hq. apply H. by right.
Qed.

Lemma chain_same N N' head (l : list Z) : lchain next N head l -> (forall q, q ∈ l -> N' !! q = N !! q) -> lchain next N' head l.
Proof. intros Hc H. eapply lchain_frame; [exact Hc |]. intros q Hq. by rewrite H. Qed.

Definition lists_post (l : list Z) (s : lists_t) (ev : list event_t) (s' : lists_t) : Prop :=
  exists l', lists_inv l' s' /\ stack_run (seen l s) ev (seen l' s').

Lemma push_malloc_post l s i v node d : lists_inv l s -> pcs s !! i = Some Idle -> malloced node d (nodes s) ->
  lists_post l s [] (mk_lists (<[node := d]> (nodes s)) (free_list_list s) (<[i := Pushing node v]> (pcs s))).
Proof.
  intros I Hi [H0 Hn]. pose proof (nodup_others l s i Idle I Hi) as Hnd. cbn in Hnd.
  assert (Hl : node ∉ l). { intros Hin. destruct (lchain_some _ _ _ _ _ (li_chain _ _ I) Hin) as (_ & d' & E). by rewrite Hn in E. }
  assert (Ho : node ∉ others s i).
  { intros Hin. destruct (owned_some l s i Idle I Hi node ltac:(by right)) as (_ & [d' E]). by rewrite Hn in E. }
  assert (Hne : forall q, q ∈ l -> <[node := d]> (nodes s) !! q = nodes s !! q).
  { intros q Hq. apply lookup_insert_ne. by intros <-. }
  assert (Hr : forall q, q ∈ others s i -> <[node := d]> (nodes s) !! q = nodes s !! q).
  { intros q Hq. apply lookup_insert_ne. by intros <-. }
  exists l. split; [| rewrite (seen_same l s i Idle Hi); [apply stack_stays | done | done | by apply lists_on_same]].
  apply (inv_update l s i Idle I Hi); cbn; [by eapply chain_same; [apply I |] | | | done].
  - apply NoDup_app in Hnd as (H1 & H2 & H3). apply NoDup_app. split; [done |]. split.
    + intros q Hq [-> | Hq']%elem_of_cons; [done |]. by apply (H2 q).
    + by apply NoDup_cons.
  - intros q ->%list_elem_of_singleton. split; [done |]. rewrite lookup_insert_eq. by eexists.
Qed.

Lemma push_locked_post l s i node v : lists_inv l s -> pcs s !! i = Some (Pushing node v) ->
  wp (list_step i (Pushing node v) (nodes s) (free_list_list s)) (fun '(p', N, head, ev) =>
    lists_post l s ev (mk_lists N head (<[i := p']> (pcs s)))).
Proof.
  intros I Hi. pose proof (nodup_others l s i _ I Hi) as Hnd. cbn in Hnd.
  destruct (owned_some l s i _ I Hi node) as (H0 & d & Hd); [left; cbn; left |].
  apply NoDup_app in Hnd as (H1 & H2 & [H3 H4]%NoDup_cons).
  assert (Hl : node ∉ l) by (intros Hin; apply (H2 node Hin); left).
  unfold list_step, push_locked. apply Z.eqb_neq in H0 as H0'. rewrite H0'. do 3 wp_step.
  assert (Hne : forall q, q ∈ l -> <[node := mk_node (free_list_list s) v]> (nodes s) !! q = nodes s !! q).
  { intros q Hq. apply lookup_insert_ne. by intros <-. }
  assert (Hr : forall q, q ∈ others s i -> <[node := mk_node (free_list_list s) v]> (nodes s) !! q = nodes s !! q).
  { intros q Hq. apply lookup_insert_ne. by intros <-. }
  exists (node :: l). split.
  - apply (inv_update l s i _ I Hi); cbn; [| | | done].
    + do 2 (split; [done |]). eexists. split; [apply lookup_insert_eq |]. cbn. by eapply chain_same; [apply I |].
    + apply NoDup_cons. rewrite elem_of_app. split; [by intros [] |]. apply NoDup_app. split; [done |]. split; [| done].
      intros q Hq Hq'. apply (H2 q Hq). by right.
    + intros q Hq. by apply not_elem_of_nil in Hq.
  - rewrite (seen_update l s i _ Hi) by done. unfold lists_on. cbn. rewrite lookup_insert_eq. cbn.
    fold (lists_on (<[node := mk_node (free_list_list s) v]> (nodes s)) l).
    rewrite (lists_on_same (nodes s)), list_insert_id by (done || by apply (seen_here l s i _ Hi)). apply stack_run_one, (stack_push (seen l s)).
Qed.

Lemma pop_locked_post l s i : lists_inv l s -> pcs s !! i = Some Popping ->
  wp (list_step i Popping (nodes s) (free_list_list s)) (fun '(p', N, head, ev) =>
    lists_post l s ev (mk_lists N head (<[i := p']> (pcs s)))).
Proof.
  intros I Hi. pose proof (nodup_others l s i _ I Hi) as Hnd. cbn in Hnd. pose proof (li_chain _ _ I) as Hc.
  pose proof (seen_here l s i _ Hi) as Hh. unfold list_step, pop_locked. destruct l as [| q l].
  - cbn in Hc. rewrite Hc. cbn [Z.eqb negb]. do 3 wp_step. exists []. split.
    + apply (inv_update [] s i _ I Hi); cbn; try done. intros q Hq. by apply not_elem_of_nil in Hq.
    + rewrite (seen_update [] s i _ Hi) by done. by apply stack_run_one, (stack_look (seen [] s)).
  - destruct Hc as (Eh & H0 & d & Hd & Hc). rewrite Eh. apply Z.eqb_neq in H0 as H0'. rewrite H0'. cbn [negb]. rewrite Hd.
    do 3 wp_step. exists l. cbn in Hnd. split.
    + apply (inv_update (q :: l) s i _ I Hi); cbn; rewrite ?H0'; [done | | | done].
      * rewrite (Permutation_app_comm l), <- app_assoc. cbn. by rewrite (Permutation_app_comm _ l).
      * intros x ->%list_elem_of_singleton. split; [done |]. by exists d.
    + rewrite (seen_update (q :: l) s i _ Hi) by done. cbn [owing_of]. rewrite H0', Hd. cbn.
      pose proof (stack_look _ i Hh) as S. cbn in S. rewrite Hd in S. cbn in S. by apply stack_run_one.
Qed.

(** The node that was taken is still there, and nobody else reads it. *)
Lemma finish_pop_post l s i node : lists_inv l s -> pcs s !! i = Some (Taken node) ->
  wp (finish_pop node (nodes s)) (fun '(v, N) => lists_post l s [] (mk_lists N (free_list_list s) (<[i := Returns v]> (pcs s)))).
Proof.
  intros I Hi. pose proof (nodup_others l s i _ I Hi) as Hnd. cbn in Hnd.
  unfold finish_pop. destruct (Z.eqb_spec node 0) as [-> | H0]; cbn [negb].
  - wp_step. exists l. split; [| rewrite (seen_same l s i _ Hi); [apply stack_stays | done..]].
    apply (inv_update l s i _ I Hi); cbn; try done; [apply I |]. intros q Hq. by apply not_elem_of_nil in Hq.
  - apply Z.eqb_neq in H0 as H0'. destruct (owned_some l s i _ I Hi node) as (_ & d & Hd); [left; cbn; rewrite H0'; left |].
    rewrite Hd. wp_step. apply NoDup_app in Hnd as (H1 & H2 & [H3 H4]%NoDup_cons). exists l.
    assert (Hl : forall q, q ∈ l -> delete node (nodes s) !! q = nodes s !! q).
    { intros q Hq. apply lookup_delete_ne. intros <-. apply (H2 node Hq). left. }
    assert (Hr : forall q, q ∈ others s i -> delete node (nodes s) !! q = nodes s !! q).
    { intros q Hq. apply lookup_delete_ne. by intros <-. }
    split.
    + apply (inv_update l s i _ I Hi); cbn; [by eapply chain_same; [apply I |] | | | done].
      * apply NoDup_app. split; [done |]. split; [| done]. intros q Hq Hq'. apply (H2 q Hq). by right.
      * intros q Hq. by apply not_elem_of_nil in Hq.
    + rewrite (seen_same l s i _ Hi); [apply stack_stays | done | cbn; by rewrite H0', Hd | by apply lists_on_same].
Qed.

(** A step that leaves the stack and the nodes alone, from and to a place
    where the thread owns none. *)
Lemma idle_post l s i p p' : lists_inv l s -> pcs s !! i = Some p -> owned p = [] -> owned p' = [] ->
  lists_inv l (mk_lists (nodes s) (free_list_list s) (<[i := p']> (pcs s))) /\
  seen l (mk_lists (nodes s) (free_list_list s) (<[i := p']> (pcs s))) =
    mk_stack (lists (seen l s)) (<[i := owing_of (nodes s) p']> (owing (seen l s))).
Proof.
  intros I Hi E E'. pose proof (nodup_others l s i p I Hi) as Hnd. rewrite E in Hnd. split; [| by apply (seen_update l s i p Hi)].
  apply (inv_update l s i p I Hi); [apply I | by rewrite E' | | done].
  rewrite E'. intros q Hq. by apply not_elem_of_nil in Hq.
Qed.

Lemma list_step_ok l s i p : lists_inv l s -> pcs s !! i = Some p ->
  wp (list_step i p (nodes s) (free_list_list s)) (fun '(p', N, head, ev) =>
    lists_post l s ev (mk_lists N head (<[i := p']> (pcs s)))).
Proof.
  intros I Hi. pose proof (seen_here l s i p Hi) as Hh. destruct p as [| node v | | node | v].
  - apply wp_ok. exists l. destruct (idle_post l s i Idle Idle I Hi eq_refl eq_refl) as [I' _]. split; [done |].
    rewrite (seen_same l s i _ Hi); [apply stack_stays | done..].
  - by apply push_locked_post.
  - by apply pop_locked_post.
  - unfold list_step. wp_step. eapply wp_mono; [by apply (finish_pop_post l s i node) |].
    intros [v N] H. by wp_step.
  - apply wp_ok. exists l. destruct (idle_post l s i (Returns v) Idle I Hi eq_refl eq_refl) as [I' ->]. split; [done |].
    by apply stack_run_one, stack_return.
Qed.

Lemma pop_test_post l s i : lists_inv l s -> pcs s !! i = Some Idle ->
  lists_post l s (pop_test i (free_list_list s)).2 (mk_lists (nodes s) (free_list_list s) (<[i := (pop_test i (free_list_list s)).1]> (pcs s))).
Proof.
  intros I Hi. pose proof (seen_here l s i _ Hi) as Hh. pose proof (stack_call _ i Hh) as S1. exists l. unfold pop_test.
  destruct (Z.eqb_spec (free_list_list s) 0) as [E | E]; cbn [fst snd].
  - destruct (idle_post l s i Idle (Returns 0) I Hi eq_refl eq_refl) as [I' ->]. split; [done |].
    pose proof (li_chain _ _ I) as Hc. rewrite E in Hc. destruct l as [| q l]; [| by destruct Hc as (<- & H0 & _)].
    apply (stack_goes _ [Called i] _ _ _ (stack_run_one _ _ _ S1)). pose proof (stack_look (mk_stack [] (<[i := ToLook]> (owing (seen [] s)))) i) as S2.
    cbn in S2. rewrite list_insert_insert_eq in S2. apply S2, list_lookup_insert_eq. by eapply lookup_lt_Some.
  - destruct (idle_post l s i Idle Popping I Hi eq_refl eq_refl) as [I' ->]. split; [done |]. by apply stack_run_one.
Qed.

Lemma lists_step_ok l s ev s' : lists_inv l s -> lists_step s ev s' -> lists_post l s ev s'.
Proof.
  intros I [i v node d Hi Hm | i p ev' Hi Ht | i p p' N head ev' Hi E].
  - by apply push_malloc_post.
  - pose proof (pop_test_post l s i I Hi) as P. by rewrite Ht in P.
  - pose proof (list_step_ok l s i p I Hi) as P. by rewrite E in P.
Qed.

Lemma lists_start_inv n : lists_inv [] (lists_start n) /\ seen [] (lists_start n) = stack_start n.
Proof.
  assert (E : replicate n Idle ≫= owned = []) by (induction n as [| n IH]; [done |]; exact IH).
  split; [| unfold seen, stack_start; cbn; by rewrite fmap_replicate].
  split; cbn; rewrite ?E; [done | constructor |]. intros q Hq. by apply not_elem_of_nil in Hq.
Qed.

Lemma lists_run_ok n tr s : lists_run (lists_start n) tr s ->
  exists l, lists_inv l s /\ stack_run (stack_start n) tr (seen l s).
Proof.
  induction 1 as [| tr s1 ev s2 _ (l & I & Hr) Hs].
  - exists []. destruct (lists_start_inv n) as [I E]. split; [done |]. rewrite E. constructor.
  - destruct (lists_step_ok l s1 ev s2 I Hs) as (l' & I' & Hx). exists l'. split; [done |]. by eapply stack_run_app.
Qed.

(** * Driving the machine *)

Inductive choice_t : Type :=
  | Push (i : nat) (v node : Z)
  | Pop (i : nat)
  | Goes (i : nat).

Definition drive1 (c : choice_t) (s : lists_t) : option (list event_t * lists_t) :=
  match c with
  | Push i v node =>
      match pcs s !! i, nodes s !! node with
      | Some Idle, None =>
          if node =? 0 then None
          else Some ([], mk_lists (<[node := mk_node 0 0]> (nodes s)) (free_list_list s) (<[i := Pushing node v]> (pcs s)))
      | _, _ => None
      end
  | Pop i =>
      match pcs s !! i with
      | Some Idle =>
          let '(p, ev) := pop_test i (free_list_list s) in
          Some (ev, mk_lists (nodes s) (free_list_list s) (<[i := p]> (pcs s)))
      | _ => None
      end
  | Goes i =>
      match pcs s !! i with
      | Some p =>
          match list_step i p (nodes s) (free_list_list s) with
          | Ok (p', N, head, ev) => Some (ev, mk_lists N head (<[i := p']> (pcs s)))
          | Err _ => None
          end
      | None => None
      end
  end.

Fixpoint drive (cs : list choice_t) (s : lists_t) (tr : list event_t) : option (list event_t * lists_t) :=
  match cs with
  | [] => Some (tr, s)
  | c :: cs => match drive1 c s with Some (ev, s') => drive cs s' (tr ++ ev) | None => None end
  end.

Lemma lists_drive1_step c s ev s' : drive1 c s = Some (ev, s') -> lists_step s ev s'.
Proof.
  destruct c as [i v node | i | i]; unfold drive1; destruct (pcs s !! i) as [p |] eqn:Hp; try done.
  - destruct p; try done. destruct (nodes s !! node) eqn:Hn; [done |]. destruct (Z.eqb_spec node 0); [done |].
    intros [= <- <-]. by apply pushes.
  - destruct p; try done. destruct (pop_test _ _) as [p ev'] eqn:E. intros [= <- <-]. by apply pops.
  - destruct (list_step _ _ _ _) as [[[[p' N] head] ev'] |] eqn:E; [| done]. intros [= <- <-]. by eapply goes_on.
Qed.

Lemma lists_drive_run s0 cs s tr tr' s' : lists_run s0 tr s -> drive cs s tr = Some (tr', s') -> lists_run s0 tr' s'.
Proof.
  revert s tr. induction cs as [| c cs IH]; intros s tr Hr; cbn; [by intros [= <- <-] |].
  destruct (drive1 c s) as [[ev s1] |] eqn:E; [| done]. apply IH. by eapply lists_go, lists_drive1_step.
Qed.

(** * Properties *)

(** C34: The stack of free lists is linearizable: whatever the interleaving of
    pushes and pops, what is seen of the threads is a run of a stack in which
    a push takes effect when it is seen, a pop when the thread looks at the
    top for the last time, after its call and before its return, and the pop
    returns the list that the stack gave then, or null if there was none.
    The stack is the chain of nodes from [free_list_list]. *)
Theorem free_lists_linearizable n tr s :
  lists_run (lists_start n) tr s ->
  exists l k, lchain next (nodes s) (free_list_list s) l /\ lists k = lists_on (nodes s) l /\ stack_run (stack_start n) tr k.
Proof. intros H. destruct (lists_run_ok n tr s H) as (l & I & Hr). exists l, (seen l s). by split; [apply I |]. Qed.

(** No thread reads or frees a node that was freed. *)
Theorem lists_never_fail n tr s i p :
  lists_run (lists_start n) tr s -> pcs s !! i = Some p ->
  exists x, list_step i p (nodes s) (free_list_list s) = Ok x.
Proof.
  intros H Hi. destruct (lists_run_ok n tr s H) as (l & I & _).
  destruct (proj1 (wp_iff _ _) (list_step_ok l s i p I Hi)) as (x & E & _). by exists x.
Qed.

(** A failed [MALLOC] is not noticed: the node is written through the null
    pointer. *)
Lemma push_out_of_memory v N head : push_locked 0 v N head = Err NullDeref.
Proof. done. Qed.

(** ** Witnesses *)

(** Two threads push; a third looks, sees the lists, takes the upper one, and
    returns it. *)
Definition demo_N : store_t := {[ 8 := mk_node 0 100 ]}.
Definition demo_lists : lists_t := mk_lists demo_N 8 [Idle; Idle; Idle].
Definition demo_events : list event_t := [PushedList 100; PushedList 200; Called 2; Looked 2; Returned 2 200].

Lemma demo_lists_run : lists_run (lists_start 3) demo_events demo_lists.
Proof.
  apply (lists_drive_run (lists_start 3) [Push 0 100 8; Goes 0; Push 1 200 16; Goes 1; Pop 2; Goes 2; Goes 2; Goes 2] (lists_start 3) []);
    [apply lists_stay | vm_compute; reflexivity].
Qed.

Lemma free_lists_linearizable_witness :
  exists l k, lchain next demo_N 8 l /\ lists k = lists_on demo_N l /\ stack_run (stack_start 3) demo_events k.
Proof. exact (free_lists_linearizable 3 demo_events demo_lists demo_lists_run). Defined.

Lemma lists_never_fail_witness : exists x, list_step 0 Idle demo_N 8 = Ok x.
Proof. exact (lists_never_fail 3 demo_events demo_lists 0 Idle demo_lists_run eq_refl). Defined.
