(* ===== verification/Queue.v ===== *)
(** queue.c: the circular buffer each thread collects its retired pointers
    in.  [idx_head] and [idx_tail] are absolute 64-bit indices; the tail runs
    [capacity] ahead of the position it stands for, so the queue is empty
    when [idx_head + capacity == idx_tail] and full when the head is one
    short of the tail. *)
From S2P Require Import Prelude.

Record queue_t : Type := mk_queue {
  e : list Z;
  capacity : Z;
  idx_head : Z;
  idx_tail : Z }.

Definition INDEXIFY (abs_idx capacity : Z) : Z := Z.land abs_idx (u64 (capacity - 1)).

Definition forkscan_queue_init (buf : list Z) (capacity : Z) : queue_t :=
  mk_queue buf capacity 0 capacity.

Definition forkscan_queue_is_empty (q : queue_t) : res bool :=
  assert (idx_head q <? idx_tail q) ;!
  Ok (u64 (idx_head q + capacity q) =? idx_tail q).

Definition forkscan_queue_is_full (q : queue_t) : res bool :=
  assert (idx_head q <? idx_tail q) ;!
  Ok (u64 (idx_head q + 1) >=? idx_tail q).

Definition forkscan_queue_available (q : queue_t) : res Z :=
  assert (idx_head q <? idx_tail q) ;!
  let ret := to_int (u64 (idx_tail q - idx_head q - 1)) in
  assert (ret >=? 0) ;!
  Ok ret.

Definition forkscan_queue_push (q : queue_t) (value : Z) : res queue_t :=
  let! e' := wr (e q) (INDEXIFY (idx_head q) (capacity q)) value in
  let q := mk_queue e' (capacity q) (u64 (idx_head q + 1)) (idx_tail q) in
  assert (idx_head q <? idx_tail q) ;!
  Ok q.

Definition forkscan_queue_pop (q : queue_t) : res (Z * queue_t) :=
  let! ret := rd (e q) (INDEXIFY (idx_tail q) (capacity q)) in
  Ok (ret, mk_queue (e q) (capacity q) (idx_head q) (u64 (idx_tail q + 1))).

(** The two copies of [forkscan_queue_push_bulk]: up to the end of the
    buffer, then from its beginning. *)
Definition forkscan_queue_push_bulk (q : queue_t) (values : list Z) (len : Z) : res queue_t :=
  let cap := capacity q in
  let head := INDEXIFY (idx_head q) cap in
  let first_copy := MIN_OF len (u64 (cap - head)) in
  let second_copy := u64 (len - first_copy) in
  let! '(e1, head1) :=
    (if first_copy >? 0 then
       let! block := rd_block values 0 first_copy in
       let! e1 := wr_block (e q) head block in
       Ok (e1, u64 (idx_head q + first_copy))
     else Ok (e q, idx_head q)) in
  let! '(e2, head2) :=
    (if second_copy >? 0 then
       let! block := rd_block values first_copy second_copy in
       let! e2 := wr_block e1 (INDEXIFY head1 cap) block in
       Ok (e2, u64 (head1 + second_copy))
     else Ok (e1, head1)) in
  Ok (mk_queue e2 cap head2 (idx_tail q)).

(** [values] is the output array; the last check is the debug build's. *)
Definition forkscan_queue_pop_bulk (values : list Z) (len : Z) (q : queue_t)
    : res (list Z * Z * queue_t) :=
  let idx_head0 := idx_head q in
  let size := u64 (idx_head0 - u64 (idx_tail q - capacity q)) in
  assert (len <? 0xF00000000000000) ;!
  if size =? 0 then Ok (values, 0, q) else
  let '(idx_head1, size) :=
    if size >? len then (u64 (idx_head0 - u64 (size - len)), len) else (idx_head0, size) in
  let popped := size in
  let head := INDEXIFY idx_head1 (capacity q) in
  let start := INDEXIFY (idx_tail q) (capacity q) in
  let! '(values, values_offset, start) :=
    (if head <? start then
       let elements := u64 (capacity q - start) in
       let! block := rd_block (e q) start elements in
       let! values := wr_block values 0 block in
       Ok (values, elements, 0)
     else Ok (values, 0, start)) in
  let elements := u64 (head - start) in
  let! values :=
    (if elements >? 0 then
       let! block := rd_block (e q) start elements in
       wr_block values values_offset block
     else Ok values) in
  let q := mk_queue (e q) (capacity q) (idx_head q) (u64 (idx_head1 + capacity q)) in
  let! _ :=
    for_range 0 popped (fun i _ =>
      let! v := rd values i in assert (negb (v =? 0))) tt in
  Ok (values, to_int popped, q).

(** * The queue as a list *)

(** The invariant.  [MAX_IDX] keeps the absolute indices away from the wrap
    at 2^64: at a billion pushes a second that takes 292 years. *)
Definition MAX_IDX : Z := 2 ^ 63.

Record queue_wf (q : queue_t) : Prop := {
  wf_cap : exists k, 0 <= k <= 30 /\ capacity q = 2 ^ k;
  wf_buf : zlen (e q) = capacity q;
  wf_tail : capacity q <= idx_tail q <= MAX_IDX;
  wf_order : idx_tail q - capacity q <= idx_head q < idx_tail q }.

Definition queue_size (q : queue_t) : Z := idx_head q - (idx_tail q - capacity q).

(** The element [i] places from the tail. *)
Definition queue_nth (q : queue_t) (i : Z) : Z := get (e q) ((idx_tail q + i) mod capacity q).

(** The contents, oldest first: what the queue implements. *)
Definition contents (q : queue_t) : list Z :=
  (fun i => queue_nth q (Z.of_nat i)) <$> seq 0 (Z.to_nat (queue_size q)).

Lemma pow2_bounds k : 0 <= k <= 30 -> 1 <= 2 ^ k <= 2 ^ 30.
Proof. intros H. split; [lia |]. apply Z.pow_le_mono_r; lia. Qed.

Lemma wf_cap_bounds q : queue_wf q -> 1 <= capacity q <= 2 ^ 30.
Proof. intros [(k & Hk & ->) _ _ _]. by apply pow2_bounds. Qed.

(** Masking by [capacity - 1] is the remainder, for a power of two. *)
Lemma INDEXIFY_mod x q : queue_wf q -> INDEXIFY x (capacity q) = x mod capacity q.
Proof.
  intros W. pose proof (wf_cap_bounds q W). destruct (wf_cap q W) as (k & Hk & E).
  unfold INDEXIFY. rewrite u64_small by (unfold size_ok; lia).
  rewrite E in *. rewrite <- Z.land_ones by lia. f_equal. rewrite Z.ones_equiv. lia.
Qed.

Lemma index_bounds x q : queue_wf q -> 0 <= x mod capacity q < zlen (e q).
Proof.
  intros W. rewrite (wf_buf q W). pose proof (wf_cap_bounds q W). apply Z.mod_pos_bound. lia.
Qed.

Lemma mod_eq_iff x y c : 0 < c -> Z.abs (x - y) < c -> x mod c = y mod c -> x = y.
Proof.
  intros Hc Hd E. pose proof (Z.div_mod x c ltac:(lia)) as Hx.
  pose proof (Z.div_mod y c ltac:(lia)) as Hy. rewrite E in Hx.
  assert (Hq : Z.abs (c * (x / c - y / c)) < c) by (replace (c * (x / c - y / c)) with (x - y) by lia; done).
  assert (x / c - y / c = 0) by nia. nia.
Qed.

Lemma mod_add_cap x c : 0 < c -> (x + c) mod c = x mod c.
Proof. intros Hc. rewrite <- (Z.mul_1_l c) at 1. apply Z_mod_plus_full. Qed.

Lemma length_contents q : queue_wf q -> zlen (contents q) = queue_size q.
Proof.
  intros W. pose proof (wf_order q W). unfold zlen, contents, queue_size.
  rewrite length_fmap, length_seq. lia.
Qed.

Lemma get_contents q i : 0 <= i < queue_size q -> get (contents q) i = queue_nth q i.
Proof.
  intros Hi. unfold get, contents. apply list_lookup_total_correct.
  rewrite list_lookup_fmap, lookup_seq_lt by lia. simpl. f_equal. f_equal. lia.
Qed.

(** To know a queue's contents, compare sizes and elements. *)
Lemma contents_eq q l :
  queue_wf q -> queue_size q = zlen l ->
  (forall i, 0 <= i < zlen l -> queue_nth q i = get l i) -> contents q = l.
Proof.
  intros W Hs Hn. apply list_eq_get; [by rewrite length_contents |].
  intros i Hi. rewrite length_contents in Hi by done.
  rewrite get_contents by done. apply Hn. lia.
Qed.

Lemma queue_nth_slot q i :
  queue_wf q -> queue_nth q i = get (e q) ((idx_tail q - capacity q + i) mod capacity q).
Proof.
  intros W. pose proof (wf_cap_bounds q W). unfold queue_nth. f_equal.
  rewrite <- (mod_add_cap (idx_tail q - capacity q + i)) by lia. f_equal. lia.
Qed.

(** * Queries *)

(** The three queries answer from the number of elements [n]: empty when it
    is 0, full when it is one short of the capacity, and room for the rest. *)
Theorem queue_queries q :
  queue_wf q ->
  forkscan_queue_is_empty q = Ok (zlen (contents q) =? 0) /\
  forkscan_queue_is_full q = Ok (zlen (contents q) =? capacity q - 1) /\
  forkscan_queue_available q = Ok (capacity q - 1 - zlen (contents q)).
Proof.
  intros W. rewrite length_contents by done. pose proof (wf_cap_bounds q W).
  pose proof (wf_tail q W) as Ht. pose proof (wf_order q W) as Ho. unfold MAX_IDX in Ht.
  assert (Ha : assert (idx_head q <? idx_tail q) = Ok tt).
  { unfold assert. by rewrite (proj2 (Z.ltb_lt _ _)) by lia. }
  unfold forkscan_queue_is_empty, forkscan_queue_is_full, forkscan_queue_available, queue_size.
  rewrite Ha. unfold bind. rewrite !u64_small by (unfold size_ok; lia).
  rewrite to_int_small by (unfold int_ok, INT_MIN, INT_MAX; lia).
  split; [f_equal; bsplit; lia |]. split; [rewrite Z.geb_leb; f_equal; bsplit; lia |].
  unfold assert. rewrite Z.geb_leb, (proj2 (Z.leb_le _ _)) by lia. f_equal. lia.
Qed.

(** * Push and pop *)

(** A successful push appends its value; on a full queue the debug build
    stops. *)
Theorem queue_push_appends q value :
  queue_wf q ->
  match forkscan_queue_push q value with
  | Ok q' => queue_size q < capacity q - 1 /\ queue_wf q' /\ capacity q' = capacity q /\
             contents q' = contents q ++ [value]
  | Err err => queue_size q = capacity q - 1 /\ err = AssertFailed
  end.
Proof.
  intros W. pose proof (wf_cap_bounds q W). pose proof (wf_tail q W) as Ht.
  pose proof (wf_order q W) as Ho. unfold MAX_IDX in Ht.
  pose proof (index_bounds (idx_head q) q W) as Hi. unfold forkscan_queue_push.
  rewrite INDEXIFY_mod, wr_ok by done. unfold bind. simpl.
  rewrite u64_small by (unfold size_ok; lia). unfold assert, queue_size.
  destruct (Z.ltb_spec (idx_head q + 1) (idx_tail q)); [| split; [lia | done]].
  set (q' := mk_queue _ _ _ _).
  assert (W' : queue_wf q').
  { split; simpl; [apply W | rewrite zlen_upd; apply W | done | lia]. }
  split; [lia |]. split; [done |]. split; [done |].
  apply contents_eq; [done | |].
  - rewrite zlen_app, length_contents by done. unfold queue_size. simpl. change (zlen [value]) with 1. lia.
  - intros i Hr. rewrite zlen_app in Hr. change (zlen [value]) with 1 in Hr.
    pose proof (length_contents q W) as Hlen. unfold queue_size in Hlen.
    rewrite queue_nth_slot, get_app by (done || lia). simpl. case_decide.
    + rewrite get_contents by (unfold queue_size; lia). rewrite queue_nth_slot by done.
      apply get_upd_ne; [apply Hi | apply Z.mod_pos_bound; lia |].
      intros E. apply mod_eq_iff in E; lia.
    + replace i with (zlen (contents q)) by lia. rewrite Z.sub_diag, Hlen.
      replace (idx_tail q - capacity q + _) with (idx_head q) by lia. by apply get_upd_eq.
Qed.

(** [forkscan_queue_pop] takes the oldest value. *)
Lemma queue_pop_ok q x l :
  queue_wf q -> idx_tail q < MAX_IDX -> contents q = x :: l ->
  exists q', forkscan_queue_pop q = Ok (x, q') /\ queue_wf q' /\ capacity q' = capacity q /\
    contents q' = l.
Proof.
  intros W Hmax E. pose proof (wf_cap_bounds q W). pose proof (wf_tail q W) as Ht.
  pose proof (wf_order q W) as Ho. pose proof (length_contents q W) as Hlen.
  rewrite E, zlen_cons in Hlen. pose proof (zlen_nonneg l). unfold queue_size in Hlen.
  unfold forkscan_queue_pop. rewrite INDEXIFY_mod by done.
  rewrite rd_ok by (by apply index_bounds). unfold bind. unfold MAX_IDX in *.
  rewrite u64_small by (unfold size_ok; lia).
  assert (Hx : forall i, 0 <= i < queue_size q -> queue_nth q i = get (x :: l) i).
  { intros i Hi. by rewrite <- get_contents, E. }
  eexists. split.
  { f_equal. f_equal. specialize (Hx 0). unfold queue_nth, queue_size in Hx.
    rewrite Z.add_0_r in Hx. apply Hx. lia. }
  split; [split; unfold MAX_IDX; simpl; [apply W.. | lia | lia] |]. split; [done |].
  apply contents_eq; [split; unfold MAX_IDX; simpl; [apply W.. | lia | lia] | unfold queue_size; simpl; lia |].
  intros i Hi. unfold queue_nth. simpl. replace (idx_tail q + 1 + i) with (idx_tail q + (i + 1)) by lia.
  fold (queue_nth q (i + 1)). rewrite Hx by (unfold queue_size; lia).
  change (x :: l) with ([x] ++ l). rewrite get_app by lia. rewrite decide_False by (change (zlen [x]) with 1; lia).
  f_equal. change (zlen [x]) with 1. lia.
Qed.


(** * Bulk operations *)

(** Writing [values] into the ring from absolute index [h] on: what the two
    copies amount to. *)
Definition ring_written (e0 : list Z) (cap h : Z) (values : list Z) (e1 : list Z) : Prop :=
  zlen e1 = zlen e0 /\
  (forall i, 0 <= i < zlen values -> get e1 ((h + i) mod cap) = get values i) /\
  (forall j, 0 <= j < cap -> (forall i, 0 <= i < zlen values -> (h + i) mod cap <> j) -> get e1 j = get e0 j).

(** The position of absolute index [h + i], before and after the wrap. *)
Lemma ring_pos h i cap :
  0 < cap -> 0 <= i < cap ->
  (h + i) mod cap = if decide (h mod cap + i < cap) then h mod cap + i else h mod cap + i - cap.
Proof.
  intros Hc Hi. pose proof (Z.mod_pos_bound h cap Hc). pose proof (Z.div_mod h cap ltac:(lia)).
  generalize dependent (h mod cap). generalize (h / cap). intros d r Hr Hh. symmetry.
  case_decide; [apply (Z.mod_unique _ _ d) | apply (Z.mod_unique _ _ (d + 1))]; lia.
Qed.

Lemma ring_written_contents q values e2 :
  queue_wf q -> queue_size q + zlen values <= capacity q - 1 ->
  ring_written (e q) (capacity q) (idx_head q) values e2 ->
  let q' := mk_queue e2 (capacity q) (idx_head q + zlen values) (idx_tail q) in
  queue_wf q' /\ contents q' = contents q ++ values.
Proof.
  intros W Hroom (Hlen & Hin & Hout) q'. pose proof (wf_cap_bounds q W).
  pose proof (wf_order q W) as Ho. pose proof (zlen_nonneg values). unfold queue_size in Hroom.
  assert (W' : queue_wf q').
  { split; simpl; [apply W | rewrite Hlen; apply W | apply W | lia]. }
  split; [done |]. apply contents_eq; [done | |].
  { rewrite zlen_app, length_contents by done. unfold queue_size. simpl. lia. }
  intros i Hi. rewrite zlen_app, length_contents in Hi by done. unfold queue_size in Hi.
  rewrite queue_nth_slot, get_app, length_contents by (done || lia). unfold q'. simpl. case_decide as Hc.
  - rewrite get_contents by (unfold queue_size in *; lia). rewrite queue_nth_slot by done.
    apply Hout; [apply Z.mod_pos_bound; lia |].
    intros k Hk E. unfold queue_size in Hc. apply mod_eq_iff in E; lia.
  - unfold queue_size in *. rewrite <- Hin by lia. f_equal. f_equal. lia.
Qed.

Lemma queue_push_bulk_ok q values :
  queue_wf q -> queue_size q + zlen values <= capacity q - 1 ->
  wp (forkscan_queue_push_bulk q values (zlen values)) (fun q' =>
    queue_wf q' /\ capacity q' = capacity q /\ contents q' = contents q ++ values).
Proof.
  intros W Hroom. pose proof (wf_cap_bounds q W). pose proof (wf_tail q W) as Ht.
  pose proof (wf_order q W) as Ho. pose proof (zlen_nonneg values).
  pose proof (index_bounds (idx_head q) q W) as Hh. pose proof (wf_buf q W) as Hbuf.
  assert (Hs : 0 <= queue_size q) by (unfold queue_size; lia). unfold MAX_IDX in *.
  unfold forkscan_queue_push_bulk. cbn zeta. rewrite INDEXIFY_mod, MIN_OF_min by done.
  set (head := idx_head q mod capacity q) in *.
  rewrite (u64_small (capacity q - head)) by (unfold size_ok; lia).
  set (first := Z.min (zlen values) (capacity q - head)).
  rewrite (u64_small (zlen values - first)) by (unfold size_ok; lia).
  assert (Hfirst : first = zlen values \/ first = capacity q - head /\ 0 < head) by lia.
  assert (Hfle : 0 <= first <= zlen values /\ first <= capacity q - head) by lia. clearbody first.
  (* What is left to show once the array is written. *)
  assert (Hend : forall e2, ring_written (e q) (capacity q) (idx_head q) values e2 ->
    wp (Ok (mk_queue e2 (capacity q) (idx_head q + zlen values) (idx_tail q))) (fun q' =>
      queue_wf q' /\ capacity q' = capacity q /\ contents q' = contents q ++ values)).
  { intros e2 Hw. wp_step. by destruct (ring_written_contents q values e2 W Hroom Hw). }
  assert (Hpos : forall i, 0 <= i < capacity q -> (idx_head q + i) mod capacity q =
    if decide (head + i < capacity q) then head + i else head + i - capacity q).
  { intros i Hi. apply ring_pos; lia. }
  wp_step. destruct (Z.gtb_spec first 0) as [Hf | Hf].
  - wp_step. apply wp_rd_block; [lia.. |]. intros b Hb Hgb. wp_step.
    apply wp_wr_block; [lia.. |]. intros e1 He1 Hg1. wp_step. wp_step.
    rewrite (u64_small (idx_head q + first)) by (unfold size_ok; lia).
    destruct (Z.gtb_spec (zlen values - first) 0) as [Hsec | Hsec].
    + destruct Hfirst as [-> | [Hfst Hhd]]; [lia |].
      assert (Hwrap : INDEXIFY (idx_head q + first) (capacity q) = 0).
      { rewrite INDEXIFY_mod, Hpos by (done || lia). rewrite Hfst, decide_False by lia. lia. }
      rewrite Hwrap. wp_step. apply wp_rd_block; [lia.. |]. intros b2 Hb2 Hgb2. wp_step.
      apply wp_wr_block; [lia.. |]. intros e2 He2 Hg2. wp_step.
      rewrite u64_small by (unfold size_ok; lia).
      replace (idx_head q + first + (zlen values - first)) with (idx_head q + zlen values) by lia.
      apply Hend. split; [lia |]. split.
      * intros i Hi. rewrite Hpos by lia. case_decide; rewrite Hg2 by lia.
        -- rewrite decide_False, Hg1, decide_True, Hgb by lia. f_equal. lia.
        -- rewrite decide_True, Hgb2 by lia. f_equal. lia.
      * intros j Hj Hno. destruct (decide (head <= j)).
        { exfalso. apply (Hno (j - head)); [lia |]. rewrite Hpos, decide_True by lia. lia. }
        destruct (decide (j < zlen b2)).
        { exfalso. apply (Hno (first + j)); [lia |]. rewrite Hpos, decide_False by lia. lia. }
        by rewrite Hg2, decide_False, Hg1, decide_False by lia.
    + wp_step. wp_step. assert (first = zlen values) as -> by lia. apply Hend. split; [lia |]. split.
      * intros i Hi. rewrite Hpos, decide_True, Hg1, decide_True, Hgb by lia. f_equal. lia.
      * intros j Hj Hno. rewrite Hg1 by lia. case_decide; [| done]. exfalso.
        apply (Hno (j - head)); [lia |]. rewrite Hpos, decide_True by lia. lia.
  - do 2 wp_step. destruct (Z.gtb_spec (zlen values - first) 0); [lia |].
    specialize (Hend (e q)). replace (idx_head q + zlen values) with (idx_head q) in Hend by lia.
    do 2 wp_step. apply Hend. split; [done |]. split; [lia | done].
Qed.

(** [forkscan_queue_push_bulk] of [len] values that fit appends them all in
    order, whether they wrap around the end of the buffer or not. *)
Theorem queue_push_bulk_appends q values :
  queue_wf q -> zlen (contents q) + zlen values <= capacity q - 1 ->
  exists q', forkscan_queue_push_bulk q values (zlen values) = Ok q' /\
    queue_wf q' /\ capacity q' = capacity q /\ contents q' = contents q ++ values.
Proof.
  intros W Hr. rewrite length_contents in Hr by done. by apply wp_iff, queue_push_bulk_ok.
Qed.

(** Advancing the tail by [n] drops the [n] oldest elements. *)
Lemma advance_tail q n :
  queue_wf q -> 0 <= n <= queue_size q -> idx_tail q + n <= MAX_IDX ->
  let q' := mk_queue (e q) (capacity q) (idx_head q) (idx_tail q + n) in
  queue_wf q' /\ contents q' = drop (Z.to_nat n) (contents q).
Proof.
  intros W Hn Hmax q'. pose proof (wf_order q W). pose proof (wf_tail q W). unfold queue_size in Hn.
  assert (W' : queue_wf q') by (split; simpl; [apply W.. | lia | lia]).
  split; [done |]. pose proof (length_contents q W) as Hl. unfold zlen, queue_size in Hl.
  apply contents_eq; [done | unfold zlen, queue_size; rewrite length_drop; simpl; lia |].
  intros i Hi. unfold zlen in Hi. rewrite length_drop in Hi.
  replace (get (drop (Z.to_nat n) (contents q)) i) with (get (contents q) (n + i)).
  - rewrite get_contents by (unfold queue_size; lia). unfold queue_nth, q'. simpl. f_equal. f_equal. lia.
  - unfold get. rewrite !list_lookup_total_alt, lookup_drop. do 2 f_equal. lia.
Qed.

(** The output array after [n] elements were copied to its front. *)
Definition popped_into (q : queue_t) (n : Z) (values values' : list Z) : Prop :=
  zlen values' = zlen values /\ (forall i, 0 <= i < n -> get values' i = queue_nth q i) /\
  (forall i, n <= i -> get values' i = get values i).

Lemma popped_into_eq q n values values' :
  queue_wf q -> 0 <= n <= queue_size q -> n <= zlen values -> popped_into q n values values' ->
  values' = take (Z.to_nat n) (contents q) ++ drop (Z.to_nat n) values.
Proof.
  intros W Hn Hv (Hl & Hin & Hout). pose proof (length_contents q W) as Hlc. unfold zlen in *.
  apply list_eq_get.
  - unfold zlen. rewrite length_app, length_take, length_drop. lia.
  - unfold zlen. intros i Hi. rewrite get_app by lia. unfold zlen. rewrite length_take. case_decide.
    + rewrite Hin by lia. rewrite <- get_contents by lia.
      unfold get. rewrite !list_lookup_total_alt, lookup_take_lt by lia. done.
    + rewrite Hout by lia. unfold get. rewrite !list_lookup_total_alt, lookup_drop. do 2 f_equal. lia.
Qed.

Lemma queue_pop_bulk_ok values len q n :
  queue_wf q -> 0 <= len < 0xF00000000000000 -> n = Z.min (queue_size q) len ->
  n <= zlen values -> idx_tail q + n <= MAX_IDX ->
  (forall i, 0 <= i < n -> queue_nth q i <> 0) ->
  wp (forkscan_queue_pop_bulk values len q) (fun '(values', popped, q') =>
    popped = n /\ popped_into q n values values' /\
    q' = mk_queue (e q) (capacity q) (idx_head q) (idx_tail q + n)).
Proof.
  intros W Hlen Hn Hroom Hmax Hnz. pose proof (wf_cap_bounds q W). pose proof (wf_tail q W) as Ht.
  pose proof (wf_order q W) as Ho. pose proof (wf_buf q W) as Hbuf. unfold MAX_IDX, queue_size in *.
  unfold forkscan_queue_pop_bulk. cbn zeta.
  rewrite (u64_small (idx_tail q - capacity q)) by (unfold size_ok; lia).
  rewrite (u64_small (idx_head q - _)) by (unfold size_ok; lia).
  wp_step. wp_step; [apply Z.ltb_lt; lia |]. cbn beta.
  destruct (Z.eqb_spec (idx_head q - (idx_tail q - capacity q)) 0) as [Hz | Hz].
  { wp_step. split; [lia |]. replace n with 0 by lia. split; [split; [done | split; [lia | done]] |].
    rewrite Z.add_0_r. by destruct q. }
  set (pr := if _ >? _ then _ else _).
  assert (Hpr : pr = (idx_tail q - capacity q + n, n)).
  { subst pr. destruct (Z.gtb_spec (idx_head q - (idx_tail q - capacity q)) len);
      rewrite ?(u64_small (_ - len)), ?(u64_small (idx_head q - _)) by (unfold size_ok; lia); f_equal; lia. }
  rewrite Hpr. clear pr Hpr. rewrite !INDEXIFY_mod by done.
  rewrite (u64_small (idx_tail q - capacity q + n + capacity q)) by (unfold size_ok; lia).
  replace (idx_tail q - capacity q + n + capacity q) with (idx_tail q + n) by lia.
  replace ((idx_tail q - capacity q + n) mod capacity q) with ((idx_tail q + n) mod capacity q).
  2: { rewrite <- (mod_add_cap (idx_tail q - capacity q + n)) by lia. f_equal. lia. }
  pose proof (index_bounds (idx_tail q) q W) as Hst. set (start := idx_tail q mod capacity q) in *.
  assert (Hpos : forall i, 0 <= i < capacity q -> (idx_tail q + i) mod capacity q =
    if decide (start + i < capacity q) then start + i else start + i - capacity q).
  { intros i Hi. apply ring_pos; lia. }
  unfold queue_nth in Hnz. rewrite (Hpos n) by lia. clearbody start.
  (* The debug build's last loop and the result, from the array written. *)
  assert (Hend : forall values', popped_into q n values values' ->
    wp (let! _ := for_range 0 n (fun i _ => let! v := rd values' i in assert (negb (v =? 0))) tt in
        Ok (values', to_int n, mk_queue (e q) (capacity q) (idx_head q) (idx_tail q + n)))
      (fun '(values', popped, q') => popped = n /\ popped_into q n values values' /\
         q' = mk_queue (e q) (capacity q) (idx_head q) (idx_tail q + n))).
  { intros values' Hp. pose proof Hp as (Hl & Hin & _). wp_step.
    apply (wp_for_range (fun _ _ => True)); [lia | done | |].
    - intros i [] Hi _. wp_step. wp_step; [lia |]. wp_step; [| done].
      rewrite Hin by lia. unfold queue_nth. by rewrite (proj2 (Z.eqb_neq _ _)) by (by apply Hnz).
    - intros [] _. wp_step. rewrite to_int_small by (unfold int_ok, INT_MIN, INT_MAX; lia). done. }
  assert (Hqn : forall i, 0 <= i < n -> queue_nth q i =
    get (e q) (if decide (start + i < capacity q) then start + i else start + i - capacity q)).
  { intros i Hi. unfold queue_nth. by rewrite Hpos by lia. }
  wp_step. case_decide.
  - destruct (Z.ltb_spec (start + n) start); [lia |]. do 2 wp_step.
    rewrite (u64_small (start + n - start)) by (unfold size_ok; lia).
    replace (start + n - start) with n by lia. destruct (Z.gtb_spec n 0).
    + wp_step. apply wp_rd_block; [lia.. |]. intros b Hb Hgb.
      apply wp_wr_block; [lia.. |]. intros v Hv Hgv. apply Hend. split; [done |]. split.
      * intros i Hi. rewrite Hgv, decide_True, Hgb, Hqn, decide_True by lia. f_equal. lia.
      * intros i Hi. by rewrite Hgv, decide_False by lia.
    + wp_step. apply Hend. split; [done |]. split; [lia | done].
  - destruct (Z.ltb_spec (start + n - capacity q) start); [| lia]. wp_step.
    rewrite (u64_small (capacity q - start)) by (unfold size_ok; lia).
    apply wp_rd_block; [lia.. |]. intros b Hb Hgb. wp_step.
    apply wp_wr_block; [lia.. |]. intros v Hv Hgv. do 2 wp_step.
    rewrite (u64_small (start + n - capacity q - 0)) by (unfold size_ok; lia).
    destruct (Z.gtb_spec (start + n - capacity q - 0) 0).
    + wp_step. apply wp_rd_block; [lia.. |]. intros b2 Hb2 Hgb2.
      apply wp_wr_block; [lia.. |]. intros v2 Hv2 Hgv2. apply Hend. split; [lia |]. split.
      * intros i Hi. rewrite Hgv2, Hqn by lia. destruct (decide (start + i < capacity q)).
        -- rewrite decide_False, Hgv, decide_True, Hgb by lia. f_equal. lia.
        -- rewrite decide_True, Hgb2 by lia. f_equal. lia.
      * intros i Hi. by rewrite Hgv2, decide_False, Hgv, decide_False by lia.
    + wp_step. apply Hend. split; [done |]. split.
      * intros i Hi. rewrite Hgv, decide_True, Hgb, Hqn, decide_True by lia. f_equal. lia.
      * intros i Hi. by rewrite Hgv, decide_False by lia.
Qed.

Lemma pop_bulk_takes values len q :
  queue_wf q -> 0 <= len < 0xF00000000000000 ->
  Z.min (zlen (contents q)) len <= zlen values ->
  idx_tail q + zlen (contents q) <= MAX_IDX -> 0 ∉ contents q ->
  let n := Z.min (zlen (contents q)) len in
  exists q', forkscan_queue_pop_bulk values len q =
      Ok (take (Z.to_nat n) (contents q) ++ drop (Z.to_nat n) values, n, q') /\
    queue_wf q' /\ capacity q' = capacity q /\ contents q' = drop (Z.to_nat n) (contents q).
Proof.
  intros W Hlen Hroom Hmax Hnz n. pose proof (length_contents q W) as Hl.
  pose proof (zlen_nonneg (contents q)).
  assert (Hn : n = Z.min (queue_size q) len) by (unfold n; lia). clearbody n.
  assert (Hw : wp (forkscan_queue_pop_bulk values len q) (fun '(values', popped, q') =>
    popped = n /\ popped_into q n values values' /\
    q' = mk_queue (e q) (capacity q) (idx_head q) (idx_tail q + n))).
  { apply queue_pop_bulk_ok; [done | done | done | lia | lia |].
    intros i Hi E. apply Hnz. rewrite <- E, <- get_contents by lia.
    apply list_elem_of_lookup. exists (Z.to_nat i). apply get_lookup. lia. }
  apply wp_iff in Hw as ([[values' popped] q'] & -> & -> & Hp & ->).
  apply popped_into_eq in Hp; [| done | lia | lia]. subst values'.
  eexists. split; [done |]. destruct (advance_tail q n W ltac:(lia) ltac:(lia)) as [W' E].
  by split; [| split].
Qed.

(** [forkscan_queue_pop_bulk] moves the [n = min(size, len)] oldest values,
    in order, to the front of the output array, leaves the rest of both as it
    was, and returns [n]. *)
Theorem queue_pop_bulk_takes values len q :
  queue_wf q -> 0 <= len < 0xF00000000000000 ->
  Z.min (zlen (contents q)) len <= zlen values ->
  idx_tail q + zlen (contents q) <= MAX_IDX -> 0 ∉ contents q ->
  let n := Z.min (zlen (contents q)) len in
  exists q', forkscan_queue_pop_bulk values len q =
      Ok (take (Z.to_nat n) (contents q) ++ drop (Z.to_nat n) values, n, q') /\
    queue_wf q' /\ capacity q' = capacity q /\ contents q' = drop (Z.to_nat n) (contents q).
Proof. apply pop_bulk_takes. Qed.

(** * Sequences of operations *)

(** What one thread may do to a queue, and what it gets out of it. *)
Inductive queue_op : Type :=
  | Push (value : Z)
  | PushBulk (values : list Z)
  | Pop
  | PopBulk (len : Z).

Definition run_op (o : queue_op) (q : queue_t) : res (list Z * queue_t) :=
  match o with
  | Push value => let! q := forkscan_queue_push q value in Ok ([], q)
  | PushBulk values => let! q := forkscan_queue_push_bulk q values (zlen values) in Ok ([], q)
  | Pop => let! ' (value, q) := forkscan_queue_pop q in Ok ([value], q)
  | PopBulk len =>
      let room := replicate (Z.to_nat (Z.min len (capacity q))) 0 in
      let! ' (values, popped, q) := forkscan_queue_pop_bulk room len q in
      Ok (take (Z.to_nat popped) values, q)
  end.

Fixpoint run_ops (os : list queue_op) (q : queue_t) : res (list (list Z) * queue_t) :=
  match os with
  | [] => Ok ([], q)
  | o :: os =>
      let! ' (out, q) := run_op o q in
      let! ' (outs, q) := run_ops os q in
      Ok (out :: outs, q)
  end.

(** The same on a list; nothing where the caller has not done what the
    comments of queue.c ask for (room for what is pushed, an element to pop)
    or the element is the null pointer. *)
Definition list_op (cap : Z) (o : queue_op) (l : list Z) : option (list Z * list Z) :=
  match o with
  | Push value => if (zlen l <? cap - 1) && negb (value =? 0) then Some ([], l ++ [value]) else None
  | PushBulk values =>
      if (zlen l + zlen values <=? cap - 1) && forallb (fun v => negb (v =? 0)) values then Some ([], l ++ values) else None
  | Pop => match l with x :: l => Some ([x], l) | [] => None end
  | PopBulk len =>
      let n := Z.to_nat (Z.min (zlen l) len) in
      if (0 <=? len) && (len <? 0xF00000000000000) then Some (take n l, drop n l) else None
  end.

Fixpoint list_ops (cap : Z) (os : list queue_op) (l : list Z) : option (list (list Z) * list Z) :=
  match os with
  | [] => Some ([], l)
  | o :: os =>
      match list_op cap o l with
      | Some (out, l) => match list_ops cap os l with Some (outs, l) => Some (out :: outs, l) | None => None end
      | None => None
      end
  end.

Definition pushed_by (o : queue_op) : Z := match o with Push _ => 1 | PushBulk values => zlen values | _ => 0 end.
Definition pushes (os : list queue_op) : Z := foldr (fun o n => pushed_by o + n) 0 os.

(** A queue that stands for the list [l], with [k] more values to come before
    its indices reach their bound. *)
Record stands_for (cap k : Z) (q : queue_t) (l : list Z) : Prop := {
  sf_wf : queue_wf q;
  sf_cap : capacity q = cap;
  sf_contents : contents q = l;
  sf_nonzero : 0 ∉ l;
  sf_idx : idx_tail q + zlen l + k <= MAX_IDX }.

Lemma push_tail q value q' : forkscan_queue_push q value = Ok q' -> idx_tail q' = idx_tail q.
Proof.
  unfold forkscan_queue_push, bind. destruct (wr _ _ _); [| done]. destruct (assert _); [| done]. by intros [= <-].
Qed.

Lemma push_bulk_tail q values len q' : forkscan_queue_push_bulk q values len = Ok q' -> idx_tail q' = idx_tail q.
Proof.
  unfold forkscan_queue_push_bulk. cbn zeta. destruct (if _ >? 0 then _ else _) as [[e1 h1] |]; [| done]. rewrite bind_ok.
  destruct (if _ >? 0 then _ else _) as [[e2 h2] |]; [| done]. rewrite bind_ok. by intros [= <-].
Qed.

Lemma run_op_ok cap k o q l out l' : 0 <= k -> stands_for cap (pushed_by o + k) q l -> list_op cap o l = Some (out, l') ->
  exists q', run_op o q = Ok (out, q') /\ stands_for cap k q' l'.
Proof.
  intros Hk [W Ec El Hz Hi] E. pose proof (wf_tail q W) as Ht. pose proof (length_contents q W) as Hs. rewrite El in Hs.
  pose proof (zlen_nonneg l). destruct o as [value | values | | len]; unfold run_op, list_op, pushed_by in *.
  - destruct (Z.ltb_spec (zlen l) (cap - 1)), (Z.eqb_spec value 0); try done. injection E as <- <-.
    pose proof (queue_push_appends q value W) as P. destruct (forkscan_queue_push q value) as [q' | err] eqn:Eq; [| lia].
    destruct P as (_ & W' & Ec' & El'). rewrite bind_ok. exists q'. split; [done |]. rewrite El in El'.
    split; [done | by rewrite Ec' | done | | rewrite zlen_app, (push_tail _ _ _ Eq); change (zlen [value]) with 1; lia].
    rewrite not_elem_of_app, list_elem_of_singleton. split; [done | by apply not_eq_sym].
  - destruct (Z.leb_spec (zlen l + zlen values) (cap - 1)); [| done]. destruct (forallb _ values) eqn:Ef; [| done]. injection E as <- <-.
    destruct (queue_push_bulk_appends q values W ltac:(rewrite El; lia)) as (q' & Eq & W' & Ec' & El').
    rewrite Eq, bind_ok. exists q'. split; [done |]. rewrite El in El'.
    split; [done | by rewrite Ec' | done | | rewrite zlen_app, (push_bulk_tail _ _ _ _ Eq); lia].
    rewrite not_elem_of_app. split; [done |]. intros Hin. apply list_elem_of_In in Hin.
    by apply (proj1 (forallb_forall _ _) Ef) in Hin.
  - destruct l as [| x l]; [done |]. injection E as <- <-. rewrite zlen_cons in *. pose proof (zlen_nonneg l).
    destruct (queue_pop_ok q x l W ltac:(lia) El) as (q' & Eq & W' & Ec' & El'). rewrite Eq, bind_ok. exists q'. split; [done |].
    apply not_elem_of_cons in Hz as [_ Hz]. split; [done | by rewrite Ec' | done | done |].
    unfold forkscan_queue_pop in Eq. destruct (rd _ _); [| done]. rewrite bind_ok in Eq. injection Eq as _ <-. cbn.
    unfold MAX_IDX in *. pose proof (wf_cap_bounds q W). rewrite u64_small by (unfold size_ok; lia). lia.
  - destruct (Z.leb_spec 0 len), (Z.ltb_spec len 0xF00000000000000); try done. injection E as <- <-.
    pose proof (wf_order q W) as Ho. pose proof (wf_cap_bounds q W). unfold queue_size in Hs.
    assert (Hn : forall i, 0 <= i < Z.min (queue_size q) len -> queue_nth q i <> 0).
    { intros i Hir E. apply Hz. rewrite <- El, <- E, <- get_contents by lia. apply list_elem_of_lookup. exists (Z.to_nat i).
      apply get_lookup. rewrite El. unfold queue_size in *. lia. }
    destruct (proj1 (wp_iff _ _) (queue_pop_bulk_ok (replicate (Z.to_nat (Z.min len (capacity q))) 0) len q _ W ltac:(lia) eq_refl
      ltac:(unfold zlen, queue_size; rewrite length_replicate; lia) ltac:(unfold queue_size; lia) Hn)) as ([[vs popped] q'] & Eq & -> & Hp & ->).
    rewrite Eq, bind_ok. replace (Z.min (queue_size q) len) with (Z.min (zlen l) len) in * by (unfold queue_size in *; lia).
    apply popped_into_eq in Hp; [| done | unfold queue_size; lia | unfold zlen; rewrite length_replicate; unfold zlen in *; lia].
    rewrite Hp, El. eexists. split.
    { do 2 f_equal. rewrite take_app_le by (rewrite length_take; unfold zlen; lia). by rewrite take_take, Nat.min_id. }
    destruct (advance_tail q (Z.min (zlen l) len) W ltac:(unfold queue_size; lia) ltac:(lia)) as [W' El']. rewrite El in El'.
    split; [done | done | done | | cbn; unfold zlen in *; rewrite length_drop; lia].
    intros Hin. apply Hz. rewrite <- (take_drop (Z.to_nat (Z.min (zlen l) len)) l). apply elem_of_app. by right.
Qed.

Lemma pushes_nonneg os : 0 <= pushes os.
Proof.
  induction os as [| o os IH]; [done |]. unfold pushes. cbn. fold (pushes os).
  destruct o; cbn; [lia | pose proof (zlen_nonneg values); lia | lia | lia].
Qed.

Lemma run_ops_ok cap os q l outs l' : stands_for cap (pushes os) q l -> list_ops cap os l = Some (outs, l') ->
  exists q', run_ops os q = Ok (outs, q') /\ stands_for cap 0 q' l'.
Proof.
  revert q l outs l'. induction os as [| o os IH]; intros q l outs l' S E; cbn in E.
  - injection E as <- <-. by exists q.
  - destruct (list_op cap o l) as [[out l1] |] eqn:E1; [| done]. destruct (list_ops cap os l1) as [[outs1 l2] |] eqn:E2; [| done].
    injection E as <- <-. destruct (run_op_ok cap (pushes os) o q l out l1 (pushes_nonneg os) S E1) as (q1 & Eq & S1).
    destruct (IH q1 l1 outs1 l2 S1 E2) as (q2 & Eq2 & S2). cbn. rewrite Eq, bind_ok, Eq2, bind_ok. by exists q2.
Qed.

(** C23: A queue is a list that is never longer than one less than its
    capacity: every sequence of operations that keeps to the contracts of
    queue.c succeeds, gives what it gives on a list, and leaves a well-formed
    queue that stands for the list that is left; 2^62 values can be pushed
    before an index wraps. *)
Theorem queue_is_list buf k os outs l :
  0 <= k <= 30 -> zlen buf = 2 ^ k -> pushes os <= 2 ^ 62 -> list_ops (2 ^ k) os [] = Some (outs, l) ->
  exists q, run_ops os (forkscan_queue_init buf (2 ^ k)) = Ok (outs, q) /\ queue_wf q /\ contents q = l.
Proof.
  intros Hk Hb Hp E. pose proof (pow2_bounds k Hk).
  assert (W : queue_wf (forkscan_queue_init buf (2 ^ k))).
  { split; cbn; unfold MAX_IDX; [by exists k | done | lia | lia]. }
  assert (S : stands_for (2 ^ k) (pushes os) (forkscan_queue_init buf (2 ^ k)) []).
  { split; [done | done | | apply not_elem_of_nil | unfold MAX_IDX, forkscan_queue_init; cbn [idx_tail]; change (zlen []) with 0; lia].
    apply nil_length_inv. pose proof (length_contents _ W) as Hl. unfold zlen, queue_size in Hl. cbn in Hl. lia. }
  destruct (run_ops_ok _ _ _ _ _ _ S E) as (q & Er & [W' _ Ec _ _]). by exists q.
Qed.

(** * A concrete queue *)

(** Capacity 4, head at 5 and tail at 7: elements 30 and 40, the next push
    wraps. *)
Definition demo_queue : queue_t := mk_queue [0; 0; 0; 30] 4 4 7.

Lemma demo_queue_wf : queue_wf demo_queue.
Proof. split; [by exists 2 | done | unfold MAX_IDX; simpl; lia | simpl; lia]. Qed.

Lemma queue_queries_witness :
  forkscan_queue_is_empty demo_queue = Ok (zlen (contents demo_queue) =? 0) /\
  forkscan_queue_is_full demo_queue = Ok (zlen (contents demo_queue) =? capacity demo_queue - 1) /\
  forkscan_queue_available demo_queue = Ok (capacity demo_queue - 1 - zlen (contents demo_queue)).
Proof. apply (queue_queries demo_queue), demo_queue_wf. Defined.

Lemma queue_push_appends_witness :
  match forkscan_queue_push demo_queue 40 with
  | Ok q' => queue_size demo_queue < capacity demo_queue - 1 /\ queue_wf q' /\
             capacity q' = capacity demo_queue /\ contents q' = contents demo_queue ++ [40]
  | Err err => queue_size demo_queue = capacity demo_queue - 1 /\ err = AssertFailed
  end.
Proof. apply (queue_push_appends demo_queue 40), demo_queue_wf. Defined.

Lemma queue_push_bulk_appends_witness :
  exists q', forkscan_queue_push_bulk demo_queue [50; 60] (zlen [50; 60]) = Ok q' /\
    queue_wf q' /\ capacity q' = capacity demo_queue /\ contents q' = contents demo_queue ++ [50; 60].
Proof.
  apply (queue_push_bulk_appends demo_queue [50; 60]); [apply demo_queue_wf | by vm_compute].
Defined.

Lemma queue_pop_bulk_takes_witness :
  let n := Z.min (zlen (contents demo_queue)) 8 in
  exists q', forkscan_queue_pop_bulk [7; 8] 8 demo_queue =
      Ok (take (Z.to_nat n) (contents demo_queue) ++ drop (Z.to_nat n) [7; 8], n, q') /\
    queue_wf q' /\ capacity q' = capacity demo_queue /\
    contents q' = drop (Z.to_nat n) (contents demo_queue).
Proof.
  apply (queue_pop_bulk_takes [7; 8] 8 demo_queue);
    [apply demo_queue_wf | lia | by vm_compute | by vm_compute |].
  vm_compute. by intros [? | []%not_elem_of_nil]%elem_of_cons.
Defined.

(** Four places, of which three can be used; the second bulk push wraps. *)
Lemma queue_is_list_witness :
  exists q, run_ops [PushBulk [3; 5]; Pop; PushBulk [7; 9]; PopBulk 2; Push 11] (forkscan_queue_init [0; 0; 0; 0] (2 ^ 2)) =
      Ok ([[]; [3]; []; [5; 7]; []], q) /\ queue_wf q /\ contents q = [9; 11].
Proof. apply (queue_is_list [0; 0; 0; 0] 2); [lia | reflexivity | by vm_compute | reflexivity]. Defined.
