(* ===== verification/Spsc.v ===== *)
(** queue.c under its two threads.  queue.h calls the queue "thread-safe,
    linearizable", "assuming single-reader, single-writer usage": here the
    writer ([forkscan_queue_push] and [forkscan_queue_is_full], as
    [forkscan_retire] calls them) and the reader ([forkscan_queue_pop_bulk],
    as the reclaimer calls it) interleave at every access of the shared
    structure, one word of the buffer at a time.  The theorems: nothing fails,
    each run is a run of a first-in first-out queue, and the reader needs no
    help to finish. *)
From S2P Require Import Prelude Queue.

(** * The two threads *)

(** What an outside observer sees of an operation, at the access that makes
    it take effect. *)
Inductive event_t : Type :=
  | Pushed (value : Z)
  | Full (answer : bool)
  | Empty
  | Popped (values : list Z).

(** The writer: between operations, knowing whether the last test found room;
    in [forkscan_queue_push] before the store, the increment and the
    assertion; in [forkscan_queue_is_full] before the assertion and the
    comparison. *)
Inductive writer_t : Type :=
  | WIdle (room : bool)
  | WStore (value : Z)
  | WBump (value : Z)
  | WAssert
  | WTestAssert
  | WTest.

(** The reader, in [forkscan_queue_pop_bulk]: before [idx_head] is read; in
    the first [memcpy] with [k] words copied; in the second; before the store
    to [idx_tail]; before the debug build's check; before the return. *)
Inductive reader_t : Type :=
  | RIdle
  | RSize (len : Z)
  | RWrap (idx_head popped start elements k : Z)
  | RDrain (idx_head popped values_offset start elements k : Z)
  | RStore (idx_head popped : Z)
  | RCheck (popped : Z)
  | RRet (popped : Z).

(** The writer's next access. *)
Definition writer_step (q : queue_t) (w : writer_t) : res (queue_t * writer_t * option event_t) :=
  match w with
  | WIdle room => Ok (q, w, None)
  | WStore value =>
      let! e' := wr (e q) (INDEXIFY (idx_head q) (capacity q)) value in
      Ok (mk_queue e' (capacity q) (idx_head q) (idx_tail q), WBump value, None)
  | WBump value =>
      Ok (mk_queue (e q) (capacity q) (u64 (idx_head q + 1)) (idx_tail q), WAssert, Some (Pushed value))
  | WAssert => assert (idx_head q <? idx_tail q) ;! Ok (q, WIdle false, None)
  | WTestAssert => assert (idx_head q <? idx_tail q) ;! Ok (q, WTest, None)
  | WTest =>
      let full := u64 (idx_head q + 1) >=? idx_tail q in
      Ok (q, WIdle (negb full), Some (Full full))
  end.

(** The reader's next access; [values] points [base] words into [out]. *)
Definition reader_step (base : Z) (q : queue_t) (out : list Z) (r : reader_t)
    : res (queue_t * list Z * reader_t * option event_t) :=
  match r with
  | RIdle => Ok (q, out, r, None)
  | RSize len =>
      let idx_head0 := idx_head q in
      let size := u64 (idx_head0 - u64 (idx_tail q - capacity q)) in
      assert (len <? 0xF00000000000000) ;!
      if size =? 0 then Ok (q, out, RRet 0, Some Empty) else
      let '(idx_head1, size) :=
        if size >? len then (u64 (idx_head0 - u64 (size - len)), len) else (idx_head0, size) in
      let head := INDEXIFY idx_head1 (capacity q) in
      let start := INDEXIFY (idx_tail q) (capacity q) in
      if head <? start
      then Ok (q, out, RWrap idx_head1 size start (u64 (capacity q - start)) 0, None)
      else Ok (q, out, RDrain idx_head1 size 0 start (u64 (head - start)) 0, None)
  | RWrap idx_head1 popped start elements k =>
      if k <? elements then
        let! v := rd (e q) (start + k) in
        let! out := wr out (base + k) v in
        Ok (q, out, RWrap idx_head1 popped start elements (k + 1), None)
      else
        let head := INDEXIFY idx_head1 (capacity q) in
        Ok (q, out, RDrain idx_head1 popped elements 0 (u64 (head - 0)) 0, None)
  | RDrain idx_head1 popped values_offset start elements k =>
      if k <? elements then
        let! v := rd (e q) (start + k) in
        let! out := wr out (base + values_offset + k) v in
        Ok (q, out, RDrain idx_head1 popped values_offset start elements (k + 1), None)
      else Ok (q, out, RStore idx_head1 popped, None)
  | RStore idx_head1 popped =>
      Ok (mk_queue (e q) (capacity q) (idx_head q) (u64 (idx_head1 + capacity q)), out, RCheck popped,
          Some (Popped (slice out base popped)))
  | RCheck popped =>
      for_range 0 popped (fun i _ =>
        let! v := rd out (base + i) in assert (negb (v =? 0))) tt ;!
      Ok (q, out, RRet popped, None)
  | RRet popped => Ok (q, out, RIdle, None)
  end.

Record spsc_t : Type := mk_spsc {
  queue : queue_t;
  values : list Z;
  writer : writer_t;
  reader : reader_t }.

(** A value may be pushed when the last test found room; it is not null, and
    the 64 bits of the index suffice for it. *)
Definition may_push (q : queue_t) (w : writer_t) (value : Z) : Prop :=
  w = WIdle true /\ value <> 0 /\ idx_head q + capacity q < MAX_IDX.

(** The writer begins an operation, goes on with it; so does the reader. *)
Inductive writer_moves (q : queue_t) (w : writer_t) : queue_t -> writer_t -> option event_t -> Prop :=
  | writer_pushes value : may_push q w value -> writer_moves q w q (WStore value) None
  | writer_tests room : w = WIdle room -> writer_moves q w q WTestAssert None
  | writer_goes_on q' w' ev : writer_step q w = Ok (q', w', ev) -> writer_moves q w q' w' ev.

Inductive spsc_step (s : spsc_t) : option event_t -> spsc_t -> Prop :=
  | by_writer q' w' ev : writer_moves (queue s) (writer s) q' w' ev ->
      spsc_step s ev (mk_spsc q' (values s) w' (reader s))
  | reader_pops len : reader s = RIdle -> 0 <= len < 0xF00000000000000 -> len <= zlen (values s) ->
      spsc_step s None (mk_spsc (queue s) (values s) (writer s) (RSize len))
  | reader_goes_on q' out' r' ev : reader_step 0 (queue s) (values s) (reader s) = Ok (q', out', r', ev) ->
      spsc_step s ev (mk_spsc q' out' (writer s) r').

Definition events (ev : option event_t) : list event_t := match ev with Some x => [x] | None => [] end.

(** Runs, with what is seen of them. *)
Inductive spsc_run (s : spsc_t) : list event_t -> spsc_t -> Prop :=
  | run_start : spsc_run s [] s
  | run_step tr s1 ev s2 : spsc_run s tr s1 -> spsc_step s1 ev s2 -> spsc_run s (tr ++ events ev) s2.

(** A new queue; its writer knows that there is room. *)
Definition spsc_start (buf out : list Z) (cap : Z) : spsc_t :=
  mk_spsc (forkscan_queue_init buf cap) out (WIdle true) RIdle.

Definition start_ok (buf : list Z) (cap : Z) : Prop :=
  (exists k, 1 <= k <= 30 /\ cap = 2 ^ k) /\ zlen buf = cap.

(** * The specification: a bounded first-in first-out queue *)

Inductive fifo_step (room : Z) : list Z -> event_t -> list Z -> Prop :=
  | fifo_push l value : zlen l < room -> fifo_step room l (Pushed value) (l ++ [value])
  | fifo_full l : fifo_step room l (Full (zlen l =? room)) l
  | fifo_empty : fifo_step room [] Empty []
  | fifo_pop vs l : fifo_step room (vs ++ l) (Popped vs) l.

Definition fifo_or_stutter (room : Z) (l : list Z) (ev : option event_t) (l' : list Z) : Prop :=
  match ev with Some x => fifo_step room l x l' | None => l' = l end.

Definition pushed_of (x : event_t) : list Z := match x with Pushed v => [v] | _ => [] end.
Definition popped_of (x : event_t) : list Z := match x with Popped vs => vs | _ => [] end.

(** * The invariant *)

(** The queue, with the bound that keeps its indices from wrapping. *)
Record queue_inv (q : queue_t) : Prop := {
  qi_wf : queue_wf q;
  qi_big : 2 <= capacity q;
  qi_bound : idx_head q + capacity q <= MAX_IDX;
  qi_nonzero : forall i, 0 <= i < queue_size q -> queue_nth q i <> 0 }.

Definition has_room (q : queue_t) : Prop :=
  idx_head q + 1 < idx_tail q /\ idx_head q + capacity q < MAX_IDX.

Definition writer_inv (q : queue_t) (w : writer_t) : Prop :=
  match w with
  | WIdle true => idx_head q + 1 < idx_tail q
  | WStore value => has_room q /\ value <> 0
  | WBump value => has_room q /\ value <> 0 /\ get (e q) (idx_head q mod capacity q) = value
  | _ => True
  end.

(** What the reader has decided to take, and what of it is in [out]. *)
Definition takes (q : queue_t) (idx_head1 popped : Z) : Prop :=
  popped = idx_head1 - (idx_tail q - capacity q) /\ 0 <= popped <= queue_size q.

Definition copied (base : Z) (q : queue_t) (out : list Z) (n : Z) : Prop :=
  forall i, 0 <= i < n -> get out (base + i) = queue_nth q i.

Definition reader_inv (base : Z) (q : queue_t) (out : list Z) (r : reader_t) : Prop :=
  match r with
  | RIdle => True
  | RRet p => 0 <= p <= capacity q - 1 /\ 0 <= base /\ base + p <= zlen out
  | RSize len => 0 <= len < 0xF00000000000000 /\ 0 <= base /\ base + len <= zlen out
  | RWrap h p start elements k =>
      takes q h p /\ 0 <= base /\ base + p <= zlen out /\
      start = idx_tail q mod capacity q /\ elements = capacity q - start /\ elements <= p /\
      0 <= k <= elements /\ copied base q out k
  | RDrain h p off start elements k =>
      takes q h p /\ 0 <= base /\ base + p <= zlen out /\ 0 <= off /\ off + elements = p /\
      0 <= start /\ start + elements <= capacity q /\
      (forall j, 0 <= j < elements -> (idx_tail q + (off + j)) mod capacity q = start + j) /\
      0 <= k <= elements /\ copied base q out (off + k)
  | RStore h p => takes q h p /\ 0 <= base /\ base + p <= zlen out /\ copied base q out p
  | RCheck p => 0 <= p <= capacity q - 1 /\ 0 <= base /\ base + p <= zlen out /\ forall i, 0 <= i < p -> get out (base + i) <> 0
  end.

(** The writer only adds behind what is there; the reader only takes from the
    front. *)
Definition grows (q q' : queue_t) : Prop :=
  capacity q' = capacity q /\ idx_tail q' = idx_tail q /\ idx_head q <= idx_head q' /\
  forall i, 0 <= i < queue_size q -> queue_nth q' i = queue_nth q i.

Definition shrinks (q q' : queue_t) : Prop :=
  capacity q' = capacity q /\ idx_head q' = idx_head q /\ idx_tail q <= idx_tail q' /\ e q' = e q.

#[global] Instance grows_refl : Reflexive grows.
Proof. intros q. by repeat split. Qed.

#[global] Instance shrinks_refl : Reflexive shrinks.
Proof. intros q. by repeat split. Qed.

Lemma takes_frame q q' h p : grows q q' -> takes q h p -> takes q' h p.
Proof. unfold takes, queue_size. intros (Ec & Et & Hh & _) [-> Hp]. rewrite Ec, Et. lia. Qed.

Lemma copied_frame base q q' out n : grows q q' -> n <= queue_size q -> copied base q out n -> copied base q' out n.
Proof. intros (_ & _ & _ & Hn) Hle Hc i Hi. rewrite Hn by lia. by apply Hc. Qed.

Lemma reader_frame base q q' out r : grows q q' -> reader_inv base q out r -> reader_inv base q' out r.
Proof.
  intros G. pose proof G as (Ec & Et & _ & _). destruct r; cbn; try done.
  - intros (Ht & Hb & Ho & -> & -> & He & Hk & Hc). rewrite Ec, Et. repeat (split; [by eauto using takes_frame |]).
    apply (copied_frame _ q); [done | | done]. unfold takes in Ht. lia.
  - intros (Ht & Hb & Ho & Hf & Hp & Hs & Hcap & Hm & Hk & Hc). rewrite Ec, Et.
    repeat (split; [by eauto using takes_frame |]). apply (copied_frame _ q); [done | | done]. unfold takes in Ht. lia.
  - intros (Ht & Hb & Ho & Hc). repeat (split; [by eauto using takes_frame |]).
    apply (copied_frame _ q); [done | | done]. unfold takes in Ht. lia.
  - by rewrite Ec.
  - by rewrite Ec.
Qed.

Lemma writer_frame q q' w : shrinks q q' -> writer_inv q w -> writer_inv q' w.
Proof.
  intros (Ec & Eh & Ht & Ee). unfold writer_inv, has_room. rewrite Eh, Ee, Ec.
  destruct w as [[] | | | | |]; intuition lia.
Qed.

Lemma queue_inv_size q : queue_inv q -> queue_size q <= capacity q - 1.
Proof. intros I. pose proof (wf_order q (qi_wf q I)). unfold queue_size. lia. Qed.

Lemma contents_size q : queue_inv q -> zlen (contents q) = queue_size q.
Proof. intros I. apply length_contents, I. Qed.

(** Two queues with the same elements have the same contents. *)
Lemma contents_same q q' :
  queue_wf q -> queue_wf q' -> queue_size q' = queue_size q ->
  (forall i, 0 <= i < queue_size q -> queue_nth q' i = queue_nth q i) -> contents q' = contents q.
Proof.
  intros W W' Hs Hn. apply contents_eq; [done | by rewrite length_contents |].
  intros i Hi. rewrite length_contents in Hi by done. rewrite Hn by done. by rewrite get_contents.
Qed.

(** * The writer's accesses *)

Definition writer_post (q : queue_t) (x : queue_t * writer_t * option event_t) : Prop :=
  let '(q', w', ev) := x in
  queue_inv q' /\ writer_inv q' w' /\ grows q q' /\
  fifo_or_stutter (capacity q - 1) (contents q) ev (contents q').

(** The slot behind the last element is not one of the elements'. *)
Lemma store_post q value : queue_inv q -> has_room q -> value <> 0 ->
  wp (writer_step q (WStore value)) (writer_post q).
Proof.
  intros I [Hr Hb] Hv. pose proof (qi_wf q I) as W. pose proof (qi_big q I).
  pose proof (wf_order q W) as Ho. pose proof (index_bounds (idx_head q) q W) as Hi.
  unfold writer_step. rewrite INDEXIFY_mod by done. do 2 wp_step; [done |]. wp_step. unfold writer_post.
  set (q' := mk_queue _ _ _ _).
  assert (W' : queue_wf q') by (split; simpl; [apply W | rewrite zlen_upd; apply W | apply W | done]).
  assert (Hn : forall i, 0 <= i < queue_size q -> queue_nth q' i = queue_nth q i).
  { intros i Hs. unfold queue_size in Hs. rewrite !queue_nth_slot by done. unfold q'. simpl.
    apply get_upd_ne; [lia | apply Z.mod_pos_bound; lia |]. intros E. apply mod_eq_iff in E; lia. }
  split; [split; [done | apply I.. |] |].
  { intros i Hs. rewrite Hn by done. by apply I. }
  split; [split; [done |]; split; [done |]; by apply get_upd_eq |].
  split; [by repeat split |]. by apply contents_same.
Qed.

Lemma bump_post q value : queue_inv q -> writer_inv q (WBump value) ->
  wp (writer_step q (WBump value)) (writer_post q).
Proof.
  intros I ([Hr Hb] & Hv & Hg). pose proof (qi_wf q I) as W. pose proof (qi_big q I). pose proof (qi_bound q I) as Hx.
  pose proof (wf_order q W) as Ho. pose proof (wf_tail q W) as Ht. unfold MAX_IDX in *.
  unfold writer_step. rewrite u64_small by (unfold size_ok; lia). wp_step. unfold writer_post.
  set (q' := mk_queue _ _ _ _).
  assert (W' : queue_wf q') by (split; simpl; [apply W | apply W | done | lia]).
  assert (Hn : forall i, 0 <= i < queue_size q -> queue_nth q' i = queue_nth q i) by done.
  assert (Hz : queue_size q' = queue_size q + 1) by (unfold queue_size; cbn; lia).
  assert (Hl : queue_nth q' (queue_size q) = value).
  { rewrite queue_nth_slot by done. rewrite <- Hg. unfold q', queue_size. cbn. f_equal. f_equal. lia. }
  split; [split; [done | done | cbn; unfold MAX_IDX; lia |] |].
  { intros i Hs. rewrite Hz in Hs. destruct (decide (i = queue_size q)) as [-> | Hne]; [by rewrite Hl |].
    rewrite Hn by lia. apply I. lia. }
  split; [done |]. split; [split; [done |]; split; [done |]; split; [cbn; lia | done] |]. cbn [fifo_or_stutter].
  replace (contents q') with (contents q ++ [value]); [constructor; rewrite contents_size by done; unfold queue_size; lia |].
  symmetry. apply contents_eq; [done | |]; rewrite zlen_app, contents_size by done; change (zlen [value]) with 1.
  - done.
  - intros i Hs. rewrite get_app, contents_size by (done || lia). case_decide as Hc.
    + rewrite get_contents by lia. apply Hn. lia.
    + replace i with (queue_size q) by lia. by rewrite Z.sub_diag.
Qed.

Lemma writer_step_ok q w : queue_inv q -> writer_inv q w -> wp (writer_step q w) (writer_post q).
Proof.
  intros I Iw. pose proof (qi_wf q I) as W. pose proof (wf_order q W) as Ho. pose proof (wf_tail q W) as Ht. pose proof (qi_big q I).
  assert (Ha : (idx_head q <? idx_tail q) = true) by (apply Z.ltb_lt; lia).
  destruct w as [room | value | value | | |].
  - by apply wp_ok.
  - by apply store_post; destruct Iw.
  - by apply bump_post.
  - unfold writer_step. do 2 wp_step; [done | by wp_step].
  - unfold writer_step. do 2 wp_step; [done | by wp_step].
  - unfold writer_step, MAX_IDX in *. rewrite u64_small by (unfold size_ok; lia). wp_step.
    assert (Hf : (idx_head q + 1 >=? idx_tail q) = (zlen (contents q) =? capacity q - 1)).
    { rewrite contents_size by done. unfold queue_size. rewrite Z.geb_leb. bsplit; done || lia. }
    split; [done |]. split; [rewrite Z.geb_leb; by destruct (Z.leb_spec (idx_tail q) (idx_head q + 1)) |].
    split; [done |]. rewrite Hf. constructor.
Qed.

(** * The reader's accesses *)

(** The reader leaves what is before [base] alone. *)
Definition reader_post (base : Z) (q : queue_t) (out : list Z)
    (x : queue_t * list Z * reader_t * option event_t) : Prop :=
  let '(q', out', r', ev) := x in
  queue_inv q' /\ reader_inv base q' out' r' /\ shrinks q q' /\
  zlen out' = zlen out /\ (forall i, 0 <= i < base -> get out' i = get out i) /\
  fifo_or_stutter (capacity q - 1) (contents q) ev (contents q').

(** A step that leaves the queue alone. *)
Lemma reader_local base q out out' r' : queue_inv q -> reader_inv base q out' r' ->
  zlen out' = zlen out -> (forall i, 0 <= i < base -> get out' i = get out i) ->
  reader_post base q out (q, out', r', None).
Proof. intros I Hr Hl Ho. by do 5 (split; [done |]). Qed.

Lemma queue_pos q i : queue_inv q -> 0 <= i < capacity q ->
  (idx_tail q + i) mod capacity q =
  let start := idx_tail q mod capacity q in
  if decide (start + i < capacity q) then start + i else start + i - capacity q.
Proof. intros I Hi. pose proof (qi_big q I). apply ring_pos; lia. Qed.

(** The two ways into the copies, from the absolute index of the last element
    to take. *)
Lemma size_post base q out len : queue_inv q -> reader_inv base q out (RSize len) ->
  wp (reader_step base q out (RSize len)) (reader_post base q out).
Proof.
  intros I (Hlen & Hb & Ho). pose proof (qi_wf q I) as W. pose proof (qi_big q I).
  pose proof (wf_order q W) as Hq. pose proof (wf_tail q W) as Ht. unfold MAX_IDX in *.
  assert (Es : idx_head q - (idx_tail q - capacity q) = queue_size q) by done.
  assert (Hs : 0 <= queue_size q <= capacity q - 1) by lia.
  pose proof (index_bounds (idx_tail q) q W) as Hst. rewrite (wf_buf q W) in Hst.
  unfold reader_step. cbn zeta. rewrite (u64_small (idx_tail q - capacity q)) by (unfold size_ok; lia).
  rewrite Es, (u64_small (queue_size q)) by (unfold size_ok; lia).
  wp_step. wp_step; [apply Z.ltb_lt; lia |]. cbn beta.
  destruct (Z.eqb_spec (queue_size q) 0) as [Hz | Hz].
  { wp_step. split; [done |]. split; [cbn; lia |]. repeat (split; [done |]). cbn [fifo_or_stutter].
    replace (contents q) with (@nil Z); [constructor |]. pose proof (contents_size q I) as E. unfold zlen in E.
    symmetry. apply nil_length_inv. lia. }
  set (n := Z.min (queue_size q) len). set (h := idx_tail q - capacity q + n).
  replace (if queue_size q >? len then _ else _) with (h, n).
  2: { destruct (Z.gtb_spec (queue_size q) len); rewrite ?(u64_small (_ - len)), ?(u64_small (idx_head q - _)) by (unfold size_ok; lia);
       f_equal; lia. }
  cbn beta iota. rewrite !INDEXIFY_mod by done.
  assert (Tk : takes q h n) by (unfold takes; lia).
  assert (Eh : h mod capacity q = (idx_tail q + n) mod capacity q).
  { unfold h. rewrite <- (mod_add_cap (idx_tail q - capacity q + n)) by lia. f_equal. lia. }
  rewrite Eh, queue_pos by (done || lia). cbn zeta. set (start := idx_tail q mod capacity q) in *.
  case_decide; bsplit; try lia; wp_step; apply reader_local; try done.
  - rewrite u64_small by (unfold size_ok; lia). split; [done |]. do 2 (split; [lia |]). split; [done |]. do 3 (split; [lia |]).
    split; [| split; [lia | intros i Hi; lia]]. intros j Hj. rewrite queue_pos by (done || lia). cbn zeta. fold start.
    rewrite decide_True by lia. lia.
  - rewrite u64_small by (unfold size_ok; lia). split; [done |]. do 2 (split; [lia |]). split; [done |].
    do 3 (split; [lia |]). intros i Hi. lia.
Qed.

Lemma wrap_post base q out h p start elements k :
  queue_inv q -> reader_inv base q out (RWrap h p start elements k) ->
  wp (reader_step base q out (RWrap h p start elements k)) (reader_post base q out).
Proof.
  intros I (Tk & Hb & Ho & -> & -> & He & Hk & Hc). pose proof (qi_wf q I) as W. pose proof (qi_big q I).
  pose proof (index_bounds (idx_tail q) q W) as Hst. pose proof (wf_buf q W) as Hbuf. rewrite Hbuf in Hst.
  pose proof (queue_inv_size q I). pose proof Tk as [Ep Hp]. pose proof (wf_cap_bounds q W).
  set (start := idx_tail q mod capacity q) in *. unfold reader_step. destruct (Z.ltb_spec k (capacity q - start)).
  - wp_step. wp_step; [lia |]. wp_step. wp_step; [lia |]. wp_step.
    apply reader_local; [done | | by rewrite zlen_upd | intros i Hi; apply get_upd_ne; lia].
    split; [done |]. rewrite zlen_upd. do 6 (split; [done || lia |]). intros i Hi. rewrite get_upd by lia. case_decide.
    + replace i with k by lia. unfold queue_nth. rewrite queue_pos, decide_True by (done || lia). done.
    + apply Hc. lia.
  - assert (k = capacity q - start) as -> by lia. wp_step. apply reader_local; [done | | done | done].
    rewrite INDEXIFY_mod by done.
    assert (Eh : h mod capacity q = start + p - capacity q).
    { replace h with (idx_tail q - capacity q + p) by lia. rewrite <- mod_add_cap by lia.
      replace (idx_tail q - capacity q + p + capacity q) with (idx_tail q + p) by lia.
      rewrite queue_pos by (done || lia). cbn zeta. fold start. rewrite decide_False by lia. lia. }
    rewrite Eh, u64_small by (unfold size_ok; lia). split; [done |]. do 6 (split; [lia |]).
    split; [| split; [lia | by rewrite Z.add_0_r]]. intros j Hj. rewrite queue_pos by (done || lia). cbn zeta. fold start.
    rewrite decide_False by lia. lia.
Qed.

Lemma drain_post base q out h p off start elements k :
  queue_inv q -> reader_inv base q out (RDrain h p off start elements k) ->
  wp (reader_step base q out (RDrain h p off start elements k)) (reader_post base q out).
Proof.
  intros I (Tk & Hb & Ho & Hf & Hp & Hs & Hcap & Hm & Hk & Hc).
  pose proof (wf_buf q (qi_wf q I)) as Hbuf. unfold reader_step. destruct (Z.ltb_spec k elements).
  - wp_step. wp_step; [lia |]. wp_step. wp_step; [lia |]. wp_step.
    apply reader_local; [done | | by rewrite zlen_upd | intros i Hi; apply get_upd_ne; lia].
    split; [done |]. rewrite zlen_upd. do 8 (split; [done || lia |]). intros i Hi. rewrite get_upd by lia. case_decide.
    + replace i with (off + k) by lia. unfold queue_nth. by rewrite Hm by lia.
    + apply Hc. lia.
  - wp_step. apply reader_local; [done | | done | done]. split; [done |]. do 2 (split; [lia |]).
    replace p with (off + k) by lia. done.
Qed.

(** What was copied is what the store of [idx_tail] takes. *)
Lemma tail_post base q out h p : queue_inv q -> reader_inv base q out (RStore h p) ->
  wp (reader_step base q out (RStore h p)) (reader_post base q out).
Proof.
  intros I ([Ep Hp] & Hb & Ho & Hc). pose proof (qi_wf q I) as W. pose proof (wf_tail q W) as Ht. pose proof (qi_bound q I).
  pose proof (wf_order q W) as Hq. pose proof (wf_cap_bounds q W). unfold queue_size, MAX_IDX in *.
  unfold reader_step. rewrite u64_small by (unfold size_ok; lia). wp_step. replace (h + capacity q) with (idx_tail q + p) by lia.
  destruct (advance_tail q p W Hp ltac:(unfold MAX_IDX; lia)) as [W' Ec]. cbn zeta in W', Ec.
  split; [split; [done | apply I | apply I |] |].
  { intros i Hi. unfold queue_size in Hi. cbn in Hi. unfold queue_nth. cbn.
    replace (idx_tail q + p + i) with (idx_tail q + (p + i)) by lia. apply I. unfold queue_size. lia. }
  split; [split; [cbn; lia |]; do 2 (split; [done |]); intros i Hi; rewrite Hc by done; apply I; unfold queue_size; lia |].
  split; [repeat split; cbn; lia |]. do 2 (split; [done |]). cbn [fifo_or_stutter]. rewrite Ec.
  assert (Et : slice out base p = take (Z.to_nat p) (contents q)).
  { pose proof (contents_size q I) as Hl. unfold zlen, queue_size in Hl. apply list_eq_get; rewrite zlen_slice by lia.
    - unfold zlen. rewrite length_take. lia.
    - intros i Hi. rewrite get_slice, Hc by lia. unfold get. rewrite list_lookup_total_alt, lookup_take_lt by lia.
      rewrite <- list_lookup_total_alt. symmetry. apply get_contents. unfold queue_size. lia. }
  rewrite Et. rewrite <- (take_drop (Z.to_nat p) (contents q)) at 1. constructor.
Qed.

Lemma check_post base q out p : queue_inv q -> reader_inv base q out (RCheck p) ->
  wp (reader_step base q out (RCheck p)) (reader_post base q out).
Proof.
  intros I (Hp & Hb & Ho & Hz). unfold reader_step. wp_step.
  apply (wp_for_range (fun _ _ => True)); [lia | done | |].
  - intros i [] Hi _. wp_step. wp_step; [lia |]. wp_step; [| done]. by rewrite (proj2 (Z.eqb_neq _ _)) by (by apply Hz).
  - intros [] _. wp_step. apply reader_local; [done | cbn; lia | done | done].
Qed.

Lemma reader_step_ok base q out r : queue_inv q -> reader_inv base q out r ->
  wp (reader_step base q out r) (reader_post base q out).
Proof.
  intros I Hr. destruct r.
  - by apply wp_ok, reader_local.
  - by apply size_post.
  - by apply wrap_post.
  - by apply drain_post.
  - by apply tail_post.
  - by apply check_post.
  - by apply wp_ok, reader_local.
Qed.

(** * Both threads *)

Lemma writer_moves_ok q w q' w' ev : queue_inv q -> writer_inv q w -> writer_moves q w q' w' ev ->
  writer_post q (q', w', ev).
Proof.
  intros I Iw [value (-> & Hv & Hb) | room -> | q1 w1 ev1 E].
  - by do 3 (split; [done |]).
  - by do 3 (split; [done |]).
  - pose proof (writer_step_ok q w I Iw) as Hp. by rewrite E in Hp.
Qed.

Record spsc_inv (s : spsc_t) : Prop := {
  si_queue : queue_inv (queue s);
  si_writer : writer_inv (queue s) (writer s);
  si_reader : reader_inv 0 (queue s) (values s) (reader s) }.

Lemma queue_init_inv buf cap : start_ok buf cap ->
  queue_inv (forkscan_queue_init buf cap) /\ contents (forkscan_queue_init buf cap) = [].
Proof.
  intros [(k & Hk & Ec) Hl]. pose proof (pow2_bounds k ltac:(lia)).
  assert (2 <= cap) by (rewrite Ec; change 2 with (2 ^ 1) at 1; apply Z.pow_le_mono_r; lia).
  assert (W : queue_wf (forkscan_queue_init buf cap)).
  { split; cbn; unfold MAX_IDX; [exists k; split; [lia | done] | done | lia | lia]. }
  assert (Hs : queue_size (forkscan_queue_init buf cap) = 0) by (unfold queue_size; cbn; lia).
  split; [split; [done | done | cbn; unfold MAX_IDX; lia | rewrite Hs; lia] |].
  apply nil_length_inv. pose proof (length_contents _ W) as E. unfold zlen in E. lia.
Qed.

Lemma spsc_start_inv buf out cap : start_ok buf cap -> spsc_inv (spsc_start buf out cap).
Proof.
  intros H. destruct (queue_init_inv buf cap H) as [I _]. split; [done | | done]. cbn.
  pose proof (qi_big _ I). cbn in *. lia.
Qed.

Lemma spsc_step_inv s ev s' : spsc_inv s -> spsc_step s ev s' ->
  spsc_inv s' /\ capacity (queue s') = capacity (queue s) /\
  fifo_or_stutter (capacity (queue s) - 1) (contents (queue s)) ev (contents (queue s')).
Proof.
  intros [I Iw Ir] [q' w' ev' E | len Er H1 H2 | q' out' r' ev' E].
  - destruct (writer_moves_ok _ _ _ _ _ I Iw E) as (I' & Iw' & G & F). split; [split; [done.. |] | split; [apply G | done]].
    by apply (reader_frame _ (queue s)).
  - split; [split; [done.. |] | done]. cbn. lia.
  - pose proof (reader_step_ok 0 _ _ _ I Ir) as P. rewrite E in P. destruct P as (I' & Ir' & Sh & _ & _ & F).
    split; [split; [done | | done] | split; [apply Sh | done]]. by apply (writer_frame (queue s)).
Qed.

Lemma spsc_run_inv s tr s' : spsc_inv s -> spsc_run s tr s' -> spsc_inv s' /\ capacity (queue s') = capacity (queue s).
Proof.
  intros I. induction 1 as [| tr s1 ev s2 _ [I1 E1] Hs]; [done |].
  destruct (spsc_step_inv _ _ _ I1 Hs) as (I2 & E2 & _). split; [done | by rewrite E2].
Qed.

(** Runs of the specification. *)
Inductive fifo_run (room : Z) (l : list Z) : list event_t -> list Z -> Prop :=
  | fifo_start : fifo_run room l [] l
  | fifo_next tr l1 x l2 : fifo_run room l tr l1 -> fifo_step room l1 x l2 -> fifo_run room l (tr ++ [x]) l2.

Lemma spsc_run_fifo s tr s' : spsc_inv s -> spsc_run s tr s' ->
  fifo_run (capacity (queue s) - 1) (contents (queue s)) tr (contents (queue s')).
Proof.
  intros I. induction 1 as [| tr s1 ev s2 Hr IH Hs]; [constructor |].
  destruct (spsc_run_inv _ _ _ I Hr) as [I1 E1]. destruct (spsc_step_inv _ _ _ I1 Hs) as (_ & _ & F).
  rewrite E1 in F. destruct ev as [x |]; cbn in *; [by econstructor |]. rewrite app_nil_r. by rewrite F.
Qed.

(** What a first-in first-out queue does with its values. *)
Lemma fifo_run_order room l tr l' : fifo_run room l tr l' ->
  l ++ (tr ≫= pushed_of) = (tr ≫= popped_of) ++ l'.
Proof.
  induction 1 as [| tr l1 x l2 _ IH Hs]; [by rewrite app_nil_r |].
  rewrite !bind_app, !app_assoc. cbn. rewrite IH, !app_nil_r. destruct Hs as [l1 v Hv | l1 | | vs l1]; cbn; rewrite ?app_nil_r; try done.
  - by rewrite app_assoc.
  - by rewrite app_assoc.
Qed.

(** How much of a call of [forkscan_queue_pop_bulk] is left. *)
Definition rank (cap : Z) (r : reader_t) : Z :=
  match r with
  | RIdle => 0
  | RRet _ => 1
  | RCheck _ => 2
  | RStore _ _ => 3
  | RDrain _ popped off _ _ k => popped - (off + k) + 4
  | RWrap _ popped _ _ k => popped - k + 5
  | RSize _ => cap + 5
  end.

Lemma rank_bounds base q out r : queue_inv q -> reader_inv base q out r -> 0 <= rank (capacity q) r <= capacity q + 5.
Proof.
  intros I Hr. pose proof (qi_big q I). pose proof (queue_inv_size q I). unfold reader_inv, takes in Hr. destruct r; cbn; lia.
Qed.

(** Every access brings the reader nearer to its return. *)
Lemma rank_step base q out r q' out' r' ev : queue_inv q -> reader_inv base q out r -> r <> RIdle ->
  reader_step base q out r = Ok (q', out', r', ev) -> rank (capacity q') r' < rank (capacity q) r.
Proof.
  intros I Hr Hne E. pose proof (reader_step_ok base q out r I Hr) as P. rewrite E in P.
  destruct P as (I' & Hr' & Sh & _). pose proof (queue_inv_size q I). pose proof (qi_big q I).
  destruct r as [| len | h p start el k | h p off start el k | h p | p | p]; [done | ..].
  - unfold reader_step, bind in E. destruct (assert _); [| done]. destruct (u64 _ =? 0); [injection E as <- <- <- _; cbn; lia |].
    destruct (if _ >? len then _ else _) as [h n] eqn:Ep. destruct (INDEXIFY h _ <? _); injection E as <- <- <- _;
      destruct Hr' as ((_ & Hp) & _); cbn; lia.
  - unfold reader_step, bind in E. destruct (Z.ltb_spec k el).
    + destruct (rd _ _); [| done]. destruct (wr _ _ _); [| done]. injection E as <- <- <- _. cbn. lia.
    + injection E as <- <- <- _. cbn. destruct Hr as (_ & _ & _ & _ & _ & _ & Hk & _). lia.
  - unfold reader_step, bind in E. destruct (Z.ltb_spec k el).
    + destruct (rd _ _); [| done]. destruct (wr _ _ _); [| done]. injection E as <- <- <- _. cbn. lia.
    + injection E as <- <- <- _. cbn. destruct Hr as (_ & _ & _ & _ & Hp & _ & _ & _ & Hk & _). lia.
  - injection E as <- <- <- _. cbn. lia.
  - unfold reader_step, bind in E. destruct (for_range _ _ _ _); [| done]. injection E as <- <- <- _. cbn. lia.
  - injection E as <- <- <- _. cbn. lia.
Qed.

(** A call of [forkscan_queue_pop_bulk] from a point on: [n] accesses of the
    reader, any number of the writer's between them. *)
Inductive during_pop (s : spsc_t) : nat -> spsc_t -> Prop :=
  | pop_start : during_pop s 0 s
  | pop_writer n s1 q' w' ev : during_pop s n s1 -> writer_moves (queue s1) (writer s1) q' w' ev ->
      during_pop s n (mk_spsc q' (values s1) w' (reader s1))
  | pop_reader n s1 q' out' r' ev : during_pop s n s1 -> reader s1 <> RIdle ->
      reader_step 0 (queue s1) (values s1) (reader s1) = Ok (q', out', r', ev) ->
      during_pop s (S n) (mk_spsc q' out' (writer s1) r').

Lemma during_pop_rank s n s' : spsc_inv s -> during_pop s n s' ->
  spsc_inv s' /\ capacity (queue s') = capacity (queue s) /\
  rank (capacity (queue s)) (reader s') + Z.of_nat n <= rank (capacity (queue s)) (reader s).
Proof.
  intros I. induction 1 as [| n s1 q' w' ev _ (I1 & E1 & Hk) Hw | n s1 q' out' r' ev _ (I1 & E1 & Hk) Hne Hs].
  - split; [done |]. split; [done | lia].
  - destruct (spsc_step_inv s1 ev _ I1 (by_writer s1 q' w' ev Hw)) as (I2 & E2 & _). split; [done |].
    split; [by rewrite E2 | done].
  - destruct (spsc_step_inv s1 ev _ I1 (reader_goes_on s1 q' out' r' ev Hs)) as (I2 & E2 & _).
    pose proof (rank_step 0 _ _ _ _ _ _ _ (si_queue _ I1) (si_reader _ I1) Hne Hs) as Hlt. cbn in *.
    rewrite E2, E1 in Hlt. split; [done |]. split; [by rewrite E2 | lia].
Qed.

(** * Driving the machine *)

Inductive choice_t : Type :=
  | Push (value : Z)
  | Test
  | WriterGoes
  | Pop (len : Z)
  | ReaderGoes.

Definition is_writer_idle (w : writer_t) : bool := match w with WIdle _ => true | _ => false end.
Definition is_reader_idle (r : reader_t) : bool := match r with RIdle => true | _ => false end.
Definition knows_room (w : writer_t) : bool := match w with WIdle true => true | _ => false end.

Definition drive1 (c : choice_t) (s : spsc_t) : option (option event_t * spsc_t) :=
  match c with
  | Push v =>
      if knows_room (writer s) && negb (v =? 0) && (idx_head (queue s) + capacity (queue s) <? MAX_IDX)
      then Some (None, mk_spsc (queue s) (values s) (WStore v) (reader s)) else None
  | Test =>
      if is_writer_idle (writer s) then Some (None, mk_spsc (queue s) (values s) WTestAssert (reader s)) else None
  | WriterGoes =>
      match writer_step (queue s) (writer s) with
      | Ok (q, w, ev) => Some (ev, mk_spsc q (values s) w (reader s))
      | Err _ => None
      end
  | Pop len =>
      if is_reader_idle (reader s) && (0 <=? len) && (len <? 0xF00000000000000) && (len <=? zlen (values s))
      then Some (None, mk_spsc (queue s) (values s) (writer s) (RSize len)) else None
  | ReaderGoes =>
      match reader_step 0 (queue s) (values s) (reader s) with
      | Ok (q, out, r, ev) => Some (ev, mk_spsc q out (writer s) r)
      | Err _ => None
      end
  end.

Fixpoint drive (cs : list choice_t) (s : spsc_t) (tr : list event_t) : option (list event_t * spsc_t) :=
  match cs with
  | [] => Some (tr, s)
  | c :: cs => match drive1 c s with Some (ev, s') => drive cs s' (tr ++ events ev) | None => None end
  end.

Lemma drive1_step c s ev s' : drive1 c s = Some (ev, s') -> spsc_step s ev s'.
Proof.
  destruct c as [v | | | len |]; unfold drive1.
  - destruct (writer s) as [[] | | | | |] eqn:Ew; cbn; try done.
    destruct (Z.eqb_spec v 0), (Z.ltb_spec (idx_head (queue s) + capacity (queue s)) MAX_IDX); cbn; try done.
    intros [= <- <-]. apply by_writer. by constructor.
  - destruct (writer s) as [room | | | | |] eqn:Ew; cbn; try done. intros [= <- <-]. apply by_writer. by eapply writer_tests.
  - destruct (writer_step _ _) as [[[q w] ev'] |] eqn:E; [| done]. intros [= <- <-]. apply by_writer. by apply writer_goes_on.
  - destruct (reader s) eqn:Er; cbn; try done. bsplit; cbn; try done. intros [= <- <-]. by apply reader_pops.
  - destruct (reader_step _ _ _ _) as [[[[q out] r] ev'] |] eqn:E; [| done]. intros [= <- <-]. by apply reader_goes_on.
Qed.

Lemma drive_run s0 cs s tr tr' s' : spsc_run s0 tr s -> drive cs s tr = Some (tr', s') -> spsc_run s0 tr' s'.
Proof.
  revert s tr. induction cs as [| c cs IH]; intros s tr Hr; cbn; [by intros [= <- <-] |].
  destruct (drive1 c s) as [[ev s1] |] eqn:E; [| done]. apply IH. by eapply run_step, drive1_step.
Qed.

(** * Properties *)

Section properties.
Context (buf out : list Z) (cap : Z) (Hstart : start_ok buf cap).

(** C12: The queue is linearizable for one reader and one writer, as queue.h says:
    what is seen of any interleaving of their accesses is a run of a bounded
    first-in first-out queue, a push taking effect at the increment of
    [idx_head], a test at the comparison, a pop at the store of [idx_tail] or,
    when it finds nothing, at the read of [idx_head]. *)
Theorem queue_linearizable tr s :
  spsc_run (spsc_start buf out cap) tr s -> fifo_run (cap - 1) [] tr (contents (queue s)).
Proof using Hstart.
  intros H. destruct (queue_init_inv buf cap Hstart) as [_ E]. rewrite <- E.
  exact (spsc_run_fifo _ _ _ (spsc_start_inv buf out cap Hstart) H).
Qed.

(** The values popped, followed by those still in the queue, are the
    values pushed, in the same order: none is lost, invented or read twice. *)
Theorem popped_in_order tr s :
  spsc_run (spsc_start buf out cap) tr s -> tr ≫= pushed_of = (tr ≫= popped_of) ++ contents (queue s).
Proof using Hstart.
  intros H. destruct (queue_init_inv buf cap Hstart) as [_ E].
  apply (fifo_run_order (cap - 1) []). rewrite <- E at 1. by apply (spsc_run_fifo _ _ _ (spsc_start_inv buf out cap Hstart)).
Qed.

(** Neither thread's next access fails, whatever the other has done: no
    assertion of queue.c, no access outside the buffer or the output array. *)
Theorem queue_never_fails tr s :
  spsc_run (spsc_start buf out cap) tr s ->
  (exists x, writer_step (queue s) (writer s) = Ok x) /\
  (exists x, reader_step 0 (queue s) (values s) (reader s) = Ok x).
Proof using Hstart.
  intros H. destruct (spsc_run_inv _ _ _ (spsc_start_inv buf out cap Hstart) H) as [[I Iw Ir] _]. split.
  - destruct (proj1 (wp_iff _ _) (writer_step_ok _ _ I Iw)) as (x & E & _). by exists x.
  - destruct (proj1 (wp_iff _ _) (reader_step_ok 0 _ _ _ I Ir)) as (x & E & _). by exists x.
Qed.

(** C28: A call of [forkscan_queue_pop_bulk] ends after at most [capacity + 5]
    accesses of the reader, however many the writer makes meanwhile. *)
Theorem pop_wait_free tr s n s' :
  spsc_run (spsc_start buf out cap) tr s -> during_pop s n s' -> Z.of_nat n <= cap + 5.
Proof using Hstart.
  intros H Hp. destruct (spsc_run_inv _ _ _ (spsc_start_inv buf out cap Hstart) H) as [I Ec].
  destruct (during_pop_rank _ _ _ I Hp) as (I' & Ec' & Hk).
  pose proof (rank_bounds 0 _ _ _ (si_queue _ I) (si_reader _ I)).
  pose proof (rank_bounds 0 _ _ _ (si_queue _ I') (si_reader _ I')). cbn in *. rewrite Ec' in *. lia.
Qed.
End properties.

(** ** Witnesses *)

(** Two values pushed while the reader is between its accesses: it takes the
    first, and the second stays. *)
Definition demo_choices : list choice_t :=
  [Push 5; WriterGoes; WriterGoes; Pop 3; ReaderGoes; WriterGoes; Test; WriterGoes; WriterGoes; Push 7; WriterGoes;
   ReaderGoes; WriterGoes; ReaderGoes; ReaderGoes].

Definition demo_buf : list Z := [0; 0; 0; 0].
Definition demo_spsc : spsc_t := spsc_start demo_buf [0; 0; 0] 4.
Definition demo_events : list event_t := [Pushed 5; Full false; Pushed 7; Popped [5]].
Definition demo_after : spsc_t :=
  mk_spsc (mk_queue [5; 7; 0; 0] 4 2 5) [5; 0; 0] WAssert (RCheck 1).

Lemma demo_start_ok : start_ok demo_buf 4.
Proof. split; [exists 2; split; [lia | done] | done]. Qed.

Lemma demo_runs : spsc_run demo_spsc demo_events demo_after.
Proof. apply (drive_run demo_spsc demo_choices demo_spsc []); [constructor | vm_compute; reflexivity]. Qed.

Lemma queue_linearizable_witness : fifo_run 3 [] demo_events [7].
Proof. exact (queue_linearizable demo_buf [0; 0; 0] 4 demo_start_ok demo_events demo_after demo_runs). Defined.

Lemma popped_in_order_witness : [5; 7] = [5] ++ contents (queue demo_after).
Proof. exact (popped_in_order demo_buf [0; 0; 0] 4 demo_start_ok demo_events demo_after demo_runs). Defined.

Lemma queue_never_fails_witness : exists x, reader_step 0 (queue demo_after) [5; 0; 0] (RCheck 1) = Ok x.
Proof. exact (proj2 (queue_never_fails demo_buf [0; 0; 0] 4 demo_start_ok demo_events demo_after demo_runs)). Defined.

(** That call from its first access to its end: six accesses of the reader, and
    one of the writer's after the first. *)
Definition demo_at_pop : spsc_t := mk_spsc (mk_queue [5; 0; 0; 0] 4 1 4) [0; 0; 0] WAssert (RSize 3).
Definition demo_popped : spsc_t := mk_spsc (mk_queue [5; 0; 0; 0] 4 1 5) [5; 0; 0] (WIdle false) RIdle.

Lemma demo_at_pop_runs : spsc_run demo_spsc [Pushed 5] demo_at_pop.
Proof. apply (drive_run demo_spsc (take 4 demo_choices) demo_spsc []); [constructor | vm_compute; reflexivity]. Qed.

Lemma demo_pops : during_pop demo_at_pop 6 demo_popped.
Proof.
  pose proof (pop_start demo_at_pop) as H.
  eapply pop_reader in H; [| discriminate | vm_compute; reflexivity].
  eapply pop_writer in H; [| apply writer_goes_on; vm_compute; reflexivity].
  do 5 (eapply pop_reader in H; [| discriminate | vm_compute; reflexivity]).
  exact H.
Qed.

Lemma pop_wait_free_witness : 6 <= 4 + 5.
Proof. exact (pop_wait_free demo_buf [0; 0; 0] 4 demo_start_ok [Pushed 5] demo_at_pop 6 demo_popped demo_at_pop_runs demo_pops). Defined.
