(* ===== verification/Gather.v ===== *)
(** frontend.c: [generate_working_pointers_list] while threads retire.

    Every thread has a queue of its own, which it alone writes; the thread
    that holds the reclaimer's lock empties the queues one after the other
    into its working buffer and hands the buffer over.  The other threads do
    not wait for it: their pushes and tests ([Spsc]) interleave with the
    reclaimer at every access.  The theorems: nothing that was retired is lost
    or handed over twice, what was in the queues when the walk began is in the
    buffer when it ends, and the assertion at its end holds. *)
From S2P Require Import Prelude Buffer Queue Spsc.

(** A thread's queue, and what the thread is doing with it. *)
Record thread_t : Type := mk_thread {
  ptr_list : queue_t;
  act : writer_t }.

(** The reclaimer: at the [k]-th thread of the list with [n] pointers
    collected, in the call of [forkscan_queue_pop_bulk] there ([RIdle]: before
    it); before the assertion; before [forkscan_initiate_collection]. *)
Inductive reclaimer_t : Type :=
  | Walk (k : nat) (n : Z) (r : reader_t)
  | Assert (n : Z)
  | Hand (n : Z).

(** [addrs] is the array of the buffer from [forkscan_make_reclaimer_buffer];
    [handed] are the lists given to [forkscan_initiate_collection]. *)
Record gather_t : Type := mk_gather {
  threads : list thread_t;
  lock : option (nat * reclaimer_t);
  addrs : list Z;
  handed : list (list Z) }.

Definition set_queue (q : queue_t) (t : thread_t) : thread_t := mk_thread q (act t).

(** The reclaimer's next access, for thread [i]; [max_ptrs] is that of
    [g_config]. *)
Definition reclaimer_step (max_ptrs : Z) (s : gather_t) (i : nat) (g : reclaimer_t) : res gather_t :=
  let walk ts out k n r := mk_gather ts (Some (i, Walk k n r)) out (handed s) in
  match g with
  | Walk k n r =>
      match threads s !! k with
      | None => Ok (mk_gather (threads s) (Some (i, Assert n)) (addrs s) (handed s))
      | Some t =>
          match r with
          | RIdle =>
              let! len := int_chk (max_ptrs - n) in
              Ok (walk (threads s) (addrs s) k n (RSize (u64 len)))
          | RRet m =>
              let! n := int_chk (n + m) in
              Ok (walk (threads s) (addrs s) (S k) n RIdle)
          | _ =>
              let! '(q, out, r, _) := reader_step n (ptr_list t) (addrs s) r in
              Ok (walk (<[k := set_queue q t]> (threads s)) out k n r)
          end
      end
  | Assert n =>
      match threads s !! i with
      | None => Err NullDeref
      | Some t =>
          let! full := forkscan_queue_is_full (ptr_list t) in
          assert (negb full) ;!
          Ok (mk_gather (threads s) (Some (i, Hand n)) (addrs s) (handed s))
      end
  | Hand n => Ok (mk_gather (threads s) None (addrs s) (handed s ++ [slice (addrs s) 0 n]))
  end.

(** A thread goes on with its queue, unless it is the reclaimer; it becomes
    the reclaimer between two operations on its queue, with a buffer of
    [max_ptrs] words; the reclaimer goes on. *)
Inductive gather_step (max_ptrs : Z) (s : gather_t) : list Z -> gather_t -> Prop :=
  | thread_goes_on i t q w ev : threads s !! i = Some t -> (forall g, lock s <> Some (i, g)) ->
      writer_moves (ptr_list t) (act t) q w ev ->
      gather_step max_ptrs s (events ev ≫= pushed_of)
        (mk_gather (<[i := mk_thread q w]> (threads s)) (lock s) (addrs s) (handed s))
  | becomes_reclaimer i t room out : lock s = None -> threads s !! i = Some t -> act t = WIdle room ->
      zlen out = max_ptrs ->
      gather_step max_ptrs s [] (mk_gather (threads s) (Some (i, Walk 0 0 RIdle)) out (handed s))
  | reclaimer_goes_on i g s' : lock s = Some (i, g) -> reclaimer_step max_ptrs s i g = Ok s' ->
      gather_step max_ptrs s [] s'.

(** Runs, with the values retired in them. *)
Inductive gather_run (max_ptrs : Z) (s : gather_t) : list Z -> gather_t -> Prop :=
  | gather_stays : gather_run max_ptrs s [] s
  | gather_goes vs s1 v s2 : gather_run max_ptrs s vs s1 -> gather_step max_ptrs s1 v s2 ->
      gather_run max_ptrs s (vs ++ v) s2.

Definition gather_start (bufs : list (list Z)) (cap : Z) : gather_t :=
  mk_gather ((fun buf => mk_thread (forkscan_queue_init buf cap) (WIdle true)) <$> bufs) None [] [].

(** [pthread_create] lets one thread more run than [MAX_THREAD_COUNT], for
    which the buffer has room: it is enough that all the other queues,
    full, leave some. *)
Record gather_ok (bufs : list (list Z)) (cap max_ptrs : Z) : Prop := {
  go_bufs : forall buf, buf ∈ bufs -> start_ok buf cap;
  go_cap : 2 <= cap <= 2 ^ 30;
  go_room : (Z.of_nat (length bufs) - 1) * (cap - 1) < max_ptrs;
  go_int : max_ptrs <= INT_MAX }.

(** The code's limits are such: 257 threads, and a buffer for 256 queues. *)
Lemma limits_ok n cap : 0 <= n <= MAX_THREAD_COUNT + 1 -> 2 <= cap <= 2 ^ 20 ->
  (n - 1) * (cap - 1) < cap * MAX_THREAD_COUNT /\ cap * MAX_THREAD_COUNT <= INT_MAX.
Proof. unfold MAX_THREAD_COUNT, INT_MAX. nia. Qed.

(** * What the system holds *)

(** The collected pointers; a pop has added its own once it has moved the
    tail. *)
Definition collected (g : reclaimer_t) : Z :=
  match g with
  | Walk _ n (RCheck m) | Walk _ n (RRet m) => n + m
  | Walk _ n _ | Assert n | Hand n => n
  end.

Definition in_hand (s : gather_t) : list Z :=
  match lock s with Some (_, g) => slice (addrs s) 0 (collected g) | None => [] end.

Definition queued (ts : list thread_t) : list Z := ts ≫= (fun t => contents (ptr_list t)).

Definition held (s : gather_t) : list Z := concat (handed s) ++ in_hand s ++ queued (threads s).

(** * The invariant *)

Definition thread_inv (cap : Z) (t : thread_t) : Prop :=
  queue_inv (ptr_list t) /\ writer_inv (ptr_list t) (act t) /\ capacity (ptr_list t) = cap.

(** The pop leaves at most [b] of what its queue holds. *)
Definition leaves (b : Z) (q : queue_t) (r : reader_t) : Prop :=
  match r with
  | RIdle => True
  | RSize len => queue_size q - len <= b
  | RWrap _ p _ _ _ | RDrain _ p _ _ _ _ | RStore _ p => queue_size q - p <= b
  | RCheck _ | RRet _ => queue_size q <= b
  end.

(** The reclaimer's place: [i]'s own queue is not full once it is passed, for
    the thread itself does not write meanwhile. *)
Definition reclaimer_inv (cap max_ptrs : Z) (s : gather_t) (i : nat) (ti : thread_t) (g : reclaimer_t) : Prop :=
  match g with
  | Walk k n r =>
      (k <= length (threads s))%nat /\ 0 <= n <= Z.min max_ptrs (Z.of_nat k * (cap - 1)) /\
      ((i < k)%nat -> queue_size (ptr_list ti) <= cap - 2) /\
      match threads s !! k with
      | None => r = RIdle
      | Some t => reader_inv n (ptr_list t) (addrs s) r /\ (i = k -> leaves (cap - 2) (ptr_list t) r)
      end
  | Assert n => 0 <= n <= max_ptrs /\ queue_size (ptr_list ti) <= cap - 2
  | Hand n => 0 <= n <= max_ptrs
  end.

Record gather_inv (cap max_ptrs : Z) (s : gather_t) : Prop := {
  gi_threads : forall i t, threads s !! i = Some t -> thread_inv cap t;
  gi_room : (Z.of_nat (length (threads s)) - 1) * (cap - 1) < max_ptrs <= INT_MAX;
  gi_cap : 2 <= cap <= 2 ^ 30;
  gi_lock : forall i g, lock s = Some (i, g) -> zlen (addrs s) = max_ptrs /\
    exists ti, threads s !! i = Some ti /\ (exists room, act ti = WIdle room) /\
      reclaimer_inv cap max_ptrs s i ti g }.

(** Nothing is pushed meanwhile, so the reader's accesses keep to that. *)
Lemma leaves_step b base q out r q' out' r' ev :
  queue_inv q -> reader_inv base q out r -> 0 <= b -> leaves b q r ->
  reader_step base q out r = Ok (q', out', r', ev) -> leaves b q' r'.
Proof.
  intros I Hr Hb0 Ht E. pose proof (qi_wf q I) as W. pose proof (qi_big q I).
  pose proof (wf_order q W) as Ho. pose proof (wf_tail q W) as Hb. unfold MAX_IDX in *.
  destruct r as [| len | h p start el k | h p off start el k | h p | p | p]; cbn in Ht.
  - by injection E as <- <- <- _.
  - unfold reader_step in E. cbn zeta in E. rewrite (u64_small (idx_tail q - capacity q)) in E by (unfold size_ok; lia).
    replace (idx_head q - _) with (queue_size q) in E by done.
    rewrite (u64_small (queue_size q)) in E by (unfold queue_size, size_ok; lia). unfold bind in E. destruct (assert _); [| done].
    destruct (Z.eqb_spec (queue_size q) 0) as [Hz |]; [injection E as <- <- <- _; cbn; lia |].
    destruct (Z.gtb_spec (queue_size q) len); cbn iota in E;
      destruct (INDEXIFY _ _ <? _); injection E as <- <- <- _; cbn; lia.
  - unfold reader_step, bind in E. destruct (k <? el); [| by injection E as <- <- <- _].
    destruct (rd _ _); [| done]. destruct (wr _ _ _); [| done]. by injection E as <- <- <- _.
  - unfold reader_step, bind in E. destruct (k <? el); [| by injection E as <- <- <- _].
    destruct (rd _ _); [| done]. destruct (wr _ _ _); [| done]. by injection E as <- <- <- _.
  - destruct Hr as [[Ep Hp] _]. unfold reader_step in E. unfold queue_size in *.
    rewrite u64_small in E by (unfold size_ok; lia). injection E as <- <- <- _. unfold leaves, queue_size. cbn. lia.
  - unfold reader_step, bind in E. destruct (for_range _ _ _ _); [| done]. by injection E as <- <- <- _.
  - by injection E as <- <- <- _.
Qed.

(** ** What a step does to [held] *)

(** A step of a queue changes what the system holds by what it says. *)
Lemma queued_event ts k t t' room ev : ts !! k = Some t ->
  fifo_or_stutter room (contents (ptr_list t)) ev (contents (ptr_list t')) ->
  (events ev ≫= popped_of) ++ queued (<[k := t']> ts) ≡ₚ queued ts ++ (events ev ≫= pushed_of).
Proof.
  intros Hk F. unfold queued. rewrite (bind_insert _ ts k t t' Hk), (bind_lookup _ ts k t Hk).
  generalize (delete k ts ≫= (fun t => contents (ptr_list t))). intros rest.
  destruct ev as [x |]; cbn in F |- *; [| by rewrite F, app_nil_r]. rewrite !app_nil_r.
  inversion F; subst; cbn; rewrite ?app_nil_r, <- ?app_assoc; try done.
  by apply Permutation_app_head, Permutation_app_comm.
Qed.

Lemma slice_split a n p : 0 <= n -> 0 <= p -> n + p <= zlen a -> slice a 0 (n + p) = slice a 0 n ++ slice a n p.
Proof.
  intros Hn Hp Hl. apply list_eq_get; rewrite ?zlen_app, !zlen_slice by lia; [done |]. intros i Hi.
  rewrite get_app, zlen_slice by lia. case_decide; rewrite !get_slice by lia; [done |]. f_equal. lia.
Qed.

Lemma slice_same a b n : zlen a = zlen b -> 0 <= n <= zlen a -> (forall i, 0 <= i < n -> get a i = get b i) ->
  slice a 0 n = slice b 0 n.
Proof.
  intros Hl Hn Hg. apply list_eq_get; rewrite !zlen_slice by lia; [done |]. intros i Hi.
  rewrite !get_slice by lia. by apply Hg.
Qed.

(** What a step of a pop says is what it adds to what is collected. *)
Lemma collected_event base q out r q' out' r' ev k :
  queue_inv q -> reader_inv base q out r -> reader_step base q out r = Ok (q', out', r', ev) ->
  r <> RIdle -> (forall m, r <> RRet m) -> 0 <= base <= zlen out ->
  slice out' 0 (collected (Walk k base r')) = slice out 0 (collected (Walk k base r)) ++ (events ev ≫= popped_of).
Proof.
  intros I Hr E Hi Hret Hb. pose proof (reader_step_ok base q out r I Hr) as P. rewrite E in P.
  destruct P as (I' & Hr' & _ & Hl & Ho & _).
  assert (Hs : slice out' 0 base = slice out 0 base) by (apply slice_same; [done | lia | done]).
  destruct r as [| len | h p start el j | h p off start el j | h p | p | p]; [done | .. | by destruct (Hret p)].
  - unfold reader_step, bind in E. destruct (assert _); [| done]. destruct (u64 _ =? 0).
    { injection E as <- <- <- <-. cbn. by rewrite Z.add_0_r, app_nil_r. }
    destruct (if _ >? len then _ else _) as [h n]. destruct (INDEXIFY h _ <? _); injection E as <- <- <- <-; cbn; by rewrite app_nil_r.
  - unfold reader_step, bind in E. destruct (j <? el); [| by injection E as <- <- <- <-; cbn; rewrite app_nil_r].
    destruct (rd _ _); [| done]. destruct (wr _ _ _); [| done]. injection E as <- <- <- <-. cbn. by rewrite app_nil_r.
  - unfold reader_step, bind in E. destruct (j <? el); [| by injection E as <- <- <- <-; cbn; rewrite app_nil_r].
    destruct (rd _ _); [| done]. destruct (wr _ _ _); [| done]. injection E as <- <- <- <-. cbn. by rewrite app_nil_r.
  - destruct Hr as ([_ Hp] & Hb0 & Hz & _). injection E as <- <- <- <-. cbn. rewrite app_nil_r. apply slice_split; lia.
  - unfold reader_step, bind in E. destruct (for_range _ _ _ _); [| done]. injection E as <- <- <- <-. cbn. by rewrite app_nil_r.
Qed.

(** ** The threads' steps *)

(** Another thread's step leaves the reclaimer's place as it is. *)
Lemma reclaimer_inv_frame cap max_ptrs s i ti g j t t' :
  threads s !! j = Some t -> i <> j -> grows (ptr_list t) (ptr_list t') ->
  reclaimer_inv cap max_ptrs s i ti g ->
  reclaimer_inv cap max_ptrs (mk_gather (<[j := t']> (threads s)) (lock s) (addrs s) (handed s)) i ti g.
Proof.
  intros Hj Hne G. destruct g as [k n r | n | n]; try done. cbn. rewrite length_insert. intros (Hk & Hn & Hi & Hr).
  do 3 (split; [done |]). destruct (decide (j = k)) as [<- | Hjk].
  - rewrite Hj in Hr. rewrite list_lookup_insert_eq by (by apply lookup_lt_Some in Hj). destruct Hr as [Hr _].
    split; [by apply (reader_frame _ (ptr_list t)) | done].
  - by rewrite list_lookup_insert_ne.
Qed.

Lemma writer_pops_nothing q w q' w' ev : writer_moves q w q' w' ev -> events ev ≫= popped_of = [].
Proof.
  intros [| | q1 w1 ev1 E]; [done | done |]. destruct w; unfold writer_step, bind in E;
    try (destruct (wr _ _ _); [| done]); try (destruct (assert _); [| done]); by injection E as _ _ <-.
Qed.

Lemma thread_goes_on_ok cap max_ptrs s i t q w ev :
  gather_inv cap max_ptrs s -> threads s !! i = Some t -> (forall g, lock s <> Some (i, g)) ->
  writer_moves (ptr_list t) (act t) q w ev ->
  let s' := mk_gather (<[i := mk_thread q w]> (threads s)) (lock s) (addrs s) (handed s) in
  gather_inv cap max_ptrs s' /\ held s' ≡ₚ held s ++ (events ev ≫= pushed_of).
Proof.
  intros [It Ir Ic Il] Hi Hl Hw s'. destruct (It i t Hi) as (I & Iw & Ec).
  destruct (writer_moves_ok _ _ _ _ _ I Iw Hw) as (I' & Iw' & G & F). split.
  - split; [| by cbn; rewrite length_insert | done |].
    + intros j u. cbn. intros Hj. destruct (decide (j = i)) as [-> | Hne].
      * rewrite list_lookup_insert_eq in Hj by (by apply lookup_lt_Some in Hi). injection Hj as <-.
        split; [done |]. split; [done |]. cbn. destruct G as [E _]. by rewrite E.
      * rewrite list_lookup_insert_ne in Hj by done. by apply (It j).
    + intros j g Hg. cbn in Hg. assert (Hne : j <> i) by (intros ->; by apply (Hl g)).
      destruct (Il j g Hg) as (Hz & ti & Hti & Ha & Hinv). split; [done |]. exists ti. cbn.
      rewrite list_lookup_insert_ne by done. do 2 (split; [done |]). by apply (reclaimer_inv_frame _ _ _ _ _ _ _ t).
  - unfold held, s'. cbn [handed threads].
    pose proof (queued_event (threads s) i t (mk_thread q w) _ ev Hi F) as P.
    rewrite (writer_pops_nothing _ _ _ _ _ Hw) in P. cbn in P. rewrite P, <- !app_assoc. done.
Qed.

(** ** The reclaimer's steps *)

Section reclaimer.
Context (cap max_ptrs : Z) (s : gather_t) (i : nat) (g : reclaimer_t).
Context (I : gather_inv cap max_ptrs s) (Hl : lock s = Some (i, g)).

(** What a step of the reclaimer keeps, and gives. *)
Definition reclaimer_post (s' : gather_t) : Prop := gather_inv cap max_ptrs s' /\ held s' ≡ₚ held s.

(** A step that leaves the queues and the buffer alone. *)
Lemma reclaimer_local ti g' : threads s !! i = Some ti -> zlen (addrs s) = max_ptrs -> (exists room, act ti = WIdle room) ->
  reclaimer_inv cap max_ptrs s i ti g' -> collected g' = collected g ->
  reclaimer_post (mk_gather (threads s) (Some (i, g')) (addrs s) (handed s)).
Proof using I Hl.
  intros Hti Hz Ha Hinv Hc. destruct I as [It Ir Ic Il]. split.
  - split; [done | done | done |]. intros j u [= <- <-]. split; [done |]. by exists ti.
  - unfold held, in_hand. cbn. by rewrite Hl, Hc.
Qed.

(** A step of the pop at the [k]-th thread. *)
Lemma reclaimer_pops k n r t ti : g = Walk k n r -> r <> RIdle -> (forall m, r <> RRet m) ->
  threads s !! k = Some t -> threads s !! i = Some ti -> zlen (addrs s) = max_ptrs ->
  (exists room, act ti = WIdle room) -> reclaimer_inv cap max_ptrs s i ti g ->
  wp (reader_step n (ptr_list t) (addrs s) r) (fun '(q, out, r', _) =>
    reclaimer_post (mk_gather (<[k := set_queue q t]> (threads s)) (Some (i, Walk k n r')) out (handed s))).
Proof using I Hl.
  intros -> Hr1 Hr2 Hk Hti Hz [room Ha] (Hkl & Hn & Hpast & Hrd). rewrite Hk in Hrd. destruct Hrd as [Hrd Hall].
  destruct I as [It Ir Ic Il]. destruct (It k t Hk) as (Iq & Iw & Ec). pose proof (lookup_lt_Some _ _ _ Hk) as Hlt.
  destruct (proj1 (wp_iff _ _) (reader_step_ok n _ _ _ Iq Hrd)) as ([[[q out] r'] ev] & E & I' & Hr' & Sh & Hlo & Ho & F).
  rewrite E. apply wp_ok. pose proof (collected_event _ _ _ _ _ _ _ _ k Iq Hrd E Hr1 Hr2 ltac:(nia)) as Hcol.
  set (t' := set_queue q t).
  assert (Hlk : forall j u, <[k := t']> (threads s) !! j = Some u -> exists u0, threads s !! j = Some u0 /\ act u = act u0 /\
    (j = k /\ u = t' \/ j <> k /\ u = u0)).
  { intros j u Hj. destruct (decide (j = k)) as [-> | Hne].
    - rewrite list_lookup_insert_eq in Hj by done. injection Hj as <-. exists t. split; [done |]. split; [done | by left].
    - rewrite list_lookup_insert_ne in Hj by done. exists u. split; [done |]. split; [done | by right]. }
  split.
  - split; [| by cbn; rewrite length_insert | done |].
    + cbn. intros j u Hj. destruct (Hlk j u Hj) as (u0 & Hu0 & _ & [[-> ->] | [_ ->]]); [| by apply (It j)].
      split; [done |]. split; [by apply (writer_frame (ptr_list t)) |]. cbn. by rewrite (proj1 Sh).
    + intros j u [= <- <-]. cbn. split; [by rewrite Hlo |].
      assert (Hi : is_Some (<[k := t']> (threads s) !! i)).
      { apply lookup_lt_is_Some_2. rewrite length_insert. by apply lookup_lt_Some in Hti. }
      destruct Hi as [ti' Hti']. destruct (Hlk i ti' Hti') as (u0 & Hu0 & Eact & Hcase).
      rewrite Hti in Hu0. injection Hu0 as <-. exists ti'. split; [done |]. split; [exists room; by rewrite Eact |].
      rewrite length_insert, list_lookup_insert_eq by done. split; [done |]. split; [done |]. split.
      * intros Hik. destruct Hcase as [[-> _] | [_ ->]]; [lia | by apply Hpast].
      * split; [done |]. intros Hik. eapply (leaves_step (cap - 2) n (ptr_list t) (addrs s) r); [done | done | lia | by apply Hall | exact E].
  - unfold held, in_hand. cbn [lock handed threads addrs]. rewrite Hl, Hcol, <- app_assoc.
    apply Permutation_app_head, Permutation_app_head.
    rewrite (queued_event (threads s) k t t' _ ev Hk F).
    assert (Hp : events ev ≫= pushed_of = []); [| by rewrite Hp, app_nil_r].
    clear -E. destruct r; unfold reader_step, bind in E;
      repeat (case_match; [|done]); repeat case_match; simplify_eq; done.
Qed.

End reclaimer.

Lemma int_bounds_ok z : 0 <= z <= INT_MAX -> int_ok z.
Proof. unfold int_ok, INT_MIN, INT_MAX. lia. Qed.

(** The walk, the assertion at its end, and the hand-over. *)
Lemma reclaimer_walk_ok cap max_ptrs s i k n r :
  gather_inv cap max_ptrs s -> lock s = Some (i, Walk k n r) ->
  wp (reclaimer_step max_ptrs s i (Walk k n r)) (reclaimer_post cap max_ptrs s).
Proof.
  intros I Hl. destruct (gi_lock _ _ _ I i _ Hl) as (Hz & ti & Hti & Ha & Hinv). pose proof (gi_room _ _ _ I) as Hroom.
  pose proof (gi_cap _ _ _ I) as Hcap. unfold reclaimer_step. cbn zeta. pose proof Hinv as (Hkl & Hn & Hpast & Hrd).
  destruct (threads s !! k) as [t |] eqn:Hk.
  2: { subst r. apply wp_ok. pose proof (lookup_ge_None_1 _ _ Hk). pose proof (lookup_lt_Some _ _ _ Hti).
       apply (reclaimer_local _ _ _ _ _ I Hl ti); [done.. | | done]. split; [lia |]. apply Hpast. lia. }
  pose proof (lookup_lt_Some _ _ _ Hk) as Hlt. assert (Hb : n < max_ptrs) by nia.
  destruct (gi_threads _ _ _ I k t Hk) as (Iq & _ & Ec). pose proof (queue_inv_size _ Iq). destruct Hrd as [Hrd Hall].
  assert (Hpop : r <> RIdle -> (forall m, r <> RRet m) ->
    wp (let! '(q, out, r', _) := reader_step n (ptr_list t) (addrs s) r in
        Ok (mk_gather (<[k := set_queue q t]> (threads s)) (Some (i, Walk k n r')) out (handed s)))
       (reclaimer_post cap max_ptrs s)).
  { intros H1 H2. pose proof (reclaimer_pops _ _ _ _ _ I Hl k n r t ti eq_refl H1 H2 Hk Hti Hz Ha Hinv) as P.
    wp_step. eapply wp_mono; [exact P |]. by intros [[[q out] r'] ev]. }
  destruct r as [| len | h p start el j | h p off start el j | h p | p | m]; try (by apply Hpop); clear Hpop.
  - wp_step. wp_step; [apply int_bounds_ok; lia |]. wp_step. unfold INT_MAX in *.
    apply (reclaimer_local _ _ _ _ _ I Hl ti); [done.. | | done].
    cbn. rewrite Hk, u64_small by (unfold size_ok; lia). do 3 (split; [done |]). split; [lia |]. intros ->. cbn. lia.
  - cbn in Hrd. wp_step. wp_step; [apply int_bounds_ok; lia |]. wp_step.
    apply (reclaimer_local _ _ _ _ _ I Hl ti); [done.. | | done]. cbn. split; [lia |]. split; [lia |]. split.
    + intros Hik. destruct (decide (i = k)) as [-> | Hne]; [| apply Hpast; lia].
      rewrite Hk in Hti. injection Hti as <-. by apply Hall.
    + destruct (threads s !! S k); [| done]. by split.
Qed.

Lemma reclaimer_step_ok cap max_ptrs s i g :
  gather_inv cap max_ptrs s -> lock s = Some (i, g) ->
  wp (reclaimer_step max_ptrs s i g) (reclaimer_post cap max_ptrs s).
Proof.
  intros I Hl. destruct (gi_lock _ _ _ I i _ Hl) as (Hz & ti & Hti & Ha & Hinv).
  destruct g as [k n r | n | n]; [by apply reclaimer_walk_ok | |].
  - destruct Hinv as [Hn Hs]. destruct (gi_threads _ _ _ I i ti Hti) as (Iq & _ & Ec). pose proof (qi_big _ Iq).
    unfold reclaimer_step. cbn zeta. rewrite Hti. destruct (queue_queries _ (qi_wf _ Iq)) as (_ & Ef & _).
    rewrite Ef, contents_size, Ec by done. do 3 wp_step. wp_step; [bsplit; done || lia |]. wp_step.
    apply (reclaimer_local _ _ _ _ _ I Hl ti); [done.. | | done]. done.
  - apply wp_ok. destruct I as [It Ir Ic Il]. split; [split; [done.. | by intros j u] |].
    unfold held, in_hand. cbn. rewrite Hl. cbn. rewrite concat_app, <- app_assoc. cbn. by rewrite app_nil_r.
Qed.

(** * Runs *)

Lemma gather_step_ok cap max_ptrs s v s' : gather_inv cap max_ptrs s -> gather_step max_ptrs s v s' ->
  gather_inv cap max_ptrs s' /\ held s' ≡ₚ held s ++ v.
Proof.
  intros I [i t q w ev Hi Hl Hw | i t room out Hl Hi Ha Hz | i g s1 Hl E].
  - by eapply thread_goes_on_ok.
  - destruct I as [It Ir Ic _]. split.
    + split; [done.. |]. intros j g [= <- <-]. split; [done |]. exists t. split; [done |]. split; [by exists room |].
      pose proof (zlen_nonneg out). cbn. do 2 (split; [lia |]). split; [lia |]. by destruct (threads s !! 0%nat).
    + unfold held, in_hand. cbn. by rewrite Hl, app_nil_r.
  - pose proof (reclaimer_step_ok cap max_ptrs s i g I Hl) as P. rewrite E in P. by rewrite app_nil_r.
Qed.

Lemma gather_run_ok cap max_ptrs s vs s' : gather_inv cap max_ptrs s -> gather_run max_ptrs s vs s' ->
  gather_inv cap max_ptrs s' /\ held s' ≡ₚ held s ++ vs.
Proof.
  intros I. induction 1 as [| vs s1 v s2 _ [I1 P1] Hs]; [by rewrite app_nil_r |].
  destruct (gather_step_ok _ _ _ _ _ I1 Hs) as [I2 P2]. split; [done |]. by rewrite P2, P1, app_assoc.
Qed.

Lemma gather_start_ok bufs cap max_ptrs : gather_ok bufs cap max_ptrs ->
  gather_inv cap max_ptrs (gather_start bufs cap) /\ held (gather_start bufs cap) = [].
Proof.
  intros [Hb Hc Hr Hm]. split.
  - split; [| cbn; rewrite length_fmap; lia | done | done].
    intros i t Ht. apply list_lookup_fmap_Some in Ht as (buf & -> & Hi).
    pose proof (Hb buf ltac:(by eapply list_elem_of_lookup_2)) as Hs.
    destruct (spsc_start_inv buf [] cap Hs) as [Iq Iw _]. by do 2 (split; [done |]).
  - unfold held, in_hand, queued. cbn. clear Hr. induction bufs as [| buf bufs IH]; [done |]. cbn.
    destruct (queue_init_inv buf cap) as [_ E]; [apply Hb; left |]. rewrite E. cbn. apply IH.
    intros b Hin. apply Hb. by right.
Qed.

(** ** What was there when the walk began *)

(** The elements [c0] that the queue [q] held earlier are still in front of
    what the reader will take, is taking, or has taken. *)
Definition earlier (cap : Z) (c0 : list Z) (n : Z) (q : queue_t) (out : list Z) (r : reader_t) : Prop :=
  match r with
  | RIdle => c0 `prefix_of` contents q
  | RSize len => cap - 1 <= len /\ c0 `prefix_of` contents q
  | RWrap _ p _ _ _ | RDrain _ p _ _ _ _ | RStore _ p => c0 `prefix_of` take (Z.to_nat p) (contents q)
  | RCheck p | RRet p => c0 `prefix_of` slice out n p
  end.

(** The writer only appends. *)
Lemma fifo_writer room q q' ev : fifo_or_stutter room (contents q) ev (contents q') -> events ev ≫= popped_of = [] ->
  exists vs, contents q' = contents q ++ vs.
Proof.
  destruct ev as [x |]; cbn; [| intros -> _; exists []; by rewrite app_nil_r].
  inversion 1 as [l v Hv E1 E2 E3 | l | E1 E2 | vs l E1 E2]; cbn; intros Hp; try (exists []; by rewrite app_nil_r).
  - by exists [v].
  - by exists [].
  - rewrite app_nil_r in Hp. subst vs. exists []. by rewrite app_nil_r.
Qed.

Lemma earlier_grows cap c0 n q q' out r vs : queue_inv q -> reader_inv n q out r -> contents q' = contents q ++ vs ->
  earlier cap c0 n q out r -> earlier cap c0 n q' out r.
Proof.
  intros I Hr E. assert (Ht : forall h p, takes q h p -> take (Z.to_nat p) (contents q') = take (Z.to_nat p) (contents q)).
  { intros h p [_ Hp]. rewrite E. apply take_app_le. pose proof (contents_size q I) as Hs. unfold zlen in Hs. lia. }
  destruct r; cbn in *; rewrite ?E; try done.
  - intros H. by apply prefix_app_r.
  - intros [H1 H2]. split; [done |]. by apply prefix_app_r.
  - rewrite <- E. by destruct Hr as [Htk _]; rewrite (Ht _ _ Htk).
  - rewrite <- E. by destruct Hr as [Htk _]; rewrite (Ht _ _ Htk).
  - rewrite <- E. by destruct Hr as [Htk _]; rewrite (Ht _ _ Htk).
Qed.

Lemma earlier_step cap c0 n q out r q' out' r' ev :
  queue_inv q -> capacity q = cap -> reader_inv n q out r -> r <> RIdle -> (forall m, r <> RRet m) ->
  reader_step n q out r = Ok (q', out', r', ev) -> earlier cap c0 n q out r -> earlier cap c0 n q' out' r'.
Proof.
  intros I Ec Hr Hr1 Hr2 E He. pose proof (reader_step_ok n q out r I Hr) as P. rewrite E in P.
  destruct P as (_ & _ & _ & _ & _ & F). pose proof (queue_inv_size q I). pose proof (contents_size q I) as Hs.
  destruct r as [| len | h p start el k | h p off start el k | h p | p | p]; [done | .. | by destruct (Hr2 p)].
  - destruct He as [Hlen He]. assert (Ht : leaves 0 q (RSize len)) by (cbn; lia).
    pose proof (leaves_step 0 n q out _ q' out' r' ev I Hr ltac:(lia) Ht E) as Ht'. unfold zlen in Hs.
    unfold reader_step, bind in E. destruct (assert _); [| done]. destruct (u64 _ =? 0).
    { injection E as <- <- <- <-. cbn in F. cbn. unfold slice. cbn. by inversion F as [| | E |]; rewrite <- E in He. }
    destruct (if _ >? len then _ else _) as [h p]. destruct (INDEXIFY h _ <? _); injection E as <- <- <- <-;
      cbn in Ht' |- *; by rewrite take_ge by lia.
  - unfold reader_step, bind in E. destruct (k <? el); [| by injection E as <- <- <- _].
    destruct (rd _ _); [| done]. destruct (wr _ _ _); [| done]. by injection E as <- <- <- _.
  - unfold reader_step, bind in E. destruct (k <? el); [| by injection E as <- <- <- _].
    destruct (rd _ _); [| done]. destruct (wr _ _ _); [| done]. by injection E as <- <- <- _.
  - destruct Hr as ([_ Hp] & Hb0 & Hz & _). injection E as <- <- <- <-. cbn in F |- *.
    cbn in He. inversion F as [| | | vs l E1 E2]. rewrite <- E1 in He.
    assert (El : Z.to_nat p = length (slice out n p)) by (pose proof (zlen_slice out n p ltac:(lia) ltac:(lia) ltac:(lia)) as Hz'; unfold zlen in Hz'; lia).
    rewrite El, <- E2, take_app_length in He. by rewrite <- E2.
  - unfold reader_step, bind in E. destruct (for_range _ _ _ _); [| done]. by injection E as <- <- <- _.
Qed.

(** From the state [s0] in which a walk begins: what of [s0]'s queues the
    walk has passed is in the buffer, and the rest is still where it was.  A
    longer list [handed] says that the walk is over. *)
Definition passed (s0 s : gather_t) (g : reclaimer_t) : list Z :=
  match g with
  | Walk k _ _ => queued (take k (threads s0))
  | _ => queued (threads s0)
  end.

Definition gathered_by (g : reclaimer_t) : Z := match g with Walk _ n _ | Assert n | Hand n => n end.

Definition walking (cap : Z) (s0 s : gather_t) (g : reclaimer_t) : Prop :=
  passed s0 s g ⊆+ slice (addrs s) 0 (gathered_by g) /\
  match g with
  | Walk k n r => forall j t0 t, (k <= j)%nat -> threads s0 !! j = Some t0 -> threads s !! j = Some t ->
      earlier cap (contents (ptr_list t0)) n (ptr_list t) (addrs s) (if decide (j = k) then r else RIdle)
  | _ => True
  end.

Definition since (cap : Z) (s0 s : gather_t) : Prop :=
  length (threads s) = length (threads s0) /\ (length (handed s0) <= length (handed s))%nat /\
  (length (handed s) = length (handed s0) -> exists i g, lock s = Some (i, g) /\ walking cap s0 s g).

Lemma since_thread cap max_ptrs s0 s i t q w ev :
  gather_inv cap max_ptrs s -> since cap s0 s -> threads s !! i = Some t -> (forall g, lock s <> Some (i, g)) ->
  writer_moves (ptr_list t) (act t) q w ev ->
  since cap s0 (mk_gather (<[i := mk_thread q w]> (threads s)) (lock s) (addrs s) (handed s)).
Proof.
  intros I (Hlen & Hh & Hw) Hi Hl Hm. split; [by cbn; rewrite length_insert |]. split; [done |]. cbn. intros Eh.
  destruct (Hw Eh) as (j & g & Hlk & Hp & Hwalk). exists j, g. split; [done |]. split; [done |].
  destruct g as [k n r | n | n]; [| done..]. intros a t0 u Hka Ht0 Hu. cbn in Hu.
  destruct (decide (a = i)) as [-> | Hne]; [| rewrite list_lookup_insert_ne in Hu by done; by apply Hwalk].
  rewrite list_lookup_insert_eq in Hu by (by apply lookup_lt_Some in Hi). injection Hu as <-.
  destruct (gi_threads _ _ _ I i t Hi) as (Iq & Iw & Ec). destruct (writer_moves_ok _ _ _ _ _ Iq Iw Hm) as (_ & _ & _ & F).
  assert (Hpop : events ev ≫= popped_of = []) by (by eapply writer_pops_nothing).
  destruct (fifo_writer _ _ _ _ F Hpop) as [vs E].
  specialize (Hwalk i t0 t Hka Ht0 Hi). eapply (earlier_grows cap _ n (ptr_list t) q); [done | | exact E | done].
  destruct (gi_lock _ _ _ I j _ Hlk) as (_ & ti & _ & _ & (_ & _ & _ & Hr)). case_decide as Hd; [subst k | done].
  rewrite Hi in Hr. apply Hr.
Qed.

Lemma queued_take_S ts k t : ts !! k = Some t -> queued (take (S k) ts) = queued (take k ts) ++ contents (ptr_list t).
Proof. intros H. unfold queued. rewrite (take_S_r _ _ t H), bind_app. cbn. by rewrite app_nil_r. Qed.

Lemma prefix_submseteq (l1 l2 : list Z) : l1 `prefix_of` l2 -> l1 ⊆+ l2.
Proof. intros [l ->]. by apply submseteq_inserts_r. Qed.

(** The pop's steps, and the return. *)
Lemma walking_pop cap max_ptrs s0 s i k n r t q out r' ev :
  gather_inv cap max_ptrs s -> lock s = Some (i, Walk k n r) -> walking cap s0 s (Walk k n r) ->
  threads s !! k = Some t -> r <> RIdle -> (forall m, r <> RRet m) ->
  reader_step n (ptr_list t) (addrs s) r = Ok (q, out, r', ev) ->
  walking cap s0 (mk_gather (<[k := set_queue q t]> (threads s)) (Some (i, Walk k n r')) out (handed s)) (Walk k n r').
Proof.
  intros I Hl [Hp Hw] Hk Hr1 Hr2 E. destruct (gi_lock _ _ _ I i _ Hl) as (Hz & ti & _ & _ & (Hkl & Hn & _ & Hrd)).
  rewrite Hk in Hrd. destruct Hrd as [Hrd _]. destruct (gi_threads _ _ _ I k t Hk) as (Iq & _ & Ec).
  pose proof (reader_step_ok n _ _ _ Iq Hrd) as P. rewrite E in P. destruct P as (_ & _ & _ & Hlo & Ho & _).
  pose proof (gi_room _ _ _ I). pose proof (gi_cap _ _ _ I). pose proof (lookup_lt_Some _ _ _ Hk) as Hlt.
  split; cbn [passed addrs gathered_by] in *.
  - rewrite (slice_same out (addrs s) n); [done | done | nia | done].
  - intros j t0 u Hj Ht0 Hu. cbn [threads addrs] in Hu |- *. specialize (Hw j t0). case_decide as Hd.
    + subst j. rewrite list_lookup_insert_eq in Hu by done. injection Hu as <-.
      eapply (earlier_step cap _ n (ptr_list t) (addrs s) r); [done.. | exact E | by apply Hw].
    + rewrite list_lookup_insert_ne in Hu by done. by apply Hw.
Qed.

Lemma walking_ret cap max_ptrs s0 s i k n m t :
  gather_inv cap max_ptrs s -> lock s = Some (i, Walk k n (RRet m)) -> length (threads s) = length (threads s0) ->
  walking cap s0 s (Walk k n (RRet m)) -> threads s !! k = Some t ->
  walking cap s0 (mk_gather (threads s) (Some (i, Walk (S k) (n + m) RIdle)) (addrs s) (handed s)) (Walk (S k) (n + m) RIdle).
Proof.
  intros I Hl Hlen [Hp Hw] Hk. destruct (gi_lock _ _ _ I i _ Hl) as (Hz & ti & _ & _ & (Hkl & Hn & _ & Hrd)).
  rewrite Hk in Hrd. destruct Hrd as [(Hm & Hn0 & Hroom) _].
  assert (is_Some (threads s0 !! k)) as [t0 Ht0] by (apply lookup_lt_is_Some_2; rewrite <- Hlen; by eapply lookup_lt_Some).
  split; cbn [passed addrs gathered_by] in *.
  - rewrite (queued_take_S _ _ _ Ht0), slice_split by lia. apply submseteq_app; [done |].
    specialize (Hw k t0 t ltac:(lia) Ht0 Hk). rewrite decide_True in Hw by done. by apply prefix_submseteq.
  - intros j u0 u Hj Hu0 Hu. specialize (Hw j u0 u ltac:(lia) Hu0 Hu). rewrite decide_False in Hw by lia. by case_decide.
Qed.

Lemma since_reclaimer cap max_ptrs s0 s i g s' :
  Z.of_nat (length (threads s0)) * (cap - 1) <= max_ptrs -> gather_inv cap max_ptrs s -> since cap s0 s -> lock s = Some (i, g) -> reclaimer_step max_ptrs s i g = Ok s' ->
  since cap s0 s'.
Proof.
  intros Hfull I (Hlen & Hh & Hw) Hl E. destruct (gi_lock _ _ _ I i _ Hl) as (Hz & ti & Hti & _ & Hinv).
  rewrite <- Hlen in Hfull. pose proof (gi_room _ _ _ I) as Hroom. pose proof (gi_cap _ _ _ I) as Hcap. unfold INT_MAX in Hroom.
  assert (Hwalk : length (handed s) = length (handed s0) -> walking cap s0 s g).
  { intros Eh. destruct (Hw Eh) as (j & h & Hlk & Hwh). rewrite Hl in Hlk. by injection Hlk as <- <-. }
  (* It is enough to look at the reclaimer's new place. *)
  assert (Hsuff : forall ts g' out, length ts = length (threads s) ->
    (length (handed s) = length (handed s0) -> walking cap s0 (mk_gather ts (Some (i, g')) out (handed s)) g') ->
    since cap s0 (mk_gather ts (Some (i, g')) out (handed s))).
  { intros ts g' out El Hg. split; [cbn; by rewrite El |]. split; [done |]. intros Eh. exists i, g'. by split; [| apply Hg]. }
  destruct g as [k n r | n | n]; unfold reclaimer_step, bind in E; cbn zeta in E.
  - destruct (threads s !! k) as [t |] eqn:Hk.
    2: { injection E as <-. apply Hsuff; [done |]. intros Eh. destruct (Hwalk Eh) as [Hp _]. split; [| done]. cbn in *.
         rewrite take_ge in Hp; [done |]. rewrite <- Hlen. by apply lookup_ge_None_1. }
    assert (Hpop : r <> RIdle -> (forall m, r <> RRet m) -> forall q out r' ev,
      reader_step n (ptr_list t) (addrs s) r = Ok (q, out, r', ev) ->
      since cap s0 (mk_gather (<[k := set_queue q t]> (threads s)) (Some (i, Walk k n r')) out (handed s))).
    { intros H1 H2 q out r' ev Es. apply Hsuff; [by rewrite length_insert |]. intros Eh.
      by apply (walking_pop cap max_ptrs s0 s i k n r t q out r' ev I Hl (Hwalk Eh) Hk). }
    destruct r as [| len | h p st el j | h p off st el j | h p | p | m];
      try (destruct (reader_step _ _ _ _) as [[[[q out] r'] ev] |] eqn:Es; [| done]; injection E as <-; by eapply Hpop).
    + pose proof Hinv as (_ & Hn & _). pose proof (lookup_lt_Some _ _ _ Hk) as Hlt. rewrite int_chk_ok in E by (unfold int_ok, INT_MIN, INT_MAX; nia).
      injection E as <-. apply Hsuff; [done |]. intros Eh. destruct (Hwalk Eh) as [Hp Hwk]. split; [done |]. intros j t0 u Hj Ht0 Hu.
      specialize (Hwk j t0 u Hj Ht0 Hu). case_decide; [| done]. cbn in Hwk |- *. rewrite u64_small by (unfold size_ok; nia). split; [nia | done].
    + destruct (int_chk (n + m)) as [n' |] eqn:En; [| done]. injection E as <-. unfold int_chk in En. case_match; [| done]. injection En as <-.
      apply Hsuff; [done |]. intros Eh. by apply (walking_ret cap max_ptrs s0 s i k n m t I Hl Hlen (Hwalk Eh) Hk).
  - rewrite Hti in E. destruct (forkscan_queue_is_full _); [| done]. destruct (assert _); [| done]. injection E as <-.
    apply Hsuff; [done |]. intros Eh. destruct (Hwalk Eh) as [Hp _]. by split.
  - injection E as <-. split; [done |]. cbn. rewrite length_app. cbn. split; [lia |]. lia.
Qed.

Lemma since_run cap max_ptrs s0 vs s : Z.of_nat (length (threads s0)) * (cap - 1) <= max_ptrs -> gather_inv cap max_ptrs s0 ->
  (exists i, lock s0 = Some (i, Walk 0 0 RIdle)) -> gather_run max_ptrs s0 vs s -> since cap s0 s.
Proof.
  intros Hfull I0 [i0 Hl0]. induction 1 as [| vs s v s' Hr IH Hs].
  - split; [done |]. split; [done |]. intros _. exists i0, (Walk 0 0 RIdle). split; [done |].
    split; [apply submseteq_nil_l |]. intros j t0 t _ H1 H2. rewrite H1 in H2. injection H2 as <-. case_decide; cbn; reflexivity.
  - destruct (gather_run_ok _ _ _ _ _ I0 Hr) as [I _].
    destruct Hs as [i t q w ev Hi Hl Hw | i t room out Hl Hi Ha Hz | i g s1 Hl E].
    + by eapply since_thread.
    + destruct IH as (H1 & H2 & H3). split; [done |]. split; [done |]. intros Eh. cbn in Eh.
      destruct (H3 Eh) as (j & g & Hlk & _). by rewrite Hl in Hlk.
    + by eapply since_reclaimer.
Qed.

(** ** The length of a walk *)

Definition left_of (cap : Z) (s : gather_t) (g : reclaimer_t) : Z :=
  let ahead k := Z.of_nat (length (threads s)) - Z.of_nat k in
  match g with
  | Walk k _ RIdle => ahead k * (cap + 7) + 3
  | Walk k _ r => ahead (S k) * (cap + 7) + rank cap r + 3
  | Assert _ => 2
  | Hand _ => 1
  end.

Definition to_go (cap : Z) (s : gather_t) : Z := match lock s with Some (_, g) => left_of cap s g | None => 0 end.

(** A walk from a point on: [n] accesses of the reclaimer, any number of the
    other threads' between them. *)
Inductive during_walk (max_ptrs : Z) (s : gather_t) : nat -> gather_t -> Prop :=
  | walk_start : during_walk max_ptrs s 0 s
  | walk_thread n s1 i t q w ev : during_walk max_ptrs s n s1 ->
      threads s1 !! i = Some t -> (forall g, lock s1 <> Some (i, g)) -> writer_moves (ptr_list t) (act t) q w ev ->
      during_walk max_ptrs s n (mk_gather (<[i := mk_thread q w]> (threads s1)) (lock s1) (addrs s1) (handed s1))
  | walk_reclaimer n s1 i g s2 : during_walk max_ptrs s n s1 ->
      lock s1 = Some (i, g) -> reclaimer_step max_ptrs s1 i g = Ok s2 -> during_walk max_ptrs s (S n) s2.

Lemma left_bounds cap max_ptrs s i g : gather_inv cap max_ptrs s -> lock s = Some (i, g) ->
  1 <= left_of cap s g <= Z.of_nat (length (threads s)) * (cap + 7) + 3.
Proof.
  intros I Hl. destruct (gi_lock _ _ _ I i g Hl) as (_ & ti & _ & _ & Hinv). pose proof (gi_cap _ _ _ I).
  destruct g as [k n r | n | n]; cbn; [| nia..]. destruct Hinv as (Hk & _ & _ & Hr).
  destruct (threads s !! k) as [t |] eqn:E; [| subst r; nia]. pose proof (lookup_lt_Some _ _ _ E). destruct Hr as [Hr _].
  destruct (gi_threads _ _ _ I k t E) as (Iq & _ & Ec). pose proof (rank_bounds _ _ _ _ Iq Hr) as Hb. rewrite Ec in Hb.
  destruct r; cbn in Hb |- *; nia.
Qed.

(** Only its return ends a pop. *)
Lemma reader_stays_in base q out r q' out' ev : reader_step base q out r = Ok (q', out', RIdle, ev) ->
  match r with RIdle | RRet _ => True | _ => False end.
Proof.
  destruct r; try done; unfold reader_step, bind; intros E.
  - destruct (assert _); [| done]. destruct (u64 _ =? 0); [done |].
    destruct (if _ >? len then _ else _). by destruct (INDEXIFY _ _ <? _).
  - destruct (_ <? _); [| done]. destruct (rd _ _); [| done]. by destruct (wr _ _ _).
  - destruct (_ <? _); [| done]. destruct (rd _ _); [| done]. by destruct (wr _ _ _).
  - by destruct (for_range _ _ _ _).
Qed.

Lemma left_step cap max_ptrs s i g s' : gather_inv cap max_ptrs s -> lock s = Some (i, g) ->
  reclaimer_step max_ptrs s i g = Ok s' -> to_go cap s' < left_of cap s g /\ length (threads s') = length (threads s).
Proof.
  intros I Hl E. destruct (gi_lock _ _ _ I i g Hl) as (_ & ti & _ & _ & Hinv). pose proof (gi_cap _ _ _ I).
  unfold reclaimer_step, bind in E. cbn zeta in E. destruct g as [k n r | n | n].
  - destruct Hinv as (Hk & _ & _ & Hr). destruct (threads s !! k) as [t |] eqn:Ek.
    + destruct Hr as [Hr _]. destruct (gi_threads _ _ _ I k t Ek) as (Iq & _ & Ec).
      pose proof (rank_step n (ptr_list t) (addrs s) r) as Hrank.
      destruct r as [| len | h p st el j | h p off st el j | h p | p | m];
        try (destruct (reader_step _ _ _ _) as [[[[q out] r'] ev] |] eqn:Es; [| done]; injection E as <-; unfold to_go, left_of;
             cbn [lock threads]; rewrite length_insert; split; [| done];
             specialize (Hrank _ _ _ _ Iq Hr ltac:(done) eq_refl);
             pose proof (reader_step_ok n _ _ _ Iq Hr) as P; rewrite Es in P; destruct P as (_ & _ & [Ec' _] & _);
             rewrite Ec', Ec in Hrank; destruct r'; [by apply reader_stays_in in Es | lia..]).
      * destruct (int_chk _); [| done]. injection E as <-. split; [| done]. unfold to_go, left_of. cbn. lia.
      * destruct (int_chk _); [| done]. injection E as <-. split; [| done]. unfold to_go, left_of. cbn. lia.
    + injection E as <-. subst r. split; [| done]. unfold to_go, left_of. cbn. pose proof (lookup_ge_None_1 _ _ Ek). nia.
  - destruct (threads s !! i); [| done]. destruct (forkscan_queue_is_full _); [| done]. destruct (assert _); [| done].
    injection E as <-. split; [| done]. unfold to_go. cbn. lia.
  - injection E as <-. split; [| done]. unfold to_go. cbn. lia.
Qed.

Lemma during_walk_go cap max_ptrs s n s' : gather_inv cap max_ptrs s -> during_walk max_ptrs s n s' ->
  gather_inv cap max_ptrs s' /\ length (threads s') = length (threads s) /\ to_go cap s' + Z.of_nat n <= to_go cap s.
Proof.
  intros I. induction 1 as [| n s1 i t q w ev _ (I1 & El & Hk) Hi Hl Hw | n s1 i g s2 _ (I1 & El & Hk) Hl E].
  - split; [done |]. split; [done | lia].
  - destruct (thread_goes_on_ok _ _ _ _ _ _ _ _ I1 Hi Hl Hw) as [I2 _]. split; [done |].
    unfold to_go, left_of in *. cbn [lock threads]. rewrite length_insert. by split.
  - pose proof (reclaimer_step_ok cap max_ptrs s1 i g I1 Hl) as P. rewrite E in P. destruct P as [I2 _].
    destruct (left_step cap max_ptrs s1 i g s2 I1 Hl E) as [Hlt El2]. split; [done |]. split; [by rewrite El2 |].
    unfold to_go in Hk at 1. rewrite Hl in Hk. lia.
Qed.

(** * Driving the system *)

Inductive move_t : Type :=
  | Thread (i : nat) (c : choice_t)
  | Acquire (i : nat) (out : list Z)
  | Reclaim.

Definition is_reclaimer (s : gather_t) (i : nat) : bool :=
  match lock s with Some (j, _) => bool_decide (i = j) | None => false end.

(** [drive1] of [Spsc] on one thread's queue, with its writer's choices. *)
Definition writer_choice (c : choice_t) : bool :=
  match c with Push _ | Test | WriterGoes => true | _ => false end.

Definition move (max_ptrs : Z) (m : move_t) (s : gather_t) : option (list Z * gather_t) :=
  match m with
  | Thread i c =>
      match threads s !! i with
      | Some t =>
          if negb (is_reclaimer s i) && writer_choice c then
            match drive1 c (mk_spsc (ptr_list t) [] (act t) RIdle) with
            | Some (ev, s1) =>
                Some (events ev ≫= pushed_of,
                      mk_gather (<[i := mk_thread (queue s1) (writer s1)]> (threads s)) (lock s) (addrs s) (handed s))
            | None => None
            end
          else None
      | None => None
      end
  | Acquire i out =>
      match lock s, threads s !! i with
      | None, Some t =>
          if is_writer_idle (act t) && (zlen out =? max_ptrs)
          then Some ([], mk_gather (threads s) (Some (i, Walk 0 0 RIdle)) out (handed s)) else None
      | _, _ => None
      end
  | Reclaim =>
      match lock s with
      | Some (i, g) => match reclaimer_step max_ptrs s i g with Ok s1 => Some ([], s1) | Err _ => None end
      | None => None
      end
  end.

Fixpoint moves (max_ptrs : Z) (ms : list move_t) (s : gather_t) (vs : list Z) : option (list Z * gather_t) :=
  match ms with
  | [] => Some (vs, s)
  | m :: ms => match move max_ptrs m s with Some (v, s1) => moves max_ptrs ms s1 (vs ++ v) | None => None end
  end.

Lemma drive1_writer c q w ev s1 : writer_choice c = true -> drive1 c (mk_spsc q [] w RIdle) = Some (ev, s1) ->
  writer_moves q w (queue s1) (writer s1) ev.
Proof.
  intros Hc H. destruct c as [v | | | len |]; try done; unfold drive1 in H; cbn in H.
  - destruct w as [[] | | | | |]; try done. destruct (Z.eqb_spec v 0), (Z.ltb_spec (idx_head q + capacity q) MAX_IDX); try done.
    injection H as <- <-. by constructor.
  - destruct w; try done. injection H as <- <-. by eapply writer_tests.
  - destruct (writer_step q w) as [[[q' w'] ev'] |] eqn:E; [| done]. injection H as <- <-. by apply writer_goes_on.
Qed.

Lemma move_step max_ptrs m s v s1 : move max_ptrs m s = Some (v, s1) -> gather_step max_ptrs s v s1.
Proof.
  destruct m as [i c | i out |]; cbn; intros H.
  - destruct (threads s !! i) as [t |] eqn:Ht; [| done]. destruct (is_reclaimer s i) eqn:Hr, (writer_choice c) eqn:Hc; try done. cbn in H.
    destruct (drive1 _ _) as [[ev s2] |] eqn:E; [| done]. injection H as <- <-. apply thread_goes_on with t; [done | |].
    + intros g Hg. unfold is_reclaimer in Hr. rewrite Hg in Hr. by apply bool_decide_eq_false in Hr.
    + by apply drive1_writer with c.
  - destruct (lock s) eqn:Hl; [done |]. destruct (threads s !! i) as [t |] eqn:Ht; [| done].
    destruct (act t) as [room | | | | |] eqn:Ha; try done. cbn in H. destruct (Z.eqb_spec (zlen out) max_ptrs); [| done].
    injection H as <- <-. by apply becomes_reclaimer with t room.
  - destruct (lock s) as [[i g] |] eqn:Hl; [| done]. destruct (reclaimer_step max_ptrs s i g) eqn:E; [| done].
    injection H as <- <-. by eapply reclaimer_goes_on.
Qed.

Lemma moves_run max_ptrs s0 ms s vs vs' s' : gather_run max_ptrs s0 vs s -> moves max_ptrs ms s vs = Some (vs', s') ->
  gather_run max_ptrs s0 vs' s'.
Proof.
  revert s vs. induction ms as [| m ms IH]; intros s vs Hr; cbn; [by intros [= <- <-] |].
  destruct (move max_ptrs m s) as [[v s1] |] eqn:E; [| done]. apply IH. by eapply gather_goes, move_step.
Qed.

(** * Properties *)

Section properties.
Context (bufs : list (list Z)) (cap max_ptrs : Z) (Hok : gather_ok bufs cap max_ptrs).

(** C8: However the threads interleave, what was retired is, up to order, what
    was handed to the collector, what the reclaimer has collected and what is
    in the queues: nothing is lost, and nothing is handed over twice. *)
Theorem retired_conserved vs s :
  gather_run max_ptrs (gather_start bufs cap) vs s ->
  vs ≡ₚ concat (handed s) ++ in_hand s ++ queued (threads s).
Proof using Hok.
  intros H. destruct (gather_start_ok bufs cap max_ptrs Hok) as [I E].
  destruct (gather_run_ok _ _ _ _ _ I H) as [_ P]. rewrite E in P. by symmetry.
Qed.

(** C21: The reclaimer's next access never fails, with up to
    [MAX_THREAD_COUNT + 1] threads: the working buffer is not overrun, no
    arithmetic overflows, and its own queue is not full at the end of the
    walk, as [generate_working_pointers_list] asserts. *)
Theorem reclaimer_never_fails vs s i g :
  gather_run max_ptrs (gather_start bufs cap) vs s -> lock s = Some (i, g) ->
  exists s', reclaimer_step max_ptrs s i g = Ok s'.
Proof using Hok.
  intros H Hl. destruct (gather_start_ok bufs cap max_ptrs Hok) as [I _].
  destruct (gather_run_ok _ _ _ _ _ I H) as [I' _].
  destruct (proj1 (wp_iff _ _) (reclaimer_step_ok cap max_ptrs s i g I' Hl)) as (s' & E & _). by exists s'.
Qed.

(** C17: With no more than [MAX_THREAD_COUNT] threads, for whose queues the
    buffer has room, what the queues held when a walk began is in the list
    that the walk hands over, whatever was retired meanwhile. *)
Theorem walk_takes_earlier vs s i vs' s' n :
  Z.of_nat (length (threads s)) * (cap - 1) <= max_ptrs ->
  gather_run max_ptrs (gather_start bufs cap) vs s -> lock s = Some (i, Walk 0 0 RIdle) ->
  gather_run max_ptrs s vs' s' -> length (handed s') = length (handed s) -> lock s' = Some (i, Hand n) ->
  queued (threads s) ⊆+ slice (addrs s') 0 n.
Proof using Hok.
  intros Hfull H Hl H' Eh Hl'. destruct (gather_start_ok bufs cap max_ptrs Hok) as [I _].
  destruct (gather_run_ok _ _ _ _ _ I H) as [I' _].
  destruct (since_run cap max_ptrs s vs' s' Hfull I' ltac:(by exists i) H') as (_ & _ & Hs).
  destruct (Hs Eh) as (j & g & Hlg & Hp & _). rewrite Hl' in Hlg. by injection Hlg as <- <-.
Qed.

(** A walk ends after a number of accesses that depends only on the
    number of threads and the size of a queue, however much is retired
    meanwhile. *)
Theorem walk_ends vs s k s' :
  gather_run max_ptrs (gather_start bufs cap) vs s -> during_walk max_ptrs s k s' ->
  Z.of_nat k <= Z.of_nat (length (threads s)) * (cap + 7) + 3.
Proof using Hok.
  intros H Hw. destruct (gather_start_ok bufs cap max_ptrs Hok) as [I _].
  destruct (gather_run_ok _ _ _ _ _ I H) as [I' _]. pose proof (gi_cap _ _ _ I').
  assert (Hb : forall u, gather_inv cap max_ptrs u -> 0 <= to_go cap u <= Z.of_nat (length (threads u)) * (cap + 7) + 3).
  { intros u Iu. unfold to_go. destruct (lock u) as [[i g] |] eqn:Hl; [| nia].
    pose proof (left_bounds _ _ _ _ _ Iu Hl). lia. }
  destruct (during_walk_go _ _ _ _ _ I' Hw) as (Is' & _ & Hk). pose proof (Hb s I'). pose proof (Hb s' Is'). lia.
Qed.
End properties.

(** ** Witnesses *)

(** Two threads with queues of four words.  Each retires a pointer; thread 0
    becomes the reclaimer; thread 1 retires another while thread 0 is at its
    own queue, and a third once its queue has been read. *)
Definition demo_bufs : list (list Z) := [[0; 0; 0; 0]; [0; 0; 0; 0]].

Definition demo_retire (i : nat) (v : Z) : list move_t :=
  [Thread i (Push v); Thread i WriterGoes; Thread i WriterGoes; Thread i WriterGoes; Thread i Test; Thread i WriterGoes; Thread i WriterGoes].

Definition demo_before : list move_t :=
  demo_retire 0 5 ++ demo_retire 1 6 ++ [Acquire 0 [0; 0; 0; 0; 0; 0; 0; 0]].

Definition demo_walk : list move_t :=
  [Reclaim; Reclaim] ++ demo_retire 1 7 ++ replicate 5 Reclaim ++ [Reclaim; Reclaim] ++ demo_retire 1 8 ++ replicate 8 Reclaim.

Definition demo_q0 : queue_t := mk_queue [5; 0; 0; 0] 4 1 4.
Definition demo_q1 : queue_t := mk_queue [6; 0; 0; 0] 4 1 4.
Definition demo_at_walk : gather_t :=
  mk_gather [mk_thread demo_q0 (WIdle true); mk_thread demo_q1 (WIdle true)] (Some (0%nat, Walk 0 0 RIdle))
    [0; 0; 0; 0; 0; 0; 0; 0] [].
Definition demo_at_hand : gather_t :=
  mk_gather [mk_thread (mk_queue [5; 0; 0; 0] 4 1 5) (WIdle true); mk_thread (mk_queue [6; 7; 8; 0] 4 3 6) (WIdle false)]
    (Some (0%nat, Hand 3)) [5; 6; 7; 0; 0; 0; 0; 0] [].

Lemma demo_gather_ok : gather_ok demo_bufs 4 8.
Proof.
  split; [| lia | vm_compute; reflexivity | vm_compute; discriminate].
  intros buf Hb. repeat (apply elem_of_cons in Hb as [-> | Hb]; [split; [exists 2; split; [lia | done] | done] |]).
  by apply not_elem_of_nil in Hb.
Qed.

Lemma demo_reaches_walk : gather_run 8 (gather_start demo_bufs 4) [5; 6] demo_at_walk.
Proof. eapply (moves_run 8 _ demo_before _ []); [apply gather_stays | vm_compute; reflexivity]. Qed.

Lemma demo_walks : gather_run 8 demo_at_walk [7; 8] demo_at_hand.
Proof. eapply (moves_run 8 _ demo_walk _ []); [apply gather_stays | vm_compute; reflexivity]. Qed.

Lemma demo_reaches_hand : gather_run 8 (gather_start demo_bufs 4) [5; 6; 7; 8] demo_at_hand.
Proof. eapply (moves_run 8 _ (demo_before ++ demo_walk) _ []); [apply gather_stays | vm_compute; reflexivity]. Qed.

Lemma retired_conserved_witness : [5; 6; 7; 8] ≡ₚ [5; 6; 7] ++ [8].
Proof. exact (retired_conserved demo_bufs 4 8 demo_gather_ok [5; 6; 7; 8] demo_at_hand demo_reaches_hand). Defined.

Lemma reclaimer_never_fails_witness : exists s', reclaimer_step 8 demo_at_hand 0 (Hand 3) = Ok s'.
Proof. exact (reclaimer_never_fails demo_bufs 4 8 demo_gather_ok [5; 6; 7; 8] demo_at_hand 0 (Hand 3) demo_reaches_hand eq_refl). Defined.

Lemma walk_takes_earlier_witness : [5; 6] ⊆+ [5; 6; 7].
Proof.
  exact (walk_takes_earlier demo_bufs 4 8 demo_gather_ok [5; 6] demo_at_walk 0 [7; 8] demo_at_hand 3
    ltac:(vm_compute; discriminate) demo_reaches_walk eq_refl demo_walks eq_refl eq_refl).
Defined.

Lemma demo_walk_steps : exists s', during_walk 8 demo_at_walk 3 s' /\ addrs s' = [5; 0; 0; 0; 0; 0; 0; 0].
Proof.
  pose proof (walk_start 8 demo_at_walk) as H.
  do 3 (eapply walk_reclaimer in H; [| reflexivity | vm_compute; reflexivity]).
  eexists. split; [exact H | reflexivity].
Qed.

Lemma walk_ends_witness : 3 <= 2 * (4 + 7) + 3.
Proof.
  destruct demo_walk_steps as (s' & H & _).
  exact (walk_ends demo_bufs 4 8 demo_gather_ok [5; 6] demo_at_walk 3 s' demo_reaches_walk H).
Defined.
