(* ===== verification/Env.v ===== *)
(** env.c: the four settings the library reads from the environment.

    [getenv] is a function argument; [atoi] is the C library's, with the
    value that does not fit an [int] (undefined in C) as [IntOverflow].  The
    warnings printed for out-of-range settings are not modelled. *)
From Stdlib Require Import String Ascii.
From S2P Require Import Prelude Queue.

Definition DEFAULT_THROTTLING_QUEUE : Z := 16.
Definition MAX_THROTTLING_QUEUE : Z := 32.
Definition MAX_PTRS_PER_THREAD : Z := 1024 * 1024.
Definition MIN_PTRS_PER_THREAD : Z := 1024.
Definition MAX_CHILDREN : Z := 16.

Definition env_ptrs_per_thread : string := "FORKSCAN_PTRS_PER_THREAD".
Definition env_report_statistics : string := "FORKSCAN_REPORT_STATS".
Definition env_throttling_queue : string := "FORKSCAN_THROTTLING_QUEUE".
Definition env_max_children : string := "FORKSCAN_MAX_CHILDREN".

Record env_t : Type := mk_env {
  g_forkscan_ptrs_per_thread : Z;
  g_forkscan_report_statistics : Z;
  g_forkscan_throttling_queue : Z;
  g_forkscan_max_children : Z }.

(** ** [atoi] *)

Definition code (c : ascii) : Z := Z.of_N (N_of_ascii c).
Definition isspace (c : ascii) : bool := (code c =? 32) || ((9 <=? code c) && (code c <=? 13)).
Definition isdigit (c : ascii) : bool := (48 <=? code c) && (code c <=? 57).

Fixpoint skip_spaces (s : string) : string :=
  match s with
  | String c s' => if isspace c then skip_spaces s' else s
  | EmptyString => s
  end.

Fixpoint digits (acc : Z) (s : string) : Z :=
  match s with
  | String c s' => if isdigit c then digits (10 * acc + (code c - 48)) s' else acc
  | EmptyString => acc
  end.

Definition atoi (s : string) : res Z :=
  int_chk (match skip_spaces s with
           | String "-" s' => - digits 0 s'
           | String "+" s' => digits 0 s'
           | s' => digits 0 s'
           end).

(** ** The initializer *)

Definition get_int (val : option string) (default_val : Z) : res Z :=
  match val with
  | None => Ok default_val
  | Some v => atoi v
  end.

(** "Round up to power of 2 bit trick", on a 32-bit [int]. *)
Definition round_up_pow2 (p : Z) : res Z :=
  let! p := int_chk (p - 1) in
  let p := Z.lor p (Z.shiftr p 1) in
  let p := Z.lor p (Z.shiftr p 2) in
  let p := Z.lor p (Z.shiftr p 4) in
  let p := Z.lor p (Z.shiftr p 8) in
  let p := Z.lor p (Z.shiftr p 16) in
  int_chk (p + 1).

Definition init_ptrs_per_thread (getenv : string -> option string) : res Z :=
  let! p := get_int (getenv env_ptrs_per_thread) 32 in
  let! p := int_chk (p * 1024) in
  let! p := round_up_pow2 p in
  Ok (if p <? MIN_PTRS_PER_THREAD then MIN_PTRS_PER_THREAD
      else if p >? MAX_PTRS_PER_THREAD then MAX_PTRS_PER_THREAD else p).

Definition init_report_statistics (getenv : string -> option string) : res Z :=
  let! r := get_int (getenv env_report_statistics) 0 in
  Ok (if negb (r =? 0) then 1 else 0).

Definition init_throttling_queue (getenv : string -> option string) : res Z :=
  let! t := get_int (getenv env_throttling_queue) DEFAULT_THROTTLING_QUEUE in
  let t := if t <=? 0 then 1 else t in
  Ok (if t >? MAX_THROTTLING_QUEUE then MAX_THROTTLING_QUEUE else t).

Definition init_max_children (getenv : string -> option string) : res Z :=
  let! m := get_int (getenv env_max_children) MAX_CHILDREN in
  let m := if m <=? 0 then 1 else m in
  Ok (if m >? MAX_CHILDREN then MAX_CHILDREN else m).

Definition env_init (getenv : string -> option string) : res env_t :=
  let! p := init_ptrs_per_thread getenv in
  let! r := init_report_statistics getenv in
  let! t := init_throttling_queue getenv in
  let! m := init_max_children getenv in
  Ok (mk_env p r t m).

(** * The bit trick *)

(** The [k] bits of [x] from bit [m], its highest, down are set. *)
Definition top_ones (m k x : Z) : Prop :=
  0 <= x < 2 ^ (m + 1) /\ (forall i, 0 <= i -> m - k < i <= m -> Z.testbit x i = true).

Lemma top_ones_step m k k' x :
  0 <= m -> 0 < k -> k' = 2 * k -> top_ones m k x -> top_ones m k' (Z.lor x (Z.shiftr x k)).
Proof.
  intros Hm Hk -> [Hx Hb]. split.
  - split; [apply Z.lor_nonneg; split; [lia | apply Z.shiftr_nonneg; lia] |].
    destruct (decide (Z.lor x (Z.shiftr x k) = 0)) as [-> |]; [lia |].
    apply Z.log2_lt_pow2; [pose proof (proj2 (Z.lor_nonneg x (Z.shiftr x k))
      (conj (proj1 Hx) (proj2 (Z.shiftr_nonneg x k) (proj1 Hx)))); lia |].
    rewrite Z.log2_lor by (try apply Z.shiftr_nonneg; lia).
    assert (Hlog : forall y, 0 <= y < 2 ^ (m + 1) -> Z.log2 y < m + 1).
    { intros y Hy. destruct (decide (y = 0)) as [-> |]; [simpl; lia | apply Z.log2_lt_pow2; lia]. }
    assert (0 <= Z.shiftr x k <= x).
    { rewrite Z.shiftr_div_pow2 by lia. split; [apply Z.div_pos; lia |].
      apply Z.div_le_upper_bound; [lia |]. nia. }
    pose proof (Hlog x Hx). pose proof (Hlog (Z.shiftr x k) ltac:(lia)). lia.
  - intros i Hi0 Hi. rewrite Z.lor_spec, Z.shiftr_spec by done. apply orb_true_iff.
    destruct (decide (m - k < i)); [left; apply Hb; lia | right; apply Hb; lia].
Qed.

Lemma top_ones_full m x : 0 <= m < 32 -> top_ones m 32 x -> x = 2 ^ (m + 1) - 1.
Proof.
  intros Hm [Hx Hb].
  replace (2 ^ (m + 1) - 1) with (Z.ones (m + 1)) by (rewrite Z.ones_equiv; lia).
  apply Z.bits_inj'. intros i Hi. destruct (decide (i <= m)).
  - transitivity true; [apply Hb; lia | symmetry; apply Z.ones_spec_low; lia].
  - rewrite Z.ones_spec_high by lia.
    destruct (decide (x = 0)) as [-> |]; [apply Z.bits_0 |].
    apply Z.bits_above_log2; [lia |]. pose proof (proj1 (Z.log2_lt_pow2 x (m + 1) ltac:(lia)) ltac:(lia)). lia.
Qed.

(** On [1 < p <= 2^30] the trick gives the next power of two. *)
Lemma round_up_pow2_smear p :
  1 < p <= 2 ^ 31 - 1 ->
  round_up_pow2 p = int_chk (2 ^ (Z.log2 (p - 1) + 1)).
Proof.
  intros Hp. unfold round_up_pow2.
  rewrite int_chk_ok by (unfold int_ok, INT_MIN, INT_MAX; lia). unfold bind.
  set (m := Z.log2 (p - 1)).
  assert (Hm : 0 <= m < 32).
  { split; [apply Z.log2_nonneg |]. apply Z.log2_lt_pow2; lia. }
  assert (H1 : top_ones m 1 (p - 1)).
  { split.
    - split; [lia |]. apply Z.log2_lt_pow2; lia.
    - intros i Hi0 Hi. replace i with m by lia. apply Z.bit_log2. lia. }
  apply (top_ones_step m 1 2) in H1; [| lia..].
  apply (top_ones_step m 2 4) in H1; [| lia..].
  apply (top_ones_step m 4 8) in H1; [| lia..].
  apply (top_ones_step m 8 16) in H1; [| lia..].
  apply (top_ones_step m 16 32) in H1; [| lia..].
  apply top_ones_full in H1; [| done]. cbn zeta. rewrite H1. f_equal. lia.
Qed.

Lemma pow2_up p : 1 < p -> p <= 2 ^ (Z.log2 (p - 1) + 1) < 2 * p.
Proof.
  intros Hp. pose proof (Z.log2_spec (p - 1) ltac:(lia)) as [H1 H2].
  pose proof (Z.log2_nonneg (p - 1)). rewrite Z.pow_succ_r in H2 by lia.
  rewrite Z.add_1_r, Z.pow_succ_r by lia. lia.
Qed.


(** On what is not positive the trick stays not positive. *)
Definition neg_int (x : Z) : Prop := - 2 ^ 31 <= x < 0.

Lemma neg_int_smear x k : 0 <= k -> neg_int x -> neg_int (Z.lor x (Z.shiftr x k)).
Proof.
  unfold neg_int. intros Hk Hx.
  assert (Hneg : Z.lor x (Z.shiftr x k) < 0) by (apply Z.lor_neg; lia).
  split; [| done].
  assert (- 2 ^ 31 <= Z.lor x (Z.shiftr x k) < 2 ^ 31) as []; [| done].
  apply Z.bounded_iff_bits; [lia |]. intros l Hl.
  rewrite bool_decide_eq_true_2 by done. rewrite Z.lor_spec.
  rewrite (proj1 (Z.bounded_iff_bits 31 x ltac:(lia)) ltac:(lia) l Hl).
  by rewrite bool_decide_eq_true_2 by lia.
Qed.

Lemma round_up_pow2_nonpos p :
  - 2 ^ 31 < p <= 0 -> exists r, round_up_pow2 p = Ok r /\ r <= 0.
Proof.
  intros Hp. unfold round_up_pow2.
  rewrite int_chk_ok by (unfold int_ok, INT_MIN, INT_MAX; lia). unfold bind.
  assert (H1 : neg_int (p - 1)) by (unfold neg_int; lia).
  apply (neg_int_smear _ 1) in H1; [| lia].
  apply (neg_int_smear _ 2) in H1; [| lia].
  apply (neg_int_smear _ 4) in H1; [| lia].
  apply (neg_int_smear _ 8) in H1; [| lia].
  apply (neg_int_smear _ 16) in H1; [| lia].
  cbn zeta. unfold neg_int in H1. set (y := Z.lor _ _) in *. clearbody y.
  exists (y + 1). rewrite int_chk_ok by (unfold int_ok, INT_MIN, INT_MAX; lia). split; [done | lia].
Qed.

(** * The settings *)

(** What [v], the value of the variable or its default, is turned into: the
    least power of two that holds [1024 * v] pointers, kept in [2^10, 2^20]. *)
Definition ptrs_setting (v p : Z) : Prop :=
  (exists k, 10 <= k <= 20 /\ p = 2 ^ k) /\
  (v <= 1 -> p = 2 ^ 10) /\ (1 <= v <= 1024 -> 1024 * v <= p < 2 * (1024 * v)) /\
  (1024 <= v -> p = 2 ^ 20).

Lemma init_ptrs_ok getenv v :
  get_int (getenv env_ptrs_per_thread) 32 = Ok v -> - 2 ^ 20 <= v <= 2 ^ 20 ->
  wp (init_ptrs_per_thread getenv) (ptrs_setting v).
Proof.
  intros E Hv. unfold init_ptrs_per_thread. rewrite E, bind_ok.
  rewrite int_chk_ok by (unfold int_ok, INT_MIN, INT_MAX; lia). rewrite bind_ok.
  unfold MIN_PTRS_PER_THREAD, MAX_PTRS_PER_THREAD.
  destruct (decide (v <= 0)).
  - destruct (round_up_pow2_nonpos (v * 1024) ltac:(lia)) as (r & -> & Hr). wp_step. wp_step.
    destruct (Z.ltb_spec r 1024); [| lia]. wp_step.
    split; [by exists 10 |]. split; [done | lia].
  - rewrite round_up_pow2_smear by lia. pose proof (pow2_up (v * 1024) ltac:(lia)) as Hp.
    set (m := Z.log2 (v * 1024 - 1) + 1) in *.
    assert (Hm : 10 <= m <= 20 + 10).
    { unfold m. split.
      - pose proof (Z.log2_le_mono 1023 (v * 1024 - 1) ltac:(lia)) as H. simpl in H. lia.
      - pose proof (Z.log2_le_mono (v * 1024 - 1) (2 ^ 30 - 1) ltac:(lia)) as H.
        change (Z.log2 (2 ^ 30 - 1)) with 29 in H. lia. }
    assert (2 ^ m <= 2 ^ 30) by (apply Z.pow_le_mono_r; lia).
    rewrite int_chk_ok by (unfold int_ok, INT_MIN, INT_MAX; lia). wp_step. wp_step.
    destruct (Z.ltb_spec (2 ^ m) 1024); [lia |].
    assert (Hm20 : 2 ^ m <= 2 ^ 20 <-> m <= 20).
    { split; intros H'; [apply (Z.pow_le_mono_r_iff 2); lia | apply Z.pow_le_mono_r; lia]. }
    assert (Hm21 : 2 ^ m < 2 ^ 21 -> m <= 20).
    { intros H'. apply (Z.pow_lt_mono_r_iff 2) in H'; lia. }
    destruct (Z.gtb_spec (2 ^ m) (1024 * 1024)) as [Hbig | Hsmall]; wp_step.
    + split; [by exists 20 |]. lia.
    + split; [exists m; lia |]. split; [| lia]. intros Hv1. unfold m. by replace v with 1 by lia.
Qed.

Lemma clamp_ok v lo hi :
  lo <= hi -> let t := if v <=? lo - 1 then lo else v in
  (if t >? hi then hi else t) = Z.max lo (Z.min hi v).
Proof.
  intros H. cbn zeta. rewrite Z.gtb_ltb. destruct (Z.leb_spec v (lo - 1)).
  - destruct (Z.ltb_spec hi lo); lia.
  - destruct (Z.ltb_spec hi v); lia.
Qed.

(** For settings that parse, and at most [2^20] for the pointers per thread
    (in units of 1024), [env_init] returns; the pointers per thread are the
    power of two described above, throttling queue and children are clamped
    to [1..32] and [1..16].  A thread's queue of that size is well formed. *)
Theorem env_init_config getenv p r t m :
  get_int (getenv env_ptrs_per_thread) 32 = Ok p -> - 2 ^ 20 <= p <= 2 ^ 20 ->
  get_int (getenv env_report_statistics) 0 = Ok r ->
  get_int (getenv env_throttling_queue) 16 = Ok t ->
  get_int (getenv env_max_children) 16 = Ok m ->
  exists cfg, env_init getenv = Ok cfg /\
    ptrs_setting p (g_forkscan_ptrs_per_thread cfg) /\
    g_forkscan_report_statistics cfg = (if r =? 0 then 0 else 1) /\
    g_forkscan_throttling_queue cfg = Z.max 1 (Z.min 32 t) /\
    g_forkscan_max_children cfg = Z.max 1 (Z.min 16 m) /\
    (forall buf, zlen buf = g_forkscan_ptrs_per_thread cfg ->
       queue_wf (forkscan_queue_init buf (g_forkscan_ptrs_per_thread cfg))).
Proof.
  intros Ep Hp Er Et Em. pose proof (init_ptrs_ok getenv p Ep Hp) as Hw.
  apply wp_iff in Hw as (n & En & Hn). unfold env_init. rewrite En.
  unfold init_report_statistics, init_throttling_queue, init_max_children,
    DEFAULT_THROTTLING_QUEUE, MAX_CHILDREN, MAX_THROTTLING_QUEUE.
  rewrite Er, Et, Em. eexists. split; [reflexivity |]. cbn.
  split; [done |]. split; [by destruct (r =? 0) |].
  split; [by apply (clamp_ok t 1 32) |]. split; [by apply (clamp_ok m 1 16) |].
  intros buf Hbuf. destruct Hn as ((k & Hk & ->) & _).
  pose proof (pow2_bounds k ltac:(lia)).
  split; cbn; [exists k; split; [lia | done] | done | unfold MAX_IDX; lia | lia].
Qed.

Lemma env_init_config_witness :
  let getenv s := if (s =? env_ptrs_per_thread)%string then Some " 48"%string else None in
  exists cfg, env_init getenv = Ok cfg /\
    ptrs_setting 48 (g_forkscan_ptrs_per_thread cfg) /\
    g_forkscan_report_statistics cfg = (if 0 =? 0 then 0 else 1) /\
    g_forkscan_throttling_queue cfg = Z.max 1 (Z.min 32 16) /\
    g_forkscan_max_children cfg = Z.max 1 (Z.min 16 16) /\
    (forall buf, zlen buf = g_forkscan_ptrs_per_thread cfg ->
       queue_wf (forkscan_queue_init buf (g_forkscan_ptrs_per_thread cfg))).
Proof. intros getenv. apply (env_init_config getenv 48 0 16 16); done. Defined.

Lemma int_chk_above z : 2 ^ 31 - 1 < z -> int_chk z = Err IntOverflow.
Proof. intros H. unfold int_chk, INT_MAX. by rewrite (proj2 (Z.leb_gt _ _) H), andb_false_r. Qed.

(** A larger setting never reaches the upper bound: beyond [2^20] the
    arithmetic of the rounding overflows [int], which is undefined, before
    the value is compared with [MAX_PTRS_PER_THREAD]. *)
Theorem env_init_overflow getenv p :
  get_int (getenv env_ptrs_per_thread) 32 = Ok p -> 2 ^ 20 < p ->
  env_init getenv = Err IntOverflow.
Proof.
  intros E Hp. unfold env_init, init_ptrs_per_thread. rewrite E, bind_ok.
  destruct (decide (p < 2 ^ 21)) as [Hlt | Hge].
  - rewrite int_chk_ok by (unfold int_ok, INT_MIN, INT_MAX; lia). rewrite bind_ok.
    rewrite round_up_pow2_smear by lia.
    assert (Hm : 31 <= Z.log2 (p * 1024 - 1) + 1).
    { pose proof (Z.log2_le_mono (2 ^ 30) (p * 1024 - 1) ltac:(lia)) as H.
      change (Z.log2 (2 ^ 30)) with 30 in H. lia. }
    pose proof (Z.pow_le_mono_r 2 _ _ ltac:(lia) Hm). by rewrite int_chk_above by lia.
  - by rewrite int_chk_above by lia.
Qed.

Lemma env_init_overflow_witness :
  let getenv s := if (s =? env_ptrs_per_thread)%string then Some "1048577"%string else None in
  env_init getenv = Err IntOverflow.
Proof. intros getenv. apply (env_init_overflow getenv 1048577); [done | lia]. Defined.
