(* ===== verification/Sleep.v ===== *)
(** sleep.c: sleeping through interrupts.

    The clock is a function argument: [clock n] is what the [n]-th call of
    [clock_gettime] in the process reads, a pair of seconds and nanoseconds.
    A run returns the number of readings it took and the arguments it passed
    to [usleep]; how long each [usleep] really lasts is up to the system and
    shows only in the readings. *)
From S2P Require Import Prelude.

Definition LONG_MAX : Z := 2 ^ 63 - 1.

(** [(ts.tv_sec * 1000 * 1000) + (ts.tv_nsec / 1000)], a signed 64-bit value
    stored as an unsigned one. *)
Definition timestamp_us (ts : Z * Z) : res Z :=
  let us := ts.1 * 1000 * 1000 + Z.quot ts.2 1000 in
  if (- 2 ^ 63 <=? us) && (us <=? LONG_MAX) then Ok (u64 us) else Err IntOverflow.

(** One round of the [while] loop of [forkscan_usleep]. *)
Definition usleep_step (clock : nat -> Z * Z) (end_us : Z) (st : nat * Z * list Z)
    : res (flow (nat * Z * list Z) (nat * list Z)) :=
  let '(n, current_us, slept) := st in
  if current_us <? end_us then
    let slept := slept ++ [u32 (u64 (end_us - current_us))] in   (* usleep(useconds_t) *)
    let! current_us := timestamp_us (clock n) in
    Ok (Next ((n + 1)%nat, current_us, slept))
  else Ok (Done (n, slept)).

Definition forkscan_usleep (fuel : nat) (clock : nat -> Z * Z) (usec : Z) : res (nat * list Z) :=
  let! current_us := timestamp_us (clock 0%nat) in
  let begin_us := current_us in
  let end_us := u64 (begin_us + usec) in
  loop fuel (usleep_step clock end_us) (1%nat, current_us, []).

(** [seconds * 1000 * 1000] is computed in [unsigned int]. *)
Definition forkscan_sleep (fuel : nat) (clock : nat -> Z * Z) (seconds : Z) : res (nat * list Z) :=
  forkscan_usleep fuel clock (u32 (u32 (seconds * 1000) * 1000)).

(** * Properties *)

(** Microseconds on the clock at reading [n]. *)
Definition at_us (clock : nat -> Z * Z) (n : nat) : Z :=
  (clock n).1 * 1000 * 1000 + Z.quot (clock n).2 1000.

Definition clock_ok (clock : nat -> Z * Z) : Prop :=
  forall n, 0 <= (clock n).1 < 2 ^ 40 /\ 0 <= (clock n).2 < 10 ^ 9.

Lemma at_us_range clock n : clock_ok clock -> 0 <= at_us clock n < 2 ^ 61.
Proof.
  intros H. destruct (H n) as [H1 H2]. unfold at_us.
  rewrite Z.quot_div_nonneg by lia. Z.to_euclidean_division_equations. lia.
Qed.

Lemma timestamp_ok clock n : clock_ok clock -> timestamp_us (clock n) = Ok (at_us clock n).
Proof.
  intros H. pose proof (at_us_range clock n H). unfold timestamp_us. fold (at_us clock n).
  rewrite (proj2 (Z.leb_le _ _)) by lia. unfold LONG_MAX.
  rewrite (proj2 (Z.leb_le _ _)) by lia. simpl. f_equal. apply u64_small. unfold size_ok. lia.
Qed.

(** The outcome of a sleep of [usec] microseconds that began at reading 0:
    [n] readings were taken, the last is the first to lie [usec] or more
    after the start, and each [usleep] was asked for the rest (modulo the
    32 bits of its argument). *)
Definition slept_until (clock : nat -> Z * Z) (usec : Z) (r : nat * list Z) : Prop :=
  let end_us := at_us clock 0 + usec in
  (0 < r.1)%nat /\ end_us <= at_us clock (r.1 - 1) /\
  (forall k, (k < r.1 - 1)%nat -> at_us clock k < end_us) /\
  length r.2 = (r.1 - 1)%nat /\
  (forall k, (k < r.1 - 1)%nat -> r.2 !! k = Some (u32 (end_us - at_us clock k))).

Lemma usleep_wp fuel clock usec N :
  clock_ok clock -> 0 <= usec < 2 ^ 62 ->
  at_us clock 0 + usec <= at_us clock N -> (N < fuel)%nat ->
  wp (forkscan_usleep fuel clock usec) (slept_until clock usec).
Proof.
  intros Hc Hu HN Hf. unfold forkscan_usleep. rewrite timestamp_ok by done. rewrite bind_ok.
  pose proof (at_us_range clock 0 Hc) as H0. rewrite u64_small by (unfold size_ok; lia).
  set (end_us := at_us clock 0 + usec).
  apply (wp_loop (fun '(n, cur, l) =>
      (0 < n)%nat /\ (n <= Datatypes.S N)%nat /\ cur = at_us clock (n - 1) /\
      (forall k, (k < n - 1)%nat -> at_us clock k < end_us) /\
      length l = (n - 1)%nat /\
      (forall k, (k < n - 1)%nat -> l !! k = Some (u32 (end_us - at_us clock k))))
    (fun '(n, _, _) => (Datatypes.S N - n)%nat)).
  - split; [lia |]. split; [lia |]. split; [done |]. split; [lia |]. split; [done | lia].
  - lia.
  - intros [[n cur] l] (Hn & HnN & -> & Hlt & Hl & Hk). unfold usleep_step.
    pose proof (at_us_range clock (n - 1) Hc).
    destruct (Z.ltb_spec (at_us clock (n - 1)) end_us) as [Hc1 | Hc1]; [| by repeat split].
    rewrite timestamp_ok by done. wp_step. wp_step.
    assert (n - 1 <> N)%nat by (intros E; subst end_us; rewrite E in Hc1; lia).
    rewrite u64_small by (unfold size_ok, end_us; lia).
    split; [| lia]. split; [lia |]. split; [lia |].
    split; [f_equal; lia |]. split; [| split].
    + intros k Hkn. destruct (decide (k = n - 1)%nat) as [-> |]; [done | apply Hlt; lia].
    + rewrite length_app. simpl. lia.
    + intros k Hkn. destruct (decide (k = n - 1)%nat) as [-> |].
      * by rewrite list_lookup_middle by lia.
      * rewrite lookup_app_l by lia. apply Hk. lia.
Qed.

(** [forkscan_usleep] returns once the clock has advanced far enough, and not
    before: however often [usleep] comes back early, the last reading is the
    first one [usec] or more microseconds after the start. *)
Theorem usleep_sleeps fuel clock usec N :
  clock_ok clock -> 0 <= usec < 2 ^ 62 ->
  at_us clock 0 + usec <= at_us clock N -> (N < fuel)%nat ->
  exists r, forkscan_usleep fuel clock usec = Ok r /\ slept_until clock usec r.
Proof. intros. apply wp_iff. by eapply usleep_wp. Qed.

Definition ticking (n : nat) : Z * Z := ((Z.of_nat n * 30) mod 1000000, 0).

Lemma ticking_ok : clock_ok ticking.
Proof.
  intros n. unfold ticking. cbn [fst snd]. split; [| lia].
  pose proof (Z.mod_pos_bound (Z.of_nat n * 30) 1000000). lia.
Qed.

Lemma usleep_sleeps_witness :
  exists r, forkscan_usleep 10 ticking 100000000 = Ok r /\ slept_until ticking 100000000 r.
Proof. apply (usleep_sleeps 10 ticking 100000000 4); [apply ticking_ok | lia | done | lia]. Defined.

(** [forkscan_sleep] computes the microseconds in 32 bits: up to 4294 seconds
    it sleeps as long as it is asked to, from 4295 on it sleeps 4294.967296
    seconds less for each time the product wraps. *)
Theorem sleep_wraps fuel clock seconds N :
  clock_ok clock -> 0 <= seconds < 2 ^ 32 ->
  at_us clock 0 + (seconds * 1000000) mod 2 ^ 32 <= at_us clock N -> (N < fuel)%nat ->
  (exists r, forkscan_sleep fuel clock seconds = Ok r /\
     slept_until clock ((seconds * 1000000) mod 2 ^ 32) r) /\
  ((seconds * 1000000) mod 2 ^ 32 = seconds * 1000000 <-> seconds <= 4294).
Proof.
  intros Hc Hs HN Hf. split.
  - apply wp_iff. unfold forkscan_sleep, u32.
    rewrite Z.mul_mod_idemp_l by lia. rewrite <- Z.mul_assoc. change (1000 * 1000) with 1000000.
    eapply usleep_wp; [done | | done | done].
    pose proof (Z.mod_pos_bound (seconds * 1000000) (2 ^ 32)). lia.
  - split; [| intros; apply Z.mod_small; lia].
    pose proof (Z.mod_pos_bound (seconds * 1000000) (2 ^ 32)). lia.
Qed.

Lemma sleep_wraps_witness :
  (exists r, forkscan_sleep 10 ticking 4295 = Ok r /\
     slept_until ticking ((4295 * 1000000) mod 2 ^ 32) r) /\
  ((4295 * 1000000) mod 2 ^ 32 = 4295 * 1000000 <-> 4295 <= 4294).
Proof. apply (sleep_wraps 10 ticking 4295 1); [apply ticking_ok | lia | done | lia]. Defined.
