(* ===== verification/Stats.v ===== *)
(** util.c, forkscan.c: messages, the clock, and the statistics printed
    before the program ends.

    What [printf] and its kin write is a string; the two output streams are
    the state.  The text of /proc/self/statm and the readings of
    [clock_gettime] are arguments, and a message that is already formatted
    stands for a format and its arguments.  [g_total_fork_time] is a [double]:
    its arithmetic is binary64 with rounding to nearest, as the Standard
    Library's [SpecFloat] has it. *)
From Stdlib Require Import String Ascii SpecFloat.
From stdpp Require Import pretty.
From S2P Require Import Prelude.

(** * Messages *)

Record io_t : Type := mk_io {
  stdout : string;
  stderr : string }.

(** How a run ends; with [NDEBUG] the assertion in [forkscan_fatal] is not
    there. *)
Inductive ending_t : Type :=
  | Aborted
  | Exited (status : Z).

(** [vfprintf] returns the length of what it wrote. *)
Definition forkscan_diagnostic (message : string) (o : io_t) : Z * io_t :=
  (Z.of_nat (String.length message), mk_io (stdout o) (stderr o ++ "Forkscan diagnostic: " ++ message)%string).

Definition forkscan_fatal (ndebug : bool) (message : string) (o : io_t) : ending_t * io_t :=
  (if ndebug then Exited 1 else Aborted, mk_io (stdout o ++ "Forkscan fatal: ") (stderr o ++ message)%string).

(** * The clock *)

(** [long] arithmetic, whose overflow is undefined. *)
Definition long_chk (z : Z) : res Z := if (- 2 ^ 63 <=? z) && (z <? 2 ^ 63) then Ok z else Err IntOverflow.

Definition forkscan_rdtsc (tv_sec tv_nsec : Z) : res Z :=
  let! ms := long_chk (tv_sec * 1000) in
  Ok (u64 (u64 ms + u64 (Z.quot tv_nsec (1000 * 1000)))).

(** * Time spent at forks *)

Definition double := spec_float.
Definition double_of (z : Z) : double := binary_normalize 53 1024 z 0 false.
Definition double_add (x y : double) : double := SFadd 53 1024 x y.
Definition double_div (x y : double) : double := SFdiv 53 1024 x y.

(** The conversion to [int], towards zero; undefined out of range. *)
Definition double_to_int (x : double) : res Z :=
  match x with
  | S754_zero _ => Ok 0
  | S754_finite s m e =>
      let v := if 0 <=? e then Z.pos m * 2 ^ e else Z.pos m / 2 ^ (- e) in
      int_chk (if s then - v else v)
  | _ => Err IntOverflow
  end.

(** [g_total_fork_time += end - start], both of type [size_t]. *)
Definition add_fork_time (g_total_fork_time : double) (start stop : Z) : double :=
  double_add g_total_fork_time (double_of (u64 (stop - start))).

(** * Statistics *)

Record stats_t : Type := mk_stats {
  g_cleanup_counter : Z;
  g_scan_max : Z;
  g_total_fork_time : double;
  g_total_wait_time_ms : Z }.

Definition newline : ascii := "010".
Definition nl : string := String newline EmptyString.

(** A C string ends at its first null character. *)
Fixpoint c_string (s : string) : string :=
  match s with
  | String c s' => if Ascii.eqb c zero then EmptyString else String c (c_string s')
  | EmptyString => EmptyString
  end.

(** [fread] of at most 255 bytes, and the null character stored over a final
    newline or behind what was read. *)
Definition read_statm (file : string) : res string :=
  let statm := String.substring 0 255 file in
  let bytes_read := String.length statm in
  match bytes_read with
  | O => Err OutOfBounds
  | Datatypes.S last =>
      match String.get last statm with
      | None => Err OutOfBounds
      | Some c => Ok (c_string (String.substring 0 (if Ascii.eqb c newline then last else bytes_read) statm))
      end
  end.

Definition ave_fork_time (s : stats_t) : res Z :=
  if g_cleanup_counter s =? 0 then Ok 0
  else double_to_int (double_div (g_total_fork_time s) (double_of (g_cleanup_counter s))).

(** [file] is the text of /proc/self/statm, or nothing when it cannot be
    opened. *)
Definition forkscan_print_statistics (file : option string) (s : stats_t) (o : io_t) : res io_t :=
  match file with
  | None => Err Fatal
  | Some file =>
      let! statm := read_statm file in
      let! ave := ave_fork_time s in
      let text := ("statm: " ++ statm ++ nl ++
        "fork-count: " ++ pretty (g_cleanup_counter s) ++ nl ++
        "scan-max: " ++ pretty (g_scan_max s) ++ nl ++
        "ave-fork-time: " ++ pretty ave ++ nl ++
        "wait-time: " ++ pretty (g_total_wait_time_ms s) ++ nl)%string in
      Ok (mk_io (stdout o ++ text) (stderr o))
  end.

(** * Properties *)

(** A time in nanoseconds. *)
Definition nanoseconds (tv_sec tv_nsec : Z) : Z := tv_sec * 10 ^ 9 + tv_nsec.

Definition timespec_ok (tv_sec tv_nsec : Z) : Prop := 0 <= tv_sec < 2 ^ 50 /\ 0 <= tv_nsec < 10 ^ 9.

Lemma rdtsc_value tv_sec tv_nsec : timespec_ok tv_sec tv_nsec ->
  forkscan_rdtsc tv_sec tv_nsec = Ok (nanoseconds tv_sec tv_nsec / 10 ^ 6).
Proof.
  intros [Hs Hn]. unfold forkscan_rdtsc, long_chk, nanoseconds.
  rewrite (proj2 (Z.leb_le _ _)), (proj2 (Z.ltb_lt _ _)) by lia. cbn [andb]. rewrite bind_ok.
  rewrite Z.quot_div_nonneg by lia. change (1000 * 1000) with (10 ^ 6).
  assert (0 <= tv_nsec / 10 ^ 6 < 1000) by (Z.to_euclidean_division_equations; lia).
  rewrite !u64_small by (try (rewrite !u64_small); unfold size_ok; lia). f_equal.
  replace (tv_sec * 10 ^ 9 + tv_nsec) with (tv_nsec + (tv_sec * 1000) * 10 ^ 6) by lia.
  rewrite Z.div_add by lia. lia.
Qed.

(** The difference of two readings of [forkscan_rdtsc] is the time between
    them in milliseconds, to within one, as long as the clock has not been
    set back in between; if it has, by a millisecond or more, the difference
    is at least 2^63, and counts as such in the times that are summed up. *)
Theorem rdtsc_interval s1 n1 s2 n2 t1 t2 :
  timespec_ok s1 n1 -> timespec_ok s2 n2 -> forkscan_rdtsc s1 n1 = Ok t1 -> forkscan_rdtsc s2 n2 = Ok t2 ->
  let d := nanoseconds s2 n2 - nanoseconds s1 n1 in
  (0 <= d -> Z.abs (u64 (t2 - t1) * 10 ^ 6 - d) < 10 ^ 6) /\
  (d <= - 10 ^ 6 -> 2 ^ 63 <= u64 (t2 - t1)).
Proof.
  intros H1 H2. rewrite !rdtsc_value by done. intros [= <-] [= <-]. cbv zeta.
  unfold timespec_ok, nanoseconds in *. set (a := s1 * 10 ^ 9 + n1). set (b := s2 * 10 ^ 9 + n2).
  assert (0 <= a < 2 ^ 51 * 10 ^ 9 /\ 0 <= b < 2 ^ 51 * 10 ^ 9) by lia. clearbody a b. unfold u64. split; intros Hd.
  - rewrite Z.mod_small; Z.to_euclidean_division_equations; lia.
  - assert (b / 10 ^ 6 < a / 10 ^ 6) by (Z.to_euclidean_division_equations; lia).
    assert (0 <= b / 10 ^ 6 /\ a / 10 ^ 6 < 2 ^ 62) by (Z.to_euclidean_division_equations; lia).
    rewrite <- (Z.mod_add _ 1), Z.mod_small by lia. lia.
Qed.

Lemma substring_all s : String.substring 0 (String.length s) s = s.
Proof. induction s as [| c s IH]; cbn; [done | by rewrite IH]. Qed.

Lemma substring_all_le n s : (String.length s <= n)%nat -> String.substring 0 n s = s.
Proof.
  revert n. induction s as [| c s IH]; intros [| n] H; cbn in *; [done | done | lia |]. rewrite IH by lia. done.
Qed.

(** A text without null characters. *)
Fixpoint no_nul (s : string) : bool :=
  match s with String c s' => negb (Ascii.eqb c zero) && no_nul s' | EmptyString => true end.

Lemma c_string_id s : no_nul s = true -> c_string s = s.
Proof.
  induction s as [| c s IH]; cbn; [done |]. intros [H1%negb_true_iff H2]%andb_true_iff. by rewrite H1, IH.
Qed.

Lemma get_snoc s c : String.get (String.length s) (s ++ String c EmptyString) = Some c.
Proof. induction s as [| d s IH]; [done | exact IH]. Qed.

Lemma length_snoc s c : String.length (s ++ String c EmptyString) = Datatypes.S (String.length s).
Proof. induction s as [| d s IH]; [done | exact (f_equal Datatypes.S IH)]. Qed.

Lemma substring_snoc s c : String.substring 0 (String.length s) (s ++ String c EmptyString) = s.
Proof. induction s as [| d s IH]; [done | exact (f_equal (String d) IH)]. Qed.

Lemma no_nul_snoc s c : no_nul (s ++ String c EmptyString) = no_nul s && negb (Ascii.eqb c zero).
Proof.
  induction s as [| d s IH]; [exact (andb_comm _ true) | cbn].
  rewrite <- andb_assoc. exact (f_equal (andb _) IH).
Qed.

(** The last character is there. *)
Lemma get_last_some c s : String.get (String.length s) (String c s) <> None.
Proof. revert c. induction s as [| d s IH]; intros c; [done |]. exact (IH d). Qed.

(** The line of /proc/self/statm is printed without its newline, and
    entirely when it has none; an empty file makes the function read in front
    of its buffer. *)
Theorem read_statm_trims line :
  no_nul line = true -> (String.length line < 255)%nat ->
  read_statm (line ++ nl) = Ok line /\
  (forall s c, line = (s ++ String c EmptyString)%string -> c <> newline -> read_statm line = Ok line) /\
  read_statm EmptyString = Err OutOfBounds.
Proof.
  intros Hn Hl. split; [| split; [| done]].
  - unfold read_statm, nl. rewrite substring_all_le by (rewrite length_snoc; lia).
    rewrite length_snoc, get_snoc, Ascii.eqb_refl, substring_snoc. by rewrite c_string_id.
  - intros s c -> Hc. unfold read_statm. rewrite substring_all_le by lia. rewrite length_snoc, get_snoc.
    rewrite (proj2 (Ascii.eqb_neq _ _) Hc), <- (length_snoc s c), substring_all. by rewrite c_string_id.
Qed.

(** Every outcome of [forkscan_print_statistics]. *)
Lemma print_statistics_outcomes file s o :
  match forkscan_print_statistics file s o with
  | Ok o' => stderr o' = stderr o /\ exists f statm ave,
      file = Some f /\ read_statm f = Ok statm /\ ave_fork_time s = Ok ave /\
      stdout o' = (stdout o ++ "statm: " ++ statm ++ nl ++ "fork-count: " ++ pretty (g_cleanup_counter s) ++ nl ++
        "scan-max: " ++ pretty (g_scan_max s) ++ nl ++ "ave-fork-time: " ++ pretty ave ++ nl ++
        "wait-time: " ++ pretty (g_total_wait_time_ms s) ++ nl)%string
  | Err Fatal => file = None
  | Err OutOfBounds => file = Some EmptyString
  | Err IntOverflow => ave_fork_time s = Err IntOverflow
  | Err _ => False
  end.
Proof.
  destruct file as [f |]; [| done]. unfold forkscan_print_statistics.
  destruct (read_statm f) as [statm | e] eqn:E.
  - rewrite bind_ok. destruct (ave_fork_time s) as [ave | e] eqn:Ea.
    + rewrite bind_ok. split; [done |]. by exists f, statm, ave.
    + rewrite bind_err. unfold ave_fork_time in Ea. destruct (_ =? 0); [done |].
      unfold double_to_int, int_chk in Ea. repeat case_match; by simplify_eq.
  - rewrite bind_err. unfold read_statm in E. destruct f as [| c f]; [by injection E as <- |].
    change (String.substring 0 255 (String c f)) with (String c (String.substring 0 254 f)) in E.
    set (t := String.substring 0 254 f) in E. change (String.length (String c t)) with (Datatypes.S (String.length t)) in E.
    cbn iota in E. pose proof (get_last_some c t) as Hg. by destruct (String.get (String.length t) (String c t)).
Qed.

(** The average is that of the times at the forks. *)
Example ave_of_three :
  ave_fork_time (mk_stats 3 0 (foldl (fun t d => add_fork_time t 0 d) (double_of 0) [10; 20; 31]) 0) = Ok 20.
Proof. vm_compute. reflexivity. Qed.

(** One interval during which the clock was set back spoils it: its
    conversion to [int] is undefined. *)
Example ave_after_step_back :
  ave_fork_time (mk_stats 2 0 (add_fork_time (add_fork_time (double_of 0) 1000 1005) 2000 1999) 0) = Err IntOverflow.
Proof. vm_compute. reflexivity. Qed.

(** ** Witnesses *)

Lemma rdtsc_interval_witness :
  u64 (1700000002000 - 1700000000999) = 1001 /\ Z.abs (u64 (1700000002000 - 1700000000999) * 10 ^ 6 - 1000200001) < 10 ^ 6.
Proof.
  split; [reflexivity |].
  apply (rdtsc_interval 1700000000 999800000 1700000002 1 1700000000999 1700000002000);
    [split; lia | split; lia | reflexivity | reflexivity | vm_compute; discriminate].
Defined.

Lemma read_statm_trims_witness : read_statm ("12 3 4" ++ nl) = Ok "12 3 4"%string.
Proof. apply (read_statm_trims "12 3 4"); [reflexivity | cbn; lia]. Defined.
