(* ===== verification/Pool.v ===== *)
(** metautil.h: the pools that [DEFINE_POOL_ALLOC] defines.

    A pool hands out chunks of [dtsize] bytes.  The free ones are linked
    through their first word; [links] holds these words.  When the pool is
    empty a block of [batch_sz] chunks is mapped ([maps] are the addresses the
    coming calls of [mmap] return), the first is handed out and the others
    are linked.  The two critical sections of [pool_alloc] are operations of
    their own, since other threads may come between them. *)
From S2P Require Import Prelude.

Record pool_t : Type := mk_pool {
  links : gmap Z Z;
  g_pool : Z;
  maps : list Z }.

Section pool.
Context (dtsize batch_sz : Z).

Definition link_load (s : pool_t) (p : Z) : res Z :=
  match links s !! p with Some q => Ok q | None => Err OutOfBounds end.

Definition link_store (s : pool_t) (p q : Z) : pool_t := mk_pool (<[p := q]> (links s)) (g_pool s) (maps s).

(** The first critical section: [NULL] if there is no free chunk. *)
Definition pool_take (s : pool_t) : res (Z * pool_t) :=
  if negb (g_pool s =? 0) then
    let ret := g_pool s in
    let! next := link_load s ret in
    let s := mk_pool (links s) next (maps s) in
    Ok (ret, link_store s ret 0)
  else Ok (0, s).

(** The second: the loop over the chunks of a new block. *)
Definition add_chunk (arr i : Z) (s : pool_t) : res pool_t :=
  let! offset := int_chk (i * dtsize) in
  let node := arr + offset in
  let s := link_store s node (g_pool s) in
  Ok (mk_pool (links s) node (maps s)).

Definition pool_add (arr : Z) (s : pool_t) : res pool_t := for_range 1 batch_sz (add_chunk arr) s.

Definition pool_mmap (s : pool_t) : res (Z * pool_t) :=
  match maps s with
  | [] => Err Fatal
  | arr :: rest => Ok (arr, mk_pool (links s) (g_pool s) rest)
  end.

Definition pool_alloc (s : pool_t) : res (Z * pool_t) :=
  let! ' (ret, s) := pool_take s in
  if negb (ret =? 0) then Ok (ret, s) else
  let! ' (arr, s) := pool_mmap s in
  let! s := pool_add arr s in
  Ok (arr, s).

Definition pool_free (p : Z) (s : pool_t) : pool_t :=
  let s := link_store s p (g_pool s) in
  mk_pool (links s) p (maps s).

(** * The free chunks and those handed out *)

Definition apart (a b : Z) : Prop := a + dtsize <= b \/ b + dtsize <= a.

(** The chunks [free] are linked, the chunks [held] are handed out, and no
    two of them overlap. *)
Record pool_inv (free held : list Z) (s : pool_t) : Prop := {
  po_chain : lchain id (links s) (g_pool s) free;
  po_nodup : NoDup (free ++ held);
  po_apart : forall a b, a ∈ free ++ held -> b ∈ free ++ held -> a <> b -> apart a b;
  po_pos : forall a, a ∈ free ++ held -> 0 < a }.

(** A block no chunk lies in. *)
Definition fresh_block (l : list Z) (arr : Z) : Prop :=
  0 < arr /\ forall a, a ∈ l -> arr + batch_sz * dtsize <= a \/ a + dtsize <= arr.

Definition chunks (arr : Z) (n : nat) : list Z := (fun i : nat => arr + Z.of_nat i * dtsize) <$> seq 1 n.

Lemma pool_inv_perm free held held' s : Permutation held held' -> pool_inv free held s -> pool_inv free held' s.
Proof using Type.
  intros Hp [H1 H2 H3 H4]. split; [done | by rewrite <- Hp | |].
  - intros a b. rewrite <- Hp. apply H3.
  - intros a. rewrite <- Hp. apply H4.
Qed.

Lemma take_ok free held s : pool_inv free held s ->
  wp (pool_take s) (fun '(p, s') => maps s' = maps s /\
    match free with
    | [] => p = 0 /\ s' = s
    | q :: free' => p = q /\ p <> 0 /\ pool_inv free' (q :: held) s'
    end).
Proof using Type.
  intros [Hc Hnd Hap Hpos]. unfold pool_take. destruct free as [|q free].
  - cbn in Hc. rewrite Hc. cbn [Z.eqb negb]. by wp_step.
  - destruct Hc as (Eq & Hq & n & Hn & Hc). rewrite Eq. apply Z.eqb_neq in Hq as Hq'. rewrite Hq'. cbn [negb].
    unfold link_load. rewrite Hn. wp_step. wp_step. wp_step. split; [done |]. split; [done |]. split; [done |].
    assert (Hperm : Permutation ((q :: free) ++ held) (free ++ q :: held)) by (cbn; by rewrite Permutation_middle).
    split; cbn.
    + eapply lchain_frame; [exact Hc |]. intros r Hr. rewrite lookup_insert_ne; [done |]. intros ->.
      apply NoDup_cons in Hnd as [Hnd _]. apply Hnd, elem_of_app. by left.
    + by rewrite <- Hperm.
    + intros a b. rewrite <- Hperm. apply Hap.
    + intros a. rewrite <- Hperm. apply Hpos.
Qed.

Lemma free_ok free held p s : pool_inv free (p :: held) s -> pool_inv (p :: free) held (pool_free p s).
Proof using Type.
  intros [Hc Hnd Hap Hpos].
  assert (Hperm : Permutation (free ++ p :: held) ((p :: free) ++ held)) by (cbn; by rewrite Permutation_middle).
  assert (Hp : 0 < p) by (apply Hpos, elem_of_app; right; left).
  rewrite Hperm in Hnd. split; cbn.
  - split; [done |]. split; [lia |]. exists (g_pool s). split; [apply lookup_insert_eq |].
    eapply lchain_frame; [exact Hc |]. intros r Hr. rewrite lookup_insert_ne; [done |]. intros ->.
    apply NoDup_cons in Hnd as [Hnd _]. apply Hnd, elem_of_app. by left.
  - done.
  - intros a b. change (p :: free ++ held) with ((p :: free) ++ held). rewrite <- Hperm. apply Hap.
  - intros a. change (p :: free ++ held) with ((p :: free) ++ held). rewrite <- Hperm. apply Hpos.
Qed.

(** One more chunk is taken into account. *)
Lemma pool_inv_hold free held p s : 0 < dtsize -> pool_inv free held s -> 0 < p ->
  (forall a, a ∈ free ++ held -> apart p a) -> pool_inv free (p :: held) s.
Proof using Type.
  intros Hdt [Hc Hnd Hap Hpos] Hp Hfr.
  assert (Hperm : Permutation (p :: free ++ held) (free ++ p :: held)) by (by rewrite Permutation_middle).
  split; [done | | |].
  - rewrite <- Hperm. apply NoDup_cons. split; [| done]. intros Hin. specialize (Hfr p Hin). unfold apart in Hfr. lia.
  - intros a b. rewrite <- Hperm, !elem_of_cons. unfold apart in *. intros [-> | Ha] [-> | Hb] Hne; [done | | |].
    + by apply Hfr.
    + specialize (Hfr a Ha). lia.
    + by apply Hap.
  - intros a. rewrite <- Hperm, elem_of_cons. intros [-> | Ha]; [done | by apply Hpos].
Qed.

Lemma chunks_S arr n : chunks arr (Datatypes.S n) = chunks arr n ++ [arr + Z.of_nat (Datatypes.S n) * dtsize].
Proof using Type. unfold chunks. rewrite seq_S, fmap_app. done. Qed.

Lemma elem_of_chunks arr n a : a ∈ chunks arr n -> exists i, 1 <= i <= Z.of_nat n /\ a = arr + i * dtsize.
Proof using Type.
  intros (i & -> & Hi%elem_of_seq)%list_elem_of_fmap. exists (Z.of_nat i). split; [lia | done].
Qed.

Lemma add_ok free held arr s :
  0 < dtsize -> 1 <= batch_sz -> batch_sz * dtsize <= INT_MAX ->
  pool_inv free held s -> fresh_block (free ++ held) arr ->
  wp (pool_add arr s) (fun s' => maps s' = maps s /\
    pool_inv (rev (chunks arr (Z.to_nat (batch_sz - 1))) ++ free) (arr :: held) s').
Proof using Type.
  intros Hdt Hb Hmax I [Harr Hfr]. unfold pool_add. eapply wp_mono.
  { apply (wp_for_range (fun i t => maps t = maps s /\
      pool_inv (rev (chunks arr (Z.to_nat (i - 1))) ++ free) (arr :: held) t)); [lia | | | intros t Ht; exact Ht].
    - split; [done |]. apply pool_inv_hold; [done | done | done |]. intros a Ha. specialize (Hfr a Ha). unfold apart. nia.
    - intros i t Hi [Hm It]. unfold add_chunk. wp_step.
      wp_step; [unfold int_ok, INT_MIN, INT_MAX in *; nia |]. wp_step. split; [done |].
      replace (Z.to_nat (i + 1 - 1)) with (Datatypes.S (Z.to_nat (i - 1))) by lia.
      rewrite chunks_S, rev_app_distr. cbn [rev app].
      replace (Z.of_nat (Datatypes.S (Z.to_nat (i - 1)))) with i by lia.
      apply (free_ok _ _ (arr + i * dtsize) t). apply pool_inv_hold; [done | done | nia |].
      intros a. unfold apart. rewrite elem_of_app, elem_of_app, elem_of_cons.
      intros [[(k & Hk & ->)%list_elem_of_In%in_rev%list_elem_of_In%elem_of_chunks | Ha] | [-> | Ha]]; [nia | | nia |].
      + specialize (Hfr a ltac:(apply elem_of_app; by left)). nia.
      + specialize (Hfr a ltac:(apply elem_of_app; by right)). nia. }
  intros t Ht. exact Ht.
Qed.

Lemma alloc_wp free held s :
  0 < dtsize -> 1 <= batch_sz -> batch_sz * dtsize <= INT_MAX -> pool_inv free held s ->
  (free = [] -> exists arr rest, maps s = arr :: rest /\ fresh_block held arr) ->
  wp (pool_alloc s) (fun '(p, s') => exists free', pool_inv free' (p :: held) s' /\
    match free with
    | [] => maps s = p :: maps s' /\ length free' = Z.to_nat (batch_sz - 1)
    | q :: free0 => p = q /\ free' = free0 /\ maps s' = maps s
    end).
Proof using Type.
  intros Hdt Hb Hmax I Hmap. unfold pool_alloc. wp_step. eapply wp_mono; [by apply take_ok |].
  intros [p s1] [Hm H1]. destruct free as [|q free].
  - destruct H1 as [-> ->]. destruct (Hmap eq_refl) as (arr & rest & Em & Hfr). cbn [Z.eqb negb].
    unfold pool_mmap. rewrite Em. wp_step. wp_step. wp_step.
    eapply wp_mono; [apply (add_ok [] held arr); [done | done | done | | done] |].
    { destruct I as [C1 C2 C3 C4]. by split. }
    intros s2 [Hm2 I2]. wp_step. exists (rev (chunks arr (Z.to_nat (batch_sz - 1))) ++ []).
    split; [done |]. split; [by rewrite Hm2 |]. unfold chunks.
    rewrite app_nil_r, length_rev, length_fmap, length_seq. done.
  - destruct H1 as (-> & Hq & I1). apply Z.eqb_neq in Hq as ->. cbn [negb]. wp_step.
    exists free. by split_and!.
Qed.
End pool.

(** [pool_alloc] hands out a chunk that overlaps none of those in use: the
    first free one if there is one, and otherwise the first of a new block,
    whose other chunks become free. *)
Theorem pool_alloc_fresh dtsize batch_sz free held s :
  0 < dtsize -> 1 <= batch_sz -> batch_sz * dtsize <= INT_MAX -> pool_inv dtsize free held s ->
  (free = [] -> exists arr rest, maps s = arr :: rest /\ fresh_block dtsize batch_sz held arr) ->
  exists p s' free', pool_alloc dtsize batch_sz s = Ok (p, s') /\ pool_inv dtsize free' (p :: held) s' /\
    match free with
    | [] => maps s = p :: maps s' /\ length free' = Z.to_nat (batch_sz - 1)
    | q :: free0 => p = q /\ free' = free0 /\ maps s' = maps s
    end.
Proof.
  intros Hdt Hb Hmax I Hmap. pose proof (alloc_wp dtsize batch_sz free held s Hdt Hb Hmax I Hmap) as H.
  apply wp_iff in H as ([p s'] & E & free' & H). by exists p, s', free'.
Qed.

(** What is freed is what is handed out next, and the pool is then what it
    was, up to the link in the chunk itself. *)
Theorem pool_free_alloc dtsize batch_sz free held p s :
  pool_inv dtsize free (p :: held) s ->
  exists s', pool_alloc dtsize batch_sz (pool_free p s) = Ok (p, s') /\
    pool_inv dtsize free (p :: held) s' /\ g_pool s' = g_pool s /\ maps s' = maps s /\
    (forall q, q <> p -> links s' !! q = links s !! q).
Proof.
  intros I. assert (Hp : 0 < p) by (apply (po_pos _ _ _ _ I), elem_of_app; right; left).
  pose proof (free_ok dtsize _ _ _ _ I) as I'. pose proof (take_ok dtsize _ _ _ I') as H.
  unfold pool_alloc. unfold pool_take, link_load, pool_free, link_store in *. cbn [g_pool links maps] in *.
  assert (p <> 0) as H0%Z.eqb_neq by lia. rewrite H0 in *. cbn [negb] in *.
  rewrite lookup_insert_eq, !bind_ok in *. destruct H as (_ & _ & _ & I2). rewrite H0. cbn [negb].
  eexists. split; [done |]. split; [exact I2 |]. split_and!; try done. intros q Hq. cbn.
  by rewrite insert_insert_eq, lookup_insert_ne.
Qed.

Lemma empty_pool_inv dtsize maps : pool_inv dtsize [] [] (mk_pool ∅ 0 maps).
Proof. split; [done | constructor | |]; intros a; [intros b Ha | intros Ha]; by apply not_elem_of_nil in Ha. Qed.

Lemma pool_alloc_fresh_witness :
  exists p s' free', pool_alloc 4096 8 (mk_pool ∅ 0 [0x10000]) = Ok (p, s') /\
    pool_inv 4096 free' [p] s' /\ [0x10000] = p :: maps s' /\ length free' = 7%nat.
Proof.
  apply (pool_alloc_fresh 4096 8 [] [] (mk_pool ∅ 0 [0x10000])); [done | done | done | apply empty_pool_inv |].
  intros _. exists 0x10000, []. split; [done |]. split; [done |]. intros a Ha. by apply not_elem_of_nil in Ha.
Defined.

Lemma pool_free_alloc_witness :
  exists s', pool_alloc 4096 8 (pool_free 0x10000 (mk_pool ∅ 0 [])) = Ok (0x10000, s') /\
    pool_inv 4096 [] [0x10000] s' /\ g_pool s' = 0.
Proof.
  destruct (pool_free_alloc 4096 8 [] [] 0x10000 (mk_pool ∅ 0 [])) as (s' & E & I & Hg & _); [| by exists s'].
  apply pool_inv_hold; [done | apply empty_pool_inv | done |]. intros a Ha. by apply not_elem_of_nil in Ha.
Defined.
