(* ===== verification/PoolRace.v ===== *)
(** metautil.h: a pool under several threads.

    [pool_alloc] has two critical sections with the call of [mmap] between
    them, unlocked; other threads may allocate, map and free in between.
    Each critical section is a step here, and so is the call.  No two
    threads are ever given overlapping chunks. *)
From S2P Require Import Prelude Pool.

Section race.
Context (dtsize batch_sz : Z) (Hdt : 0 < dtsize) (Hb : 1 <= batch_sz) (Hmax : batch_sz * dtsize <= INT_MAX).

(** A thread outside of [pool_alloc]; in it with no free chunk, before
    [mmap]; with a new block, before the second critical section. *)
Inductive alloc_pc : Type :=
  | Outside
  | Mapping
  | Adding (arr : Z).

(** [held]: the chunks given out and not freed since; [blocks]: what [mmap]
    has answered. *)
Record race_t : Type := mk_race {
  pool : pool_t;
  pcs : list alloc_pc;
  held : list Z;
  blocks : list Z }.

(** The kernel maps a block where none is mapped. *)
Definition maps_fresh (bs : list Z) (arr : Z) : Prop :=
  0 < arr /\ forall b, b ∈ bs -> arr + batch_sz * dtsize <= b \/ b + batch_sz * dtsize <= arr.

Inductive race_step (s : race_t) : race_t -> Prop :=
  | takes i p t : pcs s !! i = Some Outside -> pool_take (pool s) = Ok (p, t) ->
      race_step s (if p =? 0 then mk_race t (<[i := Mapping]> (pcs s)) (held s) (blocks s)
                   else mk_race t (pcs s) (p :: held s) (blocks s))
  | maps i arr : pcs s !! i = Some Mapping -> maps_fresh (blocks s) arr ->
      race_step s (mk_race (pool s) (<[i := Adding arr]> (pcs s)) (held s) (arr :: blocks s))
  | adds i arr t : pcs s !! i = Some (Adding arr) -> pool_add dtsize batch_sz arr (pool s) = Ok t ->
      race_step s (mk_race t (<[i := Outside]> (pcs s)) (arr :: held s) (blocks s))
  | frees h1 p h2 : held s = h1 ++ p :: h2 ->
      race_step s (mk_race (pool_free p (pool s)) (pcs s) (h1 ++ h2) (blocks s)).

Definition race_start (n : nat) : race_t := mk_race (mk_pool ∅ 0 []) (replicate n Outside) [] [].

(** A chunk lies in a block, or clear of it. *)
Definition inside (a b : Z) : Prop := b <= a /\ a + dtsize <= b + batch_sz * dtsize.
Definition clear (a b : Z) : Prop := b + batch_sz * dtsize <= a \/ a + dtsize <= b.

Record race_inv (free : list Z) (s : race_t) : Prop := {
  ri_pool : pool_inv dtsize free (held s) (pool s);
  ri_inside : forall a, a ∈ free ++ held s -> exists b, b ∈ blocks s /\ inside a b;
  ri_blocks : forall a b, a ∈ blocks s -> b ∈ blocks s -> a <> b ->
    a + batch_sz * dtsize <= b \/ b + batch_sz * dtsize <= a;
  ri_adding : forall i arr, pcs s !! i = Some (Adding arr) ->
    0 < arr /\ arr ∈ blocks s /\ forall a, a ∈ free ++ held s -> clear a arr;
  ri_apart : forall i j arr, pcs s !! i = Some (Adding arr) -> pcs s !! j = Some (Adding arr) -> i = j }.

Definition race_ok (s : race_t) : Prop := exists free, race_inv free s.

(** The same chunks, in a different split, with the threads where they were. *)
Lemma race_same_chunks free free' s t h : race_inv free s -> pool_inv dtsize free' h t ->
  free' ++ h ≡ₚ free ++ held s -> race_inv free' (mk_race t (pcs s) h (blocks s)).
Proof using Type.
  intros [I1 I2 I3 I4 I5] Hp E. split; cbn; [done | | done | | done].
  - intros a. rewrite E. apply I2.
  - intros i arr Hi. destruct (I4 i arr Hi) as (H1 & H2 & H3). do 2 (split; [done |]). intros a. rewrite E. apply H3.
Qed.

(** A thread goes to a place where it has no block. *)
Lemma race_moves free s i pc : race_inv free s -> (forall arr, pc <> Adding arr) ->
  race_inv free (mk_race (pool s) (<[i := pc]> (pcs s)) (held s) (blocks s)).
Proof using Type.
  intros [I1 I2 I3 I4 I5] Hpc.
  assert (Hl : forall j arr, <[i := pc]> (pcs s) !! j = Some (Adding arr) -> pcs s !! j = Some (Adding arr)).
  { intros j arr Hj. destruct (decide (i = j)) as [<- | Hne]; [| by rewrite list_lookup_insert_ne in Hj].
    destruct (decide (i < length (pcs s))%nat) as [Hlt | Hge].
    - rewrite list_lookup_insert_eq in Hj by done. injection Hj as Hj. by destruct (Hpc arr).
    - rewrite list_insert_ge in Hj by lia. done. }
  split; cbn; [done | done | done | |].
  - intros j arr Hj. by apply (I4 j), Hl.
  - intros j k arr Hj Hk. eapply I5; by apply Hl.
Qed.

Lemma takes_ok s i p t : race_ok s -> pcs s !! i = Some Outside -> pool_take (pool s) = Ok (p, t) ->
  race_ok (if p =? 0 then mk_race t (<[i := Mapping]> (pcs s)) (held s) (blocks s)
           else mk_race t (pcs s) (p :: held s) (blocks s)).
Proof using Type.
  intros [free I] Hi E. pose proof (take_ok dtsize free (held s) (pool s) (ri_pool _ _ I)) as P. rewrite E in P.
  destruct P as [_ P]. destruct free as [| q free].
  - destruct P as [-> ->]. cbn [Z.eqb]. exists []. by apply race_moves.
  - destruct P as (-> & Hq & P). apply Z.eqb_neq in Hq as ->. exists free. eapply race_same_chunks; [exact I | exact P |].
    cbn. by rewrite Permutation_middle.
Qed.

Lemma maps_ok s i arr : race_ok s -> pcs s !! i = Some Mapping -> maps_fresh (blocks s) arr ->
  race_ok (mk_race (pool s) (<[i := Adding arr]> (pcs s)) (held s) (arr :: blocks s)).
Proof using Hdt Hb.
  intros [free [I1 I2 I3 I4 I5]] Hi [Hpos Hfr]. exists free.
  assert (Hnin : arr ∉ blocks s) by (intros Hin; specialize (Hfr arr Hin); nia).
  assert (Hl : forall j arr', <[i := Adding arr]> (pcs s) !! j = Some (Adding arr') ->
    (j = i /\ arr' = arr) \/ (j <> i /\ pcs s !! j = Some (Adding arr'))).
  { intros j arr' Hj. destruct (decide (j = i)) as [-> | Hne].
    - rewrite list_lookup_insert_eq in Hj by (by eapply lookup_lt_Some). injection Hj as <-. by left.
    - rewrite list_lookup_insert_ne in Hj by done. by right. }
  split; cbn; [done | | | |].
  - intros a Ha. destruct (I2 a Ha) as (b & Hin & Hab). exists b. split; [by right | done].
  - intros a b [-> | Ha]%elem_of_cons [-> | Hbb]%elem_of_cons Hne; [done | by apply Hfr | | by apply I3].
    specialize (Hfr a Ha). lia.
  - intros j arr' Hj. destruct (Hl j arr' Hj) as [[-> ->] | [_ Hj']].
    + split; [done |]. split; [left |]. intros a Ha. destruct (I2 a Ha) as (b & Hin & Hab). specialize (Hfr b Hin).
      unfold clear, inside in *. lia.
    + destruct (I4 j arr' Hj') as (H1 & H2 & H3). split; [done |]. split; [by right | done].
  - intros j k arr' Hj Hk. destruct (Hl j arr' Hj) as [[-> ->] | [_ Hj']], (Hl k _ Hk) as [[-> E] | [_ Hk']].
    + done.
    + by destruct (I4 k arr Hk') as (_ & Hin & _).
    + subst. by destruct (I4 j arr Hj') as (_ & Hin & _).
    + by apply (I5 j k arr').
Qed.

Lemma adds_ok s i arr : race_ok s -> pcs s !! i = Some (Adding arr) ->
  wp (pool_add dtsize batch_sz arr (pool s)) (fun t =>
    race_ok (mk_race t (<[i := Outside]> (pcs s)) (arr :: held s) (blocks s))).
Proof using Hdt Hb Hmax.
  intros [free I] Hi. pose proof I as [I1 I2 I3 I4 I5]. destruct (I4 i arr Hi) as (Hpos & Hin & Hclear).
  eapply wp_mono; [apply (add_ok dtsize batch_sz free (held s)); [done.. |] |].
  { split; [done |]. intros a Ha. specialize (Hclear a Ha). unfold clear in Hclear. lia. }
  intros t [_ Hp]. set (free' := rev _ ++ free) in Hp.
  assert (Hnew : forall a, a ∈ free' ++ arr :: held s -> inside a arr \/ a ∈ free ++ held s).
  { intros a. unfold free'. rewrite !elem_of_app, elem_of_cons. intros [[Ha | Ha] | [-> | Ha]].
    - left. apply list_elem_of_In, in_rev, list_elem_of_In in Ha. apply elem_of_chunks in Ha as (k & Hk & ->). unfold inside. nia.
    - right. by left.
    - left. unfold inside. nia.
    - right. by right. }
  assert (Hl : forall j arr', <[i := Outside]> (pcs s) !! j = Some (Adding arr') -> j <> i /\ pcs s !! j = Some (Adding arr')).
  { intros j arr' Hj. destruct (decide (j = i)) as [-> | Hne].
    - rewrite list_lookup_insert_eq in Hj by (by eapply lookup_lt_Some). done.
    - by rewrite list_lookup_insert_ne in Hj. }
  exists free'. split; cbn; [done | | done | |].
  - intros a Ha. destruct (Hnew a Ha) as [Ha' | Ha']; [by exists arr | by apply I2].
  - intros j arr' Hj. destruct (Hl j arr' Hj) as [Hne Hj']. destruct (I4 j arr' Hj') as (H1 & H2 & H3).
    do 2 (split; [done |]). intros a Ha. destruct (Hnew a Ha) as [Ha' | Ha']; [| by apply H3].
    destruct (decide (arr' = arr)) as [-> | Hd]; [by destruct Hne; apply (I5 j i arr) |].
    specialize (I3 arr' arr H2 Hin Hd). unfold clear, inside in *. lia.
  - intros j k arr' Hj Hk. apply (I5 j k arr'); by apply Hl.
Qed.

Lemma frees_ok s h1 p h2 : race_ok s -> held s = h1 ++ p :: h2 ->
  race_ok (mk_race (pool_free p (pool s)) (pcs s) (h1 ++ h2) (blocks s)).
Proof using Type.
  intros [free I] E. pose proof (ri_pool _ _ I) as P. rewrite E in P.
  apply (pool_inv_perm dtsize _ _ (p :: h1 ++ h2)) in P; [| by rewrite Permutation_middle].
  exists (p :: free). eapply race_same_chunks; [exact I | by apply free_ok |].
  rewrite E. cbn. rewrite app_assoc, Permutation_middle. by rewrite <- app_assoc.
Qed.

Lemma race_step_ok s s' : race_ok s -> race_step s s' -> race_ok s'.
Proof using Hdt Hb Hmax.
  intros R [i p t Hi E | i arr Hi Hf | i arr t Hi E | h1 p h2 E].
  - by apply takes_ok with (i := i).
  - by apply maps_ok.
  - pose proof (adds_ok s i arr R Hi) as P. by rewrite E in P.
  - by apply frees_ok.
Qed.

Lemma race_reachable n s : rtc race_step (race_start n) s -> race_ok s.
Proof using Hdt Hb Hmax.
  intros H. remember (race_start n) as s0 eqn:E0. assert (R : race_ok s0).
  { subst s0. exists []. split; cbn; [apply empty_pool_inv | | | |].
    - intros a Ha. by apply not_elem_of_nil in Ha.
    - intros a b Ha. by apply not_elem_of_nil in Ha.
    - intros i arr Hi. by apply lookup_replicate in Hi as [? _].
    - intros i j arr Hi. by apply lookup_replicate in Hi as [? _]. }
  clear E0. induction H as [s | s s1 s2 Hs _ IH]; [done |]. apply IH. by eapply race_step_ok.
Qed.

(** C26: Whatever the threads do, the chunks they have been given and not
    freed are pairwise disjoint, and none of them is in the pool; and the
    next critical section of each thread succeeds. *)
Theorem chunks_exclusive n s :
  rtc race_step (race_start n) s ->
  NoDup (held s) /\
  (forall a b, a ∈ held s -> b ∈ held s -> a <> b -> apart dtsize a b) /\
  (exists x, pool_take (pool s) = Ok x) /\
  (forall i arr, pcs s !! i = Some (Adding arr) -> exists t, pool_add dtsize batch_sz arr (pool s) = Ok t).
Proof using Hdt Hb Hmax.
  intros H. pose proof (race_reachable n s H) as R. pose proof R as [free I]. pose proof (ri_pool _ _ I) as P.
  split; [by apply po_nodup, NoDup_app in P as (_ & _ & Hnd) |]. split.
  { intros a b Ha Hbb. apply (po_apart _ _ _ _ P); apply elem_of_app; by right. }
  split.
  - destruct (proj1 (wp_iff _ _) (take_ok dtsize free (held s) (pool s) P)) as (x & E & _). by exists x.
  - intros i arr Hi. destruct (proj1 (wp_iff _ _) (adds_ok s i arr R Hi)) as (t & E & _). by exists t.
Qed.
End race.

(** ** Witness: two threads find the pool empty, and both map a block *)

Definition demo_added (arr : Z) (s : pool_t) : pool_t := match pool_add 16 2 arr s with Ok t => t | Err _ => s end.
Definition demo_empty : pool_t := mk_pool ∅ 0 [].
Definition demo_first : pool_t := demo_added 0x10000 demo_empty.
Definition demo_second : pool_t := demo_added 0x20000 demo_first.

Definition demo_mapping : race_t := mk_race demo_empty [Mapping; Mapping] [] [].
Definition demo_mapped : race_t := mk_race demo_empty [Adding 0x10000; Adding 0x20000] [] [0x20000; 0x10000].
Definition demo_race : race_t := mk_race demo_second [Outside; Outside] [0x20000; 0x10000] [0x20000; 0x10000].

Lemma demo_race_maps : rtc (race_step 16 2) demo_mapping demo_mapped.
Proof.
  eapply rtc_l; [apply (maps 16 2 demo_mapping 0 0x10000); [done |] |].
  { split; [done |]. intros b Hb. by apply not_elem_of_nil in Hb. }
  eapply rtc_l; [eapply (maps 16 2 _ 1 0x20000); [done |] | apply rtc_refl].
  split; [done |]. intros b ->%list_elem_of_singleton. right. done.
Qed.

Lemma demo_race_reached : rtc (race_step 16 2) (race_start 2) demo_race.
Proof.
  eapply rtc_l; [apply (takes 16 2 (race_start 2) 0 0 demo_empty); done |].
  eapply rtc_l; [eapply (takes 16 2 _ 1 0 demo_empty); done |].
  etransitivity; [apply demo_race_maps |].
  eapply rtc_l; [apply (adds 16 2 demo_mapped 0 0x10000 demo_first); vm_compute; reflexivity |].
  eapply rtc_l; [eapply (adds 16 2 _ 1 0x20000 demo_second); vm_compute; reflexivity | apply rtc_refl].
Qed.

Lemma chunks_exclusive_witness :
  0x10000 ∈ held demo_race /\ 0x20000 ∈ held demo_race /\ NoDup (held demo_race) /\
  forall a b, a ∈ held demo_race -> b ∈ held demo_race -> a <> b -> apart 16 a b.
Proof.
  split; [right; left |]. split; [left |].
  destruct (chunks_exclusive 16 2 ltac:(lia) ltac:(lia) ltac:(unfold INT_MAX; lia) 2 demo_race demo_race_reached) as (H1 & H2 & _).
  by split.
Defined.
