(* ===== verification/Collect.v ===== *)
(** forkscan.c: what an iteration of the collector does to the set of retired
    nodes, end to end.

    [Gc] has the parts of [reclaim_iteration]; here they are put together,
    for any scan that only sets marks (the interface [Scanner]; [Iteration]
    has the scan of child.c for it). *)
From S2P Require Import Prelude SortUtil AddrBuffer Search Mark Roots Alloc Ranges Child Buffer Gc.

(** * What the collector expects of the scan *)

(** [w'] is [w] with some of its entries marked. *)
Record remarked (w w' : addr_buffer_t) : Prop := {
  rm_n : ab_n_addrs w' = ab_n_addrs w;
  rm_shape : same_shape w w';
  rm_nodes : PTR_MASK <$> content w' = PTR_MASK <$> content w;
  rm_entries : forall x, x ∈ content w' -> entry_ok x }.

(** A scan that, where [pre] holds, ends and does no more to the aggregate
    than set marks, on every tracked node of [must] and on none but those of
    [may]. *)
Class Scanner (pre : addr_buffer_t -> addr_buffer_t -> Prop) (must may : Z -> Prop)
    (scan : addr_buffer_t -> addr_buffer_t -> res addr_buffer_t) : Prop :=
  scanner_marks : forall w d, pre w d -> wp (scan w d) (fun w' => remarked w w' /\
    (forall v, must v -> ~ Mark.unmarked w' v) /\ (forall v, Mark.unmarked w v -> ~ Mark.unmarked w' v -> may v)).

Lemma pool_entries ab x : pool_wf ab -> x ∈ content ab -> entry_ok x.
Proof.
  intros W Hx. pose proof (wf_n _ W). pose proof (wf_room _ W). unfold content in Hx.
  apply first_n_elem in Hx as (i & Hi & <-); [by apply (wf_entries _ W) | lia].
Qed.

Lemma mark_all_remarked us w : pool_wf w -> all_aligned us -> remarked w (mark_all us w).
Proof.
  intros W Hus. pose proof (wf_n _ W). pose proof (wf_room _ W).
  assert (Hz : forall v, zlen (PTR_MASK <$> first_n (ab_n_addrs w) v) = zlen (first_n (ab_n_addrs w) v))
    by (intros v; unfold zlen; by rewrite length_fmap).
  split; [done | split; try done; apply zlen_mark_all | |].
  - change (content (mark_all us w)) with (first_n (ab_n_addrs w) (ab_addrs (mark_all us w))). unfold content.
    apply list_eq_get; [rewrite !Hz, !zlen_first_n; rewrite ?zlen_mark_all; lia |].
    intros i Hi. rewrite Hz, zlen_first_n in Hi by (rewrite zlen_mark_all; lia).
    assert (Hget : forall v, ab_n_addrs w <= zlen v ->
      get (PTR_MASK <$> first_n (ab_n_addrs w) v) i = PTR_MASK (get v i)).
    { intros v Hv. unfold get. apply list_lookup_total_correct. rewrite list_lookup_fmap. unfold first_n.
      rewrite lookup_take_lt by lia. pose proof (get_lookup v i) as Hg. unfold get in Hg. by rewrite Hg by lia. }
    rewrite !Hget by (rewrite ?zlen_mark_all; lia). by apply node_mark_all.
  - intros x. apply pool_entries. by apply mark_all_wf.
Qed.

(** * Giving the buffers back *)

(** The buffers [dl], and no others, are put in front of those that wait to be
    filled. *)
Record only_reclaimers (s s' : buffers_t) (dl : list Z) : Prop := {
  or_heads : g_first_retiree_buffer s' = g_first_retiree_buffer s /\
    g_last_retiree_buffer s' = g_last_retiree_buffer s /\ g_default_capacity s' = g_default_capacity s /\
    g_available_aggregates s' = g_available_aggregates s /\ g_dead_references s' = g_dead_references s /\
    blocks s' = blocks s;
  or_frame : forall q, (q ∉ dl) -> store s' !! q = store s !! q;
  or_released : forall q d, q ∈ dl -> store s !! q = Some d -> exists v, store s' !! q = Some (with_next v d);
  or_chain : forall r, bchain (store s) (g_reclaimer_list s) r -> (forall q, q ∈ r -> q ∉ dl) ->
    bchain (store s') (g_reclaimer_list s') (rev dl ++ r) }.

Lemma only_reclaimers_nil s : only_reclaimers s s [].
Proof. split; [by split_and! | done | intros q d Hq; by apply not_elem_of_nil in Hq | done]. Qed.

Lemma only_reclaimers_snoc s t l x d : only_reclaimers s t l -> (x ∉ l) -> x <> 0 -> store s !! x = Some d ->
  only_reclaimers s (set_reclaimer_list (set_store t (<[x := with_next (g_reclaimer_list t) d]> (store t))) x) (l ++ [x]).
Proof.
  intros [Hh Hfr Hrel Hch] Hx Hx0 Hd. split; cbn.
  - done.
  - intros q [Hq1 Hq2]%not_elem_of_app. rewrite lookup_insert_ne; [by apply Hfr |]. intros ->. apply Hq2. left.
  - intros q e Hq He. destruct (decide (q = x)) as [-> | Hne].
    + rewrite lookup_insert_eq. exists (g_reclaimer_list t). by rewrite Hd in He; injection He as <-.
    + rewrite lookup_insert_ne by done. apply Hrel; [| done].
      by apply elem_of_app in Hq as [| ->%list_elem_of_singleton].
  - intros r Hr Hdis. rewrite rev_app_distr. cbn. split; [done |]. split; [done |].
    eexists. split; [apply lookup_insert_eq |]. cbn. eapply lchain_frame.
    + apply Hch; [done |]. intros q Hq. by apply Hdis, not_elem_of_app in Hq as [? _].
    + intros q Hq. rewrite lookup_insert_ne; [done |]. intros <-. apply elem_of_app in Hq as [Hq | Hq].
      * by rewrite <- Permutation_rev in Hq.
      * apply (Hdis x Hq), elem_of_app. right. left.
Qed.

Lemma release_reclaimer_wp s ab d (Q : buffers_t -> Prop) :
  ab <> 0 -> store s !! ab = Some d -> ab_is_aggregate d = 0 -> ab_capacity d = g_default_capacity s ->
  ab <> g_first_retiree_buffer s -> ab <> g_last_retiree_buffer s ->
  Q (set_reclaimer_list (set_store s (<[ab := with_next (g_reclaimer_list s) d]> (store s))) ab) -> wp (forkscan_release_buffer ab s) Q.
Proof.
  intros Hab Hd Hflag Hcap Hf Hl HQ. unfold forkscan_release_buffer.
  wp_step. wp_step; [by apply negb_true_iff, Z.eqb_neq |].
  wp_step. wp_step; [by apply negb_true_iff, Z.eqb_neq |].
  wp_step. eapply wp_buf_load; [done.. |]. rewrite Hflag. cbn [Z.eqb].
  wp_step. wp_step; [by apply Z.eqb_eq |]. wp_step. by eapply wp_buf_modify; [done.. |]; wp_step.
Qed.

Lemma release_all_wp s p dl :
  bchain (store s) p dl -> NoDup dl ->
  (forall q d, q ∈ dl -> store s !! q = Some d ->
     ab_is_aggregate d = 0 /\ ab_capacity d = g_default_capacity s) ->
  (forall q, q ∈ dl -> q <> g_first_retiree_buffer s /\ q <> g_last_retiree_buffer s) ->
  wp (release_all p s) (fun s' => only_reclaimers s s' dl).
Proof.
  intros Hch Hnd Hok Hne. pose proof (lchain_size _ _ _ _ Hch Hnd) as Hsz. unfold release_all.
  apply (wp_loop_rel (fun k '(q, t) => exists l1 l2, dl = l1 ++ l2 /\ length l2 = k /\
      bchain (store s) q l2 /\ only_reclaimers s t l1) (length dl)).
  - exists [], dl. split_and!; try done. apply only_reclaimers_nil.
  - lia.
  - intros k [q t] (l1 & l2 & -> & Hk & Hc2 & Ht). unfold release_step. destruct l2 as [|x l2].
    { cbn in Hc2. subst q. cbn [Z.eqb]. wp_step. by rewrite app_nil_r. }
    destruct Hc2 as (-> & Hx & d & Hd & Hc2). apply Z.eqb_neq in Hx as Hx'. rewrite Hx'.
    assert (Hx1 : x ∉ l1).
    { apply NoDup_app in Hnd as (_ & Hdis & _). intros Hin. apply (Hdis x Hin). left. }
    destruct (or_heads _ _ _ Ht) as (E1 & E2 & E3 & _). destruct (Hok x d (elem_of_mid l1 x l2) Hd) as [Hflag Hcap].
    destruct (Hne x (elem_of_mid l1 x l2)) as [N1 N2].
    assert (Hdt : store t !! x = Some d) by (by rewrite (or_frame _ _ _ Ht)).
    wp_step. eapply wp_buf_load; [done.. |]. wp_step.
    apply (release_reclaimer_wp t x d); [done | done | done | congruence.. |].
    wp_step. exists (length l2). split; [cbn in Hk; lia |].
    exists (l1 ++ [x]), l2. split; [by rewrite <- app_assoc |]. do 2 (split; [done |]).
    by apply only_reclaimers_snoc.
Qed.

(** * The iteration *)

Definition maybe (p : Z) : list Z := if p =? 0 then [] else [p].

Lemma elem_of_maybe p q : q ∈ maybe p <-> q = p /\ p <> 0.
Proof.
  unfold maybe. destruct (Z.eqb_spec p 0) as [-> | H].
  - split; [intros Hq; by apply not_elem_of_nil in Hq | by intros []].
  - rewrite list_elem_of_singleton. tauto.
Qed.

(** The nodes an iteration has to deal with. *)
Definition nodes_of (s : buffers_t) (old : Z) (dl : list Z) : list Z :=
  content_at (store s) old ++ contents (store s) dl.

(** Where an iteration begins: the buffers [dl] handed in, the aggregate
    [old] of uncollected nodes and the table [pd] of dead references ([0] if
    there is none yet), the retirees [k] and the aggregates [l] that wait,
    all of them apart from each other and from the blocks to come. *)
Record collect_ready (s : buffers_t) (old p pd : Z) (dl k l : list Z) : Prop := {
  cr_chain : bchain (store s) p dl;
  cr_some : (dl <> []) /\ zlen dl <= 2 ^ 20;
  cr_bufs : forall q d, q ∈ dl -> store s !! q = Some d ->
    filled d /\ ab_is_aggregate d = 0 /\ ab_capacity d = g_default_capacity s;
  cr_retirees : retirees s k;
  cr_kbufs : forall q e, q ∈ k -> store s !! q = Some e -> 0 <= ab_n_addrs e <= zlen (ab_addrs e);
  cr_waiting : waiting s l;
  cr_old : old <> 0 -> exists o, store s !! old = Some o /\ aggregate_ok o /\ 0 <= ab_n_addrs o <= ab_capacity o;
  cr_pd : g_dead_references s = pd;
  cr_default : 0 < g_default_capacity s <= 2 ^ 30;
  cr_dead : pd <> 0 -> exists d, store s !! pd = Some d /\
    zlen (ab_addrs d) = g_default_capacity s /\ ab_capacity d = g_default_capacity s;
  cr_apart : NoDup (dl ++ k ++ l ++ maybe old ++ maybe pd ++ blocks s);
  cr_blocks : (3 <= length (blocks s))%nat /\ (0 ∉ blocks s);
  cr_roomy : roomy s (zlen (nodes_of s old dl)) (2 ^ 30);
  cr_nodes : 0 < zlen (nodes_of s old dl) <= 2 ^ 30 - 512 /\ NoDup (nodes_of s old dl) /\
    (forall x, x ∈ nodes_of s old dl -> size_ok x /\ 4 <= x /\ aligned4 x);
  cr_dead_nodes : NoDup (dead_of (store s) k) /\ forall x, x ∈ dead_of (store s) k -> 0 < x }.

Lemma retiree_ends s k q : retirees s k -> (q ∉ k) -> q <> 0 ->
  q <> g_first_retiree_buffer s /\ q <> g_last_retiree_buffer s.
Proof.
  intros [Hch _ Hlast] Hq H0. rewrite Hlast, (lchain_head _ _ _ _ Hch). split.
  - destruct k as [|x k]; [done |]. intros ->. apply Hq. left.
  - destruct (list_snoc_case k) as [-> | (x & k0 & ->)]; [done |]. rewrite end_of_snoc.
    intros ->. apply Hq, elem_of_app. right. left.
Qed.

Lemma same_heads_frame s s' k : retirees s k -> same_heads s s' ->
  (forall q, q ∈ k -> store s' !! q = store s !! q) -> retirees s' k.
Proof. intros Hr Hh Hst. apply (retirees_frame s); [done | done |]. intros q Hq. by rewrite Hst. Qed.

(** What holds of the separate parts, one at a time. *)
Lemma apart_parts (dl k l os ps bs : list Z) q : NoDup (dl ++ k ++ l ++ os ++ ps ++ bs) ->
  (q ∈ dl -> (q ∉ k) /\ (q ∉ l) /\ (q ∉ os) /\ (q ∉ ps) /\ (q ∉ bs)) /\
  (q ∈ k -> (q ∉ l) /\ (q ∉ os) /\ (q ∉ ps) /\ (q ∉ bs)) /\
  (q ∈ l -> (q ∉ os) /\ (q ∉ ps) /\ (q ∉ bs)) /\
  (q ∈ os -> (q ∉ ps) /\ (q ∉ bs)) /\ (q ∈ ps -> (q ∉ bs)).
Proof.
  intros (_ & D1 & (_ & D2 & (_ & D3 & (_ & D4 & (_ & D5 & _)%NoDup_app)%NoDup_app)%NoDup_app)%NoDup_app)%NoDup_app.
  specialize (D1 q). specialize (D2 q). specialize (D3 q). specialize (D4 q). specialize (D5 q).
  rewrite !not_elem_of_app in *. tauto.
Qed.

Lemma collect_gather s old p pd dl k l b bs :
  collect_ready s old p pd dl k l -> blocks s = b :: bs -> gather_ready s old p dl l b.
Proof.
  intros C Eb. pose proof (fun q => apart_parts _ _ _ _ _ _ q (cr_apart _ _ _ _ _ _ _ C)) as A.
  assert (Hb : b ∈ blocks s) by (rewrite Eb; left).
  assert (Hb0 : b <> 0) by (intros ->; by apply (cr_blocks _ _ _ _ _ _ _ C)).
  destruct (cr_nodes _ _ _ _ _ _ _ C) as (Ht & _ & _). split.
  - apply C.
  - pose proof (cr_apart _ _ _ _ _ _ _ C) as H. by apply NoDup_app in H as (? & _ & _).
  - apply C.
  - intros q d Hq Hd. by apply (cr_bufs _ _ _ _ _ _ _ C q).
  - apply C.
  - split; [done |]. split; [| by exists bs]. intros Hl. specialize (A b). tauto.
  - intros q Hq. destruct (proj1 (A q) Hq) as (H1 & H2 & H3 & H4 & H5).
    split; [intros ->; contradiction |]. split; [done |]. intros ->. apply H3, elem_of_maybe. split; [done |].
    by apply (lchain_some _ _ _ _ old (cr_chain _ _ _ _ _ _ _ C) Hq).
  - destruct (decide (old = 0)) as [-> | H0]; [by left | right]. split; [by apply (cr_old _ _ _ _ _ _ _ C) |].
    assert (Ho : old ∈ maybe old) by (by apply elem_of_maybe).
    specialize (A old). split; [intros ->; tauto |]. split; [tauto |].
    apply (retiree_ends _ k); [apply C | tauto | done].
  - unfold nodes_of, INT_MAX in *. lia.
Qed.

(** The working data [w] at [wd] are gathered; the rest is where it was. *)
Record staged (s : buffers_t) (wd p : Z) (dl k l xs : list Z) (w : addr_buffer_t) : Prop := {
  sg_data : store s !! wd = Some w /\ wd <> 0;
  sg_retirees : retirees s k;
  sg_waiting : waiting s l;
  sg_chain : bchain (store s) p dl;
  sg_bufs : forall q d, q ∈ dl -> store s !! q = Some d -> ab_is_aggregate d = 0 /\ ab_capacity d = g_default_capacity s;
  sg_apart : NoDup (wd :: dl ++ k ++ xs ++ blocks s) /\
    forall q, q ∈ l -> (q ∉ wd :: dl ++ k ++ xs ++ blocks s) }.

(** What the gathering leaves alone: the working data are the old aggregate,
    one that waited, or a new block. *)
Record gather_frame (s : buffers_t) (old : Z) (l : list Z) (b wd : Z) (l1 : list Z) (s1 : buffers_t) : Prop := {
  gf_heads : same_heads s s1;
  gf_frame : forall q, (q ∉ wd :: old :: l) -> store s1 !! q = store s !! q;
  gf_data : wd = old \/ wd = b \/ (wd ∈ l);
  gf_waiting : forall q, q ∈ l1 -> q = old \/ (q ∈ l);
  gf_block : block_taken s b wd s1;
  gf_sizes : forall q d, store s1 !! q = Some d -> ab_capacity d <= 2 ^ 30 }.

Lemma collected_staged s old p pd dl k l b bs wd s1 :
  collect_ready s old p pd dl k l -> blocks s = b :: bs ->
  collected s old l b wd (nodes_of s old dl) (zlen (nodes_of s old dl)) s1 ->
  exists w l1, staged s1 wd p dl k l1 (maybe pd) w /\ collecting (ab_capacity w) w (nodes_of s old dl) /\
    ab_capacity w <= 2 ^ 30 /\ gather_frame s old l b wd l1 s1 /\
    (forall q, q ∈ dl ++ k ++ maybe pd -> store s1 !! q = store s !! q).
Proof.
  intros C Eb (w & c & l1 & Hw & Hcol & Hc & Hwd0 & Hwd & Hh & Hfr & Hwt & Hnin & Hsub & Htk & Hmax).
  pose proof (cr_apart _ _ _ _ _ _ _ C) as Hnd. pose proof (fun q => apart_parts _ _ _ _ _ _ q Hnd) as A.
  assert (Hb : b ∈ blocks s) by (rewrite Eb; left).
  assert (Hold : forall q, q <> 0 -> q = old -> q ∈ maybe old) by (intros q Hq ->; by apply elem_of_maybe).
  assert (Hkeep : forall q, q ∈ dl ++ k ++ maybe pd -> q <> 0 /\ (q ∉ wd :: old :: l)).
  { intros q Hq. assert (q <> 0 /\ (q ∉ l) /\ (q ∉ maybe old) /\ (q ∉ blocks s)) as (H0 & H1 & H2 & H3).
    { apply elem_of_app in Hq as [Hq | [Hq | Hq]%elem_of_app].
      - split; [by apply (lchain_some _ _ _ _ q (cr_chain _ _ _ _ _ _ _ C)) |]. specialize (A q). tauto.
      - split; [by apply (lchain_some _ _ _ _ q (rt_chain _ _ (cr_retirees _ _ _ _ _ _ _ C))) |]. specialize (A q). tauto.
      - split; [by apply elem_of_maybe in Hq as [-> ?] |]. specialize (A q). tauto. }
    split; [done |]. assert (q <> old) by (intros E; by apply H2, Hold).
    apply not_elem_of_cons. split; [| by apply not_elem_of_cons].
    intros ->. destruct Hwd as [? | [-> | ?]]; done. }
  assert (Hst : forall q, q ∈ dl ++ k ++ maybe pd -> store s1 !! q = store s !! q) by (intros q Hq; by apply Hfr, Hkeep).
  assert (Hbl : blocks s1 = blocks s \/ blocks s1 = bs) by (destruct Htk as [[? _] | [? _]]; [by left | right; congruence]).
  pose proof Hcol as [Hagg Hcap Hcar]. rewrite <- Hcap in *.
  pose proof (Hmax _ (cr_roomy _ _ _ _ _ _ _ C)) as (_ & _ & Hle).
  exists w, l1. split; [| split_and!; try done; by apply (Hle wd)]. split.
  - done.
  - apply (same_heads_frame s); [apply C | done |]. intros q Hq. apply Hst, elem_of_app. right. apply elem_of_app. by left.
  - done.
  - eapply lchain_frame; [apply C |]. intros q Hq. rewrite Hst; [done |]. apply elem_of_app. by left.
  - intros q d Hq Hd. rewrite Hst in Hd by (apply elem_of_app; by left).
    destruct (cr_bufs _ _ _ _ _ _ _ C q d Hq Hd) as (_ & H1 & H2). destruct Hh as (_ & _ & -> & _). done.
  - assert (Hsubb : sublist (blocks s1) (blocks s)).
    { destruct Hbl as [-> | ->]; [done |]. rewrite Eb. by constructor. }
    assert (Hout : forall q, q = old /\ q <> 0 \/ (q ∈ l) -> (q ∉ dl ++ k ++ maybe pd) /\ (q ∉ blocks s)).
    { intros q Hq. split.
      - intros Hin. destruct (Hkeep q Hin) as [_ [_ [Hq1 Hq2]%not_elem_of_cons]%not_elem_of_cons]. tauto.
      - specialize (Hold q). specialize (A q). tauto. }
    split.
    + apply NoDup_cons. split.
      * rewrite !app_assoc, <- (app_assoc dl). intros [Hin | Hin]%elem_of_app.
        -- destruct (Hkeep wd Hin) as [_ H]. apply H. left.
        -- destruct Htk as [[Ebl Hne] | [Ebl ->]].
           ++ rewrite Ebl in Hin. apply (proj2 (Hout wd ltac:(tauto)) Hin).
           ++ rewrite Ebl in Hnd. do 5 apply NoDup_app in Hnd as (_ & _ & Hnd). by apply NoDup_cons in Hnd as [? _].
      * eapply sublist_NoDup; [exact Hnd |]. do 2 (apply sublist_app; [done |]).
        do 2 apply sublist_inserts_l. by apply sublist_app.
    + intros q Hq. assert (Hq0 : q <> 0) by (by apply (lchain_some _ _ _ _ q (wt_chain _ _ Hwt))).
      destruct (Hout q) as [H1 H2]; [destruct (Hsub q Hq); tauto |].
      apply not_elem_of_cons. split; [by intros -> |]. rewrite !app_assoc, <- (app_assoc dl).
      apply not_elem_of_app. split; [done |]. intros Hin. apply H2.
      destruct Hbl as [<- | E1]; [done |]. rewrite Eb. right. by rewrite <- E1.
Qed.

Lemma staged_frame s s' wd p dl k l xs ys w :
  staged s wd p dl k l xs w ->
  g_first_retiree_buffer s' = g_first_retiree_buffer s -> g_last_retiree_buffer s' = g_last_retiree_buffer s ->
  g_available_aggregates s' = g_available_aggregates s -> g_default_capacity s' = g_default_capacity s ->
  (forall q, (q ∉ ys) -> store s' !! q = store s !! q) ->
  (forall q, q ∈ ys -> q ∈ xs \/ (q ∈ blocks s)) -> xs ++ blocks s = ys ++ blocks s' ->
  staged s' wd p dl k l ys w.
Proof.
  intros [[Hw Hwd0] Hr Hl Hch Hb [Hnd Hdl]] E1 E2 E3 E4 Hst Hys Eapp.
  assert (Hin : forall q, q ∈ wd :: dl ++ k \/ (q ∈ l) -> (q ∉ ys)).
  { intros q Hq Hy. assert (Hq2 : q ∈ xs ++ blocks s) by (apply elem_of_app; by apply Hys).
    destruct Hq as [Hq | Hq].
    - rewrite app_assoc, app_comm_cons in Hnd. apply NoDup_app in Hnd as (_ & D & _). by apply (D q Hq).
    - apply (Hdl q Hq). right. rewrite app_assoc. apply elem_of_app. by right. }
  split.
  - split; [| done]. rewrite Hst; [done |]. apply Hin. left. left.
  - destruct Hr as [Hc Hn Hlast]. split; [| done | congruence]. rewrite E1. eapply lchain_frame; [exact Hc |].
    intros q Hq. rewrite Hst; [done |]. apply Hin. left. right. apply elem_of_app. by right.
  - apply (waiting_frame s); [done | done |]. intros q Hq. apply Hst, Hin. by right.
  - eapply lchain_frame; [exact Hch |]. intros q Hq. rewrite Hst; [done |]. apply Hin. left. right.
    apply elem_of_app. by left.
  - intros q d Hq Hd. rewrite E4. apply (Hb q d Hq). rewrite <- Hst; [done |]. apply Hin. left. right.
    apply elem_of_app. by left.
  - by rewrite <- Eapp.
Qed.

(** The dead references are at [p2], a block of their own. *)
Lemma staged_dead s wd p dl k l pd c w :
  staged s wd p dl k l (maybe pd) w -> g_dead_references s = pd -> g_default_capacity s = c -> 0 < c ->
  (blocks s <> []) -> (0 ∉ blocks s) ->
  (pd <> 0 -> exists d, store s !! pd = Some d /\ zlen (ab_addrs d) = c /\ ab_capacity d = c) ->
  (forall q e, q ∈ k -> store s !! q = Some e -> 0 <= ab_n_addrs e <= zlen (ab_addrs e)) ->
  wp (forkscan_buffer_get_dead_references s) (fun '(p2, s2) => p2 <> 0 /\
    staged s2 wd p dl k l [p2] w /\
    (exists d, store s2 !! p2 = Some d /\ table c (take (Z.to_nat c) (dead_of (store s) k)) d) /\
    dead_frame s p2 s2 /\ maybe pd ++ blocks s = p2 :: blocks s2).
Proof.
  intros S Epd Ec Hc Hne Hb0 Hpd Hk.
  set (p2 := if pd =? 0 then hd 0 (blocks s) else pd).
  assert (Hapart : (p2 ∉ k) /\ p2 <> 0 /\ maybe pd ++ blocks s = p2 :: (if pd =? 0 then tail (blocks s) else blocks s)).
  { destruct (sg_apart _ _ _ _ _ _ _ _ S) as [Hnd _].
    assert (E : maybe pd ++ blocks s = p2 :: (if pd =? 0 then tail (blocks s) else blocks s)).
    { unfold p2, maybe. destruct (Z.eqb_spec pd 0); [| done]. by destruct (blocks s). }
    split; [| split; [| done]].
    - intros Hin. rewrite E, app_comm_cons, app_assoc in Hnd. apply NoDup_app in Hnd as (_ & D & _).
      apply (D p2); [| left]. right. apply elem_of_app. by right.
    - unfold p2. destruct (Z.eqb_spec pd 0); [| done]. destruct (blocks s); [done |]. cbn. intros ->. apply Hb0. left. }
  destruct Hapart as (Hpk & Hp0 & Eapp).
  eapply wp_mono; [apply (dead_references_wp s k p2 c); [apply S | | exact Hk] |].
  - split; [done |]. split; [done |]. split; [done |]. unfold p2. destruct (Z.eqb_spec pd 0) as [E0 | E0].
    + left. split; [congruence |]. split; [done |]. destruct (blocks s) as [|x bs]; [done |]. by exists bs.
    + right. split; [done |]. by apply Hpd.
  - intros [ret s2] (-> & Hdf & Hd). pose proof Hdf as (Hst & E1 & E2 & E3 & E4 & _ & _ & Hbl).
    assert (Ebl : maybe pd ++ blocks s = [p2] ++ blocks s2).
    { rewrite Eapp. cbn. f_equal. unfold p2 in *. destruct (Z.eqb_spec pd 0) as [E0 | E0];
        destruct Hbl as [[Hg Hbl] | [Hg Hbl]]; try congruence. by rewrite Hbl. }
    split; [done |]. split; [| by split_and!].
    eapply (staged_frame s); [exact S | done | done | done | done | | | exact Ebl].
    + intros q Hq. apply Hst. intros ->. apply Hq. left.
    + intros q Hq. assert (Hq' : q ∈ [p2] ++ blocks s2) by (apply elem_of_app; by left).
      rewrite <- Ebl in Hq'. by apply elem_of_app in Hq'.
Qed.

Lemma staged_write s wd p dl k l p2 w w' d' :
  staged s wd p dl k l [p2] w ->
  let s' := set_store s (<[p2 := d']> (<[wd := w']> (store s))) in staged s' wd p dl k l [p2] w'.
Proof.
  intros [[Hw Hwd0] Hr Hl Hch Hb [Hnd Hdl]] s'.
  assert (Hst : forall q, q ∈ dl ++ k \/ (q ∈ l) -> store s' !! q = store s !! q).
  { intros q Hq. assert (q <> wd /\ q <> p2) as [H1 H2].
    { destruct Hq as [Hq | Hq].
      - apply NoDup_cons in Hnd as [Hn Hnd]. rewrite app_assoc in Hn, Hnd.
        apply NoDup_app in Hnd as (_ & D & _). specialize (D q Hq). split; [| intros ->; apply D; left].
        intros ->. apply Hn, elem_of_app. by left.
      - specialize (Hdl q Hq). split; intros ->; apply Hdl; [left |]. right. rewrite app_assoc.
        apply elem_of_app. right. left. }
    unfold s'. cbn. by rewrite !lookup_insert_ne. }
  assert (Hne : p2 <> wd).
  { intros ->. apply NoDup_cons in Hnd as [Hn _]. apply Hn. rewrite app_assoc. apply elem_of_app. right. left. }
  split.
  - split; [| done]. unfold s'. cbn. by rewrite lookup_insert_ne, lookup_insert_eq by done.
  - apply (same_heads_frame s); [done | done |]. intros q Hq. apply Hst. left. apply elem_of_app. by right.
  - apply (waiting_frame s); [done | done |]. intros q Hq. apply Hst. by right.
  - eapply lchain_frame; [exact Hch |]. intros q Hq. rewrite Hst; [done |]. left. apply elem_of_app. by left.
  - intros q d Hq Hd. apply (Hb q d Hq). rewrite <- Hst; [done |]. left. apply elem_of_app. by left.
  - done.
Qed.

(** Where [divide] takes over. *)
Lemma released_divide s s' wd p dl k l p2 w b bs :
  staged s wd p dl k l [p2] w -> blocks s = b :: bs -> b <> 0 -> only_reclaimers s s' dl ->
  1 <= ab_capacity w <= INT_MAX - 511 -> 1 <= ab_n_addrs w <= ab_capacity w ->
  zlen (ab_addrs w) = ab_capacity w ->
  divide_ready s' wd w k l b.
Proof.
  intros [[Hw Hwd0] Hr Hl Hch _ [Hnd Hdl]] Eb Hb [(E1 & E2 & E3 & E4 & _ & E5) Hst _ _] Hcap Hn Hz. rewrite Eb in Hnd, Hdl.
  apply NoDup_cons in Hnd as [Hwdn Hnd].
  assert (Hwb : wd <> b).
  { intros ->. apply Hwdn. rewrite !app_assoc. apply elem_of_app. right. left. }
  assert (Hbl : b ∉ l).
  { intros Hbl. apply (Hdl b Hbl). right. rewrite !app_assoc. apply elem_of_app. right. left. }
  assert (Hkl : forall q, q ∈ k -> (q ∉ dl) /\ q <> b /\ (q ∉ l)).
  { intros q Hq. pose proof Hnd as Hnd'. apply NoDup_app in Hnd as (_ & D1 & Hnd). split; [| split].
    - intros Hd. apply (D1 q Hd), elem_of_app. by left.
    - intros ->. apply NoDup_app in Hnd as (_ & D2 & _). apply (D2 b Hq). right. left.
    - intros Hq'. apply (Hdl q Hq'). right. apply elem_of_app. right. apply elem_of_app. by left. }
  split.
  - destruct Hr as [Hc Hn' Hlast]. split; [| done | congruence]. rewrite E1. eapply lchain_frame; [exact Hc |].
    intros q Hq. rewrite Hst; [done |]. by apply Hkl.
  - apply (waiting_frame s); [done | done |]. intros q Hq. apply Hst. intros Hd. apply (Hdl q Hq). right.
    apply elem_of_app. by left.
  - split; [done |]. split; [done |]. exists bs. congruence.
  - intros q [-> | Hq]%elem_of_cons; [split; [done |] | by apply Hkl].
    intros Hq. apply (Hdl wd Hq). left.
  - split; [| done]. intros Hk. apply Hwdn. apply elem_of_app. right. apply elem_of_app. by left.
  - rewrite Hst; [done |]. intros Hd. apply Hwdn, elem_of_app. by left.
  - done.
  - done.
Qed.

Lemma list_fmap_id_aligned (l : list Z) : (forall x, x ∈ l -> size_ok x /\ aligned4 x) -> PTR_MASK <$> l = l.
Proof.
  induction l as [|x l IH]; intros Hl; [done |]. cbn. rewrite IH by (intros y Hy; apply Hl; by right).
  f_equal. apply PTR_MASK_aligned; apply Hl; left.
Qed.

(** ** No node is lost, none is kept twice *)

(** The entries that go to the threads to be freed. *)
Definition garbage (l : list Z) : list Z := filter (fun v => ~ marked v) l.

Lemma marked_mod v : 0 <= v -> marked v <-> v mod 2 = 1.
Proof.
  intros Hv. unfold marked. change 1 with (Z.ones 1) at 1. rewrite Z.land_ones by lia. change (2 ^ 1) with 2.
  pose proof (Z.mod_pos_bound v 2). lia.
Qed.

Lemma divided_perm l : (forall x, x ∈ l -> entry_ok x) ->
  Permutation (survivors l ++ garbage l) (PTR_MASK <$> l).
Proof.
  unfold survivors, garbage. induction l as [|x l IH]; intros Hl; [done |].
  specialize (IH (fun y Hy => Hl y ltac:(by right))). destruct (Hl x ltac:(left)) as (Hs & H4 & Hm).
  rewrite !filter_cons. destruct (decide (marked x)) as [Hx | Hx].
  - rewrite decide_False by (by intros H). cbn. by constructor.
  - rewrite decide_True by done. cbn. rewrite <- Permutation_middle, IH. f_equiv. symmetry.
    apply PTR_MASK_aligned; [done |]. unfold aligned4. unfold size_ok in Hs. rewrite marked_mod in Hx by lia.
    destruct Hm as [? | Hm]; [done |]. exfalso. apply Hx.
    Z.to_euclidean_division_equations. lia.
Qed.

Lemma unmarked_content ab v : 0 <= ab_n_addrs ab <= zlen (ab_addrs ab) ->
  Mark.unmarked ab v <-> v ∈ content ab /\ aligned4 v.
Proof.
  intros Hn. unfold content, Mark.unmarked. rewrite first_n_elem by done. split; [intros (k & ? & ? & ?) | intros ((k & ? & ?) & ?)];
    [split; [by exists k | done] | by exists k].
Qed.

Lemma entry_marked x : entry_ok x -> marked x <-> ~ aligned4 x.
Proof.
  intros (Hs & H4 & Hm). unfold size_ok in Hs. rewrite marked_mod by lia. unfold aligned4.
  split; [intros H1 H2; Z.to_euclidean_division_equations; lia | intros H; destruct Hm; [done |]; Z.to_euclidean_division_equations; lia].
Qed.

Lemma unmarked_garbage ab v : 0 <= ab_n_addrs ab <= zlen (ab_addrs ab) -> (forall x, x ∈ content ab -> entry_ok x) ->
  Mark.unmarked ab v <-> v ∈ garbage (content ab).
Proof.
  intros Hn Hok. rewrite unmarked_content by done. unfold garbage. rewrite list_elem_of_filter. split.
  - intros [Hv Ha]. split; [| done]. intros Hm. by apply (entry_marked v (Hok v Hv)) in Hm.
  - intros [Hm Hv]. split; [done |]. destruct (decide (aligned4 v)) as [| Hna]; [done |].
    exfalso. by apply Hm, entry_marked; [apply Hok |].
Qed.

(** The nodes of [must] are kept, those kept are of [may]. *)
Definition kept (must may : Z -> Prop) (nodes l : list Z) : Prop :=
  (forall v, v ∈ nodes -> must v -> v ∈ survivors l) /\ (forall v, v ∈ survivors l -> may v).

Lemma marks_kept (must may : Z -> Prop) w w' nodes :
  0 <= ab_n_addrs w <= zlen (ab_addrs w) -> 0 <= ab_n_addrs w' <= zlen (ab_addrs w') ->
  Permutation (content w) nodes -> (forall x, x ∈ nodes -> aligned4 x) -> NoDup nodes ->
  (forall x, x ∈ content w' -> entry_ok x) -> Permutation (PTR_MASK <$> content w') nodes ->
  (forall v, must v -> ~ Mark.unmarked w' v) -> (forall v, Mark.unmarked w v -> ~ Mark.unmarked w' v -> may v) ->
  kept must may nodes (content w').
Proof.
  intros Hn Hn' Hp Ha Hnd Hok Hp' Hmust Hmay. pose proof (divided_perm _ Hok) as Hdiv. rewrite Hp' in Hdiv. split.
  - intros v Hv Hm. rewrite <- Hdiv in Hv. apply elem_of_app in Hv as [| Hv]; [done |].
    apply unmarked_garbage in Hv; [| done..]. by destruct (Hmust v Hm).
  - intros v Hv. assert (Hvn : v ∈ nodes) by (rewrite <- Hdiv; apply elem_of_app; by left). apply Hmay.
    + apply unmarked_content; [done |]. split; [by rewrite Hp | by apply Ha].
    + intros Hu. apply unmarked_garbage in Hu; [| done..]. rewrite <- Hdiv in Hnd.
      apply NoDup_app in Hnd as (_ & D & _). by apply (D v).
Qed.

(** * What an iteration does to the buffers *)

(** Where an iteration takes the aggregates it needs from. *)
Definition supply (s : buffers_t) (old pd : Z) (l : list Z) : list Z := l ++ maybe old ++ maybe pd ++ blocks s.

(** Only the retirees' links, the buffers handed in, which can be filled
    again, and the supply change; the working data [wd], the uncollected data
    [u], the aggregates [l'] that wait now, the table of dead references and
    the blocks left are all from the supply, and apart. *)
Record settled (s : buffers_t) (old pd : Z) (dl k l : list Z) (wd u : Z) (l' : list Z) (s' : buffers_t) : Prop := {
  st_default : g_default_capacity s' = g_default_capacity s;
  st_supply : wd :: u :: l' ++ g_dead_references s' :: blocks s' ⊆+ supply s old pd l;
  st_dead : exists d, store s' !! g_dead_references s' = Some d /\
    zlen (ab_addrs d) = g_default_capacity s /\ ab_capacity d = g_default_capacity s;
  st_kept : forall q e, q ∈ k -> store s !! q = Some e -> exists v, store s' !! q = Some (with_next v e);
  st_released : forall q e, q ∈ dl -> store s !! q = Some e -> exists v, store s' !! q = Some (with_next v e);
  st_frame : forall q, q <> 0 -> (q ∉ dl ++ k ++ supply s old pd l) -> store s' !! q = store s !! q;
  st_reclaimers : forall r, bchain (store s) (g_reclaimer_list s) r ->
    (forall q, q ∈ r -> (q ∉ dl ++ k ++ supply s old pd l)) ->
    bchain (store s') (g_reclaimer_list s') (rev dl ++ r);
  st_sizes : forall q d, store s' !! q = Some d -> ab_capacity d <= 2 ^ 30 }.

(** Who is apart from whom while the working data are there. *)
Lemma staged_apart s wd p dl k l p2 w : staged s wd p dl k l [p2] w ->
  NoDup (l ++ wd :: p2 :: blocks s) /\
  forall q, q ∈ dl ++ k -> (q ∉ l ++ wd :: p2 :: blocks s) /\ (q ∈ k -> q ∉ dl).
Proof.
  intros [_ _ [_ Hnl _] _ _ [Hnd Hdl]].
  assert (Hp : wd :: dl ++ k ++ [p2] ++ blocks s ≡ₚ (dl ++ k) ++ wd :: p2 :: blocks s).
  { rewrite <- Permutation_middle. cbn. by rewrite <- !app_assoc. }
  rewrite Hp in Hnd. assert (Hdl' : forall q, q ∈ l -> (q ∉ (dl ++ k) ++ wd :: p2 :: blocks s))
    by (intros q Hq; rewrite <- Hp; by apply Hdl).
  apply NoDup_app in Hnd as (Hndk & D & Hn). split.
  - apply NoDup_app. split; [done |]. split; [| done]. intros q Hq. by apply Hdl', not_elem_of_app in Hq as [_ ?].
  - intros q Hq. split.
    + apply not_elem_of_app. split; [| by apply D]. intros Hl. by apply Hdl', not_elem_of_app in Hl as [? _].
    + intros Hk Hd. apply NoDup_app in Hndk as (_ & D2 & _). by apply (D2 q).
Qed.

(** The parts of an iteration one after the other: [s1] with the working data
    gathered, [s2] with the table of dead references, [s3] after the scan, [s4]
    with the buffers back, [s'] at the end. *)
Section settle.
Context (s : buffers_t) (old p pd : Z) (dl k l : list Z) (b : Z) (bs : list Z).
Context (wd : Z) (w w' : addr_buffer_t) (l1 : list Z) (s1 : buffers_t) (p2 : Z) (d d' : addr_buffer_t) (s2 : buffers_t).
Context (s4 : buffers_t) (b2 : Z) (ys : list Z) (u : Z) (s' : buffers_t).
Let s3 := set_store s2 (<[p2 := d']> (<[wd := w']> (store s2))).
Hypotheses (C : collect_ready s old p pd dl k l) (Eb : blocks s = b :: bs).
Hypotheses (G : gather_frame s old l b wd l1 s1) (Hst : forall q, q ∈ dl ++ k ++ maybe pd -> store s1 !! q = store s !! q).
Hypotheses (Dd : dead_frame s1 p2 s2) (Ebl : maybe pd ++ blocks s1 = p2 :: blocks s2).
Hypotheses (S : staged s2 wd p dl k l1 [p2] w) (Hd : store s2 !! p2 = Some d).
Hypotheses (Hz : zlen (ab_addrs d) = g_default_capacity s) (Hc : ab_capacity d = g_default_capacity s).
Hypotheses (Sw : same_shape w w') (Sd : same_shape d d').
Hypotheses (R : only_reclaimers s3 s4 dl) (Eb2 : blocks s2 = b2 :: ys) (D : divided s4 wd w' k l1 b2 u s').

Lemma settle_blocks : forall q, q ∈ p2 :: blocks s2 -> q ∈ maybe pd ++ blocks s.
Proof using G Ebl.
  rewrite <- Ebl. intros q [Hq | Hq]%elem_of_app; apply elem_of_app; [by left | right].
  destruct (gf_block _ _ _ _ _ _ _ G) as [[<- _] | [-> _]]; [done | by right].
Qed.

(** What was staged is from the supply. *)
Lemma settle_staged : forall q, q ∈ l1 ++ wd :: p2 :: blocks s2 -> q ∈ supply s old pd l.
Proof using C Eb G Ebl S.
  assert (Hold : forall q, q = old -> q <> 0 -> q ∈ supply s old pd l).
  { intros q -> Hq. unfold supply. rewrite !elem_of_app, elem_of_maybe. tauto. }
  intros q [Hq | [-> | Hq%settle_blocks]%elem_of_cons]%elem_of_app.
  - pose proof (wt_chain _ _ (sg_waiting _ _ _ _ _ _ _ _ S)) as Hch.
    destruct (gf_waiting _ _ _ _ _ _ _ G q Hq) as [E | Hl]; [| unfold supply; apply elem_of_app; by left].
    apply Hold; [done |]. by apply (lchain_some _ _ _ _ q Hch Hq).
  - destruct (gf_data _ _ _ _ _ _ _ G) as [E | [E | Hl]].
    + apply Hold; [done | apply (sg_data _ _ _ _ _ _ _ _ S)].
    + rewrite E. unfold supply. rewrite Eb, !elem_of_app. do 3 right. left.
    + unfold supply. apply elem_of_app. by left.
  - unfold supply. do 2 (apply elem_of_app; right). done.
Qed.

(** A buffer that is not in the supply, up to the scan. *)
Lemma settle_outside q : q <> 0 -> (q ∉ supply s old pd l) ->
  (q ∉ l1 ++ wd :: p2 :: blocks s2) /\ store s3 !! q = store s !! q.
Proof using C Eb G Dd Ebl S.
  intros Hq0 Hq. assert (Hn : q ∉ l1 ++ wd :: p2 :: blocks s2) by (intros Hin; by apply Hq, settle_staged).
  split; [done |]. pose proof Hn as [_ [H1 [H2 _]%not_elem_of_cons]%not_elem_of_cons]%not_elem_of_app.
  unfold s3. cbn. rewrite !lookup_insert_ne by done. rewrite (proj1 Dd) by done. apply (gf_frame _ _ _ _ _ _ _ G).
  unfold supply in Hq. rewrite !not_elem_of_app, elem_of_maybe in Hq. rewrite !not_elem_of_cons.
  split; [done |]. split; [| tauto]. intros ->. tauto.
Qed.

(** The retirees and the buffers handed in are not in the supply. *)
Lemma settle_apart q : q ∈ dl ++ k -> q <> 0 /\ (q ∉ supply s old pd l) /\ (q ∈ k -> q ∉ dl).
Proof using C.
  intros Hq. pose proof (apart_parts _ _ _ _ _ _ q (cr_apart _ _ _ _ _ _ _ C)) as A.
  split; [| split].
  - apply elem_of_app in Hq as [Hq | Hq].
    + by apply (lchain_some _ _ _ _ q (cr_chain _ _ _ _ _ _ _ C)).
    + by apply (lchain_some _ _ _ _ q (rt_chain _ _ (cr_retirees _ _ _ _ _ _ _ C))).
  - unfold supply. rewrite !not_elem_of_app. apply elem_of_app in Hq. tauto.
  - tauto.
Qed.

(** The end leaves alone what is not among the working data, the retirees and
    what was there to be taken. *)
Lemma settle_end q : (q ∉ k) -> (q ∉ l1 ++ wd :: p2 :: blocks s2) -> store s' !! q = store s4 !! q.
Proof using Eb2 D.
  intros Hk [Hl1 [H1 [_ H2]%not_elem_of_cons]%not_elem_of_cons]%not_elem_of_app. destruct D as (_ & _ & _ & [_ _ Hfr (_ & Hu & _) _]).
  apply Hfr. rewrite !not_elem_of_cons, not_elem_of_app. split_and!; try done.
  intros ->. destruct Hu as [-> | ?]; [apply H2; rewrite Eb2; left | done].
Qed.

Lemma settle_frames : 
  (forall q e, q ∈ k -> store s !! q = Some e -> exists v, store s' !! q = Some (with_next v e)) /\
  (forall q e, q ∈ dl -> store s !! q = Some e -> exists v, store s' !! q = Some (with_next v e)) /\
  (forall q, q <> 0 -> (q ∉ dl ++ k ++ supply s old pd l) -> store s' !! q = store s !! q).
Proof using All.
  split; [| split].
  - intros q e Hq He. destruct (settle_apart q) as (H0 & Hn & Hdl); [apply elem_of_app; by right |].
    destruct (settle_outside q H0 Hn) as [_ E]. destruct D as (_ & _ & _ & F). apply (df_kept _ _ _ _ _ _ _ _ F q e Hq).
    rewrite (or_frame _ _ _ R), E; [done | by apply Hdl].
  - intros q e Hq He. destruct (settle_apart q) as (H0 & Hn & Hdl); [apply elem_of_app; by left |].
    destruct (settle_outside q H0 Hn) as [Hn' E]. rewrite <- E in He. destruct (or_released _ _ _ R q e Hq He) as [v Hv].
    exists v. rewrite settle_end; [done | | done]. intros Hk. by apply Hdl.
  - intros q H0 [H1 [H2 H3]%not_elem_of_app]%not_elem_of_app. destruct (settle_outside q H0 H3) as [Hn' E].
    by rewrite settle_end, (or_frame _ _ _ R), E.
Qed.

Lemma settle_dead : exists e, store s' !! p2 = Some e /\
  zlen (ab_addrs e) = g_default_capacity s /\ ab_capacity e = g_default_capacity s.
Proof using All.
  exists d'. rewrite (sh_addrs _ _ Sd), (sh_capacity _ _ Sd). split; [| done].
  destruct (staged_apart _ _ _ _ _ _ _ _ S) as [Hnd Hap]. apply NoDup_app in Hnd as (_ & Hdis & Hnd).
  apply NoDup_cons in Hnd as [Hwd [Hp2 _]%NoDup_cons]. destruct D as (_ & _ & _ & [_ _ Hfr (_ & Hu & _) _]).
  assert (Hin : p2 ∈ l1 ++ wd :: p2 :: blocks s2) by (apply elem_of_app; right; right; left).
  assert (Hl1 : p2 ∉ l1) by (intros Hl; apply (Hdis p2 Hl); right; left).
  assert (Hk : p2 ∉ dl ++ k) by (intros Hk; exact (proj1 (Hap p2 Hk) Hin)).
  apply not_elem_of_app in Hk as [Hk1 Hk2]. rewrite Hfr, (or_frame _ _ _ R); [apply lookup_insert_eq | done |].
  rewrite !not_elem_of_cons, not_elem_of_app. split_and!; [| | done..].
  - intros ->. apply Hwd. left.
  - intros ->. destruct Hu as [-> | ?]; [apply Hp2; rewrite Eb2; left | done].
Qed.

Lemma settle_heads : g_default_capacity s' = g_default_capacity s /\ g_dead_references s' = p2 /\ blocks s4 = blocks s2.
Proof using G Dd R D.
  destruct D as (_ & _ & _ & [(F1 & _ & F2) _ _ _ _]). destruct (or_heads _ _ _ R) as (_ & _ & R1 & _ & R2 & R3).
  destruct (gf_heads _ _ _ _ _ _ _ G) as (_ & _ & G1 & _). destruct Dd as (_ & _ & _ & D1 & _ & _ & D2 & _).
  cbn in R1, R2, R3. split_and!; congruence.
Qed.

Lemma settle_supply : exists l', waiting s' l' /\ (u ∉ l') /\
  wd :: u :: l' ++ g_dead_references s' :: blocks s' ⊆+ supply s old pd l.
Proof using C Eb G Dd Ebl S R Eb2 D.
  destruct settle_heads as (_ & Ed & E4). destruct (staged_apart _ _ _ _ _ _ _ _ S) as [Hnd _].
  destruct D as (_ & _ & (e & c & l' & _ & _ & _ & Hw & Hul & _ & Hsub) & [_ _ _ (_ & Hu & Htk) _]).
  exists l'. split; [done |]. split; [done |]. rewrite Ed.
  transitivity (l1 ++ wd :: p2 :: blocks s2); [| by apply NoDup_submseteq; [| apply settle_staged]].
  pose proof (wt_nodup _ _ Hw) as Hndl. destruct Htk as [[Eb' Hne] | [Eb' Eu]].
  - rewrite Eb', E4. transitivity ((u :: l') ++ wd :: p2 :: blocks s2).
    + apply Permutation_submseteq. cbn. rewrite <- !Permutation_middle. apply Permutation_swap.
    + apply submseteq_app; [| done]. apply NoDup_submseteq; [by apply NoDup_cons |].
      intros q [-> | Hq]%elem_of_cons; [by destruct Hu | by apply Hsub].
  - transitivity (l' ++ wd :: p2 :: blocks s2).
    + apply Permutation_submseteq. rewrite <- E4, Eb', Eu, <- !Permutation_middle. f_equiv.
      by rewrite (Permutation_swap b2).
    + apply submseteq_app; [| done]. by apply NoDup_submseteq.
Qed.

Lemma settle_reclaimers r : bchain (store s) (g_reclaimer_list s) r ->
  (forall q, q ∈ r -> (q ∉ dl ++ k ++ supply s old pd l)) ->
  bchain (store s') (g_reclaimer_list s') (rev dl ++ r).
Proof using All.
  intros Hr Hq. assert (E : g_reclaimer_list s3 = g_reclaimer_list s).
  { destruct (gf_heads _ _ _ _ _ _ _ G) as (_ & _ & _ & E & _). destruct Dd as (_ & _ & _ & _ & _ & E' & _).
    change (g_reclaimer_list s2 = g_reclaimer_list s). congruence. }
  assert (Hout : forall q, q ∈ r -> q <> 0 /\ (q ∉ dl) /\ (q ∉ k) /\ (q ∉ supply s old pd l)).
  { intros q Hin. split; [by apply (lchain_some _ _ _ _ q Hr) |]. specialize (Hq q Hin). by rewrite !not_elem_of_app in Hq. }
  assert (Hch : bchain (store s4) (g_reclaimer_list s4) (rev dl ++ r)).
  { apply (or_chain _ _ _ R); [| by intros q Hin; apply Hout]. rewrite E. eapply lchain_frame; [exact Hr |].
    intros q (H0 & _ & _ & Hs)%Hout. by rewrite (proj2 (settle_outside q H0 Hs)). }
  destruct D as (_ & _ & _ & F). destruct (df_heads _ _ _ _ _ _ _ _ F) as (_ & -> & _).
  eapply lchain_frame; [exact Hch |]. intros q Hin. rewrite settle_end; [done | |].
  - apply elem_of_app in Hin as [Hin | Hin]; [| by apply Hout]. rewrite <- Permutation_rev in Hin.
    intros Hk. destruct (settle_apart q) as (_ & _ & H); [apply elem_of_app; by left | by apply H].
  - apply elem_of_app in Hin as [Hin | Hin]; [rewrite <- Permutation_rev in Hin | by apply settle_outside; apply Hout].
    apply settle_outside; apply settle_apart, elem_of_app; by left.
Qed.

Lemma settle_sizes q e : ab_capacity w' <= 2 ^ 30 -> store s' !! q = Some e -> ab_capacity e <= 2 ^ 30.
Proof using All.
  intros Hw He. pose proof (cr_default _ _ _ _ _ _ _ C) as Hdef.
  assert (H3 : forall x f, store s3 !! x = Some f -> ab_capacity f <= 2 ^ 30).
  { intros x f. unfold s3. cbn. rewrite !store_lookup. case_decide.
    - intros [= <-]. rewrite (sh_capacity _ _ Sd). lia.
    - case_decide; [by intros [= <-] |]. rewrite (proj1 Dd) by done. apply (gf_sizes _ _ _ _ _ _ _ G). }
  assert (H4 : roomy s4 (ab_capacity w') (2 ^ 30)).
  { split; [done |]. split; [done |]. intros x f Hf. destruct (decide (x ∈ dl)) as [Hx | Hx].
    - pose proof (sg_chain _ _ _ _ _ _ _ _ S) as Hch. destruct (lchain_some _ _ _ _ x Hch Hx) as (_ & g & Hg).
      destruct (settle_apart x) as (H0 & Hs & _); [apply elem_of_app; by left |].
      destruct (settle_outside x H0 Hs) as [[_ [H1 [H2 _]%not_elem_of_cons]%not_elem_of_cons]%not_elem_of_app _].
      assert (Hg3 : store s3 !! x = Some g) by (unfold s3; cbn; by rewrite !lookup_insert_ne).
      destruct (or_released _ _ _ R x g Hx Hg3) as [v Hv]. rewrite Hv in Hf. injection Hf as <-. apply (H3 x g Hg3).
    - rewrite (or_frame _ _ _ R) in Hf by done. by apply (H3 x). }
  destruct D as (_ & _ & _ & F). destruct (df_roomy _ _ _ _ _ _ _ _ F _ H4) as (_ & _ & H). by apply (H q).
Qed.

Lemma settle_ok : ab_capacity w' <= 2 ^ 30 ->
  exists l', waiting s' l' /\ (u ∉ l') /\ settled s old pd dl k l wd u l' s'.
Proof using All.
  intros Hw. destruct settle_supply as (l' & H1 & H2 & H3). exists l'. do 2 (split; [done |]).
  destruct settle_heads as (E & Ed & _). destruct settle_frames as (F1 & F2 & F3). split; try done.
  - rewrite Ed. apply settle_dead.
  - apply settle_reclaimers.
  - intros q e. by apply settle_sizes.
Qed.
End settle.

(** What an iteration leaves: the working data [wd] are the youngest of the
    retirees, ready to be freed from; the nodes in it that are not marked
    together with the uncollected data [u] are the nodes it began with; [u]
    has the nodes of [must], and none but those of [may]; the buffers are
    [settled]. *)
Record collected_once (must may : Z -> Prop) (s : buffers_t) (old pd : Z) (dl k l : list Z) (u : Z) (s' : buffers_t) : Prop := {
  co_retirees : exists wd w, retirees s' (k ++ [wd]) /\ store s' !! wd = Some w /\
    ab_free_idx w = 0 /\ aggregate_ok w /\ 0 <= ab_n_addrs w <= ab_capacity w /\
    (exists d c, store s' !! u = Some d /\ u <> wd /\ collecting c d (survivors (content w))) /\
    Permutation (survivors (content w) ++ garbage (content w)) (nodes_of s old dl) /\
    (forall x, x ∈ content w -> entry_ok x) /\ kept must may (nodes_of s old dl) (content w) /\
    exists l', waiting s' l' /\ (u ∉ l') /\ settled s old pd dl k l wd u l' s' }.

Lemma content_perm w w' nodes : same_entries w w' -> content w = nodes -> Permutation (content w') nodes.
Proof. intros [En Hp] <-. unfold content. by rewrite En. Qed.

Lemma table_dead c d s k : 0 < c <= 2 ^ 30 -> table c (take (Z.to_nat c) (dead_of s k)) d ->
  NoDup (dead_of s k) -> (forall x, x ∈ dead_of s k -> 0 < x) ->
  dead_table d /\ content d = take (Z.to_nat c) (dead_of s k).
Proof.
  intros Hc [Hn Hp Hr Hcap] Hnd Hpos. set (l := take (Z.to_nat c) (dead_of s k)) in *.
  assert (Hlen : zlen l <= c) by (unfold l, zlen; rewrite length_take; lia).
  assert (Ec : content d = l).
  { unfold content, first_n. rewrite Hn. unfold zlen. by rewrite Nat2Z.id. }
  assert (Hsub : sublist l (dead_of s k)) by apply sublist_take.
  split; [| done]. unfold content in Ec. split.
  - rewrite Hn, Hr. pose proof (zlen_nonneg l). lia.
  - rewrite Ec. by eapply sublist_NoDup.
  - rewrite Ec. intros x Hx. apply Hpos. by eapply elem_of_sublist.
Qed.

Lemma collecting_gathered w nodes : collecting (ab_capacity w) w nodes -> ab_capacity w <= 2 ^ 30 ->
  0 < zlen nodes <= 2 ^ 30 - 512 -> (forall x, x ∈ nodes -> size_ok x /\ 4 <= x /\ aligned4 x) ->
  zlen nodes <= ab_capacity w -> gathered w /\ content w = nodes.
Proof.
  intros [[G1 [G2 G2'] G3 G4 G5] _ [Hn Hf]] Hcap Hz Hnodes Hle.
  assert (Ec : content w = nodes) by (unfold content; by rewrite Hn). split; [| done].
  change PAGE_WORDS with 512 in *. split; change PAGE_WORDS with 512; [lia | lia | |].
  - Z.to_euclidean_division_equations. lia.
  - intros i Hi. apply Hnodes. rewrite <- Ec. unfold content. apply first_n_elem; [lia | by exists i].
Qed.

Lemma aggregate_reshaped a b v n f : aggregate_ok a -> same_shape a b -> aggregate_ok (with_fields b v n 0 f).
Proof. intros [G1 G2 G3 G4 G5] [E1 E2 E3 E4 E5]. split; cbn; rewrite ?E1, ?E2, ?E3, ?E4; done. Qed.

Section iteration.
Context (pre : addr_buffer_t -> addr_buffer_t -> Prop) (must may : Z -> Prop)
  (scan : addr_buffer_t -> addr_buffer_t -> res addr_buffer_t) `{!Scanner pre must may scan}.

(** The scan may be run on the working data [w] with the dead references
    [ds], however they are sorted. *)
Definition may_scan (nodes ds : list Z) : Prop := forall w d,
  pool_wf w -> Permutation (content w) nodes ->
  0 <= ab_n_addrs d <= zlen (ab_addrs d) -> Permutation (content d) ds ->
  increasing (ab_addrs d) (ab_n_addrs d) -> pre w d.

(** From the gathered data on. *)
Lemma from_staged s wd p dl k l p2 w d b bs ds (Q : Z * buffers_t -> Prop) :
  staged s wd p dl k l [p2] w -> blocks s = b :: bs -> b <> 0 -> p2 <> 0 ->
  store s !! p2 = Some d -> dead_table d -> content d = ds ->
  gathered w -> NoDup (content w) -> ab_capacity w <= 2 ^ 30 -> ab_n_addrs w <= ab_capacity w ->
  zlen (ab_addrs w) = ab_capacity w -> may_scan (content w) ds ->
  (forall s4 w' d' u s', Permutation (PTR_MASK <$> content w') (content w) ->
     (forall x, x ∈ content w' -> entry_ok x) -> kept must may (content w) (content w') ->
     ab_n_addrs w' = ab_n_addrs w -> same_shape w w' -> same_shape d d' ->
     only_reclaimers (set_store s (<[p2 := d']> (<[wd := w']> (store s)))) s4 dl ->
     divided s4 wd w' k l b u s' -> Q (u, s')) ->
  wp (let! w := buf_load s wd in
      let! d := buf_load s p2 in
      let! ' (w, d) := prepare w d in
      let! w := scan w d in
      let! s := buf_modify s wd (fun _ => w) in
      let! s := buf_modify s p2 (fun _ => d) in
      let! s := release_all p s in
      divide wd s) Q.
Proof using All.
  intros S Eb Hb Hp2 Hd Hdt Eds Hg Hnd Hcap Hnc Hz Hpre HQ. pose proof (sg_data _ _ _ _ _ _ _ _ S) as [Hw Hwd].
  assert (Hne : p2 <> wd).
  { destruct (sg_apart _ _ _ _ _ _ _ _ S) as [Hn _]. intros ->. apply NoDup_cons in Hn as [Hn _]. apply Hn.
    rewrite app_assoc. apply elem_of_app. right. left. }
  wp_step. eapply wp_buf_load; [done.. |]. wp_step. eapply wp_buf_load; [done.. |]. wp_step.
  eapply wp_mono; [by apply prepare_wp |].
  intros [w1 d1] (Hwf & [En Hp] & Hdt1 & [Edn Hdp] & Hinc & [Efl Ecap Ez Emm Erc] & Hsd). wp_step.
  assert (Hc1 : Permutation (content w1) (content w)) by (unfold content; by rewrite En).
  eapply wp_mono; [apply scanner_marks, Hpre; [done | done | apply Hdt1 | | done] |].
  { rewrite <- Eds. unfold content. by rewrite Edn. }
  intros w2 ([M1 [M0 M2 M3 M6 M7] M4 M5] & Hmust & Hmay). wp_step. eapply wp_buf_modify; [done.. |]. wp_step.
  eapply wp_buf_modify; [done | cbn; by rewrite lookup_insert_ne |].
  pose proof (staged_write s wd p dl k l p2 w w2 d1 S) as S2. cbn zeta in S2. cbn [set_store store].
  set (s2 := set_store s _) in S2. change (set_store (set_store s _) _) with s2.
  assert (Hends : forall q, q ∈ dl -> q <> g_first_retiree_buffer s2 /\ q <> g_last_retiree_buffer s2).
  { intros q Hq. apply (retiree_ends _ k); [apply S2 | |].
    - destruct (sg_apart _ _ _ _ _ _ _ _ S2) as [Hn _]. apply NoDup_cons in Hn as [_ Hn].
      apply NoDup_app in Hn as (_ & D & _). intros Hk. apply (D q Hq), elem_of_app. by left.
    - by apply (lchain_some _ _ _ _ q (sg_chain _ _ _ _ _ _ _ _ S2)). }
  wp_step. eapply wp_mono.
  { apply (release_all_wp s2 p dl); [apply S2 | | apply S2 | exact Hends].
    destruct (sg_apart _ _ _ _ _ _ _ _ S2) as [Hn _]. apply NoDup_cons in Hn as [_ Hn].
    by apply NoDup_app in Hn as (? & _ & _). }
  intros s3 Hs3. pose proof (ga_n _ Hg) as Hgn. unfold INT_MAX in *.
  eapply wp_mono; [apply divide_wp; eapply (released_divide s2 s3 wd p dl k l p2 w2 b bs); try done |].
  - unfold INT_MAX. rewrite M2, Ecap. lia.
  - rewrite M1, M2, En, Ecap. lia.
  - rewrite M3, M2, Ez, Ecap. done.
  - intros [u s'] Hdiv.
    assert (Hperm : Permutation (PTR_MASK <$> content w2) (content w)).
    { rewrite M4, Hc1. apply reflexive_eq. apply list_fmap_id_aligned. intros x Hx.
      destruct (gathered_pos w x Hg Hx) as (? & _ & ?). by split. }
    pose proof (wf_n _ Hwf). pose proof (wf_room _ Hwf).
    eapply HQ; [exact Hperm | exact M5 | | congruence | split; congruence | exact Hsd | exact Hs3 | exact Hdiv].
    apply (marks_kept must may w1 w2); try done; [lia | lia |]. intros x Hx. by destruct (gathered_pos w x Hg Hx) as (_ & _ & ?).
Qed.

Lemma reclaim_wp s old p pd dl k l : collect_ready s old p pd dl k l ->
  may_scan (nodes_of s old dl) (take (Z.to_nat (g_default_capacity s)) (dead_of (store s) k)) ->
  wp (reclaim_iteration scan old p s) (fun '(u, s') => collected_once must may s old pd dl k l u s').
Proof using All.
  intros C Hpre. destruct (cr_blocks _ _ _ _ _ _ _ C) as [Hlen Hb0].
  destruct (blocks s) as [|b [|b1 [|b2 bs]]] eqn:Eb; cbn in Hlen; try lia.
  destruct (cr_nodes _ _ _ _ _ _ _ C) as (Hz & Hnd & Hent). pose proof (cr_default _ _ _ _ _ _ _ C) as Hdef.
  unfold reclaim_iteration. wp_step. eapply wp_mono; [by eapply aggregate_wp, collect_gather |].
  intros [[wd f] s1] [_ Hcol]. fold (nodes_of s old dl) in Hcol.
  pose proof Hcol as (w0 & c0 & l0 & Hw0 & [_ Ec0 _] & [Hnc _] & _).
  destruct (collected_staged s old p pd dl k l b (b1 :: b2 :: bs) wd s1 C Eb Hcol)
    as (w & l1 & S & Hw & Hcap & G & Hst). pose proof G as [(H1 & H2 & H3 & H4 & H5) _ _ _ Htk _].
  assert (w0 = w) as -> by (destruct (sg_data _ _ _ _ _ _ _ _ S) as [E _]; congruence).
  assert (Hk1 : forall q, q ∈ k -> store s1 !! q = store s !! q)
    by (intros q Hq; apply Hst, elem_of_app; right; apply elem_of_app; by left).
  assert (Hdeq : dead_of (store s1) k = dead_of (store s) k) by (by apply dead_of_frame).
  assert (Hb1 : (blocks s1 <> []) /\ (0 ∉ blocks s1) /\ (2 <= length (blocks s1))%nat).
  { assert (Hbl : blocks s1 = b :: b1 :: b2 :: bs \/ blocks s1 = b1 :: b2 :: bs)
      by (destruct Htk as [[E _] | [E _]]; rewrite Eb in E; [by left | right; congruence]).
    destruct Hbl as [-> | ->]; (split; [done |]); (split; [| cbn; lia]); [done |].
    intros H. apply Hb0. by right. }
  destruct Hb1 as (Hb1 & Hb2 & Hb3). cbn beta iota.
  wp_step. eapply wp_mono.
  { apply (staged_dead s1 wd p dl k l1 pd (g_default_capacity s) w); try done; [| lia | |].
    - rewrite H5. apply C.
    - intros Hpd. rewrite Hst; [by apply (cr_dead _ _ _ _ _ _ _ C) |].
      apply elem_of_app. right. apply elem_of_app. right. by apply elem_of_maybe.
    - intros q e Hq He. rewrite Hk1 in He by done. by apply (cr_kbufs _ _ _ _ _ _ _ C q). }
  intros [p2 s2] (Hp2 & S2 & (d & Hd & Ht) & Hdf & Ex). rewrite Hdeq in Ht.
  destruct (cr_dead_nodes _ _ _ _ _ _ _ C) as [Hdn Hdp].
  destruct (table_dead _ _ _ _ Hdef Ht Hdn Hdp) as [Hdt Eds].
  destruct (collecting_gathered w _ Hw Hcap Hz Hent ltac:(lia)) as [Hg Ecw].
  destruct (blocks s2) as [|y ys] eqn:Eb2.
  { exfalso. apply (f_equal length) in Ex. rewrite length_app in Ex. cbn in Ex. lia. }
  assert (Hy : y <> 0).
  { intros ->. assert (Hin : 0 ∈ maybe pd ++ blocks s1) by (rewrite Ex; right; left).
    apply elem_of_app in Hin as [[E0 Hpd]%elem_of_maybe | Hin]; [congruence | done]. }
  pose proof Hw as [Ha _ [En _]].
  eapply (from_staged s2 wd p dl k l1 p2 w d y ys); try done; [by rewrite Ecw | lia | apply (ag_addrs _ Ha) | by rewrite Ecw |].
  intros s4 w' d' u s' Hperm Hok Hkept En' Sw Sd Hor Hdiv.
  assert (Hcap' : ab_capacity w' <= 2 ^ 30) by (by rewrite (sh_capacity _ _ Sw)).
  rewrite <- Eb2 in Ex.
  pose proof (settle_ok s old p pd dl k l b (b1 :: b2 :: bs) wd w w' l1 s1 p2 d d' s2 s4 y ys u s' C Eb G Hst Hdf Ex S2
    Hd (tb_room _ _ _ Ht) (tb_capacity _ _ _ Ht) Sw Sd Hor Eb2 Hdiv Hcap') as Hset.
  destruct Hdiv as (Hr & Hw2 & (e & c & l' & He & Hce & Hu & _) & _).
  split. exists wd, (with_fields w' 0 (ab_n_addrs w') 0 0). split; [done |]. split; [done |]. split; [done |].
  split; [by apply (aggregate_reshaped w w') |]. split; [cbn; rewrite En', (sh_capacity _ _ Sw); lia |].
  split; [by exists e, c |]. split; [| split; [exact Hok | split; [by rewrite <- Ecw | exact Hset]]].
  change (content (with_fields w' 0 (ab_n_addrs w') 0 0)) with (content w').
  rewrite divided_perm by done. by rewrite Hperm, Ecw.
Qed.
End iteration.

(** C2: One iteration of the collector, end to end, for any scan that only sets
    marks: it ends without an error; every node handed in or left over by the
    iteration before is afterwards either an unmarked entry of the youngest
    retiree, to be freed, or one of the uncollected data of the next
    iteration, and not both; nothing else is in either.  Those that the scan
    has to mark are in the latter, and none but those it may mark. *)
Theorem reclaim_iteration_partitions pre must may scan `{!Scanner pre must may scan} s old p pd dl k l :
  collect_ready s old p pd dl k l ->
  may_scan pre (nodes_of s old dl) (take (Z.to_nat (g_default_capacity s)) (dead_of (store s) k)) ->
  exists u s', reclaim_iteration scan old p s = Ok (u, s') /\ collected_once must may s old pd dl k l u s'.
Proof.
  intros C Hpre. pose proof (reclaim_wp pre must may scan s old p pd dl k l C Hpre) as Hw.
  apply wp_iff in Hw as ([u s'] & E & H). by exists u, s'.
Qed.

(** A scan that reaches the nodes [us], whatever the memory. *)
Definition listed_scan (us : list Z) (w d : addr_buffer_t) : res addr_buffer_t := Ok (mark_all us w).

#[export] Instance listed_scanner us : TCEq (forallb (fun v => v mod 4 =? 0) us) true ->
  Scanner (fun w _ => pool_wf w) (fun v => v ∈ us) (fun v => v ∈ us) (listed_scan us).
Proof.
  intros Hus w d W. unfold listed_scan. wp_step. assert (Ha : all_aligned us).
  { apply TCEq_eq in Hus. rewrite forallb_forall in Hus. intros v Hv. apply list_elem_of_In, Hus in Hv.
    unfold aligned4. lia. }
  split; [by apply mark_all_remarked |]. split.
  - intros v Hv Hu. by apply unmarked_mark_all in Hu as [_ ?].
  - intros v Hv Hu. destruct (decide (v ∈ us)); [done |]. destruct Hu. by apply unmarked_mark_all.
Qed.

(** The two buffers of [demo_handed_in], as the threads fill them. *)
Lemma demo_collect : collect_ready demo_handed_in 0 0x10 0 [0x10; 0x20] [] [].
Proof.
  split.
  - apply demo_ready.
  - done.
  - intros q d Hq Hd. apply elem_of_cons in Hq as [-> | ->%list_elem_of_singleton];
      vm_compute in Hd; injection Hd as <-; (split; [vm_compute; intuition congruence | done]).
  - split; [done | constructor | done].
  - intros q d Hq. by apply not_elem_of_nil in Hq.
  - by apply waiting_none.
  - done.
  - done.
  - cbn. lia.
  - done.
  - apply (bool_decide_unpack _). by vm_compute.
  - split; [cbn; lia |]. apply (bool_decide_unpack _). by vm_compute.
  - split; [done |]. split; [by vm_compute |]. intros q d Hd. cbn [demo_handed_in store] in Hd.
    apply lookup_insert_Some in Hd as [[_ <-] | [_ [_ <-]%lookup_singleton_Some]]; by vm_compute.
  - split; [by vm_compute |]. split; [apply (bool_decide_unpack _); by vm_compute |].
    intros x Hx. change (nodes_of demo_handed_in 0 [0x10; 0x20]) with [16; 32; 48] in Hx.
    repeat (apply elem_of_cons in Hx as [-> | Hx]; [by vm_compute |]). by apply not_elem_of_nil in Hx.
  - split; [constructor |]. intros x Hx. by apply not_elem_of_nil in Hx.
Qed.

Lemma reclaim_iteration_partitions_witness :
  exists u s', reclaim_iteration (listed_scan [32]) 0 0x10 demo_handed_in = Ok (u, s') /\
    collected_once (fun v => v ∈ [32]) (fun v => v ∈ [32]) demo_handed_in 0 0 [0x10; 0x20] [] [] u s'.
Proof.
  apply (reclaim_iteration_partitions (fun w _ => pool_wf w) (fun v => v ∈ [32]) (fun v => v ∈ [32]) (listed_scan [32])
    demo_handed_in 0 0x10 0 [0x10; 0x20] [] []); [apply demo_collect |].
  intros w d W _ _ _ _. exact W.
Defined.
