(* ===== verification/Threads.v ===== *)
(** util.c, proc.c: the threads Forkscan knows.

    Each thread has a [thread_data_t].  Those of running threads are in the
    list of proc.c, which the collector walks to stop the threads and to
    gather their pointers; those of threads that have exited wait in a staged
    list until they are joined.  The records come from two pools.  The body of
    a critical section is one operation. *)
From S2P Require Import Prelude AddrBuffer Queue Alloc Pool Buffer Free.

Definition MEMBLOCK_SIZE : Z := PAGESIZE.

Record thread_data_t : Type := mk_td {
  td_next : Z;
  self : Z;
  user_stack_low : Z;
  user_stack_high : Z;
  stack_is_ours : Z;
  is_active : Z;
  ptr_list : queue_t;
  ptr_list_e : Z;              (* the address of the queue's array *)
  wait_time_ms : Z;
  place : place_t;             (* the retiree fields *)
  local_timestamp : Z;
  times_without_update : Z;
  local_block : mem_range_t;
  ref_count : Z }.

Definition zero_td : thread_data_t :=
  mk_td 0 0 0 0 0 0 (mk_queue [] 0 0 0) 0 0 (mk_place 0 0 0) 0 0 (mk_range 0 0) 0.

Definition with_td_next v (d : thread_data_t) :=
  mk_td v (self d) (user_stack_low d) (user_stack_high d) (stack_is_ours d) (is_active d) (ptr_list d)
    (ptr_list_e d) (wait_time_ms d) (place d) (local_timestamp d) (times_without_update d) (local_block d) (ref_count d).
Definition with_td_ref v (d : thread_data_t) :=
  mk_td (td_next d) (self d) (user_stack_low d) (user_stack_high d) (stack_is_ours d) (is_active d) (ptr_list d)
    (ptr_list_e d) (wait_time_ms d) (place d) (local_timestamp d) (times_without_update d) (local_block d) v.
Definition with_td_active v (d : thread_data_t) :=
  mk_td (td_next d) (self d) (user_stack_low d) (user_stack_high d) (stack_is_ours d) v (ptr_list d)
    (ptr_list_e d) (wait_time_ms d) (place d) (local_timestamp d) (times_without_update d) (local_block d) (ref_count d).
Definition with_td_queue q (d : thread_data_t) :=
  mk_td (td_next d) (self d) (user_stack_low d) (user_stack_high d) (stack_is_ours d) (is_active d) q
    (ptr_list_e d) (wait_time_ms d) (place d) (local_timestamp d) (times_without_update d) (local_block d) (ref_count d).
Definition with_td_stack ours low high wait (d : thread_data_t) :=
  mk_td (td_next d) (self d) low high ours (is_active d) (ptr_list d)
    (ptr_list_e d) wait (place d) (local_timestamp d) (times_without_update d) (local_block d) (ref_count d).
Definition with_td_start self high (d : thread_data_t) :=
  mk_td (td_next d) self (user_stack_low d) high (stack_is_ours d) 1 (ptr_list d)
    (ptr_list_e d) (wait_time_ms d) (place d) 0 (times_without_update d) (local_block d) (ref_count d).

Record threads_t : Type := mk_threads {
  tds : gmap Z thread_data_t;
  head : Z;                    (* thread_list *)
  count : Z;
  g_td_staged_to_free : Z;
  threaddata_pool : pool_t;
  ptrlist_pool : pool_t;
  stack_pool : pool_t }.

Definition set_tds (s : threads_t) m :=
  mk_threads m (head s) (count s) (g_td_staged_to_free s) (threaddata_pool s) (ptrlist_pool s) (stack_pool s).
Definition set_list (s : threads_t) h n :=
  mk_threads (tds s) h n (g_td_staged_to_free s) (threaddata_pool s) (ptrlist_pool s) (stack_pool s).
Definition set_staged (s : threads_t) p :=
  mk_threads (tds s) (head s) (count s) p (threaddata_pool s) (ptrlist_pool s) (stack_pool s).
Definition set_td_pools (s : threads_t) a b :=
  mk_threads (tds s) (head s) (count s) (g_td_staged_to_free s) a b (stack_pool s).
Definition set_stack_pool (s : threads_t) c :=
  mk_threads (tds s) (head s) (count s) (g_td_staged_to_free s) (threaddata_pool s) (ptrlist_pool s) c.

Definition td_load (s : threads_t) (p : Z) : res thread_data_t :=
  if p =? 0 then Err NullDeref
  else match tds s !! p with Some d => Ok d | None => Err OutOfBounds end.

Definition td_modify (s : threads_t) (p : Z) (f : thread_data_t -> thread_data_t) : res threads_t :=
  let! d := td_load s p in Ok (set_tds s (<[p := f d]> (tds s))).

Definition td_fuel (s : threads_t) : nat := Datatypes.S (Datatypes.S (size (tds s))).

(** ** Stacks: buffer.c *)

Definition forkscan_buffer_makestack (s : threads_t) : res (Z * Z * threads_t) :=
  let! ' (p, c) := pool_alloc STACKSIZE NSTACKS (stack_pool s) in
  Ok (p, STACKSIZE, set_stack_pool s c).

Definition forkscan_buffer_freestack (p : Z) (s : threads_t) : threads_t :=
  set_stack_pool s (pool_free p (stack_pool s)).

(** ** The records; [n] is [g_forkscan_ptrs_per_thread] *)

(** The other fields are as the last thread left them, or zero. *)
Definition forkscan_util_thread_data_new (n : Z) (s : threads_t) : res (Z * threads_t) :=
  let! ' (td, a) := pool_alloc MEMBLOCK_SIZE 8 (threaddata_pool s) in
  let! ' (local_list, b) := pool_alloc (n * WORD) 8 (ptrlist_pool s) in
  let old := default zero_td (tds s !! td) in
  let d := mk_td (td_next old) (self old) (user_stack_low old) (user_stack_high old) (stack_is_ours old)
    (is_active old) (forkscan_queue_init (zeros n) n) local_list (wait_time_ms old)
    (mk_place 0 (begin_retiree_idx (place old)) (end_retiree_idx (place old)))
    (local_timestamp old) (times_without_update old) (mk_range 0 0) 1 in
  Ok (td, set_tds (set_td_pools s a b) (<[td := d]> (tds s))).

Definition forkscan_util_thread_data_decr_ref (td : Z) (s : threads_t) : res threads_t :=
  let! d := td_load s td in
  let ref := to_int (u32 (ref_count d - 1)) in
  let! s := td_modify s td (with_td_ref ref) in
  if ref =? 0 then
    let! s := td_modify s td (with_td_next (g_td_staged_to_free s)) in
    Ok (set_staged s td)
  else Ok s.

Definition forkscan_util_thread_data_free (td : Z) (s : threads_t) : res threads_t :=
  assert (negb (td =? 0)) ;!
  let! d := td_load s td in
  assert (ref_count d =? 0) ;!
  Ok (set_td_pools s (pool_free td (threaddata_pool s)) (pool_free (ptr_list_e d) (ptrlist_pool s))).

Definition staged_scan (tid : Z) (s : threads_t) (st : Z * Z) : res (flow (Z * Z) (Z * Z)) :=
  let '(td, last) := st in
  let! d := td_load s td in
  if self d =? tid then Ok (Done (td, last)) else
  assert (negb (td_next d =? 0)) ;!
  Ok (Next (td_next d, td)).

Definition forkscan_util_thread_data_cleanup (tid : Z) (s : threads_t) : res threads_t :=
  assert (negb (g_td_staged_to_free s =? 0)) ;!
  let! ' (td, last) := loop (td_fuel s) (staged_scan tid s) (g_td_staged_to_free s, 0) in
  let! d := td_load s td in
  let! s := (if negb (last =? 0) then td_modify s last (with_td_next (td_next d))
             else Ok (set_staged s (td_next d))) in
  if ref_count d >? 0 then Err Fatal else
  let s := (if negb (stack_is_ours d =? 0) then forkscan_buffer_freestack (user_stack_low d) s else s) in
  forkscan_util_thread_data_free td s.

(** ** The list *)

Definition forkscan_util_thread_list_init (s : threads_t) : threads_t :=
  if head s =? 0 then set_list s (head s) 0 else s.

Definition forkscan_util_thread_list_add (td : Z) (s : threads_t) : res threads_t :=
  assert (negb (td =? 0)) ;!
  let! s := td_modify s td (with_td_next (head s)) in
  Ok (set_list s td (u32 (count s + 1))).

Definition remove_walk (td : Z) (s : threads_t) (tmp : Z) : res (flow Z Z) :=
  let! d := td_load s tmp in
  if td_next d =? td then Ok (Done tmp) else
  assert (negb (td_next d =? 0)) ;!
  Ok (Next (td_next d)).

Definition forkscan_util_thread_list_remove (td : Z) (s : threads_t) : res threads_t :=
  assert (negb (td =? 0)) ;!
  assert (negb (head s =? 0)) ;!
  let! d := td_load s td in
  let! s :=
    (if head s =? td then Ok (set_list s (td_next d) (count s))
     else
       let! tmp := loop (td_fuel s) (remove_walk td s) (head s) in
       td_modify s tmp (with_td_next (td_next d))) in
  assert (count s >? 0) ;!
  Ok (set_list s (head s) (u32 (count s - 1))).

Definition find_walk (addr : Z) (st : Z * threads_t) : res (flow (Z * threads_t) (Z * threads_t)) :=
  let '(ret, s) := st in
  if ret =? 0 then Ok (Done (ret, s)) else
  let! d := td_load s ret in
  if (addr >=? user_stack_low d) && (addr <? user_stack_high d) then
    let! s := td_modify s ret (with_td_ref (to_int (u32 (ref_count d + 1)))) in Ok (Done (ret, s))
  else Ok (Next (td_next d, s)).

Definition forkscan_util_thread_list_find (addr : Z) (s : threads_t) : res (Z * threads_t) :=
  loop (td_fuel s) (find_walk addr) (head s, s).

(** ** proc.c *)

Definition forkscan_proc_add_thread_data (td : Z) (s : threads_t) : res threads_t :=
  forkscan_util_thread_list_add td (forkscan_util_thread_list_init s).

Definition forkscan_proc_remove_thread_data (td : Z) (s : threads_t) : res threads_t :=
  forkscan_util_thread_list_remove td s.

(** [FOREACH_IN_THREAD_LIST]: the body [f] over a state. *)
Definition foreach_step {S} (f : Z -> thread_data_t -> S -> res S) (s : threads_t) (st : Z * S)
    : res (flow (Z * S) S) :=
  let '(td, x) := st in
  if td =? 0 then Ok (Done x) else
  let! d := td_load s td in
  let! x := f td d x in
  Ok (Next (td_next d, x)).

Definition foreach_thread {S} (f : Z -> thread_data_t -> S -> res S) (s : threads_t) (x : S) : res S :=
  loop (td_fuel s) (foreach_step f s) (head s, x).

Definition EINVAL : Z := 22.
Definition ESRCH : Z := 3.

(** [kill] is [pthread_kill] for the signal at hand; the threads signalled
    are collected. *)
Definition signal_one (kill : Z -> Z) (except td : Z) (d : thread_data_t) (st : Z * list Z) : res (Z * list Z) :=
  let '(signal_count, sent) := st in
  if negb (td =? except) && negb (is_active d =? 0) then
    let ret := kill (self d) in
    if ret =? EINVAL then Err Fatal
    else if ret =? ESRCH then Ok (signal_count, sent)
    else let! n := int_chk (signal_count + 1) in Ok (n, td :: sent)
  else Ok (signal_count, sent).

Definition forkscan_proc_signal_all_except (kill : Z -> Z) (except : Z) (s : threads_t) : res (Z * list Z) :=
  foreach_thread (signal_one kill except) s (0, []).

(** No thread's record is at [NULL], so nothing is excepted. *)
Definition forkscan_proc_signal (kill : Z -> Z) (s : threads_t) : res (Z * list Z) :=
  foreach_thread (signal_one kill 0) s (0, []).

(** * The invariant: the threads listed and those staged *)

(** The records at [l] are the list of proc.c, those at [sl] the staged ones;
    no record is in both or twice in one, since the two lists share the link. *)
Record threads_inv (l sl : list Z) (s : threads_t) : Prop := {
  th_chain : lchain td_next (tds s) (head s) l;
  th_staged : lchain td_next (tds s) (g_td_staged_to_free s) sl;
  th_nodup : NoDup (l ++ sl);
  th_count : count s = Z.of_nat (length l);
  th_small : Z.of_nat (length l) < 2 ^ 32 }.

(** What an operation on the list leaves of a record: all but the link. *)
Definition relinked (s s' : threads_t) : Prop :=
  (forall q d, tds s !! q = Some d -> exists v, tds s' !! q = Some (with_td_next v d)) /\
  threaddata_pool s' = threaddata_pool s /\ ptrlist_pool s' = ptrlist_pool s /\ stack_pool s' = stack_pool s.

Lemma wp_td_load s p d (Q : thread_data_t -> Prop) : p <> 0 -> tds s !! p = Some d -> Q d -> wp (td_load s p) Q.
Proof. intros Hp%Z.eqb_neq Hd HQ. unfold td_load. by rewrite Hp, Hd. Qed.

Lemma wp_td_modify s p f d (Q : threads_t -> Prop) :
  p <> 0 -> tds s !! p = Some d -> Q (set_tds s (<[p := f d]> (tds s))) -> wp (td_modify s p f) Q.
Proof. intros Hp Hd HQ. unfold td_modify. wp_step. by eapply wp_td_load. Qed.

Lemma relinked_one s p v d h n st : tds s !! p = Some d ->
  relinked s (set_staged (set_list (set_tds s (<[p := with_td_next v d]> (tds s))) h n) st).
Proof.
  intros Hd. split; [| done]. intros q e He. cbn. destruct (decide (p = q)) as [-> | Hne].
  - rewrite lookup_insert_eq. exists v. rewrite Hd in He. by injection He as ->.
  - rewrite lookup_insert_ne by done. exists (td_next e). rewrite He. by destruct e.
Qed.

Lemma relinked_refl s h n : relinked s (set_list s h n).
Proof. split; [| done]. intros q d Hd. exists (td_next d). cbn. rewrite Hd. by destruct d. Qed.

(** A store of a link, or of anything else, to a record of neither list. *)
Lemma chain_other N p l td d :
  lchain td_next N p l -> (td ∉ l) -> lchain td_next (<[td := d]> N) p l.
Proof. intros Hc Htd. eapply lchain_frame; [exact Hc |]. intros q Hq. by rewrite lookup_insert_ne by (by intros ->). Qed.

(** Or of a record's fields but its link. *)
Lemma chain_same_link (N : gmap Z thread_data_t) p l td d d' :
  lchain td_next N p l -> N !! td = Some d -> td_next d' = td_next d -> lchain td_next (<[td := d']> N) p l.
Proof.
  intros Hc Hd E. eapply lchain_frame; [exact Hc |]. intros q Hq. destruct (decide (td = q)) as [-> |].
  - rewrite lookup_insert_eq, Hd. cbn. by rewrite E.
  - by rewrite lookup_insert_ne.
Qed.

Lemma inv_same_link l sl s td d d' : threads_inv l sl s -> tds s !! td = Some d -> td_next d' = td_next d ->
  threads_inv l sl (set_tds s (<[td := d']> (tds s))).
Proof. intros [H1 H2 H3 H4 H5] Hd E. by split; cbn; [eapply chain_same_link | eapply chain_same_link | | |]. Qed.

(** ** Adding and removing *)

Lemma list_add_wp l sl s td d :
  threads_inv l sl s -> td <> 0 -> (td ∉ l ++ sl) -> tds s !! td = Some d -> Z.of_nat (length l) < 2 ^ 32 - 1 ->
  wp (forkscan_util_thread_list_add td s) (fun s' => threads_inv (td :: l) sl s' /\ relinked s s').
Proof.
  intros [Hc Hst Hnd Hn Hs] Htd Hnew Hd Hlen. apply Z.eqb_neq in Htd as Htd'.
  unfold forkscan_util_thread_list_add. rewrite Htd'. wp_step. wp_step; [done |]. wp_step.
  eapply wp_td_modify; [done.. |]. wp_step. apply not_elem_of_app in Hnew as Hnew'. destruct Hnew' as [N1 N2].
  split; [split; cbn | by apply relinked_one].
  - split; [done |]. split; [done |]. exists (with_td_next (head s) d). rewrite lookup_insert_eq.
    split; [done |]. by apply chain_other.
  - by apply chain_other.
  - by apply NoDup_cons.
  - rewrite Hn, u32_small by lia. lia.
  - lia.
Qed.

Lemma remove_walk_ok s td l1 y l2 fuel p :
  lchain td_next (tds s) p (l1 ++ y :: td :: l2) -> NoDup (l1 ++ y :: td :: l2) ->
  (length (l1 ++ y :: td :: l2) < fuel)%nat -> wp (loop fuel (remove_walk td s) p) (fun tmp => tmp = y).
Proof.
  revert p fuel. induction l1 as [|x l1 IH]; intros p fuel Hc Hnd Hf; (destruct fuel as [|fuel]; [cbn in Hf; lia |]);
    rewrite loop_S; destruct Hc as (-> & Hy0 & dy & Hdy & Hc); wp_step; unfold remove_walk; wp_step;
    (eapply wp_td_load; [done.. |]).
  - destruct Hc as (-> & _). rewrite Z.eqb_refl. by wp_step.
  - apply NoDup_cons in Hnd as [_ Hnd]. apply lchain_head in Hc as Hh.
    assert (Hne : td_next dy <> td).
    { rewrite Hh. destruct l1 as [|x' l1]; cbn in Hnd |- *.
      - apply NoDup_cons in Hnd as [H _]. intros ->. apply H. left.
      - apply NoDup_cons in Hnd as [H _]. intros ->. apply H, elem_of_app. right. right. left. }
    assert (Hn0 : td_next dy <> 0).
    { rewrite Hh. by destruct l1; destruct Hc as (_ & ? & _). }
    apply Z.eqb_neq in Hne as ->, Hn0 as ->. cbn [negb]. wp_step. wp_step; [done |]. wp_step.
    apply IH; [done | done | cbn in Hf; lia].
Qed.

Lemma list_remove_wp l1 l2 sl s td :
  threads_inv (l1 ++ td :: l2) sl s ->
  wp (forkscan_util_thread_list_remove td s) (fun s' => threads_inv (l1 ++ l2) sl s' /\ relinked s s').
Proof.
  intros [Hc Hst Hnd Hn Hs]. destruct (lchain_app _ _ _ _ _ _ Hc) as (Htd & d & Hd & Hc2).
  assert (Hnd' : NoDup ((l1 ++ l2) ++ sl)).
  { rewrite <- Permutation_middle in Hnd. by apply NoDup_cons in Hnd as [_ ?]. }
  apply NoDup_app in Hnd as Hnd2. destruct Hnd2 as (Hndl & Hdis & _).
  rewrite length_app in Hn, Hs. cbn [length] in Hn, Hs.
  assert (Hlen : Z.of_nat (length (l1 ++ l2)) = count s - 1) by (rewrite length_app; lia).
  assert (Hpos : (count s >? 0) = true) by lia.
  assert (Hu : u32 (count s - 1) = count s - 1) by (apply u32_small; lia).
  unfold forkscan_util_thread_list_remove. apply Z.eqb_neq in Htd as Htd'. rewrite Htd'. wp_step. wp_step; [done |].
  apply lchain_head in Hc as Hh. destruct (list_snoc_case l1) as [-> | (y & l0 & ->)].
  - cbn [app hd length] in *. rewrite Hh, Htd'. wp_step. wp_step; [done |]. wp_step. eapply wp_td_load; [done.. |].
    wp_step. rewrite Z.eqb_refl. wp_step. wp_step. cbn [count set_list head]. wp_step; [done |].
    wp_step. split; [| apply (relinked_refl s (td_next d) (u32 (count s - 1)))]. split; cbn; [done | done | done | rewrite Hu; lia | lia].
  - rewrite <- app_assoc in Hc, Hndl. cbn [app] in Hc, Hndl.
    assert (Hhne : head s <> 0 /\ head s <> td).
    { rewrite Hh. destruct l0 as [|z l0]; cbn in *.
      - destruct Hc as (_ & ? & _). split; [done |]. intros ->. apply NoDup_cons in Hndl as [Hx _]. apply Hx. left.
      - destruct Hc as (_ & ? & _). split; [done |]. intros ->. apply NoDup_cons in Hndl as [Hx _].
        apply Hx, elem_of_app. right. right. left. }
    destruct Hhne as [Hh0%Z.eqb_neq Hhtd%Z.eqb_neq]. rewrite Hh0, Hhtd. wp_step. wp_step; [done |]. wp_step.
    eapply wp_td_load; [done.. |]. wp_step. wp_step. pose proof (lchain_size _ _ _ _ Hc Hndl) as Hsz.
    eapply wp_mono; [apply (remove_walk_ok s td l0 y l2); [done | done | unfold td_fuel; lia] |]. intros _ ->.
    destruct (lchain_app _ _ _ _ _ _ Hc) as (Hy0 & dy & Hdy & _).
    eapply wp_td_modify; [done.. |]. wp_step. cbn [count set_tds head]. wp_step; [done |]. wp_step.
    split; [split; cbn | by apply relinked_one].
    + rewrite <- app_assoc. eapply lchain_cut; [exact Hc | exact Hndl | exact Hd | apply lookup_insert_eq | done |].
      intros z Hz. by rewrite lookup_insert_ne.
    + apply chain_other; [done |]. intros Hy. apply (Hdis y); [| done]. apply elem_of_app. left. apply elem_of_app. right. left.
    + done.
    + lia.
    + lia.
Qed.

(** A record that is not in the list: the walk runs off its end. *)
Lemma remove_walk_off s td l fuel p :
  lchain td_next (tds s) p l -> (l <> []) -> (td ∉ l) -> td <> 0 -> (length l < fuel)%nat ->
  loop fuel (remove_walk td s) p = Err AssertFailed.
Proof.
  revert p fuel. induction l as [|x l IH]; intros p fuel Hc Hl Htd H0 Hf; [done |]. destruct fuel as [|fuel]; [cbn in Hf; lia |].
  destruct Hc as (-> & Hx%Z.eqb_neq & dx & Hdx & Hc). rewrite loop_S. unfold remove_walk, td_load at 1.
  rewrite Hx, Hdx, bind_ok. apply lchain_head in Hc as Hh. apply not_elem_of_cons in Htd as [Hne Htd].
  destruct l as [|y l].
  - cbn in Hc. rewrite Hc. apply not_eq_sym, Z.eqb_neq in H0 as ->. done.
  - destruct Hc as (-> & Hy & dy & Hdy & Hc). apply not_elem_of_cons in Htd as Htd'. destruct Htd' as [Hyt _].
    apply not_eq_sym, Z.eqb_neq in Hyt as ->. apply Z.eqb_neq in Hy as Hy'. rewrite Hy'. cbn [negb assert]. rewrite !bind_ok.
    apply (IH y fuel); [| done | done | done | cbn in Hf |- *; lia]. do 2 (split; [done |]). by exists dy.
Qed.

(** ** Leaving *)

Lemma remove_unknown l sl s td d :
  threads_inv l sl s -> td <> 0 -> (td ∉ l) -> tds s !! td = Some d ->
  forkscan_util_thread_list_remove td s = Err AssertFailed.
Proof.
  intros [Hc _ Hnd _ _] H0 Htd Hd. apply NoDup_app in Hnd as (Hnd & _).
  unfold forkscan_util_thread_list_remove. apply Z.eqb_neq in H0 as H0'. rewrite H0'. cbn [negb assert]. rewrite bind_ok.
  destruct l as [|x l].
  - cbn in Hc. by rewrite Hc.
  - pose proof (lchain_size _ _ _ _ Hc Hnd) as Hsz. apply lchain_head in Hc as Hh. cbn in Hh.
    destruct Hc as (Ex & Hx & dx & Hdx & Hc). apply Z.eqb_neq in Hx as Hx'. rewrite Ex, Hx'. cbn [negb assert].
    rewrite bind_ok. unfold td_load at 1. rewrite H0', Hd, bind_ok.
    apply not_elem_of_cons in Htd as Hne. destruct Hne as [Hne _]. apply not_eq_sym, Z.eqb_neq in Hne as ->.
    rewrite (remove_walk_off s td (x :: l)); [done | | done | done | done | unfold td_fuel; lia].
    split; [done |]. split; [done |]. by exists dx.
Qed.

Lemma relinked_lookup s s' q d : relinked s s' -> tds s !! q = Some d -> exists v, tds s' !! q = Some (with_td_next v d).
Proof. intros [H _]. apply H. Qed.

Lemma decr_ref_wp l sl s td d :
  threads_inv l sl s -> td <> 0 -> (td ∉ l ++ sl) -> tds s !! td = Some d -> 1 <= ref_count d <= INT_MAX ->
  wp (forkscan_util_thread_data_decr_ref td s) (fun s' =>
    threads_inv l (if ref_count d =? 1 then td :: sl else sl) s' /\ head s' = head s /\
    (exists v, tds s' !! td = Some (with_td_next v (with_td_ref (ref_count d - 1) d))) /\
    (forall q, q <> td -> tds s' !! q = tds s !! q) /\
    threaddata_pool s' = threaddata_pool s /\ ptrlist_pool s' = ptrlist_pool s /\ stack_pool s' = stack_pool s).
Proof.
  intros I H0 Hnew Hd Hr. destruct I as [Hc Hst Hnd Hn Hs].
  apply not_elem_of_app in Hnew as Hnew'. destruct Hnew' as [N1 N2].
  unfold INT_MAX in Hr.
  assert (E : to_int (u32 (ref_count d - 1)) = ref_count d - 1).
  { rewrite u32_small by lia. apply to_int_small. unfold int_ok, INT_MIN, INT_MAX. lia. }
  unfold forkscan_util_thread_data_decr_ref. wp_step. eapply wp_td_load; [done.. |]. wp_step. rewrite E.
  eapply wp_td_modify; [done.. |]. replace (ref_count d - 1 =? 0) with (ref_count d =? 1) by lia.
  destruct (ref_count d =? 1).
  - wp_step. eapply wp_td_modify; [done | cbn; apply lookup_insert_eq |]. wp_step. cbn [set_tds g_td_staged_to_free].
    split; [split; cbn | split; [done |]; cbn; split; [| split; [| done]]].
    + apply chain_other; [by apply chain_other | done].
    + split; [done |]. split; [done |]. eexists. rewrite lookup_insert_eq. split; [done |]. apply chain_other; [by apply chain_other | done].
    + rewrite <- Permutation_middle. by apply NoDup_cons.
    + done.
    + done.
    + exists (g_td_staged_to_free s). by rewrite lookup_insert_eq.
    + intros q Hq. by rewrite !lookup_insert_ne.
  - wp_step. split; [split; cbn | split; [done |]; cbn; split; [| split; [| done]]].
    + by apply chain_other.
    + by apply chain_other.
    + done.
    + done.
    + done.
    + exists (td_next d). rewrite lookup_insert_eq. by destruct d.
    + intros q Hq. by rewrite lookup_insert_ne.
Qed.

(** [forkscan_thread_cleanup] of thread.c, on the calling thread's record;
    [total] is [g_total_wait_time_ms]. *)
Definition forkscan_thread_cleanup (td : Z) (total : Z) (s : threads_t) : res (Z * threads_t) :=
  assert (negb (td =? 0)) ;!
  let! s := td_modify s td (with_td_active 0) in
  let! s := forkscan_proc_remove_thread_data td s in
  let! d := td_load s td in
  let total := u64 (total + wait_time_ms d) in
  let! s := forkscan_util_thread_data_decr_ref td s in
  Ok (total, s).

(** thread.c, for the calling thread, whose record is at [me]. *)
Definition forkscan_thread_signal_all_but_me (kill : Z -> Z) (me : Z) (s : threads_t) : res (Z * list Z) :=
  assert (negb (me =? 0)) ;!
  forkscan_proc_signal_all_except kill me s.

Definition forkscan_thread_user_stack (me : Z) (s : threads_t) : res mem_range_t :=
  let! d := td_load s me in
  Ok (mk_range (user_stack_low d) (user_stack_high d)).

(** What leaving changes in the record. *)
Definition exited (v : Z) (d : thread_data_t) : thread_data_t := with_td_next v (with_td_ref 0 (with_td_active 0 d)).

Lemma thread_cleanup_wp l1 l2 sl s td d total :
  threads_inv (l1 ++ td :: l2) sl s -> tds s !! td = Some d -> ref_count d = 1 ->
  wp (forkscan_thread_cleanup td total s) (fun '(total', s') =>
    total' = u64 (total + wait_time_ms d) /\ threads_inv (l1 ++ l2) (td :: sl) s' /\
    (exists v, tds s' !! td = Some (exited v d)) /\
    (forall q e, q <> td -> tds s !! q = Some e -> exists v, tds s' !! q = Some (with_td_next v e)) /\
    threaddata_pool s' = threaddata_pool s /\ ptrlist_pool s' = ptrlist_pool s /\ stack_pool s' = stack_pool s).
Proof.
  intros I Hd Hr. destruct (lchain_app _ _ _ _ _ _ (th_chain _ _ _ I)) as (H0 & _).
  unfold forkscan_thread_cleanup. apply Z.eqb_neq in H0 as H0'. rewrite H0'. wp_step. wp_step; [done |].
  wp_step. eapply wp_td_modify; [done.. |]. wp_step. unfold forkscan_proc_remove_thread_data.
  eapply wp_mono; [apply (list_remove_wp l1 l2 sl); by eapply inv_same_link |]. intros s1 [I1 R1].
  assert (Hl : tds (set_tds s (<[td:=with_td_active 0 d]> (tds s))) !! td = Some (with_td_active 0 d)) by apply lookup_insert_eq.
  destruct (relinked_lookup _ _ _ _ R1 Hl) as [v Hd1].
  assert (Hnew : td ∉ (l1 ++ l2) ++ sl).
  { pose proof (th_nodup _ _ _ I) as Hnd. rewrite <- app_assoc in Hnd |- *. cbn in Hnd.
    rewrite <- Permutation_middle in Hnd. by apply NoDup_cons in Hnd as [? _]. }
  wp_step. eapply wp_td_load; [done.. |]. wp_step.
  eapply wp_mono; [eapply (decr_ref_wp (l1 ++ l2) sl s1); [done.. | exact Hd1 | cbn; rewrite Hr; unfold INT_MAX; lia] |].
  intros s2 (I2 & _ & (v2 & E2) & F2 & P1 & P2 & P3). cbn [ref_count with_td_next with_td_active] in I2, E2. rewrite Hr in *.
  wp_step. destruct R1 as (R1 & Q1 & Q2 & Q3). split; [done |]. split; [exact I2 |]. split; [exists v2; exact E2 |]. split.
  - intros q e Hq He. rewrite F2 by done. apply R1. cbn. by rewrite lookup_insert_ne.
  - split; [| split]; [rewrite P1; exact Q1 | rewrite P2; exact Q2 | rewrite P3; exact Q3].
Qed.

(** ** Being joined *)

Lemma staged_scan_ok tid s l1 td l2 d fuel p prev :
  lchain td_next (tds s) p (l1 ++ td :: l2) -> tds s !! td = Some d -> self d = tid ->
  (forall q e, q ∈ l1 -> tds s !! q = Some e -> self e <> tid) -> (length l1 < fuel)%nat ->
  wp (loop fuel (staged_scan tid s) (p, prev)) (fun r => r = (td, default prev (last l1))).
Proof.
  revert p prev fuel. induction l1 as [|x l1 IH]; intros p prev fuel Hc Hd Hs Hn Hf; (destruct fuel as [|fuel]; [cbn in Hf; lia |]);
    rewrite loop_S; destruct Hc as (-> & Hx & dx & Hdx & Hc); wp_step; unfold staged_scan; wp_step;
    (eapply wp_td_load; [done.. |]).
  - rewrite Hd in Hdx. injection Hdx as <-. apply Z.eqb_eq in Hs as ->. by wp_step.
  - pose proof (Hn x dx ltac:(left) Hdx) as Hne%Z.eqb_neq. rewrite Hne. apply lchain_head in Hc as Hh.
    assert (Hn0 : td_next dx <> 0) by (rewrite Hh; by destruct l1; destruct Hc as (_ & ? & _)).
    apply Z.eqb_neq in Hn0 as ->. wp_step. wp_step; [done |]. wp_step.
    eapply wp_mono; [apply IH; try done; [intros q e Hq; apply Hn; by right | cbn in Hf; lia] |].
    intros r ->. f_equal. rewrite last_cons. by destruct (last l1).
Qed.

Lemma staged_scan_off tid s l fuel p prev :
  lchain td_next (tds s) p l -> (l <> []) -> (forall q e, q ∈ l -> tds s !! q = Some e -> self e <> tid) ->
  (length l < fuel)%nat -> loop fuel (staged_scan tid s) (p, prev) = Err AssertFailed.
Proof.
  revert p prev fuel. induction l as [|x l IH]; intros p prev fuel Hc Hl Hn Hf; [done |].
  destruct fuel as [|fuel]; [cbn in Hf; lia |]. destruct Hc as (-> & Hx%Z.eqb_neq & dx & Hdx & Hc).
  rewrite loop_S. unfold staged_scan, td_load at 1. rewrite Hx, Hdx, bind_ok.
  pose proof (Hn x dx ltac:(left) Hdx) as Hne%Z.eqb_neq. rewrite Hne. destruct l as [|y l].
  - cbn in Hc. by rewrite Hc.
  - destruct Hc as (-> & Hy & Hc). apply Z.eqb_neq in Hy as Hy'. rewrite Hy'. cbn [negb assert]. rewrite !bind_ok.
    apply (IH y x fuel); [done | done | intros q e Hq; apply Hn; by right | cbn in Hf |- *; lia].
Qed.

(** What the join of the thread with record [d] at [td] gives back. *)
Definition released (td : Z) (d : thread_data_t) (s s' : threads_t) : Prop :=
  threaddata_pool s' = pool_free td (threaddata_pool s) /\
  ptrlist_pool s' = pool_free (ptr_list_e d) (ptrlist_pool s) /\
  stack_pool s' = (if stack_is_ours d =? 0 then stack_pool s else pool_free (user_stack_low d) (stack_pool s)).

Lemma staged_size l sl s : threads_inv l sl s -> (length sl <= size (tds s))%nat.
Proof. intros I. apply (lchain_size td_next _ (g_td_staged_to_free s)); [apply I |]. pose proof (th_nodup _ _ _ I) as (_ & _ & ?)%NoDup_app. done. Qed.

(** The memory goes back once the record is off the staged list. *)
Lemma release_wp l sl s td d :
  threads_inv l sl s -> td <> 0 -> tds s !! td = Some d -> ref_count d = 0 ->
  wp (let s := (if negb (stack_is_ours d =? 0) then forkscan_buffer_freestack (user_stack_low d) s else s) in
      forkscan_util_thread_data_free td s)
    (fun s' => threads_inv l sl s' /\ tds s' = tds s /\ released td d s s').
Proof.
  intros [H1 H2 H3 H4 H5] H0 Hd Hr. unfold forkscan_util_thread_data_free, released. apply Z.eqb_neq in H0 as H0'. rewrite H0'.
  destruct (stack_is_ours d =? 0); cbn [negb]; wp_step; (wp_step; [done |]); wp_step;
    (eapply wp_td_load; [done | done |]); rewrite Hr; wp_step; (wp_step; [done |]); wp_step; by split.
Qed.

Lemma join_wp l sl1 td sl2 s d :
  threads_inv l (sl1 ++ td :: sl2) s -> tds s !! td = Some d -> ref_count d = 0 ->
  (forall q e, q ∈ sl1 -> tds s !! q = Some e -> self e <> self d) ->
  wp (forkscan_util_thread_data_cleanup (self d) s) (fun s' => threads_inv l (sl1 ++ sl2) s' /\
    (forall q e, tds s !! q = Some e -> exists v, tds s' !! q = Some (with_td_next v e)) /\ released td d s s').
Proof.
  intros I Hd Hr Hother. pose proof (staged_size _ _ _ I) as Hsz. rewrite length_app in Hsz.
  destruct I as [Hc Hst Hnd Hn Hs]. destruct (lchain_app _ _ _ _ _ _ Hst) as (H0 & d' & Hd' & Hc2).
  rewrite Hd in Hd'. injection Hd' as <-. apply NoDup_app in Hnd as Hnd2. destruct Hnd2 as (Hnl & Hdis & Hnsl).
  assert (Hnd' : NoDup (l ++ sl1 ++ sl2)).
  { rewrite app_assoc, <- Permutation_middle, <- app_assoc in Hnd. by apply NoDup_cons in Hnd as [_ ?]. }
  assert (Hs0 : g_td_staged_to_free s <> 0).
  { intros E. rewrite E in Hst. destruct sl1; destruct Hst as (? & ? & _); congruence. }
  apply Z.eqb_neq in Hs0 as Hs0'. unfold forkscan_util_thread_data_cleanup. rewrite Hs0'. wp_step. wp_step; [done |]. wp_step.
  eapply wp_mono; [eapply (staged_scan_ok _ s sl1 td sl2 d); [done | done | done | done | unfold td_fuel; lia] |].
  intros _ ->. wp_step. eapply wp_td_load; [done.. |]. wp_step. destruct (list_snoc_case sl1) as [-> | (y & l0 & ->)].
  - cbn [last default Z.eqb negb]. wp_step. replace (ref_count d >? 0) with false by lia.
    eapply wp_mono; [apply (release_wp l sl2 (set_staged s (td_next d))); [split; cbn; done | done..] |].
    intros s' (I' & Et & Rel). split; [done |]. split; [| exact Rel].
    intros q e He. exists (td_next e). rewrite Et. cbn. rewrite He. by destruct e.
  - rewrite last_snoc. change (default 0 (Some y)) with y. rewrite <- app_assoc in Hst, Hnsl. cbn [app] in Hst, Hnsl.
    destruct (lchain_app _ _ _ _ _ _ Hst) as (Hy0 & dy & Hdy & _). apply Z.eqb_neq in Hy0 as Hy0'. rewrite Hy0'.
    eapply wp_td_modify; [done.. |]. cbn beta. replace (ref_count d >? 0) with false by lia.
    assert (Hyt : y <> td).
    { intros ->. apply NoDup_app in Hnsl as (_ & _ & Hnsl). apply NoDup_cons in Hnsl as [Hx _]. apply Hx. left. }
    eapply wp_mono; [apply (release_wp l ((l0 ++ [y]) ++ sl2)) |].
    + split; cbn; [| | done..].
      * apply chain_other; [done |]. intros Hy. apply (Hdis y Hy). rewrite <- app_assoc. apply elem_of_app. right. left.
      * rewrite <- app_assoc. eapply lchain_cut; [exact Hst | exact Hnsl | exact Hd | apply lookup_insert_eq | done |].
        intros z Hz. by rewrite lookup_insert_ne.
    + done.
    + cbn. by rewrite lookup_insert_ne.
    + done.
    + intros s' (I' & Et & Rel). split; [done |]. split; [| exact Rel].
      intros q e He. rewrite Et. cbn. destruct (decide (y = q)) as [-> |].
      * rewrite lookup_insert_eq. rewrite Hdy in He. injection He as ->. by eexists.
      * rewrite lookup_insert_ne by done. exists (td_next e). rewrite He. by destruct e.
Qed.

(** The first staged record of a thread, or none. *)
Lemma join_split l sl s tid :
  threads_inv l sl s ->
  (exists sl1 td sl2 d, sl = sl1 ++ td :: sl2 /\ tds s !! td = Some d /\ self d = tid /\
     forall q e, q ∈ sl1 -> tds s !! q = Some e -> self e <> self d) \/
  ((forall td d, td ∈ sl -> tds s !! td = Some d -> self d <> tid) /\
   forkscan_util_thread_data_cleanup tid s = Err AssertFailed).
Proof.
  intros I. set (P := fun td => exists d, tds s !! td = Some d /\ self d = tid).
  assert (Hdec : forall td, P td \/ ~ P td).
  { intros td. unfold P. destruct (tds s !! td) as [d|] eqn:E; [| right; by intros (? & ? & _)].
    destruct (Z.eq_dec (self d) tid); [left; by exists d | right; intros (? & [= <-] & ?); done]. }
  assert (Hs : (exists sl1 td sl2, sl = sl1 ++ td :: sl2 /\ P td /\ forall q, q ∈ sl1 -> ~ P q) \/ forall q, q ∈ sl -> ~ P q).
  { clear -Hdec. induction sl as [|x sl IH]; [right; intros q Hq; by apply not_elem_of_nil in Hq |].
    destruct (Hdec x) as [Hx | Hx]; [left; exists [], x, sl; split_and!; try done; intros q Hq; by apply not_elem_of_nil in Hq |].
    destruct IH as [(sl1 & td & sl2 & -> & Htd & Hn) | Hn].
    - left. exists (x :: sl1), td, sl2. split_and!; try done. intros q [-> | Hq]%elem_of_cons; [done | by apply Hn].
    - right. intros q [-> | Hq]%elem_of_cons; [done | by apply Hn]. }
  destruct Hs as [(sl1 & td & sl2 & -> & (d & Hd & <-) & Hn) | Hn].
  - left. exists sl1, td, sl2, d. split_and!; try done. intros q e Hq He Es. apply (Hn q Hq). by exists e.
  - right. assert (Hno : forall td d, td ∈ sl -> tds s !! td = Some d -> self d <> tid).
    { intros td d Htd Hd E. apply (Hn td Htd). by exists d. }
    split; [done |]. pose proof (staged_size _ _ _ I) as Hsz.
    pose proof (th_staged _ _ _ I) as Hst. unfold forkscan_util_thread_data_cleanup. destruct sl as [|x sl].
    + cbn in Hst. by rewrite Hst.
    + destruct Hst as (E & Hx%Z.eqb_neq & Hc). rewrite E, Hx. cbn [negb assert]. rewrite bind_ok.
      rewrite (staged_scan_off tid s (x :: sl)); [done | | done | done | unfold td_fuel; lia].
      split; [done |]. split; [by apply Z.eqb_neq | done].
Qed.

(** ** Walking the list *)

(** [FOREACH_IN_THREAD_LIST] runs its body on the records of the list, in
    order, as they were when the walk began. *)
Lemma foreach_wp {S} (f : Z -> thread_data_t -> S -> res S) (Inv : list Z -> S -> Prop) l sl s x :
  threads_inv l sl s -> Inv [] x ->
  (forall done td d rest y, l = done ++ td :: rest -> tds s !! td = Some d -> td <> 0 -> Inv done y ->
     wp (f td d y) (Inv (done ++ [td]))) ->
  wp (foreach_thread f s x) (Inv l).
Proof.
  intros I H0 Hstep. pose proof (th_nodup _ _ _ I) as (Hnd & _ & _)%NoDup_app.
  pose proof (lchain_size _ _ _ _ (th_chain _ _ _ I) Hnd) as Hsz.
  apply (wp_loop_rel (fun n '(td, y) => exists l1 l2, l = l1 ++ l2 /\ length l2 = n /\
    lchain td_next (tds s) td l2 /\ Inv l1 y) (length l)).
  - exists [], l. by destruct I.
  - unfold td_fuel. lia.
  - intros n [td y] (l1 & l2 & El & Hn & Hc & Hy). unfold foreach_step. destruct l2 as [|q l2].
    + cbn in Hc. subst td. cbn [Z.eqb]. wp_step. by rewrite El, app_nil_r.
    + destruct Hc as (-> & Hq & d & Hd & Hc). apply Z.eqb_neq in Hq as Hq'. rewrite Hq'. wp_step.
      eapply wp_td_load; [done.. |]. wp_step. eapply wp_mono; [by eapply Hstep |]. intros y' Hy'. wp_step.
      exists (length l2). cbn in Hn. split; [lia |]. exists (l1 ++ [q]), l2. by rewrite <- app_assoc.
Qed.

(** The threads the walk of [forkscan_proc_signal_all_except] signals. *)
Definition signalled (kill : Z -> Z) (except : Z) (s : threads_t) (td : Z) : bool :=
  match tds s !! td with
  | Some d => negb (td =? except) && negb (is_active d =? 0) && negb (kill (self d) =? ESRCH)
  | None => false
  end.

Lemma signal_wp kill except l sl s :
  threads_inv l sl s -> Z.of_nat (length l) <= INT_MAX ->
  (forall td d, td ∈ l -> tds s !! td = Some d -> kill (self d) <> EINVAL) ->
  wp (forkscan_proc_signal_all_except kill except s) (fun '(n, sent) =>
    sent = rev (filter (fun td => signalled kill except s td = true) l) /\ n = Z.of_nat (length sent)).
Proof.
  intros I Hlen Hkill. unfold forkscan_proc_signal_all_except. eapply wp_mono.
  { apply (foreach_wp _ (fun l1 '(n, sent) => sent = rev (filter (fun td => signalled kill except s td = true) l1) /\
      n = Z.of_nat (length sent) /\ (length sent <= length l1)%nat) l sl); [done | done |].
    intros l1 td d l2 [n sent] El Hd H0 (Es & En & Hle). rewrite filter_app, rev_app_distr, <- Es.
    rewrite length_app. unfold signal_one. pose proof (Hkill td d) as Hk.
    assert (Hin : td ∈ l) by (rewrite El; apply elem_of_mid). specialize (Hk Hin Hd). apply Z.eqb_neq in Hk.
    assert (Hs : signalled kill except s td =
      negb (td =? except) && negb (is_active d =? 0) && negb (kill (self d) =? ESRCH)) by (unfold signalled; by rewrite Hd).
    rewrite Hk. rewrite El, length_app in Hlen. cbn [length] in Hlen.
    destruct (negb (td =? except) && negb (is_active d =? 0)); cbn [andb] in Hs.
    - destruct (kill (self d) =? ESRCH); cbn [negb] in Hs.
      + rewrite filter_cons_False by (rewrite Hs; done). wp_step. cbn. split; [done |]. lia.
      + rewrite filter_cons_True by done. wp_step. wp_step; [unfold int_ok, INT_MIN; lia |]. wp_step. cbn. split; [done |]. lia.
    - rewrite filter_cons_False by (rewrite Hs; done). wp_step. cbn. split; [done |]. lia. }
  intros [n sent] (H1 & H2 & _). done.
Qed.

Definition on_stack (addr : Z) (d : thread_data_t) : bool :=
  (addr >=? user_stack_low d) && (addr <? user_stack_high d).

Lemma find_wp addr l sl s :
  threads_inv l sl s ->
  wp (forkscan_util_thread_list_find addr s) (fun '(td, s') =>
    (td = 0 /\ s' = s /\ forall q d, q ∈ l -> tds s !! q = Some d -> on_stack addr d = false) \/
    exists l1 l2 d, l = l1 ++ td :: l2 /\ tds s !! td = Some d /\ on_stack addr d = true /\
      s' = set_tds s (<[td := with_td_ref (to_int (u32 (ref_count d + 1))) d]> (tds s)) /\
      forall q d, q ∈ l1 -> tds s !! q = Some d -> on_stack addr d = false).
Proof.
  intros I. pose proof (th_nodup _ _ _ I) as (Hnd & _ & _)%NoDup_app.
  pose proof (lchain_size _ _ _ _ (th_chain _ _ _ I) Hnd) as Hsz.
  apply (wp_loop_rel (fun n '(td, s') => exists l1 l2, s' = s /\ l = l1 ++ l2 /\ length l2 = n /\
    lchain td_next (tds s) td l2 /\ forall q d, q ∈ l1 -> tds s !! q = Some d -> on_stack addr d = false) (length l)).
  - exists [], l. split_and!; try done; [by destruct I | intros q d Hq; by apply not_elem_of_nil in Hq].
  - unfold td_fuel. lia.
  - intros n [td s'] (l1 & l2 & -> & El & Hn & Hc & Hno). unfold find_walk. destruct l2 as [|q l2].
    + cbn in Hc. subst td. cbn [Z.eqb]. wp_step. left. rewrite El, app_nil_r. done.
    + destruct Hc as (-> & Hq & d & Hd & Hc). apply Z.eqb_neq in Hq as Hq'. rewrite Hq'. wp_step.
      eapply wp_td_load; [done.. |]. change ((addr >=? user_stack_low d) && (addr <? user_stack_high d)) with (on_stack addr d).
      destruct (on_stack addr d) eqn:E.
      * wp_step. eapply wp_td_modify; [done.. |]. wp_step. right. by exists l1, l2, d.
      * wp_step. exists (length l2). cbn in Hn. split; [lia |]. exists (l1 ++ [q]), l2.
        rewrite <- app_assoc. split_and!; try done. intros r e [Hr | ->%list_elem_of_singleton]%elem_of_app He; [by eapply Hno |].
        rewrite Hd in He. by injection He as <-.
Qed.

(** * Properties *)

(** [forkscan_util_thread_list_remove] takes a listed record out, wherever it
    is, and changes nothing but links; asked for a record that is not in the
    list, also when the list is empty, it fails an assertion. *)
Theorem thread_list_remove_correct l sl s td d :
  threads_inv l sl s -> td <> 0 -> tds s !! td = Some d ->
  (exists l1 l2 s', l = l1 ++ td :: l2 /\ forkscan_util_thread_list_remove td s = Ok s' /\
     threads_inv (l1 ++ l2) sl s' /\ relinked s s') \/
  ((td ∉ l) /\ forkscan_util_thread_list_remove td s = Err AssertFailed).
Proof.
  intros I H0 Hd. destruct (decide (td ∈ l)) as [Hin | Hout].
  - left. apply list_elem_of_split in Hin as (l1 & l2 & ->). pose proof (list_remove_wp _ _ _ _ _ I) as H.
    apply wp_iff in H as (s' & E & H1 & H2). by exists l1, l2, s'.
  - right. split; [done |]. by eapply remove_unknown.
Qed.

(** A thread that has only its own reference leaves the list when it exits
    and is given back by its join: record, pointer list and, if it was
    Forkscan's, the stack go back to their pools; the threads listed and
    staged are then the others, with their records as they were. *)
Theorem thread_exit_join l1 td l2 sl s d total :
  threads_inv (l1 ++ td :: l2) sl s -> tds s !! td = Some d -> ref_count d = 1 ->
  exists s1 s2, forkscan_thread_cleanup td total s = Ok (u64 (total + wait_time_ms d), s1) /\
    threads_inv (l1 ++ l2) (td :: sl) s1 /\
    forkscan_util_thread_data_cleanup (self d) s1 = Ok s2 /\
    threads_inv (l1 ++ l2) sl s2 /\ released td d s s2 /\
    (forall q e, q <> td -> tds s !! q = Some e -> exists v, tds s2 !! q = Some (with_td_next v e)).
Proof.
  intros I Hd Hr. pose proof (thread_cleanup_wp l1 l2 sl s td d total I Hd Hr) as H.
  apply wp_iff in H as ([t s1] & E1 & -> & I1 & (v & Hd1) & F1 & P1 & P2 & P3). exists s1.
  pose proof (join_wp (l1 ++ l2) [] td sl s1 (exited v d) I1 Hd1 eq_refl) as H.
  apply wp_iff in H as (s2 & E2 & I2 & F2 & R2); [| intros q e Hq; by apply not_elem_of_nil in Hq].
  exists s2. split; [done |]. split; [done |]. split; [done |]. split; [done |]. split.
  - unfold released in *. cbn in R2. by rewrite P1, P2, P3 in R2.
  - intros q e Hq He. destruct (F1 q e Hq He) as [v1 Hv1]. destruct (F2 q _ Hv1) as [v2 Hv2]. exists v2.
    rewrite Hv2. by destruct e.
Qed.

(** A join finds the record of its thread among the staged ones, however
    many exited since; without one, as after an exit with a second reference
    outstanding or a join that failed, it fails an assertion. *)
Theorem join_finds_thread l sl s tid :
  threads_inv l sl s ->
  (forall td d, td ∈ sl -> tds s !! td = Some d -> ref_count d = 0) ->
  (exists sl1 td sl2 d s', sl = sl1 ++ td :: sl2 /\ tds s !! td = Some d /\ self d = tid /\
     forkscan_util_thread_data_cleanup tid s = Ok s' /\ threads_inv l (sl1 ++ sl2) s' /\ released td d s s') \/
  ((forall td d, td ∈ sl -> tds s !! td = Some d -> self d <> tid) /\
   forkscan_util_thread_data_cleanup tid s = Err AssertFailed).
Proof.
  intros I Hr. destruct (join_split l sl s tid I) as [(sl1 & td & sl2 & d & -> & Hd & <- & Hn) | [Hno Herr]].
  - left. pose proof (join_wp l sl1 td sl2 s d I Hd (Hr td d (elem_of_mid _ _ _) Hd) Hn) as H.
    apply wp_iff in H as (s' & E & I' & _ & R). by exists sl1, td, sl2, d, s'.
  - by right.
Qed.

(** [forkscan_proc_signal_all_except] signals exactly the active threads of
    the list except the one given, once each, and returns their number, less
    those the kernel no longer knows. *)
Theorem signal_reaches_active kill except l sl s :
  threads_inv l sl s -> Z.of_nat (length l) <= INT_MAX ->
  (forall td d, td ∈ l -> tds s !! td = Some d -> kill (self d) <> EINVAL) ->
  exists sent, forkscan_proc_signal_all_except kill except s = Ok (Z.of_nat (length sent), sent) /\ NoDup sent /\
    forall td, td ∈ sent <-> td ∈ l /\ exists d, tds s !! td = Some d /\
      td <> except /\ is_active d <> 0 /\ kill (self d) <> ESRCH.
Proof.
  intros I Hlen Hkill. pose proof (signal_wp kill except l sl s I Hlen Hkill) as H.
  apply wp_iff in H as ([n sent] & E & Es & ->). exists sent. split; [done |].
  pose proof (th_nodup _ _ _ I) as (Hnd & _ & _)%NoDup_app. subst sent. split.
  - apply NoDup_ListNoDup, NoDup_rev, NoDup_ListNoDup. by apply NoDup_filter.
  - intros td. rewrite list_elem_of_In, <- in_rev, <- list_elem_of_In, list_elem_of_filter. unfold signalled. split.
    + intros [Hs Hin]. split; [done |]. destruct (tds s !! td) as [d|]; [| done]. exists d. split; [done |].
      apply andb_true_iff in Hs as [[H1 H2]%andb_true_iff H3]. apply negb_true_iff, Z.eqb_neq in H1, H2, H3. done.
    + intros (Hin & d & -> & H1%Z.eqb_neq & H2%Z.eqb_neq & H3%Z.eqb_neq). by rewrite H1, H2, H3.
Qed.

(** [forkscan_util_thread_list_find] returns the first thread whose stack
    holds the address, with one more reference, or [NULL] if there is none. *)
Theorem thread_list_find_first addr l sl s :
  threads_inv l sl s ->
  exists td s', forkscan_util_thread_list_find addr s = Ok (td, s') /\
    ((td = 0 /\ s' = s /\ forall q d, q ∈ l -> tds s !! q = Some d -> on_stack addr d = false) \/
     exists l1 l2 d, l = l1 ++ td :: l2 /\ tds s !! td = Some d /\ on_stack addr d = true /\
       s' = set_tds s (<[td := with_td_ref (to_int (u32 (ref_count d + 1))) d]> (tds s)) /\
       forall q d, q ∈ l1 -> tds s !! q = Some d -> on_stack addr d = false).
Proof.
  intros I. pose proof (find_wp addr l sl s I) as H. apply wp_iff in H as ([td s'] & E & H). by exists td, s'.
Qed.

(** ** Witnesses: two running threads, one that has exited *)

Definition demo_td (next self low active ref : Z) : thread_data_t :=
  mk_td next self low (low + 0x100) 1 active (forkscan_queue_init [] 0) (self * 0x100000) 7
    (mk_place 0 0 0) 0 0 (mk_range 0 0) ref.

Definition demo_threads : threads_t :=
  mk_threads (<[0x3000 := demo_td 0 3 0x9000 0 0]> (<[0x1000 := demo_td 0x2000 1 0x7000 1 1]> {[0x2000 := demo_td 0 2 0x8000 1 1]}))
    0x1000 2 0x3000 (mk_pool ∅ 0 []) (mk_pool ∅ 0 []) (mk_pool ∅ 0 []).

Lemma demo_threads_inv : threads_inv [0x1000; 0x2000] [0x3000] demo_threads.
Proof.
  split; [| | | done | done].
  - split; [done |]. split; [done |]. eexists. split; [reflexivity |]. split; [done |]. split; [done |].
    by eexists.
  - split; [done |]. split; [done |]. by eexists.
  - apply (bool_decide_unpack _). by vm_compute.
Qed.

Lemma thread_list_remove_correct_witness :
  (exists l1 l2 s', [0x1000; 0x2000] = l1 ++ 0x2000 :: l2 /\ forkscan_util_thread_list_remove 0x2000 demo_threads = Ok s' /\
     threads_inv (l1 ++ l2) [0x3000] s' /\ relinked demo_threads s') \/
  ((0x2000 ∉ [0x1000; 0x2000]) /\ forkscan_util_thread_list_remove 0x2000 demo_threads = Err AssertFailed).
Proof. eapply thread_list_remove_correct; [apply demo_threads_inv | done | reflexivity]. Defined.

Lemma thread_exit_join_witness :
  exists s1 s2, forkscan_thread_cleanup 0x2000 5 demo_threads = Ok (12, s1) /\
    threads_inv [0x1000] [0x2000; 0x3000] s1 /\
    forkscan_util_thread_data_cleanup 2 s1 = Ok s2 /\ threads_inv [0x1000] [0x3000] s2.
Proof.
  destruct (thread_exit_join [0x1000] 0x2000 [] [0x3000] demo_threads (demo_td 0 2 0x8000 1 1) 5 demo_threads_inv)
    as (s1 & s2 & E1 & I1 & E2 & I2 & _); [reflexivity | reflexivity |]. by exists s1, s2.
Defined.

Lemma join_finds_thread_witness :
  (exists sl1 td sl2 d s', [0x3000] = sl1 ++ td :: sl2 /\ tds demo_threads !! td = Some d /\ self d = 3 /\
     forkscan_util_thread_data_cleanup 3 demo_threads = Ok s' /\
     threads_inv [0x1000; 0x2000] (sl1 ++ sl2) s' /\ released td d demo_threads s') \/
  ((forall td d, td ∈ [0x3000] -> tds demo_threads !! td = Some d -> self d <> 3) /\
   forkscan_util_thread_data_cleanup 3 demo_threads = Err AssertFailed).
Proof.
  apply (join_finds_thread _ _ _ 3 demo_threads_inv).
  intros td d ->%list_elem_of_singleton E. vm_compute in E. by injection E as <-.
Defined.

Lemma signal_reaches_active_witness :
  exists sent, forkscan_proc_signal_all_except (fun _ => 0) 0x1000 demo_threads = Ok (Z.of_nat (length sent), sent) /\
    NoDup sent /\ forall td, td ∈ sent <-> td ∈ [0x1000; 0x2000] /\ exists d, tds demo_threads !! td = Some d /\
      td <> 0x1000 /\ is_active d <> 0 /\ 0 <> ESRCH.
Proof. by apply (signal_reaches_active (fun _ => 0) 0x1000 _ _ _ demo_threads_inv). Defined.

Lemma thread_list_find_first_witness :
  exists td s', forkscan_util_thread_list_find 0x8010 demo_threads = Ok (td, s') /\
    ((td = 0 /\ s' = demo_threads /\ forall q d, q ∈ [0x1000; 0x2000] -> tds demo_threads !! q = Some d -> on_stack 0x8010 d = false) \/
     exists l1 l2 d, [0x1000; 0x2000] = l1 ++ td :: l2 /\ tds demo_threads !! td = Some d /\ on_stack 0x8010 d = true /\
       s' = set_tds demo_threads (<[td := with_td_ref (to_int (u32 (ref_count d + 1))) d]> (tds demo_threads)) /\
       forall q d, q ∈ l1 -> tds demo_threads !! q = Some d -> on_stack 0x8010 d = false).
Proof. apply (thread_list_find_first 0x8010 _ _ _ demo_threads_inv). Defined.
