(* ===== verification/Wrappers.v ===== *)
(** wrappers.c, thread.c: the life of a thread.

    The wrappers of [pthread_create], [pthread_exit] and [pthread_join] give
    each thread its record, its queue and, unless the user brings one, its
    stack, and take them back.  What libpthread answers is a parameter. *)
From S2P Require Import Prelude AddrBuffer Queue Alloc Pool Buffer Free Threads.

Record process_t : Type := mk_process {
  threads : threads_t;
  g_thread_count : Z;
  g_total_wait_time_ms : Z }.

Section wrappers.

(** [n] is [g_forkscan_ptrs_per_thread].  The stack attribute is the pair of
    address and size that [pthread_attr_getstack] reads. *)
Context (n : Z).
Context (attr_init attr_getstack : Z) (default_stack : Z * Z) (attr_setstack : Z * Z -> Z).
Context (orig_pthread_create : Z -> Z * Z -> Z).

(** [NULL == attr] is [None]. *)
Definition real_attr (attr : option (Z * Z)) : res (Z * Z) :=
  match attr with
  | None => if negb (attr_init =? 0) then Err Fatal else Ok default_stack
  | Some a => Ok a
  end.

(** The stack for the new thread, and whether it is Forkscan's. *)
Definition thread_stack (attr : Z * Z) (s : threads_t) : res (Z * Z * Z * threads_t) :=
  let '(stack, stacksize) := attr in
  if stack =? 0 then
    let! ' (stack, stacksize, s) := forkscan_buffer_makestack s in
    if negb (attr_setstack (stack, stacksize) =? 0) then Err Fatal else
    Ok (stack, stacksize, 1, s)
  else Ok (stack, stacksize, 0, s).

Definition pthread_create (attr : option (Z * Z)) (w : process_t) : res (Z * process_t) :=
  let count := g_thread_count w in
  let w := mk_process (threads w) (to_int (u32 (count + 1))) (g_total_wait_time_ms w) in
  if MAX_THREAD_COUNT <? count then Err Fatal else
  let! ' (td, s) := forkscan_util_thread_data_new n (threads w) in
  if td =? 0 then Err Fatal else
  let! s := td_modify s td (with_td_active 0) in
  let! real := real_attr attr in
  if negb (attr_getstack =? 0) then Err Fatal else
  let! ' (stack, stacksize, ours, s) := thread_stack real s in
  let! s := td_modify s td (with_td_stack ours stack (stack + stacksize) 0) in
  let! s := forkscan_proc_add_thread_data td s in
  let ret := orig_pthread_create td (stack, stacksize) in
  if negb (ret =? 0) then
    let! d := td_load s td in
    let s := (if negb (stack_is_ours d =? 0) then forkscan_buffer_freestack stack s else s) in
    let! s := forkscan_util_thread_data_free td s in
    Ok (ret, mk_process s (g_thread_count w) (g_total_wait_time_ms w))
  else Ok (ret, mk_process s (g_thread_count w) (g_total_wait_time_ms w)).

(** Up to the call of the user's routine; [sp] is the stack pointer. *)
Definition forkscan_thread_base (td sp pthread_self : Z) (w : process_t) : res process_t :=
  let buffer_size := Z.land sp (PAGESIZE - 1) in
  let! s := td_modify (threads w) td (with_td_start pthread_self (sp - buffer_size)) in
  Ok (mk_process s (g_thread_count w) (g_total_wait_time_ms w)).

(** Up to the call of libpthread's [pthread_exit]; [td] is the calling
    thread's [forkscan_local_td]. *)
Definition exit_wrapper (td : Z) (w : process_t) : res process_t :=
  let! ' (total, s) := forkscan_thread_cleanup td (g_total_wait_time_ms w) (threads w) in
  Ok (mk_process s (to_int (u32 (g_thread_count w - 1))) total).

(** What the program calls, and what [forkscan_thread_base] calls when the
    user's routine returns. *)
Definition pthread_exit (td : Z) (w : process_t) : res process_t := exit_wrapper td w.
Definition forkscan_pthread_exit (td : Z) (w : process_t) : res process_t := exit_wrapper td w.

(** After libpthread's [pthread_join], which answered [ret]. *)
Definition pthread_join (thread ret : Z) (w : process_t) : res (Z * process_t) :=
  let! s := forkscan_util_thread_data_cleanup thread (threads w) in
  Ok (ret, mk_process s (g_thread_count w) (g_total_wait_time_ms w)).

(** * The invariant of the process *)

Definition array_of (s : threads_t) (td : Z) : option Z := ptr_list_e <$> tds s !! td.

Definition stack_of (s : threads_t) (td : Z) : option Z :=
  d ← tds s !! td; if stack_is_ours d =? 0 then None else Some (user_stack_low d).

(** The chunks handed out of the three pools are the records, queues and
    stacks of the threads [l] that run and [sl] that have exited, so no two
    threads share any; the threads that run have one reference, the others
    none; the threads that run are counted. *)
Record process_inv (l sl : list Z) (w : process_t) : Prop := {
  pi_threads : threads_inv l sl (threads w);
  pi_tds : exists free, pool_inv MEMBLOCK_SIZE free (l ++ sl) (threaddata_pool (threads w));
  pi_arrays : exists free, pool_inv (n * WORD) free (omap (array_of (threads w)) (l ++ sl)) (ptrlist_pool (threads w));
  pi_stacks : exists free, pool_inv STACKSIZE free (omap (stack_of (threads w)) (l ++ sl)) (stack_pool (threads w));
  pi_refs : forall td d, tds (threads w) !! td = Some d ->
    (td ∈ l -> ref_count d = 1) /\ (td ∈ sl -> ref_count d = 0);
  pi_count : g_thread_count w = Z.of_nat (length l);
  pi_limit : Z.of_nat (length l) <= MAX_THREAD_COUNT + 1 }.

(** The kernel maps a pool's next block, when it needs one, clear of what is
    in use. *)
Definition can_alloc (dtsize batch_sz : Z) (held : list Z) (s : pool_t) : Prop :=
  pool_inv dtsize [] held s -> exists arr rest, maps s = arr :: rest /\ fresh_block dtsize batch_sz held arr.

Lemma pool_alloc_wp dtsize batch_sz free held s :
  0 < dtsize -> 1 <= batch_sz -> batch_sz * dtsize <= INT_MAX -> pool_inv dtsize free held s ->
  can_alloc dtsize batch_sz held s ->
  wp (pool_alloc dtsize batch_sz s) (fun '(p, s') => 0 < p /\ (p ∉ held) /\ exists free', pool_inv dtsize free' (p :: held) s').
Proof.
  intros H1 H2 H3 I Hc. eapply wp_mono; [apply (alloc_wp dtsize batch_sz free held s); try done; by intros -> ; apply Hc |].
  intros [p s'] (free' & I' & _). split; [apply (po_pos _ _ _ _ I'), elem_of_app; right; left |].
  split; [| by exists free']. pose proof (po_nodup _ _ _ _ I') as (_ & _ & [Hp _]%NoDup_cons)%NoDup_app. done.
Qed.

(** ** Frames *)

Lemma omap_same {B} (f g : Z -> option B) (l : list Z) : (forall q, q ∈ l -> f q = g q) -> omap f l = omap g l.
Proof using Type.
  induction l as [|x l IH]; intros H; [done |]. cbn. rewrite (H x) by left.
  rewrite IH; [done |]. intros q Hq. apply H. by right.
Qed.

Lemma omap_cons_eq {B} (f : Z -> option B) x (l : list Z) :
  omap f (x :: l) = match f x with Some y => y :: omap f l | None => omap f l end.
Proof using Type. done. Qed.

(** The records of the threads of [l] hold the same memory. *)
Definition same_memory (l : list Z) (s s' : threads_t) : Prop := forall q, q ∈ l ->
  array_of s' q = array_of s q /\ stack_of s' q = stack_of s q.

Lemma same_memory_omap (l : list Z) s s' : same_memory l s s' ->
  omap (array_of s') l = omap (array_of s) l /\ omap (stack_of s') l = omap (stack_of s) l.
Proof using Type. intros H. split; apply omap_same; intros q Hq; by apply H. Qed.

Lemma relinked_memory l sl s s' :
  (forall q, q ∈ l ++ sl -> is_Some (tds s !! q)) ->
  (forall q d, tds s !! q = Some d -> exists v, tds s' !! q = Some (with_td_next v d)) -> same_memory (l ++ sl) s s'.
Proof using Type.
  intros Hk H q Hq. destruct (Hk q Hq) as [d Hd]. destruct (H q d Hd) as [v Hv].
  unfold array_of, stack_of. by rewrite Hd, Hv.
Qed.

Lemma known l sl s q : threads_inv l sl s -> q ∈ l ++ sl -> is_Some (tds s !! q).
Proof using Type.
  intros I [Hq | Hq]%elem_of_app.
  - destruct (lchain_some _ _ _ _ q (th_chain _ _ _ I) Hq) as (_ & d & Hd). by exists d.
  - destruct (lchain_some _ _ _ _ q (th_staged _ _ _ I) Hq) as (_ & d & Hd). by exists d.
Qed.

(** ** Creation *)

(** What a new thread's record adds to the memory in use, before the record
    is listed: the stack if [ours]. *)
Record created (l sl : list Z) (s : threads_t) (td : Z) (d : thread_data_t) (s' : threads_t) : Prop := {
  cr_pos : 0 < td;
  cr_new : td ∉ l ++ sl;
  cr_tds : tds s' = <[td := d]> (tds s);
  cr_heads : head s' = head s /\ count s' = count s /\ g_td_staged_to_free s' = g_td_staged_to_free s;
  cr_td : exists free, pool_inv MEMBLOCK_SIZE free (td :: l ++ sl) (threaddata_pool s');
  cr_array : exists free, pool_inv (n * WORD) free (ptr_list_e d :: omap (array_of s) (l ++ sl)) (ptrlist_pool s');
  cr_ref : ref_count d = 1 }.

Context (n_ok : 1 <= n <= 2 ^ 20).

Definition room (l sl : list Z) (w : process_t) : Prop :=
  can_alloc MEMBLOCK_SIZE 8 (l ++ sl) (threaddata_pool (threads w)) /\
  can_alloc (n * WORD) 8 (omap (array_of (threads w)) (l ++ sl)) (ptrlist_pool (threads w)) /\
  can_alloc STACKSIZE NSTACKS (omap (stack_of (threads w)) (l ++ sl)) (stack_pool (threads w)).

Lemma data_new_wp l sl w : process_inv l sl w -> room l sl w ->
  wp (forkscan_util_thread_data_new n (threads w)) (fun '(td, s) => stack_pool s = stack_pool (threads w) /\
    exists d, created l sl (threads w) td d s).
Proof using n_ok.
  intros [It [f1 I1] [f2 I2] _ _ _ _] (R1 & R2 & _). unfold forkscan_util_thread_data_new. wp_step.
  eapply wp_mono; [by eapply pool_alloc_wp|]. intros [td a] (Htd & Hnew & f1' & I1'). wp_step.
  eapply wp_mono; [eapply pool_alloc_wp; [| done | | exact I2 | exact R2]; unfold WORD, INT_MAX; lia |].
  intros [e b] (_ & _ & f2' & I2'). wp_step. split; [done |]. eexists. split; cbn.
  - done.
  - done.
  - done.
  - done.
  - by exists f1'.
  - by exists f2'.
  - done.
Qed.

Lemma created_frame l sl s td d s' : created l sl s td d s' -> same_memory (l ++ sl) s s'.
Proof using Type.
  intros C q Hq. unfold array_of, stack_of. rewrite (cr_tds _ _ _ _ _ _ C), lookup_insert_ne; [done |].
  intros ->. by apply (cr_new _ _ _ _ _ _ C).
Qed.

Lemma created_inv l sl s td d s' : threads_inv l sl s -> created l sl s td d s' -> threads_inv l sl s'.
Proof using Type.
  intros [H1 H2 H3 H4 H5] [_ Hnew Et (Eh & Ec & Es) _ _ _]. apply not_elem_of_app in Hnew as [N1 N2].
  split; rewrite ?Et, ?Eh, ?Ec, ?Es; [by apply chain_other | by apply chain_other | done..].
Qed.

(** The record's other fields are then filled in. *)
Lemma created_modify l sl s td d s' f : created l sl s td d s' ->
  (forall d, ref_count (f d) = ref_count d /\ ptr_list_e (f d) = ptr_list_e d) ->
  wp (td_modify s' td f) (fun s2 => created l sl s td (f d) s2 /\ stack_pool s2 = stack_pool s').
Proof using Type.
  intros [Hp Hnew Et Eh C1 C2 Cr] Hf. destruct (Hf d) as [Fr Fe].
  eapply (wp_td_modify _ _ _ d); [lia | rewrite Et; apply lookup_insert_eq |]. split; [| done]. split; cbn.
  - done.
  - done.
  - by rewrite Et, insert_insert_eq.
  - done.
  - done.
  - by rewrite Fe.
  - by rewrite Fr.
Qed.

Lemma list_init_id l sl s : threads_inv l sl s -> forkscan_util_thread_list_init s = s.
Proof using Type.
  intros [H1 _ _ H4 _]. unfold forkscan_util_thread_list_init, set_list. destruct (Z.eqb_spec (head s) 0) as [E |]; [| done].
  destruct l as [|x l]; [| destruct H1 as (E1 & H0 & _); lia]. cbn in H4. destruct s. cbn in *. by subst.
Qed.

(** The list as it is once the record has been added. *)
Lemma create_listed l sl w td d s :
  process_inv l sl w -> created l sl (threads w) td d s -> Z.of_nat (length l) <= MAX_THREAD_COUNT ->
  (exists free, pool_inv STACKSIZE free
     ((if stack_is_ours d =? 0 then [] else [user_stack_low d]) ++ omap (stack_of (threads w)) (l ++ sl)) (stack_pool s)) ->
  wp (forkscan_proc_add_thread_data td s) (fun s' =>
    (exists v, tds s' !! td = Some (with_td_next v d)) /\
    process_inv (td :: l) sl (mk_process s' (Z.of_nat (length l) + 1) (g_total_wait_time_ms w))).
Proof using Type.
  intros [It _ _ _ Ir _ _] C Hlen [f3 I3]. pose proof (created_inv _ _ _ _ _ _ It C) as It'.
  pose proof (created_frame _ _ _ _ _ _ C) as Fm. pose proof C as [Hp Hnew Et _ [f1 C1] [f2 C2] Cr].
  assert (Hd : tds s !! td = Some d) by (rewrite Et; apply lookup_insert_eq).
  unfold forkscan_proc_add_thread_data. rewrite (list_init_id _ _ _ It').
  eapply wp_mono; [eapply (list_add_wp l sl s td d); [done | lia | done | done | unfold MAX_THREAD_COUNT in Hlen; lia] |].
  intros s' [I' (R & P1 & P2 & P3)]. destruct (R td d Hd) as [v Hv]. split; [by exists v |].
  assert (Fm' : same_memory (l ++ sl) (threads w) s').
  { intros q Hq. destruct (Fm q Hq) as [<- <-].
    assert (F2 : same_memory (l ++ sl) s s') by (apply relinked_memory; [intros r; by apply known | done]). by apply F2. }
  apply same_memory_omap in Fm' as [Ea Es].
  split; cbn [threads g_thread_count g_total_wait_time_ms].
  - done.
  - exists f1. by rewrite P1.
  - exists f2. cbn [app]. rewrite omap_cons_eq, Ea, P2. unfold array_of at 1. by rewrite Hv.
  - exists f3. cbn [app]. rewrite omap_cons_eq, Es, P3. unfold stack_of at 1. rewrite Hv.
    change (stack_is_ours (with_td_next v d)) with (stack_is_ours d). cbn. by destruct (stack_is_ours d =? 0).
  - intros q e He. apply not_elem_of_app in Hnew as [N1 N2].
    destruct (decide (q = td)) as [-> | Hne].
    + rewrite Hv in He. injection He as <-. by split.
    + assert (Hq : q ∈ l ++ sl -> exists d0 v, tds (threads w) !! q = Some d0 /\ e = with_td_next v d0).
      { intros Hq. destruct (known _ _ _ q It Hq) as [d0 Hd0]. destruct (R q d0) as [v0 Hv0].
        - rewrite Et. by rewrite lookup_insert_ne.
        - rewrite He in Hv0. injection Hv0 as ->. by exists d0, v0. }
      split; intros Hin.
      * apply elem_of_cons in Hin as [-> | Hin]; [done |].
        destruct Hq as (d0 & v0 & Hd0 & ->); [apply elem_of_app; by left |]. by apply (Ir q d0).
      * destruct Hq as (d0 & v0 & Hd0 & ->); [apply elem_of_app; by right |]. by apply (Ir q d0).
  - cbn [length]. lia.
  - cbn [length]. lia.
Qed.

(** libpthread's attribute functions succeed. *)
Definition attrs_work : Prop := attr_init = 0 /\ attr_getstack = 0 /\ forall a, attr_setstack a = 0.

Lemma thread_stack_wp l sl w a td d s :
  attrs_work -> process_inv l sl w -> room l sl w -> stack_pool s = stack_pool (threads w) ->
  created l sl (threads w) td d s ->
  wp (thread_stack a s) (fun '(stack, size, ours, s') => created l sl (threads w) td d s' /\
    (ours = 0 \/ ours = 1) /\ (ours = 0 -> (stack, size) = a) /\ (ours = 1 -> size = STACKSIZE) /\
    exists free, pool_inv STACKSIZE free ((if ours =? 0 then [] else [stack]) ++ omap (stack_of (threads w)) (l ++ sl)) (stack_pool s')).
Proof using Type.
  intros (_ & _ & Hset) [_ _ _ [f3 I3] _ _ _] (_ & _ & R3) Esp C. unfold thread_stack. destruct a as [stack size].
  destruct (stack =? 0).
  - unfold forkscan_buffer_makestack. wp_step. wp_step. rewrite Esp.
    eapply wp_mono; [eapply pool_alloc_wp; [done | unfold NSTACKS; lia | | exact I3 | exact R3]; unfold NSTACKS, STACKSIZE, INT_MAX; lia |].
    intros [p c] (Hp & _ & f & I). wp_step. rewrite Hset. cbn [Z.eqb negb]. wp_step.
    split; [| split; [by right | split; [done | split; [done | by exists f]]]].
    destruct C as [C1 C2 C3 C4 C5 C6 C7]. by split.
  - wp_step. split; [done |]. split; [by left |]. split; [done |]. split; [done |]. exists f3. by rewrite Esp.
Qed.

(** The record of a thread just created. *)
Definition new_record (a : Z * Z) (d : thread_data_t) : Prop :=
  is_active d = 0 /\ wait_time_ms d = 0 /\ ref_count d = 1 /\
  (if stack_is_ours d =? 0 then user_stack_low d = fst a /\ user_stack_high d = fst a + snd a
   else user_stack_high d = user_stack_low d + STACKSIZE).

Definition stack_attr (attr : option (Z * Z)) : Z * Z := default default_stack attr.

Lemma create_cases l sl w attr :
  attrs_work -> process_inv l sl w -> room l sl w -> Z.of_nat (length l) <= MAX_THREAD_COUNT ->
  exists td d s', (td ∉ l ++ sl) /\ tds s' !! td = Some d /\ new_record (stack_attr attr) d /\
    let w' := mk_process s' (Z.of_nat (length l) + 1) (g_total_wait_time_ms w) in
    process_inv (td :: l) sl w' /\
    pthread_create attr w =
      (let ret := orig_pthread_create td (user_stack_low d, user_stack_high d - user_stack_low d) in
       if ret =? 0 then Ok (0, w') else Err AssertFailed).
Proof using n_ok.
  intros Ha P R Hlen. pose proof Ha as (Hai & Hag & Has). pose proof (pi_count _ _ _ P) as Hcount.
  pose proof (data_new_wp l sl w P R) as H. apply wp_iff in H as ([td s] & E1 & Esp & d0 & C0).
  pose proof (created_modify _ _ _ _ _ _ (with_td_active 0) C0 ltac:(done)) as H.
  apply wp_iff in H as (s1 & E2 & C1 & Esp1). rewrite Esp in Esp1.
  pose proof (thread_stack_wp l sl w (stack_attr attr) td _ s1 Ha P R Esp1 C1) as H.
  apply wp_iff in H as ([[[stack size] ours] s2] & E3 & C2 & Ho & Hu & Hm & I3).
  pose proof (created_modify _ _ _ _ _ _ (with_td_stack ours stack (stack + size) 0) C2 ltac:(done)) as H.
  apply wp_iff in H as (s3 & E4 & C3 & Esp3). rewrite <- Esp3 in I3.
  pose proof (create_listed l sl w td _ s3 P C3 Hlen I3) as H.
  apply wp_iff in H as (s4 & E5 & (v & Hv) & P4).
  exists td, (with_td_next v (with_td_stack ours stack (stack + size) 0 (with_td_active 0 d0))), s4.
  split; [apply (cr_new _ _ _ _ _ _ C0) |]. split; [done |].
  assert (Hn : new_record (stack_attr attr) (with_td_next v (with_td_stack ours stack (stack + size) 0 (with_td_active 0 d0)))).
  { split; [done |]. split; [done |]. split; [apply (cr_ref _ _ _ _ _ _ C0) |]. cbn.
    destruct Ho as [-> | ->]; cbn; [by rewrite <- Hu | by rewrite Hm]. }
  split; [done |]. split; [done |]. cbn [user_stack_low user_stack_high with_td_next with_td_stack].
  replace (stack + size - stack) with size by lia.
  assert (Htd : (td =? 0) = false) by (pose proof (cr_pos _ _ _ _ _ _ C0); lia).
  assert (Ereal : real_attr attr = Ok (stack_attr attr)) by (unfold real_attr; rewrite Hai; by destruct attr).
  unfold MAX_THREAD_COUNT in Hlen.
  assert (Hcnt : to_int (u32 (g_thread_count w + 1)) = Z.of_nat (length l) + 1).
  { rewrite Hcount, u32_small by lia. apply to_int_small. unfold int_ok, INT_MIN, INT_MAX. lia. }
  unfold pthread_create. replace (MAX_THREAD_COUNT <? g_thread_count w) with false by (unfold MAX_THREAD_COUNT; lia).
  cbn [threads g_thread_count g_total_wait_time_ms]. rewrite E1, bind_ok, Htd, E2, bind_ok, Ereal, bind_ok, Hag.
  cbn [Z.eqb negb]. rewrite E3, bind_ok, E4, bind_ok, E5, bind_ok, Hcnt.
  destruct (orig_pthread_create td (stack, size) =? 0) eqn:Er; cbn [negb].
  - apply Z.eqb_eq in Er. by rewrite Er.
  - unfold td_load at 1. rewrite Htd, Hv, bind_ok. unfold forkscan_util_thread_data_free. rewrite Htd. cbn [negb assert].
    rewrite bind_ok. unfold td_load.
    assert (Hl : forall b : bool, tds (if b then forkscan_buffer_freestack stack s4 else s4) = tds s4) by by intros [].
    rewrite Htd, Hl, Hv, bind_ok. replace (ref_count _) with 1; [done |]. symmetry. apply (cr_ref _ _ _ _ _ _ C0).
Qed.

(** ** Start, exit, join *)

Lemma base_wp l sl w td d sp me : process_inv l sl w -> tds (threads w) !! td = Some d -> td <> 0 ->
  wp (forkscan_thread_base td sp me w) (fun w' => process_inv l sl w' /\
    tds (threads w') !! td = Some (with_td_start me (sp - Z.land sp (PAGESIZE - 1)) d)).
Proof using Type.
  intros [It I1 I2 I3 Ir Ic Il] Hd H0. unfold forkscan_thread_base. wp_step. eapply wp_td_modify; [done.. |]. wp_step.
  split; [| apply lookup_insert_eq].
  set (s' := set_tds _ _). assert (Fm : same_memory (l ++ sl) (threads w) s').
  { intros q _. unfold array_of, stack_of, s'. cbn. destruct (decide (td = q)) as [<- | Hne].
    - by rewrite lookup_insert_eq, Hd.
    - by rewrite lookup_insert_ne. }
  apply same_memory_omap in Fm as [Ea Es]. split; cbn [threads].
  - by eapply inv_same_link.
  - done.
  - by rewrite Ea.
  - by rewrite Es.
  - intros q e. unfold s'. cbn. destruct (decide (td = q)) as [<- | Hne].
    + rewrite lookup_insert_eq. intros [= <-]. exact (Ir td d Hd).
    + rewrite lookup_insert_ne by done. by apply Ir.
  - done.
  - done.
Qed.

Lemma exit_wp l1 td l2 sl w d : process_inv (l1 ++ td :: l2) sl w -> tds (threads w) !! td = Some d ->
  wp (exit_wrapper td w) (fun w' => process_inv (l1 ++ l2) (td :: sl) w' /\
    g_total_wait_time_ms w' = u64 (g_total_wait_time_ms w + wait_time_ms d) /\
    exists v, tds (threads w') !! td = Some (exited v d)).
Proof using Type.
  intros [It [f1 I1] [f2 I2] [f3 I3] Ir Ic Il] Hd.
  destruct (Ir td d Hd) as [Hr _]. specialize (Hr (elem_of_mid _ _ _)). unfold exit_wrapper. wp_step.
  eapply wp_mono; [by apply (thread_cleanup_wp l1 l2 sl (threads w) td d) |].
  intros [t s'] (-> & It' & (v & Hv) & F & P1 & P2 & P3). wp_step.
  assert (Hnin : td ∉ (l1 ++ l2) ++ sl).
  { pose proof (th_nodup _ _ _ It) as Hnd. rewrite <- app_assoc in Hnd |- *. cbn in Hnd.
    rewrite <- Permutation_middle in Hnd. by apply NoDup_cons in Hnd as [? _]. }
  assert (Fm : same_memory ((l1 ++ td :: l2) ++ sl) (threads w) s').
  { intros q Hq. unfold array_of, stack_of. destruct (decide (q = td)) as [-> | Hne]; [by rewrite Hv, Hd |].
    destruct (known _ _ _ q It Hq) as [e He]. destruct (F q e Hne He) as [v' Hv']. by rewrite Hv', He. }
  apply same_memory_omap in Fm as [Ea Es].
  assert (Hperm : Permutation ((l1 ++ td :: l2) ++ sl) ((l1 ++ l2) ++ td :: sl)).
  { rewrite <- !app_assoc. cbn. rewrite <- !Permutation_middle. by rewrite app_assoc. }
  split; [| split; [done | by exists v]]. split; cbn [threads g_thread_count].
  - done.
  - exists f1. rewrite P1. by eapply pool_inv_perm.
  - exists f2. rewrite P2. eapply pool_inv_perm; [| exact I2]. by rewrite <- Ea, Hperm.
  - exists f3. rewrite P3. eapply pool_inv_perm; [| exact I3]. by rewrite <- Es, Hperm.
  - intros q e He. destruct (decide (q = td)) as [-> | Hne].
    + rewrite Hv in He. injection He as <-. split; [| done]. intros Hin. exfalso. apply Hnin, elem_of_app. by left.
    + assert (Hq : q ∈ (l1 ++ td :: l2) ++ sl -> exists e0, tds (threads w) !! q = Some e0 /\ ref_count e = ref_count e0).
      { intros Hq. destruct (known _ _ _ q It Hq) as [e0 He0]. destruct (F q e0 Hne He0) as [v' Hv'].
        rewrite He in Hv'. injection Hv' as ->. by exists e0. }
      split; intros Hin.
      * assert (Hin' : q ∈ l1 ++ td :: l2) by (apply in_mid; by right).
        destruct Hq as (e0 & He0 & ->); [apply elem_of_app; by left |]. by apply (Ir q e0).
      * apply elem_of_cons in Hin as [-> | Hin]; [done |].
        destruct Hq as (e0 & He0 & ->); [apply elem_of_app; by right |]. by apply (Ir q e0).
  - pose proof (th_small _ _ _ It) as Hs. rewrite length_app in Ic, Hs. cbn [length] in Ic, Hs. rewrite Ic, length_app.
    rewrite u32_small by lia. unfold MAX_THREAD_COUNT in Il. rewrite length_app in Il. cbn [length] in Il.
    rewrite to_int_small by (unfold int_ok, INT_MIN, INT_MAX; lia). lia.
  - rewrite length_app in Il |- *. cbn [length] in Il. lia.
Qed.

Lemma joined_wp l sl1 td sl2 w d ret : process_inv l (sl1 ++ td :: sl2) w -> tds (threads w) !! td = Some d ->
  (forall q e, q ∈ sl1 -> tds (threads w) !! q = Some e -> self e <> self d) ->
  wp (pthread_join (self d) ret w) (fun '(r, w') => r = ret /\ process_inv l (sl1 ++ sl2) w' /\
    g_thread_count w' = g_thread_count w).
Proof using Type.
  intros [It [f1 I1] [f2 I2] [f3 I3] Ir Ic Il] Hd Hother.
  destruct (Ir td d Hd) as [_ Hr]. specialize (Hr (elem_of_mid _ _ _)). unfold pthread_join. wp_step.
  eapply wp_mono; [by apply (join_wp l sl1 td sl2 (threads w) d) |].
  intros s' (It' & F & P1 & P2 & P3). wp_step. split; [done |]. split; [| done].
  assert (Fm : same_memory (l ++ sl1 ++ td :: sl2) (threads w) s') by (apply relinked_memory; [intros q; by apply known | done]).
  apply same_memory_omap in Fm as [Ea Es].
  assert (Hperm : Permutation (l ++ sl1 ++ td :: sl2) (td :: l ++ sl1 ++ sl2)).
  { rewrite <- !Permutation_middle. done. }
  destruct (F td d Hd) as [v Hv].
  split; cbn [threads g_thread_count].
  - done.
  - exists (td :: f1). rewrite P1. apply free_ok. by eapply pool_inv_perm.
  - exists (ptr_list_e d :: f2). rewrite P2. apply free_ok. eapply pool_inv_perm; [| exact I2].
    rewrite <- Ea, Hperm, omap_cons_eq. unfold array_of at 1. by rewrite Hv.
  - assert (Hp3 : Permutation (omap (stack_of (threads w)) (l ++ sl1 ++ td :: sl2))
      ((if stack_is_ours d =? 0 then [] else [user_stack_low d]) ++ omap (stack_of s') (l ++ sl1 ++ sl2))).
    { rewrite <- Es, Hperm, omap_cons_eq. unfold stack_of at 1. rewrite Hv.
      change (stack_is_ours (with_td_next v d)) with (stack_is_ours d). cbn. by destruct (stack_is_ours d =? 0). }
    rewrite P3. destruct (stack_is_ours d =? 0).
    + exists f3. eapply pool_inv_perm; [exact Hp3 | done].
    + exists (user_stack_low d :: f3). apply free_ok. eapply pool_inv_perm; [exact Hp3 | done].
  - intros q e He. split; intros Hin.
    + destruct (known _ _ _ q It) as [e0 He0]; [apply elem_of_app; by left |].
      destruct (F q e0 He0) as [v' Hv']. rewrite He in Hv'. injection Hv' as ->. by apply (Ir q e0).
    + assert (Hin' : q ∈ sl1 ++ td :: sl2) by (apply in_mid; by right).
      destruct (known _ _ _ q It) as [e0 He0]; [apply elem_of_app; by right |].
      destruct (F q e0 He0) as [v' Hv']. rewrite He in Hv'. injection Hv' as ->. by apply (Ir q e0).
  - done.
  - done.
Qed.

(** ** The first thread *)

(** Up to its [forkscan_thread_base]; [low] is what
    [forkscan_proc_stack_from_addr] finds. *)
Definition main_replacement (low : Z) (w : process_t) : res (Z * process_t) :=
  let! ' (td, s) := forkscan_util_thread_data_new n (threads w) in
  if td =? 0 then Err Fatal else
  let! s := td_modify s td (fun d => with_td_stack (stack_is_ours d) low (user_stack_high d) (wait_time_ms d) d) in
  let! s := forkscan_proc_add_thread_data td s in
  Ok (td, mk_process s (g_thread_count w) (g_total_wait_time_ms w)).

(** Nothing has been allocated, [g_thread_count] counts the thread that is
    about to run [main]. *)
Definition process_start (m1 m2 m3 : list Z) : process_t :=
  mk_process (mk_threads ∅ 0 0 0 (mk_pool ∅ 0 m1) (mk_pool ∅ 0 m2) (mk_pool ∅ 0 m3)) 1 0.

Lemma nothing_inv m1 m2 m3 : process_inv [] []
  (mk_process (threads (process_start m1 m2 m3)) 0 0).
Proof using Type.
  split; [split; try done; apply NoDup_nil_2 | exists []; apply empty_pool_inv.. | | done | done].
  intros td d _. split; intros H; by apply not_elem_of_nil in H.
Qed.

Lemma main_wp low m1 m2 m3 : 0 < hd 0 m1 -> 0 < hd 0 m2 ->
  wp (main_replacement low (process_start m1 m2 m3)) (fun '(td, w) => process_inv [td] [] w).
Proof using n_ok.
  intros H1 H2. set (w0 := process_start m1 m2 m3). pose proof (nothing_inv m1 m2 m3) as P0.
  unfold main_replacement. wp_step.
  assert (Hpool : forall sz b m, 0 < hd 0 m -> can_alloc sz b [] (mk_pool ∅ 0 m)).
  { intros sz b [|arr m] Hm _; [cbn in Hm; lia |]. exists arr, m. split; [done |]. split; [done |].
    intros a Ha. by apply not_elem_of_nil in Ha. }
  unfold forkscan_util_thread_data_new. cbn [threads w0 process_start threaddata_pool ptrlist_pool]. wp_step.
  eapply wp_mono; [apply (pool_alloc_wp MEMBLOCK_SIZE 8 [] []); try done; [apply empty_pool_inv | by apply Hpool] |].
  intros [td a] (Htd & _ & f1 & I1). wp_step.
  eapply wp_mono; [apply (pool_alloc_wp (n * WORD) 8 [] []); [unfold WORD; lia | lia | unfold WORD, INT_MAX; lia | apply empty_pool_inv | by apply Hpool] |].
  intros [e b] (_ & _ & f2 & I2). wp_step. 
  replace (td =? 0) with false by lia. wp_step.
  eapply wp_td_modify; [lia | apply lookup_insert_eq |]. wp_step.
  eapply wp_mono; [eapply (create_listed [] [] (mk_process (threads w0) 0 0) td); [exact P0 | split; cbn | done |] |].
  - done.
  - apply not_elem_of_nil.
  - by rewrite insert_insert_eq.
  - done.
  - by exists f1.
  - by exists f2.
  - done.
  - cbn. exists []. apply empty_pool_inv.
  - intros s (_ & P). wp_step. exact P.
Qed.

(** * Steps *)

(** The calls threads make, in any order; the steps say which calls are
    made, not what they answer. *)
Inductive process_step (w : process_t) : process_t -> Prop :=
  | step_create attr ret w' : (forall l sl, process_inv l sl w -> room l sl w) ->
      pthread_create attr w = Ok (ret, w') -> process_step w w'
  | step_base l td sp me w' : lchain td_next (tds (threads w)) (head (threads w)) l -> td ∈ l ->
      forkscan_thread_base td sp me w = Ok w' -> process_step w w'
  | step_exit l td w' : lchain td_next (tds (threads w)) (head (threads w)) l -> td ∈ l ->
      exit_wrapper td w = Ok w' -> process_step w w'
  | step_join tid ret w' : pthread_join tid ret w = Ok (ret, w') -> process_step w w'.

Lemma step_preserves l sl w w' : attrs_work -> process_inv l sl w -> process_step w w' ->
  exists l' sl', process_inv l' sl' w'.
Proof using n_ok.
  intros Ha P [attr ret w1 R E | l1 td sp me w1 Hc Hin E | l1 td w1 Hc Hin E | tid ret w1 E].
  - pose proof (pi_count _ _ _ P) as Hn. destruct (Z.leb_spec (Z.of_nat (length l)) MAX_THREAD_COUNT) as [Hle | Hgt].
    + destruct (create_cases l sl w attr Ha P (R l sl P) Hle) as (td & d & s' & _ & _ & _ & P' & E').
      rewrite E' in E. cbn zeta in E. destruct (orig_pthread_create td _ =? 0); [| done]. injection E as <- <-. by eexists _, _.
    + unfold pthread_create in E. rewrite Hn in E. by replace (MAX_THREAD_COUNT <? Z.of_nat (length l)) with true in E by lia.
  - rewrite (lchain_unique _ _ _ _ _ Hc (th_chain _ _ _ (pi_threads _ _ _ P))) in Hin.
    destruct (lchain_some _ _ _ _ td (th_chain _ _ _ (pi_threads _ _ _ P)) Hin) as (H0 & d & Hd).
    pose proof (base_wp l sl w td d sp me P Hd H0) as H. rewrite E in H. destruct H as [P' _]. by eexists _, _.
  - rewrite (lchain_unique _ _ _ _ _ Hc (th_chain _ _ _ (pi_threads _ _ _ P))) in Hin.
    destruct (lchain_some _ _ _ _ td (th_chain _ _ _ (pi_threads _ _ _ P)) Hin) as (H0 & d & Hd).
    apply list_elem_of_split in Hin as (k1 & k2 & ->).
    pose proof (exit_wp k1 td k2 sl w d P Hd) as H. rewrite E in H. destruct H as [P' _]. by eexists _, _.
  - pose proof (join_split l sl (threads w) tid (pi_threads _ _ _ P)) as [(sl1 & td & sl2 & d & -> & Hd & <- & Hn) | [_ Herr]].
    + pose proof (joined_wp l sl1 td sl2 w d ret P Hd Hn) as H. rewrite E in H. destruct H as (_ & P' & _). by eexists _, _.
    + unfold pthread_join in E. by rewrite Herr in E.
Qed.
End wrappers.

(** * Properties *)

(** [pthread_create] with room for one more thread: the new thread is listed
    and counted, with a record, a queue and a stack that no other thread has.
    If libpthread then fails, the record is freed with its reference still on
    it, which is a failed assertion. *)
Theorem pthread_create_correct n attr_init attr_getstack default_stack attr_setstack orig l sl w attr :
  1 <= n <= 2 ^ 20 -> attrs_work attr_init attr_getstack attr_setstack ->
  process_inv n l sl w -> room n l sl w -> Z.of_nat (length l) <= MAX_THREAD_COUNT ->
  exists td d w', (td ∉ l ++ sl) /\ tds (threads w') !! td = Some d /\ new_record (stack_attr default_stack attr) d /\
    process_inv n (td :: l) sl w' /\
    pthread_create n attr_init attr_getstack default_stack attr_setstack orig attr w =
      if orig td (user_stack_low d, user_stack_high d - user_stack_low d) =? 0 then Ok (0, w') else Err AssertFailed.
Proof.
  intros Hn Ha P R Hlen.
  destruct (create_cases n attr_init attr_getstack default_stack attr_setstack orig Hn l sl w attr Ha P R Hlen)
    as (td & d & s' & H1 & H2 & H3 & H4 & H5). by exists td, d, (mk_process s' (Z.of_nat (length l) + 1) (g_total_wait_time_ms w)).
Qed.

(** C29: A thread's whole life, creation, start, exit and join, gives back all it
    took: the threads known are those of before, and so are the chunks in use
    of the three pools. *)
Theorem thread_life_roundtrip n attr_init attr_getstack default_stack attr_setstack l sl w attr sp me ret :
  1 <= n <= 2 ^ 20 -> attrs_work attr_init attr_getstack attr_setstack ->
  process_inv n l sl w -> room n l sl w -> Z.of_nat (length l) <= MAX_THREAD_COUNT ->
  exists td w1 w2 w3 w4,
    pthread_create n attr_init attr_getstack default_stack attr_setstack (fun _ _ => 0) attr w = Ok (0, w1) /\
    process_inv n (td :: l) sl w1 /\
    forkscan_thread_base td sp me w1 = Ok w2 /\ exit_wrapper td w2 = Ok w3 /\
    process_inv n l (td :: sl) w3 /\
    pthread_join me ret w3 = Ok (ret, w4) /\ process_inv n l sl w4 /\ g_thread_count w4 = g_thread_count w.
Proof.
  intros Hn Ha P R Hlen.
  destruct (create_cases n attr_init attr_getstack default_stack attr_setstack (fun _ _ => 0) Hn l sl w attr Ha P R Hlen)
    as (td & d & s' & H1 & H2 & H3 & P1 & E1). cbn [Z.eqb] in E1. set (w1 := mk_process s' _ _) in *.
  destruct (lchain_app _ _ _ [] _ _ (th_chain _ _ _ (pi_threads _ _ _ _ P1))) as (H0 & _).
  pose proof (base_wp n (td :: l) sl w1 td d sp me P1 H2 H0) as H. apply wp_iff in H as (w2 & E2 & P2 & Hd2).
  pose proof (exit_wp n [] td l sl w2 _ P2 Hd2) as H. apply wp_iff in H as (w3 & E3 & P3 & _ & (v & Hd3)).
  pose proof (joined_wp n l [] td sl w3 _ ret P3 Hd3) as H.
  apply wp_iff in H as ([r w4] & E4 & -> & P4 & Ec); [| intros q e Hq; by apply not_elem_of_nil in Hq].
  exists td, w1, w2, w3, w4. do 6 (split; [done |]). split; [exact P4 |].
  rewrite (pi_count _ _ _ _ P4), (pi_count _ _ _ _ P). done.
Qed.

(** C16: Whatever threads create, start, exit and join, in any order, no two of
    them, running or exited and not yet joined, ever share a record, a queue
    or a stack of the pools, and the count of threads is that of those
    running: at most 257, one more than the limit announced. *)
Theorem threads_share_nothing n attr_init attr_getstack default_stack attr_setstack orig low m1 m2 m3 td0 w0 w :
  1 <= n <= 2 ^ 20 -> attrs_work attr_init attr_getstack attr_setstack -> 0 < hd 0 m1 -> 0 < hd 0 m2 ->
  main_replacement n low (process_start m1 m2 m3) = Ok (td0, w0) ->
  rtc (process_step n attr_init attr_getstack default_stack attr_setstack orig) w0 w ->
  exists l sl, process_inv n l sl w.
Proof.
  intros Hn Ha H1 H2 E0 Hsteps. pose proof (main_wp n Hn low m1 m2 m3 H1 H2) as H. rewrite E0 in H.
  assert (P0 : exists l sl, process_inv n l sl w0) by (by exists [td0], []).
  clear E0 H. induction Hsteps as [w | w w1 w2 Hs _ IH]; [done |]. apply IH. destruct P0 as (l & sl & P).
  by eapply step_preserves.
Qed.

(** ** Witnesses *)

Definition demo_start : process_t := process_start [0x100000] [0x1000000] [0x10000000].

Definition demo_main : process_t :=
  match main_replacement 1024 0x7000 demo_start with Ok (_, w) => w | Err _ => demo_start end.

Lemma demo_main_inv : process_inv 1024 [0x100000] [] demo_main.
Proof.
  pose proof (main_wp 1024 ltac:(lia) 0x7000 [0x100000] [0x1000000] [0x10000000] ltac:(done) ltac:(done)) as H.
  unfold demo_main. fold demo_start in H. 
  assert (E : exists w, main_replacement 1024 0x7000 demo_start = Ok (0x100000, w)) by (eexists; vm_compute; reflexivity).
  destruct E as [w E]. rewrite E in *. exact H.
Qed.

Lemma demo_room : room 1024 [0x100000] [] demo_main.
Proof.
  split; [| split]; intros I.
  - pose proof (po_chain _ _ _ _ I) as Hc. cbn [lchain] in Hc. by vm_compute in Hc.
  - pose proof (po_chain _ _ _ _ I) as Hc. cbn [lchain] in Hc. by vm_compute in Hc.
  - exists 0x10000000, []. split; [by vm_compute |]. split; [done |]. intros a Ha.
    replace (omap (stack_of (threads demo_main)) ([0x100000] ++ [])) with ([] : list Z) in Ha by by vm_compute.
    by apply not_elem_of_nil in Ha.
Qed.

Lemma demo_attrs : attrs_work 0 0 (fun _ => 0).
Proof. done. Qed.

Lemma pthread_create_correct_witness :
  exists td d w', (td ∉ [0x100000]) /\ tds (threads w') !! td = Some d /\ new_record (0, 0) d /\
    process_inv 1024 [td; 0x100000] [] w' /\
    pthread_create 1024 0 0 (0, 0) (fun _ => 0) (fun _ _ => 11) None demo_main = Err AssertFailed.
Proof.
  destruct (pthread_create_correct 1024 0 0 (0, 0) (fun _ => 0) (fun _ _ => 11) [0x100000] [] demo_main None)
    as (td & d & w' & H1 & H2 & H3 & H4 & H5); [done | done | apply demo_main_inv | apply demo_room | done |].
  exists td, d, w'. split; [exact H1 |]. split; [exact H2 |]. split; [exact H3 |]. split; [exact H4 | exact H5].
Defined.

Lemma thread_life_roundtrip_witness :
  exists td w1 w2 w3 w4, pthread_create 1024 0 0 (0, 0) (fun _ => 0) (fun _ _ => 0) None demo_main = Ok (0, w1) /\
    forkscan_thread_base td 0x10200ff8 5 w1 = Ok w2 /\ exit_wrapper td w2 = Ok w3 /\
    pthread_join 5 0 w3 = Ok (0, w4) /\ process_inv 1024 [0x100000] [] w4 /\ g_thread_count w4 = 1.
Proof.
  destruct (thread_life_roundtrip 1024 0 0 (0, 0) (fun _ => 0) [0x100000] [] demo_main None 0x10200ff8 5 0)
    as (td & w1 & w2 & w3 & w4 & E1 & _ & E2 & E3 & _ & E4 & P4 & Ec);
    [done | done | apply demo_main_inv | apply demo_room | done |].
  exists td, w1, w2, w3, w4. split; [exact E1 |]. split; [exact E2 |]. split; [exact E3 |]. split; [exact E4 |].
  split; [exact P4 |]. rewrite Ec. exact (pi_count _ _ _ _ demo_main_inv).
Defined.

Lemma threads_share_nothing_witness : exists l sl, process_inv 1024 l sl
  (match pthread_create 1024 0 0 (0, 0) (fun _ => 0) (fun _ _ => 0) None demo_main with Ok (_, w) => w | Err _ => demo_main end).
Proof.
  eapply (threads_share_nothing 1024 0 0 (0, 0) (fun _ => 0) (fun _ _ => 0) 0x7000 [0x100000] [0x1000000] [0x10000000] 0x100000 demo_main);
    [done | done | done | done | by vm_compute |].
  eapply rtc_once, (step_create _ _ _ _ _ _ _ None 0).
  - intros l sl P. pose proof (lchain_unique _ _ _ _ _ (th_chain _ _ _ (pi_threads _ _ _ _ P)) (th_chain _ _ _ (pi_threads _ _ _ _ demo_main_inv))) as ->.
    pose proof (th_staged _ _ _ (pi_threads _ _ _ _ P)) as Hs. destruct sl as [|x sl]; [exact demo_room |].
    destruct Hs as (E & Hx & _). vm_compute in E. by subst x.
  - by vm_compute.
Defined.
