(* ===== verification/Startup.v ===== *)
(** wrappers.c, frontend.c, proc.c, forkscan.c: how the library starts with
    the process and ends with it.

    The four constructors run before [main], by their priorities; the
    [__libc_start_main] of the library starts the collector and hands the
    C library a replacement for [main]; a destructor kills a scanning process
    that is left over.  The dynamic linker's answers, [signal], [fork] and the
    user's [main] are parameters; a call through a null function pointer is a
    [NullDeref]. *)
From Stdlib Require Import String Sorted.
From stdpp Require Import sorting.
From S2P Require Import Prelude Queue Env Stats Buffer Threads Wrappers.

(** * The variables the constructors set *)

(** The pointers to the functions of the C library that are wrapped. *)
Record wrapped_t : Type := mk_wrapped {
  orig_pthread_create : Z;
  orig_pthread_exit : Z;
  orig_pthread_join : Z;
  orig_libc_start_main : Z }.

(** [config_t] *)
Record config_t : Type := mk_config {
  config_max_ptrs : Z;
  config_auto_run : Z;
  working_buffer_sz : Z }.

Record glue_t : Type := mk_glue {
  settings : env_t;
  list_head : Z;               (* thread_list.head *)
  wrapped : wrapped_t;
  has_handler : bool;          (* of SIGFORKSCAN *)
  config : config_t;
  orig_main : Z }.

(** Static variables begin as zeros; [thread_list.head] is given. *)
Definition loaded (head : Z) : glue_t :=
  mk_glue (mk_env 0 0 0 0) head (mk_wrapped 0 0 0 0) false (mk_config 0 0 0) 0.

Section startup.

(** [dlsym(RTLD_NEXT, _)], and whether [signal] accepts the handler. *)
Context (getenv : string -> option string) (dlsym : string -> Z) (signal_ok : bool).

Definition env_constructor (g : glue_t) : res glue_t :=
  let! cfg := env_init getenv in
  Ok (mk_glue cfg (list_head g) (wrapped g) (has_handler g) (config g) (orig_main g)).

Definition proc_init (g : glue_t) : res glue_t :=
  Ok (mk_glue (settings g) 0 (wrapped g) (has_handler g) (config g) (orig_main g)).

Definition do_wrapper_replacement (g : glue_t) : res glue_t :=
  let origs := mk_wrapped (dlsym "pthread_create") (dlsym "pthread_exit") (dlsym "pthread_join") (dlsym "__libc_start_main") in
  Ok (mk_glue (settings g) (list_head g) origs (has_handler g) (config g) (orig_main g)).

Definition register_signal_handlers (g : glue_t) : res glue_t :=
  if negb signal_ok then Err Fatal else
  let! m := int_chk (g_forkscan_ptrs_per_thread (settings g) * MAX_THREAD_COUNT) in
  let sz := u64 (u64 (u64 m * WORD) + PAGESIZE) in
  Ok (mk_glue (settings g) (list_head g) (wrapped g) true (mk_config m 1 sz) (orig_main g)).

(** The constructors with their priorities; those of lower number run first,
    those of one number in an order of the linker's choice. *)
Definition constructors : list (Z * (glue_t -> res glue_t)) :=
  [(101, env_constructor); (101, proc_init); (101, do_wrapper_replacement); (201, register_signal_handlers)].

Fixpoint run_constructors (order : list (Z * (glue_t -> res glue_t))) (g : glue_t) : res glue_t :=
  match order with
  | [] => Ok g
  | (_, f) :: order => let! g := f g in run_constructors order g
  end.

Definition priority_order (order : list (Z * (glue_t -> res glue_t))) : Prop :=
  order ≡ₚ constructors /\ StronglySorted Z.le order.*1.

(** The state they leave. *)
Definition started (cfg : env_t) : glue_t :=
  mk_glue cfg 0 (mk_wrapped (dlsym "pthread_create") (dlsym "pthread_exit") (dlsym "pthread_join") (dlsym "__libc_start_main"))
    true (mk_config (g_forkscan_ptrs_per_thread cfg * MAX_THREAD_COUNT) 1
            (8 * (g_forkscan_ptrs_per_thread cfg * MAX_THREAD_COUNT) + PAGESIZE)) 0.

(** The constructor with the highest number is the last. *)
Lemma order_last order : priority_order order ->
  exists l, order = l ++ [(201, register_signal_handlers)] /\
    l ≡ₚ [(101, env_constructor); (101, proc_init); (101, do_wrapper_replacement)].
Proof using Type.
  intros [Hp Hs]. pose proof (Permutation_length Hp) as Hlen.
  induction order as [| [k f] l _] using rev_ind; [done |].
  assert (Hk : k = 201).
  { assert (H201 : (201, register_signal_handlers) ∈ l ++ [(k, f)]) by (rewrite Hp; unfold constructors; set_solver).
    assert (Hin : (k, f) ∈ constructors) by (rewrite <- Hp; apply elem_of_app; right; left).
    apply elem_of_app in H201 as [H201 | H201%list_elem_of_singleton]; [| congruence].
    rewrite fmap_app in Hs. apply StronglySorted_app in Hs as (Hle & _ & _).
    assert (201 <= k).
    { apply (Hle 201 k); [apply list_elem_of_fmap; by exists (201, register_signal_handlers) | left]. }
    unfold constructors in Hin. set_unfold in Hin. destruct Hin as [[= -> _] | [[= -> _] | [[= -> _] | [[= -> _] | []]]]]; lia. }
  subst k. exists l. assert (Hin : (201, f) ∈ constructors) by (rewrite <- Hp; apply elem_of_app; right; left).
  unfold constructors in Hin. set_unfold in Hin. destruct Hin as [[=] | [[=] | [[=] | [[= ->] | []]]]].
  split; [done |]. apply (Permutation_app_inv_r [(201, register_signal_handlers)]). exact Hp.
Qed.

(** Two constructors whose order does not matter. *)
Definition commute (f h : glue_t -> res glue_t) : Prop :=
  forall g, (let! g1 := f g in h g1) = (let! g1 := h g in f g1).

Lemma bind_assoc {A B C} (m : res A) (k : A -> res B) (k' : B -> res C) :
  (let! b := (let! a := m in k a) in k' b) = (let! a := m in let! b := k a in k' b).
Proof using Type. by destruct m. Qed.

Lemma run_permuted l l' : l ≡ₚ l' -> (forall x y, x ∈ l -> y ∈ l -> commute x.2 y.2) ->
  forall g, run_constructors l g = run_constructors l' g.
Proof using Type.
  intros Hp. induction Hp as [| [k f] l l' Hp IH | [k f] [k' h] l | l1 l2 l3 H1 IH1 H2 IH2]; intros Hc g; cbn.
  - done.
  - destruct (f g) as [g1 |]; [| done]. rewrite !bind_ok. apply IH. intros x y Hx Hy. apply Hc; by right.
  - rewrite <- !bind_assoc. pose proof (Hc (k', h) (k, f) ltac:(left) ltac:(right; left) g) as E. cbn in E. by rewrite E.
  - rewrite IH1 by done. apply IH2. intros x y Hx Hy. apply Hc; by rewrite H1.
Qed.

Lemma constructors_commute x y :
  x ∈ [(101, env_constructor); (101, proc_init); (101, do_wrapper_replacement)] ->
  y ∈ [(101, env_constructor); (101, proc_init); (101, do_wrapper_replacement)] -> commute x.2 y.2.
Proof using Type.
  intros Hx Hy g. unfold env_constructor, proc_init, do_wrapper_replacement in *.
  set_unfold in Hx. set_unfold in Hy.
  destruct Hx as [-> | [-> | [-> | []]]], Hy as [-> | [-> | [-> | []]]]; cbn; by destruct (env_init getenv).
Qed.

Lemma run_snoc l k f g : run_constructors (l ++ [(k, f)]) g = let! g1 := run_constructors l g in f g1.
Proof using Type.
  revert g. induction l as [| [k' h] l IH]; intros g; cbn; [rewrite bind_ok; by destruct (f g) |].
  destruct (h g); [| done]. by rewrite !bind_ok.
Qed.

(** The settings are within their bounds whenever [env_init] returns. *)
Lemma env_ptrs_range cfg : env_init getenv = Ok cfg ->
  MIN_PTRS_PER_THREAD <= g_forkscan_ptrs_per_thread cfg <= MAX_PTRS_PER_THREAD.
Proof using Type.
  unfold env_init. destruct (init_ptrs_per_thread getenv) as [p |] eqn:Ep; [| done]. rewrite bind_ok.
  destruct (init_report_statistics getenv); [| done]. rewrite bind_ok.
  destruct (init_throttling_queue getenv); [| done]. rewrite bind_ok.
  destruct (init_max_children getenv); [| done]. intros [= <-]. cbn.
  unfold init_ptrs_per_thread, bind in Ep. destruct (get_int _ _); [| done]. destruct (int_chk _); [| done].
  destruct (round_up_pow2 _) as [q |]; [| done]. injection Ep as <-. unfold MIN_PTRS_PER_THREAD, MAX_PTRS_PER_THREAD.
  destruct (Z.ltb_spec q 1024); [lia |]. destruct (Z.gtb_spec q (1024 * 1024)); lia.
Qed.

Lemma run_in_order order head : priority_order order ->
  run_constructors order (loaded head) =
    match env_init getenv with
    | Err e => Err e
    | Ok cfg => if signal_ok then Ok (started cfg) else Err Fatal
    end.
Proof using Type.
  intros Ho. destruct (order_last order Ho) as (l & -> & Hp). rewrite run_snoc.
  rewrite (run_permuted _ _ Hp); [| intros x y; rewrite Hp; apply constructors_commute].
  cbn. unfold env_constructor, proc_init, do_wrapper_replacement. destruct (env_init getenv) as [cfg |] eqn:E; [| done].
  rewrite !bind_ok. cbn. pose proof (env_ptrs_range cfg E) as Hr.
  unfold register_signal_handlers. destruct signal_ok; [| done]. cbn [negb settings].
  unfold MIN_PTRS_PER_THREAD, MAX_PTRS_PER_THREAD, MAX_THREAD_COUNT, WORD, PAGESIZE in *.
  rewrite int_chk_ok by (unfold int_ok, INT_MIN, INT_MAX; lia). rewrite bind_ok. unfold started, MAX_THREAD_COUNT, PAGESIZE. do 3 f_equal.
  rewrite (u64_small (_ * 256)), (u64_small (_ * 8)), u64_small by (unfold size_ok; lia). lia.
Qed.

(** * Into [main], and out of it *)

Definition call (f : Z) : res unit := if f =? 0 then Err NullDeref else Ok tt.

(** [ret] is what [orig_pthread_create] answers for the collector's thread. *)
Definition __libc_start_main (ret main : Z) (g : glue_t) : res glue_t :=
  call (orig_pthread_create (wrapped g)) ;!
  if negb (ret =? 0) then Err Fatal else
  let g := mk_glue (settings g) (list_head g) (wrapped g) (has_handler g) (config g) main in
  call (orig_libc_start_main (wrapped g)) ;!
  Ok g.

(** [ret] is what the user's [main] returns; the result is the argument of
    [exit]. *)
Definition main_thunk (ret : Z) (file : option string) (s : stats_t) (g : glue_t) (o : io_t) : res (Z * io_t) :=
  call (orig_main g) ;!
  let! o := (if negb (g_forkscan_report_statistics (settings g) =? 0) then forkscan_print_statistics file s o else Ok o) in
  Ok (ret, o).

End startup.

(** The destructor: the signals it sends, to whom. *)
Definition process_death (child_pid : Z) : list (Z * Z) :=
  if child_pid >? 0 then [(child_pid, 9)] else [].

(** [child_pid = fork()] and its tests: the value stored, and whether this
    process is the one that scans. *)
Definition fork_for_scan (pid : Z) : res (Z * bool) :=
  if pid =? -1 then Err Fatal else Ok (pid, pid =? 0).

(** * Properties *)

(** In whatever order the linker runs constructors of the same priority,
    the library is set up before [main]: the settings are those of the
    environment, the wrapped functions are known, the handler is registered,
    and the working buffer has room for a full queue of each of
    [MAX_THREAD_COUNT] threads; then the collector runs, and the only thread
    in the list of threads is the one that will run [main]. *)
Theorem startup_complete getenv dlsym order head main low m1 m2 m3 cfg :
  priority_order getenv dlsym true order -> env_init getenv = Ok cfg ->
  (forall f, dlsym f <> 0) -> 0 < hd 0 m1 -> 0 < hd 0 m2 ->
  exists g, run_constructors order (loaded head) = Ok g /\ g = started dlsym cfg /\
    config_max_ptrs (config g) = g_forkscan_ptrs_per_thread cfg * MAX_THREAD_COUNT /\ config_max_ptrs (config g) <= INT_MAX /\
    (exists g', __libc_start_main 0 main g = Ok g' /\ orig_main g' = main) /\
    exists td w, main_replacement (g_forkscan_ptrs_per_thread (settings g)) low (process_start m1 m2 m3) = Ok (td, w) /\
      process_inv (g_forkscan_ptrs_per_thread (settings g)) [td] [] w.
Proof.
  intros Ho E Hd H1 H2. exists (started dlsym cfg). rewrite (run_in_order getenv dlsym true order head Ho), E.
  do 2 (split; [done |]). pose proof (env_ptrs_range getenv cfg E) as Hr. unfold MIN_PTRS_PER_THREAD, MAX_PTRS_PER_THREAD in Hr.
  split; [done |]. split; [cbn; unfold MAX_THREAD_COUNT, INT_MAX; lia |]. split.
  - unfold __libc_start_main, call. cbn. rewrite !(proj2 (Z.eqb_neq _ _)) by apply Hd. rewrite !bind_ok. by eexists.
  - cbn [settings started]. pose proof (main_wp (g_forkscan_ptrs_per_thread cfg)) as W.
    destruct (proj1 (wp_iff _ _) (W ltac:(lia) low m1 m2 m3 H1 H2)) as ([td w] & Em & I). by exists td, w.
Qed.

(** [register_signal_handlers] needs its higher number: before [env_init] it
    would make room for no pointers at all. *)
Lemma handlers_first_has_no_room getenv dlsym cfg : env_init getenv = Ok cfg ->
  exists g, run_constructors [(201, register_signal_handlers true); (101, env_constructor getenv);
    (101, proc_init); (101, do_wrapper_replacement dlsym)] (loaded 0) = Ok g /\ config_max_ptrs (config g) = 0.
Proof.
  intros E. cbn. unfold register_signal_handlers, env_constructor, proc_init, do_wrapper_replacement.
  cbn [negb settings loaded g_forkscan_ptrs_per_thread]. rewrite int_chk_ok by (unfold int_ok, INT_MIN, INT_MAX; lia).
  rewrite !bind_ok, E, !bind_ok. by eexists.
Qed.

(** Only the process that collects kills, and what it kills is the last
    process it forked, whether or not that has finished; the processes that
    scan leave through [exit] and run the destructor too, but kill nobody. *)
Lemma exit_kills pid : pid <> -1 -> 0 <= pid ->
  exists scans, fork_for_scan pid = Ok (pid, scans) /\ process_death pid = if scans then [] else [(pid, 9)].
Proof.
  intros H1 H2. unfold fork_for_scan, process_death. rewrite (proj2 (Z.eqb_neq _ _)) by done. eexists. split; [done |].
  destruct (Z.eqb_spec pid 0), (Z.gtb_spec pid 0); done || lia.
Qed.

(** ** Witnesses *)

Definition demo_env : env_t := mk_env 32768 0 16 16.
Definition demo_order : list (Z * (glue_t -> res glue_t)) :=
  [(101, proc_init); (101, env_constructor (fun _ => None)); (101, do_wrapper_replacement (fun _ => 4096));
   (201, register_signal_handlers true)].

Lemma demo_order_ok : priority_order (fun _ => None) (fun _ => 4096) true demo_order.
Proof. split; [apply perm_swap |]. cbn. repeat constructor; lia. Qed.

Lemma startup_complete_witness :
  exists g, run_constructors demo_order (loaded 7) = Ok g /\ g = started (fun _ => 4096) demo_env /\
    config_max_ptrs (config g) = 32768 * MAX_THREAD_COUNT /\ config_max_ptrs (config g) <= INT_MAX /\
    (exists g', __libc_start_main 0 99 g = Ok g' /\ orig_main g' = 99) /\
    exists td w, main_replacement (g_forkscan_ptrs_per_thread (settings g)) 0x7000
        (process_start [0x100000] [0x200000] []) = Ok (td, w) /\
      process_inv (g_forkscan_ptrs_per_thread (settings g)) [td] [] w.
Proof.
  apply (startup_complete (fun _ => None) (fun _ => 4096) demo_order 7 99 0x7000 [0x100000] [0x200000] [] demo_env demo_order_ok);
    [reflexivity | done | reflexivity | reflexivity].
Defined.
