(* ===== verification/Maps.v ===== *)
(** proc.c: reading the process's memory map.

    [/proc/self/maps] has a line for each region of memory.  The file is the
    list of its characters; the conversions of [fscanf] are as the C library
    documents them. *)
From Stdlib Require Import Ascii String.
From stdpp Require Import strings.
From S2P Require Import Prelude Alloc Ranges.

Definition MAPLINE_PATH_SIZE : Z := 256.

Record mapline_t : Type := mk_mapline {
  range_begin : Z;
  range_end : Z;
  bits : list ascii;
  f1 : Z;
  f2 : Z;
  f3 : Z;
  f4 : Z;
  path : list ascii }.

(** What is left of the file, and the end-of-file mark, which a read beyond
    the last character sets. *)
Record stream_t : Type := mk_stream {
  rest : list ascii;
  feof : bool }.

(** * Conversions *)

Definition code (c : ascii) : Z := Z.of_nat (nat_of_ascii c).

Definition isspace (c : ascii) : bool := (code c =? 32) || ((9 <=? code c) && (code c <=? 13)).

Fixpoint skip_space (s : list ascii) : list ascii :=
  match s with
  | c :: s' => if isspace c then skip_space s' else s
  | [] => []
  end.

Definition digit_val (b : Z) (c : ascii) : option Z :=
  let v := code c in
  let d := if (48 <=? v) && (v <=? 57) then v - 48
           else if (97 <=? v) && (v <=? 102) then v - 87
           else if (65 <=? v) && (v <=? 70) then v - 55
           else b in
  if d <? b then Some d else None.

Fixpoint scan_digits (b acc : Z) (s : list ascii) : Z * list ascii :=
  match s with
  | c :: s' => match digit_val b c with Some d => scan_digits b (acc * b + d) s' | None => (acc, s) end
  | [] => (acc, [])
  end.

Definition sign (s : list ascii) : bool * list ascii :=
  match s with
  | c :: s' => if code c =? 45 then (true, s') else if code c =? 43 then (false, s') else (false, s)
  | [] => (false, s)
  end.

Definition prefix_0x (b : Z) (s : list ascii) : list ascii :=
  match s with
  | c :: c' :: s' =>
      if (b =? 16) && (code c =? 48) && ((code c' =? 120) || (code c' =? 88)) then s' else s
  | _ => s
  end.

(** A number in base [b], as [strtoul] reads it: negative or not, the digits'
    value, what follows. *)
Definition scan_num (b : Z) (s : list ascii) : option (bool * Z * list ascii) :=
  let '(neg, s) := sign (skip_space s) in
  match prefix_0x b s with
  | (c :: _) as s =>
      match digit_val b c with
      | Some _ => let '(v, s) := scan_digits b 0 s in Some (neg, v, s)
      | None => None
      end
  | [] => None
  end.

(** [%llx]: out of range is the largest value. *)
Definition to_ull (neg : bool) (v : Z) : Z :=
  if 2 ^ 64 <=? v then 2 ^ 64 - 1 else u64 (if neg then - v else v).

(** [%d]: the value as a [long], cut down. *)
Definition to_d (neg : bool) (v : Z) : Z :=
  to_int (u32 (Z.max (- 2 ^ 63) (Z.min (2 ^ 63 - 1) (if neg then - v else v)))).

Fixpoint take_word (s : list ascii) : list ascii * list ascii :=
  match s with
  | c :: s' => if isspace c then ([], s) else let '(w, s) := take_word s' in (c :: w, s)
  | [] => ([], [])
  end.

(** [%s]: a word, none at the end of the file. *)
Definition scan_string (s : list ascii) : option (list ascii * list ascii) :=
  match take_word (skip_space s) with
  | ([], _) => None
  | r => Some r
  end.

(** A character of the format. *)
Definition expect (c : ascii) (s : list ascii) : option (list ascii) :=
  match s with
  | c' :: s' => if Ascii.eqb c c' then Some s' else None
  | [] => None
  end.

(** * A line *)

(** [fscanf]'s answer: the seven fields, the end of the file before the first
    of them (-1), or the number of those read. *)
Inductive scanned_t : Type :=
  | Scanned (m : mapline_t) (s : list ascii)
  | ScanEof
  | Mismatch (n : Z).

Definition orelse {A} (n : Z) (m : option A) (k : A -> res scanned_t) : res scanned_t :=
  match m with Some a => k a | None => Ok (Mismatch n) end.

(** ["%llx-%llx %s %llx %x:%x %d"]; [bits] has room for five characters, the
    final NUL included. *)
Definition scan_fields (s : list ascii) : res scanned_t :=
  orelse 0 (scan_num 16 s) (fun '(g0, v0, s) =>
  orelse 1 (expect "-" s) (fun s =>
  orelse 1 (scan_num 16 s) (fun '(g1, v1, s) =>
  orelse 2 (scan_string s) (fun '(w, s) =>
  if 5 <? Z.of_nat (length w) + 1 then Err OutOfBounds else
  orelse 3 (scan_num 16 s) (fun '(g2, v2, s) =>
  orelse 4 (scan_num 16 s) (fun '(g3, v3, s) =>
  orelse 5 (expect ":" s) (fun s =>
  orelse 5 (scan_num 16 s) (fun '(g4, v4, s) =>
  orelse 6 (scan_num 10 s) (fun '(g5, v5, s) =>
  Ok (Scanned (mk_mapline (to_ull g0 v0) (to_ull g1 v1) w (to_ull g2 v2) (u32 (to_ull g3 v3))
    (u32 (to_ull g4 v4)) (to_d g5 v5) []) s)))))))))).

Definition fscanf_line (s : list ascii) : res scanned_t :=
  match skip_space s with [] => Ok ScanEof | _ => scan_fields s end.

(** [while (' ' == (c = fgetc(fp)));]: the character, or [EOF]. *)
Fixpoint skip_blanks (s : list ascii) : option ascii * list ascii :=
  match s with
  | c :: s' => if Ascii.eqb c " " then skip_blanks s' else (Some c, s')
  | [] => (None, [])
  end.

(** [while ('\n' != (c = fgetc(fp)));]: at the end of the file the loop goes
    round for ever. *)
Fixpoint skip_line (s : list ascii) : res (list ascii) :=
  match s with
  | c :: s' => if Ascii.eqb c "010" then Ok s' else skip_line s'
  | [] => Err OutOfFuel
  end.

Definition with_path (p : list ascii) (m : mapline_t) : mapline_t :=
  mk_mapline (range_begin m) (range_end m) (bits m) (f1 m) (f2 m) (f3 m) (f4 m) p.

(** [c] is a [char]: the one with code 255 compares equal to [EOF]. *)
Definition read_mapline (fp : stream_t) : res (option mapline_t * stream_t) :=
  if feof fp then Ok (None, fp) else
  let! r := fscanf_line (rest fp) in
  match r with
  | ScanEof => Ok (None, mk_stream [] true)
  | Mismatch n => Err Fatal
  | Scanned m s =>
      match skip_blanks s with
      | (None, s) => Ok (Some m, mk_stream s true)
      | (Some c, s) =>
          if Ascii.eqb c "010" || Ascii.eqb c "255" then Ok (Some m, mk_stream s false) else
          match scan_string s with
          | None => Err Fatal
          | Some (w, s) =>
              if MAPLINE_PATH_SIZE <? Z.of_nat (length w) + 2 then Err OutOfBounds else
              let! s := skip_line s in
              Ok (Some (with_path (c :: w) m), mk_stream s false)
          end
      end
  end.

(** * The file *)

(** [None]: it cannot be opened.  Every line read has at least one
    character. *)
Definition open_map (procmap : option (list ascii)) : res stream_t :=
  match procmap with Some s => Ok (mk_stream s false) | None => Err Fatal end.

Definition map_fuel (fp : stream_t) : nat := Datatypes.S (Datatypes.S (length (rest fp))).

Definition stack_step (addr : Z) (fp : stream_t) : res (flow stream_t mem_range_t) :=
  let! ' (m, fp) := read_mapline fp in
  match m with
  | None => Ok (Done (mk_range 0 0))
  | Some m =>
      if (addr >? range_begin m) && (addr <? range_end m) then Ok (Done (mk_range (range_begin m) (range_end m)))
      else Ok (Next fp)
  end.

Definition forkscan_proc_stack_from_addr (procmap : option (list ascii)) (addr : Z) : res mem_range_t :=
  assert (addr >? 0) ;!
  let! fp := open_map procmap in
  loop (map_fuel fp) (stack_step addr) fp.

Section iterate.
Context {S : Type} (f : Z -> Z -> list ascii -> list ascii -> S -> res (Z * S)).

Definition iterate_step (st : stream_t * S) : res (flow (stream_t * S) S) :=
  let '(fp, x) := st in
  let! ' (m, fp) := read_mapline fp in
  match m with
  | None => Ok (Done x)
  | Some m =>
      let! ' (ret, x) := f (range_begin m) (range_end m) (bits m) (path m) x in
      if ret =? 0 then Ok (Done x) else Ok (Next (fp, x))
  end.

Definition forkscan_proc_map_iterate (procmap : option (list ascii)) (x : S) : res S :=
  let! fp := open_map procmap in
  loop (map_fuel fp) iterate_step (fp, x).
End iterate.

(** * Printing *)

(** The kernel's side: a number in [n] digits, as many as it takes or more. *)
Definition digit_char (d : Z) : ascii := ascii_of_nat (Z.to_nat (if d <? 10 then 48 + d else 87 + d)).

Fixpoint digits (b : Z) (n : nat) (z : Z) : list ascii :=
  match n with
  | O => []
  | Datatypes.S n' => digit_char (z / b ^ Z.of_nat n' mod b) :: digits b n' z
  end.

Definition blanks (n : nat) : list ascii := replicate n " "%char.

(** How a line is laid out: the width of each number, the blanks after the
    last, what follows the path. *)
Record layout_t : Type := mk_layout {
  w_begin : nat; w_end : nat; w_f1 : nat; w_f2 : nat; w_f3 : nat; w_f4 : nat;
  padding : nat;
  suffix : list ascii }.

Definition print_line (y : layout_t) (m : mapline_t) : list ascii :=
  digits 16 (w_begin y) (range_begin m) ++ "-"%char :: digits 16 (w_end y) (range_end m) ++
  " "%char :: bits m ++ " "%char :: digits 16 (w_f1 y) (f1 m) ++
  " "%char :: digits 16 (w_f2 y) (f2 m) ++ ":"%char :: digits 16 (w_f3 y) (f3 m) ++
  " "%char :: digits 10 (w_f4 y) (f4 m) ++ blanks (padding y) ++ path m ++ suffix y ++ ["010"%char].

Definition fits (b : Z) (n : nat) (z bound : Z) : Prop := (1 <= n)%nat /\ 0 <= z < b ^ Z.of_nat n /\ z < bound.

Definition word (w : list ascii) : Prop := Forall (fun c => isspace c = false) w.

(** A line the kernel may print: a path is empty or a word of 2 to [k]
    characters behind a blank, and what follows it begins with a blank. *)
Record line_upto (k : nat) (y : layout_t) (m : mapline_t) : Prop := {
  lo_begin : fits 16 (w_begin y) (range_begin m) (2 ^ 64);
  lo_end : fits 16 (w_end y) (range_end m) (2 ^ 64);
  lo_f1 : fits 16 (w_f1 y) (f1 m) (2 ^ 64);
  lo_f2 : fits 16 (w_f2 y) (f2 m) (2 ^ 32);
  lo_f3 : fits 16 (w_f3 y) (f3 m) (2 ^ 32);
  lo_f4 : fits 10 (w_f4 y) (f4 m) (2 ^ 31);
  lo_bits : word (bits m) /\ (1 <= length (bits m) <= 4)%nat;
  lo_path : (path m = [] /\ suffix y = []) \/
    ((1 <= padding y)%nat /\ word (path m) /\ (2 <= length (path m) <= k)%nat /\
     hd NUL (path m) <> "255"%char /\
     ("010"%char ∉ suffix y) /\ match suffix y with c :: _ => isspace c = true | [] => True end) }.

Definition line_ok : layout_t -> mapline_t -> Prop := line_upto 255.

Lemma digit_val_char b d : b = 10 \/ b = 16 -> 0 <= d < b -> digit_val b (digit_char d) = Some d.
Proof.
  intros Hb Hd.
  assert (H : exists n, (n < 16)%nat /\ d = Z.of_nat n) by (exists (Z.to_nat d); lia).
  destruct H as (n & Hn & ->).
  destruct Hb as [-> | ->]; do 16 (destruct n as [|n]; [first [by vm_compute | lia] |]); lia.
Qed.

Lemma digit_char_code d : 0 <= d < 16 -> 48 <= code (digit_char d) <= 102 /\ isspace (digit_char d) = false /\
  code (digit_char d) <> 120 /\ code (digit_char d) <> 88.
Proof.
  intros Hd. assert (H : exists n, (n < 16)%nat /\ d = Z.of_nat n) by (exists (Z.to_nat d); lia).
  destruct H as (n & Hn & ->). do 16 (destruct n as [|n]; [by vm_compute |]); lia.
Qed.

(** What a number is followed by. *)
Definition stops (r : list ascii) : Prop :=
  match r with c :: _ => c ∈ [" "; "-"; ":"; "010"]%char | [] => False end.

Lemma stops_digit b r : stops r -> exists c r', r = c :: r' /\ digit_val b c = digit_val b " " /\ code c <> 120 /\ code c <> 88.
Proof.
  destruct r as [|c r]; [done |]. cbn. intros H. exists c, r. split; [done |].
  repeat (apply elem_of_cons in H as [-> | H]; [by split_and! |]). by apply not_elem_of_nil in H.
Qed.

Lemma digit_blank b : b = 10 \/ b = 16 -> digit_val b " " = None.
Proof. by intros [-> | ->]. Qed.

Lemma scan_digits_print b n z acc r : b = 10 \/ b = 16 -> 0 <= z -> stops r ->
  scan_digits b acc (digits b n z ++ r) = (acc * b ^ Z.of_nat n + z mod b ^ Z.of_nat n, r).
Proof.
  intros Hb Hz Hr. assert (Hb0 : 0 < b) by lia. revert acc. induction n as [|n IH]; intros acc; cbn [digits app].
  - destruct (stops_digit b r Hr) as (c & r' & -> & Hd & _). cbn. rewrite Hd, digit_blank by done.
    rewrite Z.mod_1_r. f_equal. lia.
  - cbn [scan_digits]. rewrite digit_val_char; [| done | apply Z.mod_pos_bound; lia]. rewrite IH. f_equal.
    rewrite Nat2Z.inj_succ, Z.pow_succ_r by lia.
    assert (Hp : 0 < b ^ Z.of_nat n) by (apply Z.pow_pos_nonneg; lia).
    rewrite (Z.mul_comm b), Z.rem_mul_r by lia. nia.
Qed.

Lemma skip_blanks_space k s : skip_space (blanks k ++ s) = skip_space s.
Proof. induction k as [|k IH]; [done | exact IH]. Qed.

Lemma scan_num_print b n z bound k r : b = 10 \/ b = 16 -> fits b n z bound -> stops r ->
  scan_num b (blanks k ++ digits b n z ++ r) = Some (false, z, r).
Proof.
  intros Hb (Hn & Hz & _) Hr. unfold scan_num. rewrite skip_blanks_space. destruct n as [|n]; [lia |].
  pose proof (scan_digits_print b (Datatypes.S n) z 0 r Hb ltac:(lia) Hr) as Hs.
  rewrite Z.mod_small in Hs by lia. cbn [digits app] in Hs |- *. set (d := z / b ^ Z.of_nat n mod b) in Hs |- *.
  assert (Hd : 0 <= d < b) by (apply Z.mod_pos_bound; lia).
  destruct (digit_char_code d ltac:(lia)) as (Hc & Hsp & _). cbn [skip_space]. rewrite Hsp.
  cbn [sign]. replace (code (digit_char d) =? 45) with false by lia. replace (code (digit_char d) =? 43) with false by lia.
  assert (Hp : prefix_0x b (digit_char d :: digits b n z ++ r) = digit_char d :: digits b n z ++ r).
  { cbn [prefix_0x]. destruct n as [|n'].
    - cbn [digits app]. destruct (stops_digit b r Hr) as (c & r' & -> & _ & H1%Z.eqb_neq & H2%Z.eqb_neq).
      by rewrite H1, H2, andb_false_r.
    - cbn [digits app]. set (d' := z / b ^ Z.of_nat n' mod b).
      assert (Hd' : 0 <= d' < b) by (apply Z.mod_pos_bound; lia).
      destruct (digit_char_code d' ltac:(lia)) as (_ & _ & H1%Z.eqb_neq & H2%Z.eqb_neq). by rewrite H1, H2, andb_false_r. }
  rewrite Hp. cbn beta iota. rewrite digit_val_char by done. cbn beta iota. rewrite Hs. done.
Qed.

Lemma take_word_print w r : word w -> (hd "032"%char r = "032"%char \/ isspace (hd "032"%char r) = true) ->
  take_word (w ++ r) = (w, r).
Proof.
  intros Hw Hr. induction Hw as [|c w Hc Hw IH]; cbn [app take_word].
  - destruct r as [|c r]; [done |]. cbn in Hr |- *. by destruct Hr as [-> | ->].
  - by rewrite Hc, IH.
Qed.

Lemma scan_string_print k w r : word w -> (w <> []) -> isspace (hd "032"%char r) = true ->
  scan_string (blanks k ++ w ++ r) = Some (w, r).
Proof.
  intros Hw Hne Hr. unfold scan_string. rewrite skip_blanks_space.
  assert (E : skip_space (w ++ r) = w ++ r) by (destruct Hw as [|c w Hc Hw]; [done | cbn; by rewrite Hc]).
  rewrite E, take_word_print by (done || by right). by destruct w.
Qed.

Lemma skip_line_print s r : ("010"%char ∉ s) -> skip_line (s ++ "010"%char :: r) = Ok r.
Proof.
  induction s as [|c s IH]; intros H; [done |]. apply not_elem_of_cons in H as [Hc H]. cbn.
  destruct (Ascii.eqb_spec c "010"); [by subst | by apply IH].
Qed.

Lemma skip_blanks_print k c r : c <> " "%char -> skip_blanks (blanks k ++ c :: r) = (Some c, r).
Proof.
  intros Hc. induction k as [|k IH]; cbn; [| done]. by destruct (Ascii.eqb_spec c " ").
Qed.

Lemma expect_print c r : expect c (c :: r) = Some r.
Proof. cbn. by rewrite Ascii.eqb_refl. Qed.

Lemma to_ull_id v n : fits 16 n v (2 ^ 64) -> to_ull false v = v.
Proof. intros (_ & Hv & Hb). unfold to_ull. replace (2 ^ 64 <=? v) with false by lia. apply u64_small. split; lia. Qed.

Lemma to_ull_32 v n : fits 16 n v (2 ^ 32) -> u32 (to_ull false v) = v.
Proof. intros (H1 & Hv & Hb). rewrite (to_ull_id v n) by (split_and!; lia). apply u32_small. lia. Qed.

Lemma to_d_id v n : fits 10 n v (2 ^ 31) -> to_d false v = v.
Proof.
  intros (_ & Hv & Hb). unfold to_d. rewrite Z.min_r, Z.max_r by lia. rewrite u32_small by lia.
  apply to_int_small. unfold int_ok, INT_MIN, INT_MAX. lia.
Qed.

Lemma printed_number b n z bound : fits b n z bound -> (b = 10 \/ b = 16) -> exists c s, digits b n z = c :: s /\ isspace c = false.
Proof.
  intros (Hn & Hz & _) Hb. destruct n as [|n]; [lia |]. eexists _, _. split; [reflexivity |].
  apply digit_char_code. pose proof (Z.mod_pos_bound (z / b ^ Z.of_nat n) b). lia.
Qed.

Definition no_path (m : mapline_t) : mapline_t := with_path [] m.

(** What follows the last number stops it. *)
Definition tail_of (y : layout_t) (m : mapline_t) (r : list ascii) : list ascii :=
  blanks (padding y) ++ path m ++ suffix y ++ "010"%char :: r.

Lemma tail_stops k y m r : line_upto k y m -> stops (tail_of y m r).
Proof.
  intros [_ _ _ _ _ _ _ Hp]. unfold tail_of. destruct Hp as [[-> ->] | (Hpad & _)].
  - destruct (padding y); cbn; repeat constructor.
  - destruct (padding y); [lia |]. cbn. repeat constructor.
Qed.

(** The seven fields of a printed line. *)
Lemma fscanf_print k y m r : line_upto k y m ->
  fscanf_line (print_line y m ++ r) = Ok (Scanned (no_path m) (tail_of y m r)).
Proof.
  intros L. pose proof (tail_stops k y m r L) as Ht. destruct L as [H0 H1 H2 H3 H4 H5 [Hw Hlen] _].
  assert (Es : print_line y m ++ r = digits 16 (w_begin y) (range_begin m) ++ "-"%char :: digits 16 (w_end y) (range_end m) ++
    " "%char :: bits m ++ " "%char :: digits 16 (w_f1 y) (f1 m) ++
    " "%char :: digits 16 (w_f2 y) (f2 m) ++ ":"%char :: digits 16 (w_f3 y) (f3 m) ++
    " "%char :: digits 10 (w_f4 y) (f4 m) ++ tail_of y m r).
  { unfold print_line, tail_of. repeat (rewrite <- app_assoc; cbn [app]). done. }
  rewrite Es. clear Es. set (r0 := tail_of y m r) in *.
  assert (Hne : bits m <> []) by (intros E; rewrite E in Hlen; cbn in Hlen; lia).
  unfold fscanf_line. destruct (printed_number _ _ _ _ H0 ltac:(by right)) as (c & s & Ec & Hsp).
  rewrite Ec at 1. cbn [app skip_space]. rewrite Hsp. unfold scan_fields.
  pose proof (fun r => scan_num_print 16 _ _ _ 0 r ltac:(by right) H0) as E0.
  pose proof (fun r => scan_num_print 16 _ _ _ 0 r ltac:(by right) H1) as E1.
  pose proof (fun r => scan_string_print 1 _ r Hw Hne) as E2.
  pose proof (fun r => scan_num_print 16 _ _ _ 1 r ltac:(by right) H2) as E3.
  pose proof (fun r => scan_num_print 16 _ _ _ 1 r ltac:(by right) H3) as E4.
  pose proof (fun r => scan_num_print 16 _ _ _ 0 r ltac:(by right) H4) as E5.
  pose proof (fun r => scan_num_print 10 _ _ _ 1 r ltac:(by left) H5) as E6.
  cbn [blanks replicate app] in E0, E1, E2, E3, E4, E5, E6.
  rewrite E0 by (repeat constructor). cbn [orelse]. rewrite expect_print. cbn [orelse].
  rewrite E1 by (repeat constructor). cbn [orelse]. rewrite E2 by done. cbn [orelse].
  replace (5 <? Z.of_nat (length (bits m)) + 1) with false by lia.
  rewrite E3 by (repeat constructor). cbn [orelse]. rewrite E4 by (repeat constructor). cbn [orelse].
  rewrite expect_print. cbn [orelse]. rewrite E5 by (repeat constructor). cbn [orelse]. rewrite E6 by done. cbn [orelse].
  rewrite (to_ull_id _ _ H0), (to_ull_id _ _ H1), (to_ull_id _ _ H2), (to_ull_32 _ _ H3), (to_ull_32 _ _ H4), (to_d_id _ _ H5).
  done.
Qed.

Lemma read_print y m r : line_ok y m ->
  read_mapline (mk_stream (print_line y m ++ r) false) = Ok (Some m, mk_stream r false).
Proof.
  intros L. unfold read_mapline. cbn [feof rest]. rewrite (fscanf_print 255 y m r L), bind_ok. unfold tail_of.
  destruct (lo_path _ _ _ L) as [[Ep Es] | (Hpad & Hw & Hlen & Hc & Hnl & Hs)].
  - rewrite Ep, Es. cbn [app]. rewrite skip_blanks_print by done. rewrite Ascii.eqb_refl. cbn [orb].
    destruct m. cbn in Ep. by subst.
  - destruct m as [m0 m1 m2 m3 m4 m5 m6 p]. cbn [path hd] in *. destruct p as [|c w]; [cbn in Hlen; lia |].
    apply Forall_cons in Hw as [Hcs Hw]. cbn [hd] in Hc. cbn [app].
    rewrite skip_blanks_print by (intros ->; done).
    destruct (Ascii.eqb_spec c "010"); [by subst |]. destruct (Ascii.eqb_spec c "255"); [done |]. cbn [orb].
    cbn [length] in Hlen. assert (Hwne : w <> []) by (intros ->; cbn in Hlen; lia).
    pose proof (scan_string_print 0 w (suffix y ++ "010"%char :: r) Hw Hwne) as Ew. cbn [blanks replicate app] in Ew.
    rewrite Ew; [| by destruct (suffix y)].
    unfold MAPLINE_PATH_SIZE. replace (256 <? Z.of_nat (length w) + 2) with false by lia.
    by rewrite skip_line_print.
Qed.

(** A longer path runs over the end of [mapline.path]. *)
Lemma read_long k y m r : line_upto k y m -> (256 <= length (path m))%nat ->
  read_mapline (mk_stream (print_line y m ++ r) false) = Err OutOfBounds.
Proof.
  intros L Hlong. unfold read_mapline. cbn [feof rest]. rewrite (fscanf_print k y m r L), bind_ok. unfold tail_of.
  destruct (lo_path _ _ _ L) as [[Ep _] | (Hpad & Hw & _ & Hc & _ & Hs)]; [rewrite Ep in Hlong; cbn in Hlong; lia |].
  destruct (path m) as [|c w]; [cbn in Hlong; lia |]. apply Forall_cons in Hw as [Hcs Hw]. cbn [hd length app] in *.
  rewrite skip_blanks_print by (intros ->; done).
  destruct (Ascii.eqb_spec c "010"); [by subst |]. destruct (Ascii.eqb_spec c "255"); [done |]. cbn [orb].
  assert (Hwne : w <> []) by (intros ->; cbn in Hlong; lia).
  pose proof (scan_string_print 0 w (suffix y ++ "010"%char :: r) Hw Hwne) as Ew. cbn [blanks replicate app] in Ew.
  rewrite Ew; [| by destruct (suffix y)].
  unfold MAPLINE_PATH_SIZE. by replace (256 <? Z.of_nat (length w) + 2) with true by lia.
Qed.

(** * Whole files *)

Definition print_file (ls : list (layout_t * mapline_t)) : list ascii := ls ≫= fun '(y, m) => print_line y m.

Definition lines_ok (ls : list (layout_t * mapline_t)) : Prop := Forall (fun '(y, m) => line_ok y m) ls.

Lemma read_end : read_mapline (mk_stream [] false) = Ok (None, mk_stream [] true).
Proof. done. Qed.

Lemma print_file_length ls : lines_ok ls -> (length ls <= length (print_file ls))%nat.
Proof.
  induction ls as [|[y m] ls IH]; intros H; [done |]. apply Forall_cons in H as [L H]. specialize (IH H).
  cbn. fold (print_file ls). rewrite length_app. unfold print_line. rewrite !length_app. cbn [length]. lia.
Qed.

(** The callback's runs over the lines, until it answers 0. *)
Fixpoint over_lines {S} (f : Z -> Z -> list ascii -> list ascii -> S -> res (Z * S)) (ms : list mapline_t) (x : S) : res S :=
  match ms with
  | [] => Ok x
  | m :: ms =>
      let! ' (ret, x) := f (range_begin m) (range_end m) (bits m) (path m) x in
      if ret =? 0 then Ok x else over_lines f ms x
  end.

Lemma iterate_lines {S} f ls fuel (x : S) : lines_ok ls -> (length ls < fuel)%nat ->
  loop fuel (iterate_step f) (mk_stream (print_file ls) false, x) = over_lines f (snd <$> ls) x.
Proof.
  revert fuel x. induction ls as [|[y m] ls IH]; intros fuel x H Hf; (destruct fuel as [|fuel]; [cbn in Hf; lia |]); rewrite loop_S.
  - done.
  - apply Forall_cons in H as [L H]. unfold iterate_step at 1. change (print_file ((y, m) :: ls)) with (print_line y m ++ print_file ls).
    rewrite (read_print y m _ L), bind_ok. cbn [fmap list_fmap snd over_lines].
    destruct (f (range_begin m) (range_end m) (bits m) (path m) x) as [[ret x'] | e]; [| done].
    rewrite !bind_ok. destruct (ret =? 0); [done |]. rewrite bind_ok. apply IH; [done | cbn in Hf; lia].
Qed.

(** The first region that has [addr] inside. *)
Fixpoint region_of (addr : Z) (ms : list mapline_t) : mem_range_t :=
  match ms with
  | [] => mk_range 0 0
  | m :: ms => if (addr >? range_begin m) && (addr <? range_end m) then mk_range (range_begin m) (range_end m) else region_of addr ms
  end.

Lemma stack_lines addr ls fuel : lines_ok ls -> (length ls < fuel)%nat ->
  loop fuel (stack_step addr) (mk_stream (print_file ls) false) = Ok (region_of addr (snd <$> ls)).
Proof.
  revert fuel. induction ls as [|[y m] ls IH]; intros fuel H Hf; (destruct fuel as [|fuel]; [cbn in Hf; lia |]); rewrite loop_S.
  - done.
  - apply Forall_cons in H as [L H]. unfold stack_step at 1. change (print_file ((y, m) :: ls)) with (print_line y m ++ print_file ls).
    rewrite (read_print y m _ L), bind_ok. cbn [fmap list_fmap snd region_of].
    destruct ((addr >? range_begin m) && (addr <? range_end m)); rewrite bind_ok; [done |]. apply IH; [done | cbn in Hf; lia].
Qed.

(** * Properties *)

(** C30: Reading undoes the kernel's printing: whatever the widths of the numbers
    and the padding, [read_mapline] yields the region printed, its path cut
    at the first blank, and stands at the next line. *)
Theorem read_mapline_roundtrip y m r :
  line_ok y m -> read_mapline (mk_stream (print_line y m ++ r) false) = Ok (Some m, mk_stream r false).
Proof. apply read_print. Qed.

(** [forkscan_proc_map_iterate] runs its callback on the regions of the file,
    in order, up to the first time it answers 0; it ends, at the latest at
    the end of the file. *)
Theorem map_iterate_folds {S} (f : Z -> Z -> list ascii -> list ascii -> S -> res (Z * S)) ls x :
  lines_ok ls -> forkscan_proc_map_iterate f (Some (print_file ls)) x = over_lines f (snd <$> ls) x.
Proof.
  intros H. unfold forkscan_proc_map_iterate, open_map. rewrite bind_ok. apply iterate_lines; [done |].
  unfold map_fuel. cbn [rest]. pose proof (print_file_length ls H). lia.
Qed.

(** [forkscan_proc_stack_from_addr] finds the first region with the address
    strictly inside, and the empty range if there is none. *)
Theorem stack_from_addr_correct ls addr :
  lines_ok ls -> 0 < addr -> forkscan_proc_stack_from_addr (Some (print_file ls)) addr = Ok (region_of addr (snd <$> ls)).
Proof.
  intros H Ha. unfold forkscan_proc_stack_from_addr, open_map. replace (addr >? 0) with true by lia.
  cbn [assert]. rewrite !bind_ok. apply stack_lines; [done |].
  unfold map_fuel. cbn [rest]. pose proof (print_file_length ls H). lia.
Qed.

(** A path of 256 characters or more is stored beyond the array for it. *)
Theorem read_mapline_overflows k y m r :
  line_upto k y m -> (256 <= length (path m))%nat ->
  read_mapline (mk_stream (print_line y m ++ r) false) = Err OutOfBounds.
Proof. apply read_long. Qed.

(** A path of one character: [%s] skips the line's end, takes the next line's
    first word for the rest of the path, and that line is lost. *)
Lemma one_char_path_swallows :
  exists m fp, read_mapline (mk_stream (chars "1000-2000 rw-p 0 0:0 0 a" ++ "010"%char ::
      chars "3000-4000 rw-p 0 0:0 0" ++ ["010"%char]) false) = Ok (Some m, fp) /\
    path m = chars "a3000-4000" /\ rest fp = [].
Proof. eexists _, _. split; [vm_compute; reflexivity | done]. Qed.

(** ** The memory to scan *)

Section regions.
Context (T : list (Z * Z)) (next_subrange : mem_range_t -> res (mem_range_t * mem_range_t)) `{!Subranges T next_subrange}.
Context (Haligned : forall q, q ∈ T -> q.1 mod 8 = 0 /\ q.2 mod 8 = 0) (lock : Z).

Definition region_ok (m : mapline_t) : Prop :=
  0 <= range_begin m <= range_end m /\ range_end m < 2 ^ 63 /\ range_begin m mod 8 = 0 /\ range_end m mod 8 = 0.

Definition all_needs (ms : list mapline_t) : Z := foldr (fun m n => need T (range_begin m) (range_end m) + n) 0 ms.

(** What [collect_ranges] makes of a region. *)
Definition made_of (m : mapline_t) (rs : list mem_range_t) : Prop :=
  (skip_region lock (range_begin m) (range_end m) (bits m) (path m) = Ok true /\ rs = []) \/
  (skip_region lock (range_begin m) (range_end m) (bits m) (path m) = Ok false /\
   cover T (range_begin m) (range_end m) rs).

Lemma need_nonneg m : region_ok m -> 0 <= need T (range_begin m) (range_end m).
Proof using Type.
  intros [H _]. unfold need. pose proof (Z.div_pos (range_end m - range_begin m) MAX_RANGE_SIZE ltac:(lia) ltac:(unfold MAX_RANGE_SIZE; lia)). lia.
Qed.

Lemma all_needs_nonneg ms : Forall region_ok ms -> 0 <= all_needs ms.
Proof using Type. induction 1 as [|m ms Hm Hms IH]; cbn; [lia |]. fold (all_needs ms). pose proof (need_nonneg m Hm). lia. Qed.

Lemma collect_lines fuel ms st :
  (length T + 1 < fuel)%nat -> Forall region_ok ms -> ranges_ok st -> g_n_ranges st + all_needs ms < MAX_MARK_AND_SWEEP_RANGES ->
  exists st' rss, over_lines (collect_ranges next_subrange lock fuel) ms st = Ok st' /\
    appended st (concat rss) st' /\ Forall2 made_of ms rss /\ Z.of_nat (length (concat rss)) <= all_needs ms.
Proof using Haligned Subranges0.
  intros Hfuel Hms. revert st. induction Hms as [|m ms Hm Hms IH]; intros st Hst Hroom; cbn [all_needs foldr] in Hroom.
  - exists st, []. split; [done |]. split; [by apply appended_nil |]. by split.
  - fold (all_needs ms) in Hroom. pose proof (all_needs_nonneg ms Hms) as Hn. destruct Hm as (H1 & H2 & H3 & H4).
    pose proof (collect_ranges_wp T next_subrange Haligned lock fuel (range_begin m) (range_end m) (bits m) (path m) st
      H1 H2 H3 H4 Hst ltac:(lia) Hfuel) as H. apply wp_iff in H as ([ret st1] & E & -> & H).
    assert (Hcase : exists rs, appended st rs st1 /\ Z.of_nat (length rs) <= need T (range_begin m) (range_end m) /\ made_of m rs).
    { destruct H as [[Hs ->] | (Hs & rs & Ha & Hc & Hl & _)].
      - exists []. split; [by apply appended_nil |]. split; [exact (need_nonneg m (conj H1 (conj H2 (conj H3 H4)))) | by left].
      - exists rs. split; [done |]. split; [done | by right]. }
    destruct Hcase as (rs & Ha & Hl & Hmade). pose proof Ha as (Hok1 & _ & Hng).
    destruct (IH st1 Hok1 ltac:(lia)) as (st' & rss & E' & Ha' & HF & Hle).
    exists st', (rs :: rss). cbn [over_lines]. rewrite E, bind_ok. cbn [Z.eqb]. split; [done |].
    split; [cbn; by eapply appended_trans |]. split; [by constructor |].
    cbn [concat all_needs foldr]. fold (all_needs ms). rewrite length_app. lia.
Qed.
End regions.

Lemma map_ranges_ok T next_subrange lock fuel ls st :
  Subranges T next_subrange -> (forall q, q ∈ T -> q.1 mod 8 = 0 /\ q.2 mod 8 = 0) -> (length T + 1 < fuel)%nat ->
  lines_ok ls -> Forall region_ok (snd <$> ls) -> ranges_ok st ->
  g_n_ranges st + all_needs T (snd <$> ls) < MAX_MARK_AND_SWEEP_RANGES ->
  exists st' rss, forkscan_proc_map_iterate (collect_ranges next_subrange lock fuel) (Some (print_file ls)) st = Ok st' /\
    appended st (concat rss) st' /\ Forall2 (made_of T lock) (snd <$> ls) rss /\
    Z.of_nat (length (concat rss)) <= all_needs T (snd <$> ls).
Proof.
  intros HT Ha Hf Hl Hr Hst Hroom.
  destruct (collect_lines T next_subrange Ha lock fuel (snd <$> ls) st Hf Hr Hst Hroom) as (st' & rss & E & H).
  exists st', rss. split; [| done]. unfold forkscan_proc_map_iterate, open_map. rewrite bind_ok, <- E.
  apply iterate_lines; [done |]. unfold map_fuel. cbn [rest]. pose proof (print_file_length ls Hl). lia.
Qed.

(** With a map of aligned regions and room for their ranges, the scan set that
    [forkscan_child] builds from it is, region by region, nothing for those
    left out and otherwise the region less Forkscan's own blocks. *)
Theorem map_ranges_correct T next_subrange lock fuel ls st :
  Subranges T next_subrange -> (forall q, q ∈ T -> q.1 mod 8 = 0 /\ q.2 mod 8 = 0) -> (length T + 1 < fuel)%nat ->
  lines_ok ls -> Forall region_ok (snd <$> ls) -> ranges_ok st ->
  g_n_ranges st + all_needs T (snd <$> ls) < MAX_MARK_AND_SWEEP_RANGES ->
  exists st' rss, forkscan_proc_map_iterate (collect_ranges next_subrange lock fuel) (Some (print_file ls)) st = Ok st' /\
    appended st (concat rss) st' /\ Forall2 (made_of T lock) (snd <$> ls) rss.
Proof.
  intros HT Ha Hf Hl Hr Hst Hroom.
  destruct (map_ranges_ok T next_subrange lock fuel ls st HT Ha Hf Hl Hr Hst Hroom) as (st' & rss & E & H1 & H2 & _).
  by exists st', rss.
Qed.

(** ** Witnesses *)

Lemma fits_by b n z bound :
  (1 <=? n)%nat && (0 <=? z) && (z <? b ^ Z.of_nat n) && (z <? bound) = true -> fits b n z bound.
Proof. unfold fits. rewrite !andb_true_iff, Nat.leb_le, Z.leb_le, !Z.ltb_lt. lia. Qed.

Definition demo_region (b e : Z) (p : string) : mapline_t := mk_mapline b e (chars "rw-p") 0 8 1 131 (chars p).

Definition demo_layout (pad : nat) (tl : string) : layout_t := mk_layout 8 8 8 2 2 3 pad (chars tl).

Definition demo_map : list (layout_t * mapline_t) :=
  [(demo_layout 3 " (deleted)", demo_region 0x400000 0x401000 "/bin/cat"); (demo_layout 1 "", demo_region 0x7000000 0x9000000 "")].

Lemma demo_lines_ok : lines_ok demo_map.
Proof.
  apply Forall_cons. split; [| apply Forall_cons; split; [| by apply Forall_nil]].
  - split; try (apply fits_by; by vm_compute).
    + split; [by repeat constructor | cbn; lia].
    + right. split; [cbn; lia |]. split; [by repeat constructor |]. split; [cbn; lia |]. split; [done |].
      split; [apply (bool_decide_unpack _); by vm_compute | done].
  - split; try (apply fits_by; by vm_compute).
    + split; [by repeat constructor | cbn; lia].
    + by left.
Qed.

Lemma read_mapline_roundtrip_witness :
  read_mapline (mk_stream (print_line (demo_layout 3 " (deleted)") (demo_region 0x400000 0x401000 "/bin/cat") ++ chars "next") false) =
  Ok (Some (demo_region 0x400000 0x401000 "/bin/cat"), mk_stream (chars "next") false).
Proof. apply read_mapline_roundtrip. pose proof demo_lines_ok as H. by apply Forall_cons in H as [H _]. Defined.

Lemma map_iterate_folds_witness :
  forkscan_proc_map_iterate (fun b e _ _ x => Ok (1, x + (e - b))) (Some (print_file demo_map)) 0 = Ok 0x2001000.
Proof. rewrite (map_iterate_folds _ demo_map 0 demo_lines_ok). by vm_compute. Defined.

Lemma stack_from_addr_correct_witness :
  forkscan_proc_stack_from_addr (Some (print_file demo_map)) 0x8000000 = Ok (mk_range 0x7000000 0x9000000).
Proof. rewrite (stack_from_addr_correct demo_map 0x8000000 demo_lines_ok) by lia. by vm_compute. Defined.

Definition long_region : mapline_t :=
  mk_mapline 0x400000 0x401000 (chars "rw-p") 0 8 1 131 ("/"%char :: replicate 255 "a"%char).

Lemma read_mapline_overflows_witness :
  read_mapline (mk_stream (print_line (demo_layout 3 "") long_region ++ []) false) = Err OutOfBounds.
Proof.
  apply (read_mapline_overflows 256).
  - split; try (apply fits_by; by vm_compute).
    + split; [by repeat constructor | cbn; lia].
    + right. split; [cbn; lia |]. split; [apply (bool_decide_unpack _); by vm_compute |]. split; [cbn; lia |]. split; [done |].
      split; [apply not_elem_of_nil | done].
  - cbn. lia.
Defined.

Lemma map_ranges_correct_witness :
  exists l fl, alloc_inv one_block l fl /\
  exists st' rss, forkscan_proc_map_iterate (collect_ranges (forkscan_alloc_next_subrange one_block) 0x5000 5)
      (Some (print_file demo_map)) no_ranges = Ok st' /\
    appended no_ranges (concat rss) st' /\ Forall2 (made_of (tracked (nodes one_block) l) 0x5000) (snd <$> demo_map) rss.
Proof.
  destruct one_block_ok as (l & fl & Hinv & HT). exists l, fl. split; [done |].
  destruct l as [|x l]; [by apply Permutation_nil in HT |].
  pose proof (Permutation_length HT) as Hlen. cbn [length] in Hlen.
  apply (map_ranges_correct (tracked (nodes one_block) (x :: l))).
  - by apply (alloc_subranges one_block x l fl).
  - intros q Hq. rewrite HT in Hq.
    apply elem_of_cons in Hq as [-> | ->%list_elem_of_singleton]; by vm_compute.
  - rewrite Hlen. lia.
  - apply demo_lines_ok.
  - apply Forall_cons. split; [| apply Forall_cons; split; [| by apply Forall_nil]]; (split; [cbn; lia | by split_and!]).
  - apply no_ranges_ok.
  - unfold all_needs, need, pieces. cbn [demo_map fmap list_fmap snd foldr demo_region range_begin range_end].
    pose proof (starts_in_le (tracked (nodes one_block) (x :: l)) 0x7000000 0x9000000).
    pose proof (starts_in_le (tracked (nodes one_block) (x :: l)) 0x400000 0x401000).
    change (g_n_ranges no_ranges) with 0. change ((0x9000000 - 0x7000000) / MAX_RANGE_SIZE) with 4.
    change ((0x401000 - 0x400000) / MAX_RANGE_SIZE) with 0.
    change (0x7000000 <? 0x9000000) with true. change (0x400000 <? 0x401000) with true. unfold MAX_MARK_AND_SWEEP_RANGES. lia.
Defined.
