(* ===== verification/Iteration.v ===== *)
(** child.c and forkscan.c: a whole iteration, from the buffers handed in to
    the nodes that are freed.

    [forkscan_child] puts together the map of the memory ([Maps]), the choice
    of the ranges ([Ranges]) and the scan by several processes ([Siblings]);
    it provides the interface [Scanner] that [Collect] relies on.  The result
    is the promise that Forkscan makes to its users. *)
From Stdlib Require Import Ascii String.
From S2P Require Import Prelude SortUtil AddrBuffer Search Mark Roots Alloc Ranges Child Siblings Buffer Gc Collect Maps.

#[local] Abbreviation unmarked := Mark.unmarked.

Section child.
Context (mem usable_size : Z -> Z).
Context (next_subrange : mem_range_t -> res (mem_range_t * mem_range_t)) (stderr_lock : Z) (fuel : nat).
Context (procmap : option (list ascii)) (tl : list stack_t) (max_children : Z).

(** The processes take turns as [schedule] says, given their number and that
    of the ranges. *)
Context (schedule : Z -> Z -> list nat).

(** The snapshot's ranges: the globals of a child are those of its parent,
    which never sets them. *)
Definition ranges_to_scan : res ranges_t :=
  let! st := forkscan_proc_map_iterate (collect_ranges next_subrange stderr_lock fuel) procmap no_ranges in
  add_stack_ranges tl st.

Definition forkscan_child (ab deadrefs : addr_buffer_t) : res addr_buffer_t :=
  let! st := ranges_to_scan in
  let n := n_siblings max_children (g_bytes_to_scan st) (g_n_ranges st) in
  siblings_scan mem usable_size st deadrefs (Z.to_nat n) (schedule n (g_n_ranges st)) ab.

End child.

(** * The heap *)

(** The blocks of the nodes to collect and of those known to be dead: words,
    disjoint. *)
Record heap_blocks (usable_size : Z -> Z) (nodes dead : list Z) : Prop := {
  hb_block : forall a, a ∈ nodes ++ dead ->
    0 < a /\ a mod 8 = 0 /\ 0 < usable_size a /\ usable_size a mod 8 = 0 /\ a + usable_size a < 2 ^ 64;
  hb_apart : forall a b, a ∈ nodes ++ dead -> b ∈ nodes ++ dead -> a <> b ->
    a + usable_size a <= b \/ b + usable_size b <= a;
  hb_disjoint : forall a, a ∈ nodes -> a ∉ dead }.

(** The word at [x] is in no block. *)
Definition outside (usable_size : Z -> Z) (blocks : list Z) (x : Z) : Prop :=
  forall a, a ∈ blocks -> ~ (a <= x < a + usable_size a).

Section heap.
Context (usable_size : Z -> Z) (nodes dead : list Z) (w d : addr_buffer_t).
Hypotheses (W : pool_wf w) (Hw : Permutation (content w) nodes) (Ha : forall x, x ∈ nodes -> size_ok x /\ aligned4 x)
  (Hn : 0 <= ab_n_addrs d <= zlen (ab_addrs d)) (Hd : Permutation (content d) dead)
  (Hinc : Gc.increasing (ab_addrs d) (ab_n_addrs d)) (Hlen : zlen dead <= 2 ^ 30)
  (Hb : heap_blocks usable_size nodes dead).

Lemma node_in_pool a : (exists i, 0 <= i < ab_n_addrs w /\ a = node w i) <-> a ∈ nodes.
Proof using W Hw Ha.
  pose proof (wf_n _ W). pose proof (wf_room _ W).
  assert (E : forall i, 0 <= i < ab_n_addrs w -> node w i = get (ab_addrs w) i /\ get (ab_addrs w) i ∈ nodes).
  { intros i Hi. assert (Hin : get (ab_addrs w) i ∈ nodes).
    { rewrite <- Hw. unfold content. apply first_n_elem; [lia |]. by exists i. }
    split; [| done]. unfold node. by apply PTR_MASK_aligned; apply Ha. }
  rewrite <- Hw. unfold content. rewrite first_n_elem by lia. split; intros (i & Hi & E1); exists i; (split; [done |]).
  - rewrite E1. symmetry. by apply E.
  - rewrite <- E1. symmetry. by apply E.
Qed.

Lemma dead_in_table a : (exists j, 0 <= j < ab_n_addrs d /\ a = get (ab_addrs d) j) <-> a ∈ dead.
Proof using Hn Hd.
  rewrite <- Hd. unfold content. rewrite first_n_elem by lia. by split; intros (j & Hj & E); exists j.
Qed.

Lemma blocks_listed a : is_block w d a <-> a ∈ nodes ++ dead.
Proof using W Hw Ha Hn Hd. unfold is_block. by rewrite node_in_pool, dead_in_table, elem_of_app. Qed.

Lemma in_block_outside x : ~ in_block usable_size w d x <-> outside usable_size (nodes ++ dead) x.
Proof using W Hw Ha Hn Hd.
  unfold in_block, outside. split.
  - intros H a Hin Hx. apply H. exists a. by rewrite blocks_listed.
  - intros H (a & Hin%blocks_listed & Hx). by apply (H a).
Qed.

Lemma layout_of_blocks : heap_layout usable_size w d.
Proof using All.
  assert (Hz : ab_n_addrs d = zlen dead).
  { unfold zlen. rewrite <- (Permutation_length Hd). fold (zlen (content d)). unfold content. by rewrite zlen_first_n. }
  split.
  - done.
  - lia.
  - intros i j Hi Hij Hj. by apply Hinc.
  - intros a Hin%blocks_listed. by apply (hb_block _ _ _ Hb).
  - intros a b Hin%blocks_listed Hin'%blocks_listed. by apply (hb_apart _ _ _ Hb).
  - intros i j Hi Hj E. apply (hb_disjoint _ _ _ Hb (node w i)).
    + apply node_in_pool. by exists i.
    + apply dead_in_table. by exists j.
Qed.
End heap.

(** * The scan *)

Section scan.
Context (mem usable_size : Z -> Z) (T : list (Z * Z)).
Context (next_subrange : mem_range_t -> res (mem_range_t * mem_range_t)) `{!Subranges T next_subrange}.
Context (lock : Z) (fuel : nat) (ls : list (layout_t * mapline_t)) (tl : list stack_t) (max_children : Z)
  (schedule : Z -> Z -> list nat).

(** The words of memory that an iteration looks at, blocks apart: those of the
    regions of the map that are not left out and not Forkscan's own, and those
    of the stacks. *)
Definition scanned_word (x : Z) : Prop := x mod 8 = 0 /\
  ((exists m, m ∈ snd <$> ls /\ skip_region lock (range_begin m) (range_end m) (bits m) (path m) = Ok false /\
      range_begin m <= x < range_end m /\ ~ covered T x) \/
   (exists r, r ∈ stack_ranges tl /\ in_range r x)).

(** What the map, the stacks and the scheduler have to be like: regions and
    stacks are made of words and there is room for their ranges; the processes
    get turns until the parent has been told. *)
Record snapshot_ok : Prop := {
  ss_own : (forall q, q ∈ T -> q.1 mod 8 = 0 /\ q.2 mod 8 = 0) /\ (length T + 1 < fuel)%nat;
  ss_lines : lines_ok ls /\ Forall region_ok (snd <$> ls);
  ss_stacks : forall r, r ∈ stack_ranges tl ->
    0 <= low r <= high r /\ high r < 2 ^ 64 /\ low r mod 8 = 0 /\ high r mod 8 = 0;
  ss_room : all_needs T (snd <$> ls) + Z.of_nat (length (stack_ranges tl)) <= MAX_MARK_AND_SWEEP_RANGES /\
    all_needs T (snd <$> ls) < MAX_MARK_AND_SWEEP_RANGES;
  ss_turns : forall m n, 1 <= m -> 0 <= n -> notified (run_siblings n (siblings_start (Z.to_nat m)) (schedule m n)) = true }.

Context (S : snapshot_ok).

Lemma made_words ms rss r x : Forall2 (made_of T lock) ms rss -> r ∈ concat rss -> in_range r x ->
  exists m, m ∈ ms /\ skip_region lock (range_begin m) (range_end m) (bits m) (path m) = Ok false /\
    range_begin m <= x < range_end m /\ ~ covered T x.
Proof using Type.
  intros H Hr Hx. induction H as [|m rs ms rss Hm _ IH]; cbn in Hr; [by apply not_elem_of_nil in Hr |].
  apply elem_of_app in Hr as [Hr | Hr].
  - destruct Hm as [[_ ->] | [Hs Hc]]; [by apply not_elem_of_nil in Hr |]. exists m. split; [left |]. split; [done |].
    pose proof (cv_each _ _ _ _ Hc r Hr). unfold in_range in Hx. split; [lia |]. by apply (cv_clean _ _ _ _ Hc r).
  - destruct (IH Hr) as (m' & Hin & H'). exists m'. split; [by right | done].
Qed.

Lemma word_made ms rss m x : Forall2 (made_of T lock) ms rss -> m ∈ ms ->
  skip_region lock (range_begin m) (range_end m) (bits m) (path m) = Ok false ->
  range_begin m <= x < range_end m -> ~ covered T x -> exists r, r ∈ concat rss /\ in_range r x.
Proof using Type.
  intros H Hin Hs Hx Hc. induction H as [|m' rs ms rss Hm _ IH]; [by apply not_elem_of_nil in Hin |].
  apply elem_of_cons in Hin as [-> | Hin].
  - destruct Hm as [[E _] | [_ Hcov]]; [by rewrite Hs in E |]. destruct (cv_full _ _ _ _ Hcov x Hx Hc) as (r & Hr & Hxr).
    exists r. split; [cbn; apply elem_of_app; by left | done].
  - destruct (IH Hin) as (r & Hr & Hxr). exists r. split; [cbn; apply elem_of_app; by right | done].
Qed.

Lemma made_aligned ms rss r : Forall2 (made_of T lock) ms rss -> Forall region_ok ms -> r ∈ concat rss ->
  0 <= low r <= high r /\ high r < 2 ^ 64 /\ low r mod 8 = 0 /\ high r mod 8 = 0.
Proof using Type.
  intros H Hok Hr. induction H as [|m rs ms rss Hm _ IH]; cbn in Hr; [by apply not_elem_of_nil in Hr |].
  apply Forall_cons in Hok as [(H1 & H2 & _) Hok]. apply elem_of_app in Hr as [Hr | Hr]; [| by apply IH].
  destruct Hm as [[_ ->] | [_ Hc]]; [by apply not_elem_of_nil in Hr |].
  pose proof (cv_each _ _ _ _ Hc r Hr). pose proof (cv_aligned _ _ _ _ Hc r Hr). lia.
Qed.

(** The ranges hold just these words. *)
Lemma ranges_to_scan_ok : exists st, ranges_to_scan next_subrange lock fuel (Some (print_file ls)) tl = Ok st /\
  ranges_ok st /\
  (forall r, r ∈ used st -> 0 <= low r <= high r /\ high r < 2 ^ 64 /\ low r mod 8 = 0 /\ high r mod 8 = 0) /\
  forall x, x mod 8 = 0 -> (exists r, r ∈ used st /\ in_range r x) <-> scanned_word x.
Proof using S Subranges0.
  destruct S as [[Ha Hf] [Hl Hr] Hs [Hroom Hroom'] _].
  destruct (map_ranges_ok T next_subrange lock fuel ls no_ranges _ Ha Hf Hl Hr no_ranges_ok Hroom')
    as (st1 & rss & E1 & (Hok1 & Hu1 & Hn1) & Hmade & Hlen).
  destruct (add_stack_ranges_appends tl st1 Hok1) as [Hadd _].
  cbn [no_ranges g_n_ranges] in Hn1.
  destruct Hadd as (st & E & (Hok & Hu & Hn) & _); [lia |].
  assert (Hused : used st = concat rss ++ stack_ranges tl) by (rewrite Hu, Hu1; done).
  exists st. unfold ranges_to_scan. rewrite E1, bind_ok. do 2 (split; [done |]). rewrite Hused. split.
  - intros r [Hr' | Hr']%elem_of_app; [by eapply made_aligned | by apply Hs].
  - intros x Hx. unfold scanned_word. split.
    + intros (r & [Hr' | Hr']%elem_of_app & Hin); (split; [done |]); [left; by eapply made_words | right; by exists r].
    + intros [_ [(m & Hm & Hskip & Hin & Hcov) | (r & Hr' & Hin)]].
      * destruct (word_made _ _ m x Hmade Hm Hskip Hin Hcov) as (r & Hr' & Hin'). exists r. split; [apply elem_of_app; by left | done].
      * exists r. split; [apply elem_of_app; by right | done].
Qed.


(** What the scan has to mark and what it may mark. *)
Definition referenced (blocks : list Z) (v : Z) : Prop :=
  exists x, scanned_word x /\ outside usable_size blocks x /\ ref_at mem x = v.

Definition held (blocks : list Z) (v : Z) : Prop :=
  exists u, referenced blocks u /\ (v = u \/ v ∈ refs mem usable_size u).

Definition child_pre (blocks : list Z) (w d : addr_buffer_t) : Prop :=
  heap_layout usable_size w d /\ forall x, ~ in_block usable_size w d x <-> outside usable_size blocks x.

Lemma child_scanner blocks :
  Scanner (child_pre blocks) (referenced blocks) (held blocks)
    (forkscan_child mem usable_size next_subrange lock fuel (Some (print_file ls)) tl max_children schedule).
Proof using S Subranges0.
  intros w d (L & Hout). destruct ranges_to_scan_ok as (st & E & Hok & Hr & Hwords).
  unfold forkscan_child. rewrite E, bind_ok. pose proof (hl_pool _ _ _ L) as W.
  set (m := n_siblings _ _ _). assert (Hm : 1 <= m) by (unfold m, n_siblings; rewrite MAX_OF_max; lia).
  destruct (siblings_scan_ok mem usable_size st w d (Z.to_nat m) (schedule m (g_n_ranges st)) L Hok Hr)
    as (ab & us & Eab & Hus & Hmay & Htold & Es).
  rewrite (ss_turns S) in Htold, Es by (done || apply Hok). rewrite Es. wp_step. subst ab.
  assert (Href : forall u, range_ref mem usable_size st w d u <-> referenced blocks u).
  { intros u. unfold range_ref, range_word, referenced. split.
    - intros (rid & x & Hrid & (r & Hrr & Hx & Hin & Hb) & Eu). exists x. split; [| by rewrite <- Hout].
      apply Hwords; [done |]. exists r. split; [| done]. unfold used. apply list_elem_of_lookup. exists (Z.to_nat rid).
      by rewrite lookup_take_lt by lia.
    - intros (x & Hx & Hb & Eu). pose proof Hx as [Hx8 _]. apply Hwords in Hx as (r & Hrr & Hin); [| done].
      unfold used in Hrr. apply list_elem_of_lookup in Hrr as [i Hi]. apply lookup_take_Some in Hi as [Hi Hlt].
      exists (Z.of_nat i), x. split; [lia |]. split; [| done]. exists r. rewrite Nat2Z.id. split; [done |].
      split; [done |]. split; [done |]. by apply Hout. }
  split; [by apply mark_all_remarked |]. split.
  - intros v Hv. by apply Htold; [| apply Href].
  - intros v Hv Hm'. assert (Hvus : v ∈ us).
    { destruct (decide (v ∈ us)); [done |]. destruct Hm'. by apply unmarked_mark_all. }
    destruct (Hmay v Hvus) as (u & Hu & Hvu). exists u. split; [by apply Href | done].
Qed.

Lemma child_may_scan s old p pd dl k l :
  collect_ready s old p pd dl k l ->
  let nodes := nodes_of s old dl in
  let dead := take (Z.to_nat (g_default_capacity s)) (dead_of (store s) k) in
  heap_blocks usable_size nodes dead -> may_scan (child_pre (nodes ++ dead)) nodes dead.
Proof using Type.
  intros C nodes dead Hb w d W Hw Hn Hd Hinc. pose proof (cr_default _ _ _ _ _ _ _ C) as Hc.
  destruct (cr_nodes _ _ _ _ _ _ _ C) as (_ & _ & Ha).
  assert (Ha' : forall x, x ∈ nodes -> size_ok x /\ aligned4 x) by (intros x Hx; by destruct (Ha x Hx) as (? & _ & ?)).
  assert (Hlen : zlen dead <= 2 ^ 30) by (unfold dead, zlen; rewrite length_take; lia).
  split; [by apply (layout_of_blocks usable_size nodes dead) |].
  intros x. by apply (in_block_outside usable_size nodes dead).
Qed.

End scan.

(** * Properties *)

(** C1: What Forkscan promises.  An iteration ends without an error; a retired
    node to which some word of the scanned memory refers, in a region of the
    map, outside Forkscan's own memory and outside the nodes' blocks, or in a
    stack, is not among those to be freed but is tried again in the next
    iteration; and only nodes with such a reference, or with one from a node
    that has, are kept.  Every node is either kept or to be freed.  Any number
    of processes scan, in any order. *)
Theorem referenced_nodes_survive mem usable_size T next_subrange `{!Subranges T next_subrange}
    lock fuel ls tl max_children schedule s old p pd dl k l :
  let nodes := nodes_of s old dl in
  let dead := take (Z.to_nat (g_default_capacity s)) (dead_of (store s) k) in
  let blocks := nodes ++ dead in
  collect_ready s old p pd dl k l -> heap_blocks usable_size nodes dead ->
  snapshot_ok T fuel ls tl schedule ->
  exists u s' wd w d c,
    reclaim_iteration (forkscan_child mem usable_size next_subrange lock fuel (Some (print_file ls)) tl max_children schedule)
      old p s = Ok (u, s') /\
    retirees s' (k ++ [wd]) /\ store s' !! wd = Some w /\
    store s' !! u = Some d /\ u <> wd /\ collecting c d (survivors (content w)) /\
    Permutation (survivors (content w) ++ garbage (content w)) nodes /\
    (forall x, scanned_word T lock ls tl x -> outside usable_size blocks x -> ref_at mem x ∈ nodes ->
       ref_at mem x ∈ survivors (content w) /\ ref_at mem x ∉ garbage (content w)) /\
    (forall v, v ∈ survivors (content w) -> held mem usable_size T lock ls tl blocks v).
Proof.
  intros nodes dead blocks C Hb S.
  pose proof (child_scanner mem usable_size T next_subrange lock fuel ls tl max_children schedule S blocks) as Hscan.
  pose proof (child_may_scan usable_size s old p pd dl k l C Hb) as Hpre.
  pose proof (reclaim_wp _ _ _ _ s old p pd dl k l C Hpre) as Hw.
  apply wp_iff in Hw as ([u s'] & E & [(wd & w & Hr & Hs & _ & _ & _ & (d & c & Hd & Hu & Hc) & Hperm & _ & [Hkept Hheld] & _)]).
  exists u, s', wd, w, d, c. do 7 (split; [done |]). split; [| done]. intros x Hx Hout Hin.
  assert (Hsv : ref_at mem x ∈ survivors (content w)) by (apply Hkept; [done | by exists x]). split; [done |].
  pose proof (cr_nodes _ _ _ _ _ _ _ C) as (_ & Hnd & _). rewrite <- Hperm in Hnd.
  apply NoDup_app in Hnd as (_ & D & _). by apply D.
Qed.

(** ** A witness *)

(** Nodes of a word each; a global of the program refers to the second. *)
Definition demo_word : Z -> Z := fun a => if a =? 0x400100 then 32 else 0.
Definition demo_size : Z -> Z := fun _ => 8.
Definition demo_turns (_ n : Z) : list nat := replicate (2 * Z.to_nat n + 2) 0%nat.
Definition demo_stacks : list stack_t := [mk_stack 0xa000000 0xa200000 true; mk_stack 0x1000 0x2000 false].

Lemma demo_snapshot_ok l : Permutation (tracked (nodes one_block) l) [(0x8000000, 0x8002000); (0x7000000, 0x7001000)] ->
  snapshot_ok (tracked (nodes one_block) l) 5 demo_map demo_stacks demo_turns.
Proof.
  intros HT. pose proof (Permutation_length HT) as Hlen. cbn [length] in Hlen. split.
  - split; [| lia]. intros q Hq. rewrite HT in Hq. apply elem_of_cons in Hq as [-> | ->%list_elem_of_singleton]; by vm_compute.
  - split; [apply demo_lines_ok |].
    apply Forall_cons. split; [| apply Forall_cons; split; [| by apply Forall_nil]]; (split; [cbn; lia | by split_and!]).
  - intros r Hr. apply list_elem_of_singleton in Hr as ->. by vm_compute.
  - pose proof (starts_in_le (tracked (nodes one_block) l) 0x7000000 0x9000000).
    pose proof (starts_in_le (tracked (nodes one_block) l) 0x400000 0x401000).
    unfold all_needs, need, pieces. cbn [demo_map fmap list_fmap snd foldr demo_region range_begin range_end].
    change ((0x9000000 - 0x7000000) / MAX_RANGE_SIZE) with 4. change ((0x401000 - 0x400000) / MAX_RANGE_SIZE) with 0.
    change (0x7000000 <? 0x9000000) with true. change (0x400000 <? 0x401000) with true.
    change (length (stack_ranges demo_stacks)) with 1%nat. unfold MAX_MARK_AND_SWEEP_RANGES. lia.
  - intros m n Hm Hn. unfold demo_turns. replace (Z.to_nat m) with (Datatypes.S (Z.to_nat m - 1)) by lia. by apply one_tells.
Qed.

Lemma demo_nodes a : a ∈ [16; 32; 48] ++ [] -> a = 16 \/ a = 32 \/ a = 48.
Proof. intros [-> | [-> | [-> | []%not_elem_of_nil]%elem_of_cons]%elem_of_cons]%elem_of_cons; auto. Qed.

Lemma demo_heap : heap_blocks demo_size [16; 32; 48] [].
Proof.
  split.
  - intros a [-> | [-> | ->]]%demo_nodes; by vm_compute.
  - intros a b Ha%demo_nodes Hb%demo_nodes Hne. unfold demo_size. lia.
  - intros a _. apply not_elem_of_nil.
Qed.

(** Where the reference is. *)
Lemma demo_scanned l : Permutation (tracked (nodes one_block) l) [(0x8000000, 0x8002000); (0x7000000, 0x7001000)] ->
  scanned_word (tracked (nodes one_block) l) 0x5000 demo_map demo_stacks 0x400100.
Proof.
  intros HT. split; [done |]. left. exists (demo_region 0x400000 0x401000 "/bin/cat"). split; [left |].
  split; [by vm_compute |]. split; [cbn; lia |]. intros (q & Hq & Hqx). rewrite HT in Hq. unfold within in Hqx.
  apply elem_of_cons in Hq as [-> | ->%list_elem_of_singleton]; cbn in Hqx; lia.
Qed.

Lemma demo_outside : outside demo_size ([16; 32; 48] ++ []) 0x400100.
Proof. intros a [-> | [-> | ->]]%demo_nodes; unfold demo_size; lia. Qed.

Lemma referenced_nodes_survive_witness :
  exists u s' wd w,
    reclaim_iteration (forkscan_child demo_word demo_size (forkscan_alloc_next_subrange one_block) 0x5000 5
      (Some (print_file demo_map)) demo_stacks 16 demo_turns) 0 0x10 demo_handed_in = Ok (u, s') /\
    store s' !! wd = Some w /\ 32 ∈ survivors (content w) /\ 32 ∉ garbage (content w).
Proof.
  destruct one_block_ok as (l & fl & Hinv & HT). destruct l as [|x l]; [by apply Permutation_nil in HT |].
  pose proof (alloc_subranges one_block x l fl Hinv) as Hsub. pose proof (demo_snapshot_ok (x :: l) HT) as Hsnap.
  pose proof demo_heap as Hb.
  destruct (referenced_nodes_survive demo_word demo_size (tracked (nodes one_block) (x :: l))
    (forkscan_alloc_next_subrange one_block) 0x5000 5 demo_map demo_stacks 16 demo_turns
    demo_handed_in 0 0x10 0 [0x10; 0x20] [] [] demo_collect Hb Hsnap)
    as (u & s' & wd & w & d & c & E & _ & Hw & _ & _ & _ & _ & Hkeep & _).
  exists u, s', wd, w. split; [exact E |]. split; [exact Hw |].
  apply (Hkeep 0x400100); [by apply demo_scanned | apply demo_outside | by vm_compute; right; left].
Defined.
