(* ===== verification/Cycle.v ===== *)
(** forkscan.c, buffer.c, util.c: one iteration after another.

    [Collect] has one iteration of the collector, from a state that is fit for
    it.  Here is the life of the buffers between: threads take buffers, fill
    them and hand them in, hold the oldest retiree, free its nodes and give it
    back, and the collector iterates.  The steps are the operations of
    [Buffer] and [Gc], each a critical section or an atomic access, and, for a
    thread that frees, the turns of [Free], so with both reads of [free_idx]:
    a thread can get behind the entries of its buffer, as
    [Free.free_overruns_buffer] shows, and what it does there is part of the
    model.  The theorems have as a hypothesis that no thread is there yet
    ([within], and for progress [on_time]): then, whatever the order, every
    node that was retired is either freed or still somewhere to be freed, once,
    and the collector finds what it needs. *)
From S2P Require Import Prelude SortUtil AddrBuffer Mark Roots Alloc Ranges Child Siblings Buffer Gc Free Collect Maps Iteration.

(** * The buffers and their users *)

(** What someone who has a retiree is at: a thread, at a place in the loop of
    [forkscan_util_free_ptrs]; or the collector, in [Overlap], which divides
    it. *)
Inductive role_t : Type := At (pc : free_pc) | Dividing.

#[export] Instance free_pc_eq_dec : EqDecision free_pc.
Proof. solve_decision. Defined.

#[export] Instance role_eq_dec : EqDecision role_t.
Proof. solve_decision. Defined.

(** [g_addr_buffer] is the list handed in, [filling] are the buffers reclaimers
    have taken, [holders] the places of those that have a retiree; [retired]
    are all the nodes handed in so far.  [transit] are nodes that the collector
    is about to copy, in [Overlap]; between iterations there are none. *)
Record cycle_t : Type := mk_cycle {
  common : shared_t;
  g_uncollected_data : Z;
  g_addr_buffer : Z;
  filling : list Z;
  holders : list (place_t * role_t);
  retired : list Z;
  transit : list Z }.

Definition cycle_start : cycle_t := mk_cycle (mk_shared (buffers_start []) []) 0 0 [] [] [] [].

Definition buffers (c : cycle_t) : buffers_t := bufs (common c).
Definition freed_nodes (g : shared_t) : list Z := snd <$> freed g.

Definition set_common (c : cycle_t) g := mk_cycle g (g_uncollected_data c) (g_addr_buffer c) (filling c) (holders c) (retired c) (transit c).
Definition set_buffers (c : cycle_t) s := set_common c (set_bufs (common c) s).
Definition set_filling (c : cycle_t) f := mk_cycle (common c) (g_uncollected_data c) (g_addr_buffer c) f (holders c) (retired c) (transit c).
Definition set_holders (c : cycle_t) h := mk_cycle (common c) (g_uncollected_data c) (g_addr_buffer c) (filling c) h (retired c) (transit c).

(** [become_reclaimer] and [forkscan_initiate_collection]: the buffer holds [vs]
    and is put in front of those handed in. *)
Definition fill (vs : list Z) (next : Z) (d : addr_buffer_t) : addr_buffer_t :=
  with_next next (with_n_addrs (zlen vs) (set_addrs d (vs ++ drop (length vs) (ab_addrs d)))).

Definition hand_in (c : cycle_t) (ab : Z) (vs : list Z) (s : buffers_t) (f : list Z) : cycle_t :=
  mk_cycle (set_bufs (common c) s) (g_uncollected_data c) ab f (holders c) (vs ++ retired c) (transit c).

(** [reclaim_iteration], of all that has been handed in. *)
Definition iterated (c : cycle_t) (u : Z) (s : buffers_t) : cycle_t :=
  mk_cycle (set_bufs (common c) s) u 0 (filling c) (holders c) (retired c) (transit c).

(** A node as [malloc] hands it out. *)
Definition node_ok (v : Z) : Prop := size_ok v /\ 4 <= v /\ aligned4 v.

(** What the program owes: it retires a node once, and again only when it has
    been freed and allocated anew; the pending nodes fit into an aggregate. *)
Definition may_retire (c : cycle_t) (vs : list Z) : Prop :=
  NoDup vs /\ (forall v, v ∈ vs ->
    node_ok v /\ count_occ Z.eq_dec (retired c) v = count_occ Z.eq_dec (freed_nodes (common c)) v) /\
  zlen vs + zlen (retired c) - zlen (freed_nodes (common c)) <= 2 ^ 30 - 512.

(** What the collector needs: something to collect, and memory. *)
Definition may_iterate (c : cycle_t) (dl : list Z) : Prop :=
  (dl <> []) /\ zlen dl <= 2 ^ 20 /\ (nodes_of (buffers c) (g_uncollected_data c) dl <> []) /\
  (3 <= length (blocks (buffers c)))%nat.

Section cycle.
Context (ptrs_per_thread : Z).

(** A thread goes on having its buffer until it has given it back. *)
Definition holding (t : place_t) (pc : free_pc) : list (place_t * role_t) :=
  if retiree_buffer t =? 0 then [] else [(t, At pc)].

(** The steps of the threads: of reclaimers, of a thread that has no retiree and
    gets one, of one that has, and of the kernel, which has memory. *)
Inductive thread_step (c : cycle_t) : cycle_t -> Prop :=
  | takes_buffer ab s' :
      forkscan_make_reclaimer_buffer ptrs_per_thread (buffers c) = Ok (ab, s') ->
      thread_step c (set_filling (set_buffers c s') (ab :: filling c))
  | hands_in ab f1 f2 vs s' :
      filling c = f1 ++ ab :: f2 -> may_retire c vs -> zlen vs <= ptrs_per_thread * MAX_THREAD_COUNT ->
      buf_modify (buffers c) ab (fill vs (g_addr_buffer c)) = Ok s' ->
      thread_step c (hand_in c ab vs s' (f1 ++ f2))
  | takes_retiree b e pc t g' :
      free_turn (At_top, mk_place 0 b e) (common c) = Ok ((pc, t), g') -> retiree_buffer t <> 0 ->
      thread_step c (set_holders (set_common c g') ((t, At pc) :: holders c))
  | frees h1 t pc h2 pc' t' g' :
      holders c = h1 ++ (t, At pc) :: h2 -> free_turn (pc, t) (common c) = Ok ((pc', t'), g') ->
      thread_step c (set_holders (set_common c g') (h1 ++ holding t' pc' ++ h2))
  | maps b :
      b <> 0 -> store (buffers c) !! b = None -> (b ∉ blocks (buffers c)) ->
      thread_step c (set_buffers c (set_memory (buffers c) (blocks (buffers c) ++ [b]) (unmapped (buffers c)))).

(** The steps of the threads, and an iteration of the collector. *)
Inductive cycle_step (c : cycle_t) : cycle_t -> Prop :=
  | threads c' : thread_step c c' -> cycle_step c c'
  | iterates scan pre must may dl k u s' :
      Scanner pre must may scan -> bchain (store (buffers c)) (g_addr_buffer c) dl -> retirees (buffers c) k ->
      may_iterate c dl ->
      may_scan pre (nodes_of (buffers c) (g_uncollected_data c) dl)
        (take (Z.to_nat (g_default_capacity (buffers c))) (dead_of (store (buffers c)) k)) ->
      reclaim_iteration scan (g_uncollected_data c) (g_addr_buffer c) (buffers c) = Ok (u, s') ->
      cycle_step c (iterated c u s').

Inductive cycle_reachable : cycle_t -> Prop :=
  | cycle_starts : cycle_reachable cycle_start
  | cycle_goes c c' : cycle_reachable c -> cycle_step c c' -> cycle_reachable c'.

End cycle.

(** No thread is behind the entries of its buffer. *)
Definition within (h : list (place_t * role_t)) : Prop := forall t pc, (t, At pc) ∈ h -> ~ beyond pc t.

(** * The turns of a thread *)

(** [free_turn], taken apart. *)
Inductive turn (t : place_t) (g : shared_t) : free_pc -> free_pc -> place_t -> shared_t -> Prop :=
  | turn_top : turn t g At_top (if begin_retiree_idx t =? end_retiree_idx t then At_test else At_entry) t g
  | turn_test d : store (bufs g) !! retiree_buffer t = Some d ->
      turn t g At_test (if ab_free_idx d >=? ab_n_addrs d then At_pop else At_read) t g
  | turn_read d : store (bufs g) !! retiree_buffer t = Some d -> turn t g At_read (At_claim (ab_free_idx d)) t g
  | turn_claim i d e g' : store (bufs g) !! retiree_buffer t = Some d -> Free.range_end (ab_n_addrs d) i = Ok e ->
      claim (retiree_buffer t) i e g = Ok (true, g') -> turn t g (At_claim i) At_entry (mk_place (retiree_buffer t) i e) g'
  | turn_miss i d e : store (bufs g) !! retiree_buffer t = Some d -> Free.range_end (ab_n_addrs d) i = Ok e ->
      claim (retiree_buffer t) i e g = Ok (false, g) -> turn t g (At_claim i) At_top t g
  | turn_entry t' g' : free_entry t g = Ok (t', g') -> turn t g At_entry At_top t' g'
  | turn_pop s : forkscan_buffer_pop_retiree_buffer (retiree_buffer t) (bufs g) = Ok s ->
      turn t g At_pop At_unref t (set_bufs g s)
  | turn_unref s : forkscan_buffer_unref_buffer (retiree_buffer t) (bufs g) = Ok s ->
      turn t g At_unref At_top (mk_place 0 (begin_retiree_idx t) (end_retiree_idx t)) (set_bufs g s).

Lemma free_turn_inv t g pc pc' t' g' : retiree_buffer t <> 0 -> free_turn (pc, t) g = Ok ((pc', t'), g') ->
  turn t g pc pc' t' g'.
Proof.
  intros H0. apply Z.eqb_neq in H0 as E0. unfold free_turn. destruct pc as [| | | i | | |].
  - rewrite E0. intros [= <- <- <-]. unfold go_on. rewrite E0. constructor.
  - intros (d & [_ Hd]%buf_load_inv & [= <- <- <-])%bind_inv. by constructor.
  - intros (d & [_ Hd]%buf_load_inv & [= <- <- <-])%bind_inv. by constructor.
  - intros (d & [_ Hd]%buf_load_inv & (e & He & ([ok g1] & Hc & E)%bind_inv)%bind_inv)%bind_inv.
    destruct ok; injection E as <- <- <-; [by eapply turn_claim |].
    assert (g1 = g) as ->; [| by eapply turn_miss]. unfold claim in Hc. by run_inv.
  - intros ([t1 g1] & E & [= <- <- <-])%bind_inv. by constructor.
  - intros (s & E & [= <- <- <-])%bind_inv. by constructor.
  - intros (s & E & [= <- <- <-])%bind_inv. by constructor.
Qed.

Lemma turn_free t g pc pc' t' g' : retiree_buffer t <> 0 -> turn t g pc pc' t' g' -> free_turn (pc, t) g = Ok ((pc', t'), g').
Proof.
  intros H0 T. apply Z.eqb_neq in H0 as E0.
  assert (Hl : forall d, store (bufs g) !! retiree_buffer t = Some d -> buf_load (bufs g) (retiree_buffer t) = Ok d).
  { intros d Hd. unfold buf_load. by rewrite E0, Hd. }
  destruct T; unfold free_turn; rewrite ?E0; try (match goal with H : store _ !! _ = Some _ |- _ => rewrite (Hl _ H), bind_ok end);
    repeat match goal with H : ?x = Ok _ |- context [?x] => rewrite H, bind_ok end; try done.
  unfold go_on. by rewrite E0.
Qed.

(** What every thread in the loop is like, behind the entries or not. *)
Definition placed (h : list (place_t * role_t)) : Prop := forall t pc, (t, At pc) ∈ h ->
  retiree_buffer t <> 0 /\ match pc with At_top | At_entry => True | _ => begin_retiree_idx t = end_retiree_idx t end.

Lemma take_turn g b e pc t g' : free_turn (At_top, mk_place 0 b e) g = Ok ((pc, t), g') -> retiree_buffer t <> 0 ->
  pc = At_test /\ take_retiree g = Ok (t, g').
Proof.
  unfold free_turn. cbn. intros ([t1 g1] & E & [= <- <- <-])%bind_inv Ht. split; [| done].
  unfold take_retiree in E. apply bind_inv in E as ([ab s] & _ & [= <- <-]). unfold go_on. cbn in *.
  by apply Z.eqb_neq in Ht as ->.
Qed.

Lemma free_entry_place t g t' g' : free_entry t g = Ok (t', g') ->
  t' = mk_place (retiree_buffer t) (begin_retiree_idx t + 1) (end_retiree_idx t).
Proof.
  unfold free_entry. intros (d & _ & (v & _ & (j & Hj%int_chk_inv & E)%bind_inv)%bind_inv)%bind_inv.
  unfold assert in E. run_inv; done.
Qed.

Lemma turn_placed t g pc pc' t' g' : turn t g pc pc' t' g' -> retiree_buffer t <> 0 ->
  match pc with At_top | At_entry => True | _ => begin_retiree_idx t = end_retiree_idx t end ->
  retiree_buffer t' = 0 \/ retiree_buffer t' <> 0 /\ match pc' with At_top | At_entry => True | _ => begin_retiree_idx t' = end_retiree_idx t' end.
Proof.
  intros T H0 Hp. destruct T; try (by right); try (by left); try (right; split; [done |]; by case_match).
  - right. split; [done |]. destruct (Z.eqb_spec (begin_retiree_idx t) (end_retiree_idx t)); done.
  - right. split; [| done]. match goal with H : free_entry _ _ = _ |- _ => by rewrite (free_entry_place _ _ _ _ H) end.
Qed.

Lemma thread_step_placed ptrs c c' : thread_step ptrs c c' -> placed (holders c) -> placed (holders c').
Proof.
  intros S H. destruct S as [| | b e pc t g' E Ht | h1 t pc h2 pc' t' g' Eh E |]; try exact H; cbn.
  - destruct (take_turn _ _ _ _ _ _ E Ht) as [-> E']. intros t0 pc0 [[= -> ->] | Hin]%elem_of_cons; [| by apply H].
    unfold take_retiree in E'. apply bind_inv in E' as ([ab s] & _ & [= <- <-]). done.
  - destruct (H t pc ltac:(rewrite Eh; apply elem_of_mid)) as [H0 Hp].
    destruct (turn_placed _ _ _ _ _ _ (free_turn_inv _ _ _ _ _ _ H0 E) H0 Hp) as [E0 | [E0 Hp']].
    + intros t0 pc0. unfold holding. rewrite E0. cbn. intros Hin. apply H. rewrite Eh. apply in_mid. by right.
    + intros t0 pc0. unfold holding. rewrite (proj2 (Z.eqb_neq _ _) E0). intros [[= -> ->] | Hin]%in_mid; [by split |].
      apply H. rewrite Eh. apply in_mid. by right.
Qed.

(** A thread that is behind the entries stays there. *)
Lemma within_before ptrs c c' : thread_step ptrs c c' -> placed (holders c) -> within (holders c') -> within (holders c).
Proof.
  intros S Hp H. destruct S as [| | b e pc t g' E Ht | h1 t pc h2 pc' t' g' Eh E |]; try exact H; cbn in H.
  - intros t0 pc0 Hin. apply H. by right.
  - intros t0 pc0 Hin Hb. rewrite Eh in Hin. apply in_mid in Hin as [[= -> ->] | Hin].
    2: { apply (H t0 pc0); [| done]. apply elem_of_app in Hin as [? | ?]; rewrite !elem_of_app; tauto. }
    destruct (Hp t pc ltac:(rewrite Eh; apply elem_of_mid)) as [H0 Hpc]. apply Z.eqb_neq in H0 as E0.
    assert (Hin : forall p u, retiree_buffer u = retiree_buffer t -> (u, At p) ∈ h1 ++ holding u p ++ h2).
    { intros p u Eu. unfold holding. rewrite Eu, E0. apply elem_of_mid. }
    pose proof (free_turn_inv _ _ _ _ _ _ H0 E) as T. destruct Hb as [_ Hb]. destruct T; try (by exfalso; destruct Hb as [? | [? _]]; [lia |]).
    + apply (H _ _ (Hin _ _ eq_refl)). assert (end_retiree_idx t < begin_retiree_idx t) by (destruct Hb as [? | [? _]]; done).
      destruct (Z.eqb_spec (begin_retiree_idx t) (end_retiree_idx t)); [lia |]. split; [done | by left].
    + match goal with F : free_entry _ _ = _ |- _ => pose proof (free_entry_place _ _ _ _ F) as -> end.
      apply (H _ _ (Hin _ (mk_place (retiree_buffer t) (begin_retiree_idx t + 1) (end_retiree_idx t)) eq_refl)). split; cbn; [done | lia].
Qed.

Lemma within_app h h' : within h -> (forall t pc, (t, At pc) ∉ h') -> within (h ++ h').
Proof. intros H Hn t pc [Hin | Hin]%elem_of_app; [by apply H | by destruct (Hn t pc)]. Qed.

(** * Who has which buffer *)

(** How many threads hold the buffer. *)
Definition refs (h : list (place_t * role_t)) (q : Z) : nat := count_occ Z.eq_dec (retiree_buffer ∘ fst <$> h) q.

#[local] Arguments refs : simpl never.

(** How many threads have entry [i] of the buffer in their range. *)
Definition covers (q i : Z) (h : place_t * role_t) : bool :=
  (retiree_buffer (fst h) =? q) && (begin_retiree_idx (fst h) <=? i) && (i <? end_retiree_idx (fst h)).
Definition cover (h : list (place_t * role_t)) (q i : Z) : nat := length (List.filter (covers q i) h).

#[local] Arguments cover : simpl never.

Section invariant.
Context (N : Z).

(** A buffer for reclaimers. *)
Record small_ok (d : addr_buffer_t) : Prop := {
  sm_flag : ab_is_aggregate d = 0;
  sm_capacity : ab_capacity d = N;
  sm_addrs : zlen (ab_addrs d) = N;
  sm_ref : ab_ref_count d = 0;
  sm_n : 0 <= ab_n_addrs d <= N }.

(** A retiree: an aggregate with as many references as threads hold it, in
    which every claimed node that is not freed yet is in the range of one of
    them, and of only one; what is not claimed, or in a range, is a node. *)
Record retiree_ok (h : list (place_t * role_t)) (q : Z) (d : addr_buffer_t) : Prop := {
  re_agg : aggregate_ok (with_ref_count 0 d);
  re_refs : ab_ref_count d = Z.of_nat (refs h q);
  re_n : 0 <= ab_free_idx d <= ab_n_addrs d /\ ab_n_addrs d <= ab_capacity d;
  re_claimed : forall i, 0 <= i < ab_free_idx d ->
    (cover h q i = 1%nat /\ entry_ok (get (ab_addrs d) i)) \/
    (cover h q i = 0%nat /\ Buffer.unmarked (get (ab_addrs d) i) = false);
  re_fresh : forall i, ab_free_idx d <= i < ab_n_addrs d -> entry_ok (get (ab_addrs d) i) }.

(** Who may take the buffer off the list yet. *)
Definition active (b : role_t) : bool := match b with At At_unref | Dividing => false | _ => true end.

(** Where a thread is in the loop agrees with its range. *)
Definition at_ok (x : list Z) (t : place_t) (pc : free_pc) : Prop :=
  match pc with
  | At_top => True
  | At_test | At_read | At_pop => begin_retiree_idx t = end_retiree_idx t
  | At_claim i => begin_retiree_idx t = end_retiree_idx t /\ 0 <= i
  | At_entry => begin_retiree_idx t < end_retiree_idx t
  | At_unref => begin_retiree_idx t = end_retiree_idx t /\ (retiree_buffer t ∈ x)
  end.

(** A thread's range is part of what has been claimed; its buffer is the first
    of the retirees, or off the list; it only takes it off when all is
    claimed. *)
Record holder_ok (m : gmap Z addr_buffer_t) (k x : list Z) (t : place_t) (b : role_t) : Prop := {
  ho_range : 0 <= begin_retiree_idx t <= end_retiree_idx t /\
    forall d, m !! retiree_buffer t = Some d -> end_retiree_idx t <= ab_free_idx d /\ (b = At At_pop -> ab_n_addrs d <= ab_free_idx d);
  ho_buffer : retiree_buffer t ∈ k ++ x;
  ho_first : b <> Dividing -> retiree_buffer t ∈ k -> hd 0 k = retiree_buffer t;
  ho_at : forall pc, b = At pc -> at_ok x t pc }.

(** Where the nodes are that have not been freed. *)
Definition pending (c : cycle_t) (dl k x : list Z) : list Z :=
  nodes_of (buffers c) (g_uncollected_data c) dl ++ transit c ++ dead_of (store (buffers c)) (k ++ x).

Definition owned (c : cycle_t) (r dl k x l : list Z) : list Z :=
  filling c ++ r ++ dl ++ k ++ x ++ supply (buffers c) (g_uncollected_data c) (g_dead_references (buffers c)) l.

(** The reclaimers' buffers [r] wait to be filled, [dl] have been handed in,
    the retirees are [k], those in [x] are off the list but in use, the
    aggregates [l] wait. *)
Record cycle_inv (c : cycle_t) (r dl k x l : list Z) : Prop := {
  ci_reclaimers : bchain (store (buffers c)) (g_reclaimer_list (buffers c)) r;
  ci_handed : bchain (store (buffers c)) (g_addr_buffer c) dl;
  ci_retirees : retirees (buffers c) k;
  ci_waiting : waiting (buffers c) l;
  ci_owned : NoDup (owned c r dl k x l) /\ (0 ∉ filling c ++ x ++ blocks (buffers c));
  ci_small : forall q, q ∈ filling c ++ r ++ dl -> exists d, store (buffers c) !! q = Some d /\ small_ok d;
  ci_default : g_default_capacity (buffers c) = N \/
    (g_default_capacity (buffers c) = 0 /\ filling c ++ r ++ dl = [] /\ g_dead_references (buffers c) = 0);
  ci_old : g_uncollected_data c <> 0 -> exists o, store (buffers c) !! g_uncollected_data c = Some o /\
    aggregate_ok o /\ 0 <= ab_n_addrs o <= ab_capacity o;
  ci_dead : g_dead_references (buffers c) <> 0 -> exists d, store (buffers c) !! g_dead_references (buffers c) = Some d /\
    zlen (ab_addrs d) = N /\ ab_capacity d = N;
  ci_retired : forall q, q ∈ k ++ x -> exists d, store (buffers c) !! q = Some d /\ retiree_ok (holders c) q d /\
    (q ∈ x -> ab_free_idx d = ab_n_addrs d);
  ci_holders : forall t b, (t, b) ∈ holders c -> holder_ok (store (buffers c)) k x t b;
  ci_listed : forall q d, q ∈ k -> store (buffers c) !! q = Some d -> ab_free_idx d = ab_n_addrs d ->
    exists t b, (t, b) ∈ holders c /\ active b = true /\ retiree_buffer t = q;
  ci_sizes : forall q d, store (buffers c) !! q = Some d -> ab_capacity d <= 2 ^ 30;
  ci_nodes : retired c ≡ₚ freed_nodes (common c) ++ pending c dl k x /\
    NoDup (pending c dl k x) /\ (forall v, v ∈ pending c dl k x -> node_ok v) /\
    zlen (pending c dl k x) <= 2 ^ 30 - 512 }.

(** What is off the list is in use. *)
Definition in_use (h : list (place_t * role_t)) (x : list Z) : Prop := forall q, q ∈ x -> refs h q <> 0%nat.

End invariant.


(** ** What the steps share *)

Lemma refs_mid h1 t b h2 q :
  refs (h1 ++ (t, b) :: h2) q = ((if Z.eq_dec (retiree_buffer t) q then 1 else 0) + refs (h1 ++ h2) q)%nat.
Proof. unfold refs. rewrite !fmap_app, fmap_cons, !count_occ_app, count_occ_cons_if. cbn. lia. Qed.

Lemma refs_holder h q : (0 < refs h q)%nat -> exists t b, (t, b) ∈ h /\ retiree_buffer t = q.
Proof.
  unfold refs. intros H%count_occ_In. apply list_elem_of_In, list_elem_of_fmap in H as ([t b] & -> & Hin). by exists t, b.
Qed.

Lemma cover_mid h1 p h2 q i : cover (h1 ++ p :: h2) q i = ((if covers q i p then 1 else 0) + cover (h1 ++ h2) q i)%nat.
Proof. unfold cover. rewrite !List.filter_app, !length_app. cbn. destruct (covers q i p); cbn; lia. Qed.

Lemma refs_cons t b h q : refs ((t, b) :: h) q = ((if Z.eq_dec (retiree_buffer t) q then 1 else 0) + refs h q)%nat.
Proof. apply (refs_mid []). Qed.

Lemma cover_cons p h q i : cover (p :: h) q i = ((if covers q i p then 1 else 0) + cover h q i)%nat.
Proof. apply (cover_mid []). Qed.

Lemma covers_false q i t b : retiree_buffer t <> q \/ ~ (begin_retiree_idx t <= i < end_retiree_idx t) -> covers q i (t, b) = false.
Proof. unfold covers. cbn. destruct (Z.eqb_spec (retiree_buffer t) q); [| done]. lia. Qed.

Lemma covers_true q i t b : covers q i (t, b) = true <-> retiree_buffer t = q /\ begin_retiree_idx t <= i < end_retiree_idx t.
Proof. unfold covers. cbn. lia. Qed.

Lemma cover_none h q i : (forall t b, (t, b) ∈ h -> retiree_buffer t = q -> ~ (begin_retiree_idx t <= i < end_retiree_idx t)) ->
  cover h q i = 0%nat.
Proof.
  induction h as [|[t b] h IH]; intros H; [done |]. rewrite cover_cons, covers_false.
  - apply IH. intros t0 b0 Hin. apply (H t0 b0). by right.
  - destruct (Z.eq_dec (retiree_buffer t) q) as [E |]; [right | by left]. apply (H t b); [left | done].
Qed.

Lemma cover_refs h q i : (cover h q i <= refs h q)%nat.
Proof.
  induction h as [|[t b] h IH]; [done |]. rewrite cover_cons, refs_cons. cbn.
  destruct (covers q i (t, b)) eqn:E; [| lia]. apply covers_true in E as [E _]. destruct (Z.eq_dec _ _); [lia | done].
Qed.

Lemma refs_in h t b : (t, b) ∈ h -> refs h (retiree_buffer t) <> 0%nat.
Proof. intros (h1 & h2 & ->)%list_elem_of_split. rewrite refs_mid. by destruct (Z.eq_dec _ _). Qed.

Lemma dead_of_insert m a q b d' : (q ∉ a) -> (q ∉ b) ->
  dead_of (<[q := d']> m) (a ++ q :: b) = dead_of m a ++ dead_in d' ++ dead_of m b.
Proof.
  intros Ha Hb. rewrite dead_of_app. f_equal.
  - apply dead_of_frame. intros y Hy. rewrite lookup_insert_ne; [done | by intros ->].
  - change (q :: b) with ([q] ++ b). rewrite dead_of_app. unfold dead_of at 1. cbn. rewrite lookup_insert_eq, app_nil_r. f_equal.
    apply dead_of_frame. intros y Hy. rewrite lookup_insert_ne; [done | by intros ->].
Qed.

Lemma dead_of_mid m a q b d : m !! q = Some d -> dead_of m (a ++ q :: b) = dead_of m a ++ dead_in d ++ dead_of m b.
Proof. intros Hd. rewrite dead_of_app. f_equal. unfold dead_of. cbn. by rewrite Hd. Qed.

(** Overwriting an entry takes it from the dead. *)
Lemma dead_in_freed d i : 0 <= i < ab_n_addrs d -> ab_n_addrs d <= zlen (ab_addrs d) ->
  Buffer.unmarked (get (ab_addrs d) i) = true ->
  dead_in d ≡ₚ [get (ab_addrs d) i] ++ dead_in (set_addrs d (upd (ab_addrs d) i 2)).
Proof.
  intros Hi Hz Hu. unfold dead_in. cbn [set_addrs ab_n_addrs ab_addrs].
  set (n := Z.to_nat (ab_n_addrs d)). set (L := take n (ab_addrs d)).
  assert (Hl : L !! Z.to_nat i = Some (get (ab_addrs d) i)).
  { unfold L. rewrite lookup_take_lt by lia. apply get_lookup. lia. }
  assert (E : take n (upd (ab_addrs d) i 2) = <[Z.to_nat i := 2]> L) by (unfold L, upd; by rewrite take_insert_lt by lia).
  rewrite E, (insert_take_drop L) by (by eapply lookup_lt_Some).
  rewrite <- (take_drop_middle L (Z.to_nat i) _ Hl) at 1. rewrite !filter_app, !filter_cons, decide_True by done.
  rewrite decide_False by done. cbn. by rewrite <- Permutation_middle.
Qed.

Section steps.
Context (N : Z) (HN : 0 < N <= 2 ^ 30).

Lemma owned_apart c r dl k x l q : NoDup (owned c r dl k x l) -> q ∈ k ++ x ->
  (q ∉ filling c ++ r ++ dl) /\ (q ∉ supply (buffers c) (g_uncollected_data c) (g_dead_references (buffers c)) l).
Proof.
  unfold owned. intros Hnd Hq.
  replace (filling c ++ r ++ dl ++ k ++ x ++ _) with ((filling c ++ r ++ dl) ++ (k ++ x) ++
    supply (buffers c) (g_uncollected_data c) (g_dead_references (buffers c)) l) in Hnd by (by rewrite <- !app_assoc).
  apply NoDup_app in Hnd as (_ & D & (_ & D2 & _)%NoDup_app). split; [| by apply D2].
  intros Hin. apply (D q Hin), elem_of_app. by left.
Qed.

(** A buffer of the supply is the old aggregate, the table, one that waits, or
    a block. *)
Lemma not_supply s old pd l q : (q ∉ supply s old pd l) -> q <> 0 -> (q ∉ l) /\ q <> old /\ q <> pd /\ (q ∉ blocks s).
Proof. unfold supply. rewrite !not_elem_of_app, !elem_of_maybe. intuition congruence. Qed.

Lemma retired_lookup c r dl k x l q : cycle_inv N c r dl k x l -> q ∈ k ++ x -> q <> 0.
Proof.
  intros I [Hq | Hq]%elem_of_app.
  - by apply (lchain_some _ _ _ _ q (rt_chain _ _ (ci_retirees _ _ _ _ _ _ _ I))).
  - intros ->. apply (proj2 (ci_owned _ _ _ _ _ _ _ I)), elem_of_app. right. apply elem_of_app. by left.
Qed.

(** What is written in a retiree is not seen in what waits for the collector. *)
Lemma nodes_undisturbed c r dl k x l q s' : cycle_inv N c r dl k x l -> q ∈ k ++ x ->
  (forall p, p <> q -> store s' !! p = store (buffers c) !! p) ->
  nodes_of s' (g_uncollected_data c) dl = nodes_of (buffers c) (g_uncollected_data c) dl.
Proof.
  intros I Hq Hst. pose proof (retired_lookup _ _ _ _ _ _ _ I Hq) as Hq0. destruct (ci_owned _ _ _ _ _ _ _ I) as [I5 _].
  destruct (owned_apart _ _ _ _ _ _ q I5 Hq) as [Hq1 (Hql & Hqo & Hqd & Hqb)%not_supply]; [| done].
  unfold nodes_of. f_equal.
  - unfold content_at. destruct (Z.eqb_spec (g_uncollected_data c) 0) as [| H0]; [done |]. by rewrite Hst.
  - apply contents_frame. intros p Hp. apply Hst. intros ->. apply Hq1. rewrite !elem_of_app. tauto.
Qed.

(** A step that writes one retiree, [q]. *)
Lemma inv_retiree c r dl k x l q d d' g' h' fr :
  cycle_inv N c r dl k x l -> q ∈ k ++ x -> store (buffers c) !! q = Some d ->
  bufs g' = set_store (buffers c) (<[q := d']> (store (buffers c))) ->
  freed_nodes g' = fr ++ freed_nodes (common c) ->
  ab_next d' = ab_next d -> ab_capacity d' = ab_capacity d ->
  retiree_ok h' q d' -> (q ∈ x -> ab_free_idx d' = ab_n_addrs d') -> dead_in d ≡ₚ fr ++ dead_in d' ->
  (forall p e, p <> q -> p ∈ k ++ x -> retiree_ok (holders c) p e -> retiree_ok h' p e) ->
  (forall t b, (t, b) ∈ h' -> holder_ok (<[q := d']> (store (buffers c))) k x t b) ->
  (q ∈ k -> ab_free_idx d' = ab_n_addrs d' -> exists t b, (t, b) ∈ h' /\ active b = true /\ retiree_buffer t = q) ->
  (forall t b, (t, b) ∈ holders c -> active b = true -> retiree_buffer t <> q -> (t, b) ∈ h') ->
  cycle_inv N (set_holders (set_common c g') h') r dl k x l.
Proof using HN.
  intros I Hq Hd Eg Ef En Ec Hok Hx Hdead Hothers Hh Hl Hw. pose proof (retired_lookup _ _ _ _ _ _ _ I Hq) as Hq0.
  pose proof I as [I1 I2 I3 I4 [I5 I5'] I6 I7 I8 I9 I10 I11 I12 I13 (I14 & I15 & I16 & I17)].
  destruct (owned_apart _ _ _ _ _ _ q I5 Hq) as [Hq1 (Hql & Hqo & Hqd & Hqb)%not_supply]; [| done].
  assert (Hst : forall p, p <> q -> store (bufs g') !! p = store (buffers c) !! p)
    by (intros p Hp; rewrite Eg; cbn; by rewrite lookup_insert_ne).
  assert (Hsame : forall p, ab_next <$> store (bufs g') !! p = ab_next <$> store (buffers c) !! p).
  { intros p. destruct (decide (p = q)) as [-> | Hne]; [| by rewrite Hst]. rewrite Eg, Hd. cbn.
    rewrite lookup_insert_eq. cbn. by rewrite En. }
  assert (Hsmall : forall p, p ∈ filling c ++ r ++ dl -> p <> q) by (intros p Hp ->; contradiction).
  pose proof (nodes_undisturbed _ _ _ _ _ _ _ (bufs g') I Hq Hst) as Enodes.
  assert (Epend : pending c dl k x ≡ₚ fr ++ pending (set_holders (set_common c g') h') dl k x).
  { unfold pending, buffers. cbn. rewrite Enodes. fold (buffers c). rewrite Eg. cbn [set_store store].
    assert (Hnd : NoDup (k ++ x)).
    { unfold owned in I5. do 3 apply NoDup_app in I5 as (_ & _ & I5). rewrite app_assoc in I5. by apply NoDup_app in I5 as (? & _ & _). }
    apply list_elem_of_split in Hq as (a & b & Ekx). rewrite Ekx in *. rewrite <- Permutation_middle in Hnd.
    apply NoDup_cons in Hnd as [[Ha Hb]%not_elem_of_app _].
    rewrite (dead_of_mid _ _ _ _ d Hd), dead_of_insert, Hdead by done. perm. }
  split; change (buffers (set_holders (set_common c g') h')) with (bufs g'); try done.
  - rewrite Eg. cbn. eapply lchain_frame; [exact I1 |]. intros p _. specialize (Hsame p). by rewrite Eg in Hsame.
  - eapply lchain_frame; [exact I2 |]. done.
  - apply (retirees_frame (buffers c)); [done | rewrite Eg; by split_and! | done].
  - apply (waiting_frame (buffers c)); [done | by rewrite Eg |]. intros p Hp. apply Hst. by intros ->.
  - unfold owned, supply in *. change (buffers (set_holders (set_common c g') h')) with (bufs g'). rewrite Eg. by split.
  - intros p Hp. destruct (I6 p Hp) as (e & He & Hs). exists e. split; [| done]. rewrite Hst; [done | by apply Hsmall].
  - by rewrite Eg.
  - intros H0. rewrite Hst by done. by apply I8.
  - rewrite Eg. cbn. intros H0. rewrite lookup_insert_ne by done. by apply I9.
  - intros p Hp. destruct (decide (p = q)) as [-> | Hne].
    + exists d'. rewrite Eg. cbn. by rewrite lookup_insert_eq.
    + destruct (I10 p Hp) as (e & He & Hr & Hx'). exists e. rewrite Hst by done. split; [done |]. split; [| done]. by apply Hothers.
  - rewrite Eg. done.
  - intros p e Hp He Hf. destruct (decide (p = q)) as [-> | Hne].
    + rewrite Eg in He. cbn in He. rewrite lookup_insert_eq in He. injection He as <-. by apply Hl.
    + rewrite Hst in He by done. destruct (I12 p e Hp He Hf) as (t & b & Ht & Ha & Et). exists t, b. split; [| done]. apply Hw; [done | done | by rewrite Et].
  - intros p e He. destruct (decide (p = q)) as [-> | Hne].
    + rewrite Eg in He. cbn in He. rewrite lookup_insert_eq in He. injection He as <-. rewrite Ec. by apply (I13 q).
    + rewrite Hst in He by done. by apply (I13 p).
  - split; [| split; [| split]].
    + cbn. rewrite Ef, I14, Epend. perm.
    + rewrite Epend in I15. by apply NoDup_app in I15 as (_ & _ & ?).
    + intros v Hv. apply I16. rewrite Epend. apply elem_of_app. by right.
    + unfold zlen in *. rewrite Epend, length_app in I17. lia.
Qed.

(** *** The steps of the threads that free *)

(** Other retirees do not notice what happens to the holders of one. *)
Lemma retiree_other h h' q d : retiree_ok h q d -> refs h' q = refs h q ->
  (forall i, cover h' q i = cover h q i) -> retiree_ok h' q d.
Proof. intros [A1 A2 A3 A4 A5] Hr Hc. split; [done | by rewrite Hr | done | | done]. intros i Hi. rewrite Hc. by apply A4. Qed.

Lemma take_retiree_store g t g' : take_retiree g = Ok (t, g') -> retiree_buffer t <> 0 ->
  t = mk_place (g_first_retiree_buffer (bufs g)) 0 0 /\ exists d, store (bufs g) !! retiree_buffer t = Some d /\
  g' = set_bufs g (set_store (bufs g) (<[retiree_buffer t := with_ref_count (ab_ref_count d + 1) d]> (store (bufs g)))).
Proof.
  unfold take_retiree, forkscan_buffer_get_retiree_buffer. intros E Ht.
  destruct (Z.eqb_spec (g_first_retiree_buffer (bufs g)) 0) as [E0 | _]; [by injection E as <- <- |].
  apply bind_inv in E as ([ab s] & (d & [H0 Hd]%buf_load_inv & (n & Hn & E)%bind_inv)%bind_inv & [= <- <-]).
  unfold int_chk in Hn. run_inv.
  match goal with H : buf_modify _ _ _ = Ok _ |- _ => apply buf_modify_inv in H as (e & _ & He & ->) end.
  split; [done |]. exists d. cbn. split; [done |]. by rewrite Hd in He; injection He as <-.
Qed.

Lemma head_in (k : list Z) : hd 0 k <> 0 -> hd 0 k ∈ k.
Proof. destruct k; [done | left]. Qed.

Lemma inv_takes_retiree c r dl k x l t g' :
  cycle_inv N c r dl k x l -> take_retiree (common c) = Ok (t, g') -> retiree_buffer t <> 0 ->
  cycle_inv N (set_holders (set_common c g') ((t, At At_test) :: holders c)) r dl k x l.
Proof using HN.
  intros I E Ht. destruct (take_retiree_store _ _ _ E Ht) as (-> & d & Hd & ->). cbn [retiree_buffer] in *.
  fold (buffers c) in *. set (q := g_first_retiree_buffer (buffers c)) in *.
  assert (Eq : q = hd 0 k) by apply (lchain_head _ _ _ _ (rt_chain _ _ (ci_retirees _ _ _ _ _ _ _ I))).
  assert (Hqk : q ∈ k) by (rewrite Eq in *; by apply head_in).
  assert (Hq : q ∈ k ++ x) by (apply elem_of_app; by left).
  assert (Hqx : q ∉ x).
  { destruct (ci_owned _ _ _ _ _ _ _ I) as [Hnd _]. unfold owned in Hnd. do 3 apply NoDup_app in Hnd as (_ & _ & Hnd).
    apply NoDup_app in Hnd as (_ & D & _). intros Hin. apply (D q Hqk), elem_of_app. by left. }
  destruct (ci_retired _ _ _ _ _ _ _ I q Hq) as (d0 & Hd0 & [A1 A2 A3 A4 A5] & _). rewrite Hd in Hd0. injection Hd0 as <-.
  eapply (inv_retiree c r dl k x l q d _ _ _ []);
    [exact I | exact Hq | exact Hd | reflexivity | done | done | done | | done | done | | | | intros t b; by right].
  - split; cbn; [done | | done | | done].
    + rewrite A2, refs_cons. cbn. destruct (Z.eq_dec q q); [lia | done].
    + intros i Hi. rewrite cover_cons, covers_false by (cbn; lia). by apply A4.
  - intros p e Hne _ He. eapply retiree_other; [exact He | |].
    + rewrite refs_cons. cbn. by destruct (Z.eq_dec q p).
    + intros i. rewrite cover_cons, covers_false by (by left). done.
  - intros t b [[= -> ->] | Hin]%elem_of_cons.
    + split; cbn; [| done | by rewrite <- Eq | by intros pc [= <-]]. split; [lia |]. intros e. rewrite lookup_insert_eq. intros [= <-]. cbn. split; [lia | done].
    + destruct (ci_holders _ _ _ _ _ _ _ I t b Hin) as [[B1 B2] B3 B4 B5]. split; try done. split; [done |]. intros e.
      rewrite store_lookup. case_decide as Et; [| by apply B2]. intros [= <-]. cbn. apply B2. by rewrite Et.
  - intros _ _. eexists _, _. split; [left | done].
Qed.

(** A step by which a thread gets from the place [t] to [t'] in its buffer. *)
Lemma inv_moves c r dl k x l h1 t b h2 t' b' d d' g' fr :
  cycle_inv N c r dl k x l -> holders c = h1 ++ (t, b) :: h2 -> active b = true -> active b' = true ->
  (forall pc, b' = At pc -> at_ok x t' pc) -> (b' = At At_pop -> ab_n_addrs d' <= ab_free_idx d') -> retiree_buffer t' = retiree_buffer t ->
  store (buffers c) !! retiree_buffer t = Some d ->
  bufs g' = set_store (buffers c) (<[retiree_buffer t := d']> (store (buffers c))) ->
  freed_nodes g' = fr ++ freed_nodes (common c) ->
  ab_next d' = ab_next d -> ab_capacity d' = ab_capacity d -> aggregate_ok (with_ref_count 0 d') ->
  ab_ref_count d' = ab_ref_count d -> ab_n_addrs d' = ab_n_addrs d -> ab_free_idx d <= ab_free_idx d' <= ab_n_addrs d ->
  (forall i, 0 <= i < ab_free_idx d' ->
     begin_retiree_idx t' <= i < end_retiree_idx t' /\ entry_ok (get (ab_addrs d') i) /\
       (ab_free_idx d <= i \/ begin_retiree_idx t <= i < end_retiree_idx t) \/
     ~ (begin_retiree_idx t' <= i < end_retiree_idx t') /\ i < ab_free_idx d /\
       (~ (begin_retiree_idx t <= i < end_retiree_idx t) /\ get (ab_addrs d') i = get (ab_addrs d) i \/
        begin_retiree_idx t <= i < end_retiree_idx t /\ Buffer.unmarked (get (ab_addrs d') i) = false)) ->
  (forall i, ab_free_idx d' <= i < ab_n_addrs d -> get (ab_addrs d') i = get (ab_addrs d) i) ->
  dead_in d ≡ₚ fr ++ dead_in d' -> 0 <= begin_retiree_idx t' <= end_retiree_idx t' -> end_retiree_idx t' <= ab_free_idx d' ->
  cycle_inv N (set_holders (set_common c g') (h1 ++ (t', b') :: h2)) r dl k x l.
Proof using HN.
  intros I Eh Hact Hact' Hat Hpop Et Hd Eg Ef En Ec Ha Er Enn Hf Hcov Hfresh Hdead Hb He. set (q := retiree_buffer t) in *.
  assert (Hnd : b <> Dividing) by (by intros ->).
  assert (Hh : (t, b) ∈ holders c) by (rewrite Eh; apply elem_of_mid).
  destruct (ci_holders _ _ _ _ _ _ _ I t b Hh) as [_ B2 B3 _].
  destruct (ci_retired _ _ _ _ _ _ _ I q B2) as (d0 & Hd0 & [A1 A2 A3 A4 A5] & Hx). rewrite Hd in Hd0. injection Hd0 as <-.
  assert (Hrefs : forall p, refs (h1 ++ (t', b') :: h2) p = refs (holders c) p)
    by (intros p; by rewrite Eh, !refs_mid, Et).
  eapply (inv_retiree c r dl k x l q d d' g' _ fr); try done.
  - split; [done | by rewrite Er, A2, Hrefs | rewrite Enn, Ec; lia | | intros i Hi; rewrite Enn in Hi; rewrite Hfresh by lia; apply A5; lia].
    intros i Hi. rewrite cover_mid.
    assert (Hold : ab_free_idx d <= i -> cover (h1 ++ h2) q i = 0%nat).
    { intros Hlt. apply cover_none. intros t0 b0 Hin0 E0.
      assert (Hh0 : (t0, b0) ∈ holders c) by (rewrite Eh; apply in_mid; by right).
      destruct (ci_holders _ _ _ _ _ _ _ I t0 b0 Hh0) as [[_ C2] _ _ _].
      rewrite E0 in C2. specialize (C2 d Hd). lia. }
    specialize (A4 i). rewrite Eh, cover_mid in A4.
    destruct (Hcov i Hi) as [(Hr & Hok & Hc) | (Hnr & Hlt & [[Hc Hg] | [Hc Hu]])].
    + rewrite (proj2 (covers_true q i t' b')) by done. left. split; [| done].
      destruct (decide (ab_free_idx d <= i)) as [Hlt |]; [rewrite Hold by done; lia |]. destruct Hc as [? | Hc]; [done |].
      rewrite (proj2 (covers_true q i t b)) in A4 by done. destruct A4 as [[? _] | [? _]]; lia.
    + rewrite covers_false in A4 by (by right). rewrite covers_false, Hg by (by right). apply A4. lia.
    + rewrite (proj2 (covers_true q i t b)) in A4 by done. rewrite covers_false by (by right).
      right. split; [destruct A4 as [[? _] | [? _]]; lia | done].
  - intros Hqx. specialize (Hx Hqx). lia.
  - intros p e Hne _ Hp. eapply retiree_other; [exact Hp | apply Hrefs |]. intros i.
    rewrite Eh, !cover_mid, !covers_false; [done | left; by apply not_eq_sym | left; rewrite Et; by apply not_eq_sym].
  - intros t0 b0 [[= -> ->] | Hin0]%in_mid.
    + split; rewrite ?Et; fold q; [| done | by intros _; apply B3 | done]. split; [done |]. intros e. rewrite lookup_insert_eq. by intros [= <-].
    + assert (Hh0 : (t0, b0) ∈ holders c) by (rewrite Eh; apply in_mid; by right).
      destruct (ci_holders _ _ _ _ _ _ _ I t0 b0 Hh0) as [[C1 C2] C3 C4 C5]. split; try done. split; [done |].
      intros e. rewrite store_lookup. case_decide as E0; [| by apply C2]. intros [= <-].
      destruct (C2 d) as [C6 C7]; [by rewrite E0 |]. split; [lia |]. intros Eb. specialize (C7 Eb). lia.
  - intros _ _. exists t', b'. split; [apply elem_of_mid | done].
  - intros t0 b0. rewrite Eh. intros [[= -> ->] | Hin0]%in_mid _ Hne; [done | apply in_mid; by right].
Qed.

Lemma range_end_inv n b e : Free.range_end n b = Ok e -> b < n -> b < e <= n.
Proof.
  unfold Free.range_end, int_chk, FREE_RANGE_SZ. intros E Hb. run_inv. rewrite MIN_OF_min. lia.
Qed.

Lemma claim_store ab b e g g' : claim ab b e g = Ok (true, g') -> exists d, store (bufs g) !! ab = Some d /\
  ab_free_idx d = b /\ g' = set_bufs g (set_store (bufs g) (<[ab := with_free_idx e d]> (store (bufs g)))).
Proof.
  unfold claim. intros (d & [_ Hd]%buf_load_inv & E)%bind_inv. destruct (Z.eqb_spec (ab_free_idx d) b) as [Eb |]; [| done].
  apply bind_inv in E as (s & (d' & _ & Hd' & ->)%buf_modify_inv & [= <-]). exists d.
  rewrite Hd in Hd'. by injection Hd' as <-.
Qed.

Lemma inv_claims c r dl k x l h1 t h2 i d e g' :
  cycle_inv N c r dl k x l -> holders c = h1 ++ (t, At (At_claim i)) :: h2 ->
  store (buffers c) !! retiree_buffer t = Some d -> i < ab_n_addrs d -> Free.range_end (ab_n_addrs d) i = Ok e ->
  claim (retiree_buffer t) i e (common c) = Ok (true, g') ->
  cycle_inv N (set_holders (set_common c g') (h1 ++ (mk_place (retiree_buffer t) i e, At At_entry) :: h2)) r dl k x l.
Proof using HN.
  intros I Eh Hd Hlt He Hc. pose proof (range_end_inv _ _ _ He Hlt) as He'.
  apply claim_store in Hc as (d0 & Hd0 & Ei & ->). fold (buffers c) in Hd0. rewrite Hd in Hd0. injection Hd0 as <-.
  assert (Hh : (t, At (At_claim i)) ∈ holders c) by (rewrite Eh; apply elem_of_mid).
  destruct (ci_holders _ _ _ _ _ _ _ I t _ Hh) as [_ B2 _ B4]. destruct (B4 _ eq_refl) as [Ebe Hi0].
  destruct (ci_retired _ _ _ _ _ _ _ I _ B2) as (d0 & Hd0 & [A1 A2 A3 A4 A5] & _). rewrite Hd in Hd0. injection Hd0 as <-.
  eapply (inv_moves c r dl k x l h1 t _ h2 _ _ d (with_free_idx e d) _ []); try done; cbn; try lia; [intros pc [= <-]; cbn; lia | by destruct A1 |].
  intros j Hj. destruct (decide (j < ab_free_idx d)); [right; split; [lia |]; split; [done |]; left; split; [lia | done] |].
  left. split; [lia |]. split; [apply A5; lia | lia].
Qed.

Lemma unmarked_odd v : (Z.land v 1 =? 0) = false -> Buffer.unmarked v = false.
Proof.
  unfold Buffer.unmarked. intros H%Z.eqb_neq. apply Z.eqb_neq. intros E. apply H.
  change 1 with (Z.land 3 1). by rewrite Z.land_assoc, E.
Qed.

(** An entry that is not freed is marked; one that is freed was not. *)
Lemma free_entry_store t g t' g' : free_entry t g = Ok (t', g') -> exists d, store (bufs g) !! retiree_buffer t = Some d /\
  0 <= begin_retiree_idx t < zlen (ab_addrs d) /\
  t' = mk_place (retiree_buffer t) (begin_retiree_idx t + 1) (end_retiree_idx t) /\
  let v := get (ab_addrs d) (begin_retiree_idx t) in
  (Buffer.unmarked v = false /\ g' = g) \/
  (Buffer.unmarked v = true /\
   g' = mk_shared (set_store (bufs g) (<[retiree_buffer t := set_addrs d (upd (ab_addrs d) (begin_retiree_idx t) 2)]> (store (bufs g))))
     ((retiree_buffer t, begin_retiree_idx t, v) :: freed g)).
Proof.
  unfold free_entry. intros (d & [_ Hd]%buf_load_inv & (v & Hv & (j & Hj & E)%bind_inv)%bind_inv)%bind_inv.
  exists d. split; [done |]. unfold rd, int_chk in *. run_inv.
  all: assert (Hi : 0 <= begin_retiree_idx t < zlen (ab_addrs d)) by lia; split; [done |].
  - split; [done |]. left. split; [| done]. by apply unmarked_odd, negb_true_iff.
  - unfold assert, wr in *. run_inv. split; [done |]. right. split; [by unfold Buffer.unmarked |].
    match goal with H : buf_modify _ _ _ = Ok _ |- _ => apply buf_modify_inv in H as (e & _ & He & ->) end.
    rewrite Hd in He. by injection He as <-.
Qed.

(** What a thread has claimed and not come to yet are nodes. *)
Lemma held_entry c r dl k x l t b j d : cycle_inv N c r dl k x l -> (t, b) ∈ holders c ->
  store (buffers c) !! retiree_buffer t = Some d -> begin_retiree_idx t <= j < end_retiree_idx t -> entry_ok (get (ab_addrs d) j).
Proof using Type.
  intros I Hh Hd Hj. destruct (ci_holders _ _ _ _ _ _ _ I t b Hh) as [[B0 B1] B2 _ _]. specialize (B1 d Hd).
  destruct (ci_retired _ _ _ _ _ _ _ I _ B2) as (d0 & Hd0 & [_ _ _ A4 _] & _). rewrite Hd in Hd0. injection Hd0 as <-.
  destruct (A4 j ltac:(lia)) as [[_ ?] | [Hc _]]; [done |]. apply list_elem_of_split in Hh as (h1 & h2 & Eh).
  rewrite Eh, cover_mid, (proj2 (covers_true _ _ _ _)) in Hc by done. lia.
Qed.

Lemma inv_frees c r dl k x l h1 t h2 t' g' :
  cycle_inv N c r dl k x l -> holders c = h1 ++ (t, At At_entry) :: h2 -> free_entry t (common c) = Ok (t', g') ->
  cycle_inv N (set_holders (set_common c g') (h1 ++ (t', At At_top) :: h2)) r dl k x l.
Proof using HN.
  intros I Eh E. destruct (free_entry_store _ _ _ _ E) as (d & Hd & Hi & -> & Hcase). fold (buffers c) in Hd.
  assert (Hh : (t, At At_entry) ∈ holders c) by (rewrite Eh; apply elem_of_mid).
  destruct (ci_holders _ _ _ _ _ _ _ I t _ Hh) as [[B0 B1] B2 _ B4]. specialize (B1 d Hd). specialize (B4 _ eq_refl). cbn in B4.
  destruct (ci_retired _ _ _ _ _ _ _ I _ B2) as (d0 & Hd0 & [A1 A2 A3 A4 A5] & _). rewrite Hd in Hd0. injection Hd0 as <-.
  set (i := begin_retiree_idx t) in *. assert (Hz : zlen (ab_addrs d) = ab_capacity d) by apply (ag_addrs _ A1).
  assert (Hheld : forall j, i <= j < end_retiree_idx t -> entry_ok (get (ab_addrs d) j)) by (intros j; by apply (held_entry _ _ _ _ _ _ _ _ _ d I Hh Hd)).
  destruct Hcase as [[Hu ->] | [Hu ->]].
  - eapply (inv_moves c r dl k x l h1 t _ h2 _ _ d d _ []); try done; cbn; try lia; try (by intros pc [= <-]).
    + unfold buffers. rewrite insert_id by done. by destruct (bufs (common c)).
    + intros j Hj. fold i. destruct (decide (i + 1 <= j < end_retiree_idx t)) as [Hr | Hr]; [left | right].
      * split; [done |]. split; [| right; lia]. apply Hheld; lia.
      * split; [done |]. split; [lia |]. destruct (decide (j = i)) as [-> |]; [right; split; [lia | done] | left; split; [lia | done]].
  - eapply (inv_moves c r dl k x l h1 t _ h2 _ _ d (set_addrs d (upd (ab_addrs d) i 2)) _ [get (ab_addrs d) i]); try done; cbn; try lia; try (by intros pc [= <-]).
    + destruct A1 as [G1 G2 G3 G4 G5]. split; cbn; try done. by rewrite zlen_upd.
    + intros j Hj. fold i. rewrite get_upd by lia. case_decide as Ej; [right; split; [lia |]; split; [lia |]; right; split; [lia | done] |].
      destruct (decide (i + 1 <= j < end_retiree_idx t)) as [Hr | Hr]; [left | right].
      * split; [done |]. split; [apply Hheld; lia | right; lia].
      * split; [done |]. split; [lia |]. left. split; [lia | done].
    + intros j Hj. rewrite get_upd by lia. case_decide; [lia | done].
    + apply dead_in_freed; [lia | lia | done].
Qed.

(** A thread that only reads. *)
Lemma inv_turns c r dl k x l h1 t b h2 b' d : cycle_inv N c r dl k x l -> holders c = h1 ++ (t, b) :: h2 ->
  active b = true -> active b' = true -> (forall pc, b' = At pc -> at_ok x t pc) ->
  store (buffers c) !! retiree_buffer t = Some d -> (b' = At At_pop -> ab_n_addrs d <= ab_free_idx d) ->
  cycle_inv N (set_holders (set_common c (common c)) (h1 ++ (t, b') :: h2)) r dl k x l.
Proof using HN.
  intros I Eh Ha Ha' Hat Hd Hp. assert (Hh : (t, b) ∈ holders c) by (rewrite Eh; apply elem_of_mid).
  destruct (ci_holders _ _ _ _ _ _ _ I t b Hh) as [[B0 B1] B2 _ _]. specialize (B1 d Hd).
  destruct (ci_retired _ _ _ _ _ _ _ I _ B2) as (d0 & Hd0 & [A1 A2 A3 A4 A5] & _). rewrite Hd in Hd0. injection Hd0 as <-.
  eapply (inv_moves c r dl k x l h1 t b h2 t b' d d _ []); try done; try lia.
  - unfold buffers. rewrite insert_id by done. by destruct (bufs (common c)).
  - intros i Hi. destruct (decide (begin_retiree_idx t <= i < end_retiree_idx t)) as [Hr | Hr].
    + left. split; [done |]. split; [| by right]. by apply (held_entry c r dl k x l t b i d I Hh Hd).
    + right. split; [done |]. split; [lia |]. by left.
Qed.

Lemma retired_nodup c r dl k x l : cycle_inv N c r dl k x l -> NoDup (k ++ x).
Proof using Type.
  intros I. destruct (ci_owned _ _ _ _ _ _ _ I) as [H _]. unfold owned in H. do 3 apply NoDup_app in H as (_ & _ & H).
  rewrite app_assoc in H. by apply NoDup_app in H as (? & _ & _).
Qed.

(** A thread finds its buffer exhausted and takes it off the list, unless
    another has. *)
Lemma inv_relabels c r dl k x l k' x' h1 t h2 d s' :
  cycle_inv N c r dl k x l -> holders c = h1 ++ (t, At At_pop) :: h2 -> store (buffers c) !! retiree_buffer t = Some d ->
  store s' = store (buffers c) -> other_heads (buffers c) s' -> retirees s' k' -> k' ++ x' ≡ₚ k ++ x ->
  (forall p, p ∈ x' <-> p ∈ x \/ p = retiree_buffer t) ->
  (forall q, q ∈ k' -> q ∈ k) ->
  (forall t0 b0, (t0, b0) ∈ holders c -> b0 <> Dividing -> retiree_buffer t0 ∈ k' -> hd 0 k' = retiree_buffer t0) ->
  cycle_inv N (set_holders (set_buffers c s') (h1 ++ (t, At At_unref) :: h2)) r dl k' x' l.
Proof using HN.
  intros I Eh Hd Est (O1 & O2 & O3 & O4 & O5) Hk' Hp Hx' Hkk Hfirst.
  pose proof I as [I1 I2 I3 I4 [I5 I5'] I6 I7 I8 I9 I10 I11 I12 I13 (I14 & I15 & I16 & I17)].
  assert (Hh : (t, At At_pop) ∈ holders c) by (rewrite Eh; apply elem_of_mid).
  destruct (ho_range _ _ _ _ _ (I11 _ _ Hh)) as [_ Hle]. destruct (Hle d Hd) as [_ Hle']. specialize (Hle' eq_refl).
  pose proof (ho_at _ _ _ _ _ (I11 _ _ Hh) _ eq_refl) as Ebe. cbn in Ebe. clear Hle. rename Hle' into Hle.
  assert (Hrefs : forall p, refs (h1 ++ (t, At At_unref) :: h2) p = refs (holders c) p) by (intros p; by rewrite Eh, !refs_mid).
  assert (Esup : supply s' (g_uncollected_data c) (g_dead_references s') l =
    supply (buffers c) (g_uncollected_data c) (g_dead_references (buffers c)) l) by (unfold supply; by rewrite O4, O5).
  assert (Epend : pending (set_holders (set_buffers c s') (h1 ++ (t, At At_unref) :: h2)) dl k' x' ≡ₚ pending c dl k x).
  { unfold pending. change (buffers (set_holders _ _)) with s'. unfold nodes_of, content_at. cbn [g_uncollected_data set_holders set_buffers set_common].
    rewrite Est. do 2 apply Permutation_app_head. by apply Permutation_flat_map. }
  split; change (buffers (set_holders (set_buffers c s') (h1 ++ (t, At At_unref) :: h2))) with s'; rewrite ?Est, ?O2, ?O3, ?O4; try done.
  - apply (waiting_frame (buffers c)); [done | done |]. intros q _. by rewrite Est.
  - unfold owned. change (buffers (set_holders _ _)) with s'. cbn [g_uncollected_data set_holders set_buffers set_common filling].
    rewrite Esup, O5. split.
    + rewrite (app_assoc k' x'), Hp, <- app_assoc. exact I5.
    + rewrite !not_elem_of_app in *. split; [apply I5' |]. split; [| apply I5']. rewrite Hx'. intros [? | E0]; [tauto |].
      apply (retired_lookup _ _ _ _ _ _ _ I (ho_buffer _ _ _ _ _ (I11 _ _ Hh))). done.
  - intros q Hq. rewrite Hp in Hq. destruct (I10 q Hq) as (e & He & Hr & Hx). exists e. split; [done |]. split.
    + eapply retiree_other; [exact Hr | apply Hrefs |]. intros i. cbn [holders set_holders]. rewrite Eh, !cover_mid. reflexivity.
    + intros [? | ->]%Hx'; [by apply Hx |]. rewrite Hd in He. injection He as <-. pose proof (re_n _ _ _ Hr). lia.
  - intros t0 b0 Hin. assert (Hb : exists b, (t0, b) ∈ holders c /\ (b0 = b \/ (t0 = t /\ b = At At_pop /\ b0 = At At_unref))).
    { apply in_mid in Hin as [[= -> ->] | Hin]; [exists (At At_pop); split; [done | by right] |].
      exists b0. split; [rewrite Eh; apply in_mid; by right | by left]. }
    destruct Hb as (b & Hin0 & Hb). destruct (I11 t0 b Hin0) as [[B1 B1'] B2 B3 B4]. split; [| by rewrite Hp | |].
    { split; [done |]. intros e He. destruct (B1' e He) as [? Hpop]. split; [done |]. intros ->. apply Hpop. by destruct Hb as [<- | (_ & _ & ?)]. }
    { intros Hd0 Hin'. apply (Hfirst t0 b Hin0); [| done]. by destruct Hb as [<- | (_ & -> & _)]. }
    intros pc ->. destruct Hb as [<- | (-> & -> & [= ->])].
    + specialize (B4 pc eq_refl). destruct pc; try done. destruct B4 as [? ?]. split; [done |]. apply Hx'. by left.
    + split; [done |]. apply Hx'. by right.
  - intros q e Hq He Hf. destruct (I12 q e (Hkk q Hq) He Hf) as (t0 & b0 & Ht & Ha & Et). exists t0, b0. split; [| done].
    rewrite Eh in Ht. apply in_mid. right. apply in_mid in Ht as [[= -> ->] | ?]; [| done]. exfalso.
    assert (Hnd : NoDup (k' ++ x')) by (rewrite Hp; by apply (retired_nodup _ _ _ _ _ _ I)).
    apply NoDup_app in Hnd as (_ & D & _). apply (D q Hq), Hx'. by right.
  - split; [| split; [| split]]; [by rewrite Epend | by rewrite Epend | |].
    + intros v. rewrite Epend. apply I16.
    + unfold zlen in *. by rewrite Epend.
Qed.

Lemma inv_pops c r dl k x l h1 t h2 s' :
  cycle_inv N c r dl k x l -> in_use (holders c) x ->
  holders c = h1 ++ (t, At At_pop) :: h2 ->
  forkscan_buffer_pop_retiree_buffer (retiree_buffer t) (buffers c) = Ok s' ->
  exists k' x', cycle_inv N (set_holders (set_buffers c s') (h1 ++ (t, At At_unref) :: h2)) r dl k' x' l /\
    in_use (h1 ++ (t, At At_unref) :: h2) x' /\ store s' = store (buffers c) /\ (k' = k \/ k = retiree_buffer t :: k').
Proof using HN.
  intros I Hu Eh Hpop. pose proof (ci_retirees _ _ _ _ _ _ _ I) as Hr.
  assert (Hh : (t, At At_pop) ∈ holders c) by (rewrite Eh; apply elem_of_mid).
  destruct (ci_holders _ _ _ _ _ _ _ I t _ Hh) as [_ B2 B3 _]. pose proof (retired_lookup _ _ _ _ _ _ _ I B2) as H0.
  destruct (ci_retired _ _ _ _ _ _ _ I _ B2) as (d & Hd & _).
  assert (Hrefs : forall p, refs (h1 ++ (t, At At_unref) :: h2) p = refs (holders c) p) by (intros p; by rewrite Eh, !refs_mid).
  assert (Huse : in_use (h1 ++ (t, At At_unref) :: h2) (retiree_buffer t :: x)).
  { intros p [-> | Hp]%elem_of_cons; [| rewrite Hrefs; by apply Hu]. rewrite refs_mid.
    destruct (Z.eq_dec (retiree_buffer t) (retiree_buffer t)); [lia | done]. }
  destruct (decide (retiree_buffer t ∈ k)) as [Hk | Hk].
  - specialize (B3 ltac:(done) Hk). destruct k as [|y k]; [by apply not_elem_of_nil in Hk |]. cbn in B3. subst y.
    pose proof (retired_nodup _ _ _ _ _ _ I) as Hnd.
    pose proof (pop_wp (buffers c) [] (retiree_buffer t) k Hr ltac:(by left)) as Hw. rewrite Hpop in Hw. cbn in Hw.
    destruct Hw as (Hr' & Ho & Est). exists k, (retiree_buffer t :: x).
    split; [| split; [exact Huse | split; [by apply Est | by right]]].
    eapply inv_relabels; try done; [by apply Est | by rewrite <- Permutation_middle | intros p; rewrite elem_of_cons; tauto | by right |].
    intros t0 b0 Hin Hb0 Hk0. destruct (ci_holders _ _ _ _ _ _ _ I t0 b0 Hin) as [_ _ C3 _]. cbn in Hnd, C3.
    apply NoDup_cons in Hnd as [Hn _]. rewrite (C3 Hb0 ltac:(by right)) in Hn. destruct Hn. apply elem_of_app. by left.
  - rewrite (pop_absent _ k) in Hpop by done. injection Hpop as <-. apply elem_of_app in B2 as [? | Hx]; [done |].
    exists k, x. split; [| split; [intros p Hp; rewrite Hrefs; by apply Hu | split; [done | by left]]].
    eapply inv_relabels; try done; [intros p; split; [by left | by intros [? | ->]] |].
    intros t0 b0 Hin. apply (ci_holders _ _ _ _ _ _ _ I t0 b0 Hin).
Qed.

Lemma unref_inv s q d s' : store s !! q = Some d -> forkscan_buffer_unref_buffer q s = Ok s' ->
  let d' := with_ref_count (ab_ref_count d - 1) d in let s1 := set_store s (<[q := d']> (store s)) in
  q <> 0 /\ if (ab_ref_count d' =? 0) && (ab_free_idx d' >=? ab_n_addrs d') then forkscan_release_buffer q s1 = Ok s' else s' = s1.
Proof.
  intros Hd. unfold forkscan_buffer_unref_buffer. intros (e & [H0 He]%buf_load_inv & (n & Hn & (s1 & Hm & E)%bind_inv)%bind_inv)%bind_inv.
  rewrite Hd in He. injection He as <-. unfold int_chk in Hn. destruct (_ && _) in Hn; [| done]. injection Hn as <-.
  apply buf_modify_inv in Hm as (e & _ & He & ->). rewrite Hd in He. injection He as <-.
  apply bind_inv in E as (e & [_ He]%buf_load_inv & E). cbn [set_store store] in He. rewrite lookup_insert_eq in He. injection He as <-.
  split; [done |]. cbn. cbn in E. destruct (ab_ref_count d - 1 =? 0); cbn; [| by injection E].
  destruct (ab_free_idx d >=? ab_n_addrs d); [done | by injection E].
Qed.

(** One reference less, not yet released: of a thread that has taken the
    buffer off the list, or of the collector. *)
Lemma inv_drops c r dl k x l h1 t b h2 d :
  cycle_inv N c r dl k x l -> holders c = h1 ++ (t, b) :: h2 -> active b = false -> begin_retiree_idx t = end_retiree_idx t ->
  store (buffers c) !! retiree_buffer t = Some d ->
  cycle_inv N (set_holders (set_buffers c (set_store (buffers c)
    (<[retiree_buffer t := with_ref_count (ab_ref_count d - 1) d]> (store (buffers c))))) (h1 ++ h2)) r dl k x l.
Proof using HN.
  intros I Eh Hb Ebe Hd. assert (Hh : (t, b) ∈ holders c) by (rewrite Eh; apply elem_of_mid).
  destruct (ci_holders _ _ _ _ _ _ _ I t b Hh) as [_ B2 _ _].
  destruct (ci_retired _ _ _ _ _ _ _ I _ B2) as (d0 & Hd0 & [A1 A2 A3 A4 A5] & Hxd). rewrite Hd in Hd0. injection Hd0 as <-.
  assert (Hcov : forall q i, cover (h1 ++ h2) q i = cover (holders c) q i).
  { intros q i. rewrite Eh, cover_mid, covers_false; [done |]. right. lia. }
  assert (Hw : forall t0 b0, (t0, b0) ∈ holders c -> active b0 = true -> (t0, b0) ∈ h1 ++ h2)
    by (intros t0 b0; rewrite Eh; intros [[= -> ->] | ?]%in_mid; [by rewrite Hb | done]).
  eapply (inv_retiree c r dl k x l _ d _ _ _ []);
    [exact I | exact B2 | exact Hd | reflexivity | done | done | done | | done | done | | | | by intros t0 b0 ? ? _; apply Hw].
  - split; cbn; [done | rewrite A2, Eh, refs_mid; destruct (Z.eq_dec _ _); [lia | done] | done | | done].
    intros i Hi. rewrite Hcov. by apply A4.
  - intros p e Hne _ He. eapply retiree_other; [exact He | | done].
    rewrite Eh, refs_mid. by destruct (Z.eq_dec (retiree_buffer t) p).
  - intros t0 b0 Hin0. assert (Hh0 : (t0, b0) ∈ holders c) by (rewrite Eh; apply in_mid; by right).
    destruct (ci_holders _ _ _ _ _ _ _ I t0 b0 Hh0) as [[C1 C2] C3 C4 C5]. split; try done. split; [done |]. intros e.
    rewrite store_lookup. case_decide as E0; [| by apply C2]. intros [= <-]. cbn. apply C2. by rewrite E0.
  - intros Hk Hf. destruct (ci_listed _ _ _ _ _ _ _ I _ d Hk Hd Hf) as (t0 & b0 & Ht & Ha & Et). exists t0, b0. split; [by apply Hw | done].
Qed.

(** A retiree off the list is not on it. *)
Lemma off_list c r dl k x1 q x2 l : cycle_inv N c r dl k (x1 ++ q :: x2) l ->
  (q ∉ k) /\ forall p, p ∈ k ++ x1 ++ x2 -> p <> q /\ p ∈ k ++ x1 ++ q :: x2.
Proof using Type.
  intros I. pose proof (retired_nodup _ _ _ _ _ _ I) as Hnd. rewrite <- Permutation_middle, <- Permutation_middle in Hnd.
  apply NoDup_cons in Hnd as [Hn _]. split; [intros Hk; apply Hn, elem_of_app; by left |].
  intros p Hp. split; [by intros -> |]. rewrite <- Permutation_middle, <- Permutation_middle. by right.
Qed.

(** When nobody holds it, all its nodes have been freed. *)
Lemma off_list_empty c r dl k x1 q x2 l d :
  cycle_inv N c r dl k (x1 ++ q :: x2) l -> store (buffers c) !! q = Some d -> refs (holders c) q = 0%nat -> dead_in d = [].
Proof using Type.
  intros I Hd Href. assert (Hq : q ∈ k ++ x1 ++ q :: x2) by (apply elem_of_app; right; apply elem_of_mid).
  destruct (ci_retired _ _ _ _ _ _ _ I q Hq) as (d0 & Hd0 & [A1 A2 A3 A4 A5] & Hfr). rewrite Hd in Hd0. injection Hd0 as <-.
  pose proof (ag_addrs _ A1) as Hz. cbn in Hz.
  destruct (dead_in d) as [|v vs] eqn:Ev; [done |]. assert (Hv : v ∈ dead_in d) by (rewrite Ev; left).
  unfold dead_in in Hv. apply list_elem_of_filter in Hv as [Hu Hv].
  apply (first_n_elem (ab_n_addrs d) (ab_addrs d)) in Hv as (i & Hi & <-); [| lia].
  destruct (A4 i) as [[Hc _] | [_ ?]]; [rewrite Hfr by apply elem_of_mid; lia | | congruence].
  pose proof (cover_refs (holders c) q i). lia.
Qed.

(** A retiree that nobody holds, off the list, can be released. *)
Lemma releases_ok c r dl k x1 q x2 l d :
  cycle_inv N c r dl k (x1 ++ q :: x2) l -> store (buffers c) !! q = Some d -> refs (holders c) q = 0%nat ->
  exists s', forkscan_release_buffer q (buffers c) = Ok s' /\ waiting s' (q :: l) /\
    s' = set_available (set_store (buffers c) (<[q := with_next (g_available_aggregates (buffers c)) d]> (store (buffers c)))) q.
Proof using HN.
  intros I Hd Href. pose proof I as [_ _ I3 I4 [I5 _] _ _ _ _ I10 _ _ _].
  assert (Hq : q ∈ k ++ x1 ++ q :: x2) by (apply elem_of_app; right; apply elem_of_mid).
  pose proof (retired_lookup _ _ _ _ _ _ _ I Hq) as H0.
  destruct (owned_apart _ _ _ _ _ _ q I5 Hq) as [_ (Hql & _)%not_supply]; [| done].
  destruct (I10 q Hq) as (d0 & Hd0 & [A1 A2 _ _ _] & _). rewrite Hd in Hd0. injection Hd0 as <-.
  rewrite Href in A2. assert (Ha : aggregate_ok d) by (destruct A1 as [G1 G2 G3 G4 G5]; by split).
  destruct (off_list _ _ _ _ _ _ _ _ I) as [Hnk _]. destruct (retiree_ends (buffers c) k q I3 Hnk H0) as [Hf Hl].
  pose proof (release_aggregate_wp (buffers c) q d l (fun s => waiting s (q :: l) /\
    s = set_available (set_store (buffers c) (<[q := with_next (g_available_aggregates (buffers c)) d]> (store (buffers c)))) q)
    H0 Hd Ha I4 Hql Hf Hl (fun s Hws Es => conj Hws Es)) as Hw.
  apply wp_iff in Hw as (s' & E & Hw). by exists s'.
Qed.

(** So it is. *)
Lemma inv_releases c r dl k x1 q x2 l d s' :
  cycle_inv N c r dl k (x1 ++ q :: x2) l -> store (buffers c) !! q = Some d -> refs (holders c) q = 0%nat ->
  forkscan_release_buffer q (buffers c) = Ok s' ->
  cycle_inv N (set_buffers c s') r dl k (x1 ++ x2) (q :: l).
Proof using HN.
  intros I Hd Href Hrel. pose proof I as [I1 I2 I3 I4 [I5 I5'] I6 I7 I8 I9 I10 I11 I12 I13 (I14 & I15 & I16 & I17)].
  assert (Hq : q ∈ k ++ x1 ++ q :: x2) by (apply elem_of_app; right; apply elem_of_mid).
  pose proof (retired_lookup _ _ _ _ _ _ _ I Hq) as H0.
  destruct (owned_apart _ _ _ _ _ _ q I5 Hq) as [Hq1 (Hql & Hqo & Hqd & Hqb)%not_supply]; [| done].
  destruct (off_list _ _ _ _ _ _ _ _ I) as [Hnk Hx].
  destruct (releases_ok _ _ _ _ _ _ _ _ _ I Hd Href) as (s1 & E1 & Hw & Es'). rewrite Hrel in E1. injection E1 as <-.
  assert (Hst : forall p, p <> q -> store s' !! p = store (buffers c) !! p)
    by (intros p Hp; rewrite Es'; cbn; by rewrite lookup_insert_ne).
  assert (Epend : pending (set_buffers c s') dl k (x1 ++ x2) ≡ₚ pending c dl k (x1 ++ q :: x2)).
  { unfold pending. change (buffers (set_buffers c s')) with s'. apply Permutation_app.
    - apply reflexive_eq, (nodes_undisturbed _ _ _ _ _ _ _ s' I Hq Hst).
    - rewrite (dead_of_frame (store (buffers c))) by (intros p Hp; by apply Hst, Hx).
      rewrite !app_assoc, (dead_of_mid _ _ _ _ d Hd), (off_list_empty _ _ _ _ _ _ _ _ d I Hd Href), dead_of_app. done. }
  assert (Hh : g_first_retiree_buffer s' = g_first_retiree_buffer (buffers c) /\ g_last_retiree_buffer s' = g_last_retiree_buffer (buffers c) /\
    g_default_capacity s' = g_default_capacity (buffers c) /\ g_reclaimer_list s' = g_reclaimer_list (buffers c) /\
    g_dead_references s' = g_dead_references (buffers c) /\ blocks s' = blocks (buffers c)) by (rewrite Es'; by split_and!).
  destruct Hh as (E1 & E2 & E3 & E4 & E5 & E6).
  assert (Hsm : forall p, p ∈ filling c ++ r ++ dl -> p <> q) by (by intros p Hp ->).
  split; change (buffers (set_buffers c s')) with s'; rewrite ?E3, ?E4, ?E5, ?E6; try done.
  - eapply lchain_frame; [exact I1 |]. intros p Hp. rewrite Hst; [done |]. apply Hsm. rewrite !elem_of_app. tauto.
  - eapply lchain_frame; [exact I2 |]. intros p Hp. rewrite Hst; [done |]. apply Hsm. rewrite !elem_of_app. tauto.
  - apply (retirees_frame (buffers c)); [done | by split_and! |]. intros p Hp. rewrite Hst; [done | by intros ->].
  - unfold owned, supply. change (buffers (set_buffers c s')) with s'. rewrite E5, E6. cbn [filling g_uncollected_data set_buffers set_common]. split.
    + eapply NoDup_Permutation_proper; [| exact I5]. unfold owned, supply. perm.
    + rewrite !not_elem_of_app in *. rewrite not_elem_of_cons in I5'. tauto.
  - intros p Hp. rewrite Hst by (by apply Hsm). by apply I6.
  - intros Ho. rewrite Hst by done. by apply I8.
  - intros Ho. rewrite Hst by done. by apply I9.
  - intros p Hp. destruct (Hx p Hp) as [Hne Hp']. destruct (I10 p Hp') as (e & He & Hr & Hxe). exists e. rewrite Hst by done.
    split; [done |]. split; [done |]. intros Hpx. apply Hxe. apply in_mid. by right.
  - intros t b Hin. assert (Hne : retiree_buffer t <> q) by (intros <-; by apply (refs_in _ _ _ Hin)).
    destruct (I11 t b Hin) as [B1 B2 B3 B4]. rewrite !elem_of_app in B2. split; [by rewrite Hst | | done |].
    + rewrite !elem_of_app in *. rewrite elem_of_cons in B2. tauto.
    + intros pc Eb. specialize (B4 pc Eb). destruct pc; try done. destruct B4 as [Hbe Hbx]. split; [done |]. rewrite in_mid in Hbx. tauto.
  - intros p e Hp He. rewrite Hst in He by (by intros ->). by apply I12.
  - intros p e He. destruct (decide (p = q)) as [-> | Hne].
    + rewrite Es' in He. cbn in He. rewrite lookup_insert_eq in He. injection He as <-. by apply (I13 q d).
    + rewrite Hst in He by done. by apply (I13 p).
  - split; [| split; [| split]]; [by rewrite Epend | by rewrite Epend | |].
    + intros v. rewrite Epend. apply I16.
    + unfold zlen in *. by rewrite Epend.
Qed.

(** Who gives up a buffer: if it is released, it is off the list. *)
Lemma last_reference c r dl k x l h1 t b h2 d :
  cycle_inv N c r dl k x l -> holders c = h1 ++ (t, b) :: h2 -> active b = false ->
  store (buffers c) !! retiree_buffer t = Some d -> ab_ref_count d = 1 -> ab_free_idx d = ab_n_addrs d -> retiree_buffer t ∈ x.
Proof using HN.
  intros I Eh Hb Hd Href Hf. assert (Hh : (t, b) ∈ holders c) by (rewrite Eh; apply elem_of_mid).
  destruct (ci_holders _ _ _ _ _ _ _ I t b Hh) as [_ B2 _ _]. apply elem_of_app in B2 as B2'. destruct B2' as [Hk | ?]; [| done].
  destruct (ci_retired _ _ _ _ _ _ _ I _ B2) as (d0 & Hd0 & [_ A2 _ _ _] & _). rewrite Hd in Hd0. injection Hd0 as <-.
  destruct (ci_listed _ _ _ _ _ _ _ I _ d Hk Hd Hf) as (t0 & b0 & Ht & Ha & Et). rewrite Eh in Ht. apply in_mid in Ht as [[= -> ->] | Ht]; [by rewrite Hb in Ha |].
  apply refs_in in Ht. rewrite Et in Ht. rewrite Eh, refs_mid in A2. destruct (Z.eq_dec _ _); [lia | done].
Qed.

Lemma inv_unrefs c r dl k x l h1 t b h2 s' :
  cycle_inv N c r dl k x l -> in_use (holders c) x ->
  holders c = h1 ++ (t, b) :: h2 -> active b = false -> begin_retiree_idx t = end_retiree_idx t ->
  forkscan_buffer_unref_buffer (retiree_buffer t) (buffers c) = Ok s' ->
  exists x' l', cycle_inv N (set_holders (set_buffers c s') (h1 ++ h2)) r dl k x' l' /\ in_use (h1 ++ h2) x'.
Proof using HN.
  intros I Hu Eh Hb Ebe Er. assert (Hh : (t, b) ∈ holders c) by (rewrite Eh; apply elem_of_mid).
  destruct (ci_holders _ _ _ _ _ _ _ I t b Hh) as [_ B2 _ _].
  destruct (ci_retired _ _ _ _ _ _ _ I _ B2) as (d & Hd & [A1 A2 A3 A4 A5] & Hfr).
  destruct (unref_inv _ _ d _ Hd Er) as [H0 Hs']. pose proof (inv_drops _ _ _ _ _ _ _ _ _ _ d I Eh Hb Ebe Hd) as I1.
  pose proof (last_reference _ _ _ _ _ _ _ _ _ _ d I Eh Hb Hd) as Hlast.
  set (q := retiree_buffer t) in *. rewrite Eh, refs_mid in A2. fold q in A2.
  destruct (Z.eq_dec q q) as [_ |]; [| done]. cbn in Hs'.
  assert (Huse : forall p, p <> q -> p ∈ x -> refs (h1 ++ h2) p <> 0%nat).
  { intros p Hp Hpx. specialize (Hu p Hpx). rewrite Eh, refs_mid in Hu. fold q in Hu. by destruct (Z.eq_dec q p). }
  destruct ((ab_ref_count d - 1 =? 0) && (ab_free_idx d >=? ab_n_addrs d)) eqn:E.
  - apply andb_prop in E as [E1%Z.eqb_eq E2]. rewrite Z.geb_leb in E2. apply Z.leb_le in E2.
    assert (Hx : q ∈ x) by (apply Hlast; lia).
    pose proof Hx as (x1 & x2 & ->)%list_elem_of_split. exists (x1 ++ x2), (q :: l). split.
    + apply (inv_releases (set_holders (set_buffers c (set_store (buffers c)
        (<[q := with_ref_count (ab_ref_count d - 1) d]> (store (buffers c))))) (h1 ++ h2)) r dl k x1 q x2 l
        (with_ref_count (ab_ref_count d - 1) d)); [exact I1 | cbn; apply lookup_insert_eq | cbn; lia | exact Hs'].
    + pose proof (retired_nodup _ _ _ _ _ _ I) as Hnd. apply NoDup_app in Hnd as (_ & _ & Hnd).
      rewrite <- Permutation_middle in Hnd. apply NoDup_cons in Hnd as [Hn _]. intros p Hp. apply Huse; [by intros -> |].
      apply in_mid. by right.
  - subst s'. exists x, l. split; [exact I1 |]. intros p Hp. destruct (decide (p = q)) as [-> | Hne]; [| by apply Huse].
    specialize (Hfr Hp). intros Hz.
    rewrite (proj2 (Z.eqb_eq _ _)), Hfr in E by lia. cbn in E. rewrite Z.geb_leb in E. lia.
Qed.

(** *** The steps of the reclaimers *)

(** A step that leaves the retirees and the collector's buffers alone, and
    adds the nodes [vs] to those handed in. *)
Lemma inv_frame c c' r dl k x l r' dl' vs :
  cycle_inv N c r dl k x l ->
  holders c' = holders c -> freed_nodes (common c') = freed_nodes (common c) ->
  g_uncollected_data c' = g_uncollected_data c -> retired c' = vs ++ retired c /\ transit c' = transit c ->
  (g_first_retiree_buffer (buffers c') = g_first_retiree_buffer (buffers c) /\
   g_last_retiree_buffer (buffers c') = g_last_retiree_buffer (buffers c) /\
   g_available_aggregates (buffers c') = g_available_aggregates (buffers c) /\
   g_dead_references (buffers c') = g_dead_references (buffers c)) ->
  (forall q, (q ∉ filling c ++ r ++ dl ++ blocks (buffers c)) -> store (buffers c') !! q = store (buffers c) !! q) ->
  bchain (store (buffers c')) (g_reclaimer_list (buffers c')) r' ->
  bchain (store (buffers c')) (g_addr_buffer c') dl' ->
  NoDup (owned c' r' dl' k x l) -> (0 ∉ filling c' ++ x ++ blocks (buffers c')) ->
  (forall q, q ∈ filling c' ++ r' ++ dl' -> exists d, store (buffers c') !! q = Some d /\ small_ok N d) ->
  (g_default_capacity (buffers c') = N \/ (g_default_capacity (buffers c') = 0 /\
     filling c' ++ r' ++ dl' = [] /\ g_dead_references (buffers c) = 0)) ->
  (forall q d, store (buffers c') !! q = Some d -> ab_capacity d <= 2 ^ 30) ->
  contents (store (buffers c')) dl' ≡ₚ vs ++ contents (store (buffers c)) dl ->
  NoDup (vs ++ pending c dl k x) -> (forall v, v ∈ vs -> node_ok v) -> zlen (vs ++ pending c dl k x) <= 2 ^ 30 - 512 ->
  cycle_inv N c' r' dl' k x l.
Proof using HN.
  intros I Eh Ef Eo [Er Et] (E1 & E2 & E3 & E4) Hst H1 H2 H3 H3' H4 H5 H6 H7 H8 H9 H10.
  pose proof I as [I1 I2 I3 I4 [I5 I5'] I6 I7 I8 I9 I10 I11 I12 I13 (I14 & I15 & I16 & I17)].
  assert (Hout : forall q, q <> 0 -> q ∈ k ++ x \/ (q ∈ l) \/ q = g_uncollected_data c \/ q = g_dead_references (buffers c) ->
    store (buffers c') !! q = store (buffers c) !! q).
  { intros q Hq Hin. apply Hst. unfold owned, supply in I5.
    assert (Hp : filling c ++ r ++ dl ++ k ++ x ++ l ++ maybe (g_uncollected_data c) ++ maybe (g_dead_references (buffers c)) ++ blocks (buffers c) ≡ₚ
      (filling c ++ r ++ dl ++ blocks (buffers c)) ++ k ++ x ++ l ++ maybe (g_uncollected_data c) ++ maybe (g_dead_references (buffers c))) by perm.
    rewrite Hp in I5. apply NoDup_app in I5 as (_ & D & _). intros Hb. apply (D q Hb).
    rewrite !elem_of_app, !elem_of_maybe. rewrite elem_of_app in Hin. intuition congruence. }
  assert (Hk : forall q, q ∈ k ++ x -> store (buffers c') !! q = store (buffers c) !! q).
  { intros q Hq. apply Hout; [| by left]. by apply (retired_lookup _ _ _ _ _ _ _ I). }
  assert (Epend : pending c' dl' k x ≡ₚ vs ++ pending c dl k x).
  { unfold pending, nodes_of. rewrite H7, (dead_of_frame (store (buffers c)) _ (k ++ x)) by done. rewrite Eo, Et.
    assert (E : content_at (store (buffers c')) (g_uncollected_data c) = content_at (store (buffers c)) (g_uncollected_data c)).
    { unfold content_at. destruct (Z.eqb_spec (g_uncollected_data c) 0); [done |]. by rewrite Hout; [| | do 2 right; left]. }
    rewrite E. perm. }
  split; rewrite ?Eh, ?Eo, ?E4; try done.
  - destruct I3 as [Hch Hnd Hlast]. split; [| done | congruence]. rewrite E1. eapply lchain_frame; [exact Hch |].
    intros q Hq. rewrite Hk; [done | apply elem_of_app; by left].
  - apply (waiting_frame (buffers c)); [done | done |]. intros q Hq. apply Hout; [| tauto]. by apply (lchain_some _ _ _ _ q (wt_chain _ _ I4)).
  - intros Ho. rewrite Hout; [by apply I8 | done | by do 2 right; left].
  - intros Ho. rewrite Hout; [by apply I9 | done | by do 3 right].
  - intros q Hq. destruct (I10 q Hq) as (d & Hd & Hr). exists d. by rewrite Hk.
  - intros t b Hin. destruct (I11 t b Hin) as [[B1 B1'] B2 B3 B4]. split; try done. split; [done |]. by rewrite Hk.
  - intros q d Hq. rewrite Hk by (apply elem_of_app; by left). by apply I12.
  - split; [| split; [| split]].
    + rewrite Er, Ef, I14, Epend. perm.
    + by rewrite Epend.
    + intros v. rewrite Epend, elem_of_app. intros [? | ?]; [by apply H9 | by apply I16].
    + unfold zlen in *. by rewrite Epend.
Qed.

(** The buffers of the reclaimers are not null, and in the store. *)
Lemma small_lookup c r dl k x l q : cycle_inv N c r dl k x l -> q ∈ filling c ++ r ++ dl ->
  q <> 0 /\ exists d, store (buffers c) !! q = Some d /\ small_ok N d.
Proof using Type.
  intros I Hq. split; [| by apply (ci_small _ _ _ _ _ _ _ I)].
  apply elem_of_app in Hq as [Hq | [Hq | Hq]%elem_of_app].
  - intros ->. apply (proj2 (ci_owned _ _ _ _ _ _ _ I)), elem_of_app. by left.
  - by apply (lchain_some _ _ _ _ q (ci_reclaimers _ _ _ _ _ _ _ I)).
  - by apply (lchain_some _ _ _ _ q (ci_handed _ _ _ _ _ _ _ I)).
Qed.

Lemma inv_maps c r dl k x l b :
  cycle_inv N c r dl k x l -> b <> 0 -> store (buffers c) !! b = None -> (b ∉ blocks (buffers c)) ->
  cycle_inv N (set_buffers c (set_memory (buffers c) (blocks (buffers c) ++ [b]) (unmapped (buffers c)))) r dl k x l.
Proof using HN.
  intros I Hb0 Hb Hnb. pose proof I as [I1 I2 I3 I4 [I5 I5'] I6 I7 I8 I9 I10 I11 I12 I13 (I14 & I15 & I16 & I17)].
  assert (Hn : b ∉ owned c r dl k x l).
  { unfold owned, supply. rewrite !not_elem_of_app, !elem_of_maybe. split_and!; try done.
    - intros H. destruct (I6 b) as (d & E & _); [apply elem_of_app; by left | congruence].
    - intros H. destruct (lchain_some _ _ _ _ b I1 H) as (_ & d & E). congruence.
    - intros H. destruct (lchain_some _ _ _ _ b I2 H) as (_ & d & E). congruence.
    - intros H. destruct (I10 b) as (d & E & _); [apply elem_of_app; by left | congruence].
    - intros H. destruct (I10 b) as (d & E & _); [apply elem_of_app; by right | congruence].
    - intros H. destruct (lchain_some _ _ _ _ b (wt_chain _ _ I4) H) as (_ & d & E). congruence.
    - intros [-> H]. destruct (I8 H) as (d & E & _). congruence.
    - intros [-> H]. destruct (I9 H) as (d & E & _). congruence. }
  eapply (inv_frame c _ r dl k x l r dl []); try done.
  - assert (Hp : owned (set_buffers c (set_memory (buffers c) (blocks (buffers c) ++ [b]) (unmapped (buffers c)))) r dl k x l
      ≡ₚ b :: owned c r dl k x l) by (unfold owned, supply; cbn; perm).
    rewrite Hp. by apply NoDup_cons.
  - cbn. rewrite !not_elem_of_app in *. rewrite list_elem_of_singleton. intuition congruence.
  - intros v Hv. by apply not_elem_of_nil in Hv.
Qed.

(** What [forkscan_make_reclaimer_buffer] hands out: one that waits, or a new
    block. *)
Lemma make_reclaimer_inv ptrs s ab s' : ptrs * MAX_THREAD_COUNT = N -> forkscan_make_reclaimer_buffer ptrs s = Ok (ab, s') ->
  (ab = g_reclaimer_list s /\ ab <> 0 /\ exists d, store s !! ab = Some d /\
     s' = set_store (set_reclaimer_list s (ab_next d)) (<[ab := with_n_addrs 0 d]> (store s))) \/
  (g_reclaimer_list s = 0 /\ exists rest c, blocks s = ab :: rest /\ c = (if g_default_capacity s =? 0 then N else g_default_capacity s) /\
     s' = set_store (set_memory (set_default_capacity s c) rest (unmapped s)) (<[ab := fresh_buffer ab (zeros c) [] 0 c]> (store s))).
Proof using Type.
  intros EN. unfold forkscan_make_reclaimer_buffer. destruct (Z.eqb_spec (g_reclaimer_list s) 0) as [E0 | E0]; cbn [negb].
  - intros (s1 & H1 & H2)%bind_inv. right. split; [done |]. unfold map_buffer in H2.
    assert (E1 : s1 = set_default_capacity s (if g_default_capacity s =? 0 then N else g_default_capacity s)).
    { destruct (g_default_capacity s =? 0).
      - apply bind_inv in H1 as (c & Hc & [= <-]). unfold int_chk in Hc. rewrite EN in Hc. destruct (_ && _) in Hc; [by injection Hc as <- | done].
      - injection H1 as <-. by destruct s. }
    destruct (blocks s1) as [|p rest] eqn:Eb; [done |]. injection H2 as <- <-. rewrite E1 in *. exists rest. eexists. by split_and!.
  - intros (d & [H0 Hd]%buf_load_inv & (s1 & (e & _ & He & ->)%buf_modify_inv & (d1 & _ & (u & _ & [= <- <-])%bind_inv)%bind_inv)%bind_inv)%bind_inv.
    left. split; [done |]. split; [done |]. exists d. split; [done |]. cbn in He. rewrite Hd in He. by injection He as <-.
Qed.

Lemma small_empty d : small_ok N d -> small_ok N (with_n_addrs 0 d).
Proof using HN. intros [G1 G2 G3 G4 G5]. split; cbn; try done. lia. Qed.

Lemma small_fresh p : small_ok N (fresh_buffer p (zeros N) [] 0 N).
Proof using HN. split; cbn; try done; [rewrite zlen_zeros; lia | lia]. Qed.

Lemma inv_takes_waiting c r dl k x l ab d :
  cycle_inv N c r dl k x l -> ab = g_reclaimer_list (buffers c) -> ab <> 0 -> store (buffers c) !! ab = Some d ->
  exists r', cycle_inv N (set_filling (set_buffers c (set_store (set_reclaimer_list (buffers c) (ab_next d))
    (<[ab := with_n_addrs 0 d]> (store (buffers c))))) (ab :: filling c)) r' dl k x l.
Proof using HN.
  intros I Eab H0 Hd. pose proof I as [I1 I2 I3 I4 [I5 I5'] I6 I7 I8 I9 I10 I11 I12 I13 (I14 & I15 & I16 & I17)].
  destruct r as [|y r]; [cbn in I1; congruence |]. destruct I1 as (Ey & _ & d1 & Hd1 & I1). rewrite <- Eab in Ey. subst y.
  rewrite Hd in Hd1. injection Hd1 as <-.
  assert (Hsm : ab ∈ filling c ++ (ab :: r) ++ dl) by (rewrite !elem_of_app; right; left; left).
  destruct (small_lookup _ _ _ _ _ _ _ I Hsm) as (_ & d1 & Hd1 & Hok). rewrite Hd in Hd1. injection Hd1 as <-.
  assert (Hp : filling c ++ (ab :: r) ++ dl ≡ₚ ab :: filling c ++ r ++ dl) by perm.
  assert (Hn : ab ∉ filling c ++ r ++ dl).
  { assert (Hp2 : owned c (ab :: r) dl k x l ≡ₚ ab :: (filling c ++ r ++ dl) ++ k ++ x ++
      supply (buffers c) (g_uncollected_data c) (g_dead_references (buffers c)) l) by (unfold owned; perm).
    rewrite Hp2 in I5. apply NoDup_cons in I5 as [Hn _]. by apply not_elem_of_app in Hn as [? _]. }
  assert (Hst : forall q, q <> ab -> <[ab := with_n_addrs 0 d]> (store (buffers c)) !! q = store (buffers c) !! q)
    by (intros q Hq; by rewrite lookup_insert_ne).
  exists r. eapply (inv_frame c _ (ab :: r) dl k x l r dl []); try done; cbn.
  - intros q Hq. apply Hst. intros ->. apply Hq, elem_of_app. right. left.
  - eapply lchain_frame; [exact I1 |]. intros q Hq. rewrite Hst; [done |]. intros ->. apply Hn. rewrite !elem_of_app. tauto.
  - eapply lchain_frame; [exact I2 |]. intros q Hq. rewrite Hst; [done |]. intros ->. apply Hn. rewrite !elem_of_app. tauto.
  - eapply NoDup_Permutation_proper; [| exact I5]. unfold owned, supply. cbn. perm.
  - rewrite not_elem_of_cons. by split.
  - intros q [-> | Hq]%elem_of_cons.
    + rewrite lookup_insert_eq. eexists. split; [done |]. by apply small_empty.
    + rewrite Hst by (by intros ->). apply I6. rewrite Hp. by right.
  - destruct I7 as [? | (_ & I7 & _)]; [by left |]. apply (f_equal length) in I7. rewrite !length_app in I7. cbn in I7. lia.
  - intros q e. rewrite store_lookup. case_decide; [intros [= <-]; by apply (I13 ab d) | by apply I13].
  - rewrite (contents_frame (store (buffers c))); [done |]. intros q Hq. apply Hst. intros ->. apply Hn. rewrite !elem_of_app. tauto.
  - intros v Hv. by apply not_elem_of_nil in Hv.
Qed.

Lemma inv_takes_new c r dl k x l ab rest n :
  cycle_inv N c r dl k x l -> blocks (buffers c) = ab :: rest ->
  n = (if g_default_capacity (buffers c) =? 0 then N else g_default_capacity (buffers c)) ->
  cycle_inv N (set_filling (set_buffers c (set_store (set_memory (set_default_capacity (buffers c) n) rest (unmapped (buffers c)))
    (<[ab := fresh_buffer ab (zeros n) [] 0 n]> (store (buffers c))))) (ab :: filling c)) r dl k x l.
Proof using HN.
  intros I Eb En. pose proof I as [I1 I2 I3 I4 [I5 I5'] I6 I7 I8 I9 I10 I11 I12 I13 (I14 & I15 & I16 & I17)].
  assert (n = N) as ->.
  { rewrite En. destruct (Z.eqb_spec (g_default_capacity (buffers c)) 0); [done |]. destruct I7 as [-> | [? _]]; done. }
  assert (Hn : ab ∉ filling c ++ r ++ dl ++ k ++ x ++ l ++ maybe (g_uncollected_data c) ++ maybe (g_dead_references (buffers c)) ++ rest).
  { assert (Hp2 : owned c r dl k x l ≡ₚ ab :: filling c ++ r ++ dl ++ k ++ x ++ l ++ maybe (g_uncollected_data c) ++ maybe (g_dead_references (buffers c)) ++ rest)
      by (unfold owned, supply; rewrite Eb; perm). rewrite Hp2 in I5. by apply NoDup_cons in I5 as [? _]. }
  assert (Hn' : ab ∉ filling c ++ r ++ dl) by (rewrite !not_elem_of_app in *; tauto).
  assert (Hst : forall q, q <> ab -> <[ab := fresh_buffer ab (zeros N) [] 0 N]> (store (buffers c)) !! q = store (buffers c) !! q)
    by (intros q Hq; by rewrite lookup_insert_ne).
  eapply (inv_frame c _ r dl k x l r dl []); try done; cbn.
  - intros q Hq. apply Hst. intros ->. apply Hq. rewrite Eb, !elem_of_app. do 3 right. left.
  - eapply lchain_frame; [exact I1 |]. intros q Hq. rewrite Hst; [done |]. intros ->. apply Hn'. rewrite !elem_of_app. tauto.
  - eapply lchain_frame; [exact I2 |]. intros q Hq. rewrite Hst; [done |]. intros ->. apply Hn'. rewrite !elem_of_app. tauto.
  - eapply NoDup_Permutation_proper; [| exact I5]. unfold owned, supply. cbn. rewrite Eb. perm.
  - rewrite Eb in I5'. rewrite !not_elem_of_app, not_elem_of_cons in I5'. rewrite not_elem_of_cons, !not_elem_of_app. tauto.
  - intros q [-> | Hq]%elem_of_cons.
    + rewrite lookup_insert_eq. eexists. split; [done |]. apply small_fresh.
    + rewrite Hst by (by intros ->). by apply I6.
  - by left.
  - intros q e. rewrite store_lookup. case_decide; [intros [= <-]; cbn; lia | by apply I13].
  - rewrite (contents_frame (store (buffers c))); [done |]. intros q Hq. apply Hst. intros ->. apply Hn'. rewrite !elem_of_app. tauto.
  - intros v Hv. by apply not_elem_of_nil in Hv.
Qed.

Lemma inv_takes_buffer ptrs c r dl k x l ab s' :
  ptrs * MAX_THREAD_COUNT = N ->
  cycle_inv N c r dl k x l -> forkscan_make_reclaimer_buffer ptrs (buffers c) = Ok (ab, s') ->
  exists r', cycle_inv N (set_filling (set_buffers c s') (ab :: filling c)) r' dl k x l.
Proof using HN.
  intros EN I E. destruct (make_reclaimer_inv _ _ _ _ EN E) as [(Eab & H0 & d & Hd & ->) | (El & rest & n & Eb & En & ->)].
  - by eapply inv_takes_waiting.
  - exists r. by apply inv_takes_new.
Qed.

(** What is retired anew is not pending. *)
Lemma may_retire_fresh c r dl k x l vs : cycle_inv N c r dl k x l -> may_retire c vs ->
  NoDup (vs ++ pending c dl k x) /\ zlen (vs ++ pending c dl k x) <= 2 ^ 30 - 512.
Proof using Type.
  intros I (Hnd & Hv & Hz). destruct (ci_nodes _ _ _ _ _ _ _ I) as (Hp & Hnd' & _). split.
  - apply NoDup_app. split; [done |]. split; [| done]. intros v Hin Hin'. destruct (Hv v Hin) as [_ Hc].
    rewrite (proj1 (Permutation_count_occ Z.eq_dec _ _) Hp v), count_occ_app in Hc.
    apply list_elem_of_In, (count_occ_In Z.eq_dec) in Hin'. lia.
  - apply Permutation_length in Hp. rewrite length_app in Hp. unfold zlen in *. rewrite length_app. lia.
Qed.

Lemma fill_small vs p d : small_ok N d -> zlen vs <= N -> small_ok N (fill vs p d) /\ content (fill vs p d) = vs.
Proof using Type.
  intros [G1 G2 G3 G4 G5] Hz. pose proof (zlen_nonneg vs). split; [split; cbn; try done|].
  - unfold zlen in *. rewrite length_app, length_drop. lia.
  - unfold content, first_n. cbn. unfold zlen. rewrite Nat2Z.id. apply take_app_length.
Qed.

Lemma inv_hands_in c r dl k x l ab f1 f2 vs s' :
  cycle_inv N c r dl k x l -> filling c = f1 ++ ab :: f2 -> may_retire c vs -> zlen vs <= N ->
  buf_modify (buffers c) ab (fill vs (g_addr_buffer c)) = Ok s' ->
  cycle_inv N (hand_in c ab vs s' (f1 ++ f2)) r (ab :: dl) k x l.
Proof using HN.
  intros I Efl Hvs Hz (d & H0 & Hd & ->)%buf_modify_inv.
  pose proof I as [I1 I2 I3 I4 [I5 I5'] I6 I7 I8 I9 I10 I11 I12 I13 (I14 & I15 & I16 & I17)].
  assert (Hin : ab ∈ filling c ++ r ++ dl) by (rewrite Efl; apply elem_of_app; left; apply elem_of_mid).
  destruct (small_lookup _ _ _ _ _ _ _ I Hin) as (_ & d1 & Hd1 & Hok). rewrite Hd in Hd1. injection Hd1 as <-.
  destruct (fill_small vs (g_addr_buffer c) d Hok Hz) as [Hok' Hct].
  assert (Hn : ab ∉ f1 ++ f2 ++ r ++ dl).
  { assert (Hp : owned c r dl k x l ≡ₚ ab :: (f1 ++ f2 ++ r ++ dl) ++ k ++ x ++
      supply (buffers c) (g_uncollected_data c) (g_dead_references (buffers c)) l) by (unfold owned; rewrite Efl; perm).
    rewrite Hp in I5. apply NoDup_cons in I5 as [Hn _]. by apply not_elem_of_app in Hn as [? _]. }
  assert (Hst : forall q, q <> ab -> <[ab := fill vs (g_addr_buffer c) d]> (store (buffers c)) !! q = store (buffers c) !! q)
    by (intros q Hq; by rewrite lookup_insert_ne).
  assert (Hst' : forall q, q ∈ f1 ++ f2 ++ r ++ dl -> <[ab := fill vs (g_addr_buffer c) d]> (store (buffers c)) !! q = store (buffers c) !! q)
    by (intros q Hq; apply Hst; by intros ->).
  destruct (may_retire_fresh _ _ _ _ _ _ _ I Hvs) as [Hnd Hlen].
  eapply (inv_frame c _ r dl k x l r (ab :: dl) vs); try done; cbn.
  - intros q Hq. apply Hst. intros ->. apply Hq. rewrite Efl. apply elem_of_app. left. apply elem_of_mid.
  - eapply lchain_frame; [exact I1 |]. intros q Hq. rewrite Hst'; [done |]. rewrite !elem_of_app. tauto.
  - split; [done |]. split; [done |]. eexists. split; [apply lookup_insert_eq |]. cbn.
    eapply lchain_frame; [exact I2 |]. intros q Hq. rewrite Hst'; [done |]. rewrite !elem_of_app. tauto.
  - eapply NoDup_Permutation_proper; [| exact I5]. unfold owned, supply. cbn. rewrite Efl. perm.
  - rewrite Efl in I5'. rewrite !not_elem_of_app, ?not_elem_of_cons in *. tauto.
  - intros q Hq. destruct (decide (q = ab)) as [-> | Hne].
    + rewrite lookup_insert_eq. by eexists.
    + rewrite Hst by done. apply I6. rewrite Efl, !elem_of_app, !elem_of_cons in *. tauto.
  - destruct I7 as [? | (_ & I7 & _)]; [by left |]. by rewrite I7 in Hin; apply not_elem_of_nil in Hin.
  - intros q e. rewrite store_lookup. case_decide; [intros [= <-]; by apply (I13 ab d) | by apply I13].
  - unfold contents. cbn. f_equiv.
    + rewrite (content_at_some _ _ (fill vs (g_addr_buffer c) d)) by (done || apply lookup_insert_eq). by rewrite Hct.
    + apply reflexive_eq, contents_frame. intros q Hq. apply Hst'. rewrite !elem_of_app. tauto.
  - intros v Hv. by apply Hvs.
Qed.

(** *** The steps of the collector *)

Lemma submseteq_nodup (l1 l2 : list Z) : l1 ⊆+ l2 -> NoDup l2 -> NoDup l1.
Proof. intros [l3 ->]%submseteq_Permutation H. by apply NoDup_app in H as (? & _ & _). Qed.

Lemma maybe_submseteq p : maybe p ⊆+ [p].
Proof. unfold maybe. destruct (p =? 0); [apply submseteq_nil_l | done]. Qed.

(** After a scan, the dead of a retiree are its garbage. *)
Lemma unmarked_garbage_entry v : entry_ok v -> Buffer.unmarked v = true <-> ~ marked v.
Proof.
  intros He. rewrite (entry_marked v He). unfold Buffer.unmarked, aligned4. rewrite Z.eqb_eq.
  change 3 with (Z.ones 2). destruct He as [Hs _]. unfold size_ok in Hs. rewrite Z.land_ones by lia. change (2 ^ 2) with 4. lia.
Qed.

Lemma dead_in_garbage d : (forall v, v ∈ content d -> entry_ok v) -> dead_in d = garbage (content d).
Proof.
  unfold dead_in, garbage. change (take (Z.to_nat (ab_n_addrs d)) (ab_addrs d)) with (content d).
  induction (content d) as [| v vs IH]; intros Hok; [done |]. rewrite !filter_cons.
  pose proof (unmarked_garbage_entry v (Hok v ltac:(left))) as Hv. rewrite IH by (intros y Hy; apply Hok; by right).
  destruct (decide (Buffer.unmarked v = true)), (decide (~ marked v)); tauto.
Qed.

Lemma inv_collect_ready c r dl k x l : cycle_inv N c r dl k x l -> may_iterate c dl ->
  collect_ready (buffers c) (g_uncollected_data c) (g_addr_buffer c) (g_dead_references (buffers c)) dl k l.
Proof using HN.
  intros I (M1 & M2 & M3 & M4). pose proof I as [I1 I2 I3 I4 [I5 I5'] I6 I7 I8 I9 I10 I11 I12 I13 (I14 & I15 & I16 & I17)].
  assert (Hdef : g_default_capacity (buffers c) = N).
  { destruct I7 as [? | (_ & E & _)]; [done |]. do 2 apply app_eq_nil in E as [_ E]. done. }
  assert (Hsm : forall q d, q ∈ dl -> store (buffers c) !! q = Some d -> small_ok N d).
  { intros q d Hq Hd. destruct (I6 q) as (e & He & Hok); [rewrite !elem_of_app; tauto | congruence]. }
  assert (Hnodes : NoDup (nodes_of (buffers c) (g_uncollected_data c) dl) /\ NoDup (dead_of (store (buffers c)) k)).
  { unfold pending in I15. rewrite dead_of_app in I15. apply NoDup_app in I15 as (? & _ & (_ & _ & (? & _ & _)%NoDup_app)%NoDup_app). done. }
  assert (Hz : zlen (nodes_of (buffers c) (g_uncollected_data c) dl) <= 2 ^ 30 - 512).
  { unfold pending in I17. rewrite zlen_app in I17. pose proof (zlen_nonneg (transit c ++ dead_of (store (buffers c)) (k ++ x))). lia. }
  split; try done.
  - intros q d Hq Hd. destruct (Hsm q d Hq Hd) as [G1 G2 G3 G4 G5]. unfold filled, INT_MAX. rewrite G2, G3, Hdef. split_and!; try done; lia.
  - intros q e Hq He. destruct (I10 q) as (d & Hd & [A1 A2 A3 A4 A5] & _); [apply elem_of_app; by left |].
    rewrite Hd in He. injection He as <-. pose proof (ag_addrs _ A1) as Hz'. cbn in Hz'. lia.
  - lia.
  - rewrite Hdef. done.
  - eapply submseteq_nodup; [| exact I5]. unfold owned, supply.
    transitivity ((dl ++ k ++ l ++ maybe (g_uncollected_data c) ++ maybe (g_dead_references (buffers c)) ++ blocks (buffers c)) ++ filling c ++ r ++ x).
    + apply submseteq_inserts_r. done.
    + apply Permutation_submseteq. perm.
  - split; [done |]. rewrite !not_elem_of_app in I5'. tauto.
  - split; [done |]. split; [lia | done].
  - split; [| split; [by apply Hnodes |]].
    + split; [| lia]. destruct (nodes_of _ _ _) as [|v vs]; [done |]. rewrite zlen_cons. pose proof (zlen_nonneg vs). lia.
    + intros v Hv. apply I16. apply elem_of_app. by left.
  - split; [apply Hnodes |]. intros v Hv. destruct (I16 v) as (_ & ? & _); [| lia].
    unfold pending. rewrite dead_of_app, !elem_of_app. tauto.
Qed.

Lemma iterated_owned c r dl k x l wd u l' s' :
  settled (buffers c) (g_uncollected_data c) (g_dead_references (buffers c)) dl k l wd u l' s' ->
  owned (iterated c u s') (rev dl ++ r) [] (k ++ [wd]) x l' ⊆+ owned c r dl k x l.
Proof using Type.
  intros St. unfold owned, iterated. change (buffers (mk_cycle _ _ _ _ _ _ _)) with s'. cbn [filling g_uncollected_data].
  transitivity ((filling c ++ r ++ dl ++ k ++ x) ++ wd :: u :: l' ++ g_dead_references s' :: blocks s').
  - transitivity ((filling c ++ r ++ dl ++ k ++ x ++ wd :: l' ++ blocks s') ++ maybe u ++ maybe (g_dead_references s')).
    + apply Permutation_submseteq. unfold supply. perm.
    + transitivity ((filling c ++ r ++ dl ++ k ++ x ++ wd :: l' ++ blocks s') ++ [u] ++ [g_dead_references s']).
      * apply submseteq_app; [done |]. apply submseteq_app; apply maybe_submseteq.
      * apply Permutation_submseteq. perm.
  - transitivity ((filling c ++ r ++ dl ++ k ++ x) ++ supply (buffers c) (g_uncollected_data c) (g_dead_references (buffers c)) l).
    + apply submseteq_app; [done |]. apply (st_supply _ _ _ _ _ _ _ _ _ _ St).
    + apply Permutation_submseteq. perm.
Qed.

(** What the settled buffers are to the collector's records. *)
Lemma owned_parts c r dl k x l q : cycle_inv N c r dl k x l ->
  q ∈ filling c ++ r ++ x -> q <> 0 /\ (q ∉ dl ++ k ++ supply (buffers c) (g_uncollected_data c) (g_dead_references (buffers c)) l).
Proof using HN.
  intros I Hq. split.
  - rewrite !elem_of_app in Hq. destruct Hq as [Hq | [Hq | Hq]].
    + apply (small_lookup _ _ _ _ _ _ _ I). apply elem_of_app. by left.
    + apply (small_lookup _ _ _ _ _ _ _ I). rewrite !elem_of_app. tauto.
    + apply (retired_lookup _ _ _ _ _ _ _ I). apply elem_of_app. by right.
  - destruct (ci_owned _ _ _ _ _ _ _ I) as [Hnd _]. unfold owned in Hnd.
    assert (Hp : filling c ++ r ++ dl ++ k ++ x ++ supply (buffers c) (g_uncollected_data c) (g_dead_references (buffers c)) l ≡ₚ
      (filling c ++ r ++ x) ++ dl ++ k ++ supply (buffers c) (g_uncollected_data c) (g_dead_references (buffers c)) l) by perm.
    rewrite Hp in Hnd. apply NoDup_app in Hnd as (_ & D & _). by apply D.
Qed.

Lemma with_next_retiree h q v d : retiree_ok h q d -> retiree_ok h q (with_next v d).
Proof. intros [[G1 G2 G3 G4 G5] A2 A3 A4 A5]. split; [by split | done..]. Qed.

Lemma head_app (k k2 : list Z) y : y ∈ k -> hd 0 (k ++ k2) = hd 0 k.
Proof. destruct k; [intros H; by apply not_elem_of_nil in H | done]. Qed.

(** A record the collector draws its buffers from is no one else's. *)
Lemma supply_apart c r dl k x l wd u l' s' q : cycle_inv N c r dl k x l ->
  settled (buffers c) (g_uncollected_data c) (g_dead_references (buffers c)) dl k l wd u l' s' ->
  q ∈ wd :: u :: l' ++ g_dead_references s' :: blocks s' ->
  q <> 0 /\ (q ∉ filling c ++ r ++ dl) /\ (q ∉ k ++ x).
Proof using HN.
  intros I St Hq. assert (Hs : q ∈ supply (buffers c) (g_uncollected_data c) (g_dead_references (buffers c)) l)
    by (eapply elem_of_submseteq; [exact Hq | apply (st_supply _ _ _ _ _ _ _ _ _ _ St)]).
  destruct (ci_owned _ _ _ _ _ _ _ I) as [H H0]. split.
  - unfold supply in Hs. rewrite !elem_of_app, !elem_of_maybe in Hs. destruct Hs as [Hs | [[-> ?] | [[-> ?] | Hs]]]; [| done | done |].
    + by apply (lchain_some _ _ _ _ q (wt_chain _ _ (ci_waiting _ _ _ _ _ _ _ I))).
    + intros ->. apply H0. rewrite !elem_of_app. tauto.
  - unfold owned in H.
    replace (filling c ++ r ++ dl ++ k ++ x ++ supply (buffers c) (g_uncollected_data c) (g_dead_references (buffers c)) l) with
      ((filling c ++ r ++ dl) ++ (k ++ x) ++ supply (buffers c) (g_uncollected_data c) (g_dead_references (buffers c)) l) in H by (by rewrite <- !app_assoc).
    apply NoDup_app in H as (_ & D & (_ & D2 & _)%NoDup_app). split; intros Hin; [apply (D q Hin), elem_of_app; by right | by apply (D2 q)].
Qed.

Section iterated.
Context (c : cycle_t) (r dl k x l : list Z) (wd : Z) (w : addr_buffer_t) (u : Z) (l' : list Z) (s' : buffers_t) (d : addr_buffer_t) (cp : Z).
Hypotheses (I : cycle_inv N c r dl k x l) (M : may_iterate c dl).
Hypotheses (Hr : retirees s' (k ++ [wd])) (Hw : store s' !! wd = Some w) (Hf0 : ab_free_idx w = 0) (Hag : aggregate_ok w).
Hypotheses (Hwn : 0 <= ab_n_addrs w <= ab_capacity w) (Hd : store s' !! u = Some d) (Hcol : collecting cp d (survivors (content w))).
Hypotheses (Hperm : survivors (content w) ++ garbage (content w) ≡ₚ nodes_of (buffers c) (g_uncollected_data c) dl).
Hypotheses (Hent : forall v, v ∈ content w -> entry_ok v) (Hwt : waiting s' l').
Hypotheses (St : settled (buffers c) (g_uncollected_data c) (g_dead_references (buffers c)) dl k l wd u l' s').

Lemma iter_default : g_default_capacity (buffers c) = N.
Proof using All.
  destruct (ci_default _ _ _ _ _ _ _ I) as [? | (_ & E & _)]; [done |]. do 2 apply app_eq_nil in E as [_ E]. by destruct M.
Qed.

Lemma iter_supply q : q ∈ wd :: u :: l' ++ g_dead_references s' :: blocks s' ->
  q <> 0 /\ (q ∉ filling c ++ r ++ dl) /\ (q ∉ k ++ x).
Proof using All. by apply (supply_apart _ _ _ _ _ _ _ _ _ _ _ I St). Qed.

Lemma iter_same q : q ∈ filling c ++ r ++ x -> store s' !! q = store (buffers c) !! q.
Proof using All.
  intros Hq. destruct (owned_parts _ _ _ _ _ _ q I Hq) as [H0 Hn]. by apply (st_frame _ _ _ _ _ _ _ _ _ _ St).
Qed.

Lemma iter_kept q e : q ∈ k ++ x -> store (buffers c) !! q = Some e -> exists v, store s' !! q = Some (with_next v e).
Proof using All.
  intros [Hq | Hq]%elem_of_app He; [by apply (st_kept _ _ _ _ _ _ _ _ _ _ St) |].
  exists (ab_next e). rewrite with_next_id, iter_same; [done |]. rewrite !elem_of_app. tauto.
Qed.

Lemma iter_dead ks : (forall q, q ∈ ks -> q ∈ k ++ x) -> dead_of (store s') ks = dead_of (store (buffers c)) ks.
Proof using All.
  unfold dead_of. induction ks as [|q ks IH]; intros Hks; [done |]. cbn. rewrite IH by (intros y Hy; apply Hks; by right).
  destruct (ci_retired _ _ _ _ _ _ _ I q (Hks q ltac:(left))) as (e & He & _).
  destruct (iter_kept q e (Hks q ltac:(left)) He) as [v Hv]. by rewrite He, Hv.
Qed.

Lemma iter_pending : pending (iterated c u s') [] (k ++ [wd]) x ≡ₚ pending c dl k x.
Proof using All.
  unfold pending, iterated. change (buffers (mk_cycle _ _ _ _ _ _ _)) with s'. cbn [g_uncollected_data transit].
  rewrite <- Hperm. unfold nodes_of. cbn [contents flat_map]. rewrite app_nil_r.
  assert (Eu : content_at (store s') u = survivors (content w)).
  { destruct (iter_supply u) as [H0 _]; [right; left |]. destruct Hcol as [_ _ [En Ef]].
    rewrite (content_at_some _ _ d) by done. unfold content. by rewrite En. }
  assert (Ew : dead_of (store s') [wd] = garbage (content w)).
  { unfold dead_of. cbn. by rewrite Hw, app_nil_r, (dead_in_garbage w Hent). }
  rewrite Eu, !dead_of_app, Ew, (iter_dead k), (iter_dead x); [perm | intros q Hq; apply elem_of_app; tauto..].
Qed.

Lemma iter_retired q : q ∈ (k ++ [wd]) ++ x ->
  exists e, store s' !! q = Some e /\ retiree_ok (holders c) q e /\ (q ∈ x -> ab_free_idx e = ab_n_addrs e).
Proof using All.
  intros Hq. destruct (decide (q = wd)) as [-> | Hne].
  - destruct (iter_supply wd) as (_ & _ & Hn); [left |]. exists w. split; [done |]. split.
    + split; [by destruct Hag; split | | lia | rewrite Hf0; lia |
        intros i Hi; apply Hent; unfold content; apply first_n_elem; [pose proof (ag_addrs _ Hag); lia | exists i; split; [lia | done]]]. rewrite (ag_ref _ Hag). destruct (refs (holders c) wd) eqn:E; [done |].
      destruct (refs_holder (holders c) wd) as (t & b & Hin & Et); [lia |].
      destruct Hn. rewrite <- Et. by apply (ci_holders _ _ _ _ _ _ _ I t b).
    + intros Hx. destruct Hn. apply elem_of_app. by right.
  - assert (Hq' : q ∈ k ++ x) by (rewrite !elem_of_app, list_elem_of_singleton in *; tauto).
    destruct (ci_retired _ _ _ _ _ _ _ I q Hq') as (e & He & Hok & Hx). destruct (iter_kept q e Hq' He) as [v Hv].
    exists (with_next v e). split; [done |]. split; [by apply with_next_retiree | exact Hx].
Qed.

Lemma iter_holders t b : (t, b) ∈ holders c -> holder_ok (store s') (k ++ [wd]) x t b.
Proof using All.
  intros Hin. destruct (ci_holders _ _ _ _ _ _ _ I t b Hin) as [[B1 B1'] B2 B3 B4].
  destruct (iter_supply wd) as (_ & _ & Hn); [left |]. split; [| | | done].
  - split; [done |]. intros e He. destruct (ci_retired _ _ _ _ _ _ _ I _ B2) as (f & Hf & _).
    destruct (iter_kept _ f B2 Hf) as [v Hv]. rewrite Hv in He. injection He as <-. exact (B1' f Hf).
  - rewrite !elem_of_app in *. tauto.
  - intros Hb [Hk | E%list_elem_of_singleton]%elem_of_app; [| by rewrite E in B2]. by rewrite (head_app _ _ _ Hk), B3.
Qed.

Lemma iter_listed q e : q ∈ k ++ [wd] -> store s' !! q = Some e -> ab_free_idx e = ab_n_addrs e ->
  exists t b, (t, b) ∈ holders c /\ active b = true /\ retiree_buffer t = q.
Proof using All.
  intros [Hq | ->%list_elem_of_singleton]%elem_of_app He Hf.
  - assert (Hq' : q ∈ k ++ x) by (apply elem_of_app; by left).
    destruct (ci_retired _ _ _ _ _ _ _ I q Hq') as (f & Hf' & _). destruct (iter_kept q f Hq' Hf') as [v Hv].
    rewrite Hv in He. injection He as <-. by apply (ci_listed _ _ _ _ _ _ _ I q f).
  - exfalso. rewrite Hw in He. injection He as <-. destruct M as (_ & _ & Hne & _). apply Hne.
    assert (content w = []) as Ec by (unfold content, first_n; by rewrite <- Hf, Hf0).
    rewrite Ec in Hperm. by apply Permutation_nil in Hperm.
Qed.

Lemma inv_iterated : cycle_inv N (iterated c u s') (rev dl ++ r) [] (k ++ [wd]) x l'.
Proof using All.
  pose proof I as [I1 I2 I3 I4 [I5 I5'] I6 I7 I8 I9 I10 I11 I12 I13 (I14 & I15 & I16 & I17)].
  split; change (buffers (iterated c u s')) with s'; rewrite ?(st_default _ _ _ _ _ _ _ _ _ _ St), ?iter_default; try done.
  - apply (st_reclaimers _ _ _ _ _ _ _ _ _ _ St); [done |]. intros q Hq. apply (owned_parts c r dl k x l q I). rewrite !elem_of_app. tauto.
  - split; [by eapply submseteq_nodup; [apply iterated_owned |] |]. cbn. rewrite !not_elem_of_app in *. split; [tauto |]. split; [tauto |].
    intros H0. destruct (iter_supply 0) as [? _]; [| done]. do 2 right. apply elem_of_app. right. by right.
  - cbn. rewrite app_nil_r. intros q Hq. assert (Hq' : q ∈ dl \/ q ∈ filling c ++ r).
    { rewrite !elem_of_app in *. rewrite <- (Permutation_rev dl) in Hq. tauto. }
    destruct Hq' as [Hq' | Hq'].
    + destruct (I6 q) as (e & He & Hok); [rewrite !elem_of_app; tauto |].
      destruct (st_released _ _ _ _ _ _ _ _ _ _ St q e Hq' He) as [v Hv]. exists (with_next v e). split; [done |]. by destruct Hok; split.
    + rewrite iter_same by (rewrite !elem_of_app in *; tauto). apply I6. rewrite !elem_of_app in *. tauto.
  - by left.
  - intros _. exists d. destruct Hcol as [Ha _ [En Ef]]. split; [done |]. split; [done |]. cbn. rewrite En. split; [apply zlen_nonneg |].
    apply (f_equal length) in Ef. unfold first_n in Ef. rewrite length_take in Ef. pose proof (ag_addrs _ Ha). unfold zlen in *. lia.
  - intros _. rewrite <- iter_default. apply (st_dead _ _ _ _ _ _ _ _ _ _ St).
  - intros q. apply iter_retired.
  - intros t b. apply iter_holders.
  - apply iter_listed.
  - apply (st_sizes _ _ _ _ _ _ _ _ _ _ St).
  - split; [| split; [| split]]; [by rewrite iter_pending | by rewrite iter_pending | |].
    + intros v. rewrite iter_pending. apply I16.
    + unfold zlen. by rewrite iter_pending.
Qed.
End iterated.

(** The collector iterates, on what has been handed in. *)
Lemma inv_collects pre must may scan `{!Scanner pre must may scan} c r dl k x l :
  cycle_inv N c r dl k x l -> may_iterate c dl ->
  may_scan pre (nodes_of (buffers c) (g_uncollected_data c) dl) (take (Z.to_nat (g_default_capacity (buffers c))) (dead_of (store (buffers c)) k)) ->
  exists u s' wd l', reclaim_iteration scan (g_uncollected_data c) (g_addr_buffer c) (buffers c) = Ok (u, s') /\
    cycle_inv N (iterated c u s') (rev dl ++ r) [] (k ++ [wd]) x l' /\
    (forall v, v ∈ nodes_of (buffers c) (g_uncollected_data c) dl -> must v -> v ∈ nodes_of s' u []) /\
    (forall v, v ∈ nodes_of s' u [] -> may v) /\
    (forall q e, q ∈ k ++ x -> store (buffers c) !! q = Some e -> exists v, store s' !! q = Some (with_next v e)).
Proof using HN.
  intros I M Hpre. pose proof (reclaim_wp pre must may scan _ _ _ _ _ _ _ (inv_collect_ready _ _ _ _ _ _ I M) Hpre) as Hw.
  apply wp_iff in Hw as ([u s'] & E & [(wd & w & Hr & Hw & Hf0 & Hag & Hwn & (d & cp & Hd & _ & Hcol) & Hperm & Hent & [K1 K2] & (l' & Hwt & _ & St))]).
  exists u, s', wd, l'. split; [exact E |]. split; [by eapply inv_iterated |].
  destruct (supply_apart c r dl k x l wd u l' s' u I St) as [Hu0 _]; [right; left |].
  assert (Eu : nodes_of s' u [] = survivors (content w)).
  { unfold nodes_of. rewrite (content_at_some _ _ d) by done. destruct Hcol as [_ _ [En Ef]]. unfold content. cbn. by rewrite En, Ef, app_nil_r. }
  rewrite Eu. split; [done |]. split; [done |]. intros q e. by eapply iter_kept.
Qed.

(** ** Every step *)

Definition cycle_ok (c : cycle_t) : Prop :=
  (exists r dl k x l, cycle_inv N c r dl k x l /\ in_use (holders c) x) /\
  (forall t b, (t, b) ∈ holders c -> b <> Dividing) /\ transit c = [].

Lemma cycle_start_ok : cycle_ok cycle_start.
Proof using HN.
  split; [| split; [intros t b Hin; by apply not_elem_of_nil in Hin | done]].
  exists [], [], [], [], []. split; [| intros q Hq; by apply not_elem_of_nil in Hq].
  split; try done; try (intros q Hq; by apply not_elem_of_nil in Hq).
  - by split; [| constructor |].
  - by apply waiting_none.
  - split; [constructor | apply not_elem_of_nil].
  - by right.
  - intros t b Hin. by apply not_elem_of_nil in Hin.
  - split; [done |]. split; [constructor |]. split; [intros v Hv; by apply not_elem_of_nil in Hv | by vm_compute].
Qed.

(** A turn of a thread in its retiree that does not lead behind the entries. *)
Lemma frees_inv c r dl k x l h1 t pc h2 pc' t' g' :
  cycle_inv N c r dl k x l -> in_use (holders c) x -> holders c = h1 ++ (t, At pc) :: h2 ->
  free_turn (pc, t) (common c) = Ok ((pc', t'), g') -> within (h1 ++ holding t' pc' ++ h2) ->
  exists k' x' l', cycle_inv N (set_holders (set_common c g') (h1 ++ holding t' pc' ++ h2)) r dl k' x' l' /\
    in_use (h1 ++ holding t' pc' ++ h2) x'.
Proof using HN.
  intros I Hu Eh E Hw. assert (Hh : (t, At pc) ∈ holders c) by (rewrite Eh; apply elem_of_mid).
  destruct (ci_holders _ _ _ _ _ _ _ I t _ Hh) as [[B0 B1] B2 B3 B4]. specialize (B4 _ eq_refl).
  pose proof (retired_lookup _ _ _ _ _ _ _ I B2) as H0. apply Z.eqb_neq in H0 as E0. pose proof (free_turn_inv _ _ _ _ _ _ H0 E) as T.
  destruct (ci_retired _ _ _ _ _ _ _ I _ B2) as (d & Hd & Hok & _).
  assert (Hhold : forall u p, retiree_buffer u = retiree_buffer t -> holding u p = [(u, At p)]) by (intros u p Eu; unfold holding; by rewrite Eu, E0).
  assert (Hsame : forall u p, retiree_buffer u = retiree_buffer t -> in_use (h1 ++ (u, At p) :: h2) x).
  { intros u p Eu q Hq. specialize (Hu q Hq). rewrite Eh, refs_mid in Hu. by rewrite refs_mid, Eu. }
  destruct T as [| d1 Hd1 | d1 Hd1 | i d1 e g' Hd1 He Hc | i d1 e Hd1 He Hc | t' g' Ef | s Ep | s Er];
    try (fold (buffers c) in Hd1; rewrite Hd in Hd1; injection Hd1 as <-).
  - rewrite Hhold by done. exists k, x, l. split; [| by apply Hsame]. eapply inv_turns; try done; destruct (Z.eqb_spec (begin_retiree_idx t) (end_retiree_idx t)); try done;
      (intros pc [= <-]; cbn; lia).
  - rewrite Hhold by done. exists k, x, l. split; [| by apply Hsame]. rewrite Z.geb_leb. eapply inv_turns; try done; destruct (Z.leb_spec (ab_n_addrs d) (ab_free_idx d)); try done;
      (intros pc [= <-]; done).
  - rewrite Hhold by done. exists k, x, l. split; [| by apply Hsame]. eapply inv_turns; try done. intros pc [= <-]. split; [done |]. by apply (re_n _ _ _ Hok).
  - rewrite Hhold in * by done. exists k, x, l. split; [| by apply Hsame]. eapply inv_claims; try done.
    destruct (Z.lt_ge_cases i (ab_n_addrs d)) as [| Hge]; [done | exfalso]. apply claim_end in He.
    apply (Hw _ _ (elem_of_mid _ _ _)). split; [done |]. right. cbn. split; [done | lia].
  - rewrite Hhold by done. exists k, x, l. split; [| by apply Hsame]. eapply inv_turns; try done. by intros pc [= <-].
  - pose proof (free_entry_place _ _ _ _ Ef) as Et. rewrite Hhold by (by rewrite Et). exists k, x, l. split; [| apply Hsame; by rewrite Et]. by eapply inv_frees.
  - rewrite Hhold by done. edestruct inv_pops as (k' & x' & I' & Hu' & _); [done..|]. by exists k', x', l.
  - edestruct inv_unrefs as (x' & l' & I' & Hu'); [done | done | exact Eh | done | by apply B4 | exact Er |]. by exists k, x', l'.
Qed.

(** A step of a thread, whatever the collector is at. *)
Lemma thread_step_inv ptrs c c' r dl k x l : ptrs * MAX_THREAD_COUNT = N ->
  cycle_inv N c r dl k x l -> in_use (holders c) x -> thread_step ptrs c c' -> within (holders c') ->
  exists r' dl' k' x' l', cycle_inv N c' r' dl' k' x' l' /\ in_use (holders c') x'.
Proof using HN.
  intros EN I Hu Hs Hw. destruct Hs as [ab s' E | ab f1 f2 vs s' Ef Hm Hz E | b e pc t g' E Ht | h1 t pc h2 pc' t' g' Eh E | b H0 Hb Hnb].
  - destruct (inv_takes_buffer ptrs c r dl k x l ab s' EN I) as [r' I']; [done |]. by exists r', dl, k, x, l.
  - exists r, (ab :: dl), k, x, l. split; [| exact Hu]. eapply inv_hands_in; try done. lia.
  - destruct (take_turn _ _ _ _ _ _ E Ht) as [-> E']. exists r, dl, k, x, l. split; [by apply inv_takes_retiree |].
    intros q Hq. cbn. rewrite refs_cons. specialize (Hu q Hq). lia.
  - edestruct frees_inv as (k' & x' & l' & I' & Hu'); [done..|]. by exists r, dl, k', x', l'.
  - exists r, dl, k, x, l. split; [by apply inv_maps | exact Hu].
Qed.

(** Threads do not take the part of the collector. *)
Lemma thread_step_roles ptrs c c' : thread_step ptrs c c' -> transit c' = transit c /\
  ((forall t b, (t, b) ∈ holders c -> b <> Dividing) -> forall t b, (t, b) ∈ holders c' -> b <> Dividing).
Proof using Type.
  intros Hs. split; [by destruct Hs |]. intros H. destruct Hs as [| | b e pc t g' E Ht | h1 t pc h2 pc' t' g' Eh E |]; try exact H; cbn; intros t0 b0 Hin.
  - apply elem_of_cons in Hin as [[= _ ->] | Hin]; [done | by apply (H t0)].
  - assert (Hr : forall u b, (u, b) ∈ h1 ++ h2 -> b <> Dividing) by (intros u b Hub; apply (H u); rewrite Eh; apply in_mid; by right).
    unfold holding in Hin. destruct (retiree_buffer t' =? 0); [by apply (Hr t0) |]. apply in_mid in Hin as [[= _ ->] | Hin]; [done | by apply (Hr t0)].
Qed.

Lemma cycle_step_ok ptrs c c' : ptrs * MAX_THREAD_COUNT = N -> cycle_ok c -> cycle_step ptrs c c' -> within (holders c') -> cycle_ok c'.
Proof using HN.
  intros EN ((r & dl & k & x & l & I & Hu) & Hd & Ht) Hs Hw. destruct Hs as [c' Hs | scan pre must may dl1 k1 u s' ? Hdl Hk M Hscan E].
  - destruct (thread_step_roles _ _ _ Hs) as [Et Hr]. split; [by eapply thread_step_inv | split; [by apply Hr | congruence]].
  - rewrite <- (lchain_unique _ _ _ _ _ (ci_handed _ _ _ _ _ _ _ I) Hdl) in *.
    rewrite <- (lchain_unique _ _ _ _ _ (rt_chain _ _ (ci_retirees _ _ _ _ _ _ _ I)) (rt_chain _ _ Hk)) in *.
    destruct (inv_collects pre must may scan c r dl k x l I M Hscan) as (u1 & s1 & wd & l' & E1 & I' & _).
    rewrite E in E1. injection E1 as <- <-. split; [exists (rev dl ++ r), [], (k ++ [wd]), x, l'; by split | by split].
Qed.

Lemma cycle_reachable_placed ptrs c : cycle_reachable ptrs c -> placed (holders c).
Proof using Type.
  induction 1 as [| c c' _ IH S]; [intros t pc Hin; by apply not_elem_of_nil in Hin |]. destruct S; [by eapply thread_step_placed | exact IH].
Qed.

(** As long as no thread is behind the entries of its buffer. *)
Lemma cycle_reachable_ok ptrs c : ptrs * MAX_THREAD_COUNT = N -> cycle_reachable ptrs c -> within (holders c) -> cycle_ok c.
Proof using HN.
  intros EN H. induction H as [| c c' H IH S]; intros Hw; [apply cycle_start_ok |]. eapply cycle_step_ok; [done | apply IH | done | done].
  destruct S as [c' S |]; [| exact Hw]. eapply within_before; [done | by eapply cycle_reachable_placed | done].
Qed.

End steps.

(** * Properties *)

Section properties.
Context (ptrs_per_thread : Z) (Hptrs : 0 < ptrs_per_thread * MAX_THREAD_COUNT <= 2 ^ 30).

(** Over any number of iterations, with threads that retire and free in any
    order: every node retired so far has been freed as often as it was
    retired, or it is, once, in one of three places: with the collector, to
    be tried in the next iteration; in a retiree, to be freed; or in an
    exhausted buffer that some thread still works on; unless a thread has got
    behind the entries of its buffer. *)
Theorem nodes_conserved c : cycle_reachable ptrs_per_thread c -> within (holders c) ->
  exists dl k x, bchain (store (buffers c)) (g_addr_buffer c) dl /\ retirees (buffers c) k /\
    (forall q, q ∈ x -> exists t b, (t, b) ∈ holders c /\ retiree_buffer t = q) /\
    let waiting := nodes_of (buffers c) (g_uncollected_data c) dl in
    let dead := dead_of (store (buffers c)) (k ++ x) in
    retired c ≡ₚ freed_nodes (common c) ++ waiting ++ dead /\ NoDup (waiting ++ dead).
Proof using Hptrs.
  intros H Hw. destruct (cycle_reachable_ok _ Hptrs _ c eq_refl H Hw) as ((r & dl & k & x & l & I & Hu) & Hr & Ht).
  exists dl, k, x. split; [apply I |]. split; [apply I |]. split; [| pose proof (ci_nodes _ _ _ _ _ _ _ I) as (Hp & Hnd & _); unfold pending in Hp, Hnd; rewrite Ht in Hp, Hnd; by split].
  intros q Hq. specialize (Hu q Hq). apply refs_holder. lia.
Qed.

(** C9: The collector can always iterate when something has been handed in and
    memory is left, whatever happened before, short of a thread that has got
    behind the entries of its buffer, with the scan of child.c: it ends
    without an error, the nodes that scanned memory refers to wait for the
    next iteration, and the state is again one it can go on from. *)
Theorem collector_goes_on mem usable_size T next_subrange `{!Subranges T next_subrange}
    lock fuel ls tl max_children schedule c dl k :
  let s := buffers c in
  let nodes := nodes_of s (g_uncollected_data c) dl in
  let dead := take (Z.to_nat (g_default_capacity s)) (dead_of (store s) k) in
  cycle_reachable ptrs_per_thread c -> within (holders c) -> bchain (store s) (g_addr_buffer c) dl -> retirees s k -> may_iterate c dl ->
  heap_blocks usable_size nodes dead -> snapshot_ok T fuel ls tl schedule ->
  exists u s', reclaim_iteration (forkscan_child mem usable_size next_subrange lock fuel (Some (print_file ls)) tl max_children schedule)
      (g_uncollected_data c) (g_addr_buffer c) s = Ok (u, s') /\
    cycle_reachable ptrs_per_thread (iterated c u s') /\
    forall a, scanned_word T lock ls tl a -> outside usable_size (nodes ++ dead) a -> ref_at mem a ∈ nodes ->
      ref_at mem a ∈ nodes_of s' u [].
Proof using Hptrs.
  intros s nodes dead H Hw Hdl Hk M Hb S. destruct (cycle_reachable_ok _ Hptrs _ c eq_refl H Hw) as ((r & dl' & k' & x & l & I & _) & _).
  rewrite (lchain_unique _ _ _ _ _ (ci_handed _ _ _ _ _ _ _ I) Hdl) in I.
  rewrite (lchain_unique _ _ _ _ _ (rt_chain _ _ (ci_retirees _ _ _ _ _ _ _ I)) (rt_chain _ _ Hk)) in I.
  pose proof (inv_collect_ready _ Hptrs _ _ _ _ _ _ I M) as C.
  pose proof (child_scanner mem usable_size T next_subrange lock fuel ls tl max_children schedule S (nodes ++ dead)) as Hscan.
  pose proof (child_may_scan usable_size s _ _ _ dl k l C Hb) as Hpre.
  destruct (inv_collects _ Hptrs _ _ _ _ c r dl k x l I M Hpre) as (u & s' & _ & _ & E & _ & Hkept & _).
  exists u, s'. split; [exact E |]. split.
  - eapply cycle_goes; [exact H |]. by eapply iterates.
  - intros a Ha Hout Hin. apply Hkept; [done | by exists a].
Qed.

(** [forkscan_buffer_pop_retiree_buffer] is only ever called for the first of
    the retirees, or for one that is off the list: what the comment in
    [forkscan_buffer_push_back] is afraid of, and
    [Buffer.pop_last_loses_push] shows of the function alone, does not happen. *)
Theorem popped_in_front c k t b : cycle_reachable ptrs_per_thread c -> within (holders c) -> retirees (buffers c) k -> (t, b) ∈ holders c ->
  retiree_buffer t ∈ k -> exists k', k = retiree_buffer t :: k'.
Proof using Hptrs.
  intros H Hw Hk Hin Hq. destruct (cycle_reachable_ok _ Hptrs _ c eq_refl H Hw) as ((r & dl & k' & x & l & I & _) & Hr & _).
  rewrite (lchain_unique _ _ _ _ _ (rt_chain _ _ (ci_retirees _ _ _ _ _ _ _ I)) (rt_chain _ _ Hk)) in I.
  pose proof (ho_first _ _ _ _ _ (ci_holders _ _ _ _ _ _ _ I t b Hin) (Hr t b Hin) Hq) as E.
  destruct k as [|y k]; [by apply not_elem_of_nil in Hq |]. cbn in E. subst y. by exists k.
Qed.
End properties.

(** ** Witnesses *)

(** What can be done next: by the reclaimer that was last to take a buffer, by a
    thread that takes a retiree, by the [i]th of those that have one (the last
    to take one is the first), by the kernel, by the collector. *)
Inductive move_t : Type :=
  | MTake | MHand (vs : list Z) | MRetiree | MTurn (i : nat) | MMap (b : Z) | MIterate (us : list Z).

Definition to_option {A} (x : res A) : option A := match x with Ok a => Some a | Err _ => None end.

Fixpoint listing (fuel : nat) (m : gmap Z addr_buffer_t) (p : Z) : option (list Z) :=
  if p =? 0 then Some [] else
  match fuel with
  | O => None
  | Datatypes.S n => match m !! p with Some d => cons p <$> listing n m (ab_next d) | None => None end
  end.

Lemma listing_bchain fuel m p l : listing fuel m p = Some l -> bchain m p l.
Proof.
  revert p l. induction fuel as [|n IH]; intros p l; cbn; destruct (Z.eqb_spec p 0) as [-> | Hp]; try done; try by intros [= <-].
  destruct (m !! p) as [d|] eqn:Hd; [| done]. intros (l1 & E & ->)%fmap_Some_1. split; [done |]. split; [done |].
  exists d. split; [done |]. by apply IH.
Qed.

Definition node_okb (v : Z) : bool := (4 <=? v) && (v <? 2 ^ 64) && (v mod 4 =? 0).

Definition may_retireb (c : cycle_t) (vs : list Z) : bool :=
  bool_decide (NoDup vs) &&
  forallb (fun v => node_okb v && (count_occ Z.eq_dec (retired c) v =? count_occ Z.eq_dec (freed_nodes (common c)) v)%nat) vs &&
  (zlen vs + zlen (retired c) - zlen (freed_nodes (common c)) <=? 2 ^ 30 - 512).

Lemma may_retireb_ok c vs : may_retireb c vs = true -> may_retire c vs.
Proof.
  unfold may_retireb. rewrite !andb_true_iff, bool_decide_eq_true, forallb_forall. intros [[Hn Hf] Hz]. split; [done |]. split; [| lia].
  intros v Hv%list_elem_of_In. specialize (Hf v Hv). unfold node_okb in Hf. unfold node_ok, size_ok, aligned4.
  rewrite !andb_true_iff, Nat.eqb_eq in Hf. lia.
Qed.

Definition may_iterateb (c : cycle_t) (dl : list Z) : bool :=
  (0 <? zlen dl) && (zlen dl <=? 2 ^ 20) && (0 <? zlen (nodes_of (buffers c) (g_uncollected_data c) dl)) &&
  (3 <=? length (blocks (buffers c)))%nat.

Lemma may_iterateb_ok c dl : may_iterateb c dl = true -> may_iterate c dl.
Proof.
  unfold may_iterateb. rewrite !andb_true_iff, Nat.leb_le. intros [[[H1 H2] H3] H4]. split; [by intros -> |].
  split; [lia |]. split; [by intros E; rewrite E in H3 | done].
Qed.

Definition move1 (m : move_t) (c : cycle_t) : option cycle_t :=
  match m with
  | MTake => '(ab, s') ← to_option (forkscan_make_reclaimer_buffer 1 (buffers c)); Some (set_filling (set_buffers c s') (ab :: filling c))
  | MHand vs =>
      match filling c with
      | ab :: f =>
          if may_retireb c vs && (zlen vs <=? MAX_THREAD_COUNT) then
            s' ← to_option (buf_modify (buffers c) ab (fill vs (g_addr_buffer c))); Some (hand_in c ab vs s' f)
          else None
      | [] => None
      end
  | MRetiree =>
      '(pc, t, g') ← to_option (free_turn (At_top, mk_place 0 0 0) (common c));
      if retiree_buffer t =? 0 then None else Some (set_holders (set_common c g') ((t, At pc) :: holders c))
  | MTurn i =>
      match holders c !! i with
      | Some (t, At pc) =>
          '(pc', t', g') ← to_option (free_turn (pc, t) (common c));
          Some (set_holders (set_common c g') (take i (holders c) ++ holding t' pc' ++ drop (Datatypes.S i) (holders c)))
      | _ => None
      end
  | MMap b =>
      if (b =? 0) || bool_decide (is_Some (store (buffers c) !! b)) || bool_decide (b ∈ blocks (buffers c)) then None
      else Some (set_buffers c (set_memory (buffers c) (blocks (buffers c) ++ [b]) (unmapped (buffers c))))
  | MIterate us =>
      let s := buffers c in
      dl ← listing 9 (store s) (g_addr_buffer c);
      k ← listing 9 (store s) (g_first_retiree_buffer s);
      '(u, s') ← to_option (reclaim_iteration (listed_scan us) (g_uncollected_data c) (g_addr_buffer c) s);
      if may_iterateb c dl && bool_decide (NoDup k) && (g_last_retiree_buffer s =? end_of k) && forallb (fun v => v mod 4 =? 0) us
      then Some (iterated c u s') else None
  end.

Lemma to_option_some {A} (x : res A) a : to_option x = Some a -> x = Ok a.
Proof. destruct x; [by intros [= ->] | done]. Qed.

Ltac move_tac :=
  repeat match goal with
  | H : mbind _ _ = Some _ |- _ => apply bind_Some in H as (? & ? & H)
  | H : to_option _ = Some _ |- _ => apply to_option_some in H
  | H : match ?x with _ => _ end = Some _ |- _ => destruct x eqn:?; try discriminate H
  | H : Some _ = Some _ |- _ => injection H as <-
  | H : (_ && _)%bool = true |- _ => apply andb_prop in H as [? H]
  | H : (_ || _)%bool = false |- _ => apply orb_false_elim in H as [H ?]
  | H : bool_decide _ = false |- _ => apply bool_decide_eq_false in H
  | H : bool_decide _ = true |- _ => apply bool_decide_eq_true in H
  end.

Definition by_thread (m : move_t) : bool := match m with MIterate _ => false | _ => true end.

Lemma move1_thread m c c' : by_thread m = true -> move1 m c = Some c' -> thread_step 1 c c'.
Proof.
  intros Hm. destruct m; try discriminate Hm; cbn [move1]; intros H; move_tac.
  - by apply takes_buffer.
  - eapply (hands_in _ _ _ []); [done | by apply may_retireb_ok | lia | done].
  - eapply takes_retiree; [done | lia].
  - eapply frees; [| done]. symmetry. by apply take_drop_middle.
  - apply maps; [lia | by apply eq_None_not_Some | done].
Qed.

Lemma move1_step m c c' : move1 m c = Some c' -> cycle_step 1 c c'.
Proof.
  intros H. destruct (by_thread m) eqn:Hm; [by eapply threads, move1_thread |].
  destruct m; try discriminate Hm. cbn [move1] in H. move_tac.
  eapply (iterates _ _ (listed_scan us)); [apply listed_scanner; by apply TCEq_eq | by eapply listing_bchain |
    split; [by eapply listing_bchain | done | lia] | by apply may_iterateb_ok | | done].
  intros w d W _ _ _ _. exact W.
Qed.

Fixpoint moves (ms : list move_t) (c : cycle_t) : option cycle_t :=
  match ms with [] => Some c | m :: ms => c' ← move1 m c; moves ms c' end.

Lemma moves_reachable ms c c' : cycle_reachable 1 c -> moves ms c = Some c' -> cycle_reachable 1 c'.
Proof.
  revert c. induction ms as [|m ms IH]; intros c R; cbn; [by intros [= <-] |].
  intros (c1 & H1 & H2)%bind_Some. apply (IH c1); [| done]. eapply cycle_goes; [done | by apply move1_step with m].
Qed.

(** Three nodes are retired, and the collector finds the second referred to; the
    others are freed, and then the second, when it is not referred to any
    more, together with one of the others, which has been allocated and
    retired anew. *)
Definition demo_maps : list move_t := MMap <$> [0x10000; 0x20000; 0x30000; 0x40000; 0x50000; 0x60000].
Definition demo_first : list move_t := demo_maps ++ [MTake; MHand [16; 32; 48]].
Definition go (n : nat) : list move_t := replicate n (MTurn 0).
Definition demo_freed : list move_t := demo_first ++ [MIterate [32]; MRetiree] ++ go 8.
Definition demo_second : list move_t := demo_freed ++ go 4 ++ [MTake; MHand [16]; MMap 0x70000; MIterate []; MRetiree] ++ go 4.

Definition demo_cycle (ms : list move_t) : cycle_t := default cycle_start (moves ms cycle_start).

Lemma demo_reachable ms : bool_decide (is_Some (moves ms cycle_start)) = true -> cycle_reachable 1 (demo_cycle ms).
Proof.
  intros [c H]%bool_decide_eq_true. unfold demo_cycle. rewrite H. eapply moves_reachable; [apply cycle_starts | done].
Qed.

(** ** Behind the entries *)






(** The collector keeps [v], which is retired once and not freed; and the
    threads then free it. *)
Definition frees_kept (v : Z) (c c' : cycle_t) : Prop :=
  v ∈ nodes_of (buffers c) (g_uncollected_data c) [] /\ (v ∉ freed_nodes (common c)) /\
  v ∈ nodes_of (buffers c') (g_uncollected_data c') [] /\ v ∈ freed_nodes (common c') /\
  count_occ Z.eq_dec (retired c') v = 1%nat.

#[export] Instance frees_kept_dec v c c' : Decision (frees_kept v c c').
Proof. apply _. Defined.



Definition beyondb (h : place_t * role_t) : bool :=
  match h with
  | (t, At pc) => (end_retiree_idx t <? begin_retiree_idx t) || (bool_decide (pc = At_entry) && (end_retiree_idx t <=? begin_retiree_idx t))
  | _ => false
  end.

Lemma within_check h : forallb (fun p => negb (beyondb p)) h = true -> within h.
Proof.
  rewrite forallb_forall. intros H t pc Hin%list_elem_of_In [_ Hb]. specialize (H _ Hin). cbn in H.
  apply negb_true_iff, orb_false_elim in H as [H1 H2]. destruct Hb as [Hb | [-> Hb]]; [lia |].
  rewrite bool_decide_eq_true_2 in H2 by done. cbn in H2. lia.
Qed.

Lemma nodes_conserved_witness : exists dl k x : list Z, let c := demo_cycle demo_second in
  bchain (store (buffers c)) (g_addr_buffer c) dl /\ retirees (buffers c) k /\
  (forall q, q ∈ x -> exists t b, (t, b) ∈ holders c /\ retiree_buffer t = q) /\
  let waiting := nodes_of (buffers c) (g_uncollected_data c) dl in
  let dead := dead_of (store (buffers c)) (k ++ x) in
  [16; 16; 32; 48] ≡ₚ [16; 48; 16] ++ waiting ++ dead /\ NoDup (waiting ++ dead).
Proof.
  assert (R : cycle_reachable 1 (demo_cycle demo_second)) by (apply demo_reachable; by vm_compute).
  destruct (nodes_conserved 1 ltac:(vm_compute; split; congruence) (demo_cycle demo_second) R ltac:(apply within_check; by vm_compute)) as (dl & k & x & H).
  exists dl, k, x. exact H.
Defined.

Lemma collector_goes_on_witness :
  exists u s' T, let c := demo_cycle demo_first in
    reclaim_iteration (forkscan_child demo_word demo_size (forkscan_alloc_next_subrange one_block) 0x5000 5
      (Some (print_file demo_map)) demo_stacks 16 demo_turns) (g_uncollected_data c) (g_addr_buffer c) (buffers c) = Ok (u, s') /\
    scanned_word T 0x5000 demo_map demo_stacks 0x400100 /\
    cycle_reachable 1 (iterated c u s') /\ 32 ∈ nodes_of s' u [].
Proof.
  destruct one_block_ok as (l & fl & Hinv & HT). destruct l as [|y l]; [by apply Permutation_nil in HT |].
  pose proof (alloc_subranges one_block y l fl Hinv) as Hsub. pose proof (demo_snapshot_ok (y :: l) HT) as Hsnap.
  assert (Hsc := demo_scanned (y :: l) HT).
  destruct (collector_goes_on 1 ltac:(vm_compute; split; congruence) demo_word demo_size (tracked (nodes one_block) (y :: l))
    (forkscan_alloc_next_subrange one_block) 0x5000 5 demo_map demo_stacks 16 demo_turns
    (demo_cycle demo_first) [0x10000] []) as (u & s' & E & R & Hkeep).
  - apply demo_reachable. by vm_compute.
  - apply within_check. by vm_compute.
  - apply (listing_bchain 9). by vm_compute.
  - split; [by vm_compute | constructor | by vm_compute].
  - apply may_iterateb_ok. by vm_compute.
  - exact demo_heap.
  - exact Hsnap.
  - exists u, s', (tracked (nodes one_block) (y :: l)). split; [exact E |]. split; [exact Hsc |]. split; [exact R |].
    apply (Hkeep 0x400100 Hsc demo_outside). vm_compute. right. left.
Defined.

Lemma popped_in_front_witness : exists k', [0x20000] = 0x20000 :: k'.
Proof.
  apply (popped_in_front 1 ltac:(vm_compute; split; congruence) (demo_cycle demo_freed) [0x20000] (mk_place 0x20000 3 3) (At At_top)).
  - apply demo_reachable. by vm_compute.
  - apply within_check. by vm_compute.
  - split; [apply (listing_bchain 9); by vm_compute | apply NoDup_singleton | by vm_compute].
  - vm_compute. left.
  - left.
Defined.
