(* ===== verification/Drain.v ===== *)
(** forkscan.c, buffer.c, util.c: the threads get done with the retirees.

    The liveness side of [Cycle].  In every state that can be reached without a
    thread getting behind the entries of its buffer, what a thread that has a
    retiree does next succeeds, unless it is [late]: no assertion fails,
    nothing is read out of bounds, and the thread gets closer to giving the
    buffer back, whatever the other threads have claimed.  So each thread,
    running alone, gives its buffer back, and the threads together free every
    node that the collector found dead. *)
From S2P Require Import Prelude SortUtil AddrBuffer Buffer Gc Free Collect Cycle.

(** What steps of the threads that free leave alone. *)
Record keeps (dl : list Z) (c c' : cycle_t) : Prop := {
  kp_old : g_uncollected_data c' = g_uncollected_data c;
  kp_handed : g_addr_buffer c' = g_addr_buffer c;
  kp_filling : filling c' = filling c;
  kp_retired : retired c' = retired c;
  kp_transit : transit c' = transit c;
  kp_nodes : nodes_of (buffers c') (g_uncollected_data c) dl = nodes_of (buffers c) (g_uncollected_data c) dl }.

#[export] Instance keeps_preorder dl : PreOrder (keeps dl).
Proof.
  split; [by intros c; split |]. intros c1 c2 c3 [A1 A2 A3 A4 A5 A6] [B1 B2 B3 B4 B5 B6].
  split; [congruence.. |]. rewrite A1 in B6. congruence.
Qed.

(** A thread that has seen entries left, and will claim none: the others have
    claimed the last of them since.  What it does next leads behind them. *)
Definition late_at (d : addr_buffer_t) (pc : free_pc) : Prop :=
  match pc with
  | At_read => ab_n_addrs d <= ab_free_idx d
  | At_claim i => ab_n_addrs d <= i
  | _ => False
  end.

Definition late (m : gmap Z addr_buffer_t) (t : place_t) (b : role_t) : Prop :=
  exists d pc, b = At pc /\ m !! retiree_buffer t = Some d /\ late_at d pc.

Definition on_time (c : cycle_t) : Prop := forall t b, (t, b) ∈ holders c -> ~ late (store (buffers c)) t b.

(** Between its test and its claim. *)
Definition claiming (pc : free_pc) : bool := match pc with At_read | At_claim _ => true | _ => false end.

Lemma not_late m t pc : claiming pc = false -> ~ late m t (At pc).
Proof. intros H (d & p & [= <-] & _ & Hl). by destruct pc. Qed.

(** What is left to do for a thread: an entry that is not claimed counts more
    than one that is, and a claim that will fail more than a new attempt. *)
Definition rank (d : addr_buffer_t) (pc : free_pc) : Z :=
  match pc with
  | At_top => 6 | At_test | At_entry => 5 | At_read => 4
  | At_claim i => if ab_free_idx d =? i then 3 else 7
  | At_pop => 2 | At_unref => 1
  end.

Definition work_at (d : addr_buffer_t) (t : place_t) (pc : free_pc) : Z :=
  5 * (ab_n_addrs d - ab_free_idx d) + 2 * (end_retiree_idx t - begin_retiree_idx t) + rank d pc.

Definition work (m : gmap Z addr_buffer_t) (t : place_t) (b : role_t) : Z :=
  match b, m !! retiree_buffer t with At pc, Some d => work_at d t pc | _, _ => 0 end.

(** An entry that is a node, marked or not, passes the assertion. *)
Lemma entry_unmarked v : entry_ok v -> (Z.land v 1 =? 0) = true -> (Z.land v 3 =? 0) = true.
Proof.
  intros (Hs & _ & Hm) H%Z.eqb_eq. apply Z.eqb_eq. change 3 with (Z.ones 2). change 1 with (Z.ones 1) in H.
  unfold size_ok in Hs. rewrite Z.land_ones in * by lia. change (2 ^ 2) with 4. change (2 ^ 1) with 2 in H. Z.to_euclidean_division_equations. lia.
Qed.

Lemma free_entry_goes t g d : retiree_buffer t <> 0 -> store (bufs g) !! retiree_buffer t = Some d ->
  0 <= begin_retiree_idx t < zlen (ab_addrs d) -> begin_retiree_idx t < INT_MAX ->
  entry_ok (get (ab_addrs d) (begin_retiree_idx t)) -> exists t' g', free_entry t g = Ok (t', g').
Proof.
  intros H0 Hd Hi Hmax He. unfold free_entry, buf_modify, buf_load. apply Z.eqb_neq in H0 as ->. rewrite Hd, bind_ok, rd_ok, bind_ok by done.
  rewrite int_chk_ok, bind_ok by (unfold int_ok, INT_MIN; unfold INT_MAX in *; lia).
  destruct (Z.land _ 1 =? 0) eqn:E1; cbn [negb]; [| by eexists _, _].
  rewrite (entry_unmarked _ He E1), wr_ok by done. cbn. by eexists _, _.
Qed.

Lemma range_end_goes n b : 0 <= b < n -> n <= 2 ^ 30 -> exists e, Free.range_end n b = Ok e.
Proof. intros Hb Hn. unfold Free.range_end, FREE_RANGE_SZ. rewrite int_chk_ok; [by eexists | unfold int_ok, INT_MIN, INT_MAX; lia]. Qed.

Lemma refs_length h q : (refs h q <= length h)%nat.
Proof. unfold refs. etransitivity; [apply count_occ_bound | by rewrite length_fmap]. Qed.

Section drain.
Context (ptrs_per_thread N : Z) (HN : 0 < N <= 2 ^ 30) (EN : ptrs_per_thread * MAX_THREAD_COUNT = N).

(** A retiree that is held: its reference count is the number of its holders. *)
Lemma held_buffer c r dl k x l h1 t b h2 : cycle_inv N c r dl k x l -> holders c = h1 ++ (t, b) :: h2 ->
  (t, b) ∈ holders c /\ retiree_buffer t <> 0 /\ retiree_buffer t ∈ k ++ x /\
  exists d, store (buffers c) !! retiree_buffer t = Some d /\ retiree_ok (holders c) (retiree_buffer t) d /\
    0 <= begin_retiree_idx t <= end_retiree_idx t /\ end_retiree_idx t <= ab_free_idx d /\ ab_n_addrs d <= 2 ^ 30 /\
    (retiree_buffer t ∈ x -> ab_free_idx d = ab_n_addrs d) /\ ab_n_addrs d <= zlen (ab_addrs d).
Proof using HN.
  intros I Eh. assert (Hh : (t, b) ∈ holders c) by (rewrite Eh; apply elem_of_mid). split; [done |].
  destruct (ci_holders _ _ _ _ _ _ _ I t b Hh) as [[B0 B1] B2 _ _].
  split; [by eapply retired_lookup |]. split; [done |].
  destruct (ci_retired _ _ _ _ _ _ _ I _ B2) as (d & Hd & Hok & Hx). exists d. split; [done |]. split; [done |].
  specialize (B1 d Hd). pose proof (ci_sizes _ _ _ _ _ _ _ I _ d Hd). pose proof (re_n _ _ _ Hok).
  pose proof (ag_addrs _ (re_agg _ _ _ Hok)) as Hz. cbn in Hz. split_and!; try done; lia.
Qed.

(** The buffers stay as they are but for the retiree [q]. *)
Lemma keeps_one c r dl k x l q d' g' h' : cycle_inv N c r dl k x l -> q ∈ k ++ x ->
  bufs g' = set_store (buffers c) (<[q := d']> (store (buffers c))) -> keeps dl c (set_holders (set_common c g') h').
Proof using HN.
  intros I Hq Eg. split; try done. eapply (nodes_undisturbed N HN c r dl k x l q (bufs g') I Hq). intros p Hp.
  rewrite Eg. cbn. by rewrite lookup_insert_ne.
Qed.

(** What a step of one thread comes to: the thread has given its buffer back,
    which is off the list, or it has less left to do, and is not late. *)
Definition advances (c : cycle_t) (dl k : list Z) (h1 : list (place_t * role_t)) (t : place_t) (b : role_t) (h2 : list (place_t * role_t))
    (c' : cycle_t) (k' : list Z) : Prop :=
  thread_step ptrs_per_thread c c' /\ keeps dl c c' /\ (exists k0, k = k0 ++ k') /\
  ((holders c' = h1 ++ h2 /\ (retiree_buffer t ∉ k')) \/
   exists t' b', holders c' = h1 ++ (t', b') :: h2 /\ retiree_buffer t' = retiree_buffer t /\
     b' <> Dividing /\ (~ late (store (buffers c')) t' b') /\ work (store (buffers c')) t' b' < work (store (buffers c)) t b).

Lemma in_use_moved c x h1 t b h2 t' b' : in_use (holders c) x -> holders c = h1 ++ (t, b) :: h2 -> retiree_buffer t' = retiree_buffer t ->
  in_use (h1 ++ (t', b') :: h2) x.
Proof using Type. intros Hu Eh Et q Hq. specialize (Hu q Hq). rewrite Eh, refs_mid in Hu. by rewrite refs_mid, Et. Qed.

(** A turn as a step. *)
Lemma turn_step c h1 t pc h2 t' pc' g' : holders c = h1 ++ (t, At pc) :: h2 -> retiree_buffer t <> 0 -> retiree_buffer t' = retiree_buffer t ->
  turn t (common c) pc pc' t' g' -> thread_step ptrs_per_thread c (set_holders (set_common c g') (h1 ++ (t', At pc') :: h2)).
Proof using Type.
  intros Eh H0 Et T. pose proof (frees ptrs_per_thread c h1 t pc h2 pc' t' g' Eh (turn_free _ _ _ _ _ _ H0 T)) as S.
  unfold holding in S. rewrite Et in S. by apply Z.eqb_neq in H0 as E0; rewrite E0 in S.
Qed.

(** A turn after which the thread still has the buffer, [d'] now. *)
Lemma stays c r dl k x l h1 t pc h2 t' pc' g' d d' : cycle_inv N c r dl k x l -> in_use (holders c) x ->
  holders c = h1 ++ (t, At pc) :: h2 -> store (buffers c) !! retiree_buffer t = Some d ->
  turn t (common c) pc pc' t' g' -> retiree_buffer t' = retiree_buffer t ->
  bufs g' = set_store (buffers c) (<[retiree_buffer t := d']> (store (buffers c))) ->
  cycle_inv N (set_holders (set_common c g') (h1 ++ (t', At pc') :: h2)) r dl k x l ->
  (~ late_at d' pc') -> work_at d' t' pc' < work_at d t pc ->
  exists c', cycle_inv N c' r dl k x l /\ in_use (holders c') x /\ advances c dl k h1 t (At pc) h2 c' k.
Proof using HN.
  intros I Hu Eh Hd T Et Eg I' Hl Hw. destruct (held_buffer _ _ _ _ _ _ _ _ _ _ I Eh) as (Hh & H0 & Hin & _).
  eexists. split; [exact I' |]. split; [eapply in_use_moved; [exact Hu | exact Eh | done] |]. split; [by apply (turn_step c h1 t pc) |].
  split; [by eapply keeps_one |]. split; [by exists [] |]. right. eexists _, _. split; [done |]. split; [done |]. split; [done |].
  change (store (buffers (set_holders (set_common c g') _))) with (store (bufs g')). rewrite Eg. cbn.
  assert (Hl' : <[retiree_buffer t := d']> (store (buffers c)) !! retiree_buffer t' = Some d') by (rewrite Et; apply lookup_insert_eq).
  split; [| unfold work; by rewrite Hl', Hd]. intros (d1 & p & [= <-] & Hd1 & Hp). rewrite Hl' in Hd1. by injection Hd1 as <-.
Qed.

(** A turn that only reads. *)
Lemma reads_goes c r dl k x l h1 t pc h2 pc' d : cycle_inv N c r dl k x l -> in_use (holders c) x ->
  holders c = h1 ++ (t, At pc) :: h2 -> store (buffers c) !! retiree_buffer t = Some d ->
  turn t (common c) pc pc' t (common c) -> pc <> At_unref -> pc' <> At_unref -> at_ok x t pc' -> (pc' = At_pop -> ab_n_addrs d <= ab_free_idx d) ->
  (~ late_at d pc') -> rank d pc' < rank d pc ->
  exists c', cycle_inv N c' r dl k x l /\ in_use (holders c') x /\ advances c dl k h1 t (At pc) h2 c' k.
Proof using HN.
  intros I Hu Eh Hd T Hp Hp' Hat Hpop Hl Hw. eapply (stays c r dl k x l h1 t pc h2 t pc' (common c) d d); try done.
  - unfold buffers. rewrite insert_id by done. by destruct (bufs (common c)).
  - eapply inv_turns; try done; [by destruct pc | by destruct pc' | by intros p [= <-] | by intros [= ->]; apply Hpop].
  - unfold work_at. lia.
Qed.

Lemma free_goes c r dl k x l h1 t h2 d : cycle_inv N c r dl k x l -> in_use (holders c) x -> holders c = h1 ++ (t, At At_entry) :: h2 ->
  store (buffers c) !! retiree_buffer t = Some d ->
  exists c', cycle_inv N c' r dl k x l /\ in_use (holders c') x /\ advances c dl k h1 t (At At_entry) h2 c' k.
Proof using HN.
  intros I Hu Eh Hd. destruct (held_buffer _ _ _ _ _ _ _ _ _ _ I Eh) as (Hh & H0 & Hin & d0 & Hd0 & Hok & Hi & He & Hmax & _ & Hz).
  rewrite Hd in Hd0. injection Hd0 as <-. pose proof (re_n _ _ _ Hok) as Hn.
  pose proof (ho_at _ _ _ _ _ (ci_holders _ _ _ _ _ _ _ I t _ Hh) _ eq_refl) as Hlt. cbn in Hlt.
  destruct (free_entry_goes t (common c) d) as (t' & g' & E); [done | done | lia | unfold INT_MAX; lia | |].
  { eapply (held_entry N c r dl k x l t (At At_entry)); [exact I | exact Hh | exact Hd | lia]. }
  destruct (free_entry_store _ _ _ _ E) as (d0 & Hd0 & _ & Et & Hcase). fold (buffers c) in Hd0. rewrite Hd in Hd0. injection Hd0 as <-.
  assert (Hs : exists d', bufs g' = set_store (buffers c) (<[retiree_buffer t := d']> (store (buffers c))) /\
    ab_n_addrs d' = ab_n_addrs d /\ ab_free_idx d' = ab_free_idx d).
  { destruct Hcase as [[_ ->] | [_ ->]]; [exists d | by eexists]. split; [| done]. rewrite insert_id by done. unfold buffers. by destruct (bufs (common c)). }
  destruct Hs as (d' & Eg & En & Ef). eapply (stays c r dl k x l h1 t At_entry h2 t' At_top g' d d'); try done.
  - by constructor.
  - by rewrite Et.
  - by eapply inv_frees.
  - by intros [].
  - unfold work_at. rewrite Et, En, Ef. cbn. lia.
Qed.

(** A claim of what is not all claimed yet: it succeeds, or another thread has
    claimed in between. *)
Lemma claim_turn c r dl k x l h1 t h2 i d : cycle_inv N c r dl k x l -> holders c = h1 ++ (t, At (At_claim i)) :: h2 ->
  store (buffers c) !! retiree_buffer t = Some d -> i < ab_n_addrs d ->
  exists pc' t' d' g', turn t (common c) (At_claim i) pc' t' g' /\ claiming pc' = false /\ retiree_buffer t' = retiree_buffer t /\
    bufs g' = set_store (buffers c) (<[retiree_buffer t := d']> (store (buffers c))) /\ ab_n_addrs d' = ab_n_addrs d /\
    cycle_inv N (set_holders (set_common c g') (h1 ++ (t', At pc') :: h2)) r dl k x l /\ work_at d' t' pc' < work_at d t (At_claim i).
Proof using HN.
  intros I Eh Hd Hlt. destruct (held_buffer _ _ _ _ _ _ _ _ _ _ I Eh) as (Hh & H0 & Hin & d0 & Hd0 & Hok & Hi & He & Hmax & _ & Hz).
  rewrite Hd in Hd0. injection Hd0 as <-. destruct (ho_at _ _ _ _ _ (ci_holders _ _ _ _ _ _ _ I t _ Hh) _ eq_refl) as [Ebe Hi0].
  assert (Hload : buf_load (buffers c) (retiree_buffer t) = Ok d) by (unfold buf_load; apply Z.eqb_neq in H0 as ->; by rewrite Hd).
  destruct (range_end_goes (ab_n_addrs d) i) as [e E]; [lia | done |].
  destruct (Z.eqb_spec (ab_free_idx d) i) as [Ei | Ei].
  - set (q := retiree_buffer t) in *. set (g' := set_bufs (common c) (set_store (buffers c) (<[q := with_free_idx e d]> (store (buffers c))))).
    assert (Ec : claim q i e (common c) = Ok (true, g')).
    { unfold claim, buf_modify. fold (buffers c). by rewrite Hload, bind_ok, Ei, Z.eqb_refl, bind_ok. }
    exists At_entry, (mk_place q i e), (with_free_idx e d), g'. split; [by eapply turn_claim |]. do 4 (split; [done |]).
    split; [by eapply inv_claims |]. apply range_end_inv in E as He'; [| done]. unfold work_at. cbn. rewrite Ei, Z.eqb_refl. lia.
  - exists At_top, t, d, (common c). split; [eapply turn_miss; [exact Hd | exact E |]; unfold claim; fold (buffers c); rewrite Hload, bind_ok; by apply Z.eqb_neq in Ei as -> |].
    do 2 (split; [done |]). split; [unfold buffers; rewrite insert_id by done; by destruct (bufs (common c)) |]. split; [done |].
    split; [eapply inv_turns; try done; by intros pc [= <-] |]. unfold work_at. cbn. apply Z.eqb_neq in Ei as ->. lia.
Qed.

Lemma claim_goes c r dl k x l h1 t h2 i d : cycle_inv N c r dl k x l -> in_use (holders c) x -> holders c = h1 ++ (t, At (At_claim i)) :: h2 ->
  store (buffers c) !! retiree_buffer t = Some d -> i < ab_n_addrs d ->
  exists c', cycle_inv N c' r dl k x l /\ in_use (holders c') x /\ advances c dl k h1 t (At (At_claim i)) h2 c' k.
Proof using HN.
  intros I Hu Eh Hd Hlt. destruct (claim_turn _ _ _ _ _ _ _ _ _ _ _ I Eh Hd Hlt) as (pc' & t' & d' & g' & T & Hc & Et & Eg & _ & I' & Hw).
  eapply (stays c r dl k x l h1 t _ h2 t' pc' g' d d'); try done. intros Hl. by destruct pc'.
Qed.

Lemma pop_goes c r dl k x l h1 t h2 d : cycle_inv N c r dl k x l -> in_use (holders c) x -> holders c = h1 ++ (t, At At_pop) :: h2 ->
  store (buffers c) !! retiree_buffer t = Some d ->
  exists c' k' x', cycle_inv N c' r dl k' x' l /\ in_use (holders c') x' /\ advances c dl k h1 t (At At_pop) h2 c' k'.
Proof using HN.
  intros I Hu Eh Hd. destruct (held_buffer _ _ _ _ _ _ _ _ _ _ I Eh) as (Hh & H0 & Hin & _). pose proof (ci_retirees _ _ _ _ _ _ _ I) as Hr.
  assert (E : exists s', forkscan_buffer_pop_retiree_buffer (retiree_buffer t) (buffers c) = Ok s').
  { destruct (decide (retiree_buffer t ∈ k)) as [Hk | Hk]; [| eexists; by apply (pop_absent _ k)].
    pose proof (ho_first _ _ _ _ _ (ci_holders _ _ _ _ _ _ _ I t _ Hh) ltac:(done) Hk) as Hf.
    destruct k as [|y k]; [by apply not_elem_of_nil in Hk |]. cbn in Hf. subst y.
    pose proof (pop_wp (buffers c) [] (retiree_buffer t) k Hr ltac:(by left)) as Hw. apply wp_iff in Hw as (s' & E & _). by exists s'. }
  destruct E as [s' E]. destruct (inv_pops _ HN _ _ _ _ _ _ _ _ _ _ I Hu Eh E) as (k' & x' & I' & Hu' & Es & Hk).
  exists (set_holders (set_buffers c s') (h1 ++ (t, At At_unref) :: h2)), k', x'. split; [done |]. split; [done |].
  split; [apply (turn_step c h1 t At_pop h2 t At_unref); try done; by constructor |]. split.
  - split; try done. cbn. unfold nodes_of. by rewrite Es.
  - split; [destruct Hk as [-> | ->]; [by exists [] | by exists [retiree_buffer t]] |]. right. exists t, (At At_unref).
    split; [done |]. split; [done |]. split; [done |]. split; [by apply not_late |]. unfold work.
    change (store (buffers (set_holders (set_buffers c s') _))) with (store s'). rewrite Es, Hd. unfold work_at. cbn. lia.
Qed.

(** Giving up a reference never fails. *)
Lemma unref_ok c r dl k x l h1 t b h2 : cycle_inv N c r dl k x l -> holders c = h1 ++ (t, b) :: h2 ->
  active b = false -> begin_retiree_idx t = end_retiree_idx t -> Z.of_nat (length (holders c)) <= INT_MAX ->
  exists s', forkscan_buffer_unref_buffer (retiree_buffer t) (buffers c) = Ok s' /\
    forall p, p <> retiree_buffer t -> store s' !! p = store (buffers c) !! p.
Proof using HN.
  intros I Eh Hb Ebe Hmax. destruct (held_buffer _ _ _ _ _ _ _ _ _ _ I Eh) as (Hh & H0 & Hin & d & Hd & Hok & _).
  set (q := retiree_buffer t) in *. pose proof (re_refs _ _ _ Hok) as Hr. pose proof (re_n _ _ _ Hok) as Hn.
  assert (Hlen : (0 < refs (holders c) q <= length (holders c))%nat).
  { split; [| apply refs_length]. pose proof (refs_in _ _ _ Hh). unfold q. lia. }
  set (d' := with_ref_count (ab_ref_count d - 1) d). set (s1 := set_store (buffers c) (<[q := d']> (store (buffers c)))).
  pose proof (inv_drops _ HN _ _ _ _ _ _ _ _ _ _ d I Eh Hb Ebe Hd) as I1.
  unfold forkscan_buffer_unref_buffer, buf_modify, buf_load. apply Z.eqb_neq in H0 as H0'. rewrite H0', Hd, bind_ok.
  rewrite int_chk_ok by (unfold int_ok, INT_MIN, INT_MAX in *; lia). rewrite !bind_ok. cbn [store set_store].
  rewrite lookup_insert_eq, bind_ok. fold d' s1. cbn [ab_ref_count ab_free_idx ab_n_addrs d' with_ref_count with_fields].
  assert (Hsame : forall p, p <> q -> store s1 !! p = store (buffers c) !! p) by (intros p Hp; cbn; by rewrite lookup_insert_ne).
  destruct (Z.eqb_spec (ab_ref_count d - 1) 0) as [E1 |]; [| by exists s1].
  rewrite Z.geb_leb. destruct (Z.leb_spec (ab_n_addrs d) (ab_free_idx d)) as [E2 |]; [| by exists s1].
  assert (Hqx : q ∈ x) by (eapply (last_reference _ HN c r dl k x l h1 t b h2 d); try done; lia).
  pose proof Hqx as (x1 & x2 & ->)%list_elem_of_split.
  destruct (releases_ok _ HN _ _ _ _ _ _ _ _ d' I1) as (s' & E & _ & Es); [apply lookup_insert_eq | |].
  - rewrite Eh, refs_mid in Hr. cbn [holders set_holders]. fold q in Hr. destruct (Z.eq_dec q q); [lia | done].
  - exists s'. split; [exact E |]. intros p Hp. rewrite Es. cbn. by rewrite !lookup_insert_ne.
Qed.

Lemma unref_goes c r dl k x l h1 t h2 : cycle_inv N c r dl k x l -> in_use (holders c) x -> holders c = h1 ++ (t, At At_unref) :: h2 ->
  Z.of_nat (length (holders c)) <= INT_MAX ->
  exists c' x' l', cycle_inv N c' r dl k x' l' /\ in_use (holders c') x' /\ advances c dl k h1 t (At At_unref) h2 c' k.
Proof using HN.
  intros I Hu Eh Hmax. destruct (held_buffer _ _ _ _ _ _ _ _ _ _ I Eh) as (Hh & H0 & Hin & _).
  destruct (ho_at _ _ _ _ _ (ci_holders _ _ _ _ _ _ _ I t _ Hh) _ eq_refl) as [Ebe Hqx].
  destruct (unref_ok _ _ _ _ _ _ _ _ _ _ I Eh ltac:(done) Ebe Hmax) as (s' & E & Hst).
  destruct (inv_unrefs _ HN _ _ _ _ _ _ _ _ _ _ _ I Hu Eh ltac:(done) Ebe E) as (x' & l' & I' & Hu').
  exists (set_holders (set_buffers c s') (h1 ++ h2)), x', l'. split; [done |]. split; [done |].
  split; [pose proof (frees ptrs_per_thread c h1 t At_unref h2 _ _ _ Eh (turn_free _ _ _ _ _ _ H0 (turn_unref _ _ _ E))) as S; exact S |]. split.
  - split; try done. by apply (nodes_undisturbed _ HN _ _ _ _ _ _ (retiree_buffer t) s' I Hin).
  - split; [by exists [] |]. left. split; [done |]. pose proof (retired_nodup _ _ _ _ _ _ _ I) as Hnd.
    apply NoDup_app in Hnd as (_ & D & _). intros Hk. by apply (D (retiree_buffer t) Hk).
Qed.

(** Whatever a thread is to do next, it can, if it is not late. *)
Lemma holder_goes c r dl k x l h1 t b h2 : cycle_inv N c r dl k x l -> in_use (holders c) x -> holders c = h1 ++ (t, b) :: h2 ->
  b <> Dividing -> (~ late (store (buffers c)) t b) ->
  Z.of_nat (length (holders c)) <= INT_MAX ->
  exists c' k' x' l', cycle_inv N c' r dl k' x' l' /\ in_use (holders c') x' /\ advances c dl k h1 t b h2 c' k'.
Proof using HN.
  intros I Hu Eh Hb Hl Hmax. destruct b as [pc |]; [| done]. destruct (held_buffer _ _ _ _ _ _ _ _ _ _ I Eh) as (Hh & H0 & Hin & d & Hd & Hok & Hr & _).
  pose proof (ho_at _ _ _ _ _ (ci_holders _ _ _ _ _ _ _ I t _ Hh) _ eq_refl) as Hat. pose proof (re_n _ _ _ Hok) as Hn.
  assert (Hl' : ~ late_at d pc) by (intros H; apply Hl; by exists d, pc).
  assert (R : forall pc', turn t (common c) pc pc' t (common c) -> pc <> At_unref -> pc' <> At_unref -> at_ok x t pc' -> (pc' = At_pop -> ab_n_addrs d <= ab_free_idx d) ->
    (~ late_at d pc') -> rank d pc' < rank d pc ->
    exists c' k' x' l', cycle_inv N c' r dl k' x' l' /\ in_use (holders c') x' /\ advances c dl k h1 t (At pc) h2 c' k').
  { intros pc' T H1 H2 H3 H4 H5 H6. destruct (reads_goes c r dl k x l h1 t pc h2 pc' d) as (c' & H); try done. by exists c', k, x, l. }
  destruct pc as [| | | i | | |].
  - pose proof (turn_top t (common c)) as T. destruct (Z.eqb_spec (begin_retiree_idx t) (end_retiree_idx t)); cbn in Hat; apply (R _ T); try done; cbn; lia.
  - pose proof (turn_test t (common c) d Hd) as T. rewrite Z.geb_leb in T. destruct (Z.leb_spec (ab_n_addrs d) (ab_free_idx d)); cbn in Hat; apply (R _ T); try done; cbn; lia.
  - pose proof (turn_read t (common c) d Hd) as T. cbn in Hl'. cbn in Hat. apply (R _ T); try done; cbn; rewrite ?Z.eqb_refl; lia.
  - cbn in Hl'. destruct (claim_goes _ _ _ _ _ _ _ _ _ _ _ I Hu Eh Hd ltac:(lia)) as (c' & H). by exists c', k, x, l.
  - destruct (free_goes _ _ _ _ _ _ _ _ _ _ I Hu Eh Hd) as (c' & H). by exists c', k, x, l.
  - destruct (pop_goes _ _ _ _ _ _ _ _ _ _ I Hu Eh Hd) as (c' & k' & x' & H). by exists c', k', x', l.
  - destruct (unref_goes _ _ _ _ _ _ _ _ _ I Hu Eh Hmax) as (c' & x' & l' & H). by exists c', k, x', l'.
Qed.

Lemma work_pos c r dl k x l h1 t b h2 : cycle_inv N c r dl k x l -> holders c = h1 ++ (t, b) :: h2 -> b <> Dividing -> 0 < work (store (buffers c)) t b.
Proof using HN.
  intros I Eh Hb. destruct b as [pc |]; [| done]. destruct (held_buffer _ _ _ _ _ _ _ _ _ _ I Eh) as (_ & _ & _ & d & Hd & Hok & Hi & _).
  unfold work. rewrite Hd. pose proof (re_n _ _ _ Hok). assert (0 < rank d pc) by (destruct pc; cbn; try lia; by case_match). unfold work_at. lia.
Qed.

(** Alone, a thread gives its buffer back. *)
Lemma holder_finishes n : forall c r dl k x l h1 t b h2, cycle_inv N c r dl k x l -> in_use (holders c) x ->
  holders c = h1 ++ (t, b) :: h2 -> b <> Dividing -> (~ late (store (buffers c)) t b) ->
  Z.of_nat (length (holders c)) <= INT_MAX -> (Z.to_nat (work (store (buffers c)) t b) <= n)%nat ->
  exists c' k' x' l', rtc (thread_step ptrs_per_thread) c c' /\ keeps dl c c' /\ cycle_inv N c' r dl k' x' l' /\
    in_use (holders c') x' /\ holders c' = h1 ++ h2 /\ (exists k0, k = k0 ++ k') /\ (retiree_buffer t ∉ k').
Proof using HN.
  induction n as [|n IH]; intros c r dl k x l h1 t b h2 I Hu Eh Hb Hl Hmax Hn; [pose proof (work_pos _ _ _ _ _ _ _ _ _ _ I Eh Hb); lia |].
  destruct (holder_goes _ _ _ _ _ _ _ _ _ _ I Hu Eh Hb Hl Hmax) as (c1 & k1 & x1 & l1 & I1 & Hu1 & S & K & (k0 & ->) & [[Eh1 Hk1] | (t1 & b1 & Eh1 & Et & Hb1 & Hl1 & Hlt)]).
  - exists c1, k1, x1, l1. split; [by apply rtc_once |]. split_and!; try done. by exists k0.
  - destruct (IH c1 r dl k1 x1 l1 h1 t1 b1 h2 I1 Hu1 Eh1 Hb1 Hl1) as (c2 & k2 & x2 & l2 & R & K2 & I2 & Hu2 & Eh2 & (k3 & ->) & Hk2).
    + rewrite Eh1. rewrite Eh in Hmax. rewrite length_app in *. exact Hmax.
    + pose proof (work_pos _ _ _ _ _ _ _ _ _ _ I1 Eh1 Hb1). lia.
    + exists c2, k2, x2, l2. split; [by eapply rtc_l |]. split; [by etransitivity |]. rewrite Et in Hk2. split_and!; try done.
      exists (k0 ++ k3). by rewrite app_assoc.
Qed.

(** A thread that is not between its test and its claim. *)
Definition calm (b : role_t) : Prop := exists pc, b = At pc /\ claiming pc = false.

(** One after the other, all give their buffers back, if none of them claims. *)
Lemma holders_finish h : forall c r dl k x l, cycle_inv N c r dl k x l -> in_use (holders c) x -> holders c = h ->
  (forall t b, (t, b) ∈ h -> calm b) -> Z.of_nat (length h) <= INT_MAX ->
  exists c' k' x' l', rtc (thread_step ptrs_per_thread) c c' /\ keeps dl c c' /\ cycle_inv N c' r dl k' x' l' /\
    in_use (holders c') x' /\ holders c' = [].
Proof using HN.
  induction h as [|[t b] h IH]; intros c r dl k x l I Hu Eh Hb Hmax; [by exists c, k, x, l |].
  destruct (Hb t b ltac:(left)) as (pc & -> & Hpc).
  destruct (holder_finishes _ _ _ _ _ _ _ [] t _ h I Hu Eh ltac:(done) (not_late _ t pc Hpc) ltac:(by rewrite Eh) (le_n _)) as (c1 & k1 & x1 & l1 & R1 & K1 & I1 & Hu1 & Eh1 & _).
  cbn in Hmax. destruct (IH c1 r dl k1 x1 l1 I1 Hu1 Eh1 ltac:(intros t0 b0 Hin; apply (Hb t0); by right) ltac:(lia)) as (c2 & k2 & x2 & l2 & R2 & K2 & H).
  exists c2, k2, x2, l2. split; [by etransitivity |]. split; [by etransitivity | done].
Qed.

(** *** From their tests to their claims *)

(** Whoever has tested reads [free_idx] again. *)
Definition reread (m : gmap Z addr_buffer_t) (p : place_t * role_t) : place_t * role_t :=
  match p, m !! retiree_buffer (fst p) with (t, At At_read), Some d => (t, At (At_claim (ab_free_idx d))) | _, _ => p end.

Lemma set_holders_id c : set_holders c (holders c) = c.
Proof using Type. by destruct c. Qed.

Lemma reread_id m t b : b <> At At_read -> reread m (t, b) = (t, b).
Proof using Type. unfold reread. cbn. destruct b as [[] |]; try done; intros _; by destruct (m !! _). Qed.

Lemma rereads h2 : forall c r dl k x l h1, cycle_inv N c r dl k x l -> in_use (holders c) x -> holders c = h1 ++ h2 ->
  let c' := set_holders c (h1 ++ (reread (store (buffers c)) <$> h2)) in
  rtc (thread_step ptrs_per_thread) c c' /\ cycle_inv N c' r dl k x l /\ in_use (holders c') x.
Proof using HN.
  induction h2 as [|[t b] h2 IH]; intros c r dl k x l h1 I Hu Eh; cbn [fmap list_fmap].
  - rewrite <- Eh, set_holders_id. done.
  - destruct (decide (b = At At_read)) as [-> | Hb].
    + destruct (held_buffer _ _ _ _ _ _ _ _ _ _ I Eh) as (Hh & H0 & _ & d & Hd & Hok & _).
      set (b' := At (At_claim (ab_free_idx d))). set (c1 := set_holders c (h1 ++ (t, b') :: h2)).
      assert (S : thread_step ptrs_per_thread c c1) by exact (turn_step c h1 t _ h2 t _ _ Eh H0 eq_refl (turn_read t (common c) d Hd)).
      assert (I1 : cycle_inv N c1 r dl k x l).
      { apply (inv_turns N HN c r dl k x l h1 t _ h2 b' d I Eh); try done. intros pc [= <-].
        split; [by apply (ho_at _ _ _ _ _ (ci_holders _ _ _ _ _ _ _ I t _ Hh) _ eq_refl) | by apply (re_n _ _ _ Hok)]. }
      destruct (IH c1 r dl k x l (h1 ++ [(t, b')]) I1) as (R & I2 & Hu2); [by eapply in_use_moved | cbn; by rewrite <- app_assoc |].
      unfold reread at 1. cbn. rewrite Hd. rewrite <- app_assoc in R, I2, Hu2. split; [by eapply rtc_l | done].
    + destruct (IH c r dl k x l (h1 ++ [(t, b)]) I Hu) as (R & I2 & Hu2); [by rewrite <- app_assoc |].
      rewrite reread_id by done. rewrite <- app_assoc in R, I2, Hu2. done.
Qed.

(** Then all who have read it try their claims. *)
Lemma claims_all h2 : forall c r dl k x l h1, cycle_inv N c r dl k x l -> in_use (holders c) x -> holders c = h1 ++ h2 ->
  (forall t b, (t, b) ∈ h1 -> calm b) ->
  (forall t b, (t, b) ∈ h2 -> calm b \/ exists i, b = At (At_claim i) /\ forall d, store (buffers c) !! retiree_buffer t = Some d -> i < ab_n_addrs d) ->
  exists c', rtc (thread_step ptrs_per_thread) c c' /\ keeps dl c c' /\ cycle_inv N c' r dl k x l /\ in_use (holders c') x /\
    (forall t b, (t, b) ∈ holders c' -> calm b) /\ length (holders c') = length (holders c).
Proof using HN.
  induction h2 as [|[t b] h2 IH]; intros c r dl k x l h1 I Hu Eh H1 H2.
  - rewrite app_nil_r in Eh. exists c. split; [done |]. split; [done |]. split; [done |]. split; [done |]. split; [by rewrite Eh | done].
  - destruct (H2 t b ltac:(left)) as [Hc | (i & -> & Hi)].
    + destruct (IH c r dl k x l (h1 ++ [(t, b)]) I Hu) as (c' & H); [by rewrite <- app_assoc | | intros t0 b0 Hin; apply H2; by right | by exists c'].
      intros t0 b0 [Hin | [= -> ->]%list_elem_of_singleton]%elem_of_app; [by apply (H1 t0) | done].
    + destruct (held_buffer _ _ _ _ _ _ _ _ _ _ I Eh) as (Hh & H0 & Hin & d & Hd & _).
      destruct (claim_turn _ _ _ _ _ _ _ _ _ _ _ I Eh Hd (Hi d Hd)) as (pc' & t' & d' & g' & T & Hc & Et & Eg & En & I1 & _).
      set (c1 := set_holders (set_common c g') (h1 ++ (t', At pc') :: h2)) in *.
      destruct (IH c1 r dl k x l (h1 ++ [(t', At pc')]) I1) as (c' & R & K & H); [by eapply in_use_moved | cbn; by rewrite <- app_assoc | | |].
      * intros t0 b0 [Hin0 | [= -> ->]%list_elem_of_singleton]%elem_of_app; [by apply (H1 t0) | by exists pc'].
      * intros t0 b0 Hin0. destruct (H2 t0 b0 ltac:(by right)) as [? | (j & -> & Hj)]; [by left | right]. exists j. split; [done |].
        intros d0. change (store (buffers c1)) with (store (bufs g')). rewrite Eg. cbn. rewrite store_lookup. case_decide as E0; [| by apply Hj].
        intros [= <-]. rewrite En. apply Hj. by rewrite E0.
      * exists c'. split; [eapply rtc_l; [by apply (turn_step c h1 t _ h2 t' pc' g' Eh H0 Et T) | exact R] |].
        split; [etransitivity; [by eapply (keeps_one c r dl k x l (retiree_buffer t)) | exact K] |].
        destruct H as (I2 & Hu2 & Hc2 & Hlen). split_and!; try done. rewrite Hlen, Eh. cbn. by rewrite !length_app.
Qed.

(** So that nobody will be late. *)
Lemma settles c r dl k x l : cycle_inv N c r dl k x l -> in_use (holders c) x -> on_time c ->
  (forall t b, (t, b) ∈ holders c -> b <> Dividing) ->
  exists c', rtc (thread_step ptrs_per_thread) c c' /\ keeps dl c c' /\ cycle_inv N c' r dl k x l /\ in_use (holders c') x /\
    (forall t b, (t, b) ∈ holders c' -> calm b) /\ length (holders c') = length (holders c).
Proof using HN.
  intros I Hu Ht Hr. destruct (rereads (holders c) c r dl k x l [] I Hu eq_refl) as (R & I1 & Hu1). cbn [app] in R, I1, Hu1.
  set (c1 := set_holders c (reread (store (buffers c)) <$> holders c)) in *.
  destruct (claims_all (holders c1) c1 r dl k x l [] I1 Hu1 eq_refl) as (c' & R' & K & I' & Hu' & Hc & Hlen).
  - intros t b Hin. by apply not_elem_of_nil in Hin.
  - intros t b ([u b0] & E & Hin)%list_elem_of_fmap. change (store (buffers c1)) with (store (buffers c)).
    specialize (Hr _ _ Hin). specialize (Ht _ _ Hin). destruct b0 as [pc |]; [| done].
    pose proof (ho_buffer _ _ _ _ _ (ci_holders _ _ _ _ _ _ _ I u _ Hin)) as Hb.
    destruct (ci_retired _ _ _ _ _ _ _ I _ Hb) as (d & Hd & _). destruct (decide (At pc = At At_read)) as [[= ->] | Hne].
    + unfold reread in E. cbn in E. rewrite Hd in E. injection E as -> ->. right. eexists. split; [done |]. intros d0 Hd0. rewrite Hd in Hd0. injection Hd0 as <-.
      destruct (Z.lt_ge_cases (ab_free_idx d) (ab_n_addrs d)); [done |]. destruct Ht. by exists d, At_read.
    + rewrite reread_id in E by done. injection E as -> ->. destruct pc as [| | | i | | |]; try (left; eexists; by split).
      right. exists i. split; [done |]. intros d0 Hd0. destruct (Z.lt_ge_cases i (ab_n_addrs d0)); [done |]. destruct Ht. by exists d0, (At_claim i).
  - exists c'. split; [by etransitivity |]. split; [etransitivity; [| exact K]; by split |]. split_and!; try done. rewrite Hlen. cbn. apply length_fmap.
Qed.

(** With nobody at work and a retiree left, a thread takes it. *)
Lemma take_goes c r dl q k x l : cycle_inv N c r dl (q :: k) x l -> holders c = [] ->
  exists c', thread_step ptrs_per_thread c c' /\ keeps dl c c' /\ cycle_inv N c' r dl (q :: k) x l /\ holders c' = [(mk_place q 0 0, At At_test)].
Proof using HN.
  intros I Eh. assert (Hq : q ∈ (q :: k) ++ x) by left. assert (H0 : q <> 0) by (by eapply retired_lookup).
  destruct (ci_retired _ _ _ _ _ _ _ I q Hq) as (d & Hd & Hok & _). pose proof (re_refs _ _ _ Hok) as Hr. rewrite Eh in Hr. cbn in Hr.
  pose proof (lchain_head _ _ _ _ (rt_chain _ _ (ci_retirees _ _ _ _ _ _ _ I))) as Ef. cbn in Ef.
  assert (E : take_retiree (common c) = Ok (mk_place q 0 0, set_bufs (common c) (set_store (buffers c) (<[q := with_ref_count 1 d]> (store (buffers c)))))).
  { unfold take_retiree, forkscan_buffer_get_retiree_buffer, buf_modify, buf_load. fold (buffers c). rewrite Ef.
    apply Z.eqb_neq in H0 as H0'. rewrite H0', Hd, bind_ok, Hr. done. }
  assert (Et : free_turn (At_top, mk_place 0 0 0) (common c) = Ok ((At_test, mk_place q 0 0), set_bufs (common c) (set_store (buffers c) (<[q := with_ref_count 1 d]> (store (buffers c)))))).
  { unfold free_turn. cbn [retiree_buffer]. rewrite Z.eqb_refl, E, bind_ok. unfold go_on. cbn. by apply Z.eqb_neq in H0 as ->. }
  eexists. split; [by apply (takes_retiree _ _ _ _ _ _ _ Et) |]. split; [by eapply keeps_one |]. split; [by apply inv_takes_retiree |]. cbn. by rewrite Eh.
Qed.

Lemma retirees_finish n : forall c r dl k x l, cycle_inv N c r dl k x l -> in_use (holders c) x -> holders c = [] -> (length k <= n)%nat ->
  exists c' x' l', rtc (thread_step ptrs_per_thread) c c' /\ keeps dl c c' /\ cycle_inv N c' r dl [] x' l' /\
    in_use (holders c') x' /\ holders c' = [].
Proof using HN.
  induction n as [|n IH]; intros c r dl k x l I Hu Eh Hn; (destruct k as [|q k]; [by exists c, x, l |]); [by apply Nat.nle_succ_0 in Hn |].
  destruct (take_goes _ _ _ _ _ _ _ I Eh) as (c1 & S1 & K1 & I1 & Eh1).
  assert (Hu1 : in_use (holders c1) x) by (intros p Hp; exfalso; specialize (Hu p Hp); by rewrite Eh in Hu).
  destruct (holder_finishes _ _ _ _ _ _ _ [] _ _ [] I1 Hu1 Eh1 ltac:(done) (not_late _ _ At_test eq_refl) ltac:(by rewrite Eh1) (le_n _))
    as (c2 & k2 & x2 & l2 & R2 & K2 & I2 & Hu2 & Eh2 & (k0 & Ek) & Hk2).
  destruct (IH c2 r dl k2 x2 l2 I2 Hu2 Eh2) as (c3 & x3 & l3 & R3 & K3 & H).
  - apply (f_equal length) in Ek as El. cbn in El, Hn. rewrite length_app in El. destruct k0 as [|y k0]; [| cbn in El; lia].
    cbn in Ek. destruct Hk2. rewrite <- Ek. left.
  - exists c3, x3, l3. split; [eapply rtc_l; [done |]; by etransitivity |]. split; [| done]. do 2 (etransitivity; [done |]). done.
Qed.
End drain.

(** * Properties *)

Section properties.
Context (ptrs_per_thread : Z) (Hptrs : 0 < ptrs_per_thread * MAX_THREAD_COUNT <= 2 ^ 30).

Lemma reachable_goes c c' : cycle_reachable ptrs_per_thread c -> rtc (thread_step ptrs_per_thread) c c' -> cycle_reachable ptrs_per_thread c'.
Proof using Type. intros H R. induction R as [|c c1 c2 S R IH]; [done |]. apply IH. eapply cycle_goes; [done | by apply threads]. Qed.

(** The threads give their buffers back, take the retirees, and free what is
    in them. *)
Lemma drains c r dl k x l : cycle_inv (ptrs_per_thread * MAX_THREAD_COUNT) c r dl k x l -> in_use (holders c) x ->
  (forall t b, (t, b) ∈ holders c -> b <> Dividing) -> transit c = [] ->
  on_time c -> Z.of_nat (length (holders c)) <= INT_MAX ->
  exists c' l', rtc (thread_step ptrs_per_thread) c c' /\ keeps dl c c' /\ holders c' = [] /\
    cycle_inv (ptrs_per_thread * MAX_THREAD_COUNT) c' r dl [] [] l' /\
    retired c ≡ₚ freed_nodes (common c') ++ nodes_of (buffers c) (g_uncollected_data c) dl.
Proof using Hptrs.
  intros I Hu Hr Ht Hon Hmax.
  destruct (settles ptrs_per_thread _ Hptrs c r dl k x l I Hu Hon Hr) as (c0 & R0 & K0 & I0 & Hu0 & Hc0 & Hlen).
  destruct (holders_finish ptrs_per_thread _ Hptrs _ c0 r dl k x l I0 Hu0 eq_refl Hc0 ltac:(by rewrite Hlen)) as (c1 & k1 & x1 & l1 & R1 & K1 & I1 & Hu1 & Eh1).
  destruct (retirees_finish ptrs_per_thread _ Hptrs _ c1 r dl k1 x1 l1 I1 Hu1 Eh1 (le_n _)) as (c2 & x2 & l2 & R2 & K2 & I2 & Hu2 & Eh2).
  destruct x2 as [|q x2]; [| exfalso; apply (Hu2 q); [left | by rewrite Eh2]].
  assert (K : keeps dl c c2) by (etransitivity; [exact K0 |]; by etransitivity).
  exists c2, l2. split; [etransitivity; [exact R0 |]; by etransitivity |]. split; [done |]. split; [done |]. split; [done |].
  destruct (ci_nodes _ _ _ _ _ _ _ I2) as (Hp & _). rewrite <- (kp_retired _ _ _ K), Hp. unfold pending, dead_of. cbn.
  rewrite (kp_transit _ _ _ K), Ht, app_nil_l.
  by rewrite app_nil_r, (kp_old _ _ _ K), (kp_nodes _ _ _ K).
Qed.

(** C18: As long as no thread has got behind the entries of its buffer, a thread
    that has a retiree can go on, wherever it is in the loop and whatever the
    others have claimed, unless they have claimed the last entries between its
    two reads of [free_idx]: no assertion fails, and no access is out of
    bounds; running alone it gives the buffer back, which is then not among
    the retirees any more. *)
Theorem thread_gives_back c h1 t b h2 : cycle_reachable ptrs_per_thread c -> within (holders c) ->
  holders c = h1 ++ (t, b) :: h2 -> (~ late (store (buffers c)) t b) ->
  Z.of_nat (length (holders c)) <= INT_MAX ->
  exists c' k', rtc (thread_step ptrs_per_thread) c c' /\ holders c' = h1 ++ h2 /\ retired c' = retired c /\
    retirees (buffers c') k' /\ retiree_buffer t ∉ k'.
Proof using Hptrs.
  intros H Hw Eh Hl Hmax. destruct (cycle_reachable_ok _ Hptrs _ c eq_refl H Hw) as ((r & dl & k & x & l & I & Hu) & Hr & Ht).
  destruct (holder_finishes ptrs_per_thread _ Hptrs _ _ _ _ _ _ _ h1 t b h2 I Hu Eh (Hr t b ltac:(rewrite Eh; apply elem_of_mid)) Hl Hmax (le_n _))
    as (c' & k' & x' & l' & R & K & I' & _ & Eh' & _ & Hk).
  exists c', k'. split_and!; try done; [apply K | apply I'].
Qed.

(** The threads can free every node that the collector found dead: what has
    been retired and is not freed then is what waits for the collector, as it
    did before. *)
Theorem dead_nodes_freed c dl : cycle_reachable ptrs_per_thread c -> within (holders c) -> on_time c -> bchain (store (buffers c)) (g_addr_buffer c) dl ->
  Z.of_nat (length (holders c)) <= INT_MAX ->
  exists c', rtc (thread_step ptrs_per_thread) c c' /\ holders c' = [] /\ retirees (buffers c') [] /\
    retired c' = retired c /\
    retired c ≡ₚ freed_nodes (common c') ++ nodes_of (buffers c) (g_uncollected_data c) dl.
Proof using Hptrs.
  intros H Hw Hon Hdl Hmax. destruct (cycle_reachable_ok _ Hptrs _ c eq_refl H Hw) as ((r & dl' & k & x & l & I & Hu) & Hr & Ht).
  rewrite (lchain_unique _ _ _ _ _ (ci_handed _ _ _ _ _ _ _ I) Hdl) in I.
  destruct (drains _ _ _ _ _ _ I Hu Hr Ht Hon Hmax) as (c' & l' & R & K & Eh & I' & Hp).
  exists c'. split_and!; try done; [apply I' | apply K].
Qed.


(** C35: The other side: as long as no thread has got behind the entries of its
    buffer, what a thread has claimed nobody else frees.  A thread that
    exits does not look at its retiree ([forkscan_util_thread_data_free]), so
    it stays where it is in [holders] and takes no more steps; the nodes in its
    range have then been retired once more than freed, for good. *)
Theorem held_nodes_unfreed c t b i d : cycle_reachable ptrs_per_thread c -> within (holders c) -> (t, b) ∈ holders c ->
  store (buffers c) !! retiree_buffer t = Some d -> begin_retiree_idx t <= i < end_retiree_idx t ->
  Buffer.unmarked (get (ab_addrs d) i) = true ->
  count_occ Z.eq_dec (retired c) (get (ab_addrs d) i) = Datatypes.S (count_occ Z.eq_dec (freed_nodes (common c)) (get (ab_addrs d) i)).
Proof using Hptrs.
  intros H Hw Hh Hd Hi Hun. destruct (cycle_reachable_ok _ Hptrs _ c eq_refl H Hw) as ((r & dl & k & x & l & I & _) & _).
  pose proof Hh as (h1 & h2 & Eh)%list_elem_of_split.
  destruct (held_buffer _ Hptrs _ _ _ _ _ _ _ _ _ _ I Eh) as (_ & _ & Hin & d0 & Hd0 & Hok & Hr & He & _ & _ & Hz).
  rewrite Hd in Hd0. injection Hd0 as <-. pose proof (re_n _ _ _ Hok) as Hn. set (v := get (ab_addrs d) i) in *.
  assert (Hv : v ∈ pending c dl k x).
  { unfold pending. apply elem_of_app. right. apply list_elem_of_split in Hin as (k1 & k2 & ->).
    rewrite (dead_of_mid _ _ _ _ d Hd), !elem_of_app. right. right. left. unfold dead_in. apply list_elem_of_filter. split; [done |].
    apply (first_n_elem (ab_n_addrs d) (ab_addrs d)); [lia | exists i; split; [lia | done]]. }
  destruct (ci_nodes _ _ _ _ _ _ _ I) as (Hp & Hnd & _).
  rewrite (proj1 (Permutation_count_occ Z.eq_dec _ _) Hp v), count_occ_app.
  assert (E1 : count_occ Z.eq_dec (pending c dl k x) v = 1%nat); [| lia].
  apply NoDup_ListNoDup in Hnd. apply (NoDup_count_occ' Z.eq_dec); [done | by apply list_elem_of_In].
Qed.

(** C36: What the collector cannot do is iterate with nothing retired: when
    [forkscan_force_reclaim] hands in empty buffers, and nothing is left of the
    iteration before, the assertion of [aggregate_addrs] fails, whatever the
    scan would do. *)
Theorem empty_iteration_fails scan c dl : cycle_reachable ptrs_per_thread c -> within (holders c) ->
  bchain (store (buffers c)) (g_addr_buffer c) dl -> dl <> [] -> zlen dl <= 2 ^ 20 ->
  nodes_of (buffers c) (g_uncollected_data c) dl = [] ->
  reclaim_iteration scan (g_uncollected_data c) (g_addr_buffer c) (buffers c) = Err AssertFailed.
Proof using Hptrs.
  intros H Hw Hdl Hne Hlen Hnil. destruct (cycle_reachable_ok _ Hptrs _ c eq_refl H Hw) as ((r & dl' & k & x & l & I & _) & _).
  rewrite (lchain_unique _ _ _ _ _ (ci_handed _ _ _ _ _ _ _ I) Hdl) in I. apply app_eq_nil in Hnil as [Ho Hc].
  assert (Hnd : NoDup dl).
  { destruct (ci_owned _ _ _ _ _ _ _ I) as [Hnd _]. unfold owned in Hnd. do 2 apply NoDup_app in Hnd as (_ & _ & Hnd).
    by apply NoDup_app in Hnd as (? & _ & _). }
  assert (Hf : forall q d, q ∈ dl -> store (buffers c) !! q = Some d -> filled d).
  { intros q d Hq Hd. destruct (ci_small _ _ _ _ _ _ _ I q) as (e & He & [G1 G2 G3 G4 G5]); [rewrite !elem_of_app; tauto |].
    rewrite Hd in He. injection He as <-. unfold filled, INT_MAX. rewrite G2, G3. split_and!; try done; lia. }
  unfold reclaim_iteration. rewrite (aggregate_addrs_empty _ _ _ dl); try done. intros H0.
  destruct (ci_old _ _ _ _ _ _ _ I H0) as (o & Hd & Ha & Hn). exists o. split; [done |].
  rewrite (content_at_some _ _ o) in Ho by done. apply (f_equal length) in Ho. unfold content, first_n in Ho.
  rewrite length_take in Ho. pose proof (ag_addrs _ Ha). unfold zlen in *. cbn in Ho. lia.
Qed.
End properties.

(** ** Witnesses *)

Lemma calm_on_time c : forallb (fun p => match snd p with At pc => negb (claiming pc) | _ => false end) (holders c) = true -> on_time c.
Proof.
  rewrite forallb_forall. intros H t b Hin%list_elem_of_In. specialize (H _ Hin). cbn in H. destruct b as [pc |]; [| done].
  apply not_late. by apply negb_true_iff.
Qed.

Lemma thread_gives_back_witness : exists c' k', rtc (thread_step 1) (demo_cycle demo_second) c' /\
  holders c' = [] /\ retired c' = [16; 16; 32; 48] /\ retirees (buffers c') k' /\ 0x40000 ∉ k'.
Proof.
  apply (thread_gives_back 1 ltac:(vm_compute; split; congruence) (demo_cycle demo_second) [] (mk_place 0x40000 1 2) (At At_top) []).
  - apply demo_reachable. by vm_compute.
  - apply within_check. by vm_compute.
  - by vm_compute.
  - by apply not_late.
  - vm_compute. congruence.
Defined.

Lemma dead_nodes_freed_witness : exists c', rtc (thread_step 1) (demo_cycle demo_freed) c' /\ holders c' = [] /\
  retirees (buffers c') [] /\ retired c' = [16; 32; 48] /\ [16; 32; 48] ≡ₚ freed_nodes (common c') ++ [32].
Proof.
  apply (dead_nodes_freed 1 ltac:(vm_compute; split; congruence) (demo_cycle demo_freed) []).
  - apply demo_reachable. by vm_compute.
  - apply within_check. by vm_compute.
  - apply calm_on_time. by vm_compute.
  - apply (listing_bchain 9). by vm_compute.
  - vm_compute. congruence.
Defined.

#[local] Instance none_scanner : Scanner (fun w _ => pool_wf w) (fun _ => False) (fun _ => False) (listed_scan []).
Proof.
  intros w d W. assert (H : TCEq (forallb (fun v => v mod 4 =? 0) []) true) by constructor.
  eapply wp_mono; [by apply (listed_scanner [] H) |]. intros w' (H1 & _ & H3). split; [done |]. split; [done |].
  intros v Hv Hv'. by apply (not_elem_of_nil v), H3.
Qed.


Lemma empty_iteration_fails_witness : let c := demo_cycle (demo_maps ++ [MTake; MHand []]) in
  reclaim_iteration (listed_scan []) (g_uncollected_data c) (g_addr_buffer c) (buffers c) = Err AssertFailed.
Proof.
  apply (empty_iteration_fails 1 ltac:(vm_compute; split; congruence) (listed_scan []) (demo_cycle (demo_maps ++ [MTake; MHand []])) [0x10000]).
  - apply demo_reachable. by vm_compute.
  - apply within_check. by vm_compute.
  - apply (listing_bchain 9). by vm_compute.
  - done.
  - by vm_compute.
  - by vm_compute.
Defined.

Lemma held_nodes_unfreed_witness : let c := demo_cycle (demo_first ++ [MIterate [32]; MRetiree] ++ go 4) in
  count_occ Z.eq_dec (retired c) 48 = Datatypes.S (count_occ Z.eq_dec (freed_nodes (common c)) 48).
Proof.
  set (c := demo_cycle (demo_first ++ [MIterate [32]; MRetiree] ++ go 4)).
  assert (Hd : is_Some (store (buffers c) !! 0x20000)) by (apply (bool_decide_unpack _); by vm_compute).
  assert (E : (fun d => get (ab_addrs d) 2) <$> store (buffers c) !! 0x20000 = Some 48) by (by vm_compute).
  destruct Hd as [d Hd]. pose proof E as E48. rewrite Hd in E48. injection E48 as E48. rewrite <- E48.
  apply (held_nodes_unfreed 1 ltac:(vm_compute; split; congruence) c (mk_place 0x20000 1 3) (At At_top) 2 d).
  - apply demo_reachable. by vm_compute.
  - apply within_check. by vm_compute.
  - vm_compute. left.
  - exact Hd.
  - cbn. lia.
  - by rewrite E48.
Defined.
