(* ===== verification/Overlap.v ===== *)
(** forkscan.c: the collector in the middle of an iteration, with the threads
    at work.

    In [Cycle] an iteration is one step.  Here it is as many as the code has
    critical sections and accesses to what it shares with the threads: the
    buffers are gathered, the snapshot is taken and scanned, the buffers go
    back one by one, the working data are appended to the retirees, where the
    threads take them and free what is not marked while the collector copies
    what is, entry by entry, and gives up its reference.  Between any two of
    these steps the threads take, fill and hand in buffers, free, and give
    back, by the turns of [Free], and so with both reads of [free_idx]; the
    theorems are about what is reached before a thread gets behind the entries
    of its buffer ([within]).  What a state in the middle has in store is seen
    as a state of [Cycle] ([view]), whose invariant and lemmas carry over. *)
From S2P Require Import Prelude SortUtil AddrBuffer Buffer Gc Free Collect Cycle Drain.

(** * The steps of an iteration *)

(** What the collector is at: nothing; with the working data [wd] gathered from
    the buffers from [p] on; with the child's answer [w], giving the buffers
    from [p] on back; with the working data among the retirees; and with entry
    [i] of them to look at next. *)
Inductive phase_t : Type :=
  | Between
  | Gathered (wd p : Z)
  | Releasing (wd p : Z) (w : addr_buffer_t)
  | Pushed (wd : Z)
  | Copying (wd i : Z).

Record over_t : Type := mk_over { base : cycle_t; phase : phase_t }.

Definition set_collector (c : cycle_t) (s : buffers_t) (u ab : Z) : cycle_t :=
  mk_cycle (set_bufs (common c) s) u ab (filling c) (holders c) (retired c) (transit c).

(** The snapshot, with all threads stopped, and what the child makes of it: a
    scan of the working data and the dead references, sorted. *)
Inductive snapshot (pre : addr_buffer_t -> addr_buffer_t -> Prop) (scan : addr_buffer_t -> addr_buffer_t -> res addr_buffer_t)
    (c : cycle_t) (wd : Z) : cycle_t -> addr_buffer_t -> Prop :=
  | snapshot_taken p2 s' w d w1 d1 w2 s2 :
      blocks (buffers c) <> [] -> forkscan_buffer_get_dead_references (buffers c) = Ok (p2, s') ->
      buf_load s' wd = Ok w -> buf_load s' p2 = Ok d -> prepare w d = Ok (w1, d1) ->
      pre w1 d1 -> scan w1 d1 = Ok w2 -> buf_modify s' p2 (fun _ => d1) = Ok s2 ->
      snapshot pre scan c wd (set_buffers c s2) w2.

(** [reclaim_iteration], by the parts it has in [Gc].  The child and its
    siblings mark a shared aggregate, which nobody reads before they have
    answered: their answer is part of the phase until then. *)
Inductive collector_step (c : cycle_t) : phase_t -> cycle_t -> phase_t -> Prop :=
  | gathers dl wd f s' :
      bchain (store (buffers c)) (g_addr_buffer c) dl -> may_iterate c dl ->
      aggregate_addrs (g_uncollected_data c) (g_addr_buffer c) (buffers c) = Ok (wd, f, s') ->
      collector_step c Between (set_collector c s' 0 0) (Gathered wd (g_addr_buffer c))
  | snapshots scan pre must may wd p c' w :
      Scanner pre must may scan -> snapshot pre scan c wd c' w ->
      collector_step c (Gathered wd p) c' (Releasing wd p w)
  | releases wd p w d s' :
      buf_load (buffers c) p = Ok d -> forkscan_release_buffer p (buffers c) = Ok s' ->
      collector_step c (Releasing wd p w) (set_buffers c s') (Releasing wd (ab_next d) w)
  | pushes wd w s1 s' :
      buf_modify (buffers c) wd (fun _ => w) = Ok s1 -> forkscan_buffer_push_back wd s1 = Ok s' ->
      collector_step c (Releasing wd 0 w) (set_buffers c s') (Pushed wd)
  | makes wd d u s' :
      blocks (buffers c) <> [] -> buf_load (buffers c) wd = Ok d ->
      forkscan_make_aggregate_buffer (ab_capacity d) (buffers c) = Ok (u, s') ->
      collector_step c (Pushed wd) (set_collector c s' u (g_addr_buffer c)) (Copying wd 0)
  | copies wd i w u u' s' :
      buf_load (buffers c) wd = Ok w -> i < ab_n_addrs w ->
      buf_load (buffers c) (g_uncollected_data c) = Ok u -> uncollected_step w i u = Ok u' ->
      buf_modify (buffers c) (g_uncollected_data c) (fun _ => u') = Ok s' ->
      collector_step c (Copying wd i) (set_buffers c s') (Copying wd (i + 1))
  | ends wd i w s' :
      buf_load (buffers c) wd = Ok w -> ab_n_addrs w <= i ->
      forkscan_buffer_unref_buffer wd (buffers c) = Ok s' ->
      collector_step c (Copying wd i) (set_buffers c s') Between.

Definition over_start : over_t := mk_over cycle_start Between.

Inductive over_step (ptrs_per_thread : Z) (o : over_t) : over_t -> Prop :=
  | thread_goes c' : thread_step ptrs_per_thread (base o) c' -> over_step ptrs_per_thread o (mk_over c' (phase o))
  | collector_goes c' ph : collector_step (base o) (phase o) c' ph -> over_step ptrs_per_thread o (mk_over c' ph).

Definition over_reachable (ptrs_per_thread : Z) : over_t -> Prop := rtc (over_step ptrs_per_thread) over_start.

(** * A state in the middle, seen as one between *)

(** With the working data [u], the buffers [ds] to be given back, the holders
    [h] and the nodes [tr] added. *)
Definition widen (c : cycle_t) (u : Z) (ds : list Z) (h : list (place_t * role_t)) (tr : list Z) : cycle_t :=
  mk_cycle (common c) u (g_addr_buffer c) (filling c ++ ds) (holders c ++ h) (retired c) tr.

(** The marked nodes of [wd] from entry [i] on. *)
Definition left_of (c : cycle_t) (wd i : Z) : list Z :=
  survivors (drop (Z.to_nat i) (content_at (store (buffers c)) wd)).

Definition view (c : cycle_t) (ph : phase_t) (ds : list Z) : cycle_t :=
  match ph with
  | Between => widen c (g_uncollected_data c) [] [] []
  | Gathered wd _ | Releasing wd _ _ => widen c wd ds [] []
  | Pushed wd => widen c 0 [] [(mk_place wd 0 0, Dividing)] (left_of c wd 0)
  | Copying wd i => widen c (g_uncollected_data c) [] [(mk_place wd 0 0, Dividing)] (left_of c wd i)
  end.

(** [w] is [d] with marks, in another order. *)
Record scanned (d w : addr_buffer_t) : Prop := {
  sc_n : 0 < ab_n_addrs d /\ ab_n_addrs w = ab_n_addrs d;
  sc_shape : same_shape d w;
  sc_nodes : PTR_MASK <$> content w ≡ₚ content d;
  sc_entries : forall v, v ∈ content w -> entry_ok v }.

Definition phase_ok (c : cycle_t) (ph : phase_t) (ds : list Z) : Prop :=
  let m := store (buffers c) in
  match ph with
  | Between => True
  | Gathered wd p => wd <> 0 /\ bchain m p ds /\ (ds <> []) /\ (content_at m wd <> [])
  | Releasing wd p w => wd <> 0 /\ bchain m p ds /\ exists d, m !! wd = Some d /\ scanned d w
  | Pushed wd => True
  | Copying wd i => exists w u, m !! wd = Some w /\ m !! g_uncollected_data c = Some u /\ g_uncollected_data c <> 0 /\
      0 <= i <= ab_n_addrs w /\ ab_n_addrs w <= ab_capacity u /\ ab_n_addrs u <= i
  end.

(** What the collector has found referenced and not given to the threads. *)
Definition found (o : over_t) : list Z :=
  let c := base o in
  match phase o with
  | Between => content_at (store (buffers c)) (g_uncollected_data c)
  | Gathered wd _ => content_at (store (buffers c)) wd
  | Releasing _ _ w => survivors (content w)
  | Pushed wd => left_of c wd 0
  | Copying wd i => content_at (store (buffers c)) (g_uncollected_data c) ++ left_of c wd i
  end.

(** After the snapshot, until it gathers again. *)
Definition answered (ph : phase_t) : Prop := match ph with Gathered _ _ => False | _ => True end.

Lemma widen_id c : transit c = [] -> widen c (g_uncollected_data c) [] [] [] = c.
Proof. destruct c. cbn. unfold widen. cbn. intros ->. by rewrite !app_nil_r. Qed.

(** ** What a thread does to the buffers *)

(** A buffer as it was but for its counts, and for freed entries: those that
    are marked are the same. *)
Record same_marked (d d' : addr_buffer_t) : Prop := {
  sm_same : ab_n_addrs d' = ab_n_addrs d /\ ab_capacity d' = ab_capacity d;
  sm_left : forall i, survivors (drop i (content d')) = survivors (drop i (content d)) }.

Lemma survivors_insert l i v v' : l !! i = Some v -> ~ marked v -> ~ marked v' -> survivors (<[i := v']> l) = survivors l.
Proof.
  intros Hl Hv Hv'. pose proof (lookup_lt_Some _ _ _ Hl). rewrite insert_take_drop by done.
  rewrite <- (take_drop_middle l i v Hl) at 3. unfold survivors. rewrite !filter_app, !filter_cons.
  by rewrite !decide_False by done.
Qed.

Lemma survivors_freed (n : nat) l i v v' j : l !! i = Some v -> ~ marked v -> ~ marked v' ->
  survivors (drop j (take n (<[i := v']> l))) = survivors (drop j (take n l)).
Proof.
  intros Hl Hv Hv'. destruct (decide (i < n)%nat) as [Hn | Hn]; [| by rewrite take_insert_ge by lia].
  rewrite take_insert_lt by done. destruct (decide (i < j)%nat) as [Hj | Hj]; [by rewrite drop_insert_lt |].
  rewrite drop_insert_ge by lia. apply (survivors_insert _ _ v); [| done | done].
  rewrite lookup_drop, lookup_take_lt by lia. by replace (j + (i - j))%nat with i by lia.
Qed.

Lemma same_marked_content d d' : ab_n_addrs d' = ab_n_addrs d -> ab_capacity d' = ab_capacity d -> ab_addrs d' = ab_addrs d -> same_marked d d'.
Proof. intros En Ec Ea. split; [by split |]. intros i. unfold content. by rewrite En, Ea. Qed.

Lemma unmarked_even v : Buffer.unmarked v = true -> ~ marked v.
Proof.
  unfold Buffer.unmarked, marked. intros H%Z.eqb_eq Hm. apply Hm. change 1 with (Z.land 3 1).
  by rewrite Z.land_assoc, H.
Qed.

Lemma same_marked_freed d i : 0 <= i < zlen (ab_addrs d) -> Buffer.unmarked (get (ab_addrs d) i) = true ->
  same_marked d (set_addrs d (upd (ab_addrs d) i 2)).
Proof.
  intros Hi Hu. split; [done |]. intros j. unfold content, first_n. cbn.
  apply (survivors_freed _ _ _ (get (ab_addrs d) i)); [by apply get_lookup | by apply unmarked_even | by intros H].
Qed.

Lemma release_inv q s d s' : store s !! q = Some d -> forkscan_release_buffer q s = Ok s' ->
  exists v, store s' = <[q := with_next v d]> (store s).
Proof.
  intros Hd. unfold forkscan_release_buffer, assert. intros E. run_inv.
  all: repeat match goal with
    | H : buf_load _ _ = Ok _ |- _ => apply buf_load_inv in H as [_ H]
    | H : buf_modify _ _ _ = Ok _ |- _ => apply buf_modify_inv in H as (? & _ & H & ->)
    end; rewrite Hd in *; repeat match goal with H : Some _ = Some _ |- _ => injection H as <- end; by eexists.
Qed.

(** An entry copied, or skipped. *)
Lemma uncollected_inv w i u u' : aggregate_ok u -> 0 <= ab_n_addrs u < ab_capacity u -> uncollected_step w i u = Ok u' ->
  aggregate_ok u' /\ ab_capacity u' = ab_capacity u /\ 0 <= ab_n_addrs u' <= ab_n_addrs u + 1 /\
  content u' = content u ++ (if Z.land (get (ab_addrs w) i) 1 =? 0 then [] else [PTR_MASK (get (ab_addrs w) i)]).
Proof.
  intros Ha Hn. unfold uncollected_step, rd, wr. pose proof (ag_addrs _ Ha) as Hz.
  assert (Hc : zlen (content u) = ab_n_addrs u) by (apply zlen_first_n; lia).
  intros E. run_inv; match goal with H : (Z.land _ 1 =? 0) = _ |- _ => rewrite H end; [rewrite app_nil_r; split_and!; try done; lia |].
  destruct (collecting_push (ab_capacity u) u (content u) (PTR_MASK (get (ab_addrs w) i))) as [A1 A2 [A3 A4]]; [| lia |].
  - split; [done | done |]. unfold carries. by rewrite Hc.
  - split; [done |]. split; [done |]. split; [cbn; lia |]. unfold content at 1. by rewrite A3.
Qed.

(** Giving up a reference writes that buffer, and not its nodes. *)
Lemma unref_store s q d s' : store s !! q = Some d -> forkscan_buffer_unref_buffer q s = Ok s' ->
  exists d', store s' = <[q := d']> (store s) /\ same_marked d d'.
Proof.
  intros Hd E. destruct (unref_inv _ _ _ _ Hd E) as [_ Es]. destruct (_ && _) in Es.
  - apply (release_inv _ _ (with_ref_count (ab_ref_count d - 1) d)) in Es as [v Ev]; [| apply lookup_insert_eq].
    eexists. split; [rewrite Ev; cbn; by rewrite insert_insert_eq | by apply same_marked_content].
  - rewrite Es. eexists. split; [done | by apply same_marked_content].
Qed.

#[local] Arguments refs : simpl never.
#[local] Arguments cover : simpl never.

Section overlap.
Context (ptrs_per_thread N : Z) (HN : 0 < N <= 2 ^ 30) (EN : ptrs_per_thread * MAX_THREAD_COUNT = N).

(** A thread does in the view what it does. *)
Lemma thread_step_widen c c' u ds h tr : thread_step ptrs_per_thread c c' ->
  thread_step ptrs_per_thread (widen c u ds h tr) (widen c' u ds h tr).
Proof using Type.
  intros Hs. destruct Hs as [ab s' E | ab f1 f2 vs s' Ef Hm Hz E | b e pc t g' E Ht | h1 t pc h2 pc' t' g' Eh E | b H0 Hb Hnb].
  - exact (takes_buffer ptrs_per_thread (widen c u ds h tr) ab s' E).
  - pose proof (hands_in ptrs_per_thread (widen c u ds h tr) ab f1 (f2 ++ ds) vs s' ltac:(cbn; by rewrite Ef, <- app_assoc) Hm Hz E) as S.
    unfold hand_in, widen in *. cbn in *. by rewrite app_assoc in S.
  - exact (takes_retiree ptrs_per_thread (widen c u ds h tr) b e pc t g' E Ht).
  - pose proof (frees ptrs_per_thread (widen c u ds h tr) h1 t pc (h2 ++ h) pc' t' g' ltac:(cbn; by rewrite Eh, <- app_assoc) E) as S.
    unfold set_holders, set_common, widen in *. cbn in *. by rewrite <- !app_assoc.
  - exact (maps ptrs_per_thread (widen c u ds h tr) b H0 Hb Hnb).
Qed.

Lemma thread_step_unc c c' : thread_step ptrs_per_thread c c' -> g_uncollected_data c' = g_uncollected_data c.
Proof using Type. by intros []. Qed.

(** It writes at most one buffer: one that it fills or takes to fill, or one
    of the retirees. *)
Definition writes (c c' : cycle_t) (r k x : list Z) : Prop :=
  store (buffers c') = store (buffers c) \/
  exists q d', store (buffers c') = <[q := d']> (store (buffers c)) /\
    ((q ∈ filling c ++ r ++ blocks (buffers c)) \/
     (q ∈ k ++ x /\ exists d, store (buffers c) !! q = Some d /\ same_marked d d')).

Lemma turn_pop_inv t g pc' t' g' : turn t g At_pop pc' t' g' ->
  exists s, forkscan_buffer_pop_retiree_buffer (retiree_buffer t) (bufs g) = Ok s /\ g' = set_bufs g s.
Proof using Type. inversion 1. by eexists. Qed.

Lemma turn_writes t g pc pc' t' g' d : store (bufs g) !! retiree_buffer t = Some d -> turn t g pc pc' t' g' -> pc <> At_pop ->
  store (bufs g') = store (bufs g) \/ exists d', store (bufs g') = <[retiree_buffer t := d']> (store (bufs g)) /\ same_marked d d'.
Proof using Type.
  intros Hd T Hp. destruct T as [| d1 Hd1 | d1 Hd1 | i d1 e g' Hd1 He Hc | i d1 e Hd1 He Hc | t' g' Ef | s Ep | s Er]; try (by left); try done.
  - right. apply claim_store in Hc as (d0 & Hd0 & _ & ->). rewrite Hd in Hd0. injection Hd0 as <-. eexists. split; [done | by apply same_marked_content].
  - destruct (free_entry_store _ _ _ _ Ef) as (d0 & Hd0 & Hi & _ & Hcase). rewrite Hd in Hd0. injection Hd0 as <-.
    destruct Hcase as [[_ ->] | [Hun ->]]; [by left | right]. eexists. split; [done | by apply same_marked_freed].
  - right. by apply (unref_store (bufs g)).
Qed.

Lemma thread_writes c c' u ds h tr r dl k x l : cycle_inv N (widen c u ds h tr) r dl k x l -> in_use (holders c ++ h) x ->
  thread_step ptrs_per_thread c c' -> writes c c' r k x.
Proof using HN EN.
  intros I Hu Hs. unfold writes.
  destruct Hs as [ab s' E | ab f1 f2 vs s' Ef Hm Hz E | b e pc t g' E Ht | h1 t pc h2 pc' t' g' Eh E | b H0 Hfr Hnb].
  - right. destruct (make_reclaimer_inv _ _ _ _ _ EN E) as [(Eab & H0 & d & Hd & ->) | (El & rest & n & Eb & En & ->)];
      (exists ab; eexists; split; [done |]; left; rewrite !elem_of_app; right).
    + left. pose proof (lchain_head _ _ _ _ (ci_reclaimers _ _ _ _ _ _ _ I)) as Eh. change (buffers (widen c u ds h tr)) with (buffers c) in Eh.
      rewrite Eab in *. rewrite Eh in *. by apply head_in.
    + right. rewrite Eb. left.
  - right. apply buf_modify_inv in E as (d & _ & Hd & ->). exists ab. eexists. split; [done |]. left. rewrite Ef. apply elem_of_app. left. apply elem_of_mid.
  - right. destruct (take_turn _ _ _ _ _ _ E Ht) as [_ E']. destruct (take_retiree_store _ _ _ E' Ht) as (Et & d & Hd & ->).
    exists (retiree_buffer t). eexists. split; [done |]. right.
    pose proof (lchain_head _ _ _ _ (rt_chain _ _ (ci_retirees _ _ _ _ _ _ _ I))) as Eh. change (buffers (widen c u ds h tr)) with (buffers c) in Eh.
    split; [| exists d; split; [done | by apply same_marked_content]]. apply elem_of_app. left. rewrite Et in *. cbn [retiree_buffer] in *. fold (buffers c) in *. rewrite Eh in *. by apply head_in.
  - assert (Hin : (t, At pc) ∈ holders (widen c u ds h tr)) by (cbn; rewrite Eh, <- app_assoc; apply elem_of_mid).
    pose proof (ho_buffer _ _ _ _ _ (ci_holders _ _ _ _ _ _ _ I t _ Hin)) as Hb. pose proof (retired_lookup _ _ _ _ _ _ _ _ I Hb) as H0.
    destruct (ci_retired _ _ _ _ _ _ _ I _ Hb) as (d & Hd & _). pose proof (free_turn_inv _ _ _ _ _ _ H0 E) as T.
    destruct (decide (pc = At_pop)) as [-> | Hp].
    + left. destruct (turn_pop_inv _ _ _ _ _ T) as (s' & Ep & Eg). rewrite Eg. destruct (inv_pops N HN (widen c u ds h tr) r dl k x l h1 t (h2 ++ h) s' I Hu) as (k' & x' & _ & _ & Es & _); try done.
      unfold widen. cbn. by rewrite Eh, <- app_assoc.
    + destruct (turn_writes _ _ _ _ _ _ d Hd T Hp) as [Es | (d' & Es & Hm)]; [by left | right]. exists (retiree_buffer t), d'. split; [exact Es |]. right.
      split; [done |]. by exists d.
  - by left.
Qed.

(** What is neither, is as it was; the retirees keep their marked entries. *)
Lemma writes_frame c c' r k x q : writes c c' r k x -> (q ∉ filling c ++ r ++ blocks (buffers c)) -> (q ∉ k ++ x) ->
  store (buffers c') !! q = store (buffers c) !! q.
Proof using Type.
  intros [-> | (p & d' & -> & Hp)] H1 H2; [done |]. rewrite lookup_insert_ne; [done |]. intros ->. by destruct Hp as [? | [? _]].
Qed.

Lemma writes_marked c c' r k x q d : writes c c' r k x -> (q ∉ filling c ++ r ++ blocks (buffers c)) -> store (buffers c) !! q = Some d ->
  exists d', store (buffers c') !! q = Some d' /\ same_marked d d'.
Proof using Type.
  intros [-> | (p & d' & -> & Hp)] H1 Hd; [exists d; split; [done | by apply same_marked_content] |]. rewrite store_lookup. case_decide as E; [subst q |].
  - destruct Hp as [? | (_ & e & He & Hs)]; [done |]. rewrite Hd in He. injection He as <-. by eexists.
  - exists d. split; [done | by apply same_marked_content].
Qed.

(** ** The invariant *)

Record over_inv (o : over_t) (ds r dl k x l : list Z) : Prop := {
  oi_view : cycle_inv N (view (base o) (phase o) ds) r dl k x l;
  oi_use : in_use (holders (view (base o) (phase o) ds)) x;
  oi_roles : forall t b, (t, b) ∈ holders (base o) -> b <> Dividing;
  oi_transit : transit (base o) = [];
  oi_phase : phase_ok (base o) (phase o) ds;
  oi_none : match phase o with Between | Copying _ _ => True | _ => g_uncollected_data (base o) = 0 end }.

Definition over_ok (o : over_t) : Prop := exists ds r dl k x l, over_inv o ds r dl k x l.

(** What the collector holds is not the threads' to write. *)
Lemma view_apart c u ds h tr r dl k x l q : cycle_inv N (widen c u ds h tr) r dl k x l ->
  q ∈ ds \/ (q = u /\ u <> 0) -> (q ∉ filling c ++ r ++ blocks (buffers c)) /\ (q ∉ k ++ x).
Proof using HN.
  intros I Hq. destruct (ci_owned _ _ _ _ _ _ _ I) as [Hnd _]. unfold owned, supply in Hnd. cbn in Hnd.
  change (buffers (widen c u ds h tr)) with (buffers c) in Hnd.
  assert (Hp : (filling c ++ ds) ++ r ++ dl ++ k ++ x ++ l ++ maybe u ++ maybe (g_dead_references (buffers c)) ++ blocks (buffers c) ≡ₚ
    (ds ++ maybe u) ++ (filling c ++ r ++ blocks (buffers c)) ++ (k ++ x) ++ dl ++ l ++ maybe (g_dead_references (buffers c))) by perm.
  rewrite Hp in Hnd. apply NoDup_app in Hnd as (_ & D & _). specialize (D q). rewrite (elem_of_app ds), elem_of_maybe in D.
  assert (Hq' : q ∈ ds \/ q = u /\ u <> 0) by done. specialize (D ltac:(intuition congruence)). rewrite !not_elem_of_app in *. tauto.
Qed.

(** Nor are the working data, while it divides them, but to free from. *)
Lemma divided_apart c u ds h tr r dl k x l t b : cycle_inv N (widen c u ds h tr) r dl k x l -> (t, b) ∈ h ->
  (retiree_buffer t ∉ filling c ++ r ++ blocks (buffers c)) /\
  exists d, store (buffers c) !! retiree_buffer t = Some d /\ retiree_buffer t <> 0.
Proof using HN.
  intros I Hin. pose proof (ho_buffer _ _ _ _ _ (ci_holders _ _ _ _ _ _ _ I t b ltac:(cbn; apply elem_of_app; by right))) as Hq.
  destruct (ci_retired _ _ _ _ _ _ _ I _ Hq) as (d & Hd & _). split; [| exists d; split; [done | by apply (retired_lookup _ _ _ _ _ _ _ _ I)]].
  destruct (ci_owned _ _ _ _ _ _ _ I) as [Hnd _]. destruct (owned_apart _ _ _ _ _ _ _ Hnd Hq) as [H1 H2].
  unfold supply in H2. cbn in H1. change (buffers (widen c u ds h tr)) with (buffers c) in H2. rewrite !not_elem_of_app in *. tauto.
Qed.

(** ** A thread's step *)

Lemma left_of_frame c c' wd d d' i : wd <> 0 -> store (buffers c) !! wd = Some d -> store (buffers c') !! wd = Some d' ->
  same_marked d d' -> left_of c' wd i = left_of c wd i.
Proof using Type.
  intros H0 Hd Hd' Hs. unfold left_of. rewrite (content_at_some (store (buffers c)) _ d), (content_at_some (store (buffers c')) _ d') by done. apply (sm_left _ _ Hs).
Qed.

(** The marked nodes of the buffer that is divided. *)
Lemma thread_left c c' i u tr wd r dl k x l : cycle_inv N (widen c u [] [(mk_place wd 0 0, Dividing)] tr) r dl k x l ->
  in_use (holders c ++ [(mk_place wd 0 0, Dividing)]) x -> thread_step ptrs_per_thread c c' ->
  exists d d', store (buffers c) !! wd = Some d /\ store (buffers c') !! wd = Some d' /\ same_marked d d' /\ left_of c' wd i = left_of c wd i.
Proof using HN EN.
  intros I Hu Hs. pose proof (thread_writes _ _ _ _ _ _ _ _ _ _ _ I Hu Hs) as W.
  destruct (divided_apart _ _ _ _ _ _ _ _ _ _ _ Dividing I ltac:(left)) as (Hw & d & Hd & H0). cbn [retiree_buffer] in *.
  destruct (writes_marked _ _ _ _ _ _ _ W Hw Hd) as (d' & Hd' & Hm). exists d, d'. split_and!; try done. by eapply left_of_frame.
Qed.

(** In each phase: what the view adds is not touched. *)
Lemma thread_view c ph ds r dl k x l c' : over_inv (mk_over c ph) ds r dl k x l -> thread_step ptrs_per_thread c c' ->
  (exists u ds0 h tr, view c ph ds = widen c u ds0 h tr /\ view c' ph ds = widen c' u ds0 h tr) /\ phase_ok c' ph ds /\
  found (mk_over c' ph) = found (mk_over c ph).
Proof using HN EN.
  intros [I Hu Hr Ht Hp Hn] Hs. pose proof (thread_step_unc _ _ Hs) as Eu. cbn [base phase] in *.
  assert (Hc : forall u ds0 h tr, cycle_inv N (widen c u ds0 h tr) r dl k x l -> in_use (holders c ++ h) x ->
    content_at (store (buffers c')) u = content_at (store (buffers c)) u).
  { intros u ds0 h tr J Ju. pose proof (thread_writes _ _ _ _ _ _ _ _ _ _ _ J Ju Hs) as W. unfold content_at. destruct (Z.eqb_spec u 0); [done |].
    destruct (view_apart _ _ _ _ _ _ _ _ _ _ u J ltac:(by right)). by rewrite (writes_frame _ _ _ _ _ _ W). }
  destruct ph as [| wd p | wd p w | wd | wd i]; cbn [view phase_ok] in *.
  - unfold found. cbn [base phase]. rewrite Eu. split; [by eexists _, _, _, _ |]. split; [done |]. by eapply Hc.
  - pose proof (thread_writes _ _ _ _ _ _ _ _ _ _ _ I Hu Hs) as W. destruct Hp as (H0 & Hch & Hds & Hne).
    split; [by eexists _, _, _, _ |]. unfold found. cbn [base phase]. rewrite (Hc _ _ _ _ I Hu). split; [| done]. split_and!; try done.
    eapply lchain_frame; [exact Hch |]. intros q Hq. destruct (view_apart _ _ _ _ _ _ _ _ _ _ q I ltac:(by left)).
    by rewrite (writes_frame _ _ _ _ _ _ W).
  - pose proof (thread_writes _ _ _ _ _ _ _ _ _ _ _ I Hu Hs) as W. destruct Hp as (H0 & Hch & d & Hd & Hsc).
    split; [by eexists _, _, _, _ |]. split; [| done]. split; [done |]. split.
    + eapply lchain_frame; [exact Hch |]. intros q Hq. destruct (view_apart _ _ _ _ _ _ _ _ _ _ q I ltac:(by left)).
      by rewrite (writes_frame _ _ _ _ _ _ W).
    + destruct (view_apart _ _ _ _ _ _ _ _ _ _ wd I ltac:(by right)). exists d. by rewrite (writes_frame _ _ _ _ _ _ W).
  - destruct (thread_left c c' 0 _ _ _ _ _ _ _ _ I Hu Hs) as (d & d' & _ & _ & _ & El).
    unfold found. cbn [base phase]. rewrite El. by split; [eexists _, _, _, _ |].
  - destruct (thread_left c c' i _ _ _ _ _ _ _ _ I Hu Hs) as (d & d' & Hd & Hd' & Hm & El). destruct Hp as (d0 & u & Hd0 & Hun & Hu0 & Hi & Hcu & Hul).
    rewrite Hd in Hd0. injection Hd0 as <-. destruct (sm_same _ _ Hm) as [En _].
    unfold found. cbn [base phase]. rewrite El, Eu, (Hc _ _ _ _ I Hu). split; [by eexists _, _, _, _ |]. split; [| done].
    pose proof (thread_writes _ _ _ _ _ _ _ _ _ _ _ I Hu Hs) as W. destruct (view_apart _ _ _ _ _ _ _ _ _ _ (g_uncollected_data c) I ltac:(by right)).
    exists d', u. rewrite (writes_frame _ _ _ _ _ (g_uncollected_data c) W) by done. rewrite En. split; [done |]. split; [done |]. done.
Qed.

Lemma over_threads o c' : over_ok o -> thread_step ptrs_per_thread (base o) c' -> within (holders c') -> over_ok (mk_over c' (phase o)).
Proof using HN EN.
  destruct o as [c ph]. intros (ds & r & dl & k & x & l & H) Hs Hin. cbn [base phase] in *.
  destruct (thread_view _ _ _ _ _ _ _ _ _ H Hs) as ((u & ds0 & h & tr & Ev & Ev') & Hp' & _). destruct H as [I Hu Hr Ht _ Hn]. cbn [base phase] in *.
  destruct (thread_step_roles _ _ _ Hs) as [Et Hr']. pose proof (thread_step_unc _ _ Hs) as Eu. rewrite Ev in I, Hu.
  assert (Hw : within (holders (widen c' u ds0 h tr))).
  { cbn. apply within_app; [done |]. intros t pc Hh. destruct ph; cbn in Ev; apply (f_equal holders) in Ev; cbn in Ev; apply app_inv_head in Ev; subst h;
      try (by apply not_elem_of_nil in Hh); by apply list_elem_of_singleton in Hh. }
  destruct (thread_step_inv N HN ptrs_per_thread _ _ r dl k x l EN I Hu (thread_step_widen _ _ u ds0 h tr Hs) Hw) as (r' & dl' & k' & x' & l' & I' & Hu').
  exists ds, r', dl', k', x', l'. split; cbn [base phase]; [by rewrite Ev' | by rewrite Ev' | by apply Hr' | congruence | done |].
  by rewrite Eu.
Qed.

(** ** The collector's steps *)

(** A step that leaves the lists of the reclaimers and of the retirees alone:
    the collector draws on its supply of buffers, and shifts the nodes it has
    in hand. *)
Lemma inv_supplies c c' r dl k x l dl' l' :
  cycle_inv N c r dl k x l ->
  holders c' = holders c -> freed_nodes (common c') = freed_nodes (common c) -> retired c' = retired c ->
  (g_first_retiree_buffer (buffers c') = g_first_retiree_buffer (buffers c) /\
   g_last_retiree_buffer (buffers c') = g_last_retiree_buffer (buffers c) /\
   g_reclaimer_list (buffers c') = g_reclaimer_list (buffers c) /\
   g_default_capacity (buffers c') = g_default_capacity (buffers c)) ->
  (forall q, q ∈ filling c ++ r ++ dl ++ k ++ x -> store (buffers c') !! q = store (buffers c) !! q) ->
  bchain (store (buffers c')) (g_addr_buffer c') dl' -> filling c' ++ dl' ≡ₚ filling c ++ dl ->
  waiting (buffers c') l' ->
  supply (buffers c') (g_uncollected_data c') (g_dead_references (buffers c')) l' ⊆+
    supply (buffers c) (g_uncollected_data c) (g_dead_references (buffers c)) l ->
  (g_dead_references (buffers c') = g_dead_references (buffers c) \/ g_default_capacity (buffers c) = N) ->
  (g_uncollected_data c' <> 0 -> exists o, store (buffers c') !! g_uncollected_data c' = Some o /\
    aggregate_ok o /\ 0 <= ab_n_addrs o <= ab_capacity o) ->
  (g_dead_references (buffers c') <> 0 -> exists d, store (buffers c') !! g_dead_references (buffers c') = Some d /\
    zlen (ab_addrs d) = N /\ ab_capacity d = N) ->
  (forall q d, store (buffers c') !! q = Some d -> ab_capacity d <= 2 ^ 30) ->
  nodes_of (buffers c') (g_uncollected_data c') dl' ++ transit c' ≡ₚ nodes_of (buffers c) (g_uncollected_data c) dl ++ transit c ->
  cycle_inv N c' r dl' k x l'.
Proof using HN.
  intros I Eh Ef Er (E1 & E2 & E3 & E4) Hst H1 H2 H3 H4 H5 H6 H7 H8 H9.
  pose proof I as [I1 I2 I3 I4 [I5 I5'] I6 I7 I8 I9 I10 I11 I12 I13 (I14 & I15 & I16 & I17)].
  assert (Hk : forall q, q ∈ k ++ x -> store (buffers c') !! q = store (buffers c) !! q)
    by (intros q Hq; apply Hst; by do 3 (apply elem_of_app; right)).
  assert (Epend : pending c' dl' k x ≡ₚ pending c dl k x).
  { unfold pending. rewrite !app_assoc, H9, (dead_of_frame (store (buffers c))) by done. done. }
  assert (Esm : filling c' ++ r ++ dl' ≡ₚ filling c ++ r ++ dl).
  { by rewrite (Permutation_app_comm r dl'), (Permutation_app_comm r dl), !(app_assoc (filling _)), H2. }
  assert (Hbl : 0 ∉ blocks (buffers c')).
  { intros H0. assert (Hin : 0 ∈ supply (buffers c') (g_uncollected_data c') (g_dead_references (buffers c')) l')
      by (unfold supply; by do 3 (apply elem_of_app; right)).
    eapply elem_of_submseteq in Hin; [| exact H4]. unfold supply in Hin. rewrite !elem_of_app, !elem_of_maybe in Hin.
    destruct Hin as [Hin | [[? ?] | [[? ?] | Hin]]]; [by apply (lchain_some _ _ _ _ 0 (wt_chain _ _ I4)) in Hin as [? _] | congruence | congruence |].
    apply I5'. by do 2 (apply elem_of_app; right). }
  split; rewrite ?Eh, ?E4; try done.
  - rewrite E3. eapply lchain_frame; [exact I1 |]. intros q Hq. rewrite Hst; [done |]. rewrite !elem_of_app. clear -Hq. tauto.
  - destruct I3 as [Hch Hnd Hlast]. split; [| done | congruence]. rewrite E1. eapply lchain_frame; [exact Hch |].
    intros q Hq. rewrite Hk; [done | apply elem_of_app; by left].
  - split.
    + eapply submseteq_nodup; [| exact I5]. unfold owned.
      transitivity ((filling c ++ r ++ dl) ++ k ++ x ++ supply (buffers c') (g_uncollected_data c') (g_dead_references (buffers c')) l').
      * rewrite <- Esm. apply Permutation_submseteq. perm.
      * transitivity ((filling c ++ r ++ dl) ++ k ++ x ++ supply (buffers c) (g_uncollected_data c) (g_dead_references (buffers c)) l);
          [by do 3 (apply submseteq_app; [done |]) | apply Permutation_submseteq; perm].
    + rewrite !not_elem_of_app in I5'. rewrite !not_elem_of_app. split; [| split; [apply I5' | done]]. intros H0. assert (Hin : 0 ∈ filling c' ++ r ++ dl') by (apply elem_of_app; by left).
      rewrite Esm in Hin. by destruct (small_lookup _ _ _ _ _ _ _ _ I Hin).
  - intros q Hq. rewrite Esm in Hq. rewrite Hst; [by apply I6 |]. rewrite !elem_of_app in Hq. rewrite !elem_of_app. clear -Hq. tauto.
  - destruct H5 as [-> | ?]; [| by left]. destruct I7 as [? | (? & El & ?)]; [by left | right]. split_and!; try done.
    rewrite El in Esm. by apply Permutation_nil, symmetry.
  - intros q Hq. rewrite Hk by done. by apply I10.
  - intros t b Hin. destruct (I11 t b Hin) as [[B1 B1'] B2 B3 B4]. split; try done. split; [done |]. by rewrite Hk.
  - intros q d Hq. rewrite Hk by (apply elem_of_app; by left). by apply I12.
  - split; [| split; [| split]]; [by rewrite Er, Ef, Epend | by rewrite Epend | |].
    + intros v. rewrite Epend. apply I16.
    + unfold zlen in *. by rewrite Epend.
Qed.
(** One of the buffers that were handed in goes back to the reclaimers. *)
Lemma releases_small c r dl k x l f1 p f2 d : cycle_inv N c r dl k x l -> filling c = f1 ++ p :: f2 -> store (buffers c) !! p = Some d ->
  forkscan_release_buffer p (buffers c) =
    Ok (set_reclaimer_list (set_store (buffers c) (<[p := with_next (g_reclaimer_list (buffers c)) d]> (store (buffers c)))) p).
Proof using HN.
  intros I Ef Hd. assert (Hin : p ∈ filling c ++ r ++ dl) by (rewrite Ef; apply elem_of_app; left; apply elem_of_mid).
  destruct (small_lookup _ _ _ _ _ _ _ _ I Hin) as (H0 & e & He & [G1 G2 G3 G4 G5]). rewrite Hd in He. injection He as <-.
  assert (Hdef : g_default_capacity (buffers c) = N).
  { destruct (ci_default _ _ _ _ _ _ _ I) as [? | (_ & El & _)]; [done |]. rewrite El in Hin. by apply not_elem_of_nil in Hin. }
  assert (Hk : p ∉ k).
  { intros Hk. destruct (ci_owned _ _ _ _ _ _ _ I) as [Hnd _]. destruct (owned_apart _ _ _ _ _ _ p Hnd ltac:(apply elem_of_app; by left)) as [Hn _]. by apply Hn. }
  destruct (retiree_ends (buffers c) k p (ci_retirees _ _ _ _ _ _ _ I) Hk H0) as [N1 N2].
  assert (Hw : wp (forkscan_release_buffer p (buffers c)) (fun s' => s' =
    set_reclaimer_list (set_store (buffers c) (<[p := with_next (g_reclaimer_list (buffers c)) d]> (store (buffers c)))) p))
    by (apply (release_reclaimer_wp _ _ d); try done; congruence).
  apply wp_iff in Hw as (s' & -> & ->). done.
Qed.

Lemma inv_gives_back c r dl k x l f1 p f2 d s' : cycle_inv N c r dl k x l -> filling c = f1 ++ p :: f2 ->
  store (buffers c) !! p = Some d -> forkscan_release_buffer p (buffers c) = Ok s' ->
  cycle_inv N (set_filling (set_buffers c s') (f1 ++ f2)) (p :: r) dl k x l /\
  (forall q, q <> p -> store s' !! q = store (buffers c) !! q).
Proof using HN.
  intros I Ef Hd E. rewrite (releases_small _ _ _ _ _ _ _ _ _ _ I Ef Hd) in E. injection E as <-.
  assert (Hin : p ∈ filling c ++ r ++ dl) by (rewrite Ef; apply elem_of_app; left; apply elem_of_mid).
  destruct (small_lookup _ _ _ _ _ _ _ _ I Hin) as (H0 & e & He & Hok). rewrite Hd in He. injection He as <-.
  pose proof I as [I1 I2 I3 I4 [I5 I5'] I6 I7 I8 I9 I10 I11 I12 I13 (I14 & I15 & I16 & I17)].
  set (m := <[p := with_next (g_reclaimer_list (buffers c)) d]> (store (buffers c))).
  assert (Hst : forall q, q <> p -> m !! q = store (buffers c) !! q) by (intros q Hq; unfold m; by rewrite lookup_insert_ne).
  assert (Hn : p ∉ (f1 ++ f2) ++ r ++ dl).
  { assert (Hp : owned c r dl k x l ≡ₚ p :: ((f1 ++ f2) ++ r ++ dl) ++ k ++ x ++
      supply (buffers c) (g_uncollected_data c) (g_dead_references (buffers c)) l) by (unfold owned; rewrite Ef; perm).
    rewrite Hp in I5. apply NoDup_cons in I5 as [Hn _]. by apply not_elem_of_app in Hn as [? _]. }
  assert (Hst' : forall q, q ∈ (f1 ++ f2) ++ r ++ dl -> m !! q = store (buffers c) !! q) by (intros q Hq; apply Hst; by intros ->).
  split; [| exact Hst]. eapply (inv_frame N HN c _ r dl k x l (p :: r) dl []); try done; cbn; fold m.
  - intros q Hq. apply Hst. intros ->. apply Hq. rewrite !elem_of_app in *. tauto.
  - split; [done |]. split; [done |]. eexists. split; [apply lookup_insert_eq |]. cbn.
    eapply lchain_frame; [exact I1 |]. intros q Hq. rewrite Hst'; [done |]. rewrite !elem_of_app. tauto.
  - eapply lchain_frame; [exact I2 |]. intros q Hq. rewrite Hst'; [done |]. rewrite !elem_of_app. tauto.
  - eapply NoDup_Permutation_proper; [| exact I5]. unfold owned, supply. cbn. rewrite Ef. perm.
  - rewrite Ef in I5'. rewrite !not_elem_of_app, ?not_elem_of_cons in *. tauto.
  - intros q Hq. destruct (decide (q = p)) as [-> | Hne].
    + unfold m. rewrite lookup_insert_eq. eexists. split; [done |]. by destruct Hok; split.
    + rewrite Hst by done. apply I6. rewrite Ef. clear -Hq Hne. rewrite ?elem_of_app, ?elem_of_cons, ?elem_of_app in *. tauto.
  - destruct I7 as [? | (_ & I7 & _)]; [by left |]. by rewrite I7 in Hin; apply not_elem_of_nil in Hin.
  - intros q e. unfold m. rewrite store_lookup. case_decide; [intros [= <-]; by apply (I13 p d) | by apply I13].
  - rewrite (contents_frame (store (buffers c))); [done |]. intros q Hq. apply Hst'. rewrite !elem_of_app. tauto.
  - intros v Hv. by apply not_elem_of_nil in Hv.
Qed.
Lemma maybe_some p : p <> 0 -> maybe p = [p].
Proof using Type. unfold maybe. by intros ->%Z.eqb_neq. Qed.

(** The supply is apart from the lists. *)
Lemma others_apart c r dl k x l q : cycle_inv N c r dl k x l -> q ∈ filling c ++ r ++ dl ++ k ++ x ->
  q <> 0 /\ (q ∉ supply (buffers c) (g_uncollected_data c) (g_dead_references (buffers c)) l).
Proof using HN.
  intros I Hq. split.
  - assert (Hq' : q ∈ (filling c ++ r ++ dl) ++ (k ++ x)) by (by rewrite <- !app_assoc).
    apply elem_of_app in Hq' as [Hq' | Hq']; [by apply (small_lookup _ _ _ _ _ _ _ _ I) | by apply (retired_lookup _ _ _ _ _ _ _ _ I)].
  - destruct (ci_owned _ _ _ _ _ _ _ I) as [Hnd _]. unfold owned in Hnd. rewrite !app_assoc in Hnd.
    apply NoDup_app in Hnd as (_ & D & _). apply D. by rewrite <- !app_assoc.
Qed.

(** The buffers are gathered. *)
Lemma inv_gathers c r dl k x l wd f s' : cycle_inv N c r dl k x l -> may_iterate c dl -> transit c = [] ->
  aggregate_addrs (g_uncollected_data c) (g_addr_buffer c) (buffers c) = Ok (wd, f, s') ->
  exists l', cycle_inv N (widen (set_collector c s' 0 0) wd dl [] []) r [] k x l' /\
    wd <> 0 /\ bchain (store s') (g_addr_buffer c) dl /\
    content_at (store s') wd = nodes_of (buffers c) (g_uncollected_data c) dl /\
    dead_of (store s') k = dead_of (store (buffers c)) k /\ g_default_capacity s' = g_default_capacity (buffers c) /\
    (length (blocks (buffers c)) <= Datatypes.S (length (blocks s')))%nat.
Proof using HN.
  intros I M Ht E. pose proof (inv_collect_ready N HN _ _ _ _ _ _ I M) as C.
  destruct (cr_blocks _ _ _ _ _ _ _ C) as [Hlen _]. destruct (blocks (buffers c)) as [|b bs] eqn:Eb; [cbn in Hlen; lia |].
  pose proof (aggregate_wp _ _ _ _ _ _ (collect_gather _ _ _ _ _ _ _ b bs C Eb)) as Hw. rewrite E in Hw. destruct Hw as [_ Hcol].
  fold (nodes_of (buffers c) (g_uncollected_data c) dl) in Hcol. destruct (cr_nodes _ _ _ _ _ _ _ C) as (Hz & _ & _).
  destruct (collected_staged _ _ _ _ _ _ _ b bs wd s' C Eb Hcol) as (w & l1 & S & [Ha _ [En Ec]] & Hcap & G & Hst).
  destruct (sg_data _ _ _ _ _ _ _ _ S) as [Hwd H0]. pose proof (ag_addrs _ Ha) as Hza.
  pose proof Hcol as (w0 & c0 & _ & Hw0 & [_ Ec0 _] & [Hnc _] & _). rewrite Hwd in Hw0. injection Hw0 as <-.
  destruct (gf_heads _ _ _ _ _ _ _ G) as (G1 & G2 & G3 & G4 & G5).
  assert (Hct : content_at (store s') wd = nodes_of (buffers c) (g_uncollected_data c) dl).
  { rewrite (content_at_some _ _ w) by done. unfold content. by rewrite En. }
  assert (Hsup : forall q, q <> 0 -> q ∈ wd :: g_uncollected_data c :: l ->
    q ∈ supply (buffers c) (g_uncollected_data c) (g_dead_references (buffers c)) l).
  { assert (Hin : forall q, q <> 0 -> q = g_uncollected_data c \/ q = b \/ (q ∈ l) -> q ∈ supply (buffers c) (g_uncollected_data c) (g_dead_references (buffers c)) l).
    { intros q Hq. unfold supply. rewrite Eb, !elem_of_app, !elem_of_maybe, elem_of_cons. clear -Hq. intros [-> | [-> | ?]]; tauto. }
    intros q Hq. rewrite !elem_of_cons. pose proof (gf_data _ _ _ _ _ _ _ G). intros [-> | ?]; apply Hin; tauto. }
  exists l1. split; [| split; [done |]; split; [apply S |]; split; [done |]; split; [| split; [done |]]].
  2: { apply dead_of_frame. intros q Hq. apply Hst. rewrite !elem_of_app. tauto. }
  2: { rewrite <- Eb. destruct (gf_block _ _ _ _ _ _ _ G) as [[E1 _] | [E1 _]]; rewrite E1; cbn; lia. }
  eapply (inv_supplies c _ r dl k x l [] l1 I); change (buffers (widen _ _ _ _ _)) with s'; cbn; try done.
  - by rewrite app_nil_r.
  - intros q Hq. destruct (others_apart _ _ _ _ _ _ q I Hq) as [Hq0 Hqs]. apply (gf_frame _ _ _ _ _ _ _ G). intros Hin. by apply Hqs, Hsup.
  - by rewrite app_nil_r.
  - apply S.
  - destruct (sg_apart _ _ _ _ _ _ _ _ S) as [Hnd Hl1]. rewrite G5. apply NoDup_submseteq.
    + unfold supply. apply NoDup_app. split; [apply (wt_nodup _ _ (sg_waiting _ _ _ _ _ _ _ _ S)) |].
      rewrite (maybe_some wd H0). split.
      * intros q Hq Hin. apply (Hl1 q Hq). cbn in Hin. rewrite elem_of_cons in Hin. rewrite elem_of_cons, !elem_of_app in *. tauto.
      * cbn. eapply sublist_NoDup; [exact Hnd |]. apply sublist_skip. rewrite app_assoc. apply sublist_inserts_l. done.
    + intros q Hq. unfold supply in Hq. rewrite !elem_of_app, elem_of_maybe in Hq. destruct Hq as [Hq | [[-> _] | [Hq | Hq]]].
      * apply Hsup; [by apply (lchain_some _ _ _ _ q (wt_chain _ _ (sg_waiting _ _ _ _ _ _ _ _ S))) |].
        destruct (gf_waiting _ _ _ _ _ _ _ G q Hq) as [-> | ?]; [right; left | by right; right].
      * apply Hsup; [done | left].
      * unfold supply. rewrite !elem_of_app. tauto.
      * unfold supply. rewrite !elem_of_app. do 3 right. destruct (gf_block _ _ _ _ _ _ _ G) as [[<- _] | [-> _]]; [done | by right].
  - by left; rewrite G5.
  - intros _. exists w. split; [done |]. split; [done |]. rewrite En. pose proof (zlen_nonneg (nodes_of (buffers c) (g_uncollected_data c) dl)). lia.
  - rewrite G5. intros Hd. rewrite Hst by (rewrite !elem_of_app, elem_of_maybe; tauto). by apply (ci_dead _ _ _ _ _ _ _ I).
  - apply (gf_sizes _ _ _ _ _ _ _ G).
  - rewrite Ht. unfold nodes_of at 1. cbn. by rewrite Hct, !app_nil_r.
Qed.
(** The working data, and what is to be given back, as [Collect] has them. *)
Lemma view_staged c wd p ds r dl k x l w : cycle_inv N (widen c wd ds [] []) r dl k x l -> wd <> 0 ->
  bchain (store (buffers c)) p ds -> (ds <> []) -> store (buffers c) !! wd = Some w ->
  g_default_capacity (buffers c) = N /\ staged (buffers c) wd p ds k l (maybe (g_dead_references (buffers c))) w.
Proof using HN.
  intros I H0 Hch Hds Hw. assert (Hdef : g_default_capacity (buffers c) = N).
  { destruct (ci_default _ _ _ _ _ _ _ I) as [? | (_ & El & _)]; [done |]. cbn in El. apply app_eq_nil in El as [El _]. by apply app_eq_nil in El as [_ ?]. }
  split; [done |]. pose proof (ci_owned _ _ _ _ _ _ _ I) as [Hnd _]. unfold owned, supply in Hnd. cbn in Hnd.
  change (buffers (widen c wd ds [] [])) with (buffers c) in Hnd. rewrite (maybe_some wd H0) in Hnd.
  assert (Hp : (filling c ++ ds) ++ r ++ dl ++ k ++ x ++ l ++ [wd] ++ maybe (g_dead_references (buffers c)) ++ blocks (buffers c) ≡ₚ
    l ++ (wd :: ds ++ k ++ maybe (g_dead_references (buffers c)) ++ blocks (buffers c)) ++ filling c ++ r ++ dl ++ x) by perm.
  rewrite Hp in Hnd. apply NoDup_app in Hnd as (_ & D & Hnd). split; [done | apply I | apply I | done | | ].
  - intros q d Hq Hd. destruct (ci_small _ _ _ _ _ _ _ I q) as (e & He & [G1 G2 _ _ _]); [cbn; rewrite !elem_of_app; tauto |].
    change (buffers (widen c wd ds [] [])) with (buffers c) in He. rewrite Hd in He. injection He as <-. split; congruence.
  - apply NoDup_app in Hnd as (Hnd & _ & _). split; [done |]. intros q Hq. by apply (D q) in Hq as [? _]%not_elem_of_app.
Qed.

(** The table of dead references is made, or filled anew. *)
Lemma table_made c wd p ds r dl k x l w : cycle_inv N (widen c wd ds [] []) r dl k x l -> wd <> 0 ->
  bchain (store (buffers c)) p ds -> (ds <> []) -> store (buffers c) !! wd = Some w -> (blocks (buffers c) <> []) ->
  wp (forkscan_buffer_get_dead_references (buffers c)) (fun '(p2, s2) => p2 <> 0 /\ staged s2 wd p ds k l [p2] w /\
    (exists d, store s2 !! p2 = Some d /\ table N (take (Z.to_nat N) (dead_of (store (buffers c)) k)) d) /\
    dead_frame (buffers c) p2 s2 /\ maybe (g_dead_references (buffers c)) ++ blocks (buffers c) = p2 :: blocks s2).
Proof using HN.
  intros I H0 Hch Hds Hw Hb. destruct (view_staged _ _ _ _ _ _ _ _ _ _ I H0 Hch Hds Hw) as [Hdef S].
  pose proof I as [_ _ _ _ [_ I5'] _ _ I8 I9 I10 _ _ I13 _].
  change (buffers (widen c wd ds [] [])) with (buffers c) in *. cbn [filling widen] in I5'.
  eapply (staged_dead (buffers c)); try done; [lia | rewrite !not_elem_of_app in I5'; tauto |].
  intros q e Hq He. destruct (I10 q) as (d & Hd & [A1 _ A3 _ _] & _); [apply elem_of_app; by left |].
  rewrite He in Hd. injection Hd as <-. pose proof (ag_addrs _ A1) as Hz. cbn in Hz. lia.
Qed.

(** It is sorted. *)
Lemma inv_tables c wd p ds r dl k x l w p2 s' d1 : cycle_inv N (widen c wd ds [] []) r dl k x l -> wd <> 0 ->
  bchain (store (buffers c)) p ds -> (ds <> []) -> store (buffers c) !! wd = Some w -> (blocks (buffers c) <> []) ->
  forkscan_buffer_get_dead_references (buffers c) = Ok (p2, s') ->
  p2 <> 0 /\ (forall q, q <> p2 -> store s' !! q = store (buffers c) !! q) /\ wd <> p2 /\ (p2 ∉ ds) /\
  (length (blocks (buffers c)) <= Datatypes.S (length (blocks s')))%nat /\
  exists d, store s' !! p2 = Some d /\ dead_table d /\ content d = take (Z.to_nat N) (dead_of (store (buffers c)) k) /\
    (same_shape d d1 -> cycle_inv N (widen (set_buffers c (set_store s' (<[p2 := d1]> (store s')))) wd ds [] []) r dl k x l).
Proof using HN.
  intros I H0 Hch Hds Hw Hb E. pose proof (table_made _ _ _ _ _ _ _ _ _ _ I H0 Hch Hds Hw Hb) as Hw2.
  destruct (view_staged _ _ _ _ _ _ _ _ _ _ I H0 Hch Hds Hw) as [Hdef _].
  rewrite E in Hw2. destruct Hw2 as (Hp2 & S2 & (d & Hd & Ht) & (Hst & E1 & E2 & E3 & E4 & E5 & E6 & _) & Ebl).
  pose proof I as [_ _ _ _ _ _ _ I8 I9 I10 _ _ I13 (_ & I15 & I16 & _)].
  change (buffers (widen c wd ds [] [])) with (buffers c) in *.
  assert (Hdn : NoDup (dead_of (store (buffers c)) k) /\ forall v, v ∈ dead_of (store (buffers c)) k -> 0 < v).
  { unfold pending in I15, I16. change (buffers (widen c wd ds [] [])) with (buffers c) in *. rewrite dead_of_app in I15, I16.
    apply NoDup_app in I15 as (_ & _ & (_ & _ & (? & _ & _)%NoDup_app)%NoDup_app). split; [done |].
    intros v Hv. destruct (I16 v) as (_ & ? & _); [rewrite !elem_of_app; tauto | lia]. }
  destruct (table_dead N d (store (buffers c)) k ltac:(lia) Ht) as [Hdt Ect]; [by destruct Hdn..|].
  destruct (staged_apart _ _ _ _ _ _ _ _ S2) as [Hnd Hap]. apply NoDup_app in Hnd as (_ & _ & [Hwp _]%NoDup_cons).
  assert (Hne : wd <> p2) by (intros ->; apply Hwp; left).
  assert (Hpds : p2 ∉ ds) by (intros Hin; destruct (Hap p2) as [Hn _]; [apply elem_of_app; by left | apply Hn; apply elem_of_app; right; right; left]).
  assert (Hps : p2 ∈ supply (buffers c) wd (g_dead_references (buffers c)) l).
  { unfold supply. do 2 (apply elem_of_app; right). rewrite Ebl. left. }
  do 4 (split; [done |]).
  split; [apply (f_equal length) in Ebl; rewrite length_app in Ebl; cbn in Ebl; lia |]. exists d. split; [done |]. split; [done |]. split; [done |]. intros Hsh.
  assert (Hst2 : forall q, q <> p2 -> <[p2 := d1]> (store s') !! q = store (buffers c) !! q) by (intros q Hq; rewrite lookup_insert_ne by done; by apply Hst).
  assert (Hout : forall q, q ∈ (filling c ++ ds) ++ r ++ dl ++ k ++ x -> q <> p2).
  { intros q Hq ->. by destruct (others_apart _ _ _ _ _ _ p2 I Hq). }
  eapply (inv_supplies _ _ r dl k x l dl l I); change (buffers (widen c wd ds [] [])) with (buffers c);
    change (buffers (widen (set_buffers c ?s) wd ds [] [])) with s; cbn; try done.
  - intros q Hq. by apply Hst2, Hout.
  - eapply lchain_frame; [apply I |]. intros q Hq. rewrite Hst2; [done |]. apply Hout. rewrite !elem_of_app. tauto.
  - apply (waiting_frame s'); [apply S2 | done |]. intros q Hq. cbn. rewrite lookup_insert_ne; [done |]. intros <-.
    destruct (sg_apart _ _ _ _ _ _ _ _ S2) as [_ Hl]. apply (Hl p2 Hq). right. rewrite !elem_of_app. do 2 right. left. left.
  - rewrite E6. unfold supply. cbn. rewrite (maybe_some p2 Hp2). apply Permutation_submseteq. do 2 f_equiv. by rewrite Ebl.
  - by right.
  - intros _. rewrite Hst2 by done. by apply I8.
  - intros _. rewrite E6, lookup_insert_eq. exists d1. split; [done |]. rewrite (sh_addrs _ _ Hsh), (sh_capacity _ _ Hsh). split; apply Ht.
  - intros q e. rewrite store_lookup. case_decide; [intros [= <-]; rewrite (sh_capacity _ _ Hsh), (tb_capacity _ _ _ Ht); lia | rewrite Hst by done; apply I13].
  - unfold nodes_of, content_at. cbn. rewrite Hst2 by done. f_equiv. f_equiv. apply reflexive_eq, contents_frame. intros q Hq. apply Hst2, Hout. rewrite !elem_of_app. tauto.
Qed.
(** The working data are fit to be prepared for the scan. *)
Lemma data_gathered c wd ds r dl k x l w : cycle_inv N (widen c wd ds [] []) r dl k x l -> wd <> 0 ->
  store (buffers c) !! wd = Some w -> (content_at (store (buffers c)) wd <> []) ->
  gathered w /\ NoDup (content w) /\ aggregate_ok w /\ 0 < ab_n_addrs w <= ab_capacity w.
Proof using HN.
  intros I H0 Hw Hne. rewrite (content_at_some _ _ w) in Hne by done.
  destruct (ci_old _ _ _ _ _ _ _ I H0) as (o & Ho & Ha & Hn). change (buffers (widen c wd ds [] [])) with (buffers c) in Ho. cbn in Ho.
  rewrite Hw in Ho. injection Ho as <-. pose proof (ag_addrs _ Ha) as Hz.
  assert (Hc : zlen (content w) = ab_n_addrs w) by (apply zlen_first_n; lia).
  assert (Hpos : 0 < zlen (content w)).
  { destruct (content w) as [|v vs]; [done |]. rewrite zlen_cons. pose proof (zlen_nonneg vs). lia. }
  destruct (ci_nodes _ _ _ _ _ _ _ I) as (_ & Hnd & Hok & Hlen). unfold pending, nodes_of in Hnd, Hok, Hlen.
  change (buffers (widen c wd ds [] [])) with (buffers c) in *. cbn [g_uncollected_data widen] in *.
  rewrite (content_at_some _ _ w) in Hnd, Hok, Hlen by done. rewrite !zlen_app in Hlen.
  assert (Hnd' : NoDup (content w)) by (rewrite <- app_assoc in Hnd; by apply NoDup_app in Hnd as (? & _ & _)).
  assert (Hcap : ab_capacity w <= 2 ^ 30) by apply (ci_sizes _ _ _ _ _ _ _ I wd w Hw).
  destruct (collecting_gathered w (content w)) as [Hg _]; try done; try lia.
  - split; [done | done |]. unfold carries. by rewrite Hc.
  - unfold zlen in *. lia.
  - intros v Hv. destruct (Hok v) as (? & ? & ?); [rewrite !elem_of_app; tauto | done].
  - split_and!; try done; lia.
Qed.

(** The snapshot: the child's answer is the working data, marked. *)
Lemma inv_snapshots scan pre must may c wd p ds r dl k x l c' w' `{!Scanner pre must may scan} :
  cycle_inv N (widen c wd ds [] []) r dl k x l -> wd <> 0 -> bchain (store (buffers c)) p ds -> (ds <> []) ->
  (content_at (store (buffers c)) wd <> []) -> snapshot pre scan c wd c' w' ->
  exists s2 w, c' = set_buffers c s2 /\ cycle_inv N (widen c' wd ds [] []) r dl k x l /\ bchain (store s2) p ds /\
    store (buffers c) !! wd = Some w /\ store s2 !! wd = Some w /\ scanned w w' /\ kept must may (content w) (content w').
Proof using HN.
  intros I H0 Hch Hds Hne [p2 s' w d w1 d1 w2 s2 Hb E [_ Hw]%buf_load_inv [_ Hd]%buf_load_inv Ep Hpre Es (d0 & _ & Hd0 & ->)%buf_modify_inv].
  destruct (ci_old _ _ _ _ _ _ _ I H0) as (o & Ho & _). change (buffers (widen c wd ds [] [])) with (buffers c) in Ho. cbn in Ho.
  destruct (inv_tables _ _ _ _ _ _ _ _ _ _ _ _ d1 I H0 Hch Hds Ho Hb E) as (Hp2 & Hst & Hwp & Hpds & _ & d2 & Hd2 & Hdt & _ & Hinv).
  rewrite Hst, Ho in Hw by done. injection Hw as ->. rewrite Hd in Hd0, Hd2. injection Hd0 as <-. injection Hd2 as <-.
  destruct (data_gathered _ _ _ _ _ _ _ _ _ I H0 Ho Hne) as (Hg & Hnd & Ha & Hn).
  pose proof (prepare_wp w d Hg Hnd Hdt) as Hp. rewrite Ep in Hp. destruct Hp as (Hwf & [En Hperm] & _ & _ & _ & Hsw & Hsd).
  pose proof (scanner_marks w1 d1 Hpre) as Hs. rewrite Es in Hs. destruct Hs as ([M1 M2 M3 M4] & Hmust & Hmay).
  assert (Hc1 : content w1 ≡ₚ content w) by (unfold content; by rewrite En).
  assert (Hal : forall v, v ∈ content w -> size_ok v /\ aligned4 v) by (intros v Hv; by destruct (gathered_pos w v Hg Hv) as (? & _ & ?)).
  assert (Hnodes : PTR_MASK <$> content w2 ≡ₚ content w) by (rewrite M3, Hc1; by rewrite list_fmap_id_aligned).
  assert (Hst2 : forall q, q <> p2 -> store (set_store s' (<[p2 := d1]> (store s'))) !! q = store (buffers c) !! q)
    by (intros q Hq; cbn; rewrite lookup_insert_ne by done; by apply Hst).
  eexists _, w. split; [done |]. split; [by apply Hinv |]. split; [| split; [done |]; split; [by rewrite Hst2 |]; split].
  - eapply lchain_frame; [exact Hch |]. intros q Hq. rewrite Hst2; [done |]. by intros ->.
  - split; [split; [lia | congruence] | | done | done]. destruct Hsw, M2. split; congruence.
  - pose proof (wf_n _ Hwf). pose proof (wf_room _ Hwf). pose proof (sh_addrs _ _ M2).
    apply (marks_kept must may w1 w2); try done; [lia | lia |]. intros v Hv. by apply Hal.
Qed.
(** *** The working data are pushed *)

Section pushed.
Context (c : cycle_t) (wd : Z) (r dl k x l : list Z) (d w : addr_buffer_t) (s1 s' : buffers_t).
Hypotheses (I : cycle_inv N (widen c wd [] [] []) r dl k x l) (H0 : wd <> 0) (Hd : store (buffers c) !! wd = Some d) (Hsc : scanned d w).
Hypotheses (E1 : buf_modify (buffers c) wd (fun _ => w) = Ok s1) (E2 : forkscan_buffer_push_back wd s1 = Ok s').
Let w1 := with_fields w 0 (ab_n_addrs w) 1 0.
Let h1 := holders c ++ [(mk_place wd 0 0, Dividing)].

(** What is not a retiree stays, the retirees but for their links. *)
Lemma pushed_store : retirees s' (k ++ [wd]) /\ store s' !! wd = Some w1 /\
  (forall q, (q ∉ wd :: k) -> store s' !! q = store (buffers c) !! q) /\ other_heads (buffers c) s' /\
  (forall q e, q <> wd -> store (buffers c) !! q = Some e -> exists v, store s' !! q = Some (with_next v e)).
Proof using All.
  destruct (view_apart _ _ _ _ _ _ _ _ _ _ wd I ltac:(by right)) as [_ Hk]. apply not_elem_of_app in Hk as [Hk _].
  apply buf_modify_inv in E1 as (e & _ & _ & ->).
  set (s1 := set_store (buffers c) (<[wd := w]> (store (buffers c)))) in *.
  assert (Hr : retirees s1 k).
  { apply (same_heads_frame (buffers c)); [apply (ci_retirees _ _ _ _ _ _ _ I) | done |]. intros q Hq. cbn. rewrite lookup_insert_ne; [done | by intros ->]. }
  pose proof (push_back_wp s1 k wd w Hr Hk H0 ltac:(cbn; apply lookup_insert_eq)) as Hw. rewrite E2 in Hw.
  destruct Hw as (P1 & P2 & P3 & P4 & P5). split; [done |]. split; [done |]. split; [| split; [done |]].
  - intros q Hq. rewrite P3 by done. cbn. rewrite lookup_insert_ne; [done |]. intros ->. apply Hq. left.
  - intros q e' Hq He. apply P5; [done |]. cbn. by rewrite lookup_insert_ne.
Qed.

(** Outside of the retirees and the working data. *)
Lemma pushed_same q : q ∈ (filling c ++ r ++ dl ++ x) ++ l ++ maybe (g_dead_references (buffers c)) -> store s' !! q = store (buffers c) !! q.
Proof using All.
  intros Hq. apply pushed_store. destruct (ci_owned _ _ _ _ _ _ _ I) as [Hnd _]. unfold owned, supply in Hnd. cbn in Hnd.
  change (buffers (widen c wd [] [] [])) with (buffers c) in Hnd. rewrite (maybe_some wd H0), app_nil_r in Hnd.
  assert (Hp : filling c ++ r ++ dl ++ k ++ x ++ l ++ [wd] ++ maybe (g_dead_references (buffers c)) ++ blocks (buffers c) ≡ₚ
    ((filling c ++ r ++ dl ++ x) ++ l ++ maybe (g_dead_references (buffers c))) ++ (wd :: k) ++ blocks (buffers c)) by perm.
  rewrite Hp in Hnd. apply NoDup_app in Hnd as (_ & D & _). intros Hin. apply (D q Hq), elem_of_app. by left.
Qed.

Lemma pushed_kept q e : q ∈ k ++ x -> store (buffers c) !! q = Some e -> q <> wd /\ exists v, store s' !! q = Some (with_next v e).
Proof using All.
  intros Hq He. destruct (view_apart _ _ _ _ _ _ _ _ _ _ wd I ltac:(by right)) as [_ Hk].
  assert (Hne : q <> wd) by (by intros ->). split; [done |]. by apply pushed_store.
Qed.

Lemma pushed_refs q : refs h1 q = ((if Z.eq_dec wd q then 1 else 0) + refs (holders c) q)%nat /\ forall i, cover h1 q i = cover (holders c) q i.
Proof using Type.
  unfold h1. rewrite refs_mid, app_nil_r. split; [done |]. intros i. rewrite cover_mid, app_nil_r, covers_false; [done | right; cbn; lia].
Qed.

Lemma pushed_unheld : refs (holders c) wd = 0%nat.
Proof using All.
  destruct (refs (holders c) wd) eqn:E; [done |]. destruct (refs_holder (holders c) wd) as (t & b & Hin & Et); [lia |].
  destruct (view_apart _ _ _ _ _ _ _ _ _ _ wd I ltac:(by right)) as [_ Hk]. destruct Hk. rewrite <- Et.
  apply (ho_buffer _ _ _ _ _ (ci_holders _ _ _ _ _ _ _ I t b ltac:(cbn; by rewrite app_nil_r))).
Qed.

Lemma pushed_retired q : q ∈ (k ++ [wd]) ++ x ->
  exists e, store s' !! q = Some e /\ retiree_ok h1 q e /\ (q ∈ x -> ab_free_idx e = ab_n_addrs e).
Proof using All.
  intros Hq. destruct (decide (q = wd)) as [-> | Hne].
  - exists w1. split; [apply pushed_store |]. destruct (view_apart _ _ _ _ _ _ _ _ _ _ wd I ltac:(by right)) as [_ Hk].
    split; [| intros Hx; destruct Hk; apply elem_of_app; by right].
    destruct (ci_old _ _ _ _ _ _ _ I H0) as (o & Ho & Ha & Hn). change (buffers (widen c wd [] [] [])) with (buffers c) in Ho. cbn in Ho.
    rewrite Hd in Ho. injection Ho as <-. destruct Hsc as [[N1 N2] Hsh _ Hent].
    destruct (pushed_refs wd) as [Er _]. split; cbn.
    + exact (aggregate_reshaped d w 0 (ab_n_addrs w) 0 Ha Hsh).
    + rewrite Er, pushed_unheld. by destruct (Z.eq_dec wd wd).
    + rewrite (sh_capacity _ _ Hsh). lia.
    + intros i Hi. lia.
    + intros i Hi. apply Hent. unfold content. pose proof (ag_addrs _ Ha). rewrite <- (sh_addrs _ _ Hsh) in *. apply first_n_elem; [lia | by exists i].
  - assert (Hq' : q ∈ k ++ x) by (rewrite !elem_of_app, list_elem_of_singleton in *; tauto).
    destruct (ci_retired _ _ _ _ _ _ _ I q Hq') as (e & He & Hok & Hx). cbn [holders widen] in Hok. rewrite app_nil_r in Hok.
    destruct (pushed_kept q e Hq' He) as [_ [v Hv]]. destruct (pushed_refs q) as [Er Ec].
    exists (with_next v e). split; [done |]. split; [| exact Hx]. apply with_next_retiree. eapply retiree_other; [exact Hok | | exact Ec].
    rewrite Er. by destruct (Z.eq_dec wd q).
Qed.

Lemma pushed_holders t b : (t, b) ∈ h1 -> holder_ok (store s') (k ++ [wd]) x t b.
Proof using All.
  intros [Hin | [= -> ->]%list_elem_of_singleton]%elem_of_app.
  - destruct (ci_holders _ _ _ _ _ _ _ I t b ltac:(cbn; by rewrite app_nil_r)) as [[B1 B1'] B2 B3 B4].
    destruct (ci_retired _ _ _ _ _ _ _ I _ B2) as (f & Hf & _). destruct (pushed_kept _ f B2 Hf) as [Hne [v Hv]]. split; [| | | done].
    + split; [done |]. intros e He. rewrite Hv in He. injection He as <-. exact (B1' f Hf).
    + rewrite !elem_of_app in *. tauto.
    + intros Hb [Hk | Ew%list_elem_of_singleton]%elem_of_app; [| done]. by rewrite (head_app _ _ _ Hk), B3.
  - split; cbn; [split; [lia |] | | done | done].
    + intros e He. rewrite (proj1 (proj2 pushed_store)) in He. by injection He as <-.
    + rewrite !elem_of_app. left. right. left.
Qed.

Lemma pushed_left : left_of (set_buffers c s') wd 0 = survivors (content w).
Proof using All.
  unfold left_of. change (buffers (set_buffers c s')) with s'. by rewrite (content_at_some (store s') wd w1) by (done || apply pushed_store).
Qed.

Lemma pushed_pending : transit c = [] ->
  pending (widen (set_buffers c s') 0 [] [(mk_place wd 0 0, Dividing)] (left_of (set_buffers c s') wd 0)) dl (k ++ [wd]) x ≡ₚ
  pending (widen c wd [] [] []) dl k x.
Proof using All.
  intros Ht. unfold pending, nodes_of. change (buffers (widen (set_buffers c s') _ _ _ _)) with s'.
  change (buffers (widen c wd [] [] [])) with (buffers c). cbn [g_uncollected_data transit widen content_at Z.eqb].
  rewrite (content_at_some (store (buffers c)) wd d) by done.
  assert (Ew : dead_of (store s') [wd] = garbage (content w)).
  { unfold dead_of. cbn. rewrite (proj1 (proj2 pushed_store)), app_nil_r. apply (dead_in_garbage N HN w1), Hsc. }
  assert (Ek : forall ks, (forall q, q ∈ ks -> q ∈ k ++ x) -> dead_of (store s') ks = dead_of (store (buffers c)) ks).
  { unfold dead_of. induction ks as [|q ks IH]; intros Hks; [done |]. cbn. rewrite IH by (intros y Hy; apply Hks; by right).
    destruct (ci_retired _ _ _ _ _ _ _ I q (Hks q ltac:(left))) as (e & He & _). change (buffers (widen c wd [] [] [])) with (buffers c) in He.
    destruct (pushed_kept q e (Hks q ltac:(left)) He) as [_ [v Hv]]. by rewrite He, Hv. }
  rewrite pushed_left, !dead_of_app, Ew, (Ek k), (Ek x) by (intros q Hq; apply elem_of_app; tauto).
  rewrite (contents_frame (store (buffers c))) by (intros q Hq; apply pushed_same; rewrite !elem_of_app; tauto).
  rewrite <- (sc_nodes _ _ Hsc), <- (divided_perm (content w)) by apply Hsc. perm.
Qed.

Lemma inv_pushes : transit c = [] ->
  cycle_inv N (widen (set_buffers c s') 0 [] [(mk_place wd 0 0, Dividing)] (left_of (set_buffers c s') wd 0)) r dl (k ++ [wd]) x l.
Proof using All.
  intros Ht. pose proof (pushed_pending Ht) as Ep. destruct pushed_store as (P1 & P2 & P3 & (O1 & O2 & O3 & O4 & O5) & P5).
  pose proof I as [I1 I2 I3 I4 [I5 I5'] I6 I7 I8 I9 I10 I11 I12 I13 (I14 & I15 & I16 & I17)].
  change (buffers (widen c wd [] [] [])) with (buffers c) in *. cbn [filling widen g_uncollected_data g_addr_buffer] in *. rewrite app_nil_r in *.
  assert (Hsm : forall q, q ∈ filling c ++ r ++ dl -> store s' !! q = store (buffers c) !! q).
  { intros q Hq. apply pushed_same. rewrite !elem_of_app in *. clear -Hq. tauto. }
  split; change (buffers (widen (set_buffers c s') _ _ _ _)) with s'; cbn [filling widen g_uncollected_data g_addr_buffer set_buffers set_common]; rewrite ?app_nil_r; rewrite ?O2, ?O3, ?O4; try done.
  - eapply lchain_frame; [exact I1 |]. intros q Hq. rewrite Hsm; [done |]. rewrite !elem_of_app. clear -Hq. tauto.
  - eapply lchain_frame; [exact I2 |]. intros q Hq. rewrite Hsm; [done |]. rewrite !elem_of_app. clear -Hq. tauto.
  - apply (waiting_frame (buffers c)); [done | done |]. intros q Hq. apply pushed_same. rewrite !elem_of_app. clear -Hq. tauto.
  - rewrite O5. split; [| done]. eapply NoDup_Permutation_proper; [| exact I5]. unfold owned, supply.
    change (buffers (widen (set_buffers c s') _ _ _ _)) with s'. change (buffers (widen c wd [] [] [])) with (buffers c). cbn. rewrite O4, O5, (maybe_some wd H0), !app_nil_r. perm.
  - intros q Hq. rewrite Hsm by done. by apply I6.
  - intros Hpd. rewrite pushed_same; [by apply I9 |]. rewrite !elem_of_app, elem_of_maybe. by do 2 right.
  - apply pushed_retired.
  - apply pushed_holders.
  - intros q e [Hq | ->%list_elem_of_singleton]%elem_of_app He Hf.
    + assert (Hq' : q ∈ k ++ x) by (apply elem_of_app; by left).
      destruct (I10 q Hq') as (f & Hf' & _). destruct (pushed_kept q f Hq' Hf') as [_ [v Hv]].
      rewrite Hv in He. injection He as <-. destruct (I12 q f Hq Hf' Hf) as (t & b & Hin & Ha & Et). exists t, b. split; [| done].
      cbn in Hin. rewrite app_nil_r in Hin. cbn. apply elem_of_app. by left.
    + exfalso. rewrite P2 in He. injection He as <-. cbn in Hf. destruct Hsc as [[? ?] _ _ _]. lia.
  - intros q e He. destruct (decide (q = wd)) as [-> | Hne].
    + rewrite P2 in He. injection He as <-. cbn. rewrite (sh_capacity _ _ (sc_shape _ _ Hsc)). by apply (I13 wd).
    + destruct (decide (q ∈ k)) as [Hk | Hk].
      * destruct (I10 q) as (f & Hf & _); [apply elem_of_app; by left |]. destruct (P5 q f Hne Hf) as [v Hv]. rewrite Hv in He. injection He as <-. by apply (I13 q f).
      * rewrite P3 in He by (by apply not_elem_of_cons). by apply (I13 q).
  - cbn. split; [| split; [| split]]; [by rewrite I14, Ep | by rewrite Ep | |].
    + intros v. rewrite Ep. apply I16.
    + unfold zlen in *. by rewrite Ep.
Qed.
End pushed.

(** *** The division *)

Lemma divided_lookup c u tr wd r dl k x l : cycle_inv N (widen c u [] [(mk_place wd 0 0, Dividing)] tr) r dl k x l ->
  wd <> 0 /\ (wd ∈ k ++ x) /\ exists d, store (buffers c) !! wd = Some d /\ 0 < ab_capacity d <= 2 ^ 30 /\
    0 <= ab_n_addrs d <= ab_capacity d /\ zlen (ab_addrs d) = ab_capacity d.
Proof using HN.
  intros I. pose proof (ho_buffer _ _ _ _ _ (ci_holders _ _ _ _ _ _ _ I (mk_place wd 0 0) Dividing ltac:(cbn; apply elem_of_app; right; left))) as Hq. cbn in Hq.
  split; [by apply (retired_lookup _ _ _ _ _ _ _ _ I) |]. split; [done |].
  destruct (ci_retired _ _ _ _ _ _ _ I _ Hq) as (d & Hd & [A1 _ A3 _ _] & _). change (buffers (widen c _ _ _ _)) with (buffers c) in Hd.
  exists d. split; [done |]. pose proof (ag_capacity _ A1) as [? _]. pose proof (ag_addrs _ A1) as Hz. cbn in *.
  pose proof (ci_sizes _ _ _ _ _ _ _ I wd d Hd). split; [lia |]. split; [lia | done].
Qed.

Lemma inv_makes c wd r dl k x l d u s' : cycle_inv N (view c (Pushed wd) []) r dl k x l -> (blocks (buffers c) <> []) ->
  store (buffers c) !! wd = Some d -> forkscan_make_aggregate_buffer (ab_capacity d) (buffers c) = Ok (u, s') ->
  exists l' e, cycle_inv N (view (set_collector c s' u (g_addr_buffer c)) (Copying wd 0) []) r dl k x l' /\
    store s' !! wd = Some d /\ store s' !! u = Some e /\ u <> 0 /\ ab_capacity d <= ab_capacity e /\ ab_n_addrs e = 0.
Proof using HN.
  cbn [view]. intros I Hb Hd E. destruct (divided_lookup _ _ _ _ _ _ _ _ _ I) as (Hw0 & Hwk & d0 & Hd0 & Hcap & _).
  rewrite Hd in Hd0. injection Hd0 as <-. destruct (blocks (buffers c)) as [|p rest] eqn:Eb; [done |].
  pose proof (ci_waiting _ _ _ _ _ _ _ I) as Hwt. destruct (ci_owned _ _ _ _ _ _ _ I) as [Hnd Hz]. unfold owned, supply in Hnd.
  change (buffers (widen c _ _ _ _)) with (buffers c) in *. cbn [g_uncollected_data widen] in *. change (maybe 0) with (@nil Z) in *. rewrite Eb in *.
  do 5 apply NoDup_app in Hnd as (_ & _ & Hnd). cbn [app] in Hnd.
  assert (Hp0 : p <> 0) by (intros ->; apply Hz; rewrite !elem_of_app; do 2 right; left).
  assert (Hpl : p ∉ l).
  { apply NoDup_app in Hnd as (_ & D & _). intros Hin. apply (D p Hin), elem_of_app. right. left. }
  pose proof (make_aggregate_wp (ab_capacity d) (buffers c) l p rest ltac:(unfold INT_MAX; lia) Hwt Eb) as Hm. rewrite E in Hm.
  apply made_facts in Hm as (e & l2 & He & Ha & Hce & Hne & Hu0 & Hu & (M1 & M2 & M3 & M4 & M5) & Hfr & Hw2 & Hnin & Hsub & Htk & Hroomy); try done.
  assert (Hout : forall q, q ∈ filling c ++ r ++ dl ++ k ++ x \/ q ∈ maybe (g_dead_references (buffers c)) -> store s' !! q = store (buffers c) !! q).
  { intros q Hq. apply Hfr. assert (Hn : q ∉ p :: l).
    { destruct Hq as [Hq | Hq].
      - destruct (others_apart _ _ _ _ _ _ q I ltac:(cbn; by rewrite app_nil_r)) as [_ Hs]. unfold supply in Hs. cbn in Hs.
        change (buffers (widen c _ _ _ _)) with (buffers c) in Hs. rewrite Eb in Hs. rewrite !not_elem_of_app, not_elem_of_cons in Hs. rewrite not_elem_of_cons. tauto.
      - apply NoDup_app in Hnd as (_ & D & (_ & D2 & _)%NoDup_app). intros [-> | Hin]%elem_of_cons; [apply (D2 p Hq); left | apply (D q Hin), elem_of_app; by left]. }
    rewrite not_elem_of_cons in *. split; [| tauto]. intros ->. destruct Hn. destruct Hu; [done | tauto]. }
  assert (Hwd : store s' !! wd = Some d) by (rewrite Hout; [done | left; rewrite !elem_of_app in *; tauto]).
  exists l2, e. split; [| done]. cbn [view g_uncollected_data set_collector].
  assert (El : left_of (set_collector c s' u (g_addr_buffer c)) wd 0 = left_of c wd 0).
  { unfold left_of. change (buffers (set_collector c s' u (g_addr_buffer c))) with s'. by rewrite (content_at_some (store s') wd d), (content_at_some (store (buffers c)) wd d). }
  rewrite El. eapply (inv_supplies _ _ r dl k x l dl l2 I); change (buffers (widen (set_collector c s' _ _) _ _ _ _)) with s';
    change (buffers (widen c _ _ _ _)) with (buffers c); cbn; try done.
  - intros q Hq. apply Hout. left. by rewrite app_nil_r in Hq.
  - eapply lchain_frame; [apply I |]. intros q Hq. rewrite Hout; [done |]. left. rewrite !elem_of_app. tauto.
  - unfold supply. rewrite M5, (maybe_some u Hu0). change (maybe 0) with (@nil Z). cbn [app]. destruct Htk as [[Ebl Hne2] | [Ebl Eu]].
    + rewrite Ebl. transitivity ((u :: l2) ++ maybe (g_dead_references (buffers c)) ++ p :: rest); [rewrite Eb; apply Permutation_submseteq; perm |].
      rewrite Eb. apply submseteq_app; [| done]. apply NoDup_submseteq; [apply NoDup_cons; split; [done | by apply (wt_nodup _ _ Hw2)] |].
      intros q [-> | Hq]%elem_of_cons; [by destruct Hu | by apply Hsub].
    + rewrite Ebl, Eu. transitivity (l2 ++ maybe (g_dead_references (buffers c)) ++ p :: blocks s'); [apply Permutation_submseteq; perm |].
      apply submseteq_app; [| done]. apply NoDup_submseteq; [by apply (wt_nodup _ _ Hw2) | done].
  - left. done.
  - intros _. exists e. split; [done |]. split; [done |]. pose proof (ag_capacity _ Ha). lia.
  - rewrite M5. intros Hpd. rewrite Hout; [by apply (ci_dead _ _ _ _ _ _ _ I) |]. right. by apply elem_of_maybe.
  - intros q f Hf. destruct (Hroomy (2 ^ 30)) as (_ & _ & H); [| by apply (H q f)].
    split; [done |]. split; [lia |]. apply (ci_sizes _ _ _ _ _ _ _ I).
  - unfold nodes_of. rewrite (content_at_some _ _ e) by done. unfold content. rewrite Hne. cbn. f_equiv.
    apply reflexive_eq, contents_frame. intros q Hq. apply Hout. left. rewrite !elem_of_app. tauto.
Qed.
(** One entry is copied, or skipped. *)
Lemma left_of_step c wd w i : wd <> 0 -> store (buffers c) !! wd = Some w -> 0 <= i < ab_n_addrs w -> ab_n_addrs w <= zlen (ab_addrs w) ->
  left_of c wd i = (if Z.land (get (ab_addrs w) i) 1 =? 0 then [] else [PTR_MASK (get (ab_addrs w) i)]) ++ left_of c wd (i + 1).
Proof using Type.
  intros H0 Hw Hi Hz. unfold left_of. rewrite (content_at_some _ _ w) by done.
  assert (Hl : content w !! Z.to_nat i = Some (get (ab_addrs w) i)).
  { unfold content, first_n. rewrite lookup_take_lt by lia. apply get_lookup. lia. }
  rewrite (drop_S _ _ _ Hl). replace (Z.to_nat (i + 1)) with (Datatypes.S (Z.to_nat i)) by lia.
  unfold survivors. rewrite filter_cons. destruct (Z.eqb_spec (Z.land (get (ab_addrs w) i) 1) 0) as [E | E].
  - by rewrite decide_False by (by intros H).
  - by rewrite decide_True.
Qed.

Lemma inv_copies c wd i w u u' r dl k x l : cycle_inv N (view c (Copying wd i) []) r dl k x l ->
  g_uncollected_data c <> 0 -> store (buffers c) !! wd = Some w -> store (buffers c) !! g_uncollected_data c = Some u ->
  0 <= i < ab_n_addrs w -> ab_n_addrs w <= ab_capacity u -> ab_n_addrs u <= i -> uncollected_step w i u = Ok u' ->
  let c' := set_buffers c (set_store (buffers c) (<[g_uncollected_data c := u']> (store (buffers c)))) in
  cycle_inv N (view c' (Copying wd (i + 1)) []) r dl k x l /\ phase_ok c' (Copying wd (i + 1)) [] /\
  content_at (store (buffers c')) (g_uncollected_data c) ++ left_of c' wd (i + 1) =
    content_at (store (buffers c)) (g_uncollected_data c) ++ left_of c wd i /\
  store (buffers c') !! wd = Some w.
Proof using HN.
  intros I H0 Hw Hu Hi Hcu Hnu E c'. cbn [view] in I. destruct (divided_lookup _ _ _ _ _ _ _ _ _ I) as (Hw0 & Hwk & w0 & Hd0 & _ & Hwn & Hwz).
  rewrite Hw in Hd0. injection Hd0 as <-.
  destruct (ci_old _ _ _ _ _ _ _ I H0) as (u0 & Hu0 & Ha & Hn). change (buffers (widen c _ _ _ _)) with (buffers c) in Hu0. cbn in Hu0.
  rewrite Hu in Hu0. injection Hu0 as <-.
  destruct (uncollected_inv w i u u' Ha ltac:(lia) E) as (Ha' & Hcap & Hn' & Hct).
  destruct (view_apart _ _ _ _ _ _ _ _ _ _ (g_uncollected_data c) I ltac:(by right)) as [_ Huk].
  assert (Hne : wd <> g_uncollected_data c) by (intros E0; by rewrite E0 in Hwk).
  assert (Hst : forall q, q <> g_uncollected_data c -> store (buffers c') !! q = store (buffers c) !! q) by (intros q Hq; cbn; by rewrite lookup_insert_ne).
  assert (Hus : store (buffers c') !! g_uncollected_data c = Some u') by (cbn; apply lookup_insert_eq).
  assert (El : left_of c' wd (i + 1) = left_of c wd (i + 1)) by (unfold left_of, content_at; by rewrite Hst).
  assert (Eh : content_at (store (buffers c')) (g_uncollected_data c) ++ left_of c' wd (i + 1) =
    content_at (store (buffers c)) (g_uncollected_data c) ++ left_of c wd i).
  { rewrite (content_at_some _ _ u'), (content_at_some (store (buffers c)) _ u) by done.
    by rewrite El, (left_of_step c wd w i), Hct, <- app_assoc by (done || lia). }
  split; [| split; [| split; [exact Eh | by rewrite Hst]]].
  - assert (Hout : forall q, q ∈ (filling c ++ []) ++ r ++ dl ++ k ++ x -> q <> g_uncollected_data c).
    { intros q Hq ->. destruct (others_apart _ _ _ _ _ _ _ I Hq) as [_ Hs]. apply Hs. unfold supply. rewrite !elem_of_app, !elem_of_maybe. by right; left. }
    change (view c' (Copying wd (i + 1)) []) with (widen c' (g_uncollected_data c) [] [(mk_place wd 0 0, Dividing)] (left_of c' wd (i + 1))).
    eapply (inv_supplies _ _ r dl k x l dl l I); change (buffers (widen c' _ _ _ _)) with (buffers c'); change (buffers (widen c _ _ _ _)) with (buffers c);
      cbn [widen filling holders retired transit g_uncollected_data g_addr_buffer common c' set_buffers set_common]; try done.
    + intros q Hq. by apply Hst, Hout.
    + eapply lchain_frame; [apply I |]. intros q Hq. rewrite Hst; [done |]. apply Hout. rewrite !elem_of_app. tauto.
    + apply waiting_insert; [apply I |]. intros Hl. destruct (ci_owned _ _ _ _ _ _ _ I) as [Hnd _]. unfold owned, supply in Hnd.
      do 5 apply NoDup_app in Hnd as (_ & _ & Hnd). apply NoDup_app in Hnd as (_ & D & _). apply (D _ Hl). cbn. rewrite elem_of_app, elem_of_maybe. by left.
    + by left.
    + intros _. exists u'. split; [done |]. split; [done |]. lia.
    + intros Hpd. rewrite Hst; [by apply (ci_dead _ _ _ _ _ _ _ I) |]. intros Eq. destruct (ci_owned _ _ _ _ _ _ _ I) as [Hnd _].
      unfold owned, supply in Hnd. do 6 apply NoDup_app in Hnd as (_ & _ & Hnd). apply NoDup_app in Hnd as (_ & D & _).
      apply (D (g_uncollected_data c)); [cbn; by rewrite elem_of_maybe |]. rewrite elem_of_app, elem_of_maybe. left. by split.
    + intros q e. cbn. rewrite store_lookup. case_decide; [intros [= <-]; rewrite Hcap; by apply (ci_sizes _ _ _ _ _ _ _ I (g_uncollected_data c)) | apply (ci_sizes _ _ _ _ _ _ _ I)].
    + unfold nodes_of. rewrite (contents_frame (store (buffers c)) (store (buffers c'))) by (intros q Hq; apply Hst, Hout; rewrite !elem_of_app; tauto).
      rewrite <- !app_assoc, !(Permutation_app_comm (contents _ _)), !app_assoc. by rewrite Eh.
  - exists w, u'. change (g_uncollected_data c') with (g_uncollected_data c). rewrite Hst by done. split_and!; try done; lia.
Qed.
(** The collector gives up its reference. *)
Lemma inv_ends c wd i w r dl k x l s' : cycle_inv N (view c (Copying wd i) []) r dl k x l -> in_use (holders (view c (Copying wd i) [])) x ->
  g_uncollected_data c <> 0 -> store (buffers c) !! wd = Some w -> i = ab_n_addrs w ->
  forkscan_buffer_unref_buffer wd (buffers c) = Ok s' ->
  exists x' l', cycle_inv N (view (set_buffers c s') Between []) r dl k x' l' /\ in_use (holders (view (set_buffers c s') Between [])) x' /\
    content_at (store s') (g_uncollected_data c) = content_at (store (buffers c)) (g_uncollected_data c) ++ left_of c wd i.
Proof using HN.
  cbn [view]. intros I Hu H0 Hw -> E. destruct (divided_lookup _ _ _ _ _ _ _ _ _ I) as (Hw0 & Hwk & w0 & Hd0 & _ & Hwn & Hwz).
  rewrite Hw in Hd0. injection Hd0 as <-.
  assert (El : left_of c wd (ab_n_addrs w) = []).
  { unfold left_of. rewrite (content_at_some _ _ w) by done. rewrite drop_ge; [done |].
    unfold content, first_n. rewrite length_take. unfold zlen in Hwz. lia. }
  rewrite El in *. destruct (inv_unrefs N HN (widen c (g_uncollected_data c) [] [(mk_place wd 0 0, Dividing)] []) r dl k x l (holders c) (mk_place wd 0 0) Dividing [] s'
    I Hu eq_refl eq_refl eq_refl E) as (x' & l' & I' & Hu').
  exists x', l'. split; [exact I' |]. split; [exact Hu' |]. rewrite app_nil_r.
  destruct (view_apart _ _ _ _ _ _ _ _ _ _ (g_uncollected_data c) I ltac:(by right)) as [_ Huk].
  destruct (unref_store _ _ _ _ Hw E) as (d' & Es & _). unfold content_at. rewrite Es, lookup_insert_ne; [done |]. intros E0. by rewrite E0 in Hwk.
Qed.

Lemma over_gathers c ds r dl k x l dl1 wd f s' : over_inv (mk_over c Between) ds r dl k x l ->
  bchain (store (buffers c)) (g_addr_buffer c) dl1 -> may_iterate c dl1 ->
  aggregate_addrs (g_uncollected_data c) (g_addr_buffer c) (buffers c) = Ok (wd, f, s') ->
  dl = dl1 /\ exists l', over_inv (mk_over (set_collector c s' 0 0) (Gathered wd (g_addr_buffer c))) dl1 r [] k x l' /\
    content_at (store s') wd = nodes_of (buffers c) (g_uncollected_data c) dl1 /\
    dead_of (store s') k = dead_of (store (buffers c)) k /\ g_default_capacity s' = g_default_capacity (buffers c) /\
    (length (blocks (buffers c)) <= Datatypes.S (length (blocks s')))%nat.
Proof using HN EN.
  intros [I Hu Hr Ht _ _] Hdl M E. cbn [base phase view] in *. rewrite widen_id in I, Hu by done.
  rewrite <- (lchain_unique _ _ _ _ _ (ci_handed _ _ _ _ _ _ _ I) Hdl) in *. split; [done |].
  destruct (inv_gathers _ _ _ _ _ _ _ _ _ I M Ht E) as (l' & I' & H0 & Hch & Ec & Hrest). exists l'.
  split; [| by split]. split; try done; cbn; [by rewrite app_nil_r |].
  destruct M as (M1 & _ & M3 & _). rewrite <- Ec in M3. by split_and!.
Qed.

Lemma over_gives_back c wd p w ds r dl k x l d s' : over_inv (mk_over c (Releasing wd p w)) ds r dl k x l ->
  buf_load (buffers c) p = Ok d -> forkscan_release_buffer p (buffers c) = Ok s' ->
  exists ds', ds = p :: ds' /\ over_inv (mk_over (set_buffers c s') (Releasing wd (ab_next d) w)) ds' (p :: r) dl k x l.
Proof using HN EN.
  intros [I Hu Hr Ht (H0 & Hch & e & He & Hsd) Hn] [Hp0 Hd]%buf_load_inv E. cbn [base phase view] in *.
  destruct ds as [|y ds]; [by cbn in Hch |]. destruct Hch as (<- & _ & d1 & Hd1 & Hch). rewrite Hd in Hd1. injection Hd1 as <-.
  destruct (inv_gives_back _ _ _ _ _ _ _ _ _ _ _ I eq_refl Hd E) as [I' Hst].
  exists ds. split; [done |]. split; try done. cbn. split; [done |].
  destruct (ci_owned _ _ _ _ _ _ _ I) as [Hnd _]. unfold owned in Hnd. cbn in Hnd. rewrite <- !app_assoc in Hnd.
  apply NoDup_app in Hnd as (_ & _ & Hnd). pose proof Hnd as ([Hn1 _]%NoDup_cons & D & _)%NoDup_app.
  assert (Hn2 : wd <> p).
  { intros ->. apply (D p ltac:(left)). do 4 (apply elem_of_app; right). unfold supply. rewrite !elem_of_app, elem_of_maybe. by right; left. }
  split.
  - eapply lchain_frame; [exact Hch |]. intros q Hq. rewrite Hst; [done |]. by intros ->.
  - exists e. by rewrite Hst.
Qed.

Lemma collector_step_ok o c' ph : over_ok o -> collector_step (base o) (phase o) c' ph ->
  over_ok (mk_over c' ph) /\ (answered (phase o) -> answered ph -> found (mk_over c' ph) = found o).
Proof using HN EN.
  destruct o as [c ph0]. intros (ds & r & dl & k & x & l & [I Hu Hr Ht Hp Hn]) Hs. cbn [base phase] in *.
  destruct Hs as [dl1 wd f s' Hdl M E | scan pre must may wd p c' w Hsc Hsn |
    wd p w d s' E1 E2 | wd w s1 s' E1 E2 | wd d u s' Hb E1 E2 | wd i w u u' s' E1 Hlt E2 E3 E4 | wd i w s' E1 Hle E2].
  - destruct (over_gathers c ds r dl k x l dl1 wd f s' ltac:(by split) Hdl M E) as (_ & l' & Hi & _).
    split; [by exists dl1, r, [], k, x, l' | by intros _ []].
  - cbn [view phase_ok] in *. destruct Hp as (H0 & Hch & Hds & Hne).
    destruct (inv_snapshots scan pre must may _ _ _ _ _ _ _ _ _ _ _ I H0 Hch Hds Hne Hsn) as (s2 & w0 & -> & I' & Hch' & Hw & Hw' & Hsd & _).
    split; [| by intros []]. exists ds, r, dl, k, x, l. split; try done. cbn. split_and!; try done. by exists w0.
  - destruct (over_gives_back c wd p w ds r dl k x l d s' ltac:(by split) E1 E2) as (ds' & _ & I').
    split; [by exists ds', (p :: r), dl, k, x, l | done].
  - cbn [view phase_ok] in *. destruct Hp as (H0 & Hch & e & He & Hsd). destruct ds as [|y ds]; [| by destruct Hch as (<- & ? & _)].
    split.
    + exists [], r, dl, (k ++ [wd]), x, l. split; try done; [by eapply inv_pushes |]. intros q Hq. specialize (Hu q Hq). cbn in *.
      rewrite app_nil_r in Hu. rewrite refs_mid, app_nil_r. lia.
    + intros _ _. by eapply (pushed_left c wd r dl k x l e w s1 s').
  - apply buf_load_inv in E1 as [Hw0 Hd]. destruct (inv_makes _ _ _ _ _ _ _ _ _ _ I Hb Hd E2) as (l' & e & I' & Hwd & He & Hu0 & Hce & Hne).
    assert (El : left_of (set_collector c s' u (g_addr_buffer c)) wd 0 = left_of c wd 0).
    { unfold left_of. change (buffers (set_collector c s' u (g_addr_buffer c))) with s'. by rewrite (content_at_some (store s') wd d), (content_at_some (store (buffers c)) wd d). }
    destruct (divided_lookup _ _ _ _ _ _ _ _ _ I) as (_ & _ & d0 & Hd0 & _ & Hdn & _). rewrite Hd in Hd0. injection Hd0 as <-.
    split.
    + exists [], r, dl, k, x, l'. split; try done. cbn. exists d, e. split_and!; try done; lia.
    + intros _ _. unfold found. cbn [phase base]. rewrite El. change (store (buffers (set_collector c s' u (g_addr_buffer c)))) with (store s'). cbn [g_uncollected_data set_collector].
      rewrite (content_at_some _ _ e) by done. unfold content. by rewrite Hne.
  - cbn [phase_ok] in Hp. destruct Hp as (w0 & u0 & Hw & Hun & Hu0 & Hi & Hc & Hul). apply buf_load_inv in E1 as [_ Hw1], E2 as [_ Hu1].
    rewrite Hw in Hw1. injection Hw1 as <-. rewrite Hun in Hu1. injection Hu1 as <-. apply buf_modify_inv in E4 as (e & _ & _ & ->).
    destruct (inv_copies _ _ _ _ _ _ _ _ _ _ _ I Hu0 Hw Hun ltac:(lia) Hc Hul E3) as (I' & Hp' & Eh & _).
    split; [| by intros _ _]. exists [], r, dl, k, x, l. by split.
  - cbn [phase_ok] in Hp. destruct Hp as (w0 & u0 & Hw & Hun & Hu0 & Hi & Hc & Hul). apply buf_load_inv in E1 as [_ Hw1].
    rewrite Hw in Hw1. injection Hw1 as <-.
    destruct (inv_ends _ _ _ _ _ _ _ _ _ _ I Hu Hu0 Hw ltac:(lia) E2) as (x' & l' & I' & Hu' & Ef).
    split; [| by intros _ _]. exists [], r, dl, k, x', l'. by split.
Qed.
(** ** The collector gets to the end *)

Definition runs (o o' : over_t) : Prop := collector_step (base o) (phase o) (base o') (phase o').

Lemma run_ok o o' : over_ok o -> runs o o' -> over_ok o'.
Proof using HN EN. intros H Hs. destruct o' as [c' ph]. by destruct (collector_step_ok o c' ph H Hs). Qed.

Lemma copying_goes c wd i w : over_ok (mk_over c (Copying wd i)) -> store (buffers c) !! wd = Some w -> i < ab_n_addrs w ->
  exists s', runs (mk_over c (Copying wd i)) (mk_over (set_buffers c s') (Copying wd (i + 1))) /\ store s' !! wd = Some w.
Proof using HN.
  intros (ds & r & dl & k & x & l & [I Hu Hr Ht (w0 & u & Hw & Hun & Hu0 & Hi & Hc & Hul) Hn]) Hw' Hlt. cbn [base phase] in *.
  rewrite Hw in Hw'. injection Hw' as ->. destruct (divided_lookup _ _ _ _ _ _ _ _ _ I) as (Hw0 & _ & w1 & Hd0 & _ & Hwn & Hwz).
  rewrite Hw in Hd0. injection Hd0 as <-. destruct (ci_old _ _ _ _ _ _ _ I Hu0) as (u1 & Hu1 & Ha & Hn1).
  change (buffers (view c _ _)) with (buffers c) in Hu1. cbn in Hu1. rewrite Hun in Hu1. injection Hu1 as <-. pose proof (ag_addrs _ Ha) as Hz.
  assert (E : exists u', uncollected_step w i u = Ok u').
  { unfold uncollected_step. rewrite rd_ok, bind_ok by lia. destruct (_ =? 0); [by eexists |]. rewrite wr_ok by lia. by eexists. }
  destruct E as [u' E]. destruct (inv_copies _ _ _ _ _ _ _ _ _ _ _ I Hu0 Hw Hun ltac:(lia) Hc Hul E) as (_ & _ & _ & Hws).
  eexists. split; [| exact Hws]. unfold runs. cbn [base phase].
  assert (Hl : forall p d, p <> 0 -> store (buffers c) !! p = Some d -> buf_load (buffers c) p = Ok d).
  { intros p d Hp Hd. unfold buf_load. apply Z.eqb_neq in Hp as ->. by rewrite Hd. }
  eapply (copies c wd i w u u'); [by apply Hl | done | by apply Hl | done |]. unfold buf_modify. by rewrite (Hl _ u).
Qed.

Lemma ends_goes c wd i w : over_ok (mk_over c (Copying wd i)) -> store (buffers c) !! wd = Some w -> ab_n_addrs w <= i ->
  Z.of_nat (length (holders c)) < INT_MAX ->
  exists s', runs (mk_over c (Copying wd i)) (mk_over (set_buffers c s') Between).
Proof using HN.
  intros (ds & r & dl & k & x & l & [I Hu Hr Ht Hp Hn]) Hw Hle Hmax. cbn [base phase view] in *.
  destruct (divided_lookup _ _ _ _ _ _ _ _ _ I) as (Hw0 & _).
  destruct (unref_ok N HN _ r dl k x l (holders c) (mk_place wd 0 0) Dividing [] I eq_refl ltac:(done) eq_refl) as (s' & E & _).
  { cbn. rewrite length_app. cbn. lia. }
  exists s'. unfold runs. cbn [base phase]. eapply (ends c wd i w); [| done | exact E]. unfold buf_load. apply Z.eqb_neq in Hw0 as ->. by rewrite Hw.
Qed.

Lemma copying_finishes n : forall c wd i w, over_ok (mk_over c (Copying wd i)) -> store (buffers c) !! wd = Some w ->
  (Z.to_nat (ab_n_addrs w - i) <= n)%nat -> Z.of_nat (length (holders c)) < INT_MAX ->
  exists c', rtc runs (mk_over c (Copying wd i)) (mk_over c' Between) /\ holders c' = holders c.
Proof using HN EN.
  induction n as [|n IH]; intros c wd i w H Hw Hn Hmax.
  - destruct (ends_goes _ _ _ _ H Hw ltac:(lia) Hmax) as [s' R]. eexists. split; [by apply rtc_once | done].
  - destruct (decide (ab_n_addrs w <= i)) as [Hle | Hlt].
    + destruct (ends_goes _ _ _ _ H Hw Hle Hmax) as [s' R]. eexists. split; [by apply rtc_once | done].
    + destruct (copying_goes _ _ _ _ H Hw ltac:(lia)) as (s' & R & Hw').
      destruct (IH (set_buffers c s') wd (i + 1) w) as (c' & R' & Eh); [by eapply run_ok | done | lia | done |].
      exists c'. split; [by eapply rtc_l | done].
Qed.

Lemma pushed_finishes c wd : over_ok (mk_over c (Pushed wd)) -> (blocks (buffers c) <> []) -> Z.of_nat (length (holders c)) < INT_MAX ->
  exists c', rtc runs (mk_over c (Pushed wd)) (mk_over c' Between) /\ holders c' = holders c.
Proof using HN EN.
  intros H Hb Hmax. pose proof H as (ds & r & dl & k & x & l & [I Hu Hr Ht Hp Hn]). cbn [base phase view] in *.
  destruct (divided_lookup _ _ _ _ _ _ _ _ _ I) as (Hw0 & _ & d & Hd & Hcap & _).
  destruct (blocks (buffers c)) as [|p rest] eqn:Eb; [done |].
  pose proof (make_aggregate_wp (ab_capacity d) (buffers c) l p rest ltac:(unfold INT_MAX; lia) (ci_waiting _ _ _ _ _ _ _ I) Eb) as Hm.
  apply wp_iff in Hm as ([u s'] & E & _).
  assert (R : runs (mk_over c (Pushed wd)) (mk_over (set_collector c s' u (g_addr_buffer c)) (Copying wd 0))).
  { unfold runs. cbn [base phase]. eapply makes; [by rewrite Eb | | exact E]. unfold buf_load. apply Z.eqb_neq in Hw0 as ->. by rewrite Hd. }
  pose proof (run_ok _ _ H R) as H'. pose proof H' as (? & ? & ? & ? & ? & ? & [_ _ _ _ (w & u1 & Hw & _) _]).
  destruct (copying_finishes _ _ _ _ _ H' Hw (le_n _) Hmax) as (c' & R' & Eh). exists c'. split; [by eapply rtc_l | done].
Qed.

Lemma releasing_finishes ds : forall c wd p w r dl k x l, over_inv (mk_over c (Releasing wd p w)) ds r dl k x l ->
  (blocks (buffers c) <> []) -> Z.of_nat (length (holders c)) < INT_MAX ->
  exists c', rtc runs (mk_over c (Releasing wd p w)) (mk_over c' Between) /\ holders c' = holders c.
Proof using HN EN.
  induction ds as [|y ds IH]; intros c wd p w r dl k x l H Hb Hmax; pose proof H as [I _ _ Ht (H0 & Hch & d & Hd & Hsd) _]; cbn [base phase view] in *.
  - cbn in Hch. subst p. set (s1 := set_store (buffers c) (<[wd := w]> (store (buffers c)))).
    assert (E1 : buf_modify (buffers c) wd (fun _ => w) = Ok s1).
    { unfold buf_modify, buf_load. apply Z.eqb_neq in H0 as ->. by rewrite Hd. }
    destruct (view_apart _ _ _ _ _ _ _ _ _ _ wd I ltac:(by right)) as [_ [Hk _]%not_elem_of_app].
    assert (Hr : retirees s1 k).
    { apply (same_heads_frame (buffers c)); [apply (ci_retirees _ _ _ _ _ _ _ I) | done |]. intros q Hq. cbn. rewrite lookup_insert_ne; [done | by intros ->]. }
    pose proof (push_back_wp s1 k wd w Hr Hk H0 ltac:(cbn; apply lookup_insert_eq)) as Hw.
    apply wp_iff in Hw as (s' & E2 & _ & _ & _ & _ & _).
    assert (R : runs (mk_over c (Releasing wd 0 w)) (mk_over (set_buffers c s') (Pushed wd))) by (unfold runs; cbn; by eapply pushes).
    assert (H' : over_ok (mk_over (set_buffers c s') (Pushed wd))) by (eapply run_ok; [by exists [], r, dl, k, x, l | exact R]).
    destruct (pushed_store c wd r dl k x l d w s1 s' I H0 Hd Hsd E1 E2) as (_ & _ & _ & (_ & _ & _ & _ & O5) & _).
    destruct (pushed_finishes _ _ H') as (c' & R' & Eh); [cbn; by rewrite O5 | done |]. exists c'. split; [by eapply rtc_l | done].
  - destruct Hch as (<- & Hp0 & e & He & Hch). pose proof (releases_small _ r dl k x l (filling c) p ds e I eq_refl He) as E.
    change (buffers (widen c _ _ _ _)) with (buffers c) in E.
    assert (El : buf_load (buffers c) p = Ok e) by (unfold buf_load; apply Z.eqb_neq in Hp0 as ->; by rewrite He).
    destruct (over_gives_back _ _ _ _ _ _ _ _ _ _ _ _ H El E) as (ds' & [= <-] & H').
    edestruct (IH _ _ _ _ _ _ _ _ _ H') as (c' & R' & Eh); [done | done |]. exists c'. split; [| done]. eapply rtc_l; [| exact R'].
    unfold runs. cbn [base phase]. by eapply releases.
Qed.

(** The child can be run, and answers. *)
Lemma gathered_goes pre must may scan `{!Scanner pre must may scan} c wd p ds r dl k x l :
  over_inv (mk_over c (Gathered wd p)) ds r dl k x l -> (2 <= length (blocks (buffers c)))%nat ->
  may_scan pre (content_at (store (buffers c)) wd) (take (Z.to_nat N) (dead_of (store (buffers c)) k)) ->
  exists s' w, snapshot pre scan c wd (set_buffers c s') w /\ (blocks s' <> []).
Proof using HN.
  intros [I _ _ _ (H0 & Hch & Hds & Hne) _] Hb Hpre. cbn [base phase view] in *.
  destruct (ci_old _ _ _ _ _ _ _ I H0) as (w & Hw & _). change (buffers (widen c wd ds [] [])) with (buffers c) in Hw. cbn in Hw.
  assert (Hb' : blocks (buffers c) <> []) by (intros E; rewrite E in Hb; cbn in Hb; lia).
  pose proof (table_made _ _ _ _ _ _ _ _ _ _ I H0 Hch Hds Hw Hb') as Ht. apply wp_iff in Ht as ([p2 s'] & E & _).
  destruct (inv_tables _ _ _ _ _ _ _ _ _ _ _ _ w I H0 Hch Hds Hw Hb' E) as (Hp2 & Hst & Hwp & _ & Hlen & d & Hd & Hdt & Ect & _).
  destruct (data_gathered _ _ _ _ _ _ _ _ _ I H0 Hw Hne) as (Hg & Hnd & _).
  pose proof (prepare_wp w d Hg Hnd Hdt) as Hp. apply wp_iff in Hp as ([w1 d1] & Ep & Hwf & [En Hperm] & Hdt1 & [Edn Hdp] & Hinc & Hsw & Hsd).
  assert (Hpr : pre w1 d1).
  { apply Hpre; [done | | apply Hdt1 | | done].
    - rewrite (content_at_some _ _ w) by done. unfold content. by rewrite En.
    - rewrite <- Ect. unfold content. by rewrite Edn. }
  pose proof (scanner_marks w1 d1 Hpr) as Hs. apply wp_iff in Hs as (w2 & Es & _).
  assert (Hl : forall q e, q <> 0 -> store s' !! q = Some e -> buf_load s' q = Ok e).
  { intros q e Hq He. unfold buf_load. apply Z.eqb_neq in Hq as ->. by rewrite He. }
  eexists _, w2. split.
  - eapply snapshot_taken; [done | exact E | apply Hl; [done | by rewrite Hst] | by apply Hl | exact Ep | done | exact Es |]. unfold buf_modify. by rewrite (Hl _ d).
  - cbn. destruct (blocks s'); [cbn in Hlen; lia | done].
Qed.
End overlap.

(** * Properties *)

(** The nodes that the collector has in hand. *)
Definition in_hand (o : over_t) : list Z :=
  match phase o with Releasing wd _ _ => content_at (store (buffers (base o))) wd | _ => found o end.

(** The buffer it is dividing. *)
Definition divides (ph : phase_t) (q : Z) : Prop := match ph with Pushed wd | Copying wd _ => q = wd | _ => False end.

(** A step of anyone, other than that the collector begins anew. *)
Definition on_step (ptrs_per_thread : Z) (o o' : over_t) : Prop := over_step ptrs_per_thread o o' /\ answered (phase o').

Section properties.
Context (ptrs_per_thread : Z) (Hptrs : 0 < ptrs_per_thread * MAX_THREAD_COUNT <= 2 ^ 30).

Lemma over_step_ok o o' : over_ok (ptrs_per_thread * MAX_THREAD_COUNT) o -> over_step ptrs_per_thread o o' -> within (holders (base o')) ->
  over_ok (ptrs_per_thread * MAX_THREAD_COUNT) o'.
Proof using Hptrs. intros H [c' S | c' ph S] Hw; [by eapply over_threads | by eapply (collector_step_ok ptrs_per_thread)]. Qed.

(** The collector leaves the threads where they are. *)
Lemma collector_holders c ph c' ph' : collector_step c ph c' ph' -> holders c' = holders c.
Proof using Type. destruct 1; try done. by match goal with H : snapshot _ _ _ _ _ _ |- _ => destruct H end. Qed.

Lemma over_step_placed o o' : over_step ptrs_per_thread o o' -> placed (holders (base o)) ->
  placed (holders (base o')) /\ (within (holders (base o')) -> within (holders (base o))).
Proof using Type.
  intros [c' S | c' ph S] Hp; cbn.
  - split; [by eapply thread_step_placed | by eapply within_before].
  - by rewrite (collector_holders _ _ _ _ S).
Qed.

(** So a run that ends with no thread behind the entries of its buffer has no
    state in which one is. *)
Lemma over_run_ok o o' : rtc (over_step ptrs_per_thread) o o' -> placed (holders (base o)) -> within (holders (base o')) ->
  within (holders (base o)) /\ placed (holders (base o')) /\
  (over_ok (ptrs_per_thread * MAX_THREAD_COUNT) o -> over_ok (ptrs_per_thread * MAX_THREAD_COUNT) o').
Proof using Hptrs.
  intros R. induction R as [o | o1 o2 o3 S R IH]; intros Hp Hw; [done |]. destruct (over_step_placed _ _ S Hp) as [Hp2 Hb].
  destruct (IH Hp2 Hw) as (Hw2 & Hp3 & H3). split; [by apply Hb |]. split; [done |]. intros H. by apply H3, (over_step_ok o1).
Qed.

Lemma over_start_placed : placed (holders (base over_start)).
Proof using Type. intros t pc Hin. by apply not_elem_of_nil in Hin. Qed.

Lemma over_reachable_ok o : over_reachable ptrs_per_thread o -> within (holders (base o)) -> over_ok (ptrs_per_thread * MAX_THREAD_COUNT) o.
Proof using Hptrs.
  intros R Hw. apply (over_run_ok _ _ R over_start_placed Hw).
  destruct (cycle_start_ok _ Hptrs) as ((r & dl & k & x & l & I & Hu) & Hr & Ht). exists [], r, dl, k, x, l. by split.
Qed.

Lemma over_reachable_placed o : over_reachable ptrs_per_thread o -> placed (holders (base o)).
Proof using Type.
  unfold over_reachable. pose proof over_start_placed as H0. revert H0. generalize over_start. intros o0 H0 R.
  induction R as [| o1 o2 o3 S R IH]; [done |]. by apply IH, (over_step_placed o1).
Qed.

(** Where the nodes are, in terms of the program. *)
Lemma over_nodes o : over_ok (ptrs_per_thread * MAX_THREAD_COUNT) o ->
  exists dl k x, bchain (store (buffers (base o))) (g_addr_buffer (base o)) dl /\ retirees (buffers (base o)) k /\
    (forall q, q ∈ x -> divides (phase o) q \/ exists t b, (t, b) ∈ holders (base o) /\ retiree_buffer t = q) /\
    let waiting := contents (store (buffers (base o))) dl in
    let dead := dead_of (store (buffers (base o))) (k ++ x) in
    retired (base o) ≡ₚ freed_nodes (common (base o)) ++ in_hand o ++ waiting ++ dead /\ NoDup (in_hand o ++ waiting ++ dead).
Proof using Hptrs.
  intros (ds & r & dl & k & x & l & [I Hu Hr Ht Hp Hn]). exists dl, k, x.
  assert (E : buffers (view (base o) (phase o) ds) = buffers (base o)) by (by destruct (phase o)).
  pose proof (ci_handed _ _ _ _ _ _ _ I) as I2. pose proof (ci_retirees _ _ _ _ _ _ _ I) as I3.
  destruct (ci_nodes _ _ _ _ _ _ _ I) as (Hperm & Hnd & _). rewrite E in I2, I3.
  assert (Ep : pending (view (base o) (phase o) ds) dl k x ≡ₚ
    in_hand o ++ contents (store (buffers (base o))) dl ++ dead_of (store (buffers (base o))) (k ++ x)).
  { unfold pending, nodes_of, in_hand, found. rewrite E. destruct o as [c [| wd p | wd p w | wd | wd i]]; cbn; perm. }
  assert (Er : retired (view (base o) (phase o) ds) = retired (base o) /\ common (view (base o) (phase o) ds) = common (base o) /\
    g_addr_buffer (view (base o) (phase o) ds) = g_addr_buffer (base o)) by (by destruct (phase o)).
  destruct Er as (Er & Ec & Ea). rewrite Ea in I2. split; [done |]. split; [done |]. split; [| split; [by rewrite <- Er, Hperm, Ep, Ec | by rewrite <- Ep]].
  intros q Hq. specialize (Hu q Hq). destruct (refs_holder (holders (view (base o) (phase o) ds)) q) as (t & b & Hin & Et); [lia |].
  destruct (phase o) as [| wd p | wd p w | wd | wd i]; cbn in *; apply elem_of_app in Hin as [Hin | Hin]; try (right; by exists t, b);
    try (by apply not_elem_of_nil in Hin); apply list_elem_of_singleton in Hin; injection Hin as -> ->; by left.
Qed.

(** C3: Wherever the collector is in an iteration, and whatever the threads do
    meanwhile, short of getting behind the entries of a buffer: every node
    retired so far has been freed as often as it was retired, or it is, once,
    in one place: in the collector's hand, among what was handed in since, in
    a retiree, or in an exhausted buffer that a thread or the collector still
    has to do with. *)
Theorem overlap_conserves o : over_reachable ptrs_per_thread o -> within (holders (base o)) ->
  exists dl k x, bchain (store (buffers (base o))) (g_addr_buffer (base o)) dl /\ retirees (buffers (base o)) k /\
    (forall q, q ∈ x -> divides (phase o) q \/ exists t b, (t, b) ∈ holders (base o) /\ retiree_buffer t = q) /\
    let waiting := contents (store (buffers (base o))) dl in
    let dead := dead_of (store (buffers (base o))) (k ++ x) in
    retired (base o) ≡ₚ freed_nodes (common (base o)) ++ in_hand o ++ waiting ++ dead /\ NoDup (in_hand o ++ waiting ++ dead).
Proof using Hptrs. intros H Hw. by apply over_nodes, over_reachable_ok. Qed.

(** No step of the threads changes what the collector has found. *)
Lemma on_step_found o o' : over_ok (ptrs_per_thread * MAX_THREAD_COUNT) o -> answered (phase o) -> on_step ptrs_per_thread o o' ->
  found o' ≡ₚ found o.
Proof using Hptrs.
  destruct o as [c ph0]. intros H Ha [[c' S | c' ph S] Ha']; [| by rewrite (proj2 (collector_step_ok ptrs_per_thread _ Hptrs eq_refl _ _ _ H S))].
  destruct H as (ds & r & dl & k & x & l & H). cbn [phase].
  by destruct (thread_view ptrs_per_thread _ Hptrs eq_refl _ _ _ _ _ _ _ _ _ H S) as (_ & _ & ->).
Qed.

Lemma found_in_hand o v : over_ok (ptrs_per_thread * MAX_THREAD_COUNT) o -> v ∈ found o -> v ∈ in_hand o.
Proof using Type.
  intros (ds & r & dl & k & x & l & [_ _ _ _ Hp _]). unfold in_hand, found. destruct (phase o) as [| | wd p w | |]; try done.
  destruct Hp as (H0 & _ & d & Hd & Hsc). intros Hv. rewrite (content_at_some _ _ d) by done.
  rewrite <- (sc_nodes _ _ Hsc), <- divided_perm by apply Hsc. apply elem_of_app. by left.
Qed.

Lemma on_steps o o' : over_ok (ptrs_per_thread * MAX_THREAD_COUNT) o -> placed (holders (base o)) -> answered (phase o) ->
  rtc (on_step ptrs_per_thread) o o' -> within (holders (base o')) -> over_ok (ptrs_per_thread * MAX_THREAD_COUNT) o' /\ found o' ≡ₚ found o.
Proof using Hptrs.
  intros H Hp Ha R Hw. induction R as [| o1 o2 o3 S R IH]; [done |].
  destruct (over_step_placed _ _ (proj1 S) Hp) as [Hp2 _].
  assert (Hw2 : within (holders (base o2))).
  { refine (proj1 (over_run_ok o2 o3 _ Hp2 Hw)). clear -R. induction R as [| o2 o3 o4 S R IH]; [done |]. eapply rtc_l; [apply S | done]. }
  destruct (IH (over_step_ok _ _ H (proj1 S) Hw2) Hp2 (proj2 S) Hw) as [H' E].
  split; [done |]. by rewrite E, (on_step_found _ _ H Ha S).
Qed.

(** C4: What the scan finds referenced is the collector's, from the snapshot until
    it gathers anew, whatever the threads free, retire, and take off the list
    meanwhile, as long as none gets behind the entries of its buffer: nothing
    of it is freed, nothing is lost in the copying, and nothing is added. *)
Theorem referenced_kept pre must may scan `{!Scanner pre must may scan} c wd p c' w o :
  over_reachable ptrs_per_thread (mk_over c (Gathered wd p)) -> snapshot pre scan c wd c' w ->
  rtc (on_step ptrs_per_thread) (mk_over c' (Releasing wd p w)) o -> within (holders (base o)) ->
  (forall v, v ∈ content_at (store (buffers c)) wd -> must v -> v ∈ found o) /\ (forall v, v ∈ found o -> may v) /\
  forall v, v ∈ found o ->
    count_occ Z.eq_dec (retired (base o)) v = Datatypes.S (count_occ Z.eq_dec (freed_nodes (common (base o))) v).
Proof using Hptrs.
  intros H Sn R Hw0.
  assert (Hs : over_step ptrs_per_thread (mk_over c (Gathered wd p)) (mk_over c' (Releasing wd p w)))
    by (apply collector_goes; by apply (snapshots _ scan pre must may)).
  destruct (over_step_placed _ _ Hs (over_reachable_placed _ H)) as [Hp2 Hb].
  assert (R' : rtc (over_step ptrs_per_thread) (mk_over c' (Releasing wd p w)) o).
  { clear -R. induction R as [| o2 o3 o4 S R IH]; [done |]. eapply rtc_l; [apply S | done]. }
  destruct (over_run_ok _ _ R' Hp2 Hw0) as (Hw2 & _).
  pose proof (over_reachable_ok _ H (Hb Hw2)) as Ho. pose proof Ho as (ds & r & dl & k & x & l & [I _ _ _ (H0 & Hch & Hds & Hne) _]).
  destruct (inv_snapshots _ Hptrs scan pre must may _ _ _ _ _ _ _ _ _ _ _ I H0 Hch Hds Hne Sn) as (s2 & w0 & _ & _ & _ & Hw & _ & _ & [K1 K2]).
  destruct (on_steps _ _ (over_step_ok _ _ Ho Hs Hw2) Hp2 Logic.I R Hw0) as [Ho' Ef]. cbn [base] in Hw.
  split; [| split].
  - intros v. rewrite (content_at_some _ _ w0), Ef by done. apply K1.
  - intros v. rewrite Ef. apply K2.
  - intros v Hv. apply found_in_hand in Hv; [| done]. destruct (over_nodes _ Ho') as (dl' & k' & x' & _ & _ & _ & Hperm & Hnd).
    rewrite (proj1 (Permutation_count_occ Z.eq_dec _ _) Hperm v), count_occ_app.
    apply NoDup_ListNoDup in Hnd.
    assert (E1 : count_occ Z.eq_dec (in_hand o ++ contents (store (buffers (base o))) dl' ++ dead_of (store (buffers (base o))) (k' ++ x')) v = 1%nat); [| lia].
    apply (NoDup_count_occ' Z.eq_dec); [done |]. apply list_elem_of_In, elem_of_app. by left.
Qed.

(** C10: The collector, in the middle of an iteration, gets to its end whatever the
    threads have done since it began, unless one has got behind the entries of
    its buffer, with no assertion that fails and no
    access out of bounds: it does not wait for them, and neither do they for
    it, but for the snapshot. *)
Theorem collector_finishes pre must may scan `{!Scanner pre must may scan} o k : over_reachable ptrs_per_thread o -> within (holders (base o)) ->
  retirees (buffers (base o)) k -> (2 <= length (blocks (buffers (base o))))%nat -> Z.of_nat (length (holders (base o))) < INT_MAX ->
  (forall wd p, phase o = Gathered wd p -> may_scan pre (content_at (store (buffers (base o))) wd)
     (take (Z.to_nat (g_default_capacity (buffers (base o)))) (dead_of (store (buffers (base o))) k))) ->
  exists c', rtc runs o (mk_over c' Between) /\ holders c' = holders (base o).
Proof using Hptrs.
  intros H Hin Hk Hb Hmax Hpre. pose proof (over_reachable_ok _ H Hin) as Ho. destruct o as [c [| wd p | wd p w | wd | wd i]]; cbn [base phase] in *.
  - by exists c.
  - pose proof Ho as (ds & r & dl & k' & x & l & Hi). pose proof Hi as [I _ _ _ (H0 & Hch & Hds & Hne) _]. cbn [base phase view] in *.
    rewrite (lchain_unique _ _ _ _ _ (rt_chain _ _ Hk) (rt_chain _ _ (ci_retirees _ _ _ _ _ _ _ I))) in Hpre.
    destruct (ci_old _ _ _ _ _ _ _ I H0) as (w & Hw & _). destruct (view_staged _ Hptrs _ _ _ _ _ _ _ _ _ _ I H0 Hch Hds Hw) as [Hdef _].
    specialize (Hpre wd p eq_refl). rewrite Hdef in Hpre.
    destruct (gathered_goes _ Hptrs pre must may scan _ _ _ _ _ _ _ _ _ Hi Hb Hpre) as (s' & w2 & Sn & Hb').
    assert (R : runs (mk_over c (Gathered wd p)) (mk_over (set_buffers c s') (Releasing wd p w2))) by (by apply (snapshots _ scan pre must may)).
    pose proof (run_ok ptrs_per_thread _ Hptrs eq_refl _ _ Ho R) as (ds2 & r2 & dl2 & k2 & x2 & l2 & Hi2).
    destruct (releasing_finishes ptrs_per_thread _ Hptrs eq_refl _ _ _ _ _ _ _ _ _ _ Hi2 Hb' Hmax) as (c' & R' & Eh).
    exists c'. split; [by eapply rtc_l | done].
  - destruct Ho as (ds & r & dl & k' & x & l & Hi). apply (releasing_finishes ptrs_per_thread _ Hptrs eq_refl _ _ _ _ _ _ _ _ _ _ Hi); [| done]. intros E. by rewrite E in Hb; cbn in Hb; lia.
  - apply (pushed_finishes ptrs_per_thread _ Hptrs eq_refl); try done. intros E. by rewrite E in Hb; cbn in Hb; lia.
  - pose proof Ho as (ds & r & dl & k' & x & l & [_ _ _ _ (w & u & Hw & _) _]).
    by apply (copying_finishes ptrs_per_thread _ Hptrs eq_refl _ _ _ _ _ Ho Hw (le_n _)).
Qed.
(** ** An iteration of [Cycle] is one of these *)

(** The answer, written where the working data are. *)
Definition answered_at (wd : Z) (w : addr_buffer_t) (s : buffers_t) : buffers_t := set_store s (<[wd := w]> (store s)).

Ltac case_assert := match goal with |- context [assert ?b] => destruct (assert b) as [[] |]; [rewrite !bind_ok | done] end.

Lemma release_answered wd w p s s' : p <> wd -> forkscan_release_buffer p (answered_at wd w s) = Ok s' ->
  exists t, forkscan_release_buffer p s = Ok t /\ s' = answered_at wd w t.
Proof using Type.
  intros Hp. unfold forkscan_release_buffer, buf_modify, buf_load. cbn. rewrite lookup_insert_ne by done.
  case_assert. case_assert.
  destruct (p =? 0); [done |]. destruct (store s !! p) as [d|]; [| done]. rewrite !bind_ok. destruct (ab_is_aggregate d =? 0).
  - case_assert. intros [= <-]. eexists. split; [done |].
    unfold answered_at, set_reclaimer_list, set_store. cbn. by rewrite insert_insert_ne.
  - intros [= <-]. eexists. split; [done |]. unfold answered_at, set_available, set_store. cbn. by rewrite insert_insert_ne.
Qed.

Lemma releasing_apart c wd p w ds r dl k x l : over_inv (ptrs_per_thread * MAX_THREAD_COUNT) (mk_over c (Releasing wd p w)) ds r dl k x l -> wd ∉ ds.
Proof using Type.
  intros [I _ _ _ (H0 & _) _] Hin. destruct (ci_owned _ _ _ _ _ _ _ I) as [Hnd _]. unfold owned, supply in Hnd. cbn in Hnd. rewrite <- !app_assoc in Hnd.
  apply NoDup_app in Hnd as (_ & _ & Hnd). apply NoDup_app in Hnd as (_ & D & _). apply (D wd Hin). rewrite !elem_of_app, elem_of_maybe. do 4 right. by right; left.
Qed.

Lemma releases_run fuel : forall c wd p w ds r dl k x l s', over_inv (ptrs_per_thread * MAX_THREAD_COUNT) (mk_over c (Releasing wd p w)) ds r dl k x l ->
  loop fuel release_step (p, answered_at wd w (buffers c)) = Ok s' ->
  exists t, s' = answered_at wd w t /\ rtc runs (mk_over c (Releasing wd p w)) (mk_over (set_buffers c t) (Releasing wd 0 w)).
Proof using Hptrs.
  induction fuel as [|fuel IH]; intros c wd p w ds r dl k x l s' H; [done |]. rewrite loop_S. unfold release_step at 1.
  destruct (Z.eqb_spec p 0) as [-> | Hp].
  - cbn. intros [= <-]. exists (buffers c). split; [done |]. replace (set_buffers c (buffers c)) with c; [done |]. by destruct c as [[] ? ? ? ? ? ?].
  - pose proof (releasing_apart _ _ _ _ _ _ _ _ _ _ H) as Hn. pose proof H as [_ _ _ _ (_ & Hch & _) _].
    destruct ds as [|y ds]; [by cbn in Hch |]. destruct Hch as (<- & _ & d & Hd & _). apply not_elem_of_cons in Hn as [Hn _]. cbn [base] in Hd.
    assert (El : buf_load (buffers c) p = Ok d) by (unfold buf_load; apply Z.eqb_neq in Hp as ->; by rewrite Hd).
    assert (El' : buf_load (answered_at wd w (buffers c)) p = Ok d).
    { unfold buf_load. apply Z.eqb_neq in Hp as ->. cbn. rewrite lookup_insert_ne by done. by rewrite Hd. }
     rewrite El', bind_ok. intros (q & (s1 & E1 & [= <-])%bind_inv & E)%bind_inv.
    destruct (release_answered _ _ _ _ _ (not_eq_sym Hn) E1) as (t & Et & ->).
    destruct (over_gives_back ptrs_per_thread _ Hptrs eq_refl _ _ _ _ _ _ _ _ _ _ _ _ H El Et) as (ds' & _ & H').
    destruct (IH _ _ _ _ _ _ _ _ _ _ _ H' E) as (t' & -> & R). exists t'. split; [done |]. eapply rtc_l; [| exact R].
    unfold runs. cbn [base phase]. by eapply releases.
Qed.

Lemma copies_run n : forall c wd i w u u', g_uncollected_data c <> wd -> g_uncollected_data c <> 0 ->
  buf_load (buffers c) wd = Ok w -> store (buffers c) !! g_uncollected_data c = Some u -> i + Z.of_nat n = ab_n_addrs w ->
  for_upto n i (uncollected_step w) u = Ok u' ->
  rtc runs (mk_over c (Copying wd i)) (mk_over (set_buffers c (answered_at (g_uncollected_data c) u' (buffers c))) (Copying wd (ab_n_addrs w))).
Proof using Type.
  induction n as [|n IH]; intros c wd i w u u' Hne H0 Hw Hu Hi; cbn [for_upto].
  - intros [= <-]. replace i with (ab_n_addrs w) by lia. unfold answered_at. rewrite insert_id by done.
    replace (set_buffers c _) with c; [done |]. by destruct c as [[[]] ? ? ? ? ? ?].
  - intros (u1 & E1 & E)%bind_inv. set (c1 := set_buffers c (answered_at (g_uncollected_data c) u1 (buffers c))).
    assert (Hl : buf_load (buffers c) (g_uncollected_data c) = Ok u) by (unfold buf_load; apply Z.eqb_neq in H0 as ->; by rewrite Hu).
    assert (R : runs (mk_over c (Copying wd i)) (mk_over c1 (Copying wd (i + 1)))).
    { unfold runs. cbn [base phase]. eapply copies; [exact Hw | lia | exact Hl | exact E1 |]. unfold buf_modify. by rewrite Hl. }
    eapply rtc_l; [exact R |].
    specialize (IH c1 wd (i + 1) w u1 u' Hne H0). unfold c1 in IH at 1 2. cbn [buffers set_buffers set_common common set_bufs bufs] in IH.
    assert (E2 : answered_at (g_uncollected_data c) u' (answered_at (g_uncollected_data c) u1 (buffers c)) = answered_at (g_uncollected_data c) u' (buffers c)).
    { unfold answered_at, set_store. cbn. by rewrite insert_insert_eq. }
    change (set_buffers c1 ?s) with (set_buffers c s) in IH. change (buffers c1) with (answered_at (g_uncollected_data c) u1 (buffers c)) in IH.
    change (g_uncollected_data c1) with (g_uncollected_data c) in IH. rewrite E2 in IH. apply IH; [| apply lookup_insert_eq | lia | done].
    unfold buf_load, answered_at in *. cbn. rewrite lookup_insert_ne by done. exact Hw.
Qed.
Lemma runs_ok o o' : over_ok (ptrs_per_thread * MAX_THREAD_COUNT) o -> rtc runs o o' -> over_ok (ptrs_per_thread * MAX_THREAD_COUNT) o'.
Proof using Hptrs. intros H R. induction R as [|o1 o2 o3 S R IH]; [done |]. apply IH. by eapply (run_ok ptrs_per_thread). Qed.

(** The division, without a step of the threads. *)
Lemma divide_run c wd s' u : over_ok (ptrs_per_thread * MAX_THREAD_COUNT) (mk_over c (Pushed wd)) -> (blocks (buffers c) <> []) ->
  (let! w := buf_load (buffers c) wd in
   let! ' (g_uncollected_data, s) := forkscan_make_aggregate_buffer (ab_capacity w) (buffers c) in
   let! u := buf_load s g_uncollected_data in
   let! w := buf_load s wd in
   let! u := for_range 0 (ab_n_addrs w) (uncollected_step w) u in
   let! s := buf_modify s g_uncollected_data (fun _ => u) in
   let! s := forkscan_buffer_unref_buffer wd s in
   Ok (g_uncollected_data, s)) = Ok (u, s') ->
  rtc runs (mk_over c (Pushed wd)) (mk_over (set_collector c s' u (g_addr_buffer c)) Between).
Proof using Hptrs.
  intros H Hb (w & E1 & ([u0 s1] & E2 & (e & E3 & (w1 & E4 & (u' & E5 & (s2 & E6 & (s3 & E7 & [= -> ->])%bind_inv)%bind_inv)%bind_inv)%bind_inv)%bind_inv)%bind_inv)%bind_inv.
  set (c1 := set_collector c s1 u (g_addr_buffer c)).
  assert (R1 : runs (mk_over c (Pushed wd)) (mk_over c1 (Copying wd 0))) by (unfold runs; cbn; by eapply makes).
  pose proof (run_ok ptrs_per_thread _ Hptrs eq_refl _ _ H R1) as (ds & r & dl & k & x & l & [I _ _ _ (w2 & e2 & Hw & He & Hu0 & Hn & _) _]). cbn [base phase] in *.
  destruct (divided_lookup _ Hptrs _ _ _ _ _ _ _ _ _ I) as (Hwd0 & Hwk & _).
  destruct (view_apart _ Hptrs _ _ _ _ _ _ _ _ _ _ u I ltac:(right; by split)) as [_ Huk].
  apply buf_load_inv in E3 as [_ He1]. pose proof E4 as [_ Hw1]%buf_load_inv. change (store (buffers c1)) with (store s1) in Hw. rewrite Hw1 in Hw. injection Hw as <-.
  apply buf_modify_inv in E6 as (e3 & _ & _ & ->).
  eapply rtc_l; [exact R1 |]. etransitivity; [apply (copies_run (Z.to_nat (ab_n_addrs w1 - 0)) c1 wd 0 w1 e u') |].
  - cbn. intros E0. by rewrite E0 in Huk.
  - exact Hu0.
  - exact E4.
  - exact He1.
  - lia.
  - exact E5.
  - apply rtc_once. unfold runs. cbn [base phase].
    refine (ends (set_buffers c1 (answered_at u u' s1)) wd (ab_n_addrs w1) w1 s' _ (Z.le_refl _) E7).
    unfold buf_load. apply Z.eqb_neq in Hwd0 as ->. cbn. rewrite lookup_insert_ne; [by rewrite Hw1 |]. intros E0. by rewrite E0 in Huk.
Qed.

Lemma release_blocks p s s' : forkscan_release_buffer p s = Ok s' -> blocks s' = blocks s.
Proof using Type.
  unfold forkscan_release_buffer, assert. intros E. clear Hptrs. run_inv; match goal with H : buf_modify _ _ _ = Ok _ |- _ => by apply buf_modify_inv in H as (? & _ & _ & ->) end.
Qed.

Lemma release_all_blocks p s s' : release_all p s = Ok s' -> blocks s' = blocks s.
Proof using Type.
  unfold release_all. generalize (Datatypes.S (Datatypes.S (size (store s)))). intros fuel. revert p s.
  induction fuel as [|fuel IH]; intros p s; [done |]. rewrite loop_S. unfold release_step at 1. destruct (p =? 0); [by intros [= <-] |]. cbn beta iota.
  intros (q & (d & _ & (s1 & E1 & [= <-])%bind_inv)%bind_inv & E)%bind_inv. rewrite (IH _ _ E). by eapply release_blocks.
Qed.

Lemma push_back_blocks p s s' : forkscan_buffer_push_back p s = Ok s' -> blocks s' = blocks s.
Proof using Type.
  unfold forkscan_buffer_push_back. intros (s1 & (d & _ & _ & ->)%buf_modify_inv & E)%bind_inv. destruct (_ =? 0); [by injection E as <- |].
  by apply bind_inv in E as (s2 & (d2 & _ & _ & ->)%buf_modify_inv & [= <-]).
Qed.

(** From the child's answer on: [release_all] and [divide]. *)
Lemma answer_run c wd p w s4 u s' : over_ok (ptrs_per_thread * MAX_THREAD_COUNT) (mk_over c (Releasing wd p w)) ->
  (blocks (buffers c) <> []) -> release_all p (answered_at wd w (buffers c)) = Ok s4 -> divide wd s4 = Ok (u, s') ->
  rtc runs (mk_over c (Releasing wd p w)) (mk_over (set_collector c s' u (g_addr_buffer c)) Between).
Proof using Hptrs.
  intros H Hb E (s5 & E1 & E2)%bind_inv. pose proof H as (ds & r & dl & k & x & l & Hi).
  pose proof (release_all_blocks _ _ _ E) as Eb. cbn in Eb. destruct (releases_run _ _ _ _ _ _ _ _ _ _ _ _ Hi E) as (t & -> & R1).
  pose proof (runs_ok _ _ H R1) as H2. pose proof H2 as (? & ? & ? & ? & ? & ? & [_ _ _ _ (H0 & _ & d & Hd & _) _]). cbn [base] in Hd.
  assert (R2 : runs (mk_over (set_buffers c t) (Releasing wd 0 w)) (mk_over (set_buffers c s5) (Pushed wd))).
  { unfold runs. cbn [base phase]. eapply (pushes (set_buffers c t)); [| exact E1]. unfold buf_modify, buf_load. apply Z.eqb_neq in H0 as ->.
    change (buffers (set_buffers c t)) with t in *. by rewrite Hd. }
  etransitivity; [exact R1 |]. eapply rtc_l; [exact R2 |]. apply (divide_run (set_buffers c s5) wd s' u).
  - by eapply (run_ok ptrs_per_thread _ Hptrs eq_refl).
  - change (buffers (set_buffers c s5)) with s5. by rewrite (push_back_blocks _ _ _ E1), Eb.
  - exact E2.
Qed.

(** An iteration is a run of its steps. *)
Lemma iteration_run pre must may scan `{!Scanner pre must may scan} c dl k u s' : over_ok (ptrs_per_thread * MAX_THREAD_COUNT) (mk_over c Between) ->
  bchain (store (buffers c)) (g_addr_buffer c) dl -> retirees (buffers c) k -> may_iterate c dl ->
  may_scan pre (nodes_of (buffers c) (g_uncollected_data c) dl)
    (take (Z.to_nat (g_default_capacity (buffers c))) (dead_of (store (buffers c)) k)) ->
  reclaim_iteration scan (g_uncollected_data c) (g_addr_buffer c) (buffers c) = Ok (u, s') ->
  rtc runs (mk_over c Between) (mk_over (iterated c u s') Between).
Proof using Hptrs.
  intros H Hdl Hk M Hpre E. pose proof M as (_ & _ & _ & Hb). pose proof H as (ds & r & dl0 & k0 & x & l & Hi).
  assert (k0 = k) as ->.
  { pose proof Hi as [I _ _ _ _ _]. by rewrite (lchain_unique _ _ _ _ _ (rt_chain _ _ (ci_retirees _ _ _ _ _ _ _ I)) (rt_chain _ _ Hk)). }
  apply bind_inv in E as ([[wd f] s1] & E1 & ([p2 s2] & E2 & (w & E3 & (d & E4 & ([w1 d1] & E5 & (w2 & E6 & (s3 & E7 & (s4 & E8 & (s5 & E9 & E10)%bind_inv)%bind_inv)%bind_inv)%bind_inv)%bind_inv)%bind_inv)%bind_inv)%bind_inv).
  destruct (over_gathers ptrs_per_thread _ Hptrs eq_refl _ _ _ _ _ _ _ _ _ _ _ Hi Hdl M E1) as (-> & l' & Hi1 & Ec & Ed & Edef & Hlen).
  set (c1 := set_collector c s1 0 0) in *.
  assert (R1 : runs (mk_over c Between) (mk_over c1 (Gathered wd (g_addr_buffer c)))) by (unfold runs; cbn; by eapply gathers).
  pose proof Hi1 as [I1 _ _ _ (H0 & Hch & Hds & Hne) _]. cbn [base phase view] in *.
  destruct (ci_old _ _ _ _ _ _ _ I1 H0) as (w0 & Hw & _). destruct (view_staged _ Hptrs _ _ _ _ _ _ _ _ _ _ I1 H0 Hch Hds Hw) as [Hdef _].
  change (buffers c1) with s1 in *. rewrite <- Ec, <- Ed, <- Edef, Hdef in Hpre.
  destruct (gathered_goes _ Hptrs pre must may scan _ _ _ _ _ _ _ _ _ Hi1 ltac:(cbn; lia) Hpre) as (t & w3 & Sn & Hbt).
  assert (Hbs : blocks s1 <> []) by (intros E0; rewrite E0 in Hlen; cbn in Hlen; lia).
  destruct (inv_tables _ Hptrs _ _ _ _ _ _ _ _ _ _ _ _ w I1 H0 Hch Hds Hw Hbs E2) as (_ & _ & Hwp & _).
  assert (Et : t = set_store s2 (<[p2 := d1]> (store s2)) /\ w3 = w2).
  { remember (set_buffers c1 t) as ct eqn:Ft. destruct Sn as [p3 t3 v3 e3 v4 e4 v5 t4 _ F2 F3 F4 F5 _ F7 F8]. change (buffers c1) with s1 in F2. rewrite E2 in F2. injection F2 as <- <-.
    rewrite E3 in F3. injection F3 as <-. rewrite E4 in F4. injection F4 as <-. rewrite E5 in F5. injection F5 as <- <-.
    rewrite E6 in F7. injection F7 as ->. split; [| done]. apply (f_equal buffers) in Ft. change (t4 = t) in Ft. subst t4.
    by apply buf_modify_inv in F8 as (? & _ & _ & ->). }
  destruct Et as [-> ->]. set (t := set_store s2 (<[p2 := d1]> (store s2))) in *.
  assert (R2 : runs (mk_over c1 (Gathered wd (g_addr_buffer c))) (mk_over (set_buffers c1 t) (Releasing wd (g_addr_buffer c) w2)))
    by (by apply (snapshots _ scan pre must may)).
  pose proof (run_ok ptrs_per_thread _ Hptrs eq_refl _ _ H R1) as H1. pose proof (run_ok ptrs_per_thread _ Hptrs eq_refl _ _ H1 R2) as H2.
  eapply rtc_l; [exact R1 |]. eapply rtc_l; [exact R2 |]. change (iterated c u s') with (set_collector (set_buffers c1 t) s' u (g_addr_buffer (set_buffers c1 t))).
  eapply (answer_run _ _ _ _ s5); [exact H2 | exact Hbt | | exact E10].
  apply buf_modify_inv in E7 as (? & _ & _ & ->), E8 as (? & _ & _ & ->).
  assert (Ea : answered_at wd w2 (buffers (set_buffers c1 t)) = set_store (set_store s2 (<[wd := w2]> (store s2))) (<[p2 := d1]> (<[wd := w2]> (store s2)))).
  { unfold answered_at, set_store. cbn. by rewrite insert_insert_ne. }
  by rewrite Ea.
Qed.

(** What can happen between the iterations of [Cycle] can happen here: the
    collector takes all its steps, and the threads take none meanwhile. *)
Lemma cycle_overlaps c : cycle_reachable ptrs_per_thread c -> within (holders c) -> over_reachable ptrs_per_thread (mk_over c Between).
Proof using Hptrs.
  intros H. induction H as [|c c' H IH S]; intros Hw; [apply rtc_refl |]. unfold over_reachable.
  destruct S as [c' S | scan pre must may dl k u s' Hsc Hdl Hk M Hpre E].
  - etransitivity; [apply IH; by eapply within_before; [| eapply cycle_reachable_placed |] |].
    apply rtc_once. by apply (thread_goes _ (mk_over c Between)).
  - specialize (IH Hw). etransitivity; [exact IH |].
    pose proof (iteration_run pre must may scan c dl k u s' (over_reachable_ok _ IH Hw) Hdl Hk M Hpre E) as R.
    clear -R. induction R as [|o1 [c2 ph2] o3 S R IH]; [done |]. eapply rtc_l; [by apply collector_goes | done].
Qed.
End properties.

(** ** Witnesses *)

(** A move of a thread, or of the collector, whose scan finds [us]. *)
Inductive over_move_t : Type := OThread (m : move_t) | OCollector (us : list Z).

Definition snapshot1 (us : list Z) (c : cycle_t) (wd : Z) : option (cycle_t * addr_buffer_t) :=
  '(p2, s') ← to_option (forkscan_buffer_get_dead_references (buffers c));
  w ← to_option (buf_load s' wd);
  d ← to_option (buf_load s' p2);
  '(w1, d1) ← to_option (prepare w d);
  w2 ← to_option (listed_scan us w1 d1);
  s2 ← to_option (buf_modify s' p2 (fun _ => d1));
  if (0 <? length (blocks (buffers c)))%nat && pool_wfb w1 then Some (set_buffers c s2, w2) else None.

Definition collect1 (us : list Z) (c : cycle_t) (ph : phase_t) : option over_t :=
  let s := buffers c in
  match ph with
  | Between =>
      dl ← listing 9 (store s) (g_addr_buffer c);
      '(wd, _, s') ← to_option (aggregate_addrs (g_uncollected_data c) (g_addr_buffer c) s);
      if may_iterateb c dl then Some (mk_over (set_collector c s' 0 0) (Gathered wd (g_addr_buffer c))) else None
  | Gathered wd p =>
      '(c', w) ← snapshot1 us c wd;
      if forallb (fun v => v mod 4 =? 0) us then Some (mk_over c' (Releasing wd p w)) else None
  | Releasing wd p w =>
      if p =? 0 then
        s1 ← to_option (buf_modify s wd (fun _ => w));
        s' ← to_option (forkscan_buffer_push_back wd s1);
        Some (mk_over (set_buffers c s') (Pushed wd))
      else
        d ← to_option (buf_load s p);
        s' ← to_option (forkscan_release_buffer p s);
        Some (mk_over (set_buffers c s') (Releasing wd (ab_next d) w))
  | Pushed wd =>
      d ← to_option (buf_load s wd);
      '(u, s') ← to_option (forkscan_make_aggregate_buffer (ab_capacity d) s);
      if (0 <? length (blocks s))%nat then Some (mk_over (set_collector c s' u (g_addr_buffer c)) (Copying wd 0)) else None
  | Copying wd i =>
      w ← to_option (buf_load s wd);
      if i <? ab_n_addrs w then
        u ← to_option (buf_load s (g_uncollected_data c));
        u' ← to_option (uncollected_step w i u);
        s' ← to_option (buf_modify s (g_uncollected_data c) (fun _ => u'));
        Some (mk_over (set_buffers c s') (Copying wd (i + 1)))
      else
        s' ← to_option (forkscan_buffer_unref_buffer wd s);
        Some (mk_over (set_buffers c s') Between)
  end.

Definition over_move (m : over_move_t) (o : over_t) : option over_t :=
  match m with
  | OThread m => if by_thread m then c ← move1 m (base o); Some (mk_over c (phase o)) else None
  | OCollector us => collect1 us (base o) (phase o)
  end.

Lemma blocks_some (l : list Z) : (0 <? length l)%nat = true -> l <> [].
Proof. by destruct l. Qed.

Lemma snapshot1_taken us c wd c' w : snapshot1 us c wd = Some (c', w) ->
  snapshot (fun w _ => pool_wf w) (listed_scan us) c wd c' w.
Proof.
  unfold snapshot1. intros H. move_tac.
  subst w. eapply snapshot_taken; [by apply blocks_some | eassumption.. | by apply pool_wfb_sound | eassumption | eassumption].
Qed.

Lemma over_move_step m o o' : over_move m o = Some o' -> over_step 1 o o'.
Proof.
  destruct o as [c ph], m as [m | us]; cbn [over_move base phase]; intros H.
  - move_tac. apply thread_goes. by eapply move1_thread.
  - destruct ph; cbn [collect1] in H; move_tac; apply collector_goes; cbn [base phase].
    + eapply gathers; [by eapply listing_bchain | by apply may_iterateb_ok | done].
    + apply (snapshots _ (listed_scan us) (fun w _ => pool_wf w) (fun v => v ∈ us) (fun v => v ∈ us));
        [by apply listed_scanner, TCEq_eq | by apply snapshot1_taken].
    + match goal with H : (_ =? 0) = true |- _ => apply Z.eqb_eq in H; subst end. by eapply pushes.
    + by eapply releases.
    + eapply makes; [by apply blocks_some | done | done].
    + eapply copies; try done. lia.
    + eapply ends; try done. lia.
Qed.

Fixpoint over_moves (ms : list over_move_t) (o : over_t) : option over_t :=
  match ms with [] => Some o | m :: ms => o' ← over_move m o; over_moves ms o' end.

Lemma over_moves_steps ms o o' : over_moves ms o = Some o' -> rtc (over_step 1) o o'.
Proof.
  revert o. induction ms as [|m ms IH]; intros o; cbn; [by intros [= <-] |].
  intros (o1 & H1 & H2)%bind_Some. eapply rtc_l; [by eapply over_move_step | by apply IH].
Qed.

(** Three nodes are retired and gathered; while the child scans, which finds the
    second referred to, a thread retires a fourth; the first is freed before the
    collector has begun to copy, the third and the buffer given back before it
    is done. *)
Definition over_gathered : list over_move_t := (OThread <$> demo_first) ++ [OCollector []].
Definition over_meanwhile : list over_move_t := OThread <$> [MTake; MHand [64]].
Definition over_pushed : list over_move_t := [OCollector []; OCollector []] ++ (OThread <$> MRetiree :: go 4).
Definition over_copied : list over_move_t := [OCollector []; OCollector []] ++ (OThread <$> go 8) ++ [OCollector []].
Definition over_asked : list over_move_t := over_gathered ++ over_meanwhile.
Definition over_divided : list over_move_t := over_asked ++ [OCollector [32]] ++ over_pushed ++ over_copied.

Definition demo_over (ms : list over_move_t) : over_t := default over_start (over_moves ms over_start).

Lemma demo_over_reachable ms : bool_decide (is_Some (over_moves ms over_start)) = true -> over_reachable 1 (demo_over ms).
Proof.
  intros [o H]%bool_decide_eq_true. unfold demo_over. rewrite H. by eapply over_moves_steps.
Qed.

Lemma overlap_conserves_witness : exists dl k x : list Z, let o := demo_over over_divided in
  bchain (store (buffers (base o))) (g_addr_buffer (base o)) dl /\ retirees (buffers (base o)) k /\
  (forall q, q ∈ x -> divides (phase o) q \/ exists t b, (t, b) ∈ holders (base o) /\ retiree_buffer t = q) /\
  let waiting := contents (store (buffers (base o))) dl in
  let dead := dead_of (store (buffers (base o))) (k ++ x) in
  [64; 16; 32; 48] ≡ₚ [48; 16] ++ [32] ++ waiting ++ dead /\ NoDup ([32] ++ waiting ++ dead).
Proof.
  assert (R : over_reachable 1 (demo_over over_divided)) by (apply demo_over_reachable; by vm_compute).
  destruct (overlap_conserves 1 ltac:(vm_compute; split; congruence) (demo_over over_divided) R ltac:(apply within_check; by vm_compute)) as (dl & k & x & H).
  exists dl, k, x. exact H.
Defined.

Definition answeredb (ph : phase_t) : bool := match ph with Gathered _ _ => false | _ => true end.

Fixpoint on_moves (ms : list over_move_t) (o : over_t) : option over_t :=
  match ms with [] => Some o | m :: ms => o' ← over_move m o; if answeredb (phase o') then on_moves ms o' else None end.

Lemma on_moves_steps ms o o' : on_moves ms o = Some o' -> rtc (on_step 1) o o'.
Proof.
  revert o. induction ms as [|m ms IH]; intros o; cbn; [by intros [= <-] |].
  intros (o1 & H1 & H2)%bind_Some. destruct (answeredb (phase o1)) eqn:E; [| done].
  eapply rtc_l; [| by apply IH]. split; [by eapply over_move_step | by destruct (phase o1)].
Qed.

Definition answer (o : over_t) : addr_buffer_t := match phase o with Releasing _ _ w => w | _ => fresh_buffer 0 [] [] 0 0 end.

(** The iteration above, from the child's answer to the end. *)
Lemma referenced_kept_witness :
  let o := demo_over (over_divided ++ [OCollector []; OCollector []]) in
  32 ∈ found o /\ count_occ Z.eq_dec (retired (base o)) 32 = Datatypes.S (count_occ Z.eq_dec (freed_nodes (common (base o))) 32).
Proof.
  set (o := demo_over (over_divided ++ [OCollector []; OCollector []])). set (o1 := demo_over over_asked).
  set (o2 := demo_over (over_asked ++ [OCollector [32]])).
  assert (H32 : TCEq (forallb (fun v => v mod 4 =? 0) [32]) true) by constructor.
  destruct (referenced_kept 1 ltac:(vm_compute; split; congruence) (fun w _ => pool_wf w) (fun v => v ∈ [32]) (fun v => v ∈ [32]) (listed_scan [32])
    (base o1) 0x20000 0x10000 (base o2) (answer o2) o) as (Hmust & _ & Hunfreed).
  - assert (E1 : mk_over (base o1) (Gathered 0x20000 0x10000) = o1) by (by vm_compute). rewrite E1. apply demo_over_reachable. by vm_compute.
  - apply snapshot1_taken. by vm_compute.
  - apply (on_moves_steps (over_pushed ++ over_copied ++ [OCollector []; OCollector []])). by vm_compute.
  - apply within_check. by vm_compute.
  - assert (Hf : 32 ∈ found o) by (apply Hmust; [vm_compute; right; left | left]). split; [exact Hf | by apply Hunfreed].
Defined.

Lemma collector_finishes_witness : let o := demo_over over_asked in
  exists c', rtc runs o (mk_over c' Between) /\ holders c' = [].
Proof.
  set (o := demo_over over_asked). assert (H32 : TCEq (forallb (fun v => v mod 4 =? 0) [32]) true) by constructor.
  apply (collector_finishes 1 ltac:(vm_compute; split; congruence) (fun w _ => pool_wf w) (fun v => v ∈ [32]) (fun v => v ∈ [32]) (listed_scan [32]) o []).
  - apply demo_over_reachable. by vm_compute.
  - apply within_check. by vm_compute.
  - split; [by vm_compute | constructor | by vm_compute].
  - vm_compute. lia.
  - by vm_compute.
  - intros wd p _ w d W _ _ _ _. exact W.
Defined.
