(* ===== verification/Handshake.v ===== *)
(** forkscan.c, frontend.c: stopping the threads for the snapshot.

    The collector signals every thread and forks when all have acknowledged;
    a thread that is inside the allocator puts its acknowledgement off until
    it is out of it.  The threads and the collector interleave step by step,
    a step being a read or a write of a shared variable.  The set of threads
    is fixed during a round: the walk of the thread list holds its lock, and
    threads that come later are not signalled. *)
From S2P Require Import Prelude.

#[local] Arguments Nat.ltb : simpl never.

(** * Threads *)

(** [forkscan_acknowledge_signal]: before the read of [g_cleanup_counter],
    before the increment of [g_received_signal], in the loop. *)
Inductive ack_t : Type :=
  | Reading
  | Adding (old_counter : Z)
  | Spinning (old_counter : Z).

(** The thread's own code: outside the allocator, mapping memory for Forkscan
    with the [list_lock] of alloc.c held, inside the allocator between the two
    assignments of [g_in_malloc], before the test of [g_waiting_to_fork],
    acknowledging late. *)
Inductive user_pc : Type :=
  | Outside
  | Mapping
  | Inside
  | Leaving
  | Late (a : ack_t).

(** [signal_handler], which interrupts the thread's own code; the signal is
    blocked while it runs. *)
Inductive handler_pc : Type :=
  | NoHandler
  | Entered
  | Handling (a : ack_t).

Record thread_t : Type := mk_thread {
  user : user_pc;
  handler : handler_pc;
  g_in_malloc : bool;
  g_waiting_to_fork : bool;
  pending : bool }.            (* the signal has been sent, not delivered *)

(** One step of [forkscan_acknowledge_signal] with [g_cleanup_counter] at [c]
    and [g_received_signal] at [r]: what comes next, if anything. *)
Definition acknowledge_step (c r : Z) (a : ack_t) : option ack_t * Z :=
  match a with
  | Reading => (Some (Adding c), r)
  | Adding old => (Some (Spinning old), to_int (u32 (r + 1)))
  | Spinning old => (if old =? c then Some (Spinning old) else None, r)
  end.

Definition set_user (t : thread_t) u := mk_thread u (handler t) (g_in_malloc t) (g_waiting_to_fork t) (pending t).
Definition set_handler (t : thread_t) h := mk_thread (user t) h (g_in_malloc t) (g_waiting_to_fork t) (pending t).

(** One step of [signal_handler]; [None]: it has returned. *)
Definition handler_step (c r : Z) (t : thread_t) : option (thread_t * Z) :=
  match handler t with
  | NoHandler => None
  | Entered =>
      if g_in_malloc t then Some (mk_thread (user t) NoHandler true true (pending t), r)
      else Some (set_handler t (Handling Reading), r)
  | Handling a =>
      let '(next, r) := acknowledge_step c r a in
      Some (set_handler t (match next with Some a => Handling a | None => NoHandler end), r)
  end.

(** One step of [forkscan_malloc], and likewise of [forkscan_free], [yield]
    and [forkscan_retire] around the allocator.  [list_lock] is taken without
    [g_in_malloc], in [forkscan_make_reclaimer_buffer] say; it is a step of
    its own, below. *)
Definition user_step (c r : Z) (t : thread_t) : thread_t * Z :=
  match user t with
  | Outside => (mk_thread Inside (handler t) true (g_waiting_to_fork t) (pending t), r)
  | Mapping => (set_user t Outside, r)
  | Inside => (mk_thread Leaving (handler t) false (g_waiting_to_fork t) (pending t), r)
  | Leaving =>
      if g_waiting_to_fork t then (mk_thread (Late Reading) (handler t) (g_in_malloc t) false (pending t), r)
      else (set_user t Outside, r)
  | Late a =>
      let '(next, r) := acknowledge_step c r a in
      (set_user t (match next with Some a => Late a | None => Outside end), r)
  end.

Inductive thread_step (c r : Z) (t : thread_t) : thread_t -> Z -> Prop :=
  | delivered : pending t = true -> handler t = NoHandler ->
      thread_step c r t (mk_thread (user t) Entered (g_in_malloc t) (g_waiting_to_fork t) false) r
  | in_handler t' r' : handler_step c r t = Some (t', r') -> thread_step c r t t' r'
  | in_user t' r' : handler t = NoHandler -> user_step c r t = (t', r') -> thread_step c r t t' r'.

(** * The collector *)

(** [reclaim_iteration] before it resets [g_received_signal], in
    [forkscan_proc_signal] with [k] threads signalled, in the loop that waits
    for them, at [fork], before [++g_cleanup_counter]. *)
Inductive phase_t : Type :=
  | Idle
  | Signalling (k : nat)
  | Awaiting (sig_count : Z)
  | Forking.

Record snap_t : Type := mk_snap {
  ts : list thread_t;
  phase : phase_t;
  g_received_signal : Z;
  g_cleanup_counter : Z;
  deadrefs : bool }.           (* the table of dead references has been mapped *)

Definition is_mapping (t : thread_t) : bool := match user t with Mapping => true | _ => false end.

(** No thread holds [list_lock]. *)
Definition unlocked (l : list thread_t) : bool := forallb (fun t => negb (is_mapping t)) l.

Definition send (t : thread_t) : thread_t := mk_thread (user t) (handler t) (g_in_malloc t) (g_waiting_to_fork t) true.

(** One step of the collector.  When all have acknowledged, and before the
    fork, [forkscan_buffer_get_dead_references] maps its table, if it has
    none yet, which takes [list_lock].  The counter of rounds does not wrap: it has 64
    bits. *)
Definition gc_step (s : snap_t) : snap_t :=
  let '(mk_snap ts phase r c d) := s in
  match phase with
  | Idle => mk_snap ts (Signalling 0) 0 c d
  | Signalling k =>
      match ts !! k with
      | Some t => mk_snap (<[k := send t]> ts) (Signalling (k + 1)) r c d
      | None => mk_snap ts (Awaiting (Z.of_nat k)) r c d
      end
  | Awaiting sig_count =>
      if r <? sig_count then s
      else if d || unlocked ts then mk_snap ts Forking r c true
      else s
  | Forking => mk_snap ts Idle r (c + 1) d
  end.

Inductive snap_step (s : snap_t) : snap_t -> Prop :=
  | gc_moves : snap_step s (gc_step s)
  | thread_moves i t t' r' : ts s !! i = Some t ->
      thread_step (g_cleanup_counter s) (g_received_signal s) t t' r' ->
      snap_step s (mk_snap (<[i := t']> (ts s)) (phase s) r' (g_cleanup_counter s) (deadrefs s))
  | thread_locks i t : ts s !! i = Some t -> handler t = NoHandler -> user t = Outside -> unlocked (ts s) = true ->
      snap_step s (mk_snap (<[i := set_user t Mapping]> (ts s)) (phase s) (g_received_signal s) (g_cleanup_counter s) (deadrefs s)).

Definition fresh_thread : thread_t := mk_thread Outside NoHandler false false false.

Definition snap_start (n : nat) : snap_t := mk_snap (replicate n fresh_thread) Idle 0 0 false.

(** * The invariant *)

Definition b2z (b : bool) : Z := if b then 1 else 0.

(** Acknowledgements a thread has yet to make, and whether it stands in the
    loop of one made this round. *)
Definition owes (a : ack_t) : Z := match a with Spinning _ => 0 | _ => 1 end.
Definition user_owes (u : user_pc) : Z := match u with Late a => owes a | _ => 0 end.
Definition handler_owes (h : handler_pc) : Z := match h with NoHandler => 0 | Entered => 1 | Handling a => owes a end.

Definition owed (t : thread_t) : Z :=
  b2z (pending t) + b2z (g_waiting_to_fork t) + user_owes (user t) + handler_owes (handler t).

Definition spins (c : Z) (a : ack_t) : bool := match a with Spinning old => old =? c | _ => false end.
Definition user_spins (c : Z) (u : user_pc) : bool := match u with Late a => spins c a | _ => false end.
Definition handler_spins (c : Z) (h : handler_pc) : bool := match h with Handling a => spins c a | _ => false end.

Definition acked (c : Z) (t : thread_t) : Z := b2z (user_spins c (user t)) + b2z (handler_spins c (handler t)).

Definition current (c : Z) (a : ack_t) : Prop := match a with Reading => True | Adding old => old = c | Spinning old => old <= c end.

(** A handler interrupted its thread outside an acknowledgement, or in the
    loop of an older one. *)
Definition older (u : user_pc) (h : handler_pc) : Prop :=
  match h with
  | NoHandler => True
  | Entered | Handling Reading => user_owes u = 0
  | Handling (Adding new) | Handling (Spinning new) =>
      user_owes u = 0 /\ match u with Late (Spinning old) => old <= new | _ => True end
  end.

(** A thread that has been signalled this round, [s], either owes one
    acknowledgement or has made it; another does neither. *)
Record thread_ok (c : Z) (s : bool) (t : thread_t) : Prop := {
  to_one : owed t + acked c t = b2z s;
  to_user : match user t with Late a => current c a | _ => True end;
  to_handler : match handler t with Handling a => current c a /\ user t <> Inside | _ => True end;
  to_malloc : g_in_malloc t = match user t with Inside => true | _ => false end;
  to_flag : g_waiting_to_fork t = true -> user t = Inside \/ user t = Leaving;
  to_older : older (user t) (handler t) }.

Fixpoint total (c : Z) (l : list thread_t) : Z :=
  match l with [] => 0 | t :: l => acked c t + total c l end.

(** Which threads have been signalled. *)
Definition signalled (p : phase_t) (i : nat) : bool :=
  match p with Idle => false | Signalling k => (i <? k)%nat | _ => true end.

Record snap_inv (n : nat) (s : snap_t) : Prop := {
  si_length : length (ts s) = n;
  si_threads : forall i t, ts s !! i = Some t -> thread_ok (g_cleanup_counter s) (signalled (phase s) i) t;
  si_received : phase s <> Idle -> g_received_signal s = total (g_cleanup_counter s) (ts s);
  si_phase : match phase s with
             | Signalling k => (k <= n)%nat
             | Awaiting m => m = Z.of_nat n
             | Forking => total (g_cleanup_counter s) (ts s) = Z.of_nat n
             | Idle => True
             end }.

Lemma owed_nonneg t : 0 <= owed t.
Proof.
  unfold owed, user_owes, handler_owes, owes, b2z. destruct t as [u h m w p]. cbn.
  repeat case_match; lia.
Qed.

Lemma acked_nonneg c t : 0 <= acked c t.
Proof. unfold acked, b2z. repeat case_match; lia. Qed.

(** A thread's step keeps its balance: it owes one less exactly when it adds
    to [g_received_signal]. *)
Lemma user_owes_nonneg u : 0 <= user_owes u.
Proof. destruct u as [| | | | []]; cbn; lia. Qed.

Lemma handler_owes_nonneg h : 0 <= handler_owes h.
Proof. destruct h as [| | []]; cbn; lia. Qed.

Lemma b2z_range b : 0 <= b2z b <= 1.
Proof. destruct b; cbn; lia. Qed.

(** Counting what a thread owes. *)
Ltac tokens :=
  unfold owed, acked in *; cbn in *; rewrite ?Z.eqb_refl in *; cbn in *;
  repeat match goal with
  | H : context [b2z ?b] |- _ => lazymatch goal with K : 0 <= b2z b <= 1 |- _ => fail | _ => pose proof (b2z_range b) end
  | |- context [b2z ?b] => lazymatch goal with K : 0 <= b2z b <= 1 |- _ => fail | _ => pose proof (b2z_range b) end
  end;
  repeat match goal with
  | H : context [user_owes ?u] |- _ => lazymatch goal with K : 0 <= user_owes u |- _ => fail | _ => pose proof (user_owes_nonneg u) end
  | H : context [handler_owes ?h] |- _ => lazymatch goal with K : 0 <= handler_owes h |- _ => fail | _ => pose proof (handler_owes_nonneg h) end
  end; cbn in *; lia.

(** The clauses of [thread_ok] after a step, from those before. *)
Ltac balance :=
  split; cbn in *; try assumption; try done; try (by split_and!); try tokens; try (split; [lia | done]);
  try match goal with H : ?w = true -> _ |- ?w = true -> _ => intros Hw; by destruct (H Hw) end.

(** A thread's step keeps its balance: it owes one less exactly when it adds
    to [g_received_signal]. *)
Lemma thread_step_ok c s r t t' r' : thread_ok c s t -> thread_step c r t t' r' ->
  thread_ok c s t' /\ ((acked c t' = acked c t /\ r' = r) \/ (acked c t' = acked c t + 1 /\ r' = to_int (u32 (r + 1)))).
Proof.
  intros [H1 H2 H3 H4 H5 H6] Hs. destruct t as [u h m w p]. cbn in *.
  destruct Hs as [Hp Hh | t' r' E | t' r' Hh E]; cbn in *; subst.
  - split; [balance | by left].
  - unfold handler_step in E. cbn in E. destruct h as [| | a]; [done | |].
    + destruct u as [| | | | a]; injection E as <- <-; (split; [balance | by left]).
      by left.
    + destruct H3 as [H3 H3']. destruct a as [| old | old]; cbn in E; injection E as <- <-.
      * split; [balance | by left]. split; [done |]. destruct u as [| | | | [| |]]; done.
      * cbn in H3. subst old. split; [balance |].
        right. split; [| done]. unfold acked. cbn. rewrite Z.eqb_refl. cbn. lia.
      * destruct (old =? c) eqn:Eo; (split; [balance; unfold owed, acked in *; cbn in *; rewrite ?Eo in *; cbn in *; tokens |
          left; unfold acked; cbn; rewrite ?Eo; done]).
  - unfold user_step in E. cbn in E. destruct u as [| | | | a].
    + injection E as <- <-. split; [balance; by left | by left].
    + injection E as <- <-. split; [balance | by left].
    + injection E as <- <-. split; [balance; by right | by left].
    + destruct w; injection E as <- <-; (split; [balance | by left]).
    + destruct a as [| old | old]; cbn in E; injection E as <- <-.
      * split; [balance | by left].
      * cbn in H2. subst old. split; [balance |].
        right. split; [| done]. unfold acked. cbn. rewrite Z.eqb_refl. cbn. lia.
      * destruct (old =? c) eqn:Eo; (split; [balance; unfold owed, acked in *; cbn in *; rewrite ?Eo in *; cbn in *; tokens |
          left; unfold acked; cbn; rewrite ?Eo; done]).
Qed.

Lemma total_insert c l i t t' : l !! i = Some t -> total c (<[i := t']> l) = total c l - acked c t + acked c t'.
Proof.
  revert i. induction l as [|x l IH]; intros [|i] H; cbn in *; [done | done | injection H as ->; lia |].
  rewrite IH by done. lia.
Qed.

Lemma acked_one c s t : thread_ok c s t -> acked c t <= b2z s.
Proof. intros [H _ _ _ _ _]. pose proof (owed_nonneg t). lia. Qed.

Lemma total_bound c l : (forall i t, l !! i = Some t -> acked c t <= 1) -> total c l <= Z.of_nat (length l).
Proof.
  induction l as [|x l IH]; intros H; cbn; [lia |]. specialize (H 0%nat) as H0. specialize (H0 x eq_refl).
  assert (total c l <= Z.of_nat (length l)) by (apply IH; intros i t; apply (H (Datatypes.S i))). lia.
Qed.

Lemma total_zero c l : (forall i t, l !! i = Some t -> acked c t = 0) -> total c l = 0.
Proof.
  induction l as [|x l IH]; intros H; cbn; [done |]. rewrite (H 0%nat x) by done.
  rewrite IH; [done |]. intros i t. apply (H (Datatypes.S i)).
Qed.

Lemma total_full c l : (forall i t, l !! i = Some t -> acked c t <= 1) -> total c l = Z.of_nat (length l) ->
  forall i t, l !! i = Some t -> acked c t = 1.
Proof.
  induction l as [|x l IH]; intros H E i t Ht; [done |].
  pose proof (H 0%nat x eq_refl) as H0. assert (Hl : forall i t, l !! i = Some t -> acked c t <= 1) by (intros j; apply (H (Datatypes.S j))).
  pose proof (total_bound c l Hl) as Hb. cbn in E. destruct i as [|i]; cbn in Ht; [injection Ht as ->; lia |].
  apply (IH Hl ltac:(lia) i t Ht).
Qed.

Lemma acked_all n s : snap_inv n s -> forall i t, ts s !! i = Some t -> acked (g_cleanup_counter s) t <= 1.
Proof.
  intros I i t Ht. pose proof (acked_one _ _ _ (si_threads _ _ I i t Ht)). destruct (signalled _ _); cbn in *; lia.
Qed.

(** Between two rounds no thread owes anything. *)
Lemma next_round c s t : thread_ok c s t -> acked c t = 1 -> thread_ok (c + 1) false t.
Proof.
  intros [H1 H2 H3 H4 H5 H6] Ha. pose proof (owed_nonneg t) as Ho. destruct s; cbn in H1; [| lia].
  assert (Hu : acked (c + 1) t = 0).
  { unfold acked, user_spins, handler_spins, spins. destruct (user t) as [| | | | [| |]], (handler t) as [| | [| |]]; cbn in *;
      repeat match goal with |- context [?a =? ?b] => destruct (Z.eqb_spec a b) end; cbn; lia. }
  assert (Hz : user_owes (user t) = 0 /\ handler_owes (handler t) = 0).
  { unfold owed, b2z in *. assert (0 <= user_owes (user t) /\ 0 <= handler_owes (handler t)) as [? ?].
    { unfold user_owes, handler_owes, owes. repeat case_match; lia. }
    destruct (pending t), (g_waiting_to_fork t); lia. }
  destruct Hz as [Zu Zh]. split.
  - cbn. lia.
  - destruct (user t) as [| | | | [| |]]; cbn in *; lia || done.
  - destruct (handler t) as [| | [| |]]; cbn in *; try lia; try done. split; [lia | by destruct H3].
  - done.
  - done.
  - done.
Qed.

Lemma gc_step_inv n s : snap_inv n s -> snap_inv n (gc_step s).
Proof.
  intros I. pose proof (acked_all n s I) as Hle. destruct I as [Hl Ht Hr Hp].
  destruct s as [l ph r c d]. cbn in *. destruct ph as [| k | m |].
  - split; cbn; [done | | | lia].
    + intros i t Hi. specialize (Ht i t Hi). cbn in Ht. by replace (i <? 0)%nat with false by (symmetry; apply Nat.ltb_ge; lia).
    + intros _. rewrite total_zero; [done |]. intros i t Hi. pose proof (acked_one _ _ _ (Ht i t Hi)). pose proof (acked_nonneg c t).
      cbn in *. lia.
  - destruct (l !! k) as [t|] eqn:Ek.
    + apply lookup_lt_Some in Ek as Hk. split; cbn.
      * by rewrite length_insert.
      * intros i t' Hi. destruct (decide (i = k)) as [-> | Hne].
        -- rewrite list_lookup_insert_eq in Hi by done. injection Hi as <-. specialize (Ht k t Ek). cbn in Ht.
           replace (k <? k)%nat with false in Ht by (symmetry; apply Nat.ltb_irrefl).
           replace (k <? k + 1)%nat with true by (symmetry; apply Nat.ltb_lt; lia).
           destruct Ht as [H1 H2 H3 H4 H5 H6]. pose proof (owed_nonneg t). pose proof (acked_nonneg c t).
           split; try done. cbn in H1 |- *. unfold owed in *. cbn. unfold acked in *. cbn.
           assert (0 <= user_owes (user t) /\ 0 <= handler_owes (handler t)) as [? ?].
           { unfold user_owes, handler_owes, owes. repeat case_match; lia. }
           unfold b2z in *. destruct (pending t), (g_waiting_to_fork t); lia.
        -- rewrite list_lookup_insert_ne in Hi by done. specialize (Ht i t' Hi). cbn in Ht.
           replace (i <? k + 1)%nat with (i <? k)%nat; [done |]. destruct (Nat.ltb_spec i k), (Nat.ltb_spec i (k + 1)); lia || done.
      * intros _. rewrite (total_insert _ _ _ t) by done. rewrite Hr by done. unfold send, acked. cbn. lia.
      * lia.
    + apply lookup_ge_None in Ek. assert (k = n) as -> by lia. split; cbn; [done | | by intros _; apply Hr | done].
      intros i t Hi. specialize (Ht i t Hi). cbn in Ht. apply lookup_lt_Some in Hi.
      replace (i <? n)%nat with true in Ht by (symmetry; apply Nat.ltb_lt; lia). done.
  - destruct (Z.ltb_spec r m) as [Hlt | Hge]; [by split |]. destruct (d || unlocked l); [| by split].
    pose proof (total_bound _ _ Hle) as Hb. rewrite Hr in Hge by done.
    split; cbn; [done | done | by intros _; apply Hr | lia].
  - split; cbn; [done | | done | done]. intros i t Hi. eapply next_round; [by apply Ht |].
    eapply total_full; [exact Hle | by rewrite Hl | exact Hi].
Qed.

(** A thread's move that keeps its balance keeps the invariant. *)
Lemma update_inv n s i t t' r' : Z.of_nat n < INT_MAX -> snap_inv n s -> ts s !! i = Some t ->
  thread_ok (g_cleanup_counter s) (signalled (phase s) i) t' ->
  (acked (g_cleanup_counter s) t' = acked (g_cleanup_counter s) t /\ r' = g_received_signal s) \/
  (acked (g_cleanup_counter s) t' = acked (g_cleanup_counter s) t + 1 /\ r' = to_int (u32 (g_received_signal s + 1))) ->
  snap_inv n (mk_snap (<[i := t']> (ts s)) (phase s) r' (g_cleanup_counter s) (deadrefs s)).
Proof.
  intros Hn I Hi Hok Hcase. pose proof (acked_all n s I) as Hle. destruct I as [Hl Ht Hr Hp].
  pose proof (acked_one _ _ _ Hok) as Ha'. pose proof (acked_nonneg (g_cleanup_counter s) t) as Ha0.
  pose proof (total_insert (g_cleanup_counter s) (ts s) i t t' Hi) as Hins.
  assert (Hle' : forall j u, <[i := t']> (ts s) !! j = Some u -> acked (g_cleanup_counter s) u <= 1).
  { intros j u Hj. destruct (decide (i = j)) as [<- | Hne].
    - apply lookup_lt_Some in Hi. rewrite list_lookup_insert_eq in Hj by done. injection Hj as <-.
      destruct (signalled _ _); cbn in Ha'; lia.
    - rewrite list_lookup_insert_ne in Hj by done. by eapply Hle. }
  pose proof (total_bound _ _ Hle') as Hb'. rewrite length_insert, Hl in Hb'.
  assert (Hrec : phase s <> Idle -> r' = total (g_cleanup_counter s) (<[i := t']> (ts s))).
  { intros Hph. rewrite Hins. specialize (Hr Hph). destruct Hcase as [[-> ->] | [E ->]]; [lia |].
    assert (0 <= total (g_cleanup_counter s) (ts s)).
    { clear. induction (ts s) as [|x l IH]; cbn; [lia |]. pose proof (acked_nonneg (g_cleanup_counter s) x). lia. }
    rewrite u32_small by (unfold INT_MAX in *; lia). rewrite to_int_small; [lia |]. unfold int_ok, INT_MIN. lia. }
  split; cbn; [by rewrite length_insert | | done |].
  - intros j u Hj. destruct (decide (i = j)) as [<- | Hne].
    + apply lookup_lt_Some in Hi. rewrite list_lookup_insert_eq in Hj by done. by injection Hj as <-.
    + rewrite list_lookup_insert_ne in Hj by done. by apply Ht.
  - destruct (phase s) eqn:Ep; [done | done | done |]. rewrite Hins.
    assert (E1 : acked (g_cleanup_counter s) t = 1) by (eapply total_full; [exact Hle | by rewrite Hl | exact Hi]).
    destruct Hcase as [[-> _] | [E _]]; [lia |]. cbn in Ha'. lia.
Qed.

Lemma snap_step_inv n s s' : Z.of_nat n < INT_MAX -> snap_inv n s -> snap_step s s' -> snap_inv n s'.
Proof.
  intros Hn I [| i t t' r' Hi Hs | i t Hi Hh Hu _]; [by apply gc_step_inv | |].
  - destruct (thread_step_ok _ _ _ _ _ _ (si_threads _ _ I i t Hi) Hs) as [Hok Hcase]. by apply (update_inv n s i t).
  - pose proof (si_threads _ _ I i t Hi) as [H1 H2 H3 H4 H5 H6]. apply (update_inv n s i t); try done.
    + destruct t as [u h m w p]. cbn in *. subst u h. by balance.
    + left. split; [| done]. unfold acked. cbn. by rewrite Hu.
Qed.

Lemma snap_start_inv n : snap_inv n (snap_start n).
Proof.
  split; cbn; [by rewrite length_replicate | | done | done].
  intros i t Hi. apply lookup_replicate in Hi as [-> _]. by split.
Qed.

Lemma snap_reachable_inv n s : Z.of_nat n < INT_MAX -> rtc snap_step (snap_start n) s -> snap_inv n s.
Proof.
  intros Hn H. remember (snap_start n) as s0 eqn:E. assert (I : snap_inv n s0) by (subst; apply snap_start_inv). clear E.
  induction H as [s | s s1 s2 Hs _ IH]; [done |]. apply IH. by eapply snap_step_inv.
Qed.

(** ** Stopped threads *)

Lemma acked_stops c s r t t' r' : thread_ok c s t -> acked c t = 1 -> thread_step c r t t' r' -> t' = t /\ r' = r.
Proof.
  intros [H1 H2 H3 H4 H5 H6] Ha Hs. pose proof (owed_nonneg t) as Ho. assert (Hz : owed t = 0) by (destruct s; cbn in H1; lia).
  clear H1 Ho. destruct t as [u h m w p]. unfold owed, acked in *. cbn in *.
  pose proof (user_owes_nonneg u). pose proof (handler_owes_nonneg h).
  assert (Hp : p = false) by (destruct p, w; cbn in *; lia || done). subst p.
  destruct Hs as [Hp _ | t' r' E | t' r' Hn E]; cbn in *; [done | |].
  - unfold handler_step in E. cbn in E. destruct h as [| | [| old | old]]; cbn in *; try done; try (destruct w; cbn in *; lia).
    destruct (Z.eqb_spec old c) as [-> | Hne]; cbn in *; [by injection E as <- <- |].
    destruct u as [| | | | [| o | o]]; cbn in *; try lia. destruct (Z.eqb_spec o c); cbn in *; lia.
  - subst h. cbn in *. unfold user_step in E. cbn in E. destruct u as [| | | | [| old | old]]; cbn in *; try lia.
    destruct (old =? c) eqn:Eo; cbn in *; [by injection E as <- <- | lia].
Qed.

(** ** Progress *)

Inductive thread_run (c : Z) : thread_t * Z -> thread_t * Z -> Prop :=
  | run_step t r t' r' : thread_step c r t t' r' -> thread_run c (t, r) (t', r').

Definition ack_left (a : ack_t) : nat := match a with Reading => 3 | Adding _ => 2 | Spinning _ => 1 end.

(** Steps a signalled thread needs to its acknowledgement, at most. *)
Definition steps_left (t : thread_t) : nat :=
  (if pending t then 20 else 0) +
  match handler t with NoHandler => 0 | Entered => 10 | Handling a => ack_left a end +
  match user t with Outside | Mapping => 0 | Inside => 5 | Leaving => 4 | Late a => ack_left a end.

Lemma thread_advances c r t : thread_ok c true t -> acked c t = 0 ->
  exists t' r', thread_step c r t t' r' /\ (steps_left t' < steps_left t)%nat.
Proof.
  intros [H1 H2 H3 H4 H5 H6] Ha. rewrite Ha in H1. destruct t as [u h m w p]. unfold owed, acked in *. cbn in *.
  destruct h as [| | a].
  - destruct p.
    + eexists _, _. split; [by apply delivered |]. unfold steps_left. cbn. lia.
    + eexists _, _. split; [by apply in_user; [| apply surjective_pairing] |]. unfold user_step, steps_left. cbn.
      destruct u as [| | | | [| old | old]]; destruct w; cbn in *; try lia; try (by destruct (H5 eq_refl)).
  - destruct m; (eexists _, _; split; [by apply in_handler | unfold steps_left; cbn; lia]).
  - destruct a as [| old | old]; (eexists _, _; split; [by apply in_handler | unfold steps_left; cbn; try lia]).
    cbn in Ha. destruct (old =? c); cbn in *; [destruct (user_spins c u); cbn in Ha; lia | lia].
Qed.

(** Only [thread_locks] takes the lock. *)
Lemma step_unlocked c r t t' r' : thread_step c r t t' r' -> is_mapping t' = true -> is_mapping t = true.
Proof.
  intros [Hp Hh | t1 r1 E | t1 r1 Hh E]; [done | |].
  - unfold handler_step in E. destruct (handler t) as [| | a]; [done | |].
    + destruct (g_in_malloc t); by injection E as <- <-.
    + destruct (acknowledge_step c r a) as [next r2]. by injection E as <- <-.
  - unfold user_step in E. destruct (user t) as [| | | | a] eqn:Eu; unfold is_mapping; rewrite ?Eu; try (by injection E as <- <-).
    + by destruct (g_waiting_to_fork t); injection E as <- <-.
    + destruct (acknowledge_step c r a) as [[b|] r2]; by injection E as <- <-.
Qed.

Lemma thread_acknowledges c r t : thread_ok c true t -> acked c t = 0 ->
  exists t' r', rtc (thread_run c) (t, r) (t', r') /\ acked c t' = 1 /\ (is_mapping t' = true -> is_mapping t = true).
Proof.
  remember (steps_left t) as k eqn:Ek. revert r t Ek. induction (lt_wf k) as [k _ IH]. intros r t -> Hok Ha.
  destruct (thread_advances c r t Hok Ha) as (t1 & r1 & Hs & Hlt).
  destruct (thread_step_ok _ _ _ _ _ _ Hok Hs) as [Hok1 [[Ea _] | [Ea _]]].
  - destruct (IH _ Hlt r1 t1 eq_refl Hok1 ltac:(lia)) as (t' & r' & Hr & Ha' & Hm). exists t', r'.
    split; [eapply rtc_l; [by apply run_step | done] |]. split; [done |]. intros H. eapply step_unlocked; [done | by apply Hm].
  - exists t1, r1. split; [by apply rtc_once, run_step |]. split; [lia |]. by eapply step_unlocked.
Qed.

Lemma run_lifts c p r d t r' t' l i : l !! i = Some t -> rtc (thread_run c) (t, r) (t', r') ->
  rtc snap_step (mk_snap l p r c d) (mk_snap (<[i := t']> l) p r' c d).
Proof.
  intros Hi H. remember (t, r) as a eqn:Ea. remember (t', r') as b eqn:Eb. revert l t r Hi Ea.
  induction H as [x | x y z Hs _ IH]; intros l t r Hi Ea; subst.
  - injection Ea as -> ->. by rewrite list_insert_id.
  - inversion Hs as [t0 r0 t1 r1 Hs']; subst.
    eapply rtc_l; [by eapply (thread_moves (mk_snap l p r c d)) |]. cbn.
    apply lookup_lt_Some in Hi as Hlt. specialize (IH eq_refl (<[i := t1]> l) t1 r1).
    rewrite list_insert_insert_eq in IH. apply IH; [by apply list_lookup_insert_eq | done].
Qed.

Lemma missing_ack c l : (forall i t, l !! i = Some t -> acked c t <= 1) -> total c l < Z.of_nat (length l) ->
  exists i t, l !! i = Some t /\ acked c t = 0.
Proof.
  induction l as [|x l IH]; intros H Hlt; cbn in *; [lia |].
  pose proof (H 0%nat x eq_refl) as Hx. pose proof (acked_nonneg c x). destruct (Z.eq_dec (acked c x) 0) as [E | E]; [by exists 0%nat, x |].
  destruct IH as (i & t & Hi & Ha); [intros i; apply (H (Datatypes.S i)) | lia |]. by exists (Datatypes.S i), t.
Qed.

Lemma unlocked_insert l i t t' : l !! i = Some t -> unlocked l = true -> (is_mapping t' = true -> is_mapping t = true) ->
  unlocked (<[i := t']> l) = true.
Proof.
  unfold unlocked. rewrite !forallb_forall. intros Hi Hu Hm x Hx%list_elem_of_In%list_elem_of_lookup_1.
  destruct Hx as [j Hj]. apply lookup_lt_Some in Hi as Hlt. destruct (decide (i = j)) as [<- | Hne].
  - rewrite list_lookup_insert_eq in Hj by done. injection Hj as <-. specialize (Hu t).
    apply negb_true_iff. destruct (is_mapping t'); [| done]. rewrite (Hm eq_refl) in Hu. symmetry. apply Hu, list_elem_of_In.
    by eapply list_elem_of_lookup_2.
  - rewrite list_lookup_insert_ne in Hj by done. apply Hu, list_elem_of_In. by eapply list_elem_of_lookup_2.
Qed.

(** The collector will not be held up by [list_lock]. *)
Definition can_map (s : snap_t) : Prop := deadrefs s || unlocked (ts s) = true.

Lemma awaiting_forks n m s : Z.of_nat n < INT_MAX -> snap_inv n s -> phase s = Awaiting m -> can_map s ->
  exists s', rtc snap_step s s' /\ phase s' = Forking.
Proof.
  intros Hn. remember (Z.to_nat (Z.of_nat n - total (g_cleanup_counter s) (ts s))) as k eqn:Ek. revert s Ek.
  induction k as [|k IH]; intros s Ek I Ep Hd; pose proof (acked_all n s I) as Hle; pose proof (total_bound _ _ Hle) as Hb;
    pose proof (si_length _ _ I) as Hl; pose proof (si_phase _ _ I) as Hm; rewrite Ep in Hm;
    pose proof (si_received _ _ I ltac:(by rewrite Ep)) as Hr; rewrite Hl in Hb.
  - exists (gc_step s). split; [apply rtc_once, gc_moves |]. destruct s as [l ph r c d]. unfold can_map in Hd. cbn [ts phase g_received_signal g_cleanup_counter deadrefs gc_step] in *.
    rewrite Ep, Hr, Hd. by replace (total c l <? m) with false by lia.
  - destruct (missing_ack _ _ Hle ltac:(rewrite Hl; lia)) as (i & t & Hi & Ha).
    pose proof (si_threads _ _ I i t Hi) as Hok. rewrite Ep in Hok.
    destruct (thread_acknowledges _ (g_received_signal s) t Hok Ha) as (t' & r' & Hrun & Ha' & Hmap).
    set (s1 := mk_snap (<[i := t']> (ts s)) (phase s) r' (g_cleanup_counter s) (deadrefs s)).
    assert (Hsteps : rtc snap_step s s1) by (destruct s; by apply (run_lifts _ _ _ _ t)).
    assert (I1 : snap_inv n s1).
    { clear -Hsteps I Hn. induction Hsteps as [s | s s1 s2 Hs _ IH]; [done |]. apply IH. by eapply snap_step_inv. }
    destruct (IH s1) as (s' & H' & E'); [cbn; rewrite (total_insert _ _ _ _ _ Hi); lia | done | done | |].
    + apply orb_true_iff in Hd as [Hd | Hd]; apply orb_true_iff; [by left | right]. by eapply unlocked_insert.
    + exists s'. split; [by etrans | done].
Qed.

(** * Properties *)

(** Where a thread stands when it has acknowledged: in the loop of its handler,
    which has interrupted it outside the allocator, or, with no handler
    running, in the loop of the acknowledgement it put off until it had left
    the allocator. *)
Definition stopped (c : Z) (t : thread_t) : Prop :=
  user t <> Inside /\ pending t = false /\ g_in_malloc t = false /\ g_waiting_to_fork t = false /\
  (handler t = Handling (Spinning c) \/ handler t = NoHandler /\ user t = Late (Spinning c)).

Lemma acked_stopped c t : thread_ok c true t -> acked c t = 1 -> stopped c t.
Proof.
  intros [H1 H2 H3 H4 H5 H6] Ha. destruct t as [u h m w p]. unfold owed, acked in *. cbn in *.
  pose proof (user_owes_nonneg u). pose proof (handler_owes_nonneg h). pose proof (b2z_range p). pose proof (b2z_range w).
  assert (Hp : p = false) by (destruct p; cbn in *; lia || done). assert (Hw : w = false) by (destruct w; cbn in *; lia || done).
  subst p w. assert (Hin : u <> Inside).
  { intros ->. destruct h as [| | a]; cbn in *; [lia | lia | by destruct H3]. }
  split; [done |]. split; [done |]. split; [by rewrite H4; destruct u |]. split; [done |]. cbn.
  destruct h as [| | [| old | old]]; cbn in *; try lia.
  - right. split; [done |]. destruct u as [| | | | [| old | old]]; cbn in *; try lia. destruct (Z.eqb_spec old c) as [-> |]; [done | cbn in *; lia].
  - left. destruct (Z.eqb_spec old c) as [-> | Hne]; [done | exfalso]. cbn in *. destruct H6 as [_ H6].
    destruct u as [| | | | [| o | o]]; cbn in *; try lia. destruct (Z.eqb_spec o c); cbn in *; lia.
Qed.

(** C7: When the collector forks, every thread stands in the loop of
    [forkscan_acknowledge_signal], in its handler or late, and its own code
    is outside the allocator; whatever the next step, no thread has moved:
    the child gets a consistent snapshot, in which no lock of the allocator
    is held. *)
Theorem fork_sees_stopped_threads n s :
  Z.of_nat n < INT_MAX -> rtc snap_step (snap_start n) s -> phase s = Forking ->
  (forall i t, ts s !! i = Some t -> stopped (g_cleanup_counter s) t) /\ forall s', snap_step s s' -> ts s' = ts s.
Proof.
  intros Hn Hs Ep. pose proof (snap_reachable_inv n s Hn Hs) as I. pose proof (si_phase _ _ I) as Hp. rewrite Ep in Hp.
  assert (Ha : forall i t, ts s !! i = Some t -> acked (g_cleanup_counter s) t = 1).
  { eapply total_full; [by eapply acked_all | by rewrite (si_length _ _ I)]. }
  split.
  - intros i t Hi. pose proof (si_threads _ _ I i t Hi) as Hok. rewrite Ep in Hok. apply acked_stopped; [done | by apply (Ha i)].
  - intros s' [| i t t' r' Hi Hstep | i t Hi Hh Hu _].
    + destruct s. cbn in *. by rewrite Ep.
    + destruct (acked_stops _ _ _ _ _ _ (si_threads _ _ I i t Hi) (Ha i t Hi) Hstep) as [-> _]. cbn. by rewrite list_insert_id.
    + specialize (Ha i t Hi). unfold acked in Ha. by rewrite Hh, Hu in Ha.
Qed.

(** C14: Every signal is answered: while the collector waits, the threads can
    always go on, in and out of the allocator, until it forks, provided that
    no thread was stopped with [list_lock] held or that the collector does
    not need the lock any more. *)
Theorem fork_is_reached n s m :
  Z.of_nat n < INT_MAX -> rtc snap_step (snap_start n) s -> phase s = Awaiting m -> can_map s ->
  m = Z.of_nat n /\ g_received_signal s <= m /\ exists s', rtc snap_step s s' /\ phase s' = Forking.
Proof.
  intros Hn Hs Ep Hd. pose proof (snap_reachable_inv n s Hn Hs) as I. pose proof (si_phase _ _ I) as Hm. rewrite Ep in Hm.
  split; [done |]. split; [| by eapply awaiting_forks].
  rewrite (si_received _ _ I) by (by rewrite Ep). rewrite Hm, <- (si_length _ _ I). apply total_bound. by eapply acked_all.
Qed.

(** C37: Otherwise, in the first round, the program is stuck: a thread stopped by
    the signal inside [alloc_mmap] keeps [list_lock], the collector waits for
    it before the fork that would let the thread go on. *)
Theorem first_round_deadlock :
  exists s, rtc snap_step (snap_start 1) s /\ phase s = Awaiting 1 /\ g_received_signal s = 1 /\
    forall s', snap_step s s' -> s' = s.
Proof.
  exists (mk_snap [mk_thread Mapping (Handling (Spinning 0)) false false false] (Awaiting 1) 1 0 false). split; [| split_and!; try done].
  - eapply rtc_l; [by eapply (thread_locks _ 0) |].
    do 3 (eapply rtc_l; [apply gc_moves |]).
    eapply rtc_l; [eapply (thread_moves _ 0); [reflexivity | by apply delivered] |].
    do 3 (eapply rtc_l; [eapply (thread_moves _ 0); [reflexivity | by apply in_handler] |]). apply rtc_refl.
  - intros s' [| i t t' r' Hi Hs | i t Hi Hh Hu Hl]; [done | | done].
    destruct i as [|i]; [| done]. injection Hi as <-.
    destruct Hs as [Hp | t' r' E | t' r' Hh E]; [done | | done]. by injection E as <- <-.
Qed.

(** ** Witnesses: one thread *)

Definition demo_awaiting : snap_t := gc_step (gc_step (gc_step (snap_start 1))).

Lemma demo_awaiting_reached : rtc snap_step (snap_start 1) demo_awaiting.
Proof. do 3 (eapply rtc_l; [apply gc_moves |]). apply rtc_refl. Qed.

Definition demo_stopped : thread_t := mk_thread Outside (Handling (Spinning 0)) false false false.

Definition demo_forking : snap_t := mk_snap [demo_stopped] Forking 1 0 true.

Lemma demo_forking_reached : rtc snap_step (snap_start 1) demo_forking.
Proof.
  etrans; [apply demo_awaiting_reached |].
  eapply rtc_l; [eapply (thread_moves _ 0); [reflexivity | by apply delivered] |].
  do 3 (eapply rtc_l; [eapply (thread_moves _ 0); [reflexivity | by apply in_handler] |]).
  eapply rtc_l; [apply gc_moves |]. apply rtc_refl.
Qed.

Lemma fork_sees_stopped_threads_witness :
  (forall i t, [demo_stopped] !! i = Some t -> stopped 0 t) /\ forall s', snap_step demo_forking s' -> ts s' = [demo_stopped].
Proof. apply (fork_sees_stopped_threads 1 demo_forking ltac:(done) demo_forking_reached eq_refl). Defined.

Lemma fork_is_reached_witness :
  1 = Z.of_nat 1 /\ g_received_signal demo_awaiting <= 1 /\ exists s', rtc snap_step demo_awaiting s' /\ phase s' = Forking.
Proof. by apply (fork_is_reached 1 demo_awaiting 1 ltac:(done) demo_awaiting_reached). Defined.
