(* ===== verification/Handoff.v ===== *)
(** forkscan.c: handing buffers of retired pointers to the collector.

    A reclaimer puts its buffer into a list, wakes the collector and, in
    automatic mode, waits while too many collections are pending; the
    collector takes the whole list at once.  A step is a critical section or
    an unprotected read; [pthread_cond_wait] gives its mutex back and sleeps
    in one step, and returns when it is signalled or, as POSIX allows, without
    a signal. *)
From S2P Require Import Prelude.

(** [forkscan_thread]: before its critical section, in [pthread_cond_wait],
    woken there, before the broadcast (with [g_gc_mutex] held), in
    [reclaim_iteration], after a failed [assert]. *)
Inductive gc_pc : Type :=
  | Checking
  | GcAsleep
  | Awake
  | Broadcasting (ab : list Z)
  | Reclaiming (ab : list Z)
  | Failed.

(** A thread outside [forkscan_initiate_collection], before the test of the
    throttling loop, before the test under [g_client_waiting_lock], waiting on
    [g_client_waiting_cond]. *)
Inductive client_pc : Type :=
  | Out
  | Throttled
  | Locking
  | Asleep.

#[export] Instance client_pc_eq_dec : EqDecision client_pc.
Proof. intros [] []; (left; reflexivity) || (right; discriminate). Defined.

(** The buffers in [g_addr_buffer] are listed from its head; [given] and
    [collected] are what has been handed in and what has been passed to
    [reclaim_iteration] so far. *)
Record handoff_t : Type := mk_handoff {
  g_addr_buffer : list Z;
  g_waiting_collects : Z;
  gc_waiting_for_work : bool;  (* g_gc_waiting *)
  gc : gc_pc;
  clients : list client_pc;
  given : list Z;
  collected : list Z }.

Section handoff.
Context (g_forkscan_throttling_queue : Z).

Definition set_client (i : nat) (c : client_pc) (s : handoff_t) : handoff_t :=
  mk_handoff (g_addr_buffer s) (g_waiting_collects s) (gc_waiting_for_work s) (gc s) (<[i := c]> (clients s))
    (given s) (collected s).

Definition set_gc (g : gc_pc) (s : handoff_t) : handoff_t :=
  mk_handoff (g_addr_buffer s) (g_waiting_collects s) (gc_waiting_for_work s) g (clients s) (given s) (collected s).

(** The critical section of [forkscan_initiate_collection]. *)
Definition initiate_collection (ab auto_run force : Z) (s : handoff_t) : handoff_t :=
  let notify := negb (auto_run =? 0) || negb (force =? 0) in
  let waiting := if notify then g_waiting_collects s + 1 else g_waiting_collects s in
  let g := if gc_waiting_for_work s && notify
           then match gc s with GcAsleep => Awake | g => g end else gc s in
  mk_handoff (ab :: g_addr_buffer s) waiting (gc_waiting_for_work s) g (clients s) (ab :: given s) (collected s).

Definition after_initiate (auto_run : Z) : client_pc := if auto_run >? 0 then Throttled else Out.

(** The throttling loop. *)
Definition client_step (waiting : Z) (c : client_pc) : client_pc :=
  match c with
  | Throttled => if waiting >=? g_forkscan_throttling_queue then Locking else Out
  | Locking => if waiting >=? g_forkscan_throttling_queue then Asleep else Throttled
  | c => c
  end.

(** What follows the wait: the list is taken and the count reset. *)
Definition take_buffers (s : handoff_t) : handoff_t :=
  match g_addr_buffer s with
  | [] => set_gc Failed s
  | ab =>
      let g := if g_waiting_collects s >=? g_forkscan_throttling_queue then Broadcasting ab else Reclaiming ab in
      mk_handoff [] 0 (gc_waiting_for_work s) g (clients s) (given s) (ab ++ collected s)
  end.

Definition wake_all (c : client_pc) : client_pc := match c with Asleep => Throttled | c => c end.

Definition gc_step (s : handoff_t) : handoff_t :=
  match gc s with
  | Checking =>
      if g_waiting_collects s <? 1 then
        mk_handoff (g_addr_buffer s) (g_waiting_collects s) true GcAsleep (clients s) (given s) (collected s)
      else take_buffers s
  | GcAsleep | Failed => s
  | Awake =>
      take_buffers (mk_handoff (g_addr_buffer s) (g_waiting_collects s) false Awake (clients s) (given s) (collected s))
  | Broadcasting ab =>
      mk_handoff (g_addr_buffer s) (g_waiting_collects s) (gc_waiting_for_work s) (Reclaiming ab)
        (wake_all <$> clients s) (given s) (collected s)
  | Reclaiming ab => set_gc Checking s
  end.

(** [g_gc_mutex] is free. *)
Definition gc_mutex_free (g : gc_pc) : bool := match g with Broadcasting _ | Failed => false | _ => true end.

(** [pthread_cond_wait] returns when it is signalled, and, if [spurious] is
    true, at any time.  (POSIX allows it.) *)
Inductive handoff_step (spurious : bool) (s : handoff_t) : handoff_t -> Prop :=
  | gives i ab auto_run force : clients s !! i = Some Out -> gc_mutex_free (gc s) = true ->
      handoff_step spurious s (set_client i (after_initiate auto_run) (initiate_collection ab auto_run force s))
  | client_moves i c : clients s !! i = Some c -> c <> Out -> c <> Asleep ->
      handoff_step spurious s (set_client i (client_step (g_waiting_collects s) c) s)
  | gc_moves : gc s <> GcAsleep -> handoff_step spurious s (gc_step s)
  | gc_wakes : spurious = true -> gc s = GcAsleep -> handoff_step spurious s (set_gc Awake s)
  | client_wakes i : spurious = true -> clients s !! i = Some Asleep -> handoff_step spurious s (set_client i Throttled s).

(** [g_gc_waiting] starts at [GC_WAITING_FOR_WORK]. *)
Definition handoff_start (n : nat) : handoff_t := mk_handoff [] 0 true Checking (replicate n Out) [] [].

(** * The invariant *)

(** The collector finds nothing to do only if nobody woke it. *)
Record handoff_inv (spurious : bool) (s : handoff_t) : Prop := {
  hi_work : 1 <= g_waiting_collects s -> g_addr_buffer s <> [];
  hi_nonneg : 0 <= g_waiting_collects s;
  hi_gc : match gc s with
          | GcAsleep => g_waiting_collects s = 0 /\ gc_waiting_for_work s = true
          | Awake => spurious = true \/ 1 <= g_waiting_collects s
          | Failed => spurious = true /\ g_addr_buffer s = []
          | _ => True
          end;
  hi_asleep : Asleep ∈ clients s ->
    g_forkscan_throttling_queue <= g_waiting_collects s \/ exists ab, gc s = Broadcasting ab;
  hi_given : Permutation (given s) (collected s ++ g_addr_buffer s) }.

Lemma handoff_start_inv b n : 1 <= g_forkscan_throttling_queue -> handoff_inv b (handoff_start n).
Proof using Type.
  intros Hq. split; cbn; [lia | done | done | | done]. intros H. by apply elem_of_replicate in H as [? _].
Qed.

Lemma set_client_elem (i : nat) c (l : list client_pc) : c <> Asleep -> Asleep ∈ <[i := c]> l -> Asleep ∈ l.
Proof using Type. intros Hc [E | H]%elem_of_insert; [by rewrite E in Hc | done]. Qed.

Lemma take_inv b s : handoff_inv b s -> b = true \/ 1 <= g_waiting_collects s -> (gc s = Checking \/ gc s = Awake) -> handoff_inv b (take_buffers s).
Proof using Type.
  intros [H1 H2 H3 H4 H5] Hw Hg. unfold take_buffers. destruct (g_addr_buffer s) as [|x ab] eqn:Eb.
  - assert (Hb : b = true) by (destruct Hw as [? | Hw]; [done | by destruct (H1 Hw)]). split; cbn; rewrite ?Eb; try done.
    intros Ha. destruct (H4 Ha) as [? | [? ?]]; [by left | destruct Hg; congruence].
  - split; cbn; [lia | lia | by destruct (_ >=? _) | |].
    + intros Ha. destruct (Z.geb_spec (g_waiting_collects s) g_forkscan_throttling_queue); [right; by eexists |].
      destruct (H4 Ha) as [? | [? ?]]; [lia |]. destruct Hg; congruence.
    + rewrite H5, app_nil_r. by rewrite Permutation_app_comm.
Qed.

Lemma gives_inv b s i ab auto_run force : handoff_inv b s -> gc_mutex_free (gc s) = true ->
  handoff_inv b (set_client i (after_initiate auto_run) (initiate_collection ab auto_run force s)).
Proof using Type.
  intros [H1 H2 H3 H4 H5] Hm. unfold initiate_collection. split; cbn.
  - done.
  - destruct (_ || _); lia.
  - destruct (gc s) eqn:Eg; try (by destruct (_ && _)); try done.
    + destruct H3 as [H3 ->]. cbn. rewrite H3. destruct (_ || _); [by right | done].
    + destruct H3 as [? | H3]; [by destruct (_ && _); left | destruct (_ && _), (_ || _); right; lia].
  - intros Ha. apply set_client_elem in Ha; [| unfold after_initiate; by destruct (auto_run >? 0)]. destruct (H4 Ha) as [? | [ab' Eb]].
    + left. destruct (_ || _); lia.
    + by rewrite Eb in Hm.
  - rewrite H5. by rewrite Permutation_middle.
Qed.

Lemma collector_inv b s : handoff_inv b s -> handoff_inv b (gc_step s).
Proof using Type.
  intros I. pose proof I as [H1 H2 H3 H4 H5]. unfold gc_step. destruct (gc s) eqn:Eg; try done.
  - destruct (Z.ltb_spec (g_waiting_collects s) 1); [| apply take_inv; [done | right; lia | by left]].
    split; cbn; try done; [lia |]. intros Ha. left. destruct (H4 Ha) as [? | [? ?]]; [done | congruence].
  - apply take_inv; [| exact H3 | by right]. split; cbn; [done.. | | done]. intros Ha. destruct (H4 Ha) as [? | [? ?]]; [by left | congruence].
  - split; cbn; try done. intros Ha. apply list_elem_of_fmap in Ha as (c & E & _). by destruct c.
  - split; cbn; try done. intros Ha. left. destruct (H4 Ha) as [? | [? ?]]; [done | congruence].
Qed.

Lemma handoff_step_inv b s s' : handoff_inv b s -> handoff_step b s s' -> handoff_inv b s'.
Proof using Type.
  intros I [i ab auto_run force Hi Hm | i c Hi Hc1 Hc2 | Hg | Hb Hg | i Hb Hi].
  - by apply gives_inv.
  - destruct I as [H1 H2 H3 H4 H5]. split; cbn; try done. intros Ha.
    destruct (decide (client_step (g_waiting_collects s) c = Asleep)) as [E | E]; [| apply set_client_elem in Ha; [by apply H4 | done]].
    destruct c; cbn in E; try done; [by case_match |].
    destruct (Z.geb_spec (g_waiting_collects s) g_forkscan_throttling_queue); [left; lia | done].
  - by apply collector_inv.
  - destruct I as [H1 H2 H3 H4 H5]. split; cbn; try done; [by left |]. intros Ha. left. destruct (H4 Ha) as [? | [? ?]]; [done | congruence].
  - destruct I as [H1 H2 H3 H4 H5]. split; cbn; try done. intros Ha. apply set_client_elem in Ha; [by apply H4 | done].
Qed.

Lemma handoff_reachable_inv b n s : 1 <= g_forkscan_throttling_queue -> rtc (handoff_step b) (handoff_start n) s -> handoff_inv b s.
Proof using Type.
  intros Hq H. remember (handoff_start n) as s0 eqn:E. assert (I : handoff_inv b s0) by (subst; by apply handoff_start_inv). clear E.
  induction H as [s | s s1 s2 Hs _ IH]; [done |]. apply IH. by eapply handoff_step_inv.
Qed.

Lemma awake_all (l : list client_pc) : Asleep ∉ (wake_all <$> l).
Proof using Type. intros (c & E & _)%list_elem_of_fmap. by destruct c. Qed.

Lemma broadcast_wakes s ab : gc s = Broadcasting ab -> Asleep ∉ clients (gc_step s).
Proof using Type. intros E. unfold gc_step. rewrite E. apply awake_all. Qed.

Lemma take_broadcasts s : g_addr_buffer s <> [] -> g_forkscan_throttling_queue <= g_waiting_collects s ->
  exists ab, gc (take_buffers s) = Broadcasting ab.
Proof using Type.
  intros Hb Hq. unfold take_buffers. destruct (g_addr_buffer s); [done |].
  replace (g_waiting_collects s >=? g_forkscan_throttling_queue) with true by lia. by eexists.
Qed.

Lemma sleepers_wake b s : 1 <= g_forkscan_throttling_queue -> handoff_inv b s ->
  exists s', rtc (handoff_step false) s s' /\ Asleep ∉ clients s'.
Proof using Type.
  intros Hq I. destruct (decide (Asleep ∈ clients s)) as [Ha | Hn]; [| by exists s].
  destruct (hi_asleep _ _ I Ha) as [Hw | [ab Eb]].
  2: { exists (gc_step s). split; [apply rtc_once, gc_moves; by rewrite Eb | by eapply broadcast_wakes]. }
  assert (Hnext : forall s, handoff_inv b s -> g_forkscan_throttling_queue <= g_waiting_collects s -> (gc s = Checking \/ gc s = Awake) ->
    exists s', rtc (handoff_step false) s s' /\ Asleep ∉ clients s').
  { clear s I Ha Hw. intros s I Hw Hg. assert (E : exists ab, gc (gc_step s) = Broadcasting ab).
    { unfold gc_step. destruct Hg as [-> | ->].
      - replace (g_waiting_collects s <? 1) with false by lia. apply take_broadcasts; [| done]. apply (hi_work _ _ I). lia.
      - apply take_broadcasts; [| done]. apply (hi_work _ _ I). lia. }
    destruct E as [ab E]. exists (gc_step (gc_step s)). split; [| by eapply broadcast_wakes].
    eapply rtc_l; [apply gc_moves; destruct Hg as [-> | ->]; done |].
    apply rtc_once, gc_moves. by rewrite E. }
  pose proof (hi_gc _ _ I) as Hg. destruct (gc s) as [| | | ab | ab |] eqn:Eg.
  - by apply Hnext; [| | left].
  - lia.
  - by apply Hnext; [| | right].
  - exists (gc_step s). split; [apply rtc_once, gc_moves; by rewrite Eg | by eapply broadcast_wakes].
  - assert (Hs : handoff_step false s (gc_step s)) by (apply gc_moves; by rewrite Eg).
    pose proof (collector_inv _ _ I) as I1.
    destruct (Hnext (gc_step s)) as (s' & H' & Ha'); [done | | left | exists s'; split; [by eapply rtc_l | done]];
      unfold gc_step; by rewrite Eg.
  - destruct Hg as [_ Hg]. by destruct (hi_work _ _ I ltac:(lia)).
Qed.
End handoff.

(** * Properties *)

(** C15: Whenever the waits on the condition variables return, signalled or not:
    every buffer handed in is in the list or has been passed to
    [reclaim_iteration], once, and the collector sleeps only when no
    collection is pending.  The assertion that there is a list to take fails
    only if the collector's wait has returned without a signal, and then no
    buffer is left behind. *)
Theorem handoff_loses_nothing q spurious n s :
  1 <= q -> rtc (handoff_step q spurious) (handoff_start n) s ->
  Permutation (given s) (collected s ++ g_addr_buffer s) /\ (gc s = GcAsleep -> g_waiting_collects s = 0) /\
  (gc s = Failed -> spurious = true /\ Permutation (given s) (collected s)).
Proof.
  intros Hq Hs. pose proof (handoff_reachable_inv q spurious n s Hq Hs) as I. pose proof (hi_gc _ _ _ I) as Hg.
  split; [apply I |]. split; intros E; rewrite E in Hg; [by destruct Hg |]. destruct Hg as [Hb Hl]. split; [done |].
  pose proof (hi_given _ _ _ I) as Hp. by rewrite Hl, app_nil_r in Hp.
Qed.

(** C25: No thread sleeps for ever on the throttling condition: whatever state has
    been reached, steps without a wakeup that nobody caused, those of the
    collector, wake all who wait. *)
Theorem throttled_threads_wake q spurious n s :
  1 <= q -> rtc (handoff_step q spurious) (handoff_start n) s ->
  exists s', rtc (handoff_step q false) s s' /\ Asleep ∉ clients s'.
Proof. intros Hq Hs. apply (sleepers_wake q spurious); [done | by eapply handoff_reachable_inv]. Qed.

(** The wait of [forkscan_thread] is not in a loop: if [pthread_cond_wait]
    returns without a signal, as it may, the assertion that there is work
    fails. *)
Theorem spurious_wakeup_fails q : exists s, rtc (handoff_step q true) (handoff_start 0) s /\ gc s = Failed.
Proof.
  eexists. split; [| shelve]. eapply rtc_l; [by apply gc_moves |].
  eapply rtc_l; [by apply gc_wakes |]. eapply rtc_l; [by apply gc_moves | apply rtc_refl].
  Unshelve. done.
Qed.

(** The collector sleeps, a buffer is handed in without a request, and the
    wait returns by itself. *)
Lemma handoff_loses_nothing_witness :
  let s0 := gc_step 4 (handoff_start 1) in
  let s := gc_step 4 (set_gc Awake (set_client 0 Out (initiate_collection 0x1000 0 0 s0))) in
  Permutation [0x1000] ([0x1000] ++ []) /\ (gc s = GcAsleep -> g_waiting_collects s = 0) /\
  (gc s = Failed -> true = true /\ Permutation (given s) (collected s)).
Proof.
  cbv zeta. apply (handoff_loses_nothing 4 true 1 (gc_step 4 (set_gc Awake (set_client 0 Out (initiate_collection 0x1000 0 0 (gc_step 4 (handoff_start 1)))))) ltac:(lia)).
  eapply rtc_l; [by apply gc_moves |]. eapply rtc_l; [apply (gives 4 true _ 0 0x1000 0 0); done |].
  eapply rtc_l; [by apply gc_wakes |]. apply rtc_once. by apply gc_moves.
Defined.

Lemma throttled_threads_wake_witness :
  exists s', rtc (handoff_step 1 false) (set_client 0 Asleep (initiate_collection 0x1000 1 0 (handoff_start 1))) s' /\ Asleep ∉ clients s'.
Proof.
  apply (throttled_threads_wake 1 true 1 _ ltac:(lia)).
  eapply rtc_l; [apply (gives 1 true _ 0 0x1000 1 0); done |].
  eapply rtc_l; [apply (client_moves 1 true _ 0 Throttled); done |].
  eapply rtc_l; [apply (client_moves 1 true _ 0 Locking); done |]. apply rtc_refl.
Defined.
