(* ===== verification/Reclaimer.v ===== *)
(** thread.c, proc.c: the reclaimer's lock.

    [global_timestamp] is a lock and a clock: its highest bit says that some
    thread is the reclaimer, the others count the reclaimers so far.  The one
    that takes it waits for the threads that are helping, by the timestamps
    they show, to learn of the new time.  A step is an access to a variable
    that other threads may read. *)
From S2P Require Import Prelude.

(** * Timestamps *)

Definition _TIMESTAMP_MASK : Z := 0x7FFFFFFFFFFFFFFF.
Definition _TIMESTAMP_FLAG : Z := 0x8000000000000000.

Definition TIMESTAMP (field : Z) : Z := Z.land field _TIMESTAMP_MASK.
Definition TIMESTAMP_RAISE_FLAG (field : Z) : Z := Z.lor field _TIMESTAMP_FLAG.
Definition TIMESTAMP_IS_ACTIVE (field : Z) : bool := negb (Z.land field _TIMESTAMP_FLAG =? 0).
Definition TIMESTAMP_SET_ACTIVE (field : Z) : Z := TIMESTAMP_RAISE_FLAG field.

Lemma timestamp_mod v : TIMESTAMP v = v mod 2 ^ 63.
Proof. unfold TIMESTAMP. change _TIMESTAMP_MASK with (Z.ones 63). by rewrite Z.land_ones. Qed.

Lemma timestamp_range v : 0 <= TIMESTAMP v < 2 ^ 63.
Proof. rewrite timestamp_mod. apply Z.mod_pos_bound. lia. Qed.

Lemma timestamp_idem v : TIMESTAMP (TIMESTAMP v) = TIMESTAMP v.
Proof. unfold TIMESTAMP. by rewrite <- Z.land_assoc. Qed.

Lemma timestamp_small v : 0 <= v < 2 ^ 63 -> TIMESTAMP v = v.
Proof. intros H. rewrite timestamp_mod. by apply Z.mod_small. Qed.

Lemma timestamp_raise v : TIMESTAMP (TIMESTAMP_RAISE_FLAG v) = TIMESTAMP v.
Proof. unfold TIMESTAMP, TIMESTAMP_RAISE_FLAG. rewrite Z.land_lor_distr_l. apply Z.lor_0_r. Qed.

Lemma raise_active v : TIMESTAMP_IS_ACTIVE (TIMESTAMP_RAISE_FLAG v) = true.
Proof.
  unfold TIMESTAMP_IS_ACTIVE, TIMESTAMP_RAISE_FLAG. apply negb_true_iff, Z.eqb_neq. intros H.
  apply (f_equal (fun z => Z.testbit z 63)) in H. by rewrite Z.land_spec, Z.lor_spec, orb_true_r in H.
Qed.

Lemma timestamp_inactive v : TIMESTAMP_IS_ACTIVE (TIMESTAMP v) = false.
Proof. unfold TIMESTAMP_IS_ACTIVE, TIMESTAMP. by rewrite <- Z.land_assoc, Z.land_0_r. Qed.

(** An inactive field is its time. *)
Lemma inactive_small v : size_ok v -> TIMESTAMP_IS_ACTIVE v = false -> TIMESTAMP v = v.
Proof.
  intros Hv H. apply negb_false_iff, Z.eqb_eq in H. apply timestamp_small.
  destruct (Z.lt_ge_cases v (2 ^ 63)) as [Hlt | Hge]; [unfold size_ok in Hv; lia | exfalso].
  assert (Hb : Z.testbit v 63 = true).
  { rewrite Z.testbit_true by lia. unfold size_ok in Hv. assert (E : v / 2 ^ 63 = 1); [| by rewrite E].
    symmetry. apply (Z.div_unique v (2 ^ 63) 1 (v - 2 ^ 63)); lia. }
  apply (f_equal (fun z => Z.testbit z 63)) in H. rewrite Z.land_spec, Hb in H. done.
Qed.

(** * Threads *)

(** A thread in none of the functions; in
    [forkscan_thread_cleanup_try_acquire] before the compare-and-swap, in
    [forkscan_proc_wait_for_timestamp] before the [k]-th thread; the
    reclaimer; in [forkscan_thread_cleanup_release] before the write; in
    [forkscan_thread_cleanup_raise_flag] after the first write, after the read
    of [global_timestamp]; a helper. *)
Inductive pc_t : Type :=
  | Free
  | Trying (old_timestamp : Z)
  | Waiting (curr : Z) (k : nat)
  | Reclaimer
  | Releasing (v : Z)
  | Raised (old_timestamp : Z)
  | Loaded (old_timestamp curr : Z)
  | Helping.

Record helper_t : Type := mk_helper {
  pc : pc_t;
  local_timestamp : Z;
  times_without_update : Z }.

Record clock_t : Type := mk_clock {
  ts : list helper_t;
  global_timestamp : Z }.

Definition goto (p : pc_t) (t : helper_t) : helper_t := mk_helper p (local_timestamp t) (times_without_update t).

(** [forkscan_thread_cleanup_try_acquire]: up to the compare-and-swap, and
    that. *)
Definition acquire_read (s : clock_t) : pc_t :=
  if TIMESTAMP_IS_ACTIVE (global_timestamp s) then Free else Trying (global_timestamp s).

Definition acquire_swap (old_timestamp : Z) (s : clock_t) : pc_t * Z :=
  let attempt := TIMESTAMP_SET_ACTIVE (u64 (old_timestamp + 1)) in
  if global_timestamp s =? old_timestamp then (Waiting (TIMESTAMP attempt) 0, attempt)
  else (Free, global_timestamp s).

(** [forkscan_proc_wait_for_timestamp]: one reading of a stamp. *)
Definition wait_step (curr : Z) (k : nat) (s : clock_t) : pc_t :=
  match ts s !! k with
  | None => Reclaimer
  | Some t =>
      let stamp := local_timestamp t in
      if TIMESTAMP_IS_ACTIVE stamp && negb (TIMESTAMP stamp =? curr) then Waiting curr k else Waiting curr (k + 1)
  end.

(** [forkscan_thread_cleanup_raise_flag]: its three accesses. *)
Definition raise_first (t : helper_t) : helper_t :=
  mk_helper (Raised (local_timestamp t)) (TIMESTAMP_RAISE_FLAG (local_timestamp t)) (times_without_update t).

Definition raise_last (old_timestamp curr : Z) (t : helper_t) : helper_t :=
  let times :=
    if negb (TIMESTAMP curr =? old_timestamp) then 0
    else if negb (TIMESTAMP_IS_ACTIVE curr) then
      (if times_without_update t <? 2 then times_without_update t + 1 else times_without_update t)
    else times_without_update t in
  mk_helper Helping (TIMESTAMP_RAISE_FLAG curr) times.

(** [forkscan_thread_cleanup_lower_flag] *)
Definition lower (t : helper_t) : helper_t := mk_helper Free (TIMESTAMP (local_timestamp t)) (times_without_update t).

(** What a thread does next, and the clock after it; a free thread either
    tries to become the reclaimer or begins to help, [help]. *)
Definition thread_step (help : bool) (t : helper_t) (s : clock_t) : helper_t * Z :=
  let g := global_timestamp s in
  match pc t with
  | Free => if help then (raise_first t, g) else (goto (acquire_read s) t, g)
  | Trying old => let '(p, g) := acquire_swap old s in (goto p t, g)
  | Waiting curr k => (goto (wait_step curr k s) t, g)
  | Reclaimer => (goto (Releasing g) t, g)
  | Releasing v => (goto Free t, TIMESTAMP v)
  | Raised old => (goto (Loaded old g) t, g)
  | Loaded old curr => (raise_last old curr t, g)
  | Helping => (lower t, g)
  end.

(** The clock has 63 bits and does not run out. *)
Inductive clock_step (s : clock_t) : clock_t -> Prop :=
  | moves i help t t' g : ts s !! i = Some t -> TIMESTAMP (global_timestamp s) < 2 ^ 63 - 1 ->
      thread_step help t s = (t', g) -> clock_step s (mk_clock (<[i := t']> (ts s)) g).

Definition clock_start (n : nat) : clock_t := mk_clock (replicate n (mk_helper Free 0 0)) 1.

(** * The invariant *)

Definition holds (p : pc_t) : bool := match p with Waiting _ _ | Reclaimer | Releasing _ => true | _ => false end.

Definition helps (p : pc_t) : bool := match p with Raised _ | Loaded _ _ | Helping => true | _ => false end.

(** A thread's own state, with the clock at [g]. *)
Record helper_ok (g : Z) (t : helper_t) : Prop := {
  ho_size : size_ok (local_timestamp t);
  ho_time : TIMESTAMP (local_timestamp t) <= TIMESTAMP g;
  ho_flag : TIMESTAMP_IS_ACTIVE (local_timestamp t) = helps (pc t);
  ho_read : match pc t with
            | Loaded _ c => size_ok c /\ TIMESTAMP (local_timestamp t) <= TIMESTAMP c <= TIMESTAMP g
            | Trying old => size_ok old /\ TIMESTAMP_IS_ACTIVE old = false
            | Releasing v => v = g
            | Waiting c _ => c = TIMESTAMP g
            | _ => True
            end }.

(** What a thread helps with, or is about to, is the current round. *)
Definition informed (g : Z) (t : helper_t) : Prop :=
  match pc t with
  | Loaded _ c => TIMESTAMP c = TIMESTAMP g
  | Helping => TIMESTAMP (local_timestamp t) = TIMESTAMP g
  | _ => True
  end.

Definition waited (p : pc_t) (i : nat) : Prop := match p with Waiting _ k => (i < k)%nat | _ => True end.

Record clock_inv (s : clock_t) : Prop := {
  ci_size : size_ok (global_timestamp s);
  ci_helpers : forall i t, ts s !! i = Some t -> helper_ok (global_timestamp s) t;
  ci_one : forall i j t u, ts s !! i = Some t -> ts s !! j = Some u -> holds (pc t) = true -> holds (pc u) = true -> i = j;
  ci_held : TIMESTAMP_IS_ACTIVE (global_timestamp s) = true <-> exists i t, ts s !! i = Some t /\ holds (pc t) = true;
  ci_informed : forall i j t u, ts s !! i = Some t -> ts s !! j = Some u -> holds (pc t) = true -> waited (pc t) j ->
    informed (global_timestamp s) u }.

Lemma raise_size v : size_ok v -> size_ok (TIMESTAMP_RAISE_FLAG v).
Proof.
  unfold size_ok, TIMESTAMP_RAISE_FLAG. intros Hv. split; [apply Z.lor_nonneg; unfold _TIMESTAMP_FLAG; lia |].
  destruct (Z.eq_dec (Z.lor v _TIMESTAMP_FLAG) 0) as [-> |]; [lia |].
  apply Z.log2_lt_pow2; [pose proof (proj2 (Z.lor_nonneg v _TIMESTAMP_FLAG)); unfold _TIMESTAMP_FLAG in *; lia |].
  rewrite Z.log2_lor by (unfold _TIMESTAMP_FLAG; lia). apply Z.max_lub_lt; [| done].
  destruct (Z.eq_dec v 0) as [-> |]; [done |]. apply Z.log2_lt_pow2; lia.
Qed.

Lemma timestamp_size v : size_ok (TIMESTAMP v).
Proof. pose proof (timestamp_range v). unfold size_ok. lia. Qed.

Lemma clock_start_inv n : clock_inv (clock_start n).
Proof.
  split; cbn; [done | | | split; [done |] |].
  - intros i t [-> _]%lookup_replicate. by split.
  - intros i j t u [-> _]%lookup_replicate. done.
  - intros (i & t & [-> _]%lookup_replicate & ?). done.
  - intros i j t u [-> _]%lookup_replicate. done.
Qed.

(** A step that leaves the clock alone. *)
Lemma same_clock s i t t' :
  clock_inv s -> ts s !! i = Some t -> helper_ok (global_timestamp s) t' -> holds (pc t') = holds (pc t) ->
  (informed (global_timestamp s) t -> informed (global_timestamp s) t') ->
  (holds (pc t) = true -> forall j u, ts s !! j = Some u -> waited (pc t') j -> informed (global_timestamp s) u) ->
  clock_inv (mk_clock (<[i := t']> (ts s)) (global_timestamp s)).
Proof.
  intros [C1 C2 C3 C4 C5] Hi Hok Hh Hinf Hw. apply lookup_lt_Some in Hi as Hlt.
  assert (Hnew : forall j u, <[i := t']> (ts s) !! j = Some u -> (j = i /\ u = t') \/ (j <> i /\ ts s !! j = Some u)).
  { intros j u Hj. destruct (decide (j = i)) as [-> | Hne].
    - rewrite list_lookup_insert_eq in Hj by done. injection Hj as <-. by left.
    - rewrite list_lookup_insert_ne in Hj by done. by right. }
  split; cbn.
  - done.
  - intros j u Hj. destruct (Hnew j u Hj) as [[-> ->] | [_ Hj']]; [done | by apply (C2 j)].
  - intros j k u v Hj Hk Hu Hv. destruct (Hnew j u Hj) as [[-> ->] | [_ Hj']], (Hnew k v Hk) as [[-> ->] | [_ Hk']]; [done | | |].
    + rewrite Hh in Hu. by apply (C3 i k t v).
    + rewrite Hh in Hv. by apply (C3 j i u t).
    + by apply (C3 j k u v).
  - rewrite C4. split; intros (j & u & Hj & Hu).
    + destruct (decide (j = i)) as [-> | Hne].
      * rewrite Hi in Hj. injection Hj as <-. exists i, t'. rewrite list_lookup_insert_eq by done. by rewrite Hh.
      * exists j, u. by rewrite list_lookup_insert_ne.
    + destruct (Hnew j u Hj) as [[-> ->] | [_ Hj']]; [exists i, t; by rewrite <- Hh | by exists j, u].
  - intros j k u v Hj Hk Hu Hwait. destruct (Hnew j u Hj) as [[-> ->] | [Hji Hj']].
    + rewrite Hh in Hu. destruct (Hnew k v Hk) as [[-> ->] | [_ Hk']]; [| by apply (Hw Hu k)].
      apply Hinf. unfold informed. by destruct (pc t).
    + destruct (Hnew k v Hk) as [[-> ->] | [_ Hk']]; [apply Hinf; by apply (C5 j i u t) | by apply (C5 j k u v)].
Qed.

(** A step that changes it: nobody held the lock, or only this thread. *)
Lemma other_clock s i t t' g :
  clock_inv s -> ts s !! i = Some t -> size_ok g -> helper_ok g t' -> TIMESTAMP (global_timestamp s) <= TIMESTAMP g ->
  (forall j u, j <> i -> ts s !! j = Some u -> holds (pc u) = false) ->
  TIMESTAMP_IS_ACTIVE g = holds (pc t') ->
  (holds (pc t') = true -> forall j, ~ waited (pc t') j) ->
  clock_inv (mk_clock (<[i := t']> (ts s)) g).
Proof.
  intros [C1 C2 C3 C4 C5] Hi Hg Hok Hle Hothers Hact Hw. apply lookup_lt_Some in Hi as Hlt.
  assert (Hnew : forall j u, <[i := t']> (ts s) !! j = Some u -> (j = i /\ u = t') \/ (j <> i /\ ts s !! j = Some u)).
  { intros j u Hj. destruct (decide (j = i)) as [-> | Hne].
    - rewrite list_lookup_insert_eq in Hj by done. injection Hj as <-. by left.
    - rewrite list_lookup_insert_ne in Hj by done. by right. }
  assert (Hheld : forall j u, <[i := t']> (ts s) !! j = Some u -> holds (pc u) = true -> j = i /\ u = t').
  { intros j u Hj Hu. destruct (Hnew j u Hj) as [? | [Hne Hj']]; [done |]. by rewrite (Hothers j u Hne Hj') in Hu. }
  split; cbn.
  - done.
  - intros j u Hj. destruct (Hnew j u Hj) as [[-> ->] | [Hne Hj']]; [done |].
    destruct (C2 j u Hj') as [O1 O2 O3 O4]. pose proof (Hothers j u Hne Hj') as Hh. split; [done | lia | done |].
    destruct (pc u); try done. destruct O4 as [? ?]. split; [done | lia].
  - intros j k u v Hj Hk Hu Hv. destruct (Hheld j u Hj Hu) as [-> _], (Hheld k v Hk Hv) as [-> _]. done.
  - rewrite Hact. split.
    + intros Hh. exists i, t'. by rewrite list_lookup_insert_eq.
    + intros (j & u & Hj & Hu). destruct (Hheld j u Hj Hu) as [-> ->]. done.
  - intros j k u v Hj Hk Hu Hwait. destruct (Hheld j u Hj Hu) as [-> ->]. by destruct (Hw Hu k).
Qed.

Lemma clock_step_inv s s' : clock_inv s -> clock_step s s' -> clock_inv s'.
Proof.
  intros I [i help t t' g Hi Hlt Hs]. pose proof I as [C1 C2 C3 C4 C5]. pose proof (C2 i t Hi) as Ho. pose proof Ho as [O1 O2 O3 O4].
  unfold thread_step in Hs. destruct (pc t) as [| old | curr k | | v | old | old c |] eqn:Ep.
  - destruct help; injection Hs as <- <-; (apply (same_clock s i t); [done | done | | | | by rewrite Ep]).
    + split; cbn; [by apply raise_size | by rewrite timestamp_raise | apply raise_active | done].
    + by rewrite Ep.
    + done.
    + unfold acquire_read. destruct (TIMESTAMP_IS_ACTIVE (global_timestamp s)) eqn:Ea; by split.
    + unfold acquire_read, goto. cbn. rewrite Ep. by destruct (TIMESTAMP_IS_ACTIVE _).
    + intros _. unfold acquire_read, goto, informed. cbn. by destruct (TIMESTAMP_IS_ACTIVE _).
  - unfold acquire_swap in Hs. destruct (Z.eqb_spec (global_timestamp s) old) as [E | Hne]; injection Hs as <- <-.
    + destruct O4 as [Os Oa]. rewrite <- E in Os, Oa. pose proof (inactive_small _ Os Oa) as Et. rewrite Et in Hlt. unfold size_ok in Os.
      assert (Eu : u64 (old + 1) = old + 1) by (apply u64_small; unfold size_ok; lia).
      assert (Ea : TIMESTAMP (TIMESTAMP_SET_ACTIVE (u64 (old + 1))) = old + 1).
      { unfold TIMESTAMP_SET_ACTIVE. rewrite timestamp_raise, Eu. apply timestamp_small. lia. }
      apply (other_clock s i t); [done | done | | | lia | | |].
      * apply raise_size. rewrite Eu. unfold size_ok. lia.
      * split; cbn; [done | lia | by rewrite O3 | done].
      * intros j u Hne Hj. destruct (holds (pc u)) eqn:Hu; [| done].
        assert (Hc : TIMESTAMP_IS_ACTIVE (global_timestamp s) = true) by (apply C4; by exists j, u). congruence.
      * apply raise_active.
      * cbn. lia.
    + apply (same_clock s i t); [done | done | by split | by rewrite Ep | done | by rewrite Ep].
  - injection Hs as <- <-. unfold wait_step. destruct (ts s !! k) as [u|] eqn:Ek.
    + destruct (TIMESTAMP_IS_ACTIVE (local_timestamp u) && negb (TIMESTAMP (local_timestamp u) =? curr)) eqn:Eb.
      * apply (same_clock s i t); [done | done | by split | by rewrite Ep | done |].
        intros Hh j v Hj Hw. by apply (C5 i j t v); [.. | rewrite Ep].
      * apply (same_clock s i t); [done | done | by split | by rewrite Ep | done |].
        intros Hh j v Hj Hw. cbn in Hw. destruct (decide (j = k)) as [-> | Hne].
        2: { apply (C5 i j t v); [done | done | done |]. rewrite Ep. cbn. lia. }
        rewrite Ek in Hj. injection Hj as <-. destruct (C2 k u Ek) as [P1 P2 P3 P4]. unfold informed.
        rewrite P3 in Eb. subst curr. destruct (pc u) as [| | | | | | o c |]; try done; cbn in Eb; apply negb_false_iff, Z.eqb_eq in Eb; lia.
    + apply (same_clock s i t); [done | done | by split | by rewrite Ep | done |].
      intros Hh j v Hj _. apply (C5 i j t v); [done | done | done |]. rewrite Ep. cbn.
      apply lookup_ge_None in Ek. apply lookup_lt_Some in Hj. lia.
  - injection Hs as <- <-. apply (same_clock s i t); [done | done | by split | by rewrite Ep | done |].
    intros Hh j v Hj _. apply (C5 i j t v); [done | done | done | by rewrite Ep].
  - injection Hs as <- <-. subst v. apply (other_clock s i t); [done | done | apply timestamp_size | | by rewrite timestamp_idem | | | done].
    + split; cbn; [done | by rewrite timestamp_idem | done | done].
    + intros j u Hne Hj. destruct (holds (pc u)) eqn:Hu; [| done]. exfalso. apply Hne, (C3 j i u t); [done | done | done | by rewrite Ep].
    + by rewrite timestamp_inactive.
  - injection Hs as <- <-. apply (same_clock s i t); [done | done | split; cbn; [done | done | done | split; [done | lia]] | by rewrite Ep | done | by rewrite Ep].
  - injection Hs as <- <-. destruct O4 as [Oc Ot]. apply (same_clock s i t); [done | done | | by rewrite Ep | | by rewrite Ep].
    + split; cbn; [by apply raise_size | rewrite timestamp_raise; lia | apply raise_active | done].
    + unfold informed. rewrite Ep. cbn. by rewrite timestamp_raise.
  - injection Hs as <- <-. apply (same_clock s i t); [done | done | | by rewrite Ep | done | by rewrite Ep].
    split; cbn; [apply timestamp_size | by rewrite timestamp_idem | apply timestamp_inactive | done].
Qed.

Lemma clock_reachable_inv n s : rtc clock_step (clock_start n) s -> clock_inv s.
Proof.
  intros H. remember (clock_start n) as s0 eqn:E. assert (I : clock_inv s0) by (subst; apply clock_start_inv). clear E.
  induction H as [s | s s1 s2 Hs _ IH]; [done |]. apply IH. by eapply clock_step_inv.
Qed.

(** * Properties *)

(** C20: At most one thread is the reclaimer or waiting to be. *)
Theorem one_reclaimer n s i j t u :
  rtc clock_step (clock_start n) s -> ts s !! i = Some t -> ts s !! j = Some u ->
  holds (pc t) = true -> holds (pc u) = true -> i = j.
Proof. intros Hs. by apply (ci_one _ (clock_reachable_inv n s Hs)). Qed.

(** Once a thread is the reclaimer, every thread that helps, or has read the
    clock to do so, knows the current time: nobody still helps with an
    earlier round. *)
Theorem helpers_know_the_time n s i j t u :
  rtc clock_step (clock_start n) s -> ts s !! i = Some t -> pc t = Reclaimer -> ts s !! j = Some u ->
  informed (global_timestamp s) u.
Proof. intros Hs Hi Hp Hj. apply (ci_informed _ (clock_reachable_inv n s Hs) i j t u); [done | done | |]; by rewrite Hp. Qed.

(** ** Witnesses *)

Definition demo_reclaimer : helper_t := mk_helper Reclaimer 0 0.
Definition demo_helping : helper_t := mk_helper Helping (TIMESTAMP_RAISE_FLAG 2) 0.
Definition demo_clock : clock_t := mk_clock [demo_reclaimer; demo_helping] (TIMESTAMP_RAISE_FLAG 2).

Lemma demo_clock_reached : rtc clock_step (clock_start 2) demo_clock.
Proof.
  do 2 (eapply rtc_l; [by eapply (moves _ 0 false) |]).
  do 3 (eapply rtc_l; [by eapply (moves _ 1 true) |]).
  do 3 (eapply rtc_l; [by eapply (moves _ 0 false) |]).
  apply rtc_refl.
Qed.

Lemma one_reclaimer_witness :
  ts demo_clock !! 0%nat = Some demo_reclaimer /\
  forall j u, ts demo_clock !! j = Some u -> holds (pc u) = true -> 0%nat = j.
Proof. split; [done |]. intros j u Hj Hu. by apply (one_reclaimer 2 demo_clock 0 j demo_reclaimer u demo_clock_reached). Defined.

Lemma helpers_know_the_time_witness : informed (global_timestamp demo_clock) demo_helping.
Proof. by apply (helpers_know_the_time 2 demo_clock 0 1 demo_reclaimer demo_helping demo_clock_reached). Defined.
