(* ===== verification/Frontend.v ===== *)
(** frontend.c: what the program's threads call.

    [forkscan_retire] puts a pointer into the thread's queue; when that is
    full the thread becomes the reclaimer, empties the queues of all threads
    into a buffer and hands it to the collector, or, while another thread is
    the reclaimer, frees some of what was found unreferenced and tries
    again.  The functions are modelled as one thread runs them; what
    [forkscan_thread_cleanup_try_acquire] answers is a parameter. *)
From S2P Require Import Prelude AddrBuffer Queue Alloc Pool Buffer Free Threads Handoff.

Record frontend_t : Type := mk_frontend {
  threads : threads_t;
  shared : shared_t;
  handoff : handoff_t;
  g_force_iteration : Z;
  auto_run : Z }.              (* g_config.auto_run *)

Definition set_threads (w : frontend_t) s := mk_frontend s (shared w) (handoff w) (g_force_iteration w) (auto_run w).
Definition set_shared (w : frontend_t) g := mk_frontend (threads w) g (handoff w) (g_force_iteration w) (auto_run w).
Definition set_force (w : frontend_t) f := mk_frontend (threads w) (shared w) (handoff w) f (auto_run w).
Definition set_handoff (w : frontend_t) h := mk_frontend (threads w) (shared w) h (g_force_iteration w) (auto_run w).

Definition with_td_place p (d : thread_data_t) : thread_data_t :=
  mk_td (td_next d) (self d) (user_stack_low d) (user_stack_high d) (stack_is_ours d) (is_active d) (ptr_list d)
    (ptr_list_e d) (wait_time_ms d) p (local_timestamp d) (times_without_update d) (local_block d) (ref_count d).
Definition with_td_wait v (d : thread_data_t) : thread_data_t :=
  mk_td (td_next d) (self d) (user_stack_low d) (user_stack_high d) (stack_is_ours d) (is_active d) (ptr_list d)
    (ptr_list_e d) v (place d) (local_timestamp d) (times_without_update d) (local_block d) (ref_count d).

Section frontend.

(** [ptrs_per_thread] is [g_forkscan_ptrs_per_thread]; [me] is the calling
    thread's record. *)
Context (ptrs_per_thread g_frees_required me : Z).

(** [g_config.max_ptrs]; both factors are [int]. *)
Definition max_ptrs : Z := ptrs_per_thread * MAX_THREAD_COUNT.

(** [n += forkscan_queue_pop_bulk(&ab->addrs[n], max_ptrs - n, &td->ptr_list)] *)
Definition pop_thread (td : Z) (_ : thread_data_t) (st : Z * threads_t * list Z) : res (Z * threads_t * list Z) :=
  let '(n, s, addrs) := st in
  let! d := td_load s td in
  let! len := int_chk (max_ptrs - n) in
  let! ' (values, popped, q) := forkscan_queue_pop_bulk (drop (Z.to_nat n) addrs) len (ptr_list d) in
  let! n' := int_chk (n + popped) in
  let! s := td_modify s td (with_td_queue q) in
  Ok (n', s, take (Z.to_nat n) addrs ++ values).

Definition generate_working_pointers_list (addrs : list Z) (s : threads_t) : res (Z * threads_t * list Z) :=
  let! ' (n, s, addrs) := foreach_thread pop_thread s (0, s, addrs) in
  let! d := td_load s me in
  let! full := forkscan_queue_is_full (ptr_list d) in
  assert (negb full) ;!
  Ok (n, s, addrs).

(** Up to [forkscan_thread_cleanup_release] and, in automatic mode, the
    throttling of [forkscan_initiate_collection]. *)
Definition become_reclaimer (w : frontend_t) : res frontend_t :=
  let '(force_iteration, w) := if g_force_iteration w >? 0 then (1, set_force w 0) else (0, w) in
  let! ' (ab, b) := forkscan_make_reclaimer_buffer ptrs_per_thread (bufs (shared w)) in
  let! d := buf_load b ab in
  let! ' (n, s, addrs) := generate_working_pointers_list (ab_addrs d) (threads w) in
  let! b := buf_modify b ab (fun d => with_n_addrs n (set_addrs d addrs)) in
  let w := set_threads (set_shared w (set_bufs (shared w) b)) s in
  Ok (set_handoff w (initiate_collection ab (auto_run w) force_iteration (handoff w))).

(** [forkscan_util_free_ptrs] of the thread. *)
Definition free_some (w : frontend_t) : res frontend_t :=
  let! d := td_load (threads w) me in
  let! ' (p, g) := forkscan_util_free_ptrs g_frees_required (place d) (shared w) in
  let! s := td_modify (threads w) me (with_td_place p) in
  Ok (set_threads (set_shared w g) s).

(** [pthread_yield] apart, and the acknowledgement of a signal that came
    during the call, which [Handshake] has. *)
Definition yield (w : frontend_t) : res frontend_t := free_some w.

(** [acquired] are the answers of [forkscan_thread_cleanup_try_acquire]. *)
Definition my_queue_full (w : frontend_t) : res bool :=
  let! d := td_load (threads w) me in forkscan_queue_is_full (ptr_list d).

Fixpoint retire_loop (acquired : list bool) (w : frontend_t) : res frontend_t :=
  match acquired with
  | [] => Err OutOfFuel
  | a :: acquired =>
      let! w := (if a : bool then become_reclaimer w else yield w) in
      let! full := my_queue_full w in
      if full : bool then retire_loop acquired w else Ok w
  end.

(** [start] and [stop] are the readings of [forkscan_rdtsc]. *)
Definition forkscan_retire (ptr : Z) (acquired : list bool) (start stop : Z) (w : frontend_t) : res frontend_t :=
  if ptr =? 0 then Ok w else
  let! w := free_some w in
  let! d := td_load (threads w) me in
  let! q := forkscan_queue_push (ptr_list d) ptr in
  let! s := td_modify (threads w) me (with_td_queue q) in
  let w := set_threads w s in
  let! full := my_queue_full w in
  if full : bool then
    let! w := retire_loop acquired w in
    let! s := td_modify (threads w) me (fun d => with_td_wait (u64 (wait_time_ms d + u64 (stop - start))) d) in
    Ok (set_threads w s)
  else Ok w.

(** 0: a collection was handed in by this thread; 1: by another, which reset
    [g_force_iteration].  [others] is what the other threads do meanwhile. *)
Fixpoint force_loop (acquired : list bool) (others : frontend_t -> frontend_t) (w : frontend_t) : res (Z * frontend_t) :=
  match acquired with
  | [] => Err OutOfFuel
  | a :: acquired =>
      if a : bool then let! w := become_reclaimer w in Ok (0, w)
      else
        let! w := yield w in
        let w := others w in
        if negb (g_force_iteration w =? 0) then force_loop acquired others w else Ok (1, w)
  end.

Definition forkscan_force_reclaim (acquired : list bool) (others : frontend_t -> frontend_t) (w : frontend_t)
    : res (Z * frontend_t) :=
  force_loop acquired others (set_force w 1).

Definition forkscan_set_auto_run (v : Z) (w : frontend_t) : frontend_t :=
  mk_frontend (threads w) (shared w) (handoff w) (g_force_iteration w) v.

(** * The pointers gathered *)

(** What a thread has in its queue, oldest first. *)
Definition queued (s : threads_t) (td : Z) : list Z :=
  match tds s !! td with Some d => contents (ptr_list d) | None => [] end.

Definition all_queued (s : threads_t) (l : list Z) : list Z := l ≫= queued s.

Record queue_ready (q : queue_t) : Prop := {
  qr_wf : queue_wf q;
  qr_idx : idx_tail q + zlen (contents q) <= MAX_IDX;
  qr_nonzero : 0 ∉ contents q }.

Definition queues_ready (s : threads_t) (l : list Z) : Prop :=
  forall td d, td ∈ l -> tds s !! td = Some d -> queue_ready (ptr_list d).

Definition popped (M : nat) (s : threads_t) (addrs : list Z) (l1 : list Z) (s' : threads_t) (n : Z) (addrs' : list Z) : Prop :=
  n = Z.min (zlen (all_queued s l1)) (Z.of_nat M) /\
  addrs' = take M (all_queued s l1) ++ drop (Z.to_nat n) addrs /\
  all_queued s' l1 = drop M (all_queued s l1) /\
  (forall td d, td ∈ l1 -> tds s' !! td = Some d ->
     queue_wf (ptr_list d) /\ exists d0, tds s !! td = Some d0 /\ capacity (ptr_list d) = capacity (ptr_list d0)) /\
  (forall td, (td ∉ l1) -> tds s' !! td = tds s !! td).

Lemma all_queued_snoc s l td : all_queued s (l ++ [td]) = all_queued s l ++ queued s td.
Proof using Type. unfold all_queued. rewrite bind_app. cbn. by rewrite app_nil_r. Qed.

Lemma all_queued_same s s' l : (forall td, td ∈ l -> tds s' !! td = tds s !! td) -> all_queued s' l = all_queued s l.
Proof using Type.
  induction l as [|x l IH]; intros H; [done |]. cbn. unfold queued at 1. rewrite (H x) by left. fold (queued s x). f_equal.
  apply IH. intros td Htd. apply H. by right.
Qed.

(** The arithmetic of taking [M] elements of two lists one after the other. *)
Lemma take_two (M : nat) (a b addrs : list Z) :
  let n := Z.min (zlen a) (Z.of_nat M) in
  let k := Z.min (zlen b) (Z.of_nat M - n) in
  Z.of_nat M <= zlen addrs ->
  let mid := take M a ++ drop (Z.to_nat n) addrs in
  0 <= k /\ n + k = Z.min (zlen (a ++ b)) (Z.of_nat M) /\ k <= zlen (drop (Z.to_nat n) mid) /\
  take (Z.to_nat n) mid ++ take (Z.to_nat k) b ++ drop (Z.to_nat k) (drop (Z.to_nat n) mid) =
    take M (a ++ b) ++ drop (Z.to_nat (n + k)) addrs /\
  drop M a ++ drop (Z.to_nat k) b = drop M (a ++ b).
Proof using Type.
  cbv zeta. unfold zlen. intros HM. rewrite length_app.
  set (n := Z.min (Z.of_nat (length a)) (Z.of_nat M)). set (k := Z.min (Z.of_nat (length b)) (Z.of_nat M - n)).
  assert (Hl : length (take M a) = Z.to_nat n) by (rewrite length_take; unfold n; lia).
  assert (Ht : take (Z.to_nat n) (take M a ++ drop (Z.to_nat n) addrs) = take M a) by (rewrite <- Hl; apply take_app_length).
  assert (Hd : drop (Z.to_nat n) (take M a ++ drop (Z.to_nat n) addrs) = drop (Z.to_nat n) addrs) by (rewrite <- Hl at 1; apply drop_app_length).
  assert (Hk : take (Z.to_nat k) b = take (M - length a) b).
  { destruct (decide (length b <= M - length a)%nat); [rewrite !take_ge; unfold k, n; lia || done |].
    f_equal. unfold k, n. lia. }
  assert (Hkd : drop (Z.to_nat k) b = drop (M - length a) b).
  { destruct (decide (length b <= M - length a)%nat); [rewrite !drop_ge; unfold k, n; lia || done |].
    f_equal. unfold k, n. lia. }
  split; [unfold k, n; lia |]. split; [unfold k, n; lia |]. rewrite Hd, Ht. split; [rewrite length_drop; unfold k, n; lia |]. split.
  - rewrite Hk, drop_drop, take_app. rewrite <- app_assoc. do 2 f_equal. f_equal. unfold k, n. lia.
  - by rewrite Hkd, drop_app.
Qed.

Lemma pop_thread_ok M l sl s addrs l1 td l2 n s' addrs' d :
  max_ptrs = Z.of_nat M -> max_ptrs <= INT_MAX -> max_ptrs <= zlen addrs -> l = l1 ++ td :: l2 ->
  tds s !! td = Some d -> queue_ready (ptr_list d) -> threads_inv l sl s' -> (td ∉ l1) -> td <> 0 ->
  popped M s addrs l1 s' n addrs' ->
  wp (pop_thread td d (n, s', addrs')) (fun '(n2, s2, addrs2) => threads_inv l sl s2 /\ popped M s addrs (l1 ++ [td]) s2 n2 addrs2).
Proof using Type.
  intros HM Hint Hroom El Hd [Wq Hidx Hnz] I Hnin H0 (En & Ea & Er & Hq & Hf). subst n.
  pose proof (take_two M (all_queued s l1) (contents (ptr_list d)) addrs ltac:(lia)) as Htwo. cbv zeta in Htwo.
  rewrite <- Ea in Htwo. set (n := Z.min (zlen (all_queued s l1)) (Z.of_nat M)) in *.
  set (k := Z.min (zlen (contents (ptr_list d))) (Z.of_nat M - n)) in *. destruct Htwo as (T1 & T2 & T3 & T4 & T5).
  pose proof (zlen_nonneg (all_queued s l1)) as Hz. unfold INT_MAX in Hint.
  unfold pop_thread. wp_step. eapply wp_td_load; [done | by rewrite Hf |]. wp_step. wp_step; [unfold int_ok, INT_MIN, INT_MAX; lia |].
  wp_step. pose proof (pop_bulk_takes (drop (Z.to_nat n) addrs') (max_ptrs - n) (ptr_list d) Wq) as Hp.
  destruct Hp as (q' & E & Wq' & Ecap & Ec); [lia | rewrite HM; done | done | done |].
  rewrite HM in E, Ec. fold k in E, Ec. rewrite HM, E. wp_step. wp_step. wp_step; [unfold int_ok, INT_MIN, INT_MAX; lia |].
  wp_step. eapply wp_td_modify; [done | by rewrite Hf |]. wp_step.
  split; [eapply inv_same_link; [done | by rewrite Hf | done] |].
  assert (Eq : queued s td = contents (ptr_list d)) by (unfold queued; by rewrite Hd).
  unfold popped. rewrite !all_queued_snoc, Eq. split; [done |]. split; [done |]. split; [| split].
  - rewrite <- T5, <- Er. f_equal.
    + apply all_queued_same. intros t Ht. cbn. rewrite lookup_insert_ne; [done |]. by intros ->.
    + unfold queued. cbn. rewrite lookup_insert_eq. exact Ec.
  - intros t e Ht He. cbn in He. apply elem_of_app in Ht as [Ht | ->%list_elem_of_singleton].
    + rewrite lookup_insert_ne in He by (by intros ->). by apply Hq.
    + rewrite lookup_insert_eq in He. injection He as <-. split; [done |]. by exists d.
  - intros t [Ht1 Ht2%not_elem_of_cons]%not_elem_of_app. cbn. rewrite lookup_insert_ne by (intros ->; by destruct Ht2). by apply Hf.
Qed.

(** The queues are emptied in the order of the list, as far as [max_ptrs]
    allows. *)
Lemma pop_all_ok l sl s addrs :
  threads_inv l sl s -> queues_ready s l -> 0 <= max_ptrs <= INT_MAX -> max_ptrs <= zlen addrs ->
  wp (foreach_thread pop_thread s (0, s, addrs)) (fun '(n, s', addrs') =>
    threads_inv l sl s' /\ popped (Z.to_nat max_ptrs) s addrs l s' n addrs').
Proof using Type.
  intros I Hr Hmax Hroom. pose proof (th_nodup _ _ _ I) as (Hnd & _ & _)%NoDup_app.
  eapply wp_mono; [apply (foreach_wp pop_thread (fun l1 '(n, s', addrs') =>
    threads_inv l sl s' /\ popped (Z.to_nat max_ptrs) s addrs l1 s' n addrs') l sl s); [done | |] |].
  - split; [done |]. unfold popped. split; [unfold zlen; cbn; lia |]. split; [cbn; by rewrite take_nil |]. split; [cbn; by rewrite drop_nil |]. split; [| done].
    intros td d Htd. by apply not_elem_of_nil in Htd.
  - intros l1 td d l2 [[n s'] addrs'] El Hd H0 [I' P]. eapply pop_thread_ok; try done; try lia.
    + eapply Hr; [| exact Hd]. rewrite El. apply elem_of_mid.
    + rewrite El in Hnd. apply NoDup_app in Hnd as (_ & Hdis & _). intros Hin. apply (Hdis td Hin). left.
  - intros [[n s'] addrs']. done.
Qed.

Lemma generate_ok l sl s addrs d :
  threads_inv l sl s -> queues_ready s l -> 0 <= max_ptrs <= INT_MAX -> max_ptrs <= zlen addrs ->
  me ∈ l -> tds s !! me = Some d ->
  exists n s' addrs', threads_inv l sl s' /\ popped (Z.to_nat max_ptrs) s addrs l s' n addrs' /\
    generate_working_pointers_list addrs s =
      if zlen (queued s' me) =? capacity (ptr_list d) - 1 then Err AssertFailed else Ok (n, s', addrs').
Proof using Type.
  intros I Hr Hmax Hroom Hme Hd. pose proof (pop_all_ok l sl s addrs I Hr Hmax Hroom) as H.
  apply wp_iff in H as ([[n s'] addrs'] & E & I' & P). exists n, s', addrs'. split; [done |]. split; [done |].
  unfold generate_working_pointers_list. rewrite E, bind_ok.
  destruct (lchain_some _ _ _ _ me (th_chain _ _ _ I') Hme) as (H0%Z.eqb_neq & d' & Hd').
  destruct P as (_ & _ & _ & Hq & _). destruct (Hq me d' Hme Hd') as (Wq & d0 & Hd0 & Ecap).
  rewrite Hd in Hd0. injection Hd0 as <-. unfold td_load, queued. rewrite H0, Hd', bind_ok.
  destruct (queue_queries (ptr_list d') Wq) as (_ & -> & _). rewrite bind_ok, Ecap. destruct (zlen (contents (ptr_list d')) =? capacity (ptr_list d) - 1); cbn [negb assert]; [done |]. by rewrite bind_ok.
Qed.

(** ** The reclaimer *)

(** The buffer the reclaimer will get, at [p]: a waiting one, or a new
    block. *)
Definition reclaimer_ready (b : buffers_t) (p : Z) : Prop :=
  p <> 0 /\
  ((g_reclaimer_list b = p /\ exists d, store b !! p = Some d /\ ab_ref_count d = 0 /\ max_ptrs <= zlen (ab_addrs d)) \/
   (g_reclaimer_list b = 0 /\ (exists rest, blocks b = p :: rest) /\ (g_default_capacity b = 0 \/ g_default_capacity b = max_ptrs))).

Lemma reclaimer_buffer_ok b p :
  0 <= max_ptrs <= INT_MAX -> reclaimer_ready b p ->
  wp (forkscan_make_reclaimer_buffer ptrs_per_thread b) (fun '(ab, b') => ab = p /\
    exists d, store b' !! p = Some d /\ ab_n_addrs d = 0 /\ ab_ref_count d = 0 /\ max_ptrs <= zlen (ab_addrs d)).
Proof using Type.
  intros Hmax [H0 [(El & d & Hd & Hr & Hl) | (El & [rest Eb] & Hc)]]; unfold forkscan_make_reclaimer_buffer; rewrite El.
  - apply Z.eqb_neq in H0 as H0'. rewrite H0'. cbn [negb]. wp_step. eapply wp_buf_load; [done.. |]. wp_step.
    eapply (wp_buf_modify _ _ _ d); [done.. |]. wp_step. eapply wp_buf_load; [done | apply lookup_insert_eq |]. wp_step.
    wp_step; [cbn; by rewrite Hr |]. wp_step. split; [done |]. eexists. cbn. rewrite lookup_insert_eq. by split_and!.
  - cbn [Z.eqb negb]. wp_step. eapply (wp_mono _ (fun b1 => g_default_capacity b1 = max_ptrs /\ blocks b1 = p :: rest)).
    { destruct Hc as [-> | Hc].
      - cbn [Z.eqb]. wp_step. fold max_ptrs. wp_step; [unfold int_ok, INT_MIN; lia |]. by wp_step.
      - destruct (Z.eqb_spec (g_default_capacity b) 0) as [E |]; [| by wp_step].
        wp_step. fold max_ptrs. wp_step; [unfold int_ok, INT_MIN; lia |]. by wp_step. }
    intros b1 [Ec Eb1]. unfold map_buffer. rewrite Eb1. wp_step. split; [done |]. eexists. cbn. rewrite lookup_insert_eq.
    split; [done |]. cbn. split; [done |]. split; [done |]. rewrite Ec, zlen_zeros; lia.
Qed.

(** The state a reclaimer leaves: all queues are empty, what was in them is in
    the buffer [p], at the head of the list handed to the collector, and the
    collector has been told in automatic mode or on request. *)
Record handed_in (l sl : list Z) (w w' : frontend_t) (p : Z) : Prop := {
  hd_threads : threads_inv l sl (threads w');
  hd_queues : all_queued (threads w') l = [];
  hd_buffer : exists d, store (bufs (shared w')) !! p = Some d /\
    ab_n_addrs d = zlen (all_queued (threads w) l) /\
    take (length (all_queued (threads w) l)) (ab_addrs d) = all_queued (threads w) l;
  hd_handoff : handoff w' = initiate_collection p (auto_run w) (if g_force_iteration w >? 0 then 1 else 0) (handoff w);
  hd_force : g_force_iteration w' = if g_force_iteration w >? 0 then 0 else g_force_iteration w;
  hd_known : forall td d, td ∈ l -> tds (threads w') !! td = Some d -> queue_wf (ptr_list d) /\
    exists d0, tds (threads w) !! td = Some d0 /\ capacity (ptr_list d) = capacity (ptr_list d0) }.

Lemma queued_empty s l td : all_queued s l = [] -> td ∈ l -> queued s td = [].
Proof using Type.
  intros H Hin. apply list_elem_of_split in Hin as (l1 & l2 & ->). unfold all_queued in H. rewrite bind_app in H.
  apply app_eq_nil in H as [_ H]. cbn in H. by apply app_eq_nil in H as [H _].
Qed.

Lemma become_ok l sl w p d :
  threads_inv l sl (threads w) -> queues_ready (threads w) l -> 0 <= max_ptrs <= INT_MAX ->
  me ∈ l -> tds (threads w) !! me = Some d -> 2 <= capacity (ptr_list d) ->
  zlen (all_queued (threads w) l) <= max_ptrs -> reclaimer_ready (bufs (shared w)) p ->
  wp (become_reclaimer w) (fun w' => handed_in l sl w w' p).
Proof using Type.
  intros I Hr Hmax Hme Hd Hcap Hfit Hp. unfold become_reclaimer.
  set (w1 := if g_force_iteration w >? 0 then set_force w 0 else w).
  assert (Ew : (if g_force_iteration w >? 0 then (1, set_force w 0) else (0, w)) =
    ((if g_force_iteration w >? 0 then 1 else 0), w1)) by (unfold w1; by destruct (g_force_iteration w >? 0)).
  rewrite Ew. assert (Esame : threads w1 = threads w /\ shared w1 = shared w /\ handoff w1 = handoff w /\ auto_run w1 = auto_run w /\
      g_force_iteration w1 = if g_force_iteration w >? 0 then 0 else g_force_iteration w)
    by (unfold w1; by destruct (g_force_iteration w >? 0)).
  destruct Esame as (E1 & E2 & E3 & E4 & E5). clearbody w1. wp_step. rewrite E2.
  eapply wp_mono; [by apply (reclaimer_buffer_ok _ p) |]. intros [ab b] (-> & dp & Hdp & _ & _ & Hroom).
  wp_step. eapply wp_buf_load; [apply Hp | exact Hdp |]. wp_step. rewrite E1.
  destruct (generate_ok l sl (threads w) (ab_addrs dp) d I Hr Hmax Hroom Hme Hd) as (n & s' & addrs' & I' & P & ->).
  destruct P as (En & Ea & Eq & Hq & _). unfold zlen in Hfit. assert (Hfit' : (length (all_queued (threads w) l) <= Z.to_nat max_ptrs)%nat) by lia.
  rewrite drop_ge in Eq by done. rewrite (queued_empty _ _ me Eq Hme). change (zlen []) with 0.
  replace (0 =? capacity (ptr_list d) - 1) with false by lia. wp_step.
  wp_step. eapply wp_buf_modify; [apply Hp | exact Hdp |]. wp_step. rewrite take_ge in Ea by done. cbn in *.
  split; cbn; try done.
  - eexists. rewrite lookup_insert_eq. split; [done |]. cbn. split; [unfold zlen in *; lia |].
    rewrite Ea. apply take_app_length.
  - by rewrite E3, E4.
Qed.

(** ** Retiring *)

Lemma free_some_frame w w1 d : me <> 0 -> tds (threads w) !! me = Some d -> free_some w = Ok w1 ->
  (exists pl, threads w1 = set_tds (threads w) (<[me := with_td_place pl d]> (tds (threads w)))) /\
  handoff w1 = handoff w /\ auto_run w1 = auto_run w /\ g_force_iteration w1 = g_force_iteration w.
Proof using Type.
  intros H0%Z.eqb_neq Hd. unfold free_some, td_modify, td_load. rewrite H0, Hd, !bind_ok.
  destruct (forkscan_util_free_ptrs _ _ _) as [[pl g] | e]; [| done]. rewrite !bind_ok. intros [= <-].
  split; [by exists pl | done].
Qed.

(** The state after the pointer has been put into the queue. *)
Record pushed (l sl : list Z) (w w2 : frontend_t) (ptr : Z) : Prop := {
  ps_threads : threads_inv l sl (threads w2);
  ps_ready : queues_ready (threads w2) l;
  ps_mine : queued (threads w2) me = queued (threads w) me ++ [ptr];
  ps_others : forall td, td <> me -> tds (threads w2) !! td = tds (threads w) !! td;
  ps_handoff : handoff w2 = handoff w /\ auto_run w2 = auto_run w /\ g_force_iteration w2 = g_force_iteration w }.

Lemma push_ok l sl w w1 d ptr :
  threads_inv l sl (threads w) -> queues_ready (threads w) l -> me ∈ l -> tds (threads w) !! me = Some d ->
  ptr <> 0 -> zlen (contents (ptr_list d)) < capacity (ptr_list d) - 1 ->
  idx_tail (ptr_list d) + zlen (contents (ptr_list d)) < MAX_IDX -> free_some w = Ok w1 ->
  exists d1 q s2, tds (threads w1) !! me = Some d1 /\ forkscan_queue_push (ptr_list d1) ptr = Ok q /\
    td_modify (threads w1) me (with_td_queue q) = Ok s2 /\ pushed l sl w (set_threads w1 s2) ptr /\
    (exists d2, tds s2 !! me = Some d2 /\ capacity (ptr_list d2) = capacity (ptr_list d)) /\
    my_queue_full (set_threads w1 s2) = Ok (zlen (contents (ptr_list d)) + 1 =? capacity (ptr_list d) - 1).
Proof using Type.
  intros I Hr Hme Hd Hptr Hroom Hidx Hf. destruct (lchain_some _ _ _ _ me (th_chain _ _ _ I) Hme) as (H0 & _).
  destruct (free_some_frame w w1 d H0 Hd Hf) as ((pl & Et) & Eh & Ea & Eg).
  destruct (Hr me d Hme Hd) as [Wq Hix Hnz]. pose proof (queue_push_appends (ptr_list d) ptr Wq) as Hp.
  pose proof (length_contents _ Wq) as Hlc. exists (with_td_place pl d).
  destruct (forkscan_queue_push (ptr_list d) ptr) as [q | e] eqn:Eq; [| lia].
  destruct Hp as (_ & Wq' & Ecap & Ec). exists q. 
  assert (Hd1 : tds (threads w1) !! me = Some (with_td_place pl d)) by (rewrite Et; apply lookup_insert_eq).
  apply Z.eqb_neq in H0 as H0'. eexists. split; [done |]. split; [done |].
  unfold td_modify, td_load at 1. rewrite H0', Hd1, bind_ok. split; [reflexivity |].
  assert (Etail : idx_tail q = idx_tail (ptr_list d)).
  { unfold forkscan_queue_push in Eq. destruct (wr _ _ _); [| done]. rewrite bind_ok in Eq.
    destruct (assert _); [| done]. rewrite bind_ok in Eq. by injection Eq as <-. }
  split; [| split].
  - split; cbn.
    + rewrite Et. eapply inv_same_link; [eapply inv_same_link; [exact I | exact Hd | done] | apply lookup_insert_eq | done].
    + intros td e Htd He. cbn in He. destruct (decide (td = me)) as [-> | Hne].
      * rewrite lookup_insert_eq in He. injection He as <-. split; cbn; [done | |].
        -- rewrite Ec, Etail, zlen_app. change (zlen [ptr]) with 1. lia.
        -- rewrite Ec, not_elem_of_app, list_elem_of_singleton. split; [done | by apply not_eq_sym].
      * rewrite lookup_insert_ne, Et in He by done. cbn in He. rewrite lookup_insert_ne in He by done. by eapply Hr.
    + unfold queued. cbn. by rewrite lookup_insert_eq, Hd.
    + intros td Hne. rewrite lookup_insert_ne, Et by done. cbn. by rewrite lookup_insert_ne.
    + done.
  - eexists. cbn. rewrite lookup_insert_eq. split; [done |]. exact Ecap.
  - unfold my_queue_full, td_load. rewrite H0'. cbn. rewrite lookup_insert_eq, bind_ok. cbn.
    destruct (queue_queries q Wq') as (_ & -> & _). rewrite Ec, zlen_app, Ecap. done.
Qed.

Lemma all_queued_length l1 l2 s s' :
  (forall td, td <> me -> tds s' !! td = tds s !! td) -> NoDup (l1 ++ me :: l2) -> 
  zlen (all_queued s' (l1 ++ me :: l2)) = zlen (all_queued s (l1 ++ me :: l2)) + zlen (queued s' me) - zlen (queued s me).
Proof using Type.
  intros Hs Hnd. apply NoDup_app in Hnd as (_ & Hdis & [Hn2 _]%NoDup_cons).
  assert (Hn1 : me ∉ l1) by (intros H; apply (Hdis me H); left).
  unfold all_queued. rewrite !bind_app. cbn. fold (all_queued s l1) (all_queued s' l1) (all_queued s l2) (all_queued s' l2).
  rewrite !zlen_app. rewrite (all_queued_same s s' l1), (all_queued_same s s' l2); [lia | |]; intros td Htd; apply Hs; by intros ->.
Qed.
End frontend.

(** * Properties *)

(** [generate_working_pointers_list] moves the pointers of all queues, thread
    after thread and oldest first, into the buffer, up to [max_ptrs] of them,
    and leaves the rest queued; if that leaves the caller's own queue full,
    an assertion fails. *)
Theorem working_list_takes ptrs_per_thread me l sl s addrs d :
  let M := max_ptrs ptrs_per_thread in
  threads_inv l sl s -> queues_ready s l -> 0 <= M <= INT_MAX -> M <= zlen addrs -> me ∈ l -> tds s !! me = Some d ->
  exists n s' addrs', n = Z.min (zlen (all_queued s l)) M /\
    addrs' = take (Z.to_nat M) (all_queued s l) ++ drop (Z.to_nat n) addrs /\
    all_queued s' l = drop (Z.to_nat M) (all_queued s l) /\ threads_inv l sl s' /\
    generate_working_pointers_list ptrs_per_thread me addrs s =
      if zlen (queued s' me) =? capacity (ptr_list d) - 1 then Err AssertFailed else Ok (n, s', addrs').
Proof.
  intros M I Hr Hmax Hroom Hme Hd.
  destruct (generate_ok ptrs_per_thread me l sl s addrs d I Hr Hmax Hroom Hme Hd) as (n & s' & addrs' & I' & (P1 & P2 & P3 & _) & E).
  exists n, s', addrs'. split; [rewrite P1; f_equal; lia |]. done.
Qed.

(** C19: [forkscan_retire] loses no pointer: the one retired is queued, and if the
    queue is then full and the thread gets the lock, everything queued is in
    one buffer that the collector has been handed, and all queues are
    empty.  [free_some] is the freeing the call does first. *)
Theorem retire_hands_in ptrs_per_thread frees me l sl w w1 d ptr acquired start stop p :
  let M := max_ptrs ptrs_per_thread in
  threads_inv l sl (threads w) -> queues_ready (threads w) l -> 0 <= M <= INT_MAX ->
  me ∈ l -> tds (threads w) !! me = Some d -> ptr <> 0 -> 3 <= capacity (ptr_list d) ->
  zlen (contents (ptr_list d)) < capacity (ptr_list d) - 1 ->
  idx_tail (ptr_list d) + zlen (contents (ptr_list d)) < MAX_IDX ->
  zlen (all_queued (threads w) l) < M ->
  free_some frees me w = Ok w1 -> reclaimer_ready ptrs_per_thread (bufs (shared w1)) p ->
  exists w2, pushed me l sl w w2 ptr /\
    if zlen (contents (ptr_list d)) + 1 =? capacity (ptr_list d) - 1 then
      exists w3 s4, handed_in l sl w2 w3 p /\
        forkscan_retire ptrs_per_thread frees me ptr (true :: acquired) start stop w = Ok (set_threads w3 s4) /\
        all_queued s4 l = []
    else forkscan_retire ptrs_per_thread frees me ptr (true :: acquired) start stop w = Ok w2.
Proof.
  intros M I Hr Hmax Hme Hd Hptr Hcap Hroom Hidx Hfit Hf Hp.
  destruct (push_ok frees me l sl w w1 d ptr I Hr Hme Hd Hptr Hroom Hidx Hf) as (d1 & q & s2 & Hd1 & Eq & E2 & P & (d2 & Hd2 & Hc2) & Efull).
  exists (set_threads w1 s2). split; [done |].
  destruct (lchain_some _ _ _ _ me (th_chain _ _ _ I) Hme) as (H0%Z.eqb_neq & _).
  assert (E : forkscan_retire ptrs_per_thread frees me ptr (true :: acquired) start stop w =
    if zlen (contents (ptr_list d)) + 1 =? capacity (ptr_list d) - 1 then
      let! w := retire_loop ptrs_per_thread frees me (true :: acquired) (set_threads w1 s2) in
      let! s := td_modify (threads w) me (fun d => with_td_wait (u64 (wait_time_ms d + u64 (stop - start))) d) in
      Ok (set_threads w s)
    else Ok (set_threads w1 s2)).
  { unfold forkscan_retire. apply Z.eqb_neq in Hptr as ->. rewrite Hf, bind_ok.
    unfold td_load at 1. by rewrite H0, Hd1, bind_ok, Eq, bind_ok, E2, bind_ok, Efull, bind_ok. }
  rewrite E. clear E. destruct (zlen (contents (ptr_list d)) + 1 =? capacity (ptr_list d) - 1); [| done].
  assert (Hfit2 : zlen (all_queued s2 l) <= M).
  { apply list_elem_of_split in Hme as (l1 & l2 & ->). pose proof (th_nodup _ _ _ I) as (Hnd & _ & _)%NoDup_app.
    rewrite (all_queued_length me l1 l2 (threads w) s2); [| apply (ps_others _ _ _ _ _ _ P) | done].
    pose proof (ps_mine _ _ _ _ _ _ P) as Em. cbn in Em. rewrite Em, zlen_app. change (zlen [ptr]) with 1. lia. }
  pose proof (become_ok ptrs_per_thread me l sl (set_threads w1 s2) p d2 (ps_threads _ _ _ _ _ _ P) (ps_ready _ _ _ _ _ _ P)
    Hmax Hme Hd2 ltac:(lia) Hfit2 Hp) as H. apply wp_iff in H as (w3 & E3 & H3).
  destruct (lchain_some _ _ _ _ me (th_chain _ _ _ (hd_threads _ _ _ _ _ H3)) Hme) as (_ & d3 & Hd3).
  destruct (hd_known _ _ _ _ _ H3 me d3 Hme Hd3) as (W3 & d0 & Hd0 & Ecap3). cbn in Hd0. rewrite Hd2 in Hd0. injection Hd0 as <-.
  assert (Hempty : contents (ptr_list d3) = []).
  { pose proof (queued_empty _ _ me (hd_queues _ _ _ _ _ H3) Hme) as Hq. unfold queued in Hq. by rewrite Hd3 in Hq. }
  cbn [retire_loop]. rewrite E3, bind_ok. unfold my_queue_full, td_load at 1. rewrite H0, Hd3, bind_ok.
  destruct (queue_queries (ptr_list d3) W3) as (_ & -> & _). rewrite Hempty, bind_ok. change (zlen []) with 0.
  replace (0 =? capacity (ptr_list d3) - 1) with false by lia. rewrite bind_ok.
  unfold td_modify, td_load. rewrite H0, Hd3, !bind_ok. exists w3. eexists. split; [done |]. split; [reflexivity |].
  rewrite <- (hd_queues _ _ _ _ _ H3). unfold all_queued. clear -Hd3. induction l as [|x l IH]; [done |]. cbn. rewrite IH. f_equal.
  unfold queued. cbn. destruct (decide (x = me)) as [-> | Hne]; [by rewrite lookup_insert_eq, Hd3 | by rewrite lookup_insert_ne].
Qed.

(** [forkscan_force_reclaim] with the lock hands in all queued pointers, asks
    for an iteration whether or not the library runs automatically, and returns
    0; without it, it returns 1 once another reclaimer has honoured the
    request. *)
Theorem force_reclaim_answers ptrs_per_thread frees me l sl w d acquired others p :
  threads_inv l sl (threads w) -> queues_ready (threads w) l -> 0 <= max_ptrs ptrs_per_thread <= INT_MAX ->
  me ∈ l -> tds (threads w) !! me = Some d -> 2 <= capacity (ptr_list d) ->
  zlen (all_queued (threads w) l) <= max_ptrs ptrs_per_thread ->
  reclaimer_ready ptrs_per_thread (bufs (shared w)) p ->
  (exists w', forkscan_force_reclaim ptrs_per_thread frees me (true :: acquired) others w = Ok (0, w') /\
    handed_in l sl (set_force w 1) w' p /\ g_force_iteration w' = 0 /\
    g_waiting_collects (handoff w') = g_waiting_collects (handoff w) + 1) /\
  forall w1, free_some frees me (set_force w 1) = Ok w1 -> g_force_iteration (others w1) = 0 ->
    forkscan_force_reclaim ptrs_per_thread frees me (false :: acquired) others w = Ok (1, others w1).
Proof.
  intros I Hr Hmax Hme Hd Hcap Hfit Hp. unfold forkscan_force_reclaim. cbn [force_loop]. split.
  - pose proof (become_ok ptrs_per_thread me l sl (set_force w 1) p d I Hr Hmax Hme Hd Hcap Hfit Hp) as H.
    apply wp_iff in H as (w' & E & H). exists w'. rewrite E, bind_ok. split; [done |]. split; [done |].
    split; [by rewrite (hd_force _ _ _ _ _ H) |]. rewrite (hd_handoff _ _ _ _ _ H). cbn. by rewrite orb_true_r.
  - intros w1 Hf H0. unfold yield. by rewrite Hf, bind_ok, H0.
Qed.

(** ** Witnesses: one thread with a queue of four places, two of them taken *)

Definition demo_full : queue_t := mk_queue [0x10; 0x20; 0; 0] 4 2 4.

Definition demo_record (q : queue_t) : thread_data_t :=
  mk_td 0 1 0x7000 0x8000 1 1 q 0x100000 0 (mk_place 0 0 0) 0 0 (mk_range 0 0) 1.

Definition demo_list : threads_t :=
  mk_threads {[0x1000 := demo_record demo_full]} 0x1000 1 0 (mk_pool ∅ 0 []) (mk_pool ∅ 0 []) (mk_pool ∅ 0 []).

Definition demo_front : frontend_t :=
  mk_frontend demo_list (mk_shared (buffers_start [0x50000]) []) (handoff_start 0) 0 1.

Lemma demo_list_inv : threads_inv [0x1000] [] demo_list.
Proof.
  split; [| done | apply NoDup_singleton | done | done].
  split; [done |]. split; [done |]. by eexists.
Qed.

Lemma demo_queues_ready : queues_ready demo_list [0x1000].
Proof.
  intros td d ->%list_elem_of_singleton Hd. vm_compute in Hd. injection Hd as <-. split.
  - split; cbn; [exists 2; split; [lia | done] | done | unfold MAX_IDX; lia | lia].
  - by vm_compute.
  - apply (bool_decide_unpack _). by vm_compute.
Qed.

Lemma working_list_takes_witness :
  exists n s' addrs', n = Z.min (zlen (all_queued demo_list [0x1000])) 1024 /\
    addrs' = take (Z.to_nat 1024) (all_queued demo_list [0x1000]) ++ drop (Z.to_nat n) (zeros 1024) /\
    all_queued s' [0x1000] = drop (Z.to_nat 1024) (all_queued demo_list [0x1000]) /\ threads_inv [0x1000] [] s' /\
    generate_working_pointers_list 4 0x1000 (zeros 1024) demo_list =
      if zlen (queued s' 0x1000) =? 4 - 1 then Err AssertFailed else Ok (n, s', addrs').
Proof.
  apply (working_list_takes 4 0x1000 [0x1000] [] demo_list (zeros 1024) (demo_record demo_full)); try done.
  - apply demo_list_inv.
  - apply demo_queues_ready.
  - left.
Defined.

Lemma retire_hands_in_witness :
  exists w2, pushed 0x1000 [0x1000] [] demo_front w2 0x30 /\
    exists w3 s4, handed_in [0x1000] [] w2 w3 0x50000 /\
      forkscan_retire 4 8 0x1000 0x30 [true] 0 5 demo_front = Ok (set_threads w3 s4) /\ all_queued s4 [0x1000] = [].
Proof.
  apply (retire_hands_in 4 8 0x1000 [0x1000] [] demo_front demo_front (demo_record demo_full) 0x30 [] 0 5 0x50000); try done.
  - apply demo_list_inv.
  - apply demo_queues_ready.
  - left.
  - split; [done |]. right. split; [done |]. split; [by exists [] | by left].
Defined.

Lemma force_reclaim_answers_witness :
  (exists w', forkscan_force_reclaim 4 8 0x1000 [true] (fun w => w) demo_front = Ok (0, w') /\
    handed_in [0x1000] [] (set_force demo_front 1) w' 0x50000 /\ g_force_iteration w' = 0 /\
    g_waiting_collects (handoff w') = 1) /\
  forkscan_force_reclaim 4 8 0x1000 [false] (fun w => set_force w 0) demo_front = Ok (1, demo_front).
Proof.
  assert (H := fun others => force_reclaim_answers 4 8 0x1000 [0x1000] [] demo_front (demo_record demo_full) [] others 0x50000
    demo_list_inv demo_queues_ready ltac:(done) ltac:(left) eq_refl ltac:(done) ltac:(done)
    ltac:(split; [done |]; right; split; [done |]; split; [by exists [] | by left])).
  split; [apply (H (fun w => w)) | by apply (proj2 (H (fun w => set_force w 0)) (set_force demo_front 1))].
Defined.
