(* ===== verification/Api.v ===== *)
(** frontend.c, forkscan.c: allocating through the library.

    [forkscan_malloc] and [forkscan_free] call the allocator that
    [forkscan_set_allocator] installed (TCMalloc, if none was), with
    [g_in_malloc] set, so that a signal that comes meanwhile is acknowledged
    only afterwards; [forkscan_automalloc] retires what it has allocated.  The
    allocator is an interface: its operations, and the laws that every
    [malloc] has.  ([Handshake] has the signals at every point of the code;
    here they come during the call of the allocator or right after.) *)
From Stdlib Require Import String.
From S2P Require Import Prelude AddrBuffer Queue Alloc Pool Buffer Free Threads Handoff Stats Frontend.

(** * The allocator *)

(** The functions behind [__forkscan_alloc], [__forkscan_free] and
    [__forkscan_usable_size], on a heap [H]. *)
Record allocator_t (H : Type) : Type := mk_allocator {
  alloc : Z -> H -> Z * H;
  dealloc : Z -> H -> H;
  usable_size : Z -> H -> Z }.
Arguments alloc {H}.
Arguments dealloc {H}.
Arguments usable_size {H}.

(** What every allocator promises: [live] are the blocks in use; a block is
    new, and aligned; a null pointer says that there is no memory. *)
Class Allocator {H : Type} (A : allocator_t H) (live : H -> gset Z) : Prop := {
  alloc_law : forall size h p h', alloc A size h = (p, h') ->
    if p =? 0 then live h' = live h
    else (p ∉ live h) /\ p mod 4 = 0 /\ live h' = {[p]} ∪ live h;
  dealloc_law : forall p h, p ∈ live h -> live (dealloc A p h) = live h ∖ {[p]} }.

(** * Signals and the allocator *)

(** The thread's two flags, and how often it has called
    [forkscan_acknowledge_signal]. *)
Record local_t : Type := mk_local {
  g_in_malloc : bool;
  g_waiting_to_fork : bool;
  acknowledged : Z }.

Definition acknowledge (l : local_t) : local_t := mk_local (g_in_malloc l) (g_waiting_to_fork l) (acknowledged l + 1).

Definition signal_handler (l : local_t) : local_t :=
  if g_in_malloc l then mk_local true true (acknowledged l) else acknowledge l.

Definition delivered (signal : bool) (l : local_t) : local_t := if signal then signal_handler l else l.

Definition set_in_malloc (b : bool) (l : local_t) : local_t := mk_local b (g_waiting_to_fork l) (acknowledged l).

Definition late_acknowledge (l : local_t) : local_t :=
  if g_waiting_to_fork l then acknowledge (mk_local (g_in_malloc l) false (acknowledged l)) else l.

Section api.
Context {H : Type}.

Record api_t : Type := mk_api {
  installed : allocator_t H;
  heap : H;
  local : local_t;
  front : frontend_t;
  io : io_t }.

Definition forkscan_set_allocator (f : Z -> H -> Z * H) (d : Z -> H -> H) (u : Z -> H -> Z) (w : api_t) : api_t :=
  mk_api (mk_allocator H f d u) (heap w) (local w) (front w) (io w).

(** [s1]: a signal comes while the allocator runs; [s2]: between the reset of
    [g_in_malloc] and the test of [g_waiting_to_fork]. *)
Definition forkscan_malloc (size : Z) (s1 s2 : bool) (w : api_t) : Z * api_t :=
  let l := set_in_malloc true (local w) in
  let '(p, h) := alloc (installed w) size (heap w) in
  let l := delivered s1 l in
  let l := set_in_malloc false l in
  let l := delivered s2 l in
  (p, mk_api (installed w) h (late_acknowledge l) (front w) (io w)).

Definition forkscan_free (ptr : Z) (s1 s2 : bool) (w : api_t) : api_t :=
  let l := set_in_malloc true (local w) in
  let h := dealloc (installed w) ptr (heap w) in
  let l := delivered s1 l in
  let l := set_in_malloc false l in
  let l := delivered s2 l in
  mk_api (installed w) h (late_acknowledge l) (front w) (io w).

(** [forkscan_retire] with its message for a null pointer. *)
Definition retire (n frees me ptr : Z) (acquired : list bool) (start stop : Z) (w : api_t) : res api_t :=
  let o := if ptr =? 0 then (forkscan_diagnostic ("Tried to collect NULL." ++ nl) (io w)).2 else io w in
  let! f := forkscan_retire n frees me ptr acquired start stop (front w) in
  Ok (mk_api (installed w) (heap w) (local w) f o).

Definition forkscan_automalloc (n frees me size : Z) (s1 s2 : bool) (acquired : list bool) (start stop : Z) (w : api_t)
    : res (Z * api_t) :=
  let '(p, w) := forkscan_malloc size s1 s2 w in
  let! w := retire n frees me p acquired start stop w in
  Ok (p, w).

(** * Properties *)

Definition outside (l : local_t) : Prop := g_in_malloc l = false /\ g_waiting_to_fork l = false.

(** How often the thread must have acknowledged. *)
Definition due (s1 s2 : bool) : Z := (if s1 then 1 else 0) + (if s2 then 1 else 0).

Lemma signals_acknowledged s1 s2 l : outside l ->
  let l' := late_acknowledge (delivered s2 (set_in_malloc false (delivered s1 (set_in_malloc true l)))) in
  outside l' /\ acknowledged l' = acknowledged l + due s1 s2.
Proof using Type. intros [H1 H2]. destruct l as [? ? k], s1, s2; cbn in *; subst; (split; [done | unfold due; cbn; lia]). Qed.

(** None is acknowledged while the allocator runs. *)
Lemma never_inside l : acknowledged (signal_handler (set_in_malloc true l)) = acknowledged l.
Proof using Type. done. Qed.

Section laws.
Context (live : H -> gset Z).

(** [forkscan_malloc] answers as the installed allocator does: a new
    aligned block, or null; and every signal that came during the call has
    been acknowledged, once, when it returns.  [forkscan_free] gives the block
    back. *)
Theorem malloc_and_free size s1 s2 w p w' t1 t2 :
  Allocator (installed w) live -> outside (local w) -> forkscan_malloc size s1 s2 w = (p, w') -> p <> 0 ->
  (p ∉ live (heap w)) /\ p mod 4 = 0 /\ live (heap w') = {[p]} ∪ live (heap w) /\
  outside (local w') /\ acknowledged (local w') = acknowledged (local w) + due s1 s2 /\
  let w'' := forkscan_free p t1 t2 w' in
  live (heap w'') = live (heap w) /\ outside (local w'') /\
  acknowledged (local w'') = acknowledged (local w') + due t1 t2.
Proof using Type.
  intros L Ho E Hp. unfold forkscan_malloc in E. destruct (alloc (installed w) size (heap w)) as [q h] eqn:Ea.
  injection E as <- <-. pose proof (alloc_law size _ _ _ Ea) as Hl. rewrite (proj2 (Z.eqb_neq _ _) Hp) in Hl.
  destruct Hl as (Hn & Hm & Hh). destruct (signals_acknowledged s1 s2 _ Ho) as [Ho' Ha]. cbn [heap local].
  do 5 (split; [done |]). destruct (signals_acknowledged t1 t2 _ Ho') as [Ho'' Ha'']. cbn.
  split; [| by split]. rewrite dealloc_law by (rewrite Hh; apply elem_of_union_l, elem_of_singleton; done).
  rewrite Hh. clear - Hn. apply set_eq. intros x. set_solver.
Qed.

(** [forkscan_automalloc] returns a new block that is already queued for
    collection, so that it will be freed when nothing refers to it; with no
    memory it returns null, prints a message, and queues nothing. *)
Theorem automalloc_retires n frees me size s1 s2 acquired start stop l sl w w1 d p h :
  Allocator (installed w) live -> alloc (installed w) size (heap w) = (p, h) ->
  threads_inv l sl (threads (front w)) -> queues_ready (threads (front w)) l -> me ∈ l ->
  tds (threads (front w)) !! me = Some d -> zlen (contents (ptr_list d)) < capacity (ptr_list d) - 2 ->
  idx_tail (ptr_list d) + zlen (contents (ptr_list d)) < MAX_IDX ->
  free_some frees me (front w) = Ok w1 ->
  exists w', forkscan_automalloc n frees me size s1 s2 acquired start stop w = Ok (p, w') /\
    if p =? 0 then front w' = front w /\ live (heap w') = live (heap w) /\
      stderr (io w') = (stderr (io w) ++ "Forkscan diagnostic: Tried to collect NULL." ++ nl)%string
    else live (heap w') = {[p]} ∪ live (heap w) /\ (p ∉ live (heap w)) /\
      queued (threads (front w')) me = queued (threads (front w)) me ++ [p] /\ io w' = io w.
Proof using Type.
  intros L Ea I Hr Hme Hd Hroom Hidx Hf. pose proof (alloc_law size _ _ _ Ea) as Hl.
  unfold forkscan_automalloc, forkscan_malloc. rewrite Ea. unfold retire. cbn [front io].
  destruct (Z.eqb_spec p 0) as [-> | Hp].
  - unfold forkscan_retire. cbn [Z.eqb]. rewrite !bind_ok. eexists. split; [reflexivity |]. cbn. done.
  - destruct (push_ok frees me l sl (front w) w1 d p I Hr Hme Hd Hp ltac:(lia) Hidx Hf)
      as (d1 & q & s2' & Hd1 & Eq & E2 & P & _ & Efull).
    destruct (lchain_some _ _ _ _ me (th_chain _ _ _ I) Hme) as (H0%Z.eqb_neq & _).
    assert (E : forkscan_retire n frees me p acquired start stop (front w) = Ok (set_threads w1 s2')).
    { unfold forkscan_retire. apply Z.eqb_neq in Hp as ->. rewrite Hf, bind_ok.
      unfold td_load at 1. rewrite H0, Hd1, bind_ok, Eq, bind_ok, E2, bind_ok, Efull, bind_ok.
      by rewrite (proj2 (Z.eqb_neq _ _)) by lia. }
    rewrite E, !bind_ok. eexists. split; [reflexivity |]. cbn [heap front io threads set_threads].
    destruct Hl as (Hn & _ & Hh). split; [done |]. split; [done |]. split; [| done].
    apply (ps_mine _ _ _ _ _ _ P).
Qed.
End laws.
End api.

(** ** Witnesses *)

(** An allocator that counts upwards, and has blocks only where it has not
    been before. *)
Definition demo_alloc (size : Z) (h : Z * gset Z) : Z * (Z * gset Z) :=
  if (h.1 mod 4 =? 0) && negb (h.1 =? 0) && bool_decide (h.1 ∉ h.2)
  then (h.1, (h.1 + 16, {[h.1]} ∪ h.2)) else (0, h).

Definition demo_allocator : allocator_t (Z * gset Z) :=
  mk_allocator _ demo_alloc (fun p h => (h.1, h.2 ∖ {[p]})) (fun _ _ => 16).

#[export] Instance demo_laws : Allocator demo_allocator snd.
Proof.
  split; [| done]. intros size h p h'. cbn. unfold demo_alloc.
  destruct (Z.eqb_spec (h.1 mod 4) 0), (Z.eqb_spec h.1 0), (bool_decide_reflect (h.1 ∉ h.2)); cbn; intros [= <- <-]; try done.
  by rewrite (proj2 (Z.eqb_neq _ _)).
Qed.

Definition demo_record : thread_data_t :=
  mk_td 0 1 0x7000 0x8000 1 1 (mk_queue [0; 0; 0; 0] 4 0 4) 0x100000 0 (mk_place 0 0 0) 0 0 (mk_range 0 0) 1.
Definition demo_front : frontend_t :=
  mk_frontend (mk_threads {[0x1000 := demo_record]} 0x1000 1 0 (mk_pool ∅ 0 []) (mk_pool ∅ 0 []) (mk_pool ∅ 0 []))
    (mk_shared (buffers_start [0x50000]) []) (handoff_start 0) 0 1.
Definition demo_api : api_t := mk_api demo_allocator (64, ∅) (mk_local false false 5) demo_front (mk_io "" "").

Definition demo_after : api_t := (forkscan_malloc 16 true true demo_api).2.

Lemma malloc_and_free_witness :
  (64 ∉ snd (heap demo_api)) /\ 64 mod 4 = 0 /\ snd (heap demo_after) = {[64]} ∪ snd (heap demo_api) /\
  outside (local demo_after) /\ acknowledged (local demo_after) = acknowledged (local demo_api) + due true true /\
  let w'' := forkscan_free 64 true false demo_after in
  snd (heap w'') = snd (heap demo_api) /\ outside (local w'') /\
  acknowledged (local w'') = acknowledged (local demo_after) + due true false.
Proof.
  apply (malloc_and_free snd 16 true true demo_api 64 demo_after true false demo_laws); [by split | reflexivity | done].
Defined.

Lemma demo_front_inv : threads_inv [0x1000] [] (threads demo_front).
Proof. split; [| done | apply NoDup_singleton | done | done]. split; [done |]. split; [done |]. by eexists. Qed.

Lemma demo_front_ready : queues_ready (threads demo_front) [0x1000].
Proof.
  intros td d ->%list_elem_of_singleton Hd. vm_compute in Hd. injection Hd as <-. split.
  - split; cbn; [exists 2; split; [lia | done] | done | unfold MAX_IDX; lia | lia].
  - by vm_compute.
  - apply (bool_decide_unpack _). by vm_compute.
Qed.

Definition demo_freed : frontend_t :=
  match free_some 8 0x1000 demo_front with Ok w => w | Err _ => demo_front end.

Lemma automalloc_retires_witness :
  exists w', forkscan_automalloc 4 8 0x1000 16 false false [] 0 0 demo_api = Ok (64, w') /\
    snd (heap w') = {[64]} ∪ ∅ /\ (64 ∉ (∅ : gset Z)) /\
    queued (threads (front w')) 0x1000 = [] ++ [64] /\ io w' = io demo_api.
Proof.
  apply (automalloc_retires snd 4 8 0x1000 16 false false [] 0 0 [0x1000] [] demo_api demo_freed demo_record 64 (80, {[64]} ∪ ∅)
    demo_laws); [reflexivity | apply demo_front_inv | apply demo_front_ready | left | reflexivity | by vm_compute | by vm_compute |
    vm_compute; reflexivity].
Defined.
